(* ===== verification/_CoqProject ===== *)
-Q . S2P
Prelude.v
Net.v
NetMon.v
Id.v
Rendezvous.v
Card.v
Wire.v
Tls.v
Relay.v
Paths.v
TagBook.v
RelayClient.v
Sends.v
RelaySocket.v
RelayTls.v
Session.v
Endpoint.v
Blossom.v
Http.v
WebSocket.v
Engine.v
EngineInv.v
Bindings.v
EngineStore.v
RelayServer.v
RelayTyping.v
Network.v
TagNetwork.v
Runtime.v
Backpressure.v
BlobNode.v
Spike.v
Connections.v
Streams.v
Requests.v
HostRecords.v
RelayPool.v
Keys.v
