(* ===== verification/Prelude.v ===== *)
(** * ForgeSworn Link: a verification development

    ForgeSworn Link gives two nodes, each named by an Ed25519 key, a QUIC session
    that starts over a WebSocket relay and moves to a direct UDP path when one is
    proved.  A node publishes a signed _card_ with its relays and addresses.  A
    relay forwards datagrams between sessions that either authenticated a node
    identity or registered opaque _rendezvous tags_ derived per pair, host and
    hour.  The endpoint's _path socket_ sits under QUIC: it addresses peers by
    synthetic addresses, sends on a direct path only while a sealed probe proved
    it recently, and otherwise hands datagrams to a _relay driver_.  A _session_
    follows both and records every change of path.  The _endpoint_ opens, dials,
    accepts and pairs sessions, each pinned by TLS raw public keys.  The _engine_
    above it holds a phone's paired routes: it dials them under one lock, bridges
    WebSockets and carries an allowlist of bounded HTTP requests.

    This library models that core from its source under [src/crates] and proves
    what makes it correct.

    ** Files

    - [Prelude]: outcomes ([exec] for code that can panic, [result] for Rust's),
      bytes, machine integers, byte arrays, slices that panic out of range, UTF-8,
      time, hash-map iteration order, and the tactics and hints the rest shares.
    - [Net] ([link-core/card.rs] address helpers, [path_socket.rs]
      [local_addresses]): socket addresses, IPv4-mapped forms, local candidates.
    - [NetMon] ([netmon.rs]): the interface monitor and its generation.
    - [Id] ([link-core/id.rs]): node identities, base32 text, SPKI, keys.  The
      class [Crypto] holds Ed25519 and SHA-256, [CryptoLaws] that a signature of a
      key verifies under its public key.
    - [Rendezvous] ([link-core/rendezvous.rs]): epochs and tag derivation; the
      class [RdvCrypto] holds HKDF and secp256k1.
    - [Card] ([link-core/card.rs]): hints, card encoding, signing, and [verify]
      with its nine ordered rules.
    - [Wire] ([link-core/wire.rs]): relay frames, relay authentication, reflector
      datagrams, probes; the class [Mac] holds HMAC-SHA256.
    - [Tls] ([link-core/tls.rs]): the four certificate verifiers, each the record of
      its trait methods, and which handshakes finish; the class [RawKeyTls] holds
      the signature check of rustls.
    - [Relay] ([link-relay/lib.rs]): the registry, budgets, the reflector and the
      session loop, composed into a transition system whose steps are admission,
      first frame, one [select!] branch, delivery of one queued copy, clean-up
      and release of one connection, so that every interleaving is a trace.
    - [Paths] ([link-endpoint/path_socket.rs]): the shared path state and every
      operation on it; a history is any sequence of operations.
    - [TagBook] ([link-endpoint/rendezvous_book.rs]): the three tables, the send
      cache, registration and resolution.
    - [RelayClient] ([link-endpoint/relay_client.rs]): relay URLs, one driver (its
      queue, connection, pump and reconnect loop) as a machine over events, and
      the pool of drivers.
    - [RelaySocket] ([link-endpoint/relay_socket]): the browser's relay socket, its
      bounded queue and the shutdown barrier.
    - [RelayTls] ([relay_tls.rs]): which relay certificates are accepted.
    - [Session] ([link-endpoint/session.rs], [link-core/path.rs]): the control
      stream, the transition record and the machine [drive], over [Paths].
    - [Endpoint] ([link-endpoint/endpoint.rs]): configuration, cards, pairing
      registrations, and the dials and accepts over [Paths], [TagBook], [Tls] and
      [Session], one event per await; then the abstract session table it refines.
    - [Blossom] ([link-blossom/src]): the blob exchange over one stream, its codec,
      server, client and [fsl] sources; the class [Hex] holds the hex crate.
    - [Http] ([link-engine/lib.rs], [blob_http.rs]): the request allowlist, requests
      sent, responses decoded, route records and frames.
    - [WebSocket] ([link-websocket/lib.rs]): the virtual URL, the handle's queues and
      the driver.
    - [Engine] ([link-engine/lib.rs]): the engine's state and calls over [Endpoint];
      [EngineInv] its invariant, which every call and event preserves; [EngineStore]
      the host's records it mirrors and the theorems about whole histories.
    - [Bindings] ([link-ffi/lib.rs], [link-web/web.rs]): JavaScript values in and
      out, the page's engine, the FFI's blocking calls, socket listeners.
      [HostRecords] holds the records that cross to a host, the rest of both
      bindings' calls and what the [Debug] form of each record shows.
    - [RelayServer] ([link-relay/lib.rs], [main.rs]): [start], the certificate, what
      the binary prints, and [shutdown] over the transition system of [Relay];
      [RelayTyping] types every frame queued, or on its way to a queue, by the mode
      of the session it is for.
    - [Runtime] ([rt.rs], [relay_socket/native.rs]): the browser's timers, intervals
      and timeouts over [setTimeout], the clock, and the native relay socket.
    - [Backpressure] ([path_socket.rs], [relay_client.rs]): quinn's pollers, the path
      socket and the drivers on the relay queues and the set of wakers they share,
      one atomic access per step; then the same with the pump's writes suspended.
    - [RelayPool] ([relay_client.rs], [relay_socket]): the task of every driver, its
      sockets and the callers of [RelayClient::closed], interleaved; it composes the
      turns of [RelayClient] with the count of sockets of [RelaySocket].
    - [Sends] ([relay_client.rs]): any number of [try_send]s under way, a step for each
      read of what they share with the driver task, and the task's turns between them.
    - [Network] ([path_socket.rs], [relay_client.rs], [link-relay/lib.rs]): nodes, each
      a path socket of [Paths] over a driver of [RelayClient], wires, the relay of
      [Relay] and outsiders, as one system; [TagNetwork] the same with drivers in tag
      mode.
    - [Connections] ([tls.rs], [endpoint.rs]): the TLS and QUIC configurations, the
      handshake between two endpoints, the accept loop, the lifetime of a pairing
      session and [Endpoint::close].
    - [Streams] ([session.rs]): the streams of a session in one direction, from the
      opener through the accept loop to [accept_stream], and the control loops.
    - [BlobNode] ([link-blossom]): a fetch by URL from the name of a node to its body,
      and the accept loop of the server.
    - [Requests] ([link-engine/lib.rs]): one request against the clock.
    - [Spike] ([link-spike/main.rs]): [keygen], [card], [serve] and [send].
    - [Keys] ([id.rs], [rendezvous.rs]): hex text, fresh transport keys and card
      ephemerals; the class [Secp256k1] holds the public key of a scalar.

    Where a component reads a clock, draws a nonce, receives bytes or asks the
    operating system, the value is an argument of its definition.  A mutex-guarded
    section, or one branch of a [select!], is one step; the theorems quantify over
    all sequences of steps.  A dropped future is an event of its own.

    ** What is proved

    - _Cards_: [Card_verify] never panics and reports exactly the first rule that
      an independent specification says fails; an accepted card re-encodes to its
      own bytes; a signed card verifies.
    - _Codecs_: frames, probes, reflector datagrams, base32 identities, control
      messages and browser URLs round trip, and their decoders are total and accept
      nothing but encodings.  Signing inputs and tag inputs separate.
    - _Relay_: in every reachable state each registration belongs to a live
      session of the right mode, the counters are exact and within the caps, a
      source named to a receiver authenticated itself; every session is sent frames
      of its own mode only ([relay_speaks_its_language]); the relay can always drain,
      and does so after [shutdown] ([shutdown_drains]); a node given what the relay
      prints dials it, trusts it and is admitted ([printed_relay_dials]).
    - _Path socket_: a direct path and every accepted source address was proved by
      a pong to this side's own nonce under the session's key; routing, takeover
      and the relay-only mode.
    - _Tag book and relay client_: tags derived through the cache are the current
      ones; two ends meet across an hour of skew; a tag-mode driver never writes
      an identity; where its sends are not interrupted it writes a tag only to the relay
      it was derived for; attribution, bounds, status, reconnect schedule and pool.  A sender that was
      refused by a full queue is woken when there is room ([no_lost_wakeup]), also over
      a write the pump waits for ([write_gap_keeps_wakeups]), and once [closed] has returned every driver, task and browser socket is gone for
      good ([closed_is_a_barrier]).  Two nodes that drew the ephemerals of their
      cards meet on any relay ([generated_ephemerals_meet]).
      With sends and the task interleaved, a tag is on another relay than its own only
      if its send had the frame in hand when the session came up
      ([raced_tags_follow_their_relay]).
    - _The relayed transport_: whatever nodes, relay and outsiders do, a datagram that a
      node is given as another's was sent by that node to it or came from an outsider's
      relay the node lists, and never the latter where it lists only this relay
      ([relayed_datagrams_are_sent]); two nodes with this relay anywhere in their lists
      can get one across from nothing ([nodes_talk]), by tag if they hold material for
      each other and register at most 256 tags ([paired_nodes_talk_by_tag]), the relay's
      caps and budget allowing it.  Outsiders may send the relay anything, run relays of
      their own, choose what nodes sign there, present it here, welcome nodes and send
      them anything; that a signature which verifies for a node was made by it, that the
      relay draws each challenge once, and that nobody else answers under its names, are
      conditions of the steps.
    - _Session_: every entry of the record is a move of the state machine of spec 4.3 or
      one of five further moves that the theorem names ([session_record]); [Direct] is
      reported only over a fresh proof; probing ends; a relay that fails ends the
      session with its probe key registered and its slot held
      ([relay_failure_keeps_probe_key]).  The control stream is the first of a
      session's streams and the application's arrive in the order they were opened
      ([streams_in_order]).
    - _Blob exchange_: whatever arrives of an answer, the client delivers a prefix
      of the source's bytes in bounded pieces, all of the declared size or an
      error; a faithful source arrives whole.  The development tool's transfers are
      verified by both ends ([spike_transfer]).
    - _Endpoint_: a finished handshake was signed with the key the verifier allows,
      so every session is with the node it says ([handshake_identity],
      [session_identity]; that a pairing session is set up with direct paths declined is
      a flag of the session, which the path socket does not ask for), and two honest nodes do finish one, ordinary or pairing
      ([honest_nodes_connect]); histories of dials and accepts refine a table of slots,
      one unsignalled session per peer, with the ways a slot is left held named
      ([session_table_refinement]); its cards verify, for who has not seen the serial,
      and their serials rise.
    - _Engine_: requests are admitted exactly by the allowlist and answers are
      bounded by the route ([request_end_to_end]), within the deadline counted from
      the lock ([request_deadline]); a route's session is with its
      node; the engine and the host's records agree, a restart from them restores
      it, a wipe is final; one file request at a time.
    - _Sockets_: what a WebSocket over a session and a browser's relay socket
      deliver, in order, bounded, and with exactly one end; what a listener hears.
    - _Bindings_: route records round trip through JavaScript, a page's request does
      what the engine's own does, a stopped engine refuses, a callback never blocks;
      for every call, the browser's and Kotlin's read the same values out of what they
      are given, do the same to the engine, and hand back the same record, response or
      error text ([bindings_agree]).  A browser timer never fires early and a sleep of any
      length ends ([web_sleep_waits]).
    - _Divergences_ between the code and its comments are stated as theorems too:
      [stale_direct_address_accepted], [registration_overflows_frame],
      [relay_failure_keeps_probe_key], [declined_direct_is_taken], [probing_reconnects],
      [relayed_causes_never_recorded],
      [overlong_source_unseen], [refused_configuration_strands_slot],
      [long_relays_unverifiable], [twin_loses_secret], [delete_reuses_closed],
      [timeout_strands_slot], [config_debug_reveals_seed], [echo_transfer_mismatch],
      [keygen_window], [bracketed_host_unresolvable], [lock_wait_is_not_covered],
      [failed_fetch_leaves_session], [lost_relay_keeps_blocking],
      [send_race_crosses_relays].

    ** Fuel and bounds

    [to_base32_while] runs at most [fuel] turns where eight new bits give at most
    two; [evict] is given the number of entries; [print_dec] prints twenty digits,
    enough for any [u64]; [print_hex] four; [read_control] gets one more than the
    input's length and every message takes at least five bytes
    ([control_acceptor_total] shows the bound is never what ends it);
    [pieces] gets a turn per byte; a body of [size] bytes ends within [size + 2]
    polls ([body_items_spec]); [make_room] gets the queue's length and drops one
    message per turn ([make_room_spec]).  A browser's [sleep] is given any fuel above
    the number of whole timers in it and [web_sleep_waits] shows it ends within that;
    the tool writes a chunk per turn and is given one turn more than there are
    ([source_loop_words]), and reads at least a byte per turn of what arrives
    ([sink_loop_spec]).  Floating
    point in the relay's budgets is [binary64] through [SpecFloat].

    ** Not modelled

    The cryptographic primitives, rustls, quinn, hyper, tungstenite, clap, the hex
    crate and the sockets are parameters or inputs, and so are the random source and
    what the operating system answers.  Outside [Sends] a send is one step,
    which [uninterrupted_send] relates to its steps, and outside the second half of
    [Backpressure] a frame is taken and written in one, which [gapless_write] relates to
    the two.  In [Network] a node has one
    driver, on one relay; who a datagram is from is shown there for drivers that prove
    their identity, and for tags it is what [resolve] says.
    Logging, serde and the [Display] of counters and errors are left out.  A stream
    is the bytes that arrive of it, so the two halves quinn gives are not told apart
    below [Streams].  Getters, [Arc] and [Weak] handles and the wakers of a browser
    socket have no definition of their own: a value is read where it is used, and a
    poll is an event.  The fixtures inside [cfg(test)] and [timer_tests.rs] are the
    program's own tests. *)

From stdpp Require Export base decidable countable gmap list strings sorting.
From Stdlib Require Export ZArith Lia.
From Stdlib Require Strings.Byte.

Abbreviation byte := Byte.byte.

Open Scope Z_scope.

(** ** Outcomes

    [exec A] is a computation of the source that either returns or panics (a
    slice or an index out of range, an [expect] on [None]).  [result E A] is
    Rust's [Result<A, E>].  Both are monads for stdpp's [x ← e; k] notation. *)

Inductive exec (A : Type) : Type :=
  | Ret (a : A)
  | Panic.
Arguments Ret {A} a.
Arguments Panic {A}.

Inductive result (E A : Type) : Type :=
  | Ok (a : A)
  | Err (e : E).
Arguments Ok {E A} a.
Arguments Err {E A} e.

#[global] Instance exec_ret : MRet exec := λ A a, Ret a.
#[global] Instance exec_bind : MBind exec := λ A B f m,
  match m with Ret a => f a | Panic => Panic end.
#[global] Instance result_ret {E} : MRet (result E) := λ A a, Ok a.
#[global] Instance result_bind {E} : MBind (result E) := λ A B f m,
  match m with Ok a => f a | Err e => Err e end.

#[global] Instance exec_eq_dec `{EqDecision A} : EqDecision (exec A).
Proof. solve_decision. Defined.
#[global] Instance result_eq_dec `{EqDecision E, EqDecision A} :
  EqDecision (result E A).
Proof. solve_decision. Defined.

(** [Option::ok_or]. *)
Definition ok_or {E A} (e : E) (o : option A) : result E A :=
  match o with Some a => Ok a | None => Err e end.

(** An option the source unwraps with [expect]. *)
Definition expect {A} (o : option A) : exec A :=
  match o with Some a => Ret a | None => Panic end.

(** [?] on an [Option] in a function that returns an [Option]. *)
Declare Scope link_scope.
Delimit Scope link_scope with link.
Notation "x '←?' y ; z" := (match y with Some x => z | None => Ret None end)
  (at level 20, y at level 100, z at level 200, right associativity) : link_scope.
Open Scope link_scope.

(** ** Bytes and machine integers

    A byte is the standard library's [byte]; [u16], [u32] and [u64] values are
    [Z] with their range stated where it matters. *)

#[global] Instance byte_eq_dec : EqDecision byte := Byte.byte_eq_dec.

#[global] Instance byte_inhabited : Inhabited byte := populate Byte.x00.

#[global] Program Instance byte_countable : Countable byte :=
  inj_countable Byte.to_N Byte.of_N _.
Next Obligation. intros b. apply Byte.of_to_N. Qed.

Definition byte_to_Z (b : byte) : Z := Z.of_N (Byte.to_N b).

(** [z as u8]: the low eight bits. *)
Definition byte_of_Z (z : Z) : byte :=
  default Byte.x00 (Byte.of_N (Z.to_N (z mod 256))).

Definition u8 (z : Z) : Prop := 0 <= z < 2 ^ 8.
Definition u16 (z : Z) : Prop := 0 <= z < 2 ^ 16.
Definition u32 (z : Z) : Prop := 0 <= z < 2 ^ 32.
Definition u64 (z : Z) : Prop := 0 <= z < 2 ^ 64.

Definition u64_max : Z := 2 ^ 64 - 1.

(** [u64::saturating_add] on operands in range. *)
Definition sat_add64 (a b : Z) : Z := Z.min (a + b) u64_max.

(** [x.to_be_bytes()] of an [n] byte integer. *)
Fixpoint to_be (n : nat) (z : Z) : list byte :=
  match n with
  | O => []
  | S n' => to_be n' (z / 256) ++ [byte_of_Z z]
  end.

(** [uN::from_be_bytes]. *)
Definition from_be (l : list byte) : Z :=
  foldl (λ acc b, acc * 256 + byte_to_Z b) 0 l.

(** ** Fixed-size arrays

    [[u8; N]] is a list of bytes of length [N]. *)

Definition array (n : nat) : Type := { l : list byte | length l = n }.

Definition bytes_of {n} (a : array n) : list byte := proj1_sig a.

#[global] Instance array_eq_dec n : EqDecision (array n) := sig_eq_dec _.
#[global] Instance array_countable n : Countable (array n) := sig_countable _.

(** [<[u8; N]>::try_from(slice).ok()]: only a slice of exactly [N] bytes. *)
Definition try_array (n : nat) (l : list byte) : option (array n) :=
  match decide (length l = n) with
  | left H => Some (l ↾ H)
  | right _ => None
  end.

Lemma pad_length n (l : list byte) :
  length (take n l ++ replicate (n - length (take n l)) Byte.x00) = n.
Proof. rewrite length_app, length_replicate. rewrite length_take. lia. Qed.

(** [let mut out = [0u8; N]; out[..k].copy_from_slice(..)]: the first [N] bytes
    of [l], zero filled. *)
Definition pad_array (n : nat) (l : list byte) : array n :=
  exist _ _ (pad_length n l).

(** [&bytes[a..b]], which panics out of range. *)
Definition slice (a b : nat) (l : list byte) : exec (list byte) :=
  if bool_decide (a ≤ b ∧ b ≤ length l)%nat then Ret (take (b - a) (drop a l)) else Panic.

(** [bytes[i]], which panics out of range. *)
Definition index (l : list byte) (i : nat) : exec byte := expect (l !! i).

(** A byte string literal [b"..."]. *)
Definition lit (s : string) : list byte := String.list_byte_of_string s.

(** ** UTF-8

    [std::str::from_utf8] by its documented acceptance rule (the well-formed
    byte sequences of the Unicode standard, table 3-7).  A [&str] is its bytes. *)

Definition in_range (lo hi : Z) (b : byte) : bool :=
  (lo <=? byte_to_Z b) && (byte_to_Z b <=? hi).

Definition utf8_tail (b : byte) : bool := in_range 0x80 0xbf b.

Fixpoint utf8_valid (l : list byte) : bool :=
  match l with
  | [] => true
  | b0 :: rest =>
    if in_range 0 0x7f b0 then utf8_valid rest
    else match rest with
    | [] => false
    | b1 :: rest1 =>
      if in_range 0xc2 0xdf b0 then utf8_tail b1 && utf8_valid rest1
      else match rest1 with
      | [] => false
      | b2 :: rest2 =>
        if in_range 0xe0 0xef b0 then
          (if in_range 0xe0 0xe0 b0 then in_range 0xa0 0xbf b1
           else if in_range 0xed 0xed b0 then in_range 0x80 0x9f b1
           else utf8_tail b1) && utf8_tail b2 && utf8_valid rest2
        else match rest2 with
        | [] => false
        | b3 :: rest3 =>
          if in_range 0xf0 0xf4 b0 then
            (if in_range 0xf0 0xf0 b0 then in_range 0x90 0xbf b1
             else if in_range 0xf4 0xf4 b0 then in_range 0x80 0x8f b1
             else utf8_tail b1) && utf8_tail b2 && utf8_tail b3 && utf8_valid rest3
          else false
        end
      end
    end
  end.

(** [std::str::from_utf8(bytes).ok()]. *)
Definition from_utf8 (l : list byte) : option (list byte) :=
  if utf8_valid l then Some l else None.

(** ** Shared pieces of the standard library *)

(** The value of a decoder that is proved never to panic. *)
Definition run_opt {A} (m : exec (option A)) : option A :=
  match m with Ret o => o | Panic => None end.

(** [now.duration_since(earlier)], zero when [earlier] is later. *)
Definition duration_since (now earlier : Z) : Z := Z.max 0 (now - earlier).

(** [Duration::from_secs] and [Duration::from_millis], in nanoseconds. *)
Definition secs (n : Z) : Z := n * 10 ^ 9.
Definition millis (n : Z) : Z := n * 10 ^ 6.

(** The iteration order of a [HashMap] is unspecified: an operation, of which
    the program may only rely on the elements. *)
Class HashIter (K A : Type) `{Countable K} : Type := {
  hash_iter : gmap K A → list (K * A);
}.

Class HashIterLaws (K A : Type) `{Countable K} (I : HashIter K A) : Prop := {
  hash_iter_perm m : hash_iter m ≡ₚ map_to_list m;
}.

(** One lawful order. *)
Definition map_order (K A : Type) `{Countable K} : HashIter K A := {| hash_iter := map_to_list |}.

Lemma map_order_laws (K A : Type) `{Countable K} : HashIterLaws K A (map_order K A).
Proof. by split. Qed.

(** ** Tactics, hints and shared lemmas *)

Create HintDb link discriminated.

(** Case analysis on the next guard of a decoder. *)
Ltac split_if :=
  match goal with
  | |- context [if bool_decide ?P then _ else _] =>
      let H := fresh "G" in destruct (bool_decide_reflect P) as [H|H]
  | |- context [if ?b then _ else _] => let H := fresh "G" in destruct b eqn:H
  end.

Ltac split_if_in E :=
  match type of E with
  | context [if bool_decide ?P then _ else _] =>
      let H := fresh "G" in destruct (bool_decide_reflect P) as [H|H]
  | context [if ?b then _ else _] => let H := fresh "G" in destruct b eqn:H
  | context [match ?m with Some _ => _ | None => _ end] =>
      let H := fresh "G" in destruct m eqn:H
  end; try discriminate E.

(** Turn boolean comparisons among the hypotheses into propositions. *)
Ltac to_props :=
  repeat match goal with
  | H : (_ && _)%bool = true |- _ => apply andb_true_iff in H as [? ?]
  | H : (_ || _)%bool = false |- _ => apply orb_false_iff in H as [? ?]
  | H : negb _ = true |- _ => apply negb_true_iff in H
  | H : negb _ = false |- _ => apply negb_false_iff in H
  | H : bool_decide _ = true |- _ => apply bool_decide_eq_true_1 in H
  | H : bool_decide _ = false |- _ => apply bool_decide_eq_false_1 in H
  | H : (_ =? _)%Z = true |- _ => apply Z.eqb_eq in H
  | H : (_ =? _)%Z = false |- _ => apply Z.eqb_neq in H
  | H : (_ <? _)%Z = true |- _ => apply Z.ltb_lt in H
  | H : (_ <? _)%Z = false |- _ => apply Z.ltb_ge in H
  | H : (_ <=? _)%Z = true |- _ => apply Z.leb_le in H
  | H : (_ <=? _)%Z = false |- _ => apply Z.leb_gt in H
  | H : (_ =? _)%nat = true |- _ => apply Nat.eqb_eq in H
  | H : (_ =? _)%nat = false |- _ => apply Nat.eqb_neq in H
  | H : (_ <? _)%nat = true |- _ => apply Nat.ltb_lt in H
  | H : (_ <? _)%nat = false |- _ => apply Nat.ltb_ge in H
  | H : (_ <=? _)%nat = true |- _ => apply Nat.leb_le in H
  | H : (_ <=? _)%nat = false |- _ => apply Nat.leb_gt in H
  end.

Section bytes.

Lemma byte_to_Z_range b : 0 <= byte_to_Z b < 256.
Proof.
  unfold byte_to_Z. pose proof (Byte.to_N_bounded b). lia.
Qed.

Lemma byte_to_Z_of_Z z : byte_to_Z (byte_of_Z z) = z mod 256.
Proof.
  unfold byte_to_Z, byte_of_Z.
  pose proof (Z.mod_pos_bound z 256 ltac:(lia)) as Hz.
  destruct (Byte.of_N (Z.to_N (z mod 256))) as [b|] eqn:E; simpl.
  - apply Byte.to_of_N in E. rewrite E. lia.
  - apply Byte.of_N_None_iff in E. lia.
Qed.

Lemma byte_to_Z_small z : 0 <= z < 256 → byte_to_Z (byte_of_Z z) = z.
Proof. intros. rewrite byte_to_Z_of_Z. by apply Z.mod_small. Qed.

#[global] Instance byte_to_Z_inj : Inj (=) (=) byte_to_Z.
Proof.
  intros a b H. unfold byte_to_Z in H. apply N2Z.inj in H.
  pose proof (Byte.of_to_N a). pose proof (Byte.of_to_N b). congruence.
Qed.

Lemma byte_of_to_Z b : byte_of_Z (byte_to_Z b) = b.
Proof.
  apply (inj byte_to_Z). rewrite byte_to_Z_small; [done|]. apply byte_to_Z_range.
Qed.

Lemma byte_of_Z_mod z : byte_of_Z (z mod 256) = byte_of_Z z.
Proof. apply (inj byte_to_Z). rewrite !byte_to_Z_of_Z. by rewrite Z.mod_mod. Qed.

Lemma to_be_length n z : length (to_be n z) = n.
Proof. revert z; induction n as [|n IH]; intros; simpl; [done|]. rewrite length_app, IH. simpl; lia. Qed.

Lemma from_be_app l b : from_be (l ++ [b]) = from_be l * 256 + byte_to_Z b.
Proof. unfold from_be. by rewrite foldl_app. Qed.

Lemma from_be_range l : 0 <= from_be l < 256 ^ Z.of_nat (length l).
Proof.
  induction l as [|b l IH] using rev_ind; [done|].
  rewrite from_be_app, length_app. simpl length.
  pose proof (byte_to_Z_range b).
  replace (Z.of_nat (length l + 1)) with (Z.succ (Z.of_nat (length l))) by lia.
  rewrite Z.pow_succ_r by lia. lia.
Qed.

Lemma from_to_be n z : from_be (to_be n z) = z mod 256 ^ Z.of_nat n.
Proof.
  revert z; induction n as [|n IH]; intros z; simpl to_be.
  - by rewrite Z.mod_1_r.
  - rewrite from_be_app, IH, byte_to_Z_of_Z, Nat2Z.inj_succ, Z.pow_succ_r by lia.
    rewrite (Z.rem_mul_r z 256) by (try apply Z.pow_nonzero; lia). lia.
Qed.

Lemma to_from_be l : to_be (length l) (from_be l) = l.
Proof.
  induction l as [|b l IH] using rev_ind; [done|].
  rewrite length_app. simpl length. rewrite Nat.add_1_r. simpl.
  pose proof (byte_to_Z_range b).
  rewrite from_be_app, Z.div_add_l, Z.div_small, Z.add_0_r, IH by lia.
  f_equal. f_equal. rewrite <- byte_of_Z_mod.
  rewrite Z.add_comm, Z.mod_add, byte_of_Z_mod by lia. apply byte_of_to_Z.
Qed.

Lemma from_be_inj l k : length l = length k → from_be l = from_be k → l = k.
Proof. intros Hl H. by rewrite <- (to_from_be l), <- (to_from_be k), H, Hl. Qed.

Lemma from_to_be_16 z : u16 z → from_be (to_be 2 z) = z.
Proof. intros. rewrite from_to_be. by apply Z.mod_small. Qed.

Lemma from_to_be_32 z : u32 z → from_be (to_be 4 z) = z.
Proof. intros. rewrite from_to_be. by apply Z.mod_small. Qed.

Lemma from_to_be_64 z : u64 z → from_be (to_be 8 z) = z.
Proof. intros. rewrite from_to_be. by apply Z.mod_small. Qed.

Lemma to_from_be_n n l : length l = n → to_be n (from_be l) = l.
Proof. intros <-. apply to_from_be. Qed.

Lemma from_be_u16 l : length l = 2%nat → u16 (from_be l).
Proof. intros H. pose proof (from_be_range l) as R. rewrite H in R. exact R. Qed.

Lemma from_be_u64 l : length l = 8%nat → u64 (from_be l).
Proof. intros H. pose proof (from_be_range l) as R. rewrite H in R. exact R. Qed.

End bytes.

Section arrays.
Context {n : nat}.
Implicit Types (a : array n).

Lemma bytes_of_length a : length (bytes_of a) = n.
Proof. by destruct a. Qed.

Lemma try_array_bytes a : try_array n (bytes_of a) = Some a.
Proof.
  destruct a as [l H]. unfold try_array, bytes_of; simpl.
  case_match; [|congruence]. f_equal. f_equal. apply proof_irrel.
Qed.

Lemma try_array_Some l a : try_array n l = Some a ↔ l = bytes_of a.
Proof.
  split.
  - unfold try_array. case_match; [|done]. by intros [= <-].
  - intros ->. apply try_array_bytes.
Qed.

Lemma try_array_is_Some l : length l = n → ∃ a, try_array n l = Some a ∧ bytes_of a = l.
Proof. intros H. exists (l ↾ H). split; [|done]. by apply try_array_Some. Qed.

Lemma try_array_None l : length l ≠ n → try_array n l = None.
Proof. intros. unfold try_array. by case_match. Qed.

#[global] Instance bytes_of_inj : Inj (=) (=) (@bytes_of n).
Proof.
  intros a b H. apply (f_equal (try_array n)) in H.
  rewrite !try_array_bytes in H. congruence.
Qed.

Lemma bytes_of_pad l : length l = n → bytes_of (pad_array n l) = l.
Proof.
  intros H. unfold bytes_of, pad_array; simpl.
  rewrite take_ge by lia. rewrite H, Nat.sub_diag. simpl. apply app_nil_r.
Qed.

Lemma pad_array_bytes a : pad_array n (bytes_of a) = a.
Proof. apply (inj bytes_of). apply bytes_of_pad, bytes_of_length. Qed.

End arrays.

Section slices.
Implicit Types (l k : list byte).

Lemma slice_ok a b l : (a ≤ b ≤ length l)%nat → slice a b l = Ret (take (b - a) (drop a l)).
Proof. intros. unfold slice. by rewrite bool_decide_true. Qed.

Lemma slice_length a b l k : slice a b l = Ret k → length k = (b - a)%nat ∧ (a ≤ b ≤ length l)%nat.
Proof.
  unfold slice. case_bool_decide; [|done]. intros [= <-].
  rewrite length_take, length_drop. lia.
Qed.

Lemma index_ok l i : (i < length l)%nat → ∃ b, index l i = Ret b ∧ l !! i = Some b.
Proof.
  intros H. apply lookup_lt_is_Some in H as [b Hb]. exists b.
  split; [|done]. unfold index. by rewrite Hb.
Qed.

(** Reading fields off the front of a buffer that is a concatenation. *)
Lemma slice_app_l a b l k :
  (a ≤ b ≤ length l)%nat → slice a b (l ++ k) = slice a b l.
Proof.
  intros. rewrite !slice_ok by (rewrite ?length_app; lia).
  rewrite drop_app_le, take_app_le by (rewrite ?length_drop; lia). done.
Qed.

Lemma slice_app_r a b l k :
  (length l ≤ a ≤ b)%nat → slice a b (l ++ k) = slice (a - length l) (b - length l) k.
Proof.
  intros. unfold slice. rewrite length_app.
  rewrite (bool_decide_ext _ (a - length l ≤ b - length l ∧ b - length l ≤ length k)%nat) by lia.
  case_bool_decide; [|done]. f_equal.
  rewrite drop_app_ge by lia. f_equal. lia.
Qed.

Lemma slice_all n l : length l = n → slice 0 n l = Ret l.
Proof. intros <-. rewrite slice_ok by lia. rewrite drop_0, Nat.sub_0_r, take_ge by lia. done. Qed.

Lemma slice_full a b l : a = 0%nat → b = length l → slice a b l = Ret l.
Proof. intros -> ->. by apply slice_all. Qed.

Lemma index_hd l i : i = 0%nat → index l i = expect (head l).
Proof. intros ->. by destruct l. Qed.

Lemma index_app_l l k i : (i < length l)%nat → index (l ++ k) i = index l i.
Proof. intros. unfold index. by rewrite lookup_app_l. Qed.

Lemma index_app_r l k i : (length l ≤ i)%nat → index (l ++ k) i = index k (i - length l).
Proof. intros. unfold index. by rewrite lookup_app_r. Qed.

End slices.

(** Reassembling a buffer from the slices a decoder read. *)
Lemma slice_glue a b c l x y :
  slice a b l = Ret x → slice b c l = Ret y → slice a c l = Ret (x ++ y).
Proof.
  intros Hx Hy. pose proof (slice_length _ _ _ _ Hx) as [_ ?].
  pose proof (slice_length _ _ _ _ Hy) as [_ ?].
  rewrite slice_ok in Hx, Hy |- * by lia. simplify_eq. f_equal.
  rewrite <- (take_drop (b - a) (take (c - a) (drop a l))) at 1.
  rewrite take_take, Nat.min_l by lia. f_equal.
  rewrite skipn_firstn_comm, drop_drop. f_equal; [lia|]. f_equal. lia.
Qed.

Lemma index_slice l i b : index l i = Ret b → slice i (S i) l = Ret [b].
Proof.
  unfold index. destruct (l !! i) as [x|] eqn:E; simpl; [|done]. intros [= ->].
  pose proof (lookup_lt_Some _ _ _ E). rewrite slice_ok by lia. f_equal.
  rewrite (drop_S _ _ _ E). replace (S i - i)%nat with 1%nat by lia. done.
Qed.

Lemma slice_whole l x : slice 0 (length l) l = Ret x → x = l.
Proof. rewrite slice_all by done. congruence. Qed.

Lemma exec_bind_Ret {A B} (m : exec A) (f : A → exec B) b :
  m ≫= f = Ret b → ∃ a, m = Ret a ∧ f a = Ret b.
Proof. destruct m; [eauto | done]. Qed.

Lemma exec_bind_Ret_l {A B} (a : A) (f : A → exec B) : (Ret a ≫= f) = f a.
Proof. done. Qed.

Lemma result_bind_Ok {E A B} (m : result E A) (f : A → result E B) b :
  m ≫= f = Ok b → ∃ a, m = Ok a ∧ f a = Ok b.
Proof. destruct m; [eauto | done]. Qed.

Create Rewrite HintDb lens.

#[export] Hint Rewrite @length_app to_be_length @bytes_of_length @length_take @length_drop
  @length_replicate @length_fmap : lens.

(** Lengths of encoded buffers. *)
Ltac lens := autorewrite with lens; simpl length in *; lia.

(** Evaluate the reads of a decoder on an encoded buffer. *)
Ltac read1 :=
  match goal with
  | |- context [Ret ?a ≫= ?f] => rewrite (exec_bind_Ret_l a f)
  | |- context [slice ?a ?b (?l ++ ?k) ≫= _] =>
      first [ rewrite (slice_full a b (l ++ k)) by lens
            | rewrite (slice_app_r a b l k) by lens
            | rewrite (slice_app_l a b l k) by lens ]
  | |- context [slice ?a ?b ?l ≫= _] => rewrite (slice_full a b l) by lens
  | |- context [index (?l ++ ?k) ?i ≫= _] =>
      first [ rewrite (index_app_r l k i) by lens | rewrite (index_app_l l k i) by lens ]
  | |- context [index ?l ?i ≫= _] => rewrite (index_hd l i) by lens
  end; cbn beta.
Ltac reads := repeat read1.

(** Take apart a successful chain of reads. *)
Ltac unread E :=
  repeat match type of E with
  | (_ ≫= _) = Ret _ =>
      let x := fresh "x" in let Hx := fresh "Hx" in
      apply exec_bind_Ret in E as (x & Hx & E)
  end.
