(* ===== verification/Net.v ===== *)
(** * Net: socket addresses

    The part of [std::net] the program uses, with [to_ipv6] and [unmap_ipv6] of
    [link-core/src/card.rs] and the candidate rules of
    [link-endpoint/src/path_socket.rs].  A v6 socket address is one with flow
    label and scope zero, as [SocketAddr::new] builds it. *)

From S2P Require Import Prelude.

Open Scope Z_scope.

Inductive IpAddr : Type :=
  | V4 (octets : array 4)
  | V6 (octets : array 16).

Record SocketAddr : Type := mkSocketAddr { sa_ip : IpAddr; sa_port : Z }.

#[global] Instance IpAddr_eq_dec : EqDecision IpAddr.
Proof. solve_decision. Defined.
#[global] Instance SocketAddr_eq_dec : EqDecision SocketAddr.
Proof. solve_decision. Defined.

#[global] Program Instance IpAddr_countable : Countable IpAddr :=
  inj_countable' (λ ip, match ip with V4 a => inl a | V6 a => inr a end)
    (λ s, match s with inl a => V4 a | inr a => V6 a end) _.
Next Obligation. by intros []. Qed.

#[global] Program Instance SocketAddr_countable : Countable SocketAddr :=
  inj_countable' (λ s, (sa_ip s, sa_port s)) (λ p, mkSocketAddr p.1 p.2) _.
Next Obligation. by intros []. Qed.

(** The ten zero bytes and two [0xff] bytes of a v4-mapped address. *)
Definition mapped_prefix : list byte := replicate 10 Byte.x00 ++ [Byte.xff; Byte.xff].

(** [Ipv4Addr::to_ipv6_mapped]. *)
Definition to_ipv6_mapped (v4 : array 4) : array 16 :=
  pad_array 16 (mapped_prefix ++ bytes_of v4).

(** [Ipv6Addr::to_ipv4_mapped]. *)
Definition to_ipv4_mapped (v6 : array 16) : option (array 4) :=
  if bool_decide (take 12 (bytes_of v6) = mapped_prefix)
  then Some (pad_array 4 (drop 12 (bytes_of v6))) else None.

Definition to_ipv6 (ip : IpAddr) : array 16 :=
  match ip with
  | V6 v6 => v6
  | V4 v4 => to_ipv6_mapped v4
  end.

Definition unmap_ipv6 (addr : SocketAddr) : SocketAddr :=
  match sa_ip addr with
  | V6 v6 =>
    match to_ipv4_mapped v6 with
    | Some v4 => mkSocketAddr (V4 v4) (sa_port addr)
    | None => addr
    end
  | V4 _ => addr
  end.

Definition is_ipv4 (ip : IpAddr) : bool :=
  match ip with V4 _ => true | V6 _ => false end.

(** [IpAddr::is_unspecified]. *)
Definition is_unspecified (ip : IpAddr) : bool :=
  match ip with
  | V4 a => bool_decide (bytes_of a = replicate 4 Byte.x00)
  | V6 a => bool_decide (bytes_of a = replicate 16 Byte.x00)
  end.

(** [IpAddr::is_loopback]: 127.0.0.0/8, or exactly ::1. *)
Definition is_loopback (ip : IpAddr) : bool :=
  match ip with
  | V4 a => bool_decide (head (bytes_of a) = Some Byte.x7f)
  | V6 a => bool_decide (bytes_of a = replicate 15 Byte.x00 ++ [Byte.x01])
  end.

(** 169.254.0.0/16, or the ten bit prefix [fe80::/10] tested on the first
    segment. *)
Definition is_link_local (ip : IpAddr) : bool :=
  match ip with
  | V4 a => bool_decide (take 2 (bytes_of a) = [Byte.xa9; Byte.xfe])
  | V6 a => Z.land (from_be (take 2 (bytes_of a))) 0xffc0 =? 0xfe80
  end.

Definition MAX_LOCAL_CANDIDATES : nat := 8.

(** The closure [offer] of [local_addresses]. *)
Definition offer (v4 : bool) (out : list IpAddr) (ip : IpAddr) : list IpAddr :=
  if Bool.eqb (is_ipv4 ip) v4 && negb (bool_decide (ip ∈ out)) then out ++ [ip] else out.

Definition loopback (v4 : bool) : IpAddr :=
  if v4 then V4 (pad_array 4 [Byte.x7f; Byte.x00; Byte.x00; Byte.x01])
  else V6 (pad_array 16 (replicate 15 Byte.x00 ++ [Byte.x01])).

(** [default_route_address]: whether a socket could be bound and connected, and
    the address the system then says it has. *)
Definition default_route_address (bound connected : bool) (local : option SocketAddr) : option IpAddr :=
  if negb bound then None
  else if negb connected then None
  else match local with
  | Some a => if is_unspecified (sa_ip a) then None else Some (sa_ip a)
  | None => None
  end.

(** [local_addresses], given what the operating system answers: the source
    address of the default route and the interface list ([None] when
    [get_if_addrs] fails). *)
Definition local_addresses (v4 : bool) (default_route : option IpAddr)
    (interfaces : option (list IpAddr)) : list IpAddr :=
  let out := match default_route with Some ip => offer v4 [] ip | None => [] end in
  let out :=
    match interfaces with
    | Some ips =>
      foldl (λ out ip,
        if is_loopback ip || is_unspecified ip || is_link_local ip then out
        else offer v4 out ip) out ips
    | None => out
    end in
  let out := take (MAX_LOCAL_CANDIDATES - 1) out in
  offer v4 out (loopback v4).

Lemma mapped_prefix_length : length mapped_prefix = 12%nat.
Proof. done. Qed.

Lemma to_ipv6_mapped_bytes v4 : bytes_of (to_ipv6_mapped v4) = mapped_prefix ++ bytes_of v4.
Proof. apply bytes_of_pad. rewrite length_app, bytes_of_length. done. Qed.

Lemma to_ipv4_mapped_of v4 : to_ipv4_mapped (to_ipv6_mapped v4) = Some v4.
Proof.
  unfold to_ipv4_mapped. rewrite to_ipv6_mapped_bytes.
  rewrite take_app_length' by done. rewrite bool_decide_true by done.
  rewrite drop_app_length' by done. by rewrite pad_array_bytes.
Qed.

(** Mapping into the v6 space and back is lossless for every v4 address. *)
Lemma unmap_to_ipv6_v4 v4 port :
  unmap_ipv6 (mkSocketAddr (V6 (to_ipv6 (V4 v4))) port) = mkSocketAddr (V4 v4) port.
Proof. unfold unmap_ipv6. cbn [sa_ip to_ipv6]. by rewrite to_ipv4_mapped_of. Qed.

Lemma to_ipv6_unmap addr : to_ipv6 (sa_ip (unmap_ipv6 addr)) = to_ipv6 (sa_ip addr).
Proof.
  destruct addr as [[v4|v6] port]; [done|]. unfold unmap_ipv6. cbn [sa_ip].
  unfold to_ipv4_mapped. case_bool_decide as H; [|done]. cbn [sa_ip to_ipv6].
  apply (inj bytes_of). rewrite to_ipv6_mapped_bytes.
  rewrite bytes_of_pad by (rewrite length_drop, bytes_of_length; done).
  rewrite <- H. apply take_drop.
Qed.

Lemma unmap_idempotent addr : unmap_ipv6 (unmap_ipv6 addr) = unmap_ipv6 addr.
Proof.
  destruct addr as [[v4|v6] port]; [done|]. unfold unmap_ipv6 at 2 3; cbn [sa_ip].
  destruct (to_ipv4_mapped v6) eqn:E; unfold unmap_ipv6; cbn [sa_ip]; by rewrite ?E.
Qed.

Lemma offer_elem v4 out ip x :
  x ∈ offer v4 out ip → x ∈ out ∨ (x = ip ∧ is_ipv4 ip = v4).
Proof.
  unfold offer. split_if; [|by left].
  intros [?| ->%list_elem_of_singleton]%elem_of_app; [by left|right].
  to_props. split; [done|]. by apply eqb_prop.
Qed.

Lemma offer_length v4 out ip : (length (offer v4 out ip) ≤ S (length out))%nat.
Proof. unfold offer. split_if; rewrite ?length_app; simpl; lia. Qed.

Lemma offer_NoDup v4 out ip : NoDup out → NoDup (offer v4 out ip).
Proof.
  intros H. unfold offer. split_if; [|done]. to_props.
  apply NoDup_app; repeat split; [done| |apply NoDup_singleton].
  intros x ? ->%list_elem_of_singleton. contradiction.
Qed.

Lemma offer_last v4 out : last (offer v4 out (loopback v4)) = Some (loopback v4)
  ∨ loopback v4 ∈ out.
Proof.
  unfold offer. split_if; [left; apply last_snoc|right].
  apply andb_false_iff in G as [G|G]; to_props; [by destruct v4|done].
Qed.

Section local.
Context (v4 : bool).

Let scan (out : list IpAddr) (ips : list IpAddr) : list IpAddr :=
  foldl (λ out ip,
    if is_loopback ip || is_unspecified ip || is_link_local ip then out
    else offer v4 out ip) out ips.

Lemma scan_NoDup ips out : NoDup out → NoDup (scan out ips).
Proof.
  revert out; induction ips as [|ip ips IH]; intros out H; simpl; [done|].
  apply IH. split_if; [done|]. by apply offer_NoDup.
Qed.

Lemma scan_elem ips out x :
  x ∈ scan out ips →
  x ∈ out ∨ (is_ipv4 x = v4 ∧ is_loopback x = false ∧ is_unspecified x = false
    ∧ is_link_local x = false ∧ x ∈ ips).
Proof.
  revert out; induction ips as [|ip ips IH]; intros out H; simpl in H; [by left|].
  apply IH in H as [H|H]; [|set_solver].
  split_if_in H; [set_solver|].
  apply offer_elem in H as [H|[-> Hv]]; [by left|right].
  to_props. set_solver.
Qed.

End local.

(** The local addresses an endpoint offers for one socket family, whatever
    the operating system reports: at most eight, without duplicates, of that
    family only, the loopback address always among them, and apart from it and
    the default route's source none is unspecified or a link-local one. *)
Lemma local_addresses_wf v4 route ifs :
  (length (local_addresses v4 route ifs) ≤ MAX_LOCAL_CANDIDATES)%nat ∧
  NoDup (local_addresses v4 route ifs) ∧
  (loopback v4 ∈ local_addresses v4 route ifs) ∧
  (∀ ip, ip ∈ local_addresses v4 route ifs → is_ipv4 ip = v4) ∧
  (∀ ip, ip ∈ local_addresses v4 route ifs →
    ip = loopback v4 ∨ Some ip = route ∨ (is_unspecified ip = false ∧ is_link_local ip = false)).
Proof.
  unfold local_addresses.
  set (out0 := match route with Some ip => offer v4 [] ip | None => [] end).
  assert (Hd0 : NoDup out0).
  { subst out0. destruct route; [apply offer_NoDup|]; constructor. }
  assert (He0 : ∀ x, x ∈ out0 → Some x = route ∧ is_ipv4 x = v4).
  { subst out0. intros x. destruct route as [ip|]; [|by intros ?%not_elem_of_nil].
    intros [H|[-> H]]%offer_elem; [by apply not_elem_of_nil in H|done]. }
  set (out1 := match ifs with Some ips => _ | None => out0 end).
  assert (Hd1 : NoDup out1) by (subst out1; destruct ifs; [by apply scan_NoDup|done]).
  assert (He1 : ∀ x, x ∈ out1 → is_ipv4 x = v4 ∧ (Some x = route ∨ (is_unspecified x = false ∧ is_link_local x = false))).
  { subst out1. intros x Hx. destruct ifs as [ips|]; [|naive_solver].
    apply (scan_elem v4) in Hx as [Hx|Hx]; naive_solver. }
  assert (Ht : ∀ x, x ∈ take (MAX_LOCAL_CANDIDATES - 1) out1 → x ∈ out1).
  { intros x Hx. rewrite <- (take_drop (MAX_LOCAL_CANDIDATES - 1) out1).
    apply elem_of_app. by left. }
  repeat split.
  - etrans; [apply offer_length|]. rewrite length_take. unfold MAX_LOCAL_CANDIDATES. lia.
  - apply offer_NoDup. rewrite <- (take_drop (MAX_LOCAL_CANDIDATES - 1) out1) in Hd1.
    by apply NoDup_app in Hd1 as (? & _ & _).
  - destruct (offer_last v4 (take (MAX_LOCAL_CANDIDATES - 1) out1)) as [H|H].
    + by apply last_Some_elem_of in H.
    + unfold offer. split_if; [|done]. apply elem_of_app. by left.
  - intros ip [H|[-> H]]%offer_elem; [|done]. by apply He1, Ht.
  - intros ip [H|[-> H]]%offer_elem; [|by left]. right. by apply He1, Ht.
Qed.

(** So no address a peer is offered is unspecified, whatever the system answers. *)
Lemma offered_addresses_specified v4 bound connected local ifs ip :
  ip ∈ local_addresses v4 (default_route_address bound connected local) ifs → is_unspecified ip = false.
Proof.
  intros Hip. destruct (local_addresses_wf v4 (default_route_address bound connected local) ifs) as (_ & _ & _ & _ & H).
  destruct (H ip Hip) as [->|[Hr|[Hu _]]]; [destruct v4; by vm_compute| |done].
  unfold default_route_address in Hr. destruct bound, connected, local as [a|]; try done. cbn in Hr.
  destruct (is_unspecified (sa_ip a)) eqn:E; [done|]. by simplify_eq.
Qed.
