(* ===== verification/NetMon.v ===== *)
(** * NetMon: the interface monitor ([link-endpoint/src/netmon.rs])

    A polling task that bumps a generation when the set of interface addresses
    changes.  A snapshot is what the operating system lists at one poll, in its
    order and with its duplicates; a tick is one turn of the loop. *)

From stdpp Require Import sorting.
From S2P Require Import Prelude Net.

Open Scope Z_scope.

(** The derived order of [IpAddr]: every v4 address before every v6 one, each
    family by its octets. *)
Definition ip_key (ip : IpAddr) : Z :=
  match ip with
  | V4 a => from_be (bytes_of a)
  | V6 a => 2 ^ 32 + from_be (bytes_of a)
  end.

Definition ip_le (a b : IpAddr) : Prop := ip_key a <= ip_key b.

#[global] Instance ip_le_dec : RelDecision ip_le.
Proof. intros a b. unfold ip_le. apply _. Defined.

(** [Vec::dedup]: of equal neighbours one is kept. *)
Fixpoint dedup (l : list IpAddr) : list IpAddr :=
  match l with
  | [] => []
  | x :: rest => if bool_decide (head rest = Some x) then dedup rest else x :: dedup rest
  end.

Definition normalised (set : list IpAddr) : list IpAddr := dedup (merge_sort ip_le set).

Record NetMonitor : Type := mkNetMonitor {
  nm_last : list IpAddr;
  nm_generation : Z;
  (** the polling loop is still turning *)
  nm_polls : bool;
}.

(** [spawn]; [first] is the snapshot taken at the start, when there is polling. *)
Definition NetMonitor_spawn (poll : Z) (first : list IpAddr) : NetMonitor :=
  if poll =? 0 then mkNetMonitor [] 0 false else mkNetMonitor (normalised first) 0 true.

(** One turn; [closed] is [tx.is_closed()]. *)
Definition nm_tick (m : NetMonitor) (closed : bool) (snapshot : list IpAddr) : NetMonitor :=
  if negb (nm_polls m) then m
  else if closed then mkNetMonitor (nm_last m) (nm_generation m) false
  else
    let now := normalised snapshot in
    if bool_decide (now = nm_last m) then m
    else mkNetMonitor now ((nm_generation m + 1) mod 2 ^ 64) true.

(** ** What a normalised list says of its set *)

#[global] Instance ip_key_inj : Inj (=) (=) ip_key.
Proof.
  assert (Hbe : ∀ l l', length l = length l' → from_be l = from_be l' → l = l').
  { intros l l' Hl E. rewrite <- (to_from_be l), <- (to_from_be l'), Hl, E. done. }
  assert (H4 : ∀ a : array 4, 0 <= from_be (bytes_of a) < 2 ^ 32).
  { intros a. pose proof (from_be_range (bytes_of a)) as H. rewrite bytes_of_length in H. done. }
  intros [a|a] [b|b]; cbn [ip_key]; intros E.
  - f_equal. apply (inj bytes_of), Hbe; [by rewrite !bytes_of_length | done].
  - pose proof (H4 a). pose proof (from_be_range (bytes_of b)). lia.
  - pose proof (H4 b). pose proof (from_be_range (bytes_of a)). lia.
  - f_equal. apply (inj bytes_of), Hbe; [by rewrite !bytes_of_length | lia].
Qed.

#[global] Instance ip_le_total : Total ip_le.
Proof. intros a b. unfold ip_le. lia. Qed.
#[global] Instance ip_le_trans : Transitive ip_le.
Proof. intros a b c. unfold ip_le. lia. Qed.

Definition ip_lt (a b : IpAddr) : Prop := ip_key a < ip_key b.

Lemma elem_of_dedup l x : x ∈ dedup l ↔ x ∈ l.
Proof.
  induction l as [|y l IH]; [done|]. cbn [dedup]. case_bool_decide as Hh.
  - rewrite IH, elem_of_cons. split; [by right|]. intros [->|?]; [|done]. destruct l; [done|]. injection Hh as ->. left.
  - by rewrite !elem_of_cons, IH.
Qed.

(** Deduplicating a sorted list leaves it strictly sorted. *)
Lemma dedup_sorted l : StronglySorted ip_le l → StronglySorted ip_lt (dedup l).
Proof.
  induction 1 as [|x l Hs IH Hx]; [constructor|]. cbn [dedup]. case_bool_decide as Hh; [done|].
  constructor; [done|]. rewrite Forall_forall in *. intros y Hy. apply (proj1 (elem_of_dedup _ _)) in Hy. unfold ip_lt.
  assert (Hle : ip_key x <= ip_key y) by (exact (Hx y Hy)). destruct (decide (ip_key x = ip_key y)) as [E|]; [|lia].
  apply (inj ip_key) in E as <-. destruct l as [|z l]; [by apply not_elem_of_nil in Hy|]. exfalso. apply Hh. cbn. f_equal.
  apply (inj ip_key). assert (Hz : ip_key x <= ip_key z) by (apply (Hx z); left).
  apply elem_of_cons in Hy as [->|Hy]; [done|].
  apply StronglySorted_inv in Hs as [_ Hs]. rewrite Forall_forall in Hs. specialize (Hs _ Hy). unfold ip_le in Hs. lia.
Qed.

(** A strictly sorted list is determined by its elements. *)
Lemma sorted_unique l l' :
  StronglySorted ip_lt l → StronglySorted ip_lt l' → (∀ x, x ∈ l ↔ x ∈ l') → l = l'.
Proof.
  intros Hs. revert l'. induction Hs as [|x l Hs IH Hx]; intros l' Hs' He.
  - destruct l' as [|y l']; [done|]. exfalso. apply (not_elem_of_nil y), He. left.
  - destruct Hs' as [|y l' Hs' Hy]; [exfalso; apply (not_elem_of_nil x), He; left|].
    rewrite Forall_forall in Hx, Hy.
    assert (Hle : ∀ a b m, ip_lt a b → (∀ z, z ∈ m → ip_lt b z) → a ∉ b :: m).
    { unfold ip_lt. intros a b m Hab Hm [->|H]%elem_of_cons; [lia|]. apply Hm in H. lia. }
    assert (x = y) as ->.
    { apply (inj ip_key). destruct (decide (ip_key x < ip_key y)) as [H|H].
      - exfalso. apply (Hle x y l' H Hy), He. left.
      - destruct (decide (ip_key y < ip_key x)) as [H'|]; [|lia]. exfalso. apply (Hle y x l H' Hx), He. left. }
    f_equal. apply IH; [done|]. intros z. specialize (He z). specialize (Hx z). specialize (Hy z). unfold ip_lt in *.
    rewrite !elem_of_cons in He. split; intros Hz.
    + destruct (proj1 He (or_intror Hz)) as [->|?]; [specialize (Hx Hz); lia | done].
    + destruct (proj2 He (or_intror Hz)) as [->|?]; [specialize (Hy Hz); lia | done].
Qed.

Lemma normalised_sorted l : StronglySorted ip_lt (normalised l).
Proof. apply dedup_sorted, (StronglySorted_merge_sort ip_le). Qed.

Lemma elem_of_normalised l x : x ∈ normalised l ↔ x ∈ l.
Proof. unfold normalised. by rewrite elem_of_dedup, (merge_sort_Permutation ip_le l). Qed.

(** Order and duplicates are not a change, and nothing else is hidden. *)
Lemma normalised_eq l l' : normalised l = normalised l' ↔ (list_to_set l : gset IpAddr) = list_to_set l'.
Proof.
  split.
  - intros E. apply set_eq. intros x. rewrite !elem_of_list_to_set, <- (elem_of_normalised l), <- (elem_of_normalised l'), E. done.
  - intros E. apply sorted_unique; try apply normalised_sorted. intros x. rewrite !elem_of_normalised.
    rewrite set_eq in E. specialize (E x). by rewrite !elem_of_list_to_set in E.
Qed.

(** ** The generation counts changes of the set *)

Definition address_set (l : list IpAddr) : gset IpAddr := list_to_set l.

(** How often the set differs from the one before, from [last] on. *)
Fixpoint set_changes (last : gset IpAddr) (sets : list (gset IpAddr)) : nat :=
  match sets with
  | [] => 0
  | s :: rest => (if bool_decide (s = last) then 0 else 1) + set_changes s rest
  end.

Definition nm_run (m : NetMonitor) (snapshots : list (list IpAddr)) : NetMonitor := foldl (λ m s, nm_tick m false s) m snapshots.

Lemma nm_run_generation snapshots last g :
  0 <= g →
  nm_run (mkNetMonitor (normalised last) (g mod 2 ^ 64) true) snapshots =
  mkNetMonitor (normalised (default last (list.last snapshots)))
    ((g + Z.of_nat (set_changes (address_set last) (address_set <$> snapshots))) mod 2 ^ 64) true.
Proof.
  revert last g. induction snapshots as [|s ss IH]; intros last g Hg; [cbn; by rewrite Z.add_0_r|].
  change (nm_run ?m (s :: ss)) with (nm_run (nm_tick m false s) ss).
  cbn [fmap list_fmap set_changes]. unfold nm_tick. cbn [nm_polls negb nm_last nm_generation].
  assert (Hlast : default last (list.last (s :: ss)) = default s (list.last ss)) by (rewrite last_cons; by destruct (list.last ss)).
  rewrite Hlast. case_bool_decide as Hn.
  - rewrite bool_decide_eq_true_2 by (by apply normalised_eq). rewrite <- Hn.
    rewrite (IH s g Hg). done.
  - rewrite bool_decide_eq_false_2 by (intros E; by apply Hn, normalised_eq).
    rewrite Zplus_mod_idemp_l. rewrite (IH s (g + 1)) by lia. do 2 f_equal. lia.
Qed.

Lemma nm_run_off m snapshots : nm_polls m = false → nm_run m snapshots = m.
Proof. intros Hm. induction snapshots as [|s ss IH]; [done|]. cbn. unfold nm_tick at 2. by rewrite Hm. Qed.

(** The monitor's generation is the number of times the set of addresses changed
    from one poll to the next, whatever order and repetitions the operating system
    lists them with; a monitor with a zero interval stays at zero. *)
Theorem generation_counts_changes poll first snapshots :
  nm_generation (nm_run (NetMonitor_spawn poll first) snapshots) =
  if poll =? 0 then 0
  else Z.of_nat (set_changes (address_set first) (address_set <$> snapshots)) mod 2 ^ 64.
Proof.
  unfold NetMonitor_spawn. destruct (poll =? 0).
  - by rewrite nm_run_off.
  - apply (f_equal nm_generation (nm_run_generation snapshots first 0 ltac:(lia))).
Qed.

(** A reordered, repeating listing is no change; another address is. *)
Example generation_demo :
  let a := V4 (pad_array 4 [Byte.x0a]) in let b := V6 (pad_array 16 [Byte.x20]) in
  nm_generation (nm_run (NetMonitor_spawn 5 [a; b]) [[b; a; b]; [a]; [a; a]; [b; a]]) = 2.
Proof. vm_compute. reflexivity. Qed.
