(* ===== verification/Id.v ===== *)
(** * Id: node identity ([link-core/src/id.rs])

    Ed25519 transport keys, node IDs with their base32 and SPKI forms and the
    synthetic address.  Ed25519 and SHA-256 are code outside the repository:
    they are the operations of the class [Crypto], and the one fact the program
    relies on (a signature made with a key verifies under it) is [CryptoLaws]. *)

From S2P Require Import Prelude Net.

Open Scope Z_scope.

Class Crypto : Type := {
  (** [SigningKey::from_bytes(seed).verifying_key().to_bytes()] *)
  ed25519_public : array 32 → array 32;
  ed25519_sign : array 32 → list byte → array 64;
  (** [VerifyingKey::from_bytes(bytes).is_ok()] *)
  ed25519_valid : array 32 → bool;
  ed25519_verify_strict : array 32 → list byte → array 64 → bool;
  sha256 : list byte → array 32;
}.

Class CryptoLaws (C : Crypto) : Prop := {
  ed25519_public_valid seed : ed25519_valid (ed25519_public seed) = true;
  ed25519_sign_verify seed m :
    ed25519_verify_strict (ed25519_public seed) m (ed25519_sign seed m) = true;
}.

Record NodeId : Type := mkNodeId { node_bytes : array 32 }.

#[global] Instance NodeId_eq_dec : EqDecision NodeId.
Proof. solve_decision. Defined.
#[global] Program Instance NodeId_countable : Countable NodeId :=
  inj_countable' node_bytes mkNodeId _.
Next Obligation. by intros []. Qed.

Definition ADDR_DOMAIN : list byte := lit "forgesworn-link/addr/v1" ++ [Byte.x00].

Definition SPKI_ED25519_PREFIX : list byte :=
  byte_of_Z <$> [0x30; 0x2a; 0x30; 0x05; 0x06; 0x03; 0x2b; 0x65; 0x70; 0x03; 0x21; 0x00].

Definition PKCS8_ED25519_PREFIX : list byte :=
  byte_of_Z <$> [0x30; 0x2e; 0x02; 0x01; 0x00; 0x30; 0x05; 0x06; 0x03; 0x2b; 0x65; 0x70;
                 0x04; 0x22; 0x04; 0x20].

Definition SYNTHETIC_PORT : Z := 7.

Definition BASE32_ALPHABET : list byte := lit "abcdefghijklmnopqrstuvwxyz234567".

Definition NodeId_from_slice (bytes : list byte) : option NodeId :=
  mkNodeId <$> try_array 32 bytes.

Definition as_bytes (n : NodeId) : list byte := bytes_of (node_bytes n).

(** ** Base32 *)

(** [a << k] on [u32]: bits shifted out are lost. *)
Definition u32_shl (a k : Z) : Z := Z.shiftl a k mod 2 ^ 32.

Definition alpha (v : Z) : byte := BASE32_ALPHABET !!! Z.to_nat v.

(** The locals [bits], [acc] and [out] of the two loops. *)
Record b32_state : Type := mkB32 { b_bits : Z; b_acc : Z; b_out : list byte }.

(** [while bits >= 5 { .. }]; each turn consumes five bits. *)
Fixpoint to_base32_while (fuel : nat) (s : b32_state) : b32_state :=
  match fuel with
  | O => s
  | S fuel' =>
    if b_bits s >=? 5 then
      to_base32_while fuel'
        (mkB32 (b_bits s - 5) (b_acc s)
           (b_out s ++ [alpha (Z.land (Z.shiftr (b_acc s) (b_bits s - 5)) 31)]))
    else s
  end.

(** One turn of [for byte in self.0]. *)
Definition to_base32_step (s : b32_state) (byte : byte) : b32_state :=
  let acc := Z.lor (u32_shl (b_acc s) 8) (byte_to_Z byte) in
  let bits := b_bits s + 8 in
  to_base32_while (Z.to_nat bits) (mkB32 bits acc (b_out s)).

Definition NodeId_to_base32 (n : NodeId) : list byte :=
  let s := foldl to_base32_step (mkB32 0 0 []) (as_bytes n) in
  if b_bits s >? 0 then
    b_out s ++ [alpha (Z.land (u32_shl (b_acc s) (5 - b_bits s)) 31)]
  else b_out s.

(** [BASE32_ALPHABET.iter().position(|c| *c == ch)]. *)
Definition unalpha (ch : byte) : option Z :=
  Z.of_nat ∘ fst <$> list_find (ch =.) BASE32_ALPHABET.

Definition from_base32_step (s : option b32_state) (ch : byte) : option b32_state :=
  s ← s;
  value ← unalpha ch;
  let acc := Z.lor (u32_shl (b_acc s) 5) value in
  let bits := b_bits s + 5 in
  if bits >=? 8 then
    Some (mkB32 (bits - 8) acc (b_out s ++ [byte_of_Z (Z.land (Z.shiftr acc (bits - 8)) 0xff)]))
  else Some (mkB32 bits acc (b_out s)).

Definition NodeId_from_base32 (text : list byte) : option NodeId :=
  if negb (length text =? 52)%nat then None
  else
    s ← foldl from_base32_step (Some (mkB32 0 0 [])) text;
    id ← NodeId_from_slice (b_out s);
    if bool_decide (NodeId_to_base32 id = text) then Some id else None.

(** ** SPKI, synthetic address, signatures *)

Definition NodeId_spki_der (n : NodeId) : list byte := SPKI_ED25519_PREFIX ++ as_bytes n.

Definition node_id_from_spki (der : list byte) : exec (option NodeId) :=
  if negb (length der =? 44)%nat then Ret None
  else
    p ← slice 0 12 der;
    if negb (bool_decide (p = SPKI_ED25519_PREFIX)) then Ret None
    else
      k ← slice 12 (length der) der;
      Ret (NodeId_from_slice k).

Section crypto.
Context `{C : Crypto}.

Definition NodeId_synthetic_addr (n : NodeId) : SocketAddr :=
  let digest := bytes_of (sha256 (ADDR_DOMAIN ++ as_bytes n)) in
  mkSocketAddr (V6 (pad_array 16 ([Byte.xfd; Byte.x00] ++ take 14 digest))) SYNTHETIC_PORT.

Definition NodeId_verify (n : NodeId) (message : list byte) (signature : array 64) : bool :=
  if ed25519_valid (node_bytes n)
  then ed25519_verify_strict (node_bytes n) message signature else false.

(** A transport key is its seed; the node ID is derived once. *)
Record TransportKey : Type := mkTransportKey { tk_seed : array 32; tk_node_id : NodeId }.

Definition TransportKey_from_seed (seed : array 32) : TransportKey :=
  mkTransportKey seed (mkNodeId (ed25519_public seed)).

Definition TransportKey_sign (k : TransportKey) (message : list byte) : array 64 :=
  ed25519_sign (tk_seed k) message.

Definition TransportKey_pkcs8_der (k : TransportKey) : list byte :=
  PKCS8_ED25519_PREFIX ++ bytes_of (tk_seed k).

(** Keys only arise from [from_seed]. *)
Definition TransportKey_wf (k : TransportKey) : Prop :=
  tk_node_id k = mkNodeId (ed25519_public (tk_seed k)).

End crypto.

(** A lawful concrete instance for the witnesses: the public key is the seed, a
    signature is the public key and the end of the message. *)
Definition toy_crypto : Crypto := {|
  ed25519_public seed := seed;
  ed25519_sign seed m := pad_array 64 (bytes_of seed ++ take 32 (rev m));
  ed25519_valid _ := true;
  ed25519_verify_strict pk m s :=
    bool_decide (s = pad_array 64 (bytes_of pk ++ take 32 (rev m)));
  sha256 m := pad_array 32 (rev m);
|}.

Lemma toy_crypto_laws : CryptoLaws toy_crypto.
Proof. split; intros; simpl; [done|]. by apply bool_decide_true. Qed.

Lemma as_bytes_length n : length (as_bytes n) = 32%nat.
Proof. apply bytes_of_length. Qed.

#[global] Instance as_bytes_inj : Inj (=) (=) as_bytes.
Proof. intros [a] [b] H. f_equal. by apply (inj bytes_of). Qed.

Lemma NodeId_from_slice_bytes n : NodeId_from_slice (as_bytes n) = Some n.
Proof. unfold NodeId_from_slice, as_bytes. rewrite try_array_bytes. by destruct n. Qed.

Lemma NodeId_from_slice_Some l n : NodeId_from_slice l = Some n ↔ l = as_bytes n.
Proof.
  unfold NodeId_from_slice, as_bytes. rewrite fmap_Some. split.
  - intros (a & Ha & ->). by apply try_array_Some in Ha.
  - intros ->. exists (node_bytes n). rewrite try_array_bytes. by destruct n.
Qed.

#[export] Hint Rewrite as_bytes_length : lens.

(** ** Base32 round trip

    Both loops are followed on integers.  With [val32] the base-32 value of the
    characters and [from_be] the base-256 value of the bytes, each loop keeps
    [processed = emitted * 2^bits + acc mod 2^bits]. *)

Section base32.

Definition val32 (ds : list Z) : Z := foldl (λ a d, a * 32 + d) 0 ds.

Definition digits (ds : list Z) : Prop := Forall (λ d, 0 <= d < 32) ds.

Lemma val32_snoc ds d : val32 (ds ++ [d]) = val32 ds * 32 + d.
Proof. unfold val32. by rewrite foldl_app. Qed.

Lemma alpha_unalpha v : 0 <= v < 32 → unalpha (alpha v) = Some v.
Proof.
  intros H. replace v with (Z.of_nat (Z.to_nat v)) by lia.
  assert (Hv : (Z.to_nat v < 32)%nat) by lia. revert Hv.
  generalize (Z.to_nat v). clear v H. intros n Hn.
  do 32 (destruct n as [|n]; [vm_compute; reflexivity|]). lia.
Qed.

Lemma land_31 z : Z.land z 31 = z mod 32.
Proof. apply (Z.land_ones z 5). lia. Qed.

Lemma land_255 z : Z.land z 0xff = z mod 256.
Proof. apply (Z.land_ones z 8). lia. Qed.

Lemma split_mod a r k :
  0 <= r → 0 <= k →
  a mod 2 ^ (r + k) = (Z.shiftr a r mod 2 ^ k) * 2 ^ r + a mod 2 ^ r.
Proof.
  intros. rewrite Z.shiftr_div_pow2, Z.pow_add_r by lia.
  rewrite Z.rem_mul_r by (try apply Z.pow_nonzero; lia). lia.
Qed.

Lemma lor_low y k v : 0 <= k → y mod 2 ^ k = 0 → 0 <= v < 2 ^ k → Z.lor y v = y + v.
Proof.
  intros Hk Hy Hv. rewrite <- Z.lxor_lor, <- Z.add_nocarry_lxor; [done|..].
  all: apply Z.bits_inj'; intros n Hn; rewrite Z.land_spec, Z.bits_0.
  all: destruct (decide (n < k));
    [rewrite <- (Z.mod_pow2_bits_low y k n) by lia; by rewrite Hy, Z.bits_0|].
  all: rewrite <- (Z.mod_small v (2 ^ k)) by lia.
  all: rewrite (Z.mod_pow2_bits_high v k n) by lia; apply andb_false_r.
Qed.

(** Pushing [k] fresh low bits keeps the [r] pending ones. *)
Lemma push_bits acc r k v :
  0 <= r → 0 <= k → r + k <= 32 → 0 <= v < 2 ^ k →
  Z.lor (u32_shl acc k) v mod 2 ^ (r + k) = (acc mod 2 ^ r) * 2 ^ k + v.
Proof.
  intros Hr Hk Hrk Hv. unfold u32_shl. rewrite Z.shiftl_mul_pow2 by lia.
  assert (P : 0 < 2 ^ k) by (apply Z.pow_pos_nonneg; lia).
  assert (Q : 0 < 2 ^ r) by (apply Z.pow_pos_nonneg; lia).
  assert (D : ∀ m, 0 <= m <= 32 → ((acc * 2 ^ k) mod 2 ^ 32) mod 2 ^ m = (acc * 2 ^ k) mod 2 ^ m).
  { intros m Hm. apply Z.mod_mod_divide.
    exists (2 ^ (32 - m)). rewrite <- Z.pow_add_r by lia. f_equal. lia. }
  rewrite (lor_low _ k) by (rewrite ?D, ?Z.mod_mul by lia; lia).
  rewrite Z.add_mod, D, Z.pow_add_r by (try apply Z.pow_nonzero; lia).
  rewrite Z.mul_mod_distr_r by lia.
  pose proof (Z.mod_pos_bound acc (2 ^ r) Q).
  rewrite (Z.mod_small v) by nia. apply Z.mod_small. nia.
Qed.

(** What the encoder has emitted and still holds after the bytes [l]. *)
Definition enc_inv (l : list byte) (s : b32_state) : Prop :=
  ∃ ds, b_out s = alpha <$> ds ∧ digits ds ∧ 0 <= b_bits s ∧
    8 * Z.of_nat (length l) = 5 * Z.of_nat (length ds) + b_bits s ∧
    from_be l = val32 ds * 2 ^ b_bits s + b_acc s mod 2 ^ b_bits s.

Lemma while_inv l fuel s :
  b_bits s <= 5 * Z.of_nat fuel + 4 → enc_inv l s →
  enc_inv l (to_base32_while fuel s) ∧ b_bits (to_base32_while fuel s) < 5.
Proof.
  revert s; induction fuel as [|fuel IH]; intros s Hf H; simpl; [split; [done|lia]|].
  destruct (Z.geb_spec (b_bits s) 5); [|split; [done|lia]].
  apply IH; simpl; [lia|]. destruct H as (ds & Ho & Hd & Hb & Hl & Hv).
  set (d := Z.land _ _). exists (ds ++ [d]).
  assert (Ed : d = Z.shiftr (b_acc s) (b_bits s - 5) mod 2 ^ 5) by apply land_31.
  assert (Rd : 0 <= d < 32) by (rewrite Ed; apply Z.mod_pos_bound; lia).
  split_and!; simpl.
  - by rewrite Ho, fmap_app.
  - apply Forall_app; split; [done|]. by constructor.
  - lia.
  - rewrite length_app; simpl; lia.
  - rewrite Hv, val32_snoc. pose proof (split_mod (b_acc s) (b_bits s - 5) 5) as E.
    replace (b_bits s - 5 + 5) with (b_bits s) in E by lia.
    rewrite E, <- Ed by lia. replace (2 ^ b_bits s) with (2 ^ (b_bits s - 5) * 32); [ring|].
    change 32 with (2 ^ 5). rewrite <- Z.pow_add_r by lia. f_equal. lia.
Qed.

Lemma step_inv l b s :
  b_bits s < 5 → enc_inv l s →
  enc_inv (l ++ [b]) (to_base32_step s b) ∧ b_bits (to_base32_step s b) < 5.
Proof.
  intros Hs (ds & Ho & Hd & Hb & Hl & Hv). unfold to_base32_step.
  apply while_inv; simpl; [lia|]. exists ds. pose proof (byte_to_Z_range b).
  split_and!; simpl; [done..|lia|rewrite length_app; simpl; lia|].
  rewrite from_be_app, Hv, push_bits, Z.pow_add_r by lia. ring.
Qed.

Lemma encode_inv l :
  let s := foldl to_base32_step (mkB32 0 0 []) l in enc_inv l s ∧ b_bits s < 5.
Proof.
  induction l as [|b l IH] using rev_ind; simpl.
  - split; [|lia]. exists []. split_and!; simpl; first [done | apply Forall_nil_2].
  - rewrite foldl_app. simpl. destruct IH. by apply step_inv.
Qed.

(** The 52 characters spell the node ID shifted up by the four padding bits. *)
Lemma to_base32_digits n :
  ∃ ds, NodeId_to_base32 n = alpha <$> ds ∧ digits ds ∧ length ds = 52%nat ∧
    val32 ds = from_be (as_bytes n) * 16.
Proof.
  unfold NodeId_to_base32. destruct (encode_inv (as_bytes n)) as [(ds & Ho & Hd & Hb & Hl & Hv) H5].
  set (s := foldl _ _ _) in *. rewrite as_bytes_length in Hl.
  assert (E1 : b_bits s = 1) by lia. rewrite E1 in *. simpl.
  rewrite land_31. set (d := _ mod 32).
  exists (ds ++ [d]). split_and!.
  - by rewrite Ho, fmap_app.
  - apply Forall_app; split; [done|]. constructor; [|done]. apply Z.mod_pos_bound; lia.
  - rewrite length_app; simpl; lia.
  - rewrite val32_snoc, Hv. subst d.
    pose proof (push_bits (b_acc s) 1 4 0 ltac:(lia) ltac:(lia) ltac:(lia) ltac:(lia)) as P.
    rewrite Z.lor_0_r in P. change (5 - 1) with 4. change (2 ^ (1 + 4)) with 32 in P.
    rewrite P. ring.
Qed.

(** What the decoder has emitted and still holds after the characters [ds]. *)
Definition dec_inv (ds : list Z) (s : b32_state) : Prop :=
  0 <= b_bits s < 8 ∧
  5 * Z.of_nat (length ds) = 8 * Z.of_nat (length (b_out s)) + b_bits s ∧
  val32 ds = from_be (b_out s) * 2 ^ b_bits s + b_acc s mod 2 ^ b_bits s.

Lemma decode_inv ds :
  digits ds →
  ∃ s, foldl from_base32_step (Some (mkB32 0 0 [])) (alpha <$> ds) = Some s ∧ dec_inv ds s.
Proof.
  induction ds as [|d ds IH] using rev_ind; intros Hd.
  - exists (mkB32 0 0 []). split; [done|]. split; simpl; [lia|]. done.
  - apply Forall_app in Hd as [Hd Hd']. rewrite Forall_singleton in Hd'.
    destruct (IH Hd) as (s & Hs & Hb & Hl & Hv).
    rewrite fmap_app, foldl_app, Hs. simpl. rewrite alpha_unalpha by lia. simpl.
    pose proof (push_bits (b_acc s) (b_bits s) 5 d) as P.
    destruct (Z.geb_spec (b_bits s + 5) 8); eexists; (split; [reflexivity|]); unfold dec_inv; simpl.
    + rewrite !length_app; simpl. split_and!; [lia..|].
      rewrite val32_snoc, Hv, from_be_app, byte_to_Z_small, land_255
        by (rewrite land_255; apply Z.mod_pos_bound; lia).
      set (acc := Z.lor _ _) in *.
      pose proof (split_mod acc (b_bits s + 5 - 8) 8) as E.
      replace (b_bits s + 5 - 8 + 8) with (b_bits s + 5) in E by lia.
      rewrite P in E by lia. change (2 ^ 8) with 256 in E.
      enough (2 ^ b_bits s * 32 = 256 * 2 ^ (b_bits s + 5 - 8)) as W by nia.
      change 32 with (2 ^ 5). change 256 with (2 ^ 8).
      rewrite <- !Z.pow_add_r by lia. f_equal. lia.
    + rewrite !length_app; simpl. split_and!; [lia..|].
      rewrite val32_snoc, Hv, P, Z.pow_add_r by lia. ring.
Qed.

Lemma from_base32_loop n :
  ∃ s, foldl from_base32_step (Some (mkB32 0 0 [])) (NodeId_to_base32 n) = Some s ∧
    b_out s = as_bytes n.
Proof.
  destruct (to_base32_digits n) as (ds & -> & Hd & Hl & Hv).
  destruct (decode_inv ds Hd) as (s & Hs & Hb & Hl' & Hv'). exists s. split; [done|].
  rewrite Hl in Hl'. assert (E4 : b_bits s = 4) by lia. rewrite E4 in *.
  apply from_be_inj; [rewrite as_bytes_length; lia|].
  rewrite Hv in Hv'. pose proof (Z.mod_pos_bound (b_acc s) (2 ^ 4) ltac:(lia)). lia.
Qed.

End base32.

(** Every node ID reads back from its base32 text. *)
Lemma base32_roundtrip n : NodeId_from_base32 (NodeId_to_base32 n) = Some n.
Proof.
  unfold NodeId_from_base32.
  destruct (to_base32_digits n) as (ds & E & _ & Hl & _).
  replace (length (NodeId_to_base32 n)) with 52%nat by (rewrite E, length_fmap; lia). simpl.
  destruct (from_base32_loop n) as (s & -> & Ho). simpl.
  rewrite Ho, NodeId_from_slice_bytes. simpl. by rewrite bool_decide_true.
Qed.

(** One node, one spelling: what the parser accepts is exactly the canonical
    text of the node it returns. *)
Lemma from_base32_canonical text n :
  NodeId_from_base32 text = Some n ↔ text = NodeId_to_base32 n.
Proof.
  split; [|intros ->; apply base32_roundtrip].
  unfold NodeId_from_base32. split_if; [done|].
  destruct (foldl _ _ _) as [s|]; simpl; [|done].
  destruct (NodeId_from_slice (b_out s)) as [m|]; simpl; [|done].
  case_bool_decide; [|done]. congruence.
Qed.

Lemma to_base32_length n : length (NodeId_to_base32 n) = 52%nat.
Proof. destruct (to_base32_digits n) as (ds & -> & _ & Hl & _). by rewrite length_fmap. Qed.

(** ** SPKI, addresses and signatures *)

Lemma spki_prefix_length : length SPKI_ED25519_PREFIX = 12%nat.
Proof. done. Qed.

#[export] Hint Rewrite spki_prefix_length : lens.

Lemma spki_roundtrip n : node_id_from_spki (NodeId_spki_der n) = Ret (Some n).
Proof.
  unfold node_id_from_spki, NodeId_spki_der.
  replace (length _) with 44%nat by lens. simpl negb. cbv iota. reads.
  rewrite bool_decide_true by done. simpl negb. cbv iota. reads.
  by rewrite NodeId_from_slice_bytes.
Qed.

(** Only the 44 byte id-Ed25519 form is a node ID. *)
Lemma node_id_from_spki_sound der n :
  node_id_from_spki der = Ret (Some n) → der = NodeId_spki_der n.
Proof.
  unfold node_id_from_spki. intros E. split_if_in E. unread E. split_if_in E. unread E.
  injection E as E. to_props. apply NodeId_from_slice_Some in E as ->. subst x.
  unfold NodeId_spki_der. symmetry. apply slice_whole. by eapply slice_glue.
Qed.

Lemma node_id_from_spki_total der : ∃ o, node_id_from_spki der = Ret o.
Proof.
  unfold node_id_from_spki. split_if; [eauto|]. to_props.
  rewrite (slice_ok 0) by lia. reads. split_if; [eauto|].
  rewrite slice_ok by lia. reads. eauto.
Qed.

Section crypto_lemmas.
Context `{C : Crypto} {L : CryptoLaws C}.

(** A signature made with a transport key verifies under its node ID. *)
Lemma sign_verify k m : TransportKey_wf k → NodeId_verify (tk_node_id k) m (TransportKey_sign k m) = true.
Proof.
  intros ->. unfold NodeId_verify, TransportKey_sign; simpl.
  by rewrite ed25519_public_valid, ed25519_sign_verify.
Qed.

Lemma from_seed_wf seed : TransportKey_wf (TransportKey_from_seed seed).
Proof. done. Qed.

(** A synthetic address lies in fd00::/16, so it is never a v4-mapped one and
    never an address a socket is bound to or a peer is probed at by mistake. *)
Lemma synthetic_not_mapped n : unmap_ipv6 (NodeId_synthetic_addr n) = NodeId_synthetic_addr n.
Proof.
  unfold unmap_ipv6, NodeId_synthetic_addr. cbn [sa_ip].
  unfold to_ipv4_mapped. rewrite bool_decide_false; [done|].
  rewrite bytes_of_pad by lens. by intros [=].
Qed.

End crypto_lemmas.

#[export] Hint Resolve from_seed_wf : link.

(** The printed node identity is canonical: every identity prints to 52
    characters, and a text parses to an identity exactly when it is the
    identity's printed form, so no two texts name one node. *)
Theorem NodeId_base32_codec text n :
  length (NodeId_to_base32 n) = 52%nat ∧ (NodeId_from_base32 text = Some n ↔ text = NodeId_to_base32 n).
Proof. split; [apply to_base32_length|apply from_base32_canonical]. Qed.

(** The certificate key encoding: reading a DER key never panics, and gives
    a node identity exactly for the 44 bytes that identity encodes to. *)
Lemma spki_codec der :
  ∃ o, node_id_from_spki der = Ret o ∧ ∀ n, o = Some n ↔ der = NodeId_spki_der n.
Proof.
  destruct (node_id_from_spki_total der) as [o Ho]. exists o. split; [done|]. intros n. split.
  - intros ->. by apply node_id_from_spki_sound.
  - intros ->. rewrite spki_roundtrip in Ho. congruence.
Qed.
