(* ===== verification/Rendezvous.v ===== *)
(** * Rendezvous: tag derivation ([link-core/src/rendezvous.rs])

    HKDF-SHA256 and the secp256k1 operations are code outside the repository and
    are the operations of the class [RdvCrypto]. *)

From S2P Require Import Prelude.

Open Scope Z_scope.

Class RdvCrypto : Type := {
  (** [Hkdf::<Sha256>::new(Some(salt), ikm)], then [expand(info)] to 16 bytes. *)
  hkdf16 : list byte → list byte → list byte → array 16;
  (** [k256::PublicKey::from_sec1_bytes(bytes).is_ok()] *)
  sec1_parses : list byte → bool;
  (** [k256::SecretKey::from_slice(scalar).is_ok()] *)
  scalar_valid : array 32 → bool;
  (** the x coordinate of [diffie_hellman(scalar, point)] *)
  dh_x : array 32 → array 33 → array 32;
}.

Definition RENDEZVOUS_SALT : list byte := lit "forgesworn-link/rendezvous/v1".
Definition EPOCH_SECONDS : Z := 3600.
Definition TAG_BYTES : nat := 16.
Definition PAIRING_SECRET_BYTES : nat := 16.
Definition PAIRING_CASE : byte := Byte.x03.
Definition PAIRED_ROUTE_SECRET_BYTES : nat := 32.
Definition PAIRED_ROUTE_CASE : byte := Byte.x04.

Inductive TagCase : Type := TagNone | TagOne | TagBoth.

#[global] Instance TagCase_eq_dec : EqDecision TagCase.
Proof. solve_decision. Defined.

Definition TagCase_byte (c : TagCase) : byte :=
  match c with TagNone => Byte.x00 | TagOne => Byte.x01 | TagBoth => Byte.x02 end.

Definition TagCase_from_byte (b : byte) : option TagCase :=
  match b with
  | Byte.x00 => Some TagNone
  | Byte.x01 => Some TagOne
  | Byte.x02 => Some TagBoth
  | _ => None
  end.

Record Tag : Type := mkTag { tag_bytes : array 16 }.

#[global] Instance Tag_eq_dec : EqDecision Tag.
Proof. solve_decision. Defined.
#[global] Program Instance Tag_countable : Countable Tag := inj_countable' tag_bytes mkTag _.
Next Obligation. by intros []. Qed.

Definition epoch_index (unix_seconds : Z) : Z := unix_seconds / EPOCH_SECONDS.

(** The [info] input: [relay_host || 0x00 || u64be(epoch)]. *)
Definition tag_info (relay_host : list byte) (epoch : Z) : list byte :=
  relay_host ++ [Byte.x00] ++ to_be 8 epoch.

Section derive.
Context `{R : RdvCrypto}.

Definition derive_from_ikm (ikm relay_host : list byte) (epoch : Z) : Tag :=
  mkTag (hkdf16 RENDEZVOUS_SALT ikm (tag_info relay_host epoch)).

Definition derive_tag (case : TagCase) (static_x eph_x : array 32)
    (relay_host : list byte) (epoch : Z) : Tag :=
  derive_from_ikm ([TagCase_byte case] ++ bytes_of static_x ++ bytes_of eph_x) relay_host epoch.

Definition derive_pairing_tag (pairing_secret : array 16)
    (relay_host : list byte) (epoch : Z) : Tag :=
  derive_from_ikm ([PAIRING_CASE] ++ bytes_of pairing_secret) relay_host epoch.

Definition derive_paired_route_tag (secret : array 32)
    (relay_host : list byte) (epoch : Z) : Tag :=
  derive_from_ikm ([PAIRED_ROUTE_CASE] ++ bytes_of secret) relay_host epoch.

Definition canonical_sec1_tag (b : byte) : bool :=
  bool_decide (b = Byte.x02) || bool_decide (b = Byte.x03).

(** [ecdh_x]; the compressed key is a [[u8; 33]], so its first byte exists. *)
Definition ecdh_x (private_scalar : array 32) (compressed_public : array 33) :
    exec (option (array 32)) :=
  b ← index (bytes_of compressed_public) 0;
  if negb (canonical_sec1_tag b) then Ret None
  else if negb (scalar_valid private_scalar) then Ret None
  else if negb (sec1_parses (bytes_of compressed_public)) then Ret None
  else Ret (Some (dh_x private_scalar compressed_public)).

(** [&&] is short-circuit, so the index is only read at length 33. *)
Definition valid_compressed_point (bytes : list byte) : exec bool :=
  if negb (length bytes =? 33)%nat then Ret false
  else
    b ← index bytes 0;
    if negb (canonical_sec1_tag b) then Ret false else Ret (sec1_parses bytes).

End derive.

(** A concrete instance for the witnesses. *)
Definition toy_rdv : RdvCrypto := {|
  hkdf16 salt ikm info := pad_array 16 (rev (ikm ++ info));
  sec1_parses _ := true;
  scalar_valid _ := true;
  dh_x s p := s;
|}.

(** The material a tag can be derived from, one constructor per derivation. *)
Inductive route_material : Type :=
  | RPair (case : TagCase) (static_x eph_x : array 32)
  | RPairing (secret : array 16)
  | RPaired (secret : array 32).

Definition material_ikm (m : route_material) : list byte :=
  match m with
  | RPair case sx ex => [TagCase_byte case] ++ bytes_of sx ++ bytes_of ex
  | RPairing s => [PAIRING_CASE] ++ bytes_of s
  | RPaired s => [PAIRED_ROUTE_CASE] ++ bytes_of s
  end.

Lemma TagCase_byte_inj c d : TagCase_byte c = TagCase_byte d → c = d.
Proof. by destruct c, d. Qed.

Lemma TagCase_roundtrip b c : TagCase_from_byte b = Some c ↔ b = TagCase_byte c.
Proof. split; [|intros ->; by destruct c]. intros H. destruct b; by simplify_eq/=. Qed.

Lemma tag_info_inj h k e f :
  u64 e → u64 f → tag_info h e = tag_info k f → h = k ∧ e = f.
Proof.
  intros He Hf H. unfold tag_info in H.
  apply app_inj_2 in H as [-> H]; [|by rewrite !length_app, !to_be_length].
  split; [done|]. apply (inj (cons _)) in H. apply (f_equal from_be) in H.
  by rewrite !from_to_be_64 in H.
Qed.

Lemma material_ikm_inj m k : material_ikm m = material_ikm k → m = k.
Proof.
  intros H. pose proof (f_equal length H) as Hl.
  destruct m, k; simpl in H, Hl; rewrite ?length_app, ?bytes_of_length in Hl; try lia.
  - injection H as Hc H. apply app_inj_1 in H as [Hs He]; [|by rewrite !bytes_of_length].
    apply TagCase_byte_inj in Hc. apply (inj bytes_of) in Hs, He. congruence.
  - f_equal. apply (inj bytes_of). congruence.
  - f_equal. apply (inj bytes_of). congruence.
Qed.

(** A tag of any of the three kinds, through the function the program derives
    it with. *)
Definition derive_material `{RdvCrypto} (m : route_material) (h : list byte) (e : Z) : Tag :=
  match m with
  | RPair case sx ex => derive_tag case sx ex h e
  | RPairing s => derive_pairing_tag s h e
  | RPaired s => derive_paired_route_tag s h e
  end.

Lemma derive_material_hkdf `{RdvCrypto} m h e :
  derive_material m h e = mkTag (hkdf16 RENDEZVOUS_SALT (material_ikm m) (tag_info h e)).
Proof. by destruct m. Qed.

(** The HKDF inputs determine the kind of route, its key material, the relay
    host and the epoch. *)
Lemma derivation_inputs_separate m k h h' e e' :
  u64 e → u64 e' →
  (material_ikm m, tag_info h e) = (material_ikm k, tag_info h' e') →
  m = k ∧ h = h' ∧ e = e'.
Proof.
  intros He Hf [= H1 H2]. split; [by apply material_ikm_inj|]. by apply tag_info_inj.
Qed.

Lemma valid_compressed_point_total `{RdvCrypto} bytes :
  ∃ b, valid_compressed_point bytes = Ret b.
Proof.
  unfold valid_compressed_point. split_if; [eauto|]. to_props.
  destruct (index_ok bytes 0) as (b & -> & _); [lia|]. reads. split_if; eauto.
Qed.

(** Rendezvous tags separate their inputs.  Where the key derivation does
    not collide on the two inputs at hand, equal tags come from the same kind of
    route, the same secret material, the same relay host and the same epoch; so
    a relay cannot match a tag seen on one host or in one epoch with another. *)
Theorem tags_separate `{R : RdvCrypto} (m k : route_material) (h h' : list byte) (e e' : Z)
    (He : u64 e) (He' : u64 e')
    (Hfree : hkdf16 RENDEZVOUS_SALT (material_ikm m) (tag_info h e) =
             hkdf16 RENDEZVOUS_SALT (material_ikm k) (tag_info h' e') →
             (material_ikm m, tag_info h e) = (material_ikm k, tag_info h' e')) :
  derive_material m h e = derive_material k h' e' → m = k ∧ h = h' ∧ e = e'.
Proof.
  rewrite !derive_material_hkdf. intros H.
  apply derivation_inputs_separate; [done|done|]. apply Hfree. congruence.
Qed.

Lemma tags_separate_witness :
  let m := RPaired (pad_array 32 (lit "secret")) in
  u64 8 ∧ derive_material (H := toy_rdv) m (lit "a.example") 7 ≠ derive_material (H := toy_rdv) m (lit "a.example") 8.
Proof.
  cbn zeta. split; [unfold u64; lia|]. intros E.
  destruct (tags_separate (R := toy_rdv) (RPaired (pad_array 32 (lit "secret"))) (RPaired (pad_array 32 (lit "secret")))
              (lit "a.example") (lit "a.example") 7 8) as (_ & _ & F).
  - unfold u64; lia.
  - unfold u64; lia.
  - intros F. apply (f_equal bytes_of) in F. vm_compute in F. discriminate F.
  - exact E.
  - discriminate F.
Defined.
