(* ===== verification/Card.v ===== *)
(** * Card: the address card ([link-core/src/card.rs])

    The [FSL-CARD-1] format: hints, signing, and the verifier of nine ordered
    rules.  [Card_verify] is translated with its offsets and slices, each of
    which panics out of range; the specification is [rule_holds], one
    proposition per rule over the bytes. *)

From S2P Require Import Prelude Net Id Rendezvous.

Open Scope Z_scope.

Definition CARD_DOMAIN : list byte := lit "forgesworn-link/card/v1" ++ [Byte.x00].
Definition CARD_MAGIC : list byte := lit "FSL1".
Definition CARD_VERSION : byte := Byte.x01.
Definition MIN_CARD_BYTES : nat := 126.
Definition MAX_CARD_BYTES : nat := 4096.
Definition MAX_HINTS : nat := 16.
Definition CLOCK_SKEW_SECONDS : Z := 300.
Definition MAX_LIFETIME_SECONDS : Z := 604800.
Definition HINT_RELAY : byte := Byte.x01.
Definition MAX_RELAY_HINT_BYTES : nat := 255.
Definition HINT_UDP : byte := Byte.x02.
Definition HINT_ONION : byte := Byte.x03.
Definition HINT_EPHEMERAL : byte := Byte.x04.
Definition HEADER_BYTES : nat := 62.
Definition SIGNATURE_BYTES : nat := 64.
Definition usize_max : Z := 2 ^ 64 - 1.

Record Hint : Type := mkHint { h_kind : byte; h_value : list byte }.

#[global] Instance Hint_eq_dec : EqDecision Hint.
Proof. solve_decision. Defined.

Definition Hint_relay (url : list byte) : Hint := mkHint HINT_RELAY url.

Definition Hint_udp (addr : SocketAddr) : Hint :=
  mkHint HINT_UDP (bytes_of (to_ipv6 (sa_ip addr)) ++ to_be 2 (sa_port addr)).

Definition Hint_onion (host : list byte) (port : Z) : Hint :=
  mkHint HINT_ONION (host ++ to_be 2 port).

Definition Hint_as_relay (h : Hint) : option (list byte) :=
  if negb (bool_decide (h_kind h = HINT_RELAY)) then None else from_utf8 (h_value h).

Definition Hint_as_udp (h : Hint) : exec (option SocketAddr) :=
  if negb (bool_decide (h_kind h = HINT_UDP)) || negb (length (h_value h) =? 18)%nat
  then Ret None
  else
    o ← slice 0 16 (h_value h);
    match try_array 16 o with
    | None => Ret None
    | Some octets =>
      p0 ← index (h_value h) 16;
      p1 ← index (h_value h) 17;
      Ret (Some (mkSocketAddr (V6 octets) (from_be [p0; p1])))
    end.

Definition Hint_as_onion (h : Hint) : exec (option (list byte * Z)) :=
  if negb (bool_decide (h_kind h = HINT_ONION)) || negb (length (h_value h) =? 58)%nat
  then Ret None
  else
    s ← slice 0 56 (h_value h);
    match from_utf8 s with
    | None => Ret None
    | Some host =>
      p0 ← index (h_value h) 56;
      p1 ← index (h_value h) 57;
      Ret (Some (host, from_be [p0; p1]))
    end.

Definition Hint_encoded_len (h : Hint) : nat := 3 + length (h_value h).

Record RuleViolation : Type := fail { rule : Z; detail : string }.

Record VerifyContext : Type := mkContext {
  ctx_now : Z;
  ctx_highest_seen_serial : Z;
  ctx_expected_node_id : option NodeId;
}.

Definition VerifyContext_new (now : Z) : VerifyContext := mkContext now 0 None.

Definition VerifyContext_expecting (c : VerifyContext) (n : NodeId) : VerifyContext :=
  mkContext (ctx_now c) (ctx_highest_seen_serial c) (Some n).

Definition VerifyContext_after_serial (c : VerifyContext) (s : Z) : VerifyContext :=
  mkContext (ctx_now c) s (ctx_expected_node_id c).

Record Card : Type := mkCard {
  card_node_id : NodeId;
  card_issued_at : Z;
  card_expires_at : Z;
  card_serial : Z;
  card_hints : list Hint;
  card_raw : list byte;
}.

(** The loop body of [encode_body]; [len() as u16] wraps. *)
Definition Hint_encode (h : Hint) : list byte :=
  [h_kind h] ++ to_be 2 (Z.of_nat (length (h_value h))) ++ h_value h.

Definition encode_body (node_id : NodeId) (issued_at expires_at serial : Z)
    (hints : list Hint) : list byte :=
  CARD_MAGIC ++ [CARD_VERSION] ++ as_bytes node_id ++ to_be 8 issued_at ++
  to_be 8 expires_at ++ to_be 8 serial ++ [byte_of_Z (Z.of_nat (length hints))] ++
  concat (Hint_encode <$> hints).

Definition be64 (bytes : list byte) : exec Z :=
  a ← expect (try_array 8 bytes); Ret (from_be (bytes_of a)).

Definition Card_as_bytes (c : Card) : list byte := card_raw c.

Definition Card_signing_input (c : Card) : exec (list byte) :=
  s ← slice 0 (length (card_raw c) - SIGNATURE_BYTES) (card_raw c);
  Ret (CARD_DOMAIN ++ s).

(** [copy_from_slice] panics unless the slice is the 64 bytes. *)
Definition Card_signature (c : Card) : exec (array 64) :=
  s ← slice (length (card_raw c) - SIGNATURE_BYTES) (length (card_raw c)) (card_raw c);
  expect (try_array 64 s).

Definition Card_relay_urls (c : Card) : list (list byte) := omap Hint_as_relay (card_hints c).

Fixpoint udp_of_hints (hints : list Hint) : exec (list SocketAddr) :=
  match hints with
  | [] => Ret []
  | h :: rest =>
    o ← Hint_as_udp h;
    l ← udp_of_hints rest;
    Ret (match o with Some a => a :: l | None => l end)
  end.

Definition Card_udp_candidates (c : Card) : exec (list SocketAddr) := udp_of_hints (card_hints c).

Section verify.
Context `{C : Crypto, R : RdvCrypto}.

Definition Card_sign (key : TransportKey) (issued_at expires_at serial : Z)
    (hints : list Hint) : Card :=
  let body := encode_body (tk_node_id key) issued_at expires_at serial hints in
  let signature := TransportKey_sign key (CARD_DOMAIN ++ body) in
  mkCard (tk_node_id key) issued_at expires_at serial hints (body ++ bytes_of signature).

(** [match kind { .. }] of the hint loop. *)
Definition check_hint (bytes : list byte) (kind : byte) (len value_start value_end : nat) :
    exec (option string) :=
  if bool_decide (kind = HINT_RELAY) && ((len =? 0) || (MAX_RELAY_HINT_BYTES <? len))%nat
  then Ret (Some "relay hint is not 1 to 255 bytes"%string)
  else if bool_decide (kind = HINT_UDP) && negb (len =? 18)%nat
  then Ret (Some "udp hint is not 18 bytes"%string)
  else if bool_decide (kind = HINT_ONION) && negb (len =? 58)%nat
  then Ret (Some "onion hint is not 58 bytes"%string)
  else if bool_decide (kind = HINT_EPHEMERAL) then
    if negb (len =? 33)%nat then Ret (Some "ephemeral hint is not 33 bytes"%string)
    else
      v ← slice value_start value_end bytes;
      ok ← valid_compressed_point v;
      if (negb ok : bool)
      then Ret (Some "ephemeral hint does not decompress to a curve point"%string)
      else Ret None
  else Ret None.

(** [for _ in 0..hint_count], with the locals [offset] and [hints]. *)
Fixpoint parse_hints (n : nat) (bytes : list byte) (hints_end offset : nat)
    (hints : list Hint) : exec (result RuleViolation (nat * list Hint)) :=
  match n with
  | O => Ret (Ok (offset, hints))
  | S n' =>
    if (hints_end <? offset + 3)%nat
    then Ret (Err (fail 3 "hint header runs past the signature"))
    else
      kind ← index bytes offset;
      l0 ← index bytes (offset + 1)%nat;
      l1 ← index bytes (offset + 2)%nat;
      let len := Z.to_nat (from_be [l0; l1]) in
      let value_start := (offset + 3)%nat in
      if (usize_max <? Z.of_nat value_start + Z.of_nat len)%Z
      then Ret (Err (fail 3 "hint length overflows"))
      else
        let value_end := (value_start + len)%nat in
        if (hints_end <? value_end)%nat
        then Ret (Err (fail 3 "hint value runs past the signature"))
        else
          c ← check_hint bytes kind len value_start value_end;
          match c with
          | Some d => Ret (Err (fail 3 d))
          | None =>
            v ← slice value_start value_end bytes;
            parse_hints n' bytes hints_end value_end (hints ++ [mkHint kind v])
          end
  end.

Definition ephemeral_count (hints : list Hint) : nat :=
  length (filter (λ h, h_kind h = HINT_EPHEMERAL) hints).

(** Rules 4 to 9, once the hints are parsed. *)
Definition verify_signed (bytes : list byte) (ctx : VerifyContext) (node_id : NodeId)
    (issued_at expires_at serial : Z) (hints : list Hint) (hints_end : nat) :
    exec (result RuleViolation Card) :=
  body ← slice 0 hints_end bytes;
  sig ← slice hints_end (length bytes) bytes;
  signature ← expect (try_array 64 sig);
  Ret (
    if negb (NodeId_verify node_id (CARD_DOMAIN ++ body) signature)
    then Err (fail 4 "signature does not verify under node_id")
    else if sat_add64 (ctx_now ctx) CLOCK_SKEW_SECONDS <? issued_at
    then Err (fail 5 "issued_at is beyond the allowed clock skew")
    else if expires_at <=? ctx_now ctx
    then Err (fail 6 "card has expired")
    else if expires_at <=? issued_at
    then Err (fail 7 "expires_at is not after issued_at")
    else if MAX_LIFETIME_SECONDS <? expires_at - issued_at
    then Err (fail 7 "lifetime longer than seven days")
    else if serial <=? ctx_highest_seen_serial ctx
    then Err (fail 8 "serial is not above the highest previously accepted")
    else if (match ctx_expected_node_id ctx with
             | Some expected => negb (bool_decide (expected = node_id))
             | None => false
             end)
    then Err (fail 9 "node_id is not the expected peer")
    else Ok (mkCard node_id issued_at expires_at serial hints bytes)).

Definition Card_verify (bytes : list byte) (ctx : VerifyContext) :
    exec (result RuleViolation Card) :=
  if (length bytes <? MIN_CARD_BYTES)%nat
  then Ret (Err (fail 1 "card shorter than the 126 byte minimum"))
  else if (MAX_CARD_BYTES <? length bytes)%nat
  then Ret (Err (fail 1 "card longer than the 4096 byte maximum"))
  else
    magic ← slice 0 4 bytes;
    if negb (bool_decide (magic = CARD_MAGIC))
    then Ret (Err (fail 2 "magic is not FSL1"))
    else
      version ← index bytes 4;
      if negb (bool_decide (version = CARD_VERSION))
      then Ret (Err (fail 2 "version is not 0x01"))
      else
        id ← slice 5 37 bytes;
        node_id ← expect (NodeId_from_slice id);
        i ← slice 37 45 bytes; issued_at ← be64 i;
        e ← slice 45 53 bytes; expires_at ← be64 e;
        s ← slice 53 61 bytes; serial ← be64 s;
        hc ← index bytes 61;
        let hint_count := Z.to_nat (byte_to_Z hc) in
        let hints_end := (length bytes - SIGNATURE_BYTES)%nat in
        if (MAX_HINTS <? hint_count)%nat
        then Ret (Err (fail 3 "hint_count above 16"))
        else
          p ← parse_hints hint_count bytes hints_end HEADER_BYTES [];
          match p with
          | Err v => Ret (Err v)
          | Ok (offset, hints) =>
            if negb (offset =? hints_end)%nat
            then Ret (Err (fail 3 "hints do not end exactly at the signature"))
            else if (1 <? ephemeral_count hints)%nat
            then Ret (Err (fail 3 "more than one ephemeral hint"))
            else verify_signed bytes ctx node_id issued_at expires_at serial hints hints_end
          end.

End verify.

(** ** The nine rules, over the bytes *)

(** The [n] bytes at offset [a]. *)
Definition field (a n : nat) (bytes : list byte) : list byte := take n (drop a bytes).

Section spec.
Context `{C : Crypto, R : RdvCrypto}.

(** A hint the verifier takes (rule 3). *)
Record Hint_ok (h : Hint) : Prop := {
  ok_len : Z.of_nat (length (h_value h)) < 2 ^ 16;
  ok_relay : h_kind h = HINT_RELAY → (1 ≤ length (h_value h) ≤ MAX_RELAY_HINT_BYTES)%nat;
  ok_udp : h_kind h = HINT_UDP → length (h_value h) = 18%nat;
  ok_onion : h_kind h = HINT_ONION → length (h_value h) = 58%nat;
  ok_ephemeral : h_kind h = HINT_EPHEMERAL → valid_compressed_point (h_value h) = Ret true;
}.

(** [hints] is what the hint region of [bytes] spells. *)
Record hints_of (bytes : list byte) (hints : list Hint) : Prop := {
  ho_count : Z.of_nat (length hints) = from_be (field 61 1 bytes);
  ho_max : (length hints ≤ MAX_HINTS)%nat;
  ho_region : field HEADER_BYTES (length bytes - MIN_CARD_BYTES) bytes =
    concat (Hint_encode <$> hints);
  ho_ok : Forall Hint_ok hints;
  ho_ephemeral : (ephemeral_count hints ≤ 1)%nat;
}.

Definition f_node (bytes : list byte) : NodeId := mkNodeId (pad_array 32 (field 5 32 bytes)).
Definition f_issued (bytes : list byte) : Z := from_be (field 37 8 bytes).
Definition f_expires (bytes : list byte) : Z := from_be (field 45 8 bytes).
Definition f_serial (bytes : list byte) : Z := from_be (field 53 8 bytes).
Definition f_body (bytes : list byte) : list byte :=
  field 0 (length bytes - SIGNATURE_BYTES) bytes.
Definition f_signature (bytes : list byte) : array 64 :=
  pad_array 64 (field (length bytes - SIGNATURE_BYTES) 64 bytes).

Definition rule_holds (ctx : VerifyContext) (bytes : list byte) (r : Z) : Prop :=
  match r with
  | 1 => (MIN_CARD_BYTES ≤ length bytes ≤ MAX_CARD_BYTES)%nat
  | 2 => field 0 4 bytes = CARD_MAGIC ∧ field 4 1 bytes = [CARD_VERSION]
  | 3 => ∃ hints, hints_of bytes hints
  | 4 => NodeId_verify (f_node bytes) (CARD_DOMAIN ++ f_body bytes) (f_signature bytes) = true
  | 5 => f_issued bytes <= sat_add64 (ctx_now ctx) CLOCK_SKEW_SECONDS
  | 6 => ctx_now ctx < f_expires bytes
  | 7 => f_issued bytes < f_expires bytes <= f_issued bytes + MAX_LIFETIME_SECONDS
  | 8 => ctx_highest_seen_serial ctx < f_serial bytes
  | 9 => ∀ expected, ctx_expected_node_id ctx = Some expected → expected = f_node bytes
  | _ => True
  end.

Definition rules_below (ctx : VerifyContext) (bytes : list byte) (k : Z) : Prop :=
  ∀ r, 1 <= r < k → rule_holds ctx bytes r.

(** The card a verified buffer decodes to. *)
Definition decodes_to (bytes : list byte) (c : Card) : Prop :=
  card_raw c = bytes ∧ hints_of bytes (card_hints c) ∧
  card_node_id c = f_node bytes ∧ card_issued_at c = f_issued bytes ∧
  card_expires_at c = f_expires bytes ∧ card_serial c = f_serial bytes.

(** ** Reading fields *)

Lemma slice_field a b bytes : (a ≤ b ≤ length bytes)%nat → slice a b bytes = Ret (field a (b - a) bytes).
Proof. apply slice_ok. Qed.

Lemma field_length a n bytes : (a + n ≤ length bytes)%nat → length (field a n bytes) = n.
Proof. intros. unfold field. rewrite length_take, length_drop. lia. Qed.

Lemma index_field a bytes :
  (a < length bytes)%nat → ∃ b, index bytes a = Ret b ∧ field a 1 bytes = [b].
Proof.
  intros H. destruct (index_ok bytes a H) as (b & Hb & _). exists b. split; [done|].
  apply index_slice in Hb. rewrite slice_field in Hb by lia.
  replace (S a - a)%nat with 1%nat in Hb by lia. congruence.
Qed.

Lemma be64_field a bytes :
  (a + 8 ≤ length bytes)%nat → be64 (field a 8 bytes) = Ret (from_be (field a 8 bytes)).
Proof.
  intros H. unfold be64. destruct (try_array_is_Some (field a 8 bytes) (field_length _ _ _ H))
    as (x & -> & Hx). simpl. by rewrite Hx.
Qed.

Lemma from_slice_field a bytes :
  (a + 32 ≤ length bytes)%nat →
  NodeId_from_slice (field a 32 bytes) = Some (mkNodeId (pad_array 32 (field a 32 bytes))).
Proof.
  intros H. apply NodeId_from_slice_Some. unfold as_bytes. cbn [node_bytes].
  by rewrite bytes_of_pad by (by apply field_length).
Qed.

Lemma field_glue a n m bytes :
  (a + n + m ≤ length bytes)%nat →
  field a n bytes ++ field (a + n) m bytes = field a (n + m) bytes.
Proof.
  intros H. pose proof (slice_glue a (a + n) (a + n + m) bytes
    (field a n bytes) (field (a + n) m bytes)) as G.
  rewrite !slice_field in G by lia.
  replace (a + n - a)%nat with n in G by lia.
  replace (a + n + m - (a + n))%nat with m in G by lia.
  replace (a + n + m - a)%nat with (n + m)%nat in G by lia.
  specialize (G eq_refl eq_refl). congruence.
Qed.

(** ** Hints *)

Lemma Hint_encode_length h : length (Hint_encode h) = Hint_encoded_len h.
Proof. unfold Hint_encode, Hint_encoded_len. by rewrite !length_app, to_be_length. Qed.

(** A hint encoding determines the hint and where it ends. *)
Lemma Hint_encode_app h k x y :
  Z.of_nat (length (h_value h)) < 2 ^ 16 → Z.of_nat (length (h_value k)) < 2 ^ 16 →
  Hint_encode h ++ x = Hint_encode k ++ y → h = k ∧ x = y.
Proof.
  intros Hh Hk. unfold Hint_encode. rewrite <- !app_assoc. intros [Ek E]%app_inj_1; [|done].
  apply app_inj_1 in E as [El E]; [|by rewrite !to_be_length].
  apply (f_equal from_be) in El. rewrite !from_to_be_16 in El by (unfold u16; lia).
  apply app_inj_1 in E as [Ev ->]; [|lia]. split; [|done].
  destruct h, k; simpl in *; congruence.
Qed.

Lemma Hint_encode_read kind l0 l1 v :
  length v = Z.to_nat (from_be [l0; l1]) →
  Hint_encode (mkHint kind v) = [kind] ++ [l0; l1] ++ v.
Proof.
  intros H. unfold Hint_encode; cbn [h_kind h_value]. rewrite H, Z2Nat.id by apply from_be_range.
  by rewrite to_from_be_n.
Qed.

(** The declared length of a hint fits in what follows its header. *)
Lemma Hint_encode_fits kind l0 l1 tail h r :
  Z.of_nat (length (h_value h)) < 2 ^ 16 →
  [kind; l0; l1] ++ tail = Hint_encode h ++ r → (Z.to_nat (from_be [l0; l1]) ≤ length tail)%nat.
Proof.
  intros Hh. unfold Hint_encode. rewrite <- !app_assoc. intros [_ E]%(app_inj_1 [kind]); [|done].
  apply (app_inj_1 [l0; l1]) in E as [El ->]; [|by rewrite to_be_length].
  rewrite El, from_to_be_16 by (unfold u16; lia). rewrite length_app. lia.
Qed.

Lemma from_be_2 l0 l1 : 0 <= from_be [l0; l1] < 2 ^ 16.
Proof. by apply from_be_u16. Qed.

Lemma check_hint_spec bytes kind vs ve v :
  slice vs ve bytes = Ret v → Z.of_nat (length v) < 2 ^ 16 →
  ∃ o, check_hint bytes kind (length v) vs ve = Ret o ∧ (o = None ↔ Hint_ok (mkHint kind v)).
Proof.
  intros Hs Hl. unfold check_hint.
  destruct (_ && _) eqn:G1.
  { eexists; split; [done|]. split; [done|]. intros [_ Hr _ _ _]; simpl in *. to_props.
    apply Hr in H. apply orb_true_iff in H0 as [?|?]; to_props; lia. }
  destruct (_ && _) eqn:G2 in |- *.
  { eexists; split; [done|]. split; [done|]. intros [_ _ Hr _ _]; simpl in *. to_props.
    by apply Hr in H. }
  destruct (_ && _) eqn:G3 in |- *.
  { eexists; split; [done|]. split; [done|]. intros [_ _ _ Hr _]; simpl in *. to_props.
    by apply Hr in H. }
  assert (Hok : (kind = HINT_EPHEMERAL → valid_compressed_point v = Ret true) →
    Hint_ok (mkHint kind v)).
  { intros He. split; cbn [h_kind h_value]; [done|intros ->..|done].
    - rewrite bool_decide_true in G1 by done. rewrite andb_true_l in G1. to_props. lia.
    - rewrite bool_decide_true in G2 by done. rewrite andb_true_l in G2. by to_props.
    - rewrite bool_decide_true in G3 by done. rewrite andb_true_l in G3. by to_props. }
  destruct (bool_decide_reflect (kind = HINT_EPHEMERAL)) as [G4|G4]; [|exists None; split; [done|]; split; [intros _; by apply Hok|done]].
  destruct (valid_compressed_point_total v) as (ok & Hv). split_if.
  - eexists; split; [done|]. split; [done|]. intros [_ _ _ _ He]; simpl in *. to_props.
    specialize (He G4). unfold valid_compressed_point in He. split_if_in He. to_props. lia.
  - rewrite Hs. reads. rewrite Hv. reads. destruct ok; simpl; eexists; (split; [done|]).
    + split; [|done]. intros _. by apply Hok.
    + split; [done|]. intros [_ _ _ _ He]; simpl in He. specialize (He G4). congruence.
Qed.

(** What the hint loop finds: the first [n] well-formed hints of the region, or
    that there are none. *)
Definition hint_prefix (n : nat) (region : list byte) (hints : list Hint) (rest : list byte) : Prop :=
  length hints = n ∧ Forall Hint_ok hints ∧ region = concat (Hint_encode <$> hints) ++ rest.

Lemma hint_prefix_cons n region h hs rest :
  hint_prefix (S n) region (h :: hs) rest ↔
  Hint_ok h ∧ ∃ region', region = Hint_encode h ++ region' ∧ hint_prefix n region' hs rest.
Proof.
  unfold hint_prefix. rewrite Forall_cons. simpl. split.
  - intros (Hn & [Hh Hhs] & ->). split; [done|]. eexists.
    split; [by rewrite <- app_assoc|]. split_and!; [lia|done..].
  - intros (Hh & region' & -> & Hn & Hhs & ->). rewrite app_assoc. split_and!; [lia|done..].
Qed.

Lemma hint_prefix_unique n region hs rest hs' rest' :
  hint_prefix n region hs rest → hint_prefix n region hs' rest' → hs = hs' ∧ rest = rest'.
Proof.
  revert region hs hs'. induction n as [|n IH]; intros region hs hs' H H'.
  - destruct H as (?%length_zero_iff_nil & _ & Hr), H' as (?%length_zero_iff_nil & _ & Hr').
    subst hs hs'. simpl in *. split; congruence.
  - destruct hs as [|h hs]; [by destruct H|]. destruct hs' as [|h' hs']; [by destruct H'|].
    apply hint_prefix_cons in H as (Hh & r & -> & H), H' as (Hh' & r' & E & H').
    apply Hint_encode_app in E as [-> ->]; [|apply Hh..|apply Hh'].
    destruct (IH _ _ _ H H') as [-> ->]. done.
Qed.

(** The three reads of a hint header, and what is left of the region. *)
Lemma hint_header_reads bytes hints_end offset region :
  slice offset hints_end bytes = Ret region → (offset + 3 ≤ hints_end)%nat →
  ∃ kind l0 l1 tail,
    index bytes offset = Ret kind ∧ index bytes (offset + 1) = Ret l0 ∧
    index bytes (offset + 2) = Ret l1 ∧ slice (offset + 3) hints_end bytes = Ret tail ∧
    region = [kind; l0; l1] ++ tail.
Proof.
  intros Hr Hle. pose proof (slice_length _ _ _ _ Hr) as [_ ?].
  destruct (index_ok bytes offset) as (kind & E0 & _); [lia|].
  destruct (index_ok bytes (offset + 1)) as (l0 & E1 & _); [lia|].
  destruct (index_ok bytes (offset + 2)) as (l1 & E2 & _); [lia|].
  assert (∃ tail, slice (offset + 3) hints_end bytes = Ret tail) as [tail Ht]
    by (rewrite slice_ok by lia; eauto).
  exists kind, l0, l1, tail. split_and!; [done..|].
  apply index_slice in E0, E1, E2.
  replace (S offset) with (offset + 1)%nat in E0 by lia.
  replace (S (offset + 1)) with (offset + 2)%nat in E1 by lia.
  replace (S (offset + 2)) with (offset + 3)%nat in E2 by lia.
  pose proof (slice_glue _ _ _ _ _ _ E0 (slice_glue _ _ _ _ _ _ E1
    (slice_glue _ _ _ _ _ _ E2 Ht))) as G. rewrite Hr in G. by injection G.
Qed.

Lemma slice_split_at bytes a m b tail :
  slice a b bytes = Ret tail → (a ≤ m ≤ b)%nat →
  ∃ v r, slice a m bytes = Ret v ∧ slice m b bytes = Ret r ∧ tail = v ++ r ∧ length v = (m - a)%nat.
Proof.
  intros Ht Hm. pose proof (slice_length _ _ _ _ Ht) as [_ ?].
  assert (∃ v, slice a m bytes = Ret v) as [v Hv] by (rewrite slice_ok by lia; eauto).
  assert (∃ r, slice m b bytes = Ret r) as [r Hr] by (rewrite slice_ok by lia; eauto).
  exists v, r. pose proof (slice_glue _ _ _ _ _ _ Hv Hr).
  pose proof (slice_length _ _ _ _ Hv). split_and!; [done..|congruence|lia].
Qed.

(** The outcomes of the loop; [hint_loop_cons] is one turn of it. *)
Definition hint_loop_ok (n hints_end : nat) (hints : list Hint) (region : list byte)
    (r : result RuleViolation (nat * list Hint)) : Prop :=
  match r with
  | Ok (off', hints') => ∃ new rest,
      hints' = hints ++ new ∧ hint_prefix n region new rest ∧ (off' + length rest = hints_end)%nat
  | Err v => rule v = 3 ∧ ∀ new rest, ¬ hint_prefix n region new rest
  end.

Lemma hint_loop_err n hints_end hints region d :
  (∀ h r, Hint_ok h → region ≠ Hint_encode h ++ r) →
  hint_loop_ok (S n) hints_end hints region (Err (fail 3 d)).
Proof.
  intros H. split; [done|]. intros [|h new] rest H'; [by destruct H'|].
  apply hint_prefix_cons in H' as (Hk & r' & E & _). by eapply H.
Qed.

Lemma hint_loop_cons n hints_end hints h region r :
  Hint_ok h → hint_loop_ok n hints_end (hints ++ [h]) region r →
  hint_loop_ok (S n) hints_end hints (Hint_encode h ++ region) r.
Proof.
  intros Hk. destruct r as [[off' hints']|w].
  - intros (new & rest & -> & Hp & Hoff). exists (h :: new), rest.
    split; [by rewrite <- app_assoc|]. split; [|done]. apply hint_prefix_cons. eauto.
  - intros [Hw Hno]. split; [done|]. intros [|h' new] rest H'; [by destruct H'|].
    apply hint_prefix_cons in H' as (Hk' & r'' & E & Hp).
    apply Hint_encode_app in E as [_ <-]; [|apply Hk|apply Hk']. by eapply Hno.
Qed.

Lemma parse_hints_spec n bytes hints_end offset hints region :
  (length bytes ≤ MAX_CARD_BYTES)%nat →
  slice offset hints_end bytes = Ret region →
  ∃ r, parse_hints n bytes hints_end offset hints = Ret r ∧
    hint_loop_ok n hints_end hints region r.
Proof.
  intros Hmax. revert offset hints region. induction n as [|n IH]; intros offset hints region Hr.
  { eexists; split; [done|]. exists [], region. rewrite app_nil_r.
    apply slice_length in Hr as [? ?]. split_and!; [done..|lia]. }
  pose proof (slice_length _ _ _ _ Hr) as [Lr ?]. simpl. split_if; to_props.
  { eexists; split; [done|]. apply hint_loop_err. intros h r _ ->.
    rewrite length_app, Hint_encode_length in Lr. unfold Hint_encoded_len in Lr. lia. }
  destruct (hint_header_reads _ _ _ _ Hr G) as (kind & l0 & l1 & tail & E0 & E1 & E2 & Ht & ->).
  rewrite E0, E1, E2. reads. set (len := Z.to_nat (from_be [l0; l1])).
  pose proof (from_be_2 l0 l1) as Hlen. assert (Z.of_nat len < 2 ^ 16) by lia.
  rewrite (proj2 (Z.ltb_ge _ _)) by (unfold MAX_CARD_BYTES, usize_max in *; lia).
  pose proof (slice_length _ _ _ _ Ht) as [Lt _]. split_if; to_props.
  { eexists; split; [done|]. apply hint_loop_err. intros h r Hk E.
    apply Hint_encode_fits in E; [lia|apply Hk]. }
  destruct (slice_split_at _ _ (offset + 3 + len) _ _ Ht) as (v & r' & Hv & Hr' & -> & Lv); [lia|].
  replace (_ - _)%nat with len in Lv by lia.
  rewrite (app_assoc [kind; l0; l1] v r'). change ([kind; l0; l1] ++ v) with ([kind] ++ [l0; l1] ++ v).
  rewrite <- (Hint_encode_read kind l0 l1 v Lv).
  destruct (check_hint_spec bytes kind _ _ v Hv) as (o & Ho & Hiff); [lia|].
  rewrite Lv in Ho. rewrite Ho. reads. destruct o as [d|].
  { eexists; split; [done|]. apply hint_loop_err. intros h r'' Hk E.
    apply Hint_encode_app in E as [<- _]; [|simpl; lia|apply Hk]. by apply Hiff in Hk. }
  rewrite Hv. reads. destruct (IH _ (hints ++ [mkHint kind v]) r' Hr') as (r & -> & Hspec).
  exists r. split; [done|]. apply hint_loop_cons; [by apply Hiff|done].
Qed.

(** ** The verifier against its rules *)

Lemma rules_below_1 ctx bytes : rules_below ctx bytes 1.
Proof. intros r Hr. lia. Qed.

Lemma rules_below_next ctx bytes k :
  rules_below ctx bytes k → rule_holds ctx bytes k → rules_below ctx bytes (k + 1).
Proof.
  intros H Hk r Hr. destruct (decide (r = k)) as [->|]; [done|]. apply H. lia.
Qed.

(** What the verifier answers, stated on the bytes. *)
Definition verdict (ctx : VerifyContext) (bytes : list byte) (r : result RuleViolation Card) : Prop :=
  match r with
  | Ok c => rules_below ctx bytes 10 ∧ decodes_to bytes c
  | Err v => 1 <= rule v <= 9 ∧ ¬ rule_holds ctx bytes (rule v) ∧ rules_below ctx bytes (rule v)
  end.

Lemma verdict_err ctx bytes k d :
  1 <= k <= 9 → rules_below ctx bytes k → ¬ rule_holds ctx bytes k →
  verdict ctx bytes (Err (fail k d)).
Proof. done. Qed.

(** Record that rule [k] holds. *)
Ltac next_rule k H :=
  let k' := eval compute in (k + 1) in
  let H' := fresh in
  match type of H with rules_below ?ctx ?bytes _ =>
    assert (H' : rules_below ctx bytes k')
      by (apply (rules_below_next ctx bytes k); [exact H|cbn [rule_holds]; first [done | lia]])
  end; clear H; rename H' into H.

Lemma verify_signed_spec ctx bytes hints :
  rules_below ctx bytes 4 → hints_of bytes hints → (MIN_CARD_BYTES ≤ length bytes)%nat →
  ∃ r, verify_signed bytes ctx (f_node bytes) (f_issued bytes) (f_expires bytes)
         (f_serial bytes) hints (length bytes - SIGNATURE_BYTES) = Ret r ∧ verdict ctx bytes r.
Proof.
  intros H3 Hh Hlen. unfold MIN_CARD_BYTES in Hlen. unfold verify_signed.
  rewrite (slice_field 0) by lia. reads. rewrite Nat.sub_0_r. fold (f_body bytes).
  rewrite (slice_field _ (length bytes)) by lia. reads.
  replace (length bytes - (length bytes - SIGNATURE_BYTES))%nat with 64%nat
    by (unfold SIGNATURE_BYTES; lia).
  destruct (try_array_is_Some (n := 64) (field (length bytes - SIGNATURE_BYTES) 64 bytes))
    as (sg & Es & Eb); [apply field_length; unfold SIGNATURE_BYTES; lia|].
  rewrite Es. simpl expect. reads.
  assert (sg = f_signature bytes) as -> by (unfold f_signature; rewrite <- Eb; by rewrite pad_array_bytes).
  eexists; split; [done|].
  destruct (NodeId_verify _ _ _) eqn:G4; cbn [negb];
    [|apply verdict_err; [lia|done|cbn [rule_holds]; congruence]].
  next_rule 4 H3.
  split_if; to_props; [apply verdict_err; [lia|done|cbn [rule_holds]; lia]|].
  next_rule 5 H3.
  split_if; to_props; [apply verdict_err; [lia|done|cbn [rule_holds]; lia]|].
  next_rule 6 H3.
  split_if; to_props; [apply verdict_err; [lia|done|cbn [rule_holds]; lia]|].
  split_if; to_props; [apply verdict_err; [lia|done|cbn [rule_holds]; lia]|].
  next_rule 7 H3.
  split_if; to_props; [apply verdict_err; [lia|done|cbn [rule_holds]; lia]|].
  next_rule 8 H3.
  split_if.
  - apply verdict_err; [lia|done|]. cbn [rule_holds]. destruct (ctx_expected_node_id ctx); [|done].
    to_props. intros Hx. by specialize (Hx _ eq_refl).
  - split; [|by split_and!]. apply (rules_below_next _ _ 9); [done|].
    intros expected E. rewrite E in *. by to_props.
Qed.

(** The header a verified card starts with. *)
Lemma field_61 bytes : (61 < length bytes)%nat → 0 <= from_be (field 61 1 bytes) < 256.
Proof.
  intros H. pose proof (from_be_range (field 61 1 bytes)) as Hr.
  rewrite field_length in Hr by lia. exact Hr.
Qed.

Lemma hints_of_prefix bytes hints :
  hints_of bytes hints →
  hint_prefix (length hints) (field HEADER_BYTES (length bytes - MIN_CARD_BYTES) bytes) hints [].
Proof. intros [? ? Hr Hok ?]. split_and!; [done..|]. by rewrite app_nil_r. Qed.

Lemma hints_of_unique bytes hs hs' : hints_of bytes hs → hints_of bytes hs' → hs = hs'.
Proof.
  intros H H'. pose proof (ho_count _ _ H) as E. rewrite <- (ho_count _ _ H') in E.
  apply hints_of_prefix in H, H'. replace (length hs') with (length hs) in H' by lia.
  by eapply hint_prefix_unique.
Qed.

(** The outcome of the rule 3 checks and what follows them. *)
Lemma verify_hints_spec ctx bytes :
  rules_below ctx bytes 3 → from_be (field 61 1 bytes) <= 16 →
  ∃ r, (p ← parse_hints (Z.to_nat (from_be (field 61 1 bytes))) bytes
              (length bytes - SIGNATURE_BYTES) HEADER_BYTES [];
        match p with
        | Err v => Ret (Err v)
        | Ok (offset, hints) =>
          if negb (offset =? length bytes - SIGNATURE_BYTES)%nat
          then Ret (Err (fail 3 "hints do not end exactly at the signature"))
          else if (1 <? ephemeral_count hints)%nat
          then Ret (Err (fail 3 "more than one ephemeral hint"))
          else verify_signed bytes ctx (f_node bytes) (f_issued bytes) (f_expires bytes)
                 (f_serial bytes) hints (length bytes - SIGNATURE_BYTES)
        end) = Ret r ∧ verdict ctx bytes r.
Proof.
  intros Hb H16. pose proof (Hb 1 ltac:(lia)) as [Hmin Hmax]. unfold MIN_CARD_BYTES in Hmin.
  pose proof (field_61 bytes ltac:(lia)) as Hc. set (region := field HEADER_BYTES (length bytes - MIN_CARD_BYTES) bytes).
  destruct (parse_hints_spec (Z.to_nat (from_be (field 61 1 bytes))) bytes
    (length bytes - SIGNATURE_BYTES) HEADER_BYTES [] region) as (r & -> & Hr); [done|..].
  { rewrite slice_field by (unfold HEADER_BYTES, SIGNATURE_BYTES; lia). f_equal. subst region.
    f_equal. unfold HEADER_BYTES, SIGNATURE_BYTES, MIN_CARD_BYTES. lia. }
  reads. destruct r as [[offset hints]|v].
  2:{ destruct Hr as [Hv Hno]. eexists; split; [done|].
      destruct v as [k d]; cbn [rule] in Hv; subst k. apply verdict_err; [lia|done|].
      intros [hs Hhs]. eapply (Hno hs []). pose proof (ho_count _ _ Hhs) as Hn.
      apply hints_of_prefix in Hhs. by replace (Z.to_nat _) with (length hs) by lia. }
  destruct Hr as (new & rest & -> & Hp & Hoff). cbn [app] in *.
  assert (Hsame : ∀ hs, hints_of bytes hs → hs = new ∧ rest = []).
  { intros hs Hhs. pose proof (ho_count _ _ Hhs) as Hn. apply hints_of_prefix in Hhs.
    replace (length hs) with (Z.to_nat (from_be (field 61 1 bytes))) in Hhs by lia.
    apply (hint_prefix_unique _ _ _ _ _ _ Hhs) in Hp as [-> <-]. done. }
  split_if; to_props.
  { eexists; split; [done|]. apply verdict_err; [lia|done|].
    intros [hs Hhs]. destruct (Hsame _ Hhs) as [_ ->]. simpl in Hoff. lia. }
  split_if; to_props.
  { eexists; split; [done|]. apply verdict_err; [lia|done|].
    intros [hs Hhs]. destruct (Hsame _ Hhs) as [-> _]. apply ho_ephemeral in Hhs. lia. }
  destruct rest; [|simpl in Hoff; lia]. destruct Hp as (Hn & Hok & Hreg).
  rewrite app_nil_r in Hreg.
  assert (Hh : hints_of bytes new).
  { split; [lia|unfold MAX_HINTS; lia|done|done|lia]. }
  destruct (verify_signed_spec ctx bytes new) as (r & Hr & Hv); [|done|done|eauto].
  apply (rules_below_next _ _ 3); [done|]. by exists new.
Qed.

Lemma verify_verdict bytes ctx :
  ∃ r, Card_verify bytes ctx = Ret r ∧ verdict ctx bytes r.
Proof.
  unfold Card_verify. pose proof (rules_below_1 ctx bytes) as Hb.
  split_if; to_props.
  { eexists; split; [done|]. apply verdict_err; [lia|done|cbn [rule_holds]; lia]. }
  split_if; to_props.
  { eexists; split; [done|]. apply verdict_err; [lia|done|cbn [rule_holds]; lia]. }
  next_rule 1 Hb. unfold MIN_CARD_BYTES in G.
  rewrite (slice_field 0 4) by lia. reads.
  split_if; to_props.
  { eexists; split; [done|]. apply verdict_err; [lia|done|]. by intros [? _]. }
  destruct (index_field 4 bytes) as (version & -> & Hver); [lia|]. reads.
  split_if; to_props.
  { eexists; split; [done|]. apply verdict_err; [lia|done|]. intros [_ E].
    rewrite Hver in E. congruence. }
  subst version. next_rule 2 Hb.
  rewrite (slice_field 5 37), (slice_field 37 45), (slice_field 45 53), (slice_field 53 61) by lia.
  reads. rewrite (from_slice_field 5) by lia. simpl expect. reads.
  rewrite (be64_field 37) by lia. reads. rewrite (be64_field 45) by lia. reads.
  rewrite (be64_field 53) by lia. reads.
  destruct (index_field 61 bytes) as (hc & -> & Hhc); [lia|]. reads.
  replace (byte_to_Z hc) with (from_be (field 61 1 bytes)) by (rewrite Hhc; unfold from_be; cbn [foldl]; lia).
  pose proof (field_61 bytes ltac:(lia)). cbv zeta. split_if; to_props; unfold MAX_HINTS in *.
  { eexists; split; [done|]. apply verdict_err; [lia|done|].
    intros [hs [Hn Hm _ _ _]]. unfold MAX_HINTS in Hm. lia. }
  apply verify_hints_spec; [done|lia].
Qed.

(** ** Signing *)

Lemma field_of_slice a n bytes x :
  slice a (a + n) bytes ≫= Ret = Ret x → field a n bytes = x.
Proof.
  intros (y & Hs & [= ->])%exec_bind_Ret. pose proof (slice_length _ _ _ _ Hs) as [_ ?].
  rewrite slice_field in Hs by lia. replace (a + n - a)%nat with n in Hs by lia. congruence.
Qed.

Lemma concat_encode_length hints :
  length (concat (Hint_encode <$> hints)) = sum_list (Hint_encoded_len <$> hints).
Proof.
  induction hints as [|h hints IH]; [done|].
  cbn [fmap list_fmap concat]. rewrite length_app, Hint_encode_length, IH. done.
Qed.

(** A hint list the sender may put in a card. *)
Record card_hints_ok (hints : list Hint) : Prop := {
  ch_max : (length hints ≤ MAX_HINTS)%nat;
  ch_ok : Forall Hint_ok hints;
  ch_ephemeral : (ephemeral_count hints ≤ 1)%nat;
  ch_size : (sum_list (Hint_encoded_len <$> hints) ≤ MAX_CARD_BYTES - MIN_CARD_BYTES)%nat;
}.

(** The fields of an encoded card. *)
Lemma layout_fields n i e s hints (sig : array 64) :
  u64 i → u64 e → u64 s → card_hints_ok hints →
  let bytes := encode_body n i e s hints ++ bytes_of sig in
  length bytes = (MIN_CARD_BYTES + sum_list (Hint_encoded_len <$> hints))%nat ∧
  field 0 4 bytes = CARD_MAGIC ∧ field 4 1 bytes = [CARD_VERSION] ∧
  f_node bytes = n ∧ f_issued bytes = i ∧ f_expires bytes = e ∧ f_serial bytes = s ∧
  hints_of bytes hints ∧
  f_body bytes = encode_body n i e s hints ∧ f_signature bytes = sig.
Proof.
  intros Hi He Hs [Hm Hok Hep _] bytes.
  assert (Lr : length (concat (Hint_encode <$> hints)) = sum_list (Hint_encoded_len <$> hints))
    by apply concat_encode_length.
  assert (Lm : length CARD_MAGIC = 4%nat) by done.
  assert (Lb : length (encode_body n i e s hints) = (62 + sum_list (Hint_encoded_len <$> hints))%nat).
  { unfold encode_body. rewrite !length_app, Lr, Lm, as_bytes_length, !to_be_length. simpl. lia. }
  assert (Ll : length bytes = (MIN_CARD_BYTES + sum_list (Hint_encoded_len <$> hints))%nat).
  { subst bytes. rewrite length_app, Lb, bytes_of_length. unfold MIN_CARD_BYTES. lia. }
  assert (Hbig : bytes = CARD_MAGIC ++ [CARD_VERSION] ++ as_bytes n ++ to_be 8 i ++ to_be 8 e ++
    to_be 8 s ++ [byte_of_Z (Z.of_nat (length hints))] ++ concat (Hint_encode <$> hints) ++
    bytes_of sig) by (subst bytes; unfold encode_body; by rewrite <- !app_assoc).
  assert (F : ∀ a n x, slice a (a + n) bytes ≫= Ret = Ret x → field a n bytes = x)
    by (intros a m x Hx; exact (field_of_slice a m bytes x Hx)).
  assert (F5 : field 5 32 bytes = as_bytes n) by (apply F; rewrite Hbig; by reads).
  split_and!; [done|..].
  - apply F. rewrite Hbig. by reads.
  - apply F. rewrite Hbig. by reads.
  - unfold f_node. rewrite F5. unfold as_bytes. rewrite pad_array_bytes. by destruct n.
  - unfold f_issued. rewrite (F _ _ (to_be 8 i)); [by apply from_to_be_64|].
    rewrite Hbig. by reads.
  - unfold f_expires. rewrite (F _ _ (to_be 8 e)); [by apply from_to_be_64|].
    rewrite Hbig. by reads.
  - unfold f_serial. rewrite (F _ _ (to_be 8 s)); [by apply from_to_be_64|].
    rewrite Hbig. by reads.
  - split; [|done| |done|done].
    + rewrite (F _ _ [byte_of_Z (Z.of_nat (length hints))]); [|rewrite Hbig; by reads].
      unfold from_be; cbn [foldl]. rewrite byte_to_Z_small; [lia|]. unfold MAX_HINTS in Hm. lia.
    + apply F. unfold HEADER_BYTES. rewrite Ll, Hbig. by reads.
  - apply F. rewrite Ll. subst bytes. unfold MIN_CARD_BYTES, SIGNATURE_BYTES. by reads.
  - unfold f_signature. rewrite (F _ _ (bytes_of sig)); [apply pad_array_bytes|].
    rewrite Ll. subst bytes. unfold MIN_CARD_BYTES, SIGNATURE_BYTES. by reads.
Qed.

(** A card that satisfies the nine rules is accepted, with its decoded fields. *)
Lemma verify_complete bytes ctx :
  rules_below ctx bytes 10 → ∃ c, Card_verify bytes ctx = Ret (Ok c) ∧ decodes_to bytes c.
Proof.
  intros H. destruct (verify_verdict bytes ctx) as ([c|v] & -> & Hv).
  - exists c. split; [done|]. apply Hv.
  - destruct Hv as (Hr & Hn & _). destruct Hn. apply H. lia.
Qed.

Lemma verify_sound bytes ctx c :
  Card_verify bytes ctx = Ret (Ok c) → rules_below ctx bytes 10 ∧ decodes_to bytes c.
Proof.
  intros H. destruct (verify_verdict bytes ctx) as (r & E & Hv).
  rewrite H in E. injection E as <-. exact Hv.
Qed.

(** A decoded card spells its bytes. *)
Lemma decodes_to_bytes ctx bytes c :
  rules_below ctx bytes 10 → decodes_to bytes c →
  bytes = encode_body (card_node_id c) (card_issued_at c) (card_expires_at c) (card_serial c)
            (card_hints c) ++ bytes_of (f_signature bytes).
Proof.
  intros H (_ & Hh & -> & -> & -> & ->). pose proof (H 1 ltac:(lia)) as [Hl _].
  pose proof (H 2 ltac:(lia)) as [Hm Hv]. unfold MIN_CARD_BYTES in Hl.
  unfold encode_body, f_issued, f_expires, f_serial.
  rewrite !to_from_be_n by (apply field_length; lia).
  assert (as_bytes (f_node bytes) = field 5 32 bytes) as ->
    by (apply bytes_of_pad, field_length; lia).
  assert (bytes_of (f_signature bytes) = field (length bytes - SIGNATURE_BYTES) 64 bytes) as ->
    by (apply bytes_of_pad, field_length; unfold SIGNATURE_BYTES; lia).
  rewrite (ho_count _ _ Hh), <- (ho_region _ _ Hh), <- Hm, <- Hv.
  assert ([byte_of_Z (from_be (field 61 1 bytes))] = field 61 1 bytes) as ->.
  { rewrite <- (to_from_be_n 1 (field 61 1 bytes)) at 2 by (apply field_length; lia). done. }
  rewrite <- !app_assoc.
  replace (length bytes - SIGNATURE_BYTES)%nat with
    (HEADER_BYTES + (length bytes - MIN_CARD_BYTES))%nat
    by (unfold HEADER_BYTES, SIGNATURE_BYTES, MIN_CARD_BYTES; lia).
  rewrite field_glue by (unfold HEADER_BYTES, MIN_CARD_BYTES; lia). unfold HEADER_BYTES.
  rewrite (field_glue 61 1), (field_glue 53 8), (field_glue 45 8), (field_glue 37 8),
    (field_glue 5 32), (field_glue 4 1), (field_glue 0 4) by (unfold MIN_CARD_BYTES; lia).
  unfold field. rewrite drop_0, take_ge; [done|]. unfold MIN_CARD_BYTES. lia.
Qed.

(** C1: the verifier never panics, and its verdict is the specification's: it
    accepts exactly the byte strings that satisfy all nine rules, returning the
    decoded card, and otherwise reports a rule that fails while every earlier
    rule holds. *)
Theorem Card_verify_first_failing_rule bytes ctx :
  ∃ r, Card_verify bytes ctx = Ret r ∧ verdict ctx bytes r ∧
    ((∃ c, r = Ok c) ↔ rules_below ctx bytes 10).
Proof.
  destruct (verify_verdict bytes ctx) as (r & Hr & Hv). exists r. split_and!; [done..|].
  split.
  - intros [c ->]. apply Hv.
  - intros H. apply verify_complete in H as (c & Hc & _). exists c. congruence.
Qed.

(** C2: an accepted card is byte-identical to the encoding of its decoded
    fields followed by a signature that verifies under its node ID, so the
    format has one spelling per card and [as_bytes] is what was verified. *)
Theorem Card_verify_canonical bytes ctx c (H : Card_verify bytes ctx = Ret (Ok c)) :
  Card_as_bytes c = bytes ∧ ∃ sig,
    bytes = encode_body (card_node_id c) (card_issued_at c) (card_expires_at c)
              (card_serial c) (card_hints c) ++ bytes_of sig ∧
    Card_signature c = Ret sig ∧
    Card_signing_input c = Ret (CARD_DOMAIN ++ f_body bytes) ∧
    NodeId_verify (card_node_id c) (CARD_DOMAIN ++ f_body bytes) sig = true.
Proof.
  apply verify_sound in H as [Hr Hd]. pose proof (Hr 1 ltac:(lia)) as [Hl _].
  pose proof (Hr 4 ltac:(lia)) as Hs. unfold MIN_CARD_BYTES in Hl.
  pose proof (decodes_to_bytes _ _ _ Hr Hd) as Hb. destruct Hd as (Hraw & _ & Hn & _).
  split; [done|]. exists (f_signature bytes). split; [done|].
  unfold Card_signature, Card_signing_input. rewrite Hraw, !slice_field by lia. reads.
  unfold SIGNATURE_BYTES. replace (length bytes - (length bytes - 64))%nat with 64%nat by lia.
  split_and!; [|by rewrite Nat.sub_0_r|by rewrite Hn].
  replace (field (length bytes - 64) 64 bytes) with (bytes_of (f_signature bytes))
    by (apply bytes_of_pad, field_length; unfold SIGNATURE_BYTES; lia).
  by rewrite try_array_bytes.
Qed.

(** A card signed with a key and times in order passes its own verifier. *)
Lemma sign_rules `{!CryptoLaws C} key i e s hints ctx :
  TransportKey_wf key → u64 i → u64 e → u64 s → card_hints_ok hints →
  i <= sat_add64 (ctx_now ctx) CLOCK_SKEW_SECONDS → ctx_now ctx < e →
  i < e <= i + MAX_LIFETIME_SECONDS → ctx_highest_seen_serial ctx < s →
  (∀ n, ctx_expected_node_id ctx = Some n → n = tk_node_id key) →
  rules_below ctx (card_raw (Card_sign key i e s hints)) 10.
Proof.
  intros Hk Hi He Hs Hh H5 H6 H7 H8 H9. cbn [Card_sign card_raw]. set (sig := TransportKey_sign _ _).
  destruct (layout_fields (tk_node_id key) i e s hints sig)
    as (Hl & F2 & F2' & Fn & Fi & Fe & Fs & Fh & Fb & Fg); [done..|].
  pose proof (rules_below_1 ctx (encode_body (tk_node_id key) i e s hints ++ bytes_of sig)) as Hb.
  pose proof (ch_size _ Hh). cbv zeta in *.
  assert (F4 : NodeId_verify (tk_node_id key)
    (CARD_DOMAIN ++ encode_body (tk_node_id key) i e s hints) sig = true)
    by by apply sign_verify.
  set (bytes := encode_body _ _ _ _ _ ++ _) in *.
  intros r Hr. unfold rule_holds. unfold MAX_CARD_BYTES, MIN_CARD_BYTES in *.
  destruct (decide (r = 1)) as [->|]; [lia|]. destruct (decide (r = 2)) as [->|]; [done|].
  destruct (decide (r = 3)) as [->|]; [by eexists|].
  destruct (decide (r = 4)) as [->|]; [by rewrite Fn, Fb, Fg|].
  destruct (decide (r = 5)) as [->|]; [by rewrite Fi|].
  destruct (decide (r = 6)) as [->|]; [by rewrite Fe|].
  destruct (decide (r = 7)) as [->|]; [by rewrite Fi, Fe|].
  destruct (decide (r = 8)) as [->|]; [by rewrite Fs|].
  assert (r = 9) as -> by lia. by rewrite Fn.
Qed.

Lemma sign_verify_card `{!CryptoLaws C} key i e s hints ctx
  : TransportKey_wf key → u64 i → u64 e → u64 s → card_hints_ok hints →
  i <= sat_add64 (ctx_now ctx) CLOCK_SKEW_SECONDS → ctx_now ctx < e →
  i < e <= i + MAX_LIFETIME_SECONDS → ctx_highest_seen_serial ctx < s →
  (∀ n, ctx_expected_node_id ctx = Some n → n = tk_node_id key) →
  Card_verify (Card_as_bytes (Card_sign key i e s hints)) ctx = Ret (Ok (Card_sign key i e s hints)).
Proof.
  intros Hk Hi He Hs Hh Hskew Hnow Hlife Hser Hexp.
  destruct (verify_complete (card_raw (Card_sign key i e s hints)) ctx) as (c & Hc & Hd);
    [by apply sign_rules|].
  unfold Card_as_bytes. rewrite Hc. f_equal. f_equal.
  destruct Hd as (Hraw & Hch & Hn & Hi' & He' & Hs'). cbn [Card_sign card_raw] in *.
  destruct (layout_fields (tk_node_id key) i e s hints
    (TransportKey_sign key (CARD_DOMAIN ++ encode_body (tk_node_id key) i e s hints)))
    as (_ & _ & _ & Fn & Fi & Fe & Fs & Fh & _ & _); [done..|].
  rewrite Fn in Hn. rewrite Fi in Hi'. rewrite Fe in He'. rewrite Fs in Hs'.
  pose proof (hints_of_unique _ _ _ Hch Fh). destruct c.
  cbn [card_raw card_hints card_node_id card_issued_at card_expires_at card_serial] in *.
  by subst.
Qed.

(** C3: a card signed with a transport key, whose hints fit the format and
    whose times and serial satisfy the verifier's context, verifies, and
    verification returns the very card that was signed. *)
Theorem Card_sign_verify `{!CryptoLaws C} key i e s hints ctx
  (Hk : TransportKey_wf key) (Hi : u64 i) (He : u64 e) (Hs : u64 s)
  (Hh : card_hints_ok hints)
  (Hskew : i <= sat_add64 (ctx_now ctx) CLOCK_SKEW_SECONDS) (Hnow : ctx_now ctx < e)
  (Hlife : i < e <= i + MAX_LIFETIME_SECONDS) (Hser : ctx_highest_seen_serial ctx < s)
  (Hexp : ∀ n, ctx_expected_node_id ctx = Some n → n = tk_node_id key) :
  Card_verify (Card_as_bytes (Card_sign key i e s hints)) ctx = Ret (Ok (Card_sign key i e s hints)).
Proof. by apply sign_verify_card. Qed.

End spec.

(** A udp hint reads back as the v6 form of the address, and the receiver's
    [unmap_ipv6] undoes the mapping. *)
Lemma Hint_udp_roundtrip addr :
  u16 (sa_port addr) →
  Hint_as_udp (Hint_udp addr) = Ret (Some (mkSocketAddr (V6 (to_ipv6 (sa_ip addr))) (sa_port addr))).
Proof.
  intros Hp. unfold Hint_as_udp, Hint_udp. cbn [h_kind h_value].
  rewrite bool_decide_true by done. rewrite length_app, bytes_of_length, to_be_length.
  cbn [negb orb Nat.add Nat.eqb]. reads. rewrite try_array_bytes.
  set (p := sa_port addr) in *.
  assert (E : to_be 2 p = [byte_of_Z (p / 256); byte_of_Z p]) by done.
  rewrite E. reads. cbn -[from_be byte_of_Z Z.div]. rewrite bytes_of_length. cbn -[from_be byte_of_Z Z.div].
  by rewrite <- E, from_to_be_16 by done.
Qed.

(** ** A concrete card *)

#[local] Existing Instances toy_crypto toy_rdv toy_crypto_laws.

Definition ex_key : TransportKey := TransportKey_from_seed (pad_array 32 (lit "seed")).
Definition ex_hints : list Hint :=
  [Hint_relay (lit "wss://relay.example");
   Hint_udp (mkSocketAddr (V4 (pad_array 4 [Byte.x0a; Byte.x00; Byte.x00; Byte.x01])) 4433);
   mkHint HINT_EPHEMERAL (Byte.x02 :: replicate 32 Byte.x07)].
Definition ex_ctx : VerifyContext :=
  VerifyContext_expecting (VerifyContext_after_serial (VerifyContext_new 1000) 4) (tk_node_id ex_key).

Lemma ex_hints_ok : card_hints_ok ex_hints.
Proof.
  split; [vm_compute; lia| |vm_compute; lia|vm_compute; lia].
  repeat constructor; try (by intros [=]); vm_compute; lia.
Qed.

Lemma Card_sign_verify_witness :
  Card_verify (Card_as_bytes (Card_sign ex_key 900 2000 5 ex_hints)) ex_ctx =
  Ret (Ok (Card_sign ex_key 900 2000 5 ex_hints)).
Proof.
  apply (Card_sign_verify ex_key 900 2000 5 ex_hints ex_ctx).
  - reflexivity.
  - split; vm_compute; congruence.
  - split; vm_compute; congruence.
  - split; vm_compute; congruence.
  - exact ex_hints_ok.
  - vm_compute; congruence.
  - reflexivity.
  - split; vm_compute; congruence.
  - reflexivity.
  - intros n [= <-]. reflexivity.
Defined.

Lemma Card_verify_canonical_witness :
  ∃ sig : array 64, card_raw (Card_sign ex_key 900 2000 5 ex_hints) =
    encode_body (tk_node_id ex_key) 900 2000 5 ex_hints ++ bytes_of sig.
Proof.
  destruct (Card_verify_canonical (card_raw (Card_sign ex_key 900 2000 5 ex_hints)) ex_ctx
    (Card_sign ex_key 900 2000 5 ex_hints)) as (_ & sig & H & _); [|by exists sig].
  apply sign_verify_card; first [ reflexivity | exact ex_hints_ok | split; vm_compute; congruence
    | vm_compute; congruence | intros n [= <-]; reflexivity ].
Defined.
