(* ===== verification/Wire.v ===== *)
(** * Wire: relay frames, relay auth, reflector and probes ([link-core/src/wire.rs])

    HMAC-SHA256 is code outside the repository: it is the operation of the class
    [Mac].  Decoders are translated with their slices, so a panic would show. *)

From S2P Require Import Prelude Net Id Rendezvous Card.

Open Scope Z_scope.

Definition RELAY_AUTH_DOMAIN : list byte := lit "forgesworn-link/relay-auth/v1" ++ [Byte.x00].
Definition MAX_DATAGRAM : nat := 1350.
Definition MAX_QUEUED_FRAMES : nat := 64.
Definition IDLE_CLOSE_SECONDS : Z := 90.
Definition CLOSE_REASON_MALFORMED : Z := 1.
Definition CLOSE_REASON_SUPERSEDED : Z := 2.

(** ** Relay auth *)

Definition relay_auth_signing_input (relay_host : list byte) (challenge : array 32) : list byte :=
  RELAY_AUTH_DOMAIN ++ to_be 2 (Z.of_nat (length relay_host)) ++ relay_host ++ bytes_of challenge.

Section auth.
Context `{C : Crypto}.

Definition sign_relay_auth (key : TransportKey) (relay_host : list byte) (challenge : array 32) :
    array 64 :=
  TransportKey_sign key (relay_auth_signing_input relay_host challenge).

Definition verify_relay_auth (node_id : NodeId) (relay_host : list byte) (challenge : array 32)
    (signature : array 64) : bool :=
  NodeId_verify node_id (relay_auth_signing_input relay_host challenge) signature.

End auth.

(** ** Relay frames *)

Definition FRAME_CHALLENGE : byte := Byte.x01.
Definition FRAME_AUTH : byte := Byte.x02.
Definition FRAME_WELCOME : byte := Byte.x03.
Definition FRAME_SEND : byte := Byte.x10.
Definition FRAME_RECV : byte := Byte.x11.
Definition FRAME_PING : byte := Byte.x20.
Definition FRAME_PONG : byte := Byte.x21.
Definition FRAME_CLOSE : byte := Byte.x7f.
Definition FRAME_REGISTER : byte := Byte.x04.
Definition FRAME_SEND_TAG : byte := Byte.x12.
Definition FRAME_RECV_TAG : byte := Byte.x13.
Definition MAX_TAGS_PER_REGISTER : nat := 256.

Inductive Frame : Type :=
  | Challenge (bytes : array 32)
  | Auth (node_id : NodeId) (signature : array 64)
  | Welcome (token : array 16)
  | Send (destination : NodeId) (datagram : list byte)
  | Recv (source : NodeId) (datagram : list byte)
  | Register (tags : list Tag)
  | SendTag (tag : Tag) (datagram : list byte)
  | RecvTag (tag : Tag) (datagram : list byte)
  | Ping (opaque : array 8)
  | Pong (opaque : array 8)
  | Close (reason : Z).

#[global] Instance Frame_eq_dec : EqDecision Frame.
Proof. solve_decision. Defined.

Definition one (tag : byte) (body : list byte) : list byte := [tag] ++ body.

Definition routed (tag : byte) (node_id : NodeId) (datagram : list byte) : list byte :=
  [tag] ++ as_bytes node_id ++ datagram.

Definition routed_tag (frame : byte) (tag : Tag) (datagram : list byte) : list byte :=
  [frame] ++ bytes_of (tag_bytes tag) ++ datagram.

Definition Frame_encode (f : Frame) : list byte :=
  match f with
  | Challenge bytes => one FRAME_CHALLENGE (bytes_of bytes)
  | Auth node_id signature => [FRAME_AUTH] ++ as_bytes node_id ++ bytes_of signature
  | Welcome token => one FRAME_WELCOME (bytes_of token)
  | Send destination datagram => routed FRAME_SEND destination datagram
  | Recv source datagram => routed FRAME_RECV source datagram
  | Register tags =>
    [FRAME_REGISTER] ++ to_be 2 (Z.of_nat (length tags)) ++ concat ((bytes_of ∘ tag_bytes) <$> tags)
  | SendTag tag datagram => routed_tag FRAME_SEND_TAG tag datagram
  | RecvTag tag datagram => routed_tag FRAME_RECV_TAG tag datagram
  | Ping opaque => one FRAME_PING (bytes_of opaque)
  | Pong opaque => one FRAME_PONG (bytes_of opaque)
  | Close reason => one FRAME_CLOSE (to_be 2 reason)
  end.

Definition split_routed (body : list byte) : exec (option (NodeId * list byte)) :=
  if (length body <? 33)%nat then Ret None
  else
    datagram ← slice 32 (length body) body;
    if bool_decide (datagram = []) || (MAX_DATAGRAM <? length datagram)%nat then Ret None
    else
      n ← slice 0 32 body;
      node_id ←? NodeId_from_slice n;
      Ret (Some (node_id, datagram)).

Definition split_routed_tag (body : list byte) : exec (option (Tag * list byte)) :=
  if (length body <=? TAG_BYTES)%nat then Ret None
  else
    datagram ← slice TAG_BYTES (length body) body;
    if (MAX_DATAGRAM <? length datagram)%nat then Ret None
    else
      t ← slice 0 TAG_BYTES body;
      tag ← expect (try_array 16 t);
      Ret (Some (mkTag tag, datagram)).

(** [rest.as_chunks::<16>()]: the whole chunks, the remainder left out. *)
Fixpoint chunks (count : nat) (rest : list byte) : list Tag :=
  match count with
  | O => []
  | S k => mkTag (pad_array 16 (take 16 rest)) :: chunks k (drop 16 rest)
  end.

Definition as_chunks (rest : list byte) : list Tag := chunks (length rest / TAG_BYTES) rest.

(** The [FRAME_AUTH] and [FRAME_REGISTER] arms of [decode]. *)
Definition decode_auth (body : list byte) : exec (option Frame) :=
  if negb (length body =? 96)%nat then Ret None
  else
    n ← slice 0 32 body;
    node_id ←? NodeId_from_slice n;
    s ← slice 32 (length body) body;
    signature ←? try_array 64 s;
    Ret (Some (Auth node_id signature)).

Definition decode_register (body : list byte) : exec (option Frame) :=
  if (length body <? 2)%nat then Ret None
  else
    c0 ← index body 0;
    c1 ← index body 1;
    let count := Z.to_nat (from_be [c0; c1]) in
    rest ← slice 2 (length body) body;
    if (MAX_TAGS_PER_REGISTER <? count)%nat || negb (length rest =? count * TAG_BYTES)%nat
    then Ret None
    else Ret (Some (Register (as_chunks rest))).

Definition Frame_decode (bytes : list byte) : exec (option Frame) :=
  match bytes with
  | [] => Ret None
  | tag :: body =>
    if bool_decide (tag = FRAME_CHALLENGE) then (a ←? try_array 32 body; Ret (Some (Challenge a)))
    else if bool_decide (tag = FRAME_AUTH) then decode_auth body
    else if bool_decide (tag = FRAME_WELCOME) then (a ←? try_array 16 body; Ret (Some (Welcome a)))
    else if bool_decide (tag = FRAME_SEND) then
      (r ← split_routed body; p ←? r; Ret (Some (Send p.1 p.2)))
    else if bool_decide (tag = FRAME_RECV) then
      (r ← split_routed body; p ←? r; Ret (Some (Recv p.1 p.2)))
    else if bool_decide (tag = FRAME_REGISTER) then decode_register body
    else if bool_decide (tag = FRAME_SEND_TAG) then
      (r ← split_routed_tag body; p ←? r; Ret (Some (SendTag p.1 p.2)))
    else if bool_decide (tag = FRAME_RECV_TAG) then
      (r ← split_routed_tag body; p ←? r; Ret (Some (RecvTag p.1 p.2)))
    else if bool_decide (tag = FRAME_PING) then (a ←? try_array 8 body; Ret (Some (Ping a)))
    else if bool_decide (tag = FRAME_PONG) then (a ←? try_array 8 body; Ret (Some (Pong a)))
    else if bool_decide (tag = FRAME_CLOSE) then
      (a ←? try_array 2 body; Ret (Some (Close (from_be (bytes_of a)))))
    else Ret None
  end.

(** The frames the protocol may carry. *)
Definition datagram_ok (d : list byte) : Prop := (1 ≤ length d ≤ MAX_DATAGRAM)%nat.

Definition Frame_wf (f : Frame) : Prop :=
  match f with
  | Send _ d | Recv _ d | SendTag _ d | RecvTag _ d => datagram_ok d
  | Register tags => (length tags ≤ MAX_TAGS_PER_REGISTER)%nat
  | Close reason => u16 reason
  | _ => True
  end.

(** ** Reflector *)

Definition REFLECT_MAGIC : list byte := lit "FSLR".
Definition REFLECT_REQUEST : byte := Byte.x01.
Definition REFLECT_REPLY : byte := Byte.x02.
Definition REFLECT_REQUEST_BYTES : nat := 21.
Definition REFLECT_REPLY_BYTES : nat := 39.

Definition reflect_request (nonce : array 16) : list byte :=
  REFLECT_MAGIC ++ [REFLECT_REQUEST] ++ bytes_of nonce.

(** [bytes.len() != len || bytes[..4] != magic || bytes[4] != kind]: the shape
    test of three parsers; [||] is short-circuit. *)
Definition bad_shape (len : nat) (magic : list byte) (kind : byte) (bytes : list byte) : exec bool :=
  if negb (length bytes =? len)%nat then Ret true
  else
    m ← slice 0 4 bytes;
    if negb (bool_decide (m = magic)) then Ret true
    else
      k ← index bytes 4;
      Ret (negb (bool_decide (k = kind))).

Definition parse_reflect_request (bytes : list byte) : exec (option (array 16)) :=
  bad ← bad_shape REFLECT_REQUEST_BYTES REFLECT_MAGIC REFLECT_REQUEST bytes;
  if (bad : bool) then Ret None
  else
    n ← slice 5 (length bytes) bytes;
    Ret (try_array 16 n).

Definition reflect_reply (nonce : array 16) (observed : SocketAddr) : list byte :=
  REFLECT_MAGIC ++ [REFLECT_REPLY] ++ bytes_of nonce ++ bytes_of (to_ipv6 (sa_ip observed)) ++
  to_be 2 (sa_port observed).

Definition parse_reflect_reply (bytes : list byte) : exec (option (array 16 * SocketAddr)) :=
  bad ← bad_shape REFLECT_REPLY_BYTES REFLECT_MAGIC REFLECT_REPLY bytes;
  if (bad : bool) then Ret None
  else
    n ← slice 5 21 bytes;
    nonce ←? try_array 16 n;
    o ← slice 21 37 bytes;
    octets ←? try_array 16 o;
    p0 ← index bytes 37;
    p1 ← index bytes 38;
    Ret (Some (nonce, mkSocketAddr (V6 octets) (from_be [p0; p1]))).

(** ** Probes *)

Definition PROBE_MAGIC : list byte := lit "FSLP".
Definition PROBE_VERSION : byte := Byte.x02.
Definition PROBE_PING : byte := Byte.x01.
Definition PROBE_PONG : byte := Byte.x02.
Definition PROBE_DOMAIN_V2 : list byte := lit "forgesworn-link/probe/v2" ++ [Byte.x00].
Definition PROBE_KEY_BYTES : nat := 32.
Definition PROBE_ID_BYTES : nat := 8.
Definition PROBE_BODY_BYTES : nat := 30.
Definition PROBE_MAC_BYTES : nat := 32.
Definition PROBE_WIRE_BYTES : nat := 62.

Class Mac : Type := {
  (** HMAC-SHA256 under a 32 byte key *)
  hmac_sha256 : array 32 → list byte → array 32;
}.

Record Probe : Type := mkProbe { p_kind : byte; p_key_id : array 8; p_nonce : array 16 }.

#[global] Instance Probe_eq_dec : EqDecision Probe.
Proof. solve_decision. Defined.

Definition Probe_body (p : Probe) : list byte :=
  PROBE_MAGIC ++ [PROBE_VERSION] ++ [p_kind p] ++ bytes_of (p_key_id p) ++ bytes_of (p_nonce p).

Section probe.
Context `{M : Mac}.

Definition Probe_mac (key : array 32) (body : list byte) : array 32 :=
  hmac_sha256 key (PROBE_DOMAIN_V2 ++ body).

Definition Probe_seal (p : Probe) (key : array 32) : list byte :=
  Probe_body p ++ bytes_of (Probe_mac key (Probe_body p)).

Definition Probe_peek_key_id (bytes : list byte) : exec (option (array 8)) :=
  bad ← bad_shape PROBE_WIRE_BYTES PROBE_MAGIC PROBE_VERSION bytes;
  if (bad : bool) then Ret None
  else
    k ← slice 6 (6 + PROBE_ID_BYTES) bytes;
    Ret (try_array 8 k).

Definition Probe_open (bytes : list byte) (key : array 32) : exec (option Probe) :=
  pk ← Probe_peek_key_id bytes;
  key_id ←? pk;
  kind ← index bytes 5;
  if negb (bool_decide (kind = PROBE_PING)) && negb (bool_decide (kind = PROBE_PONG))
  then Ret None
  else
    body ← slice 0 PROBE_BODY_BYTES bytes;
    tag ← slice PROBE_BODY_BYTES (length bytes) bytes;
    if negb (bool_decide (tag = bytes_of (Probe_mac key body))) then Ret None
    else
      n ← slice (6 + PROBE_ID_BYTES) PROBE_BODY_BYTES bytes;
      nonce ←? try_array 16 n;
      Ret (Some (mkProbe kind key_id nonce)).

End probe.

(** ** Frames: decoding inverts encoding *)

Lemma split_routed_iff body n d :
  split_routed body = Ret (Some (n, d)) ↔ body = as_bytes n ++ d ∧ datagram_ok d.
Proof.
  unfold split_routed, datagram_ok. split.
  - intros E. split_if_in E. to_props. unread E. split_if_in E. unread E. split_if_in E.
    injection E as <- <-. to_props. apply NodeId_from_slice_Some in G1. subst.
    split; [symmetry; apply slice_whole; by eapply slice_glue|].
    apply slice_length in Hx as [E ?]. lia.
  - intros [-> Hd]. rewrite length_app, as_bytes_length.
    rewrite (proj2 (Nat.ltb_ge _ _)) by lia. reads.
    rewrite bool_decide_false by (intros ->; simpl in Hd; lia).
    rewrite (proj2 (Nat.ltb_ge _ _)) by lia. simpl orb. cbv iota. reads.
    by rewrite NodeId_from_slice_bytes.
Qed.

Lemma split_routed_total body : ∃ o, split_routed body = Ret o.
Proof.
  unfold split_routed. split_if; [eauto|]. to_props. rewrite (slice_ok 32) by lia. reads.
  split_if; [eauto|]. rewrite slice_ok by lia. reads. case_match; eauto.
Qed.

Lemma split_routed_tag_iff body t d :
  split_routed_tag body = Ret (Some (t, d)) ↔ body = bytes_of (tag_bytes t) ++ d ∧ datagram_ok d.
Proof.
  unfold split_routed_tag, datagram_ok, TAG_BYTES. split.
  - intros E. split_if_in E. to_props. unread E. split_if_in E. to_props. unread E.
    injection E as <- <-. unfold expect in Hx1. case_match; [|done]. injection Hx1 as ->.
    apply try_array_Some in H as ->. cbn [tag_bytes].
    split; [symmetry; apply slice_whole; by eapply slice_glue|].
    apply slice_length in Hx as [E ?]. lia.
  - intros [-> Hd]. rewrite length_app, bytes_of_length.
    rewrite (proj2 (Nat.leb_gt _ _)) by lia. reads.
    rewrite (proj2 (Nat.ltb_ge _ _)) by lia. reads. rewrite try_array_bytes. simpl expect. reads.
    by destruct t.
Qed.

Lemma split_routed_tag_total body : ∃ o, split_routed_tag body = Ret o.
Proof.
  unfold split_routed_tag, TAG_BYTES. split_if; [eauto|]. to_props.
  rewrite (slice_ok 16) by lia. reads. split_if; [eauto|]. rewrite (slice_ok 0) by lia. reads.
  destruct (try_array_is_Some (n := 16) (take (16 - 0) (drop 0 body))) as (a & -> & _);
    [rewrite length_take, length_drop; lia|]. simpl expect. reads. eauto.
Qed.

Lemma decode_auth_iff body n sg :
  decode_auth body = Ret (Some (Auth n sg)) ↔ body = as_bytes n ++ bytes_of sg.
Proof.
  unfold decode_auth. split.
  - intros E. split_if_in E. to_props. unread E. split_if_in E. unread E. split_if_in E.
    injection E as <- <-. apply NodeId_from_slice_Some in G0 as ->.
    apply try_array_Some in G1 as ->. symmetry. apply slice_whole. by eapply slice_glue.
  - intros ->. rewrite length_app, as_bytes_length, bytes_of_length. simpl negb. cbv iota. reads.
    rewrite NodeId_from_slice_bytes. reads. by rewrite try_array_bytes.
Qed.

Lemma decode_auth_result body :
  ∃ o, decode_auth body = Ret o ∧ ∀ f, o = Some f → ∃ n sg, f = Auth n sg.
Proof.
  unfold decode_auth. split_if; [by eexists|]. to_props. rewrite (slice_ok 0) by lia. reads.
  case_match; [|by eexists]. rewrite slice_ok by lia. reads.
  case_match; eexists; (split; [done|]); naive_solver.
Qed.

Definition tags_bytes (tags : list Tag) : list byte := concat ((bytes_of ∘ tag_bytes) <$> tags).

Lemma tags_bytes_length tags : length (tags_bytes tags) = (length tags * 16)%nat.
Proof.
  induction tags as [|t tags IH]; [done|]. unfold tags_bytes in *.
  cbn [fmap list_fmap concat]. rewrite length_app, IH. cbn [compose].
  rewrite bytes_of_length. simpl. lia.
Qed.

#[local] Hint Rewrite tags_bytes_length : lens.

Lemma chunks_tags_bytes tags : chunks (length tags) (tags_bytes tags) = tags.
Proof.
  induction tags as [|[t] tags IH]; [done|]. unfold tags_bytes in *.
  cbn [fmap list_fmap concat length chunks]. cbn [compose tag_bytes].
  rewrite take_app_length', drop_app_length' by by rewrite bytes_of_length.
  by rewrite pad_array_bytes, IH.
Qed.

Lemma tags_bytes_chunks k rest :
  length rest = (k * 16)%nat → tags_bytes (chunks k rest) = rest ∧ length (chunks k rest) = k.
Proof.
  revert rest. induction k as [|k IH]; intros rest H.
  - by apply length_zero_iff_nil in H as ->.
  - unfold tags_bytes in *. cbn [chunks fmap list_fmap concat length]. cbn [compose tag_bytes].
    rewrite bytes_of_pad by (rewrite length_take; lia).
    destruct (IH (drop 16 rest)) as [-> ->]; [rewrite length_drop; lia|].
    by rewrite take_drop.
Qed.

Lemma decode_register_iff body tags :
  decode_register body = Ret (Some (Register tags)) ↔
  body = to_be 2 (Z.of_nat (length tags)) ++ tags_bytes tags ∧
  (length tags ≤ MAX_TAGS_PER_REGISTER)%nat.
Proof.
  unfold decode_register, as_chunks, TAG_BYTES, MAX_TAGS_PER_REGISTER. split.
  - intros E. split_if_in E. to_props. unread E. split_if_in E. to_props.
    assert (tags = chunks (length x1 / 16) x1) as -> by congruence. clear E. pose proof (from_be_2 x x0).
    replace (length x1 / 16)%nat with (Z.to_nat (from_be [x; x0]))
      by (rewrite H0, Nat.div_mul; lia).
    destruct (tags_bytes_chunks (Z.to_nat (from_be [x; x0])) x1) as [-> ->]; [lia|].
    split; [|lia]. rewrite Z2Nat.id, to_from_be_n by (done || lia).
    apply index_slice in Hx, Hx0. symmetry. apply slice_whole.
    exact (slice_glue _ _ _ _ _ _ (slice_glue _ _ _ _ _ _ Hx Hx0) Hx1).
  - intros [-> Hn]. set (z := Z.of_nat (length tags)).
    assert (E : to_be 2 z = [byte_of_Z (z / 256); byte_of_Z z]) by done.
    rewrite length_app, to_be_length, tags_bytes_length.
    rewrite (proj2 (Nat.ltb_ge _ _)) by lia. rewrite E. cbn [app index]. unfold index at 1 2.
    cbn [lookup list_lookup expect]. reads. rewrite <- E, from_to_be_16 by (unfold u16; lia).
    change (byte_of_Z (z / 256) :: byte_of_Z z :: tags_bytes tags)
      with ([byte_of_Z (z / 256); byte_of_Z z] ++ tags_bytes tags). reads.
    rewrite tags_bytes_length. subst z. rewrite Nat2Z.id.
    rewrite (proj2 (Nat.ltb_ge _ _)), Nat.eqb_refl by lia. simpl orb. cbv iota.
    rewrite Nat.div_mul by lia. by rewrite chunks_tags_bytes.
Qed.

Lemma decode_register_result body :
  ∃ o, decode_register body = Ret o ∧ ∀ f, o = Some f → ∃ tags, f = Register tags.
Proof.
  unfold decode_register. split_if; [by eexists|]. to_props.
  destruct (index_ok body 0) as (a & -> & _); [lia|].
  destruct (index_ok body 1) as (b & -> & _); [lia|].
  reads. rewrite slice_ok by lia. reads. cbv zeta. split_if; [by eexists|].
  eexists; split; [done|]. naive_solver.
Qed.

(** Run the tag dispatch of [Frame_decode] on a known tag. *)
Ltac dispatch :=
  unfold Frame_decode, Frame_encode, one, routed, routed_tag; cbn [app];
  repeat first
    [ rewrite bool_decide_true by done | rewrite bool_decide_false by done ].

Lemma decode_encode f : Frame_wf f → Frame_decode (Frame_encode f) = Ret (Some f).
Proof.
  intros Hf. destruct f; cbn [Frame_wf] in Hf; dispatch; rewrite ?try_array_bytes; try done.
  - by apply decode_auth_iff.
  - by rewrite (proj2 (split_routed_iff _ _ _) (conj eq_refl Hf)).
  - by rewrite (proj2 (split_routed_iff _ _ _) (conj eq_refl Hf)).
  - by apply decode_register_iff.
  - by rewrite (proj2 (split_routed_tag_iff _ _ _) (conj eq_refl Hf)).
  - by rewrite (proj2 (split_routed_tag_iff _ _ _) (conj eq_refl Hf)).
  - destruct (try_array_is_Some (n := 2) (to_be 2 reason)) as (a & -> & Ha); [apply to_be_length|].
    by rewrite Ha, from_to_be_16.
Qed.

Lemma encode_decode bytes f :
  Frame_decode bytes = Ret (Some f) → Frame_wf f ∧ bytes = Frame_encode f.
Proof.
  destruct bytes as [|tag body]; [done|]. unfold Frame_decode.
  repeat (case_bool_decide as Ht; [ subst tag; intros E;
    first
    [ destruct (try_array _ body) as [a|] eqn:Ha in E; [|done];
      apply try_array_Some in Ha as ->; injection E as <-; cbn [Frame_wf Frame_encode];
      unfold one; rewrite ?to_from_be_n by apply bytes_of_length;
      split; [first [done | apply from_be_u16, bytes_of_length] | done]
    | destruct (decode_auth_result body) as (o & Ho & Hf); rewrite Ho in E; injection E as ->;
      destruct (Hf _ eq_refl) as (n & sg & ->); by apply decode_auth_iff in Ho as ->
    | destruct (decode_register_result body) as (o & Ho & Hf); rewrite Ho in E; injection E as ->;
      destruct (Hf _ eq_refl) as (tags & ->); by apply decode_register_iff in Ho as [-> ?]
    | apply exec_bind_Ret in E as ([[n d]|] & Ho & E); [|done]; injection E as <-;
      apply split_routed_iff in Ho as [-> ?]; done
    | apply exec_bind_Ret in E as ([[t d]|] & Ho & E); [|done]; injection E as <-;
      apply split_routed_tag_iff in Ho as [-> ?]; done ] | clear Ht ]).
  done.
Qed.

Lemma Frame_decode_total bytes : ∃ o, Frame_decode bytes = Ret o.
Proof.
  destruct bytes as [|tag body]; [by eexists|]. unfold Frame_decode.
  repeat (case_bool_decide; [
    first
    [ by destruct (try_array _ body); eexists
    | destruct (decode_auth_result body) as (o & -> & _); by eexists
    | destruct (decode_register_result body) as (o & -> & _); by eexists
    | destruct (split_routed_total body) as (o & ->); destruct o; by eexists
    | destruct (split_routed_tag_total body) as (o & ->); destruct o; by eexists ] |]).
  by eexists.
Qed.

(** C19: the relay frame decoder is total (it never panics, whatever the bytes)
    and inverts the encoder exactly: it returns a frame if and only if that
    frame respects the protocol bounds (datagrams of 1 to 1350 bytes, at most
    256 tags, a 16 bit close reason) and the bytes are its encoding. *)
Theorem Frame_codec bytes :
  (∃ o, Frame_decode bytes = Ret o) ∧
  ∀ f, Frame_decode bytes = Ret (Some f) ↔ Frame_wf f ∧ bytes = Frame_encode f.
Proof.
  split; [apply Frame_decode_total|]. intros f.
  split; [apply encode_decode|]. intros [Hf ->]. by apply decode_encode.
Qed.

(** ** Relay auth *)

Lemma relay_auth_input_inj h h' c c' :
  Z.of_nat (length h) < 2 ^ 16 → Z.of_nat (length h') < 2 ^ 16 →
  relay_auth_signing_input h c = relay_auth_signing_input h' c' → h = h' ∧ c = c'.
Proof.
  intros Hh Hh' E. unfold relay_auth_signing_input in E.
  apply app_inj_1 in E as [_ E]; [|done].
  apply app_inj_1 in E as [El E]; [|by rewrite !to_be_length].
  apply (f_equal from_be) in El. rewrite !from_to_be_16 in El by (unfold u16; lia).
  apply app_inj_1 in E as [-> E]; [|lia]. by apply (inj bytes_of) in E.
Qed.

(** The input a node signs to a relay determines the relay host and the
    challenge, and is never a card's signing input, so a relay cannot replay an
    answer against another relay or pass off a card signature as one. *)
Theorem relay_auth_separation h h' c c'
  (Hh : Z.of_nat (length h) < 2 ^ 16) (Hh' : Z.of_nat (length h') < 2 ^ 16) :
  (relay_auth_signing_input h c = relay_auth_signing_input h' c' ↔ h = h' ∧ c = c') ∧
  ∀ body, relay_auth_signing_input h c ≠ CARD_DOMAIN ++ body.
Proof.
  split; [split|].
  - by apply relay_auth_input_inj.
  - by intros [-> ->].
  - intros body E. apply (f_equal (take 17)) in E. vm_compute in E. discriminate.
Qed.

Lemma relay_auth_separation_witness :
  (relay_auth_signing_input (lit "relay.example") (pad_array 32 [Byte.x01])
     = relay_auth_signing_input (lit "relay.example:8443") (pad_array 32 [Byte.x01]) ↔
   lit "relay.example" = lit "relay.example:8443" ∧ pad_array 32 [Byte.x01] = pad_array 32 [Byte.x01]) ∧
  ∀ body, relay_auth_signing_input (lit "relay.example") (pad_array 32 [Byte.x01]) ≠ CARD_DOMAIN ++ body.
Proof. apply relay_auth_separation; vm_compute; reflexivity. Defined.

Lemma relay_auth_roundtrip `{C : Crypto} {L : CryptoLaws C} key h c :
  TransportKey_wf key →
  verify_relay_auth (tk_node_id key) h c (sign_relay_auth key h c) = true.
Proof. apply sign_verify. Qed.

(** ** Reflector and probes *)

Lemma bad_shape_total len magic kind bytes :
  (5 <=? len)%nat = true → ∃ b, bad_shape len magic kind bytes = Ret b.
Proof.
  intros Hl%Nat.leb_le. unfold bad_shape. split_if; [by eexists|]. to_props.
  rewrite slice_ok by lia. reads. split_if; [by eexists|].
  destruct (index_ok bytes 4) as (k & -> & _); [lia|]. reads. by eexists.
Qed.

Lemma bad_shape_false len magic kind bytes :
  length magic = 4%nat → (5 <=? len)%nat = true →
  bad_shape len magic kind bytes = Ret false ↔
  length bytes = len ∧ slice 0 5 bytes = Ret (magic ++ [kind]).
Proof.
  intros Hm Hl%Nat.leb_le. unfold bad_shape. split.
  - intros E. split_if_in E. unread E. split_if_in E. unread E. injection E as E. to_props. subst.
    split; [done|]. apply index_slice in Hx0. by eapply slice_glue.
  - intros [<- E]. rewrite Nat.eqb_refl. cbn [negb].
    destruct (slice_split_at bytes 0 4 5 _ E) as (v & r & -> & Hr & Hv & Lv); [lia|]. reads.
    apply app_inj_1 in Hv as [<- <-]; [|lia]. rewrite bool_decide_true by done. cbn [negb].
    destruct (index_ok bytes 4) as (k & Hk & _); [lia|]. rewrite Hk. reads.
    apply index_slice in Hk. rewrite Hr in Hk. injection Hk as ->.
    by rewrite bool_decide_true.
Qed.

Lemma parse_reflect_request_iff bytes n :
  parse_reflect_request bytes = Ret (Some n) ↔ bytes = reflect_request n.
Proof.
  unfold parse_reflect_request, reflect_request. split.
  - intros E. unread E. destruct x; [done|]. apply bad_shape_false in Hx as [Hl H5]; [|done..].
    unread E. injection E as E. apply try_array_Some in E as ->. symmetry. apply slice_whole.
    rewrite app_assoc. by eapply slice_glue.
  - intros ->. set (b := _ ++ _).
    assert (Hl : length b = 21%nat) by (subst b; rewrite !length_app, bytes_of_length; done).
    rewrite (proj2 (bad_shape_false REFLECT_REQUEST_BYTES REFLECT_MAGIC _ _ eq_refl eq_refl)).
    + reads. rewrite Hl. subst b. reads. by rewrite try_array_bytes.
    + split; [done|]. subst b. rewrite app_assoc, slice_app_l by (simpl; lia). by apply slice_all.
Qed.

Lemma parse_reflect_reply_roundtrip n addr :
  u16 (sa_port addr) →
  parse_reflect_reply (reflect_reply n addr) =
  Ret (Some (n, mkSocketAddr (V6 (to_ipv6 (sa_ip addr))) (sa_port addr))).
Proof.
  intros Hp. unfold parse_reflect_reply, reflect_reply. set (b := _ ++ _).
  assert (Hl : length b = 39%nat)
    by (subst b; rewrite !length_app, !bytes_of_length, to_be_length; done).
  rewrite (proj2 (bad_shape_false REFLECT_REPLY_BYTES REFLECT_MAGIC _ _ eq_refl eq_refl)).
  - subst b. reads. rewrite try_array_bytes. reads. rewrite try_array_bytes. reads.
    set (p := sa_port addr) in *. rewrite !bytes_of_length.
    assert (E : to_be 2 p = [byte_of_Z (p / 256); byte_of_Z p]) by done.
    rewrite E. cbn -[from_be byte_of_Z Z.div]. by rewrite <- E, from_to_be_16.
  - split; [done|]. subst b. rewrite app_assoc, slice_app_l by (simpl; lia). by apply slice_all.
Qed.

Section probe_lemmas.
Context `{M : Mac}.

Lemma Probe_body_length p : length (Probe_body p) = 30%nat.
Proof. unfold Probe_body. by rewrite !length_app, !bytes_of_length. Qed.

#[local] Hint Rewrite Probe_body_length : lens.

Lemma Probe_seal_length p key : length (Probe_seal p key) = PROBE_WIRE_BYTES.
Proof. unfold Probe_seal. by rewrite length_app, bytes_of_length, Probe_body_length. Qed.

Lemma Probe_seal_shape p key :
  bad_shape PROBE_WIRE_BYTES PROBE_MAGIC PROBE_VERSION (Probe_seal p key) = Ret false.
Proof.
  apply bad_shape_false; [done..|]. split; [apply Probe_seal_length|].
  unfold Probe_seal, Probe_body. rewrite <- !app_assoc, app_assoc, slice_app_l by (simpl; lia).
  by apply slice_all.
Qed.

(** The receiver finds the session of a sealed probe before it verifies it. *)
Lemma peek_sealed p key : Probe_peek_key_id (Probe_seal p key) = Ret (Some (p_key_id p)).
Proof.
  unfold Probe_peek_key_id. rewrite Probe_seal_shape. reads.
  unfold Probe_seal, Probe_body, PROBE_ID_BYTES. rewrite <- !app_assoc.
  change PROBE_MAGIC with (lit "FSLP"). reads. by rewrite try_array_bytes.
Qed.

Lemma peek_total bytes : ∃ o, Probe_peek_key_id bytes = Ret o.
Proof.
  unfold Probe_peek_key_id. destruct (bad_shape PROBE_WIRE_BYTES PROBE_MAGIC PROBE_VERSION bytes)
    as [[]|] eqn:E; [by eexists| |].
  - apply bad_shape_false in E as [Hl _]; [|done..]. unfold PROBE_WIRE_BYTES, PROBE_ID_BYTES in *.
    reads. rewrite slice_ok by lia. reads. by eexists.
  - destruct (bad_shape_total PROBE_WIRE_BYTES PROBE_MAGIC PROBE_VERSION bytes eq_refl). congruence.
Qed.

Definition probe_kind_ok (k : byte) : Prop := k = PROBE_PING ∨ k = PROBE_PONG.

Lemma open_sealed p key : probe_kind_ok (p_kind p) → Probe_open (Probe_seal p key) key = Ret (Some p).
Proof.
  intros Hk. unfold Probe_open. rewrite peek_sealed. reads.
  assert (Hb : Probe_body p = PROBE_MAGIC ++ [PROBE_VERSION] ++ [p_kind p] ++
    bytes_of (p_key_id p) ++ bytes_of (p_nonce p)) by done.
  pose proof (Probe_body_length p) as Lb.
  assert (Hi : index (Probe_seal p key) 5 = Ret (p_kind p)).
  { unfold Probe_seal. rewrite Hb. done. }
  rewrite Hi. reads.
  assert (negb (bool_decide (p_kind p = PROBE_PING)) && negb (bool_decide (p_kind p = PROBE_PONG))
    = false) as -> by (destruct Hk as [-> | ->]; done).
  unfold PROBE_BODY_BYTES, PROBE_ID_BYTES. rewrite Probe_seal_length.
  unfold Probe_seal, PROBE_WIRE_BYTES. reads. rewrite bool_decide_true by done. cbn [negb]. reads.
  rewrite Hb. change PROBE_MAGIC with (lit "FSLP"). reads. rewrite try_array_bytes. by destruct p.
Qed.

Lemma open_sound bytes key p :
  Probe_open bytes key = Ret (Some p) → probe_kind_ok (p_kind p) ∧ bytes = Probe_seal p key.
Proof.
  unfold Probe_open, Probe_peek_key_id. intros E. unread E. split_if_in E. unread E.
  split_if_in E. unread E. split_if_in E. to_props. unread E. split_if_in E. injection E as <-.
  unread Hx. destruct x4; [done|]. unread Hx. injection Hx as Hx.
  apply bad_shape_false in Hx4 as [Hl H5]; [|done..].
  apply try_array_Some in Hx as ->. apply try_array_Some in G2 as ->. subst x2.
  cbn [p_kind]. split.
  - unfold probe_kind_ok. apply andb_false_iff in G0 as [?|?]; to_props; tauto.
  - assert (Hx1' : x1 = Probe_body (mkProbe x0 a a0)).
    { unfold Probe_body. cbn [p_kind p_key_id p_nonce]. apply index_slice in Hx0.
      pose proof (slice_glue _ _ _ _ _ _ H5 (slice_glue _ _ _ _ _ _ Hx0
        (slice_glue _ _ _ _ _ _ Hx5 Hx3))) as Hg.
      rewrite Hg in Hx1. injection Hx1 as <-. done. }
    unfold Probe_seal. rewrite <- Hx1'. symmetry. apply slice_whole. by eapply slice_glue.
Qed.

Lemma open_total bytes key : ∃ o, Probe_open bytes key = Ret o.
Proof.
  unfold Probe_open. destruct (peek_total bytes) as [o Ho]. rewrite Ho. reads.
  destruct o as [k|]; [|by eexists].
  assert (Hl : length bytes = 62%nat).
  { unfold Probe_peek_key_id in Ho. unread Ho. destruct x; [done|].
    by apply bad_shape_false in Hx as [Hl _]. }
  destruct (index_ok bytes 5) as (b & -> & _); [lia|]. reads. split_if; [by eexists|].
  unfold PROBE_BODY_BYTES, PROBE_ID_BYTES. rewrite !slice_ok by lia. reads.
  split_if; [by eexists|]. reads. case_match; by eexists.
Qed.

(** Opening a probe never panics, and a probe opens under a session key
    exactly when it is a ping or a pong sealed under that key: nothing else has
    the shape, the kind and the MAC.  The key id the receiver looks the session
    up by is the one that was sealed. *)
Theorem Probe_open_iff_sealed bytes key :
  (∃ o, Probe_open bytes key = Ret o) ∧
  (∀ p, Probe_open bytes key = Ret (Some p) ↔ probe_kind_ok (p_kind p) ∧ bytes = Probe_seal p key) ∧
  (∀ p, bytes = Probe_seal p key → Probe_peek_key_id bytes = Ret (Some (p_key_id p))).
Proof.
  split_and!; [apply open_total| |].
  - intros p. split; [apply open_sound|]. intros [Hk ->]. by apply open_sealed.
  - intros p ->. apply peek_sealed.
Qed.

End probe_lemmas.

(** The reflector's request parser accepts exactly the encoded requests,
    and a reply read back gives the nonce and the observed address in v6 form,
    which [unmap_ipv6] turns back into a v4 address the reflector saw. *)
Theorem reflector_codec n addr (Hp : u16 (sa_port addr)) :
  (∀ bytes, parse_reflect_request bytes = Ret (Some n) ↔ bytes = reflect_request n) ∧
  ∃ seen, parse_reflect_reply (reflect_reply n addr) = Ret (Some (n, seen)) ∧
    unmap_ipv6 seen = unmap_ipv6 addr.
Proof.
  split; [intros; apply parse_reflect_request_iff|].
  eexists; split; [by apply parse_reflect_reply_roundtrip|].
  destruct addr as [[v4|v6] port]; [apply unmap_to_ipv6_v4|done].
Qed.

Lemma reflector_codec_witness :
  ∃ seen, parse_reflect_reply (reflect_reply (pad_array 16 [Byte.x07])
      (mkSocketAddr (V4 (pad_array 4 [Byte.x0a])) 4433)) = Ret (Some (pad_array 16 [Byte.x07], seen)) ∧
    unmap_ipv6 seen = unmap_ipv6 (mkSocketAddr (V4 (pad_array 4 [Byte.x0a])) 4433).
Proof. apply reflector_codec. split; vm_compute; congruence. Defined.
