(* ===== verification/Tls.v ===== *)
(** * Tls: who a handshake admits ([link-core/src/tls.rs])

    The three client verifiers and the server verifier, over the raw public keys
    of RFC 7250, and what the endpoint reads off a finished connection.  rustls
    itself is not modelled: it hands a verifier the presented key and the
    CertificateVerify signature, and finishes a handshake only when both calls
    succeed.  Checking that signature is its operation [raw_verify]. *)

From S2P Require Import Prelude Net Id.

Open Scope Z_scope.

(** The variants of [rustls::Error] these verifiers return. *)
Inductive TlsError : Type :=
  | BadEncoding
  | ApplicationVerificationFailure
  | Tls12NotOffered
  | BadSignature.

(** [SignatureScheme::ED25519]. *)
Definition ED25519 : Z := 0x0807.

(** [DigitallySignedStruct]. *)
Record Dss : Type := mkDss { dss_scheme : Z; dss_sig : list byte }.

(** [verify_tls13_signature_with_raw_key]: message, key, signature. *)
Class RawKeyTls : Type := { raw_verify : list byte → list byte → Dss → bool }.

Definition check_pinned (expected : NodeId) (presented : list byte) : exec (result TlsError NodeId) :=
  o ← node_id_from_spki presented;
  Ret (match o with
       | None => Err BadEncoding
       | Some presented =>
         if negb (bool_decide (presented = expected)) then Err ApplicationVerificationFailure else Ok presented
       end).

Definition check_ed25519_raw_key (presented : list byte) : exec (result TlsError NodeId) :=
  o ← node_id_from_spki presented;
  Ret (match o with None => Err BadEncoding | Some n => Ok n end).

Section verifiers.
Context `{T : RawKeyTls}.

Definition verify_signature (message presented : list byte) (dss : Dss) : result TlsError unit :=
  if raw_verify message presented dss then Ok tt else Err BadSignature.

(** The verifier traits of rustls.  [verify_server_cert] and [verify_client_cert]
    look at the end entity only; a signature check takes message, key and
    signature. *)
Record ServerCertVerifier : Type := mkServerCertVerifier {
  sv_verify_server_cert : list byte → exec (result TlsError unit);
  sv_verify_tls12_signature : list byte → list byte → Dss → exec (result TlsError unit);
  sv_verify_tls13_signature : list byte → list byte → Dss → exec (result TlsError unit);
  sv_supported_verify_schemes : list Z;
  sv_requires_raw_public_keys : bool;
}.

Record ClientCertVerifier : Type := mkClientCertVerifier {
  cl_root_hint_subjects : list (list byte);
  cl_offer_client_auth : bool;
  cl_client_auth_mandatory : bool;
  cl_verify_client_cert : list byte → exec (result TlsError unit);
  cl_verify_tls12_signature : list byte → list byte → Dss → exec (result TlsError unit);
  cl_verify_tls13_signature : list byte → list byte → Dss → exec (result TlsError unit);
  cl_supported_verify_schemes : list Z;
  cl_requires_raw_public_keys : bool;
}.

Definition PinnedServerVerifier (expected : NodeId) : ServerCertVerifier := {|
  sv_verify_server_cert end_entity :=
    r ← check_pinned expected end_entity;
    Ret (match r with Ok _ => Ok tt | Err e => Err e end);
  sv_verify_tls12_signature _ _ _ := Ret (Err Tls12NotOffered);
  sv_verify_tls13_signature message cert dss :=
    r ← check_pinned expected cert;
    Ret (match r with Ok _ => verify_signature message cert dss | Err e => Err e end);
  sv_supported_verify_schemes := [ED25519];
  sv_requires_raw_public_keys := true;
|}.

Definition RefusingClientVerifier : ClientCertVerifier := {|
  cl_root_hint_subjects := [];
  cl_offer_client_auth := true;
  cl_client_auth_mandatory := true;
  cl_verify_client_cert _ := Ret (Err ApplicationVerificationFailure);
  cl_verify_tls12_signature _ _ _ := Ret (Err Tls12NotOffered);
  cl_verify_tls13_signature _ _ _ := Ret (Err ApplicationVerificationFailure);
  cl_supported_verify_schemes := [ED25519];
  cl_requires_raw_public_keys := true;
|}.

Definition PinnedClientVerifier (expected : NodeId) : ClientCertVerifier := {|
  cl_root_hint_subjects := [];
  cl_offer_client_auth := true;
  cl_client_auth_mandatory := true;
  cl_verify_client_cert end_entity :=
    r ← check_pinned expected end_entity;
    Ret (match r with Ok _ => Ok tt | Err e => Err e end);
  cl_verify_tls12_signature _ _ _ := Ret (Err Tls12NotOffered);
  cl_verify_tls13_signature message cert dss :=
    r ← check_pinned expected cert;
    Ret (match r with Ok _ => verify_signature message cert dss | Err e => Err e end);
  cl_supported_verify_schemes := [ED25519];
  cl_requires_raw_public_keys := true;
|}.

Definition ProvisionalClientVerifier : ClientCertVerifier := {|
  cl_root_hint_subjects := [];
  cl_offer_client_auth := true;
  cl_client_auth_mandatory := true;
  cl_verify_client_cert end_entity :=
    r ← check_ed25519_raw_key end_entity;
    Ret (match r with Ok _ => Ok tt | Err e => Err e end);
  cl_verify_tls12_signature _ _ _ := Ret (Err Tls12NotOffered);
  cl_verify_tls13_signature message cert dss :=
    r ← check_ed25519_raw_key cert;
    Ret (match r with Ok _ => verify_signature message cert dss | Err e => Err e end);
  cl_supported_verify_schemes := [ED25519];
  cl_requires_raw_public_keys := true;
|}.

(** The verifier a configuration holds, and its methods through the trait object. *)
Inductive Verifier : Type :=
  | PinnedServer (expected : NodeId)
  | PinnedClient (expected : NodeId)
  | ProvisionalClient
  | RefusingClient.

Definition verifier (v : Verifier) : ServerCertVerifier + ClientCertVerifier :=
  match v with
  | PinnedServer expected => inl (PinnedServerVerifier expected)
  | PinnedClient expected => inr (PinnedClientVerifier expected)
  | ProvisionalClient => inr ProvisionalClientVerifier
  | RefusingClient => inr RefusingClientVerifier
  end.

Definition verify_cert (v : Verifier) : list byte → exec (result TlsError unit) :=
  match verifier v with inl s => sv_verify_server_cert s | inr c => cl_verify_client_cert c end.
Definition verify_tls13_signature (v : Verifier) : list byte → list byte → Dss → exec (result TlsError unit) :=
  match verifier v with inl s => sv_verify_tls13_signature s | inr c => cl_verify_tls13_signature c end.
Definition supported_verify_schemes (v : Verifier) : list Z :=
  match verifier v with inl s => sv_supported_verify_schemes s | inr c => cl_supported_verify_schemes c end.
(** A server always presents a key. *)
Definition key_mandatory (v : Verifier) : bool :=
  match verifier v with inl _ => true | inr c => cl_client_auth_mandatory c end.

(** What the peer of a connection presented and signed. *)
Record Presented : Type := mkPresented {
  ps_chain : list (list byte);
  ps_message : list byte;
  ps_dss : Dss;
}.

(** A TLS 1.3 handshake finishes when a key is presented, its signature uses an
    offered scheme, and the verifier accepts both. *)
Definition handshake_finishes (v : Verifier) (c : Presented) : exec bool :=
  match ps_chain c with
  | [] => Ret (negb (key_mandatory v))
  | end_entity :: _ =>
    r ← verify_cert v end_entity;
    match r with
    | Err _ => Ret false
    | Ok _ =>
      if negb (bool_decide (dss_scheme (ps_dss c) ∈ supported_verify_schemes v)) then Ret false
      else
        r ← verify_tls13_signature v (ps_message c) end_entity (ps_dss c);
        Ret (match r with Ok _ => true | Err _ => false end)
    end
  end.

End verifiers.

(** [presented_node_id] of [endpoint.rs]: the first entry of the peer's list. *)
Definition presented_node_id (c : Presented) : exec (option NodeId) :=
  match ps_chain c with
  | [] => Ret None
  | der :: _ => node_id_from_spki der
  end.

(** The connection's peer presented the key of [n] and signed the handshake with
    it under Ed25519. *)
Definition authenticated `{T : RawKeyTls} (n : NodeId) (c : Presented) : Prop :=
  head (ps_chain c) = Some (NodeId_spki_der n) ∧ dss_scheme (ps_dss c) = ED25519 ∧
  raw_verify (ps_message c) (NodeId_spki_der n) (ps_dss c) = true.

(** Who a verifier may let in. *)
Definition verifier_allows (v : Verifier) (n : NodeId) : Prop :=
  match v with
  | PinnedServer expected | PinnedClient expected => n = expected
  | ProvisionalClient => True
  | RefusingClient => False
  end.

Section facts.
Context `{T : RawKeyTls}.

Lemma check_pinned_spec expected der :
  ∃ r, check_pinned expected der = Ret r ∧ ∀ n, r = Ok n ↔ n = expected ∧ der = NodeId_spki_der expected.
Proof.
  unfold check_pinned. destruct (node_id_from_spki_total der) as [o Ho]. rewrite Ho, exec_bind_Ret_l.
  eexists. split; [done|]. intros n. destruct o as [m|].
  - apply node_id_from_spki_sound in Ho as ->. destruct (bool_decide_reflect (m = expected)) as [->|Hne]; cbn [negb].
    + split; [by intros [= <-] | by intros [-> _]].
    + split; [done|]. intros [_ E]. apply app_inv_head, (inj as_bytes) in E. done.
  - split; [done|]. intros [_ ->]. rewrite spki_roundtrip in Ho. done.
Qed.

Lemma check_raw_key_spec der :
  ∃ r, check_ed25519_raw_key der = Ret r ∧ ∀ n, r = Ok n ↔ der = NodeId_spki_der n.
Proof.
  unfold check_ed25519_raw_key. destruct (node_id_from_spki_total der) as [o Ho]. rewrite Ho, exec_bind_Ret_l.
  eexists. split; [done|]. intros n. destruct o as [m|].
  - apply node_id_from_spki_sound in Ho as ->. split; [by intros [= <-]|].
    intros E. apply app_inv_head, (inj as_bytes) in E. by subst.
  - split; [done|]. intros ->. rewrite spki_roundtrip in Ho. done.
Qed.

(** The key half of a verifier: it accepts a key exactly when the key names a
    node the verifier allows. *)
Lemma verify_cert_spec v der :
  ∃ r, verify_cert v der = Ret r ∧ (r = Ok tt ↔ ∃ n, der = NodeId_spki_der n ∧ verifier_allows v n).
Proof.
  unfold verify_cert. destruct v as [e|e| |]; cbn -[check_pinned check_ed25519_raw_key NodeId_spki_der exec_bind];
    try (destruct (check_pinned_spec e der) as (r & -> & Hr));
    try (destruct (check_raw_key_spec der) as (r & -> & Hr)); rewrite ?exec_bind_Ret_l;
    (eexists; split; [done|]); try destruct r as [m|]; try (split; [done|]); try naive_solver.
Qed.

Lemma verify_tls13_spec v message der dss :
  ∃ r, verify_tls13_signature v message der dss = Ret r ∧
    (r = Ok tt ↔ (∃ n, der = NodeId_spki_der n ∧ verifier_allows v n) ∧ raw_verify message der dss = true).
Proof.
  unfold verify_tls13_signature. destruct v as [e|e| |]; cbn -[check_pinned check_ed25519_raw_key verify_signature NodeId_spki_der exec_bind];
    try (destruct (check_pinned_spec e der) as (r & -> & Hr));
    try (destruct (check_raw_key_spec der) as (r & -> & Hr)); rewrite ?exec_bind_Ret_l;
    (eexists; split; [done|]); try destruct r as [m|]; unfold verify_signature;
    try destruct (raw_verify _ _ _); naive_solver.
Qed.

Lemma handshake_spec v c :
  ∃ ok, handshake_finishes v c = Ret ok ∧
    (ok = true ↔ ∃ n, verifier_allows v n ∧ authenticated n c) ∧
    ∀ n, authenticated n c → presented_node_id c = Ret (Some n).
Proof.
  unfold handshake_finishes, presented_node_id, authenticated. destruct (ps_chain c) as [|der chain].
  { exists false. split; [by destruct v|]. split; [naive_solver|]. intros n (H & _). done. }
  destruct (verify_cert_spec v der) as (r & -> & Hr). rewrite exec_bind_Ret_l. cbn [head].
  destruct (verify_tls13_spec v (ps_message c) der (ps_dss c)) as (r2 & E2 & Hr2).
  assert (Hid : ∀ n, Some der = Some (NodeId_spki_der n) → node_id_from_spki der = Ret (Some n)).
  { intros n [= ->]. apply spki_roundtrip. }
  assert (Hin : dss_scheme (ps_dss c) ∈ supported_verify_schemes v ↔ dss_scheme (ps_dss c) = ED25519).
  { destruct v; apply list_elem_of_singleton. }
  destruct r as [[]|e].
  - destruct (proj1 Hr eq_refl) as (n & -> & Hn).
    destruct (bool_decide_reflect (dss_scheme (ps_dss c) ∈ supported_verify_schemes v)) as [Hs|Hs]; cbn [negb].
    + rewrite E2, exec_bind_Ret_l. eexists. split; [done|]. split; [|naive_solver].
      destruct r2 as [[]|e2]; naive_solver.
    + exists false. split; [done|]. split; [|naive_solver]. naive_solver.
  - exists false. split; [done|]. split; [|naive_solver]. split; [done|].
    intros (n & Hn & [= ->] & _). naive_solver.
Qed.
(** C4: no handshake with these verifiers panics, and one finishes
    exactly when the peer presented an Ed25519 raw key the verifier allows and
    signed the handshake with it.  A pinned verifier lets in the pinned
    node alone, the provisional one whoever holds the key they present, and the
    placeholder no one; the identity read off the finished connection is the one
    the signature was checked under. *)
Theorem handshake_identity v c :
  ∃ ok, handshake_finishes v c = Ret ok ∧
    (ok = true ↔ ∃ n, verifier_allows v n ∧ authenticated n c) ∧
    ∀ n, authenticated n c → presented_node_id c = Ret (Some n).
Proof. apply handshake_spec. Qed.
End facts.
