(* ===== verification/Relay.v ===== *)
(** * Relay: the datagram relay ([link-relay/src/lib.rs])

    The registry under its lock, the tag registrations, the accept caps, the
    per-session handler and its cleanup, the reflector and the two token
    buckets.  A session is a state machine whose steps are the stretches of the
    source between lock acquisitions: [step] interleaves them in any order.

    An [mpsc::Sender] is the id of its channel; a channel exists in [chans] while
    its receiver does, and each session creates one, so its id is the session's.
    Socket writes are the frames a step emits; a write that can fail with [?]
    takes its outcome from the step's input.  [Instant]s are integers of
    nanoseconds.  The four journal counters are unbounded integers. *)

From S2P Require Import Prelude Net Id Rendezvous Card Wire.
From Stdlib Require Floats.SpecFloat.

Open Scope Z_scope.

(** ** Double precision, for the token buckets *)

Definition f64 : Type := SpecFloat.spec_float.
Definition f64_of_Z (z : Z) : f64 := SpecFloat.binary_normalize 53 1024 z 0 false.
Definition f64_add : f64 → f64 → f64 := SpecFloat.SFadd 53 1024.
Definition f64_sub : f64 → f64 → f64 := SpecFloat.SFsub 53 1024.
Definition f64_mul : f64 → f64 → f64 := SpecFloat.SFmul 53 1024.
Definition f64_div : f64 → f64 → f64 := SpecFloat.SFdiv 53 1024.
Definition f64_ge (a b : f64) : bool := SpecFloat.SFleb b a.

(** [f64::min]: the other operand when one is NaN. *)
Definition f64_min (a b : f64) : f64 :=
  match a, b with
  | SpecFloat.S754_nan, _ => b
  | _, SpecFloat.S754_nan => a
  | _, _ => if SpecFloat.SFltb b a then b else a
  end.

(** [Duration::as_secs_f64]. *)
Definition as_secs_f64 (nanos : Z) : f64 :=
  f64_add (f64_of_Z (nanos / 10 ^ 9)) (f64_div (f64_of_Z (nanos mod 10 ^ 9)) (f64_of_Z (10 ^ 9))).

(** ** Configuration and registry *)

Record RelayConfig : Type := mkRelayConfig {
  cfg_hosts : list (list byte);
  cfg_bytes_per_second : Z;
  cfg_max_sessions : nat;
  cfg_max_sessions_per_source : nat;
  cfg_reflector_per_second : f64;
}.

(** [RelayConfig::default], less the addresses the listeners bind. *)
Definition RelayConfig_default : RelayConfig :=
  mkRelayConfig [lit "127.0.0.1"] 0 1024 16 (f64_of_Z 20).

Definition chan : Type := Z.

Record Registry : Type := mkRegistry {
  reg_sessions : gmap NodeId chan;
  reg_tags : gmap Tag (list (Z * chan));
  reg_live : nat;
  reg_by_source : gmap IpAddr nat;
}.

Definition Registry_default : Registry := mkRegistry ∅ ∅ 0 ∅.

(** The outbound queues whose receiver is alive. *)
Abbreviation Chans := (gmap chan (list Frame)).

(** [Sender::try_send]: an error when the queue is full or the receiver gone. *)
Definition try_send (chans : Chans) (c : chan) (f : Frame) : option Chans :=
  match chans !! c with
  | Some q => if (length q <? MAX_QUEUED_FRAMES)%nat then Some (<[c := q ++ [f]]> chans) else None
  | None => None
  end.

(** [let _ = sender.try_send(..)]. *)
Definition try_send_ignore (chans : Chans) (c : chan) (f : Frame) : Chans :=
  default chans (try_send chans c f).

(** ** The accept loop *)

Definition accept (cfg : RelayConfig) (reg : Registry) (source_ip : IpAddr) : option Registry :=
  if (cfg_max_sessions cfg <=? reg_live reg)%nat then None
  else
    let from_source := default 0%nat (reg_by_source reg !! source_ip) in
    if (0 <? cfg_max_sessions_per_source cfg)%nat &&
       (cfg_max_sessions_per_source cfg <=? from_source)%nat
    then None
    else Some (mkRegistry (reg_sessions reg) (reg_tags reg) (S (reg_live reg))
                 (<[source_ip := S from_source]> (reg_by_source reg))).

(** The end of the session task; an underflow of a counter panics. *)
Definition leave (reg : Registry) (source_ip : IpAddr) : exec Registry :=
  match reg_live reg with
  | O => Panic
  | S live =>
    match reg_by_source reg !! source_ip with
    | None => Ret (mkRegistry (reg_sessions reg) (reg_tags reg) live (reg_by_source reg))
    | Some O => Panic
    | Some (S n) =>
      Ret (mkRegistry (reg_sessions reg) (reg_tags reg) live
        (if (n =? 0)%nat then delete source_ip (reg_by_source reg)
         else <[source_ip := n]> (reg_by_source reg)))
    end
  end.

(** ** Tag registrations *)

Definition TAG_ENDS : nat := 2.

(** [iter().enumerate().min_by_key(|(_, (id, _))| *id)]: the first minimum. *)
Fixpoint oldest (entries : list (Z * chan)) : option (nat * Z) :=
  match entries with
  | [] => None
  | (id, _) :: rest =>
    match oldest rest with
    | Some (i, m) => if m <? id then Some (S i, m) else Some (0%nat, id)
    | None => Some (0%nat, id)
    end
  end.

(** [while entries.len() > TAG_ENDS]; every turn removes an entry, so the length
    of the list is fuel enough. *)
Fixpoint evict (fuel : nat) (entries : list (Z * chan)) (chans : Chans) :
    list (Z * chan) * Chans :=
  match fuel with
  | O => (entries, chans)
  | S fuel' =>
    if (TAG_ENDS <? length entries)%nat then
      match oldest entries with
      | Some (i, _) =>
        match entries !! i with
        | Some (_, evicted) =>
          evict fuel' (delete i entries)
            (try_send_ignore chans evicted (Close CLOSE_REASON_SUPERSEDED))
        | None => (entries, chans)
        end
      | None => (entries, chans)
      end
    else (entries, chans)
  end.

(** One turn of [for tag in current]. *)
Definition unregister_tag (session_id : Z) (tags : gmap Tag (list (Z * chan))) (tag : Tag) :
    gmap Tag (list (Z * chan)) :=
  match tags !! tag with
  | Some entries =>
    let entries := filter (λ e, e.1 ≠ session_id) entries in
    if bool_decide (entries = []) then delete tag tags else <[tag := entries]> tags
  | None => tags
  end.

(** One turn of [for tag in next]. *)
Definition register_tag (session_id : Z) (tx : chan)
    (s : gmap Tag (list (Z * chan)) * Chans) (tag : Tag) :
    gmap Tag (list (Z * chan)) * Chans :=
  let '(tags, chans) := s in
  let entries := default [] (tags !! tag) in
  if existsb (λ e, e.1 =? session_id) entries then (<[tag := entries]> tags, chans)
  else
    let entries := entries ++ [(session_id, tx)] in
    let '(entries, chans) := evict (length entries) entries chans in
    (<[tag := entries]> tags, chans).

Definition register_tags (reg : Registry) (chans : Chans) (session_id : Z) (tx : chan)
    (current next : list Tag) : Registry * Chans :=
  let tags := foldl (unregister_tag session_id) (reg_tags reg) current in
  let '(tags, chans) := foldl (register_tag session_id tx) (tags, chans) next in
  (mkRegistry (reg_sessions reg) tags (reg_live reg) (reg_by_source reg), chans).

(** ** Token buckets *)

Record ByteBudget : Type := mkByteBudget { bb_per_second : Z; bb_tokens : f64; bb_last : Z }.

Definition ByteBudget_new (per_second now : Z) : ByteBudget :=
  mkByteBudget per_second (f64_of_Z per_second) now.

Definition ByteBudget_allow (b : ByteBudget) (bytes now : Z) : bool * ByteBudget :=
  if bb_per_second b =? 0 then (true, b)
  else
    let elapsed := as_secs_f64 (duration_since now (bb_last b)) in
    let tokens := f64_min (f64_add (bb_tokens b) (f64_mul elapsed (f64_of_Z (bb_per_second b))))
                    (f64_of_Z (bb_per_second b)) in
    if f64_ge tokens (f64_of_Z bytes)
    then (true, mkByteBudget (bb_per_second b) (f64_sub tokens (f64_of_Z bytes)) now)
    else (false, mkByteBudget (bb_per_second b) tokens now).

Record SourceLimiter : Type := mkSourceLimiter { sl_per_second : f64; sl_seen : gmap IpAddr (f64 * Z) }.

Definition SourceLimiter_new (per_second : f64) : SourceLimiter := mkSourceLimiter per_second ∅.

(** [now0] is the clock read of the purge, [now] the one that follows it. *)
Definition SourceLimiter_allow (l : SourceLimiter) (source : IpAddr) (now0 now : Z) :
    bool * SourceLimiter :=
  let seen :=
    if 10000 <? Z.of_nat (size (sl_seen l))
    then filter (λ e, now0 - secs 60 < e.2.2) (sl_seen l) else sl_seen l in
  let burst := f64_mul (sl_per_second l) (f64_of_Z 2) in
  let entry := default (burst, now) (seen !! source) in
  let elapsed := as_secs_f64 (duration_since now entry.2) in
  let tokens := f64_min (f64_add entry.1 (f64_mul elapsed (sl_per_second l))) burst in
  if f64_ge tokens (f64_of_Z 1)
  then (true, mkSourceLimiter (sl_per_second l) (<[source := (f64_sub tokens (f64_of_Z 1), now)]> seen))
  else (false, mkSourceLimiter (sl_per_second l) (<[source := (tokens, now)]> seen)).

(** One datagram at the reflector: what is sent back to [from], if anything.
    The 64 byte receive buffer truncates longer datagrams. *)
Definition reflector_step (l : SourceLimiter) (datagram : list byte) (from : SocketAddr)
    (now0 now : Z) : exec (option (list byte) * SourceLimiter) :=
  let buf := take 64 datagram in
  if negb (length buf =? REFLECT_REQUEST_BYTES)%nat then Ret (None, l)
  else
    o ← parse_reflect_request buf;
    match o with
    | None => Ret (None, l)
    | Some nonce =>
      let '(ok, l) := SourceLimiter_allow l (sa_ip from) now0 now in
      if (ok : bool) then Ret (Some (reflect_reply nonce from), l) else Ret (None, l)
    end.

(** ** The session handler *)

Inductive Mode : Type :=
  | Identity (node_id : NodeId)
  | Tags (tags : list Tag).

(** What [tungstenite] delivers; [MOther] is a text or continuation frame. *)
Inductive Message : Type :=
  | MBinary (bytes : list byte)
  | MPing (p : list byte)
  | MPong (p : list byte)
  | MClose
  | MOther.

(** [Frame_decode] never panics (see [Frame_codec]). *)
Definition decode_binary (m : Message) : option Frame :=
  match m with
  | MBinary bytes => run_opt (Frame_decode bytes)
  | _ => None
  end.

(** What goes out on a session's socket: [binary(frame)] or a WebSocket pong. *)
Inductive Sent : Type :=
  | SFrame (f : Frame)
  | SPong (p : list byte).

Record Session : Type := mkSession {
  s_id : Z;
  s_mode : Mode;
  s_last_ping : Z;
  s_budget : ByteBudget;
  s_frames_in : Z;
  s_frames_out : Z;
  s_bytes_in : Z;
  s_dropped : Z;
  (** targets cloned under the lock, still to be offered their frame *)
  s_out : list (chan * Frame);
}.

Definition set_mode (s : Session) (m : Mode) : Session :=
  mkSession (s_id s) m (s_last_ping s) (s_budget s) (s_frames_in s) (s_frames_out s)
    (s_bytes_in s) (s_dropped s) (s_out s).
Definition set_last_ping (s : Session) (now : Z) : Session :=
  mkSession (s_id s) (s_mode s) now (s_budget s) (s_frames_in s) (s_frames_out s)
    (s_bytes_in s) (s_dropped s) (s_out s).
Definition add_frame_in (s : Session) : Session :=
  mkSession (s_id s) (s_mode s) (s_last_ping s) (s_budget s) (s_frames_in s + 1) (s_frames_out s)
    (s_bytes_in s) (s_dropped s) (s_out s).
Definition add_frame_out (s : Session) : Session :=
  mkSession (s_id s) (s_mode s) (s_last_ping s) (s_budget s) (s_frames_in s) (s_frames_out s + 1)
    (s_bytes_in s) (s_dropped s) (s_out s).
Definition add_bytes_in (s : Session) (n : Z) : Session :=
  mkSession (s_id s) (s_mode s) (s_last_ping s) (s_budget s) (s_frames_in s) (s_frames_out s)
    (s_bytes_in s + n) (s_dropped s) (s_out s).
Definition add_dropped (s : Session) : Session :=
  mkSession (s_id s) (s_mode s) (s_last_ping s) (s_budget s) (s_frames_in s) (s_frames_out s)
    (s_bytes_in s) (s_dropped s + 1) (s_out s).
Definition set_budget (s : Session) (b : ByteBudget) : Session :=
  mkSession (s_id s) (s_mode s) (s_last_ping s) b (s_frames_in s) (s_frames_out s)
    (s_bytes_in s) (s_dropped s) (s_out s).
Definition set_out (s : Session) (o : list (chan * Frame)) : Session :=
  mkSession (s_id s) (s_mode s) (s_last_ping s) (s_budget s) (s_frames_in s) (s_frames_out s)
    (s_bytes_in s) (s_dropped s) o.

(** One turn of the session: the session, the registry and the queues after it,
    what it wrote, and [Some result] when it left the loop. *)
Record Turn : Type := mkTurn {
  t_session : Session;
  t_reg : Registry;
  t_chans : Chans;
  t_sent : list Sent;
  t_end : option (result string unit);
}.

Section handler.
Context `{C : Crypto}.
Context (cfg : RelayConfig).

(** The match on the first frame.  [Some mode] when the session is registered;
    [None] is the two [bail!] arms, which send the close frame. *)
Definition first_frame (reg : Registry) (chans : Chans) (session_id : Z) (challenge : array 32)
    (first : Message) : Registry * Chans * option Mode :=
  match decode_binary first with
  | Some (Auth node_id signature) =>
    if existsb (λ host, verify_relay_auth node_id host challenge signature) (cfg_hosts cfg) then
      let reg' := mkRegistry (<[node_id := session_id]> (reg_sessions reg)) (reg_tags reg)
                    (reg_live reg) (reg_by_source reg) in
      let chans' := match reg_sessions reg !! node_id with
                    | Some previous => try_send_ignore chans previous (Close CLOSE_REASON_SUPERSEDED)
                    | None => chans
                    end in
      (reg', chans', Some (Identity node_id))
    else (reg, chans, None)
  | Some (Register tags) =>
    if bool_decide (tags = []) then (reg, chans, None)
    else
      let '(reg', chans') := register_tags reg chans session_id session_id [] tags in
      (reg', chans', Some (Tags tags))
  | _ => (reg, chans, None)
  end.

Definition new_session (session_id : Z) (mode : Mode) (now : Z) : Session :=
  mkSession session_id mode now (ByteBudget_new (cfg_bytes_per_second cfg) now) 0 0 0 0 [].

Definition go_on (s : Session) (reg : Registry) (chans : Chans) : Turn :=
  mkTurn s reg chans [] None.

(** [let _ = ws.send(close).await; break Err(..)]. *)
Definition refuse (s : Session) (reg : Registry) (chans : Chans) (why : string) : Turn :=
  mkTurn s reg chans [SFrame (Close CLOSE_REASON_MALFORMED)] (Some (Err why)).

(** [ws.send(..).await?]. *)
Definition send_or_fail (s : Session) (reg : Registry) (chans : Chans) (m : Sent) (io_ok : bool) : Turn :=
  if io_ok then mkTurn s reg chans [m] None else mkTurn s reg chans [] (Some (Err "io"%string)).

(** The arms [Frame::Send], [Frame::SendTag] and [Frame::Register]. *)
Definition on_send (s : Session) (reg : Registry) (chans : Chans) (destination : NodeId)
    (datagram : list byte) (now : Z) : Turn :=
  match s_mode s with
  | Identity source =>
    let len := Z.of_nat (length datagram) in
    let s := add_bytes_in s len in
    let '(ok, budget) := ByteBudget_allow (s_budget s) len now in
    let s := set_budget s budget in
    if negb ok then go_on (add_dropped s) reg chans
    else match reg_sessions reg !! destination with
    | Some target => go_on (set_out s [(target, Recv source datagram)]) reg chans
    | None => go_on (add_dropped s) reg chans
    end
  | Tags _ => refuse s reg chans "identity frame on a tag session"
  end.

Definition tag_targets (reg : Registry) (session_id : Z) (tag : Tag) : list chan :=
  match reg_tags reg !! tag with
  | Some entries => (filter (λ e, e.1 ≠ session_id) entries).*2
  | None => []
  end.

Definition on_send_tag (s : Session) (reg : Registry) (chans : Chans) (tag : Tag)
    (datagram : list byte) (now : Z) : Turn :=
  match s_mode s with
  | Tags _ =>
    let len := Z.of_nat (length datagram) in
    let s := add_bytes_in s len in
    let '(ok, budget) := ByteBudget_allow (s_budget s) len now in
    let s := set_budget s budget in
    if negb ok then go_on (add_dropped s) reg chans
    else
      let targets := tag_targets reg (s_id s) tag in
      if bool_decide (targets = []) then go_on (add_dropped s) reg chans
      else go_on (set_out s ((λ t, (t, RecvTag tag datagram)) <$> targets)) reg chans
  | Identity _ => refuse s reg chans "tag frame on an identity session"
  end.

Definition on_register (s : Session) (reg : Registry) (chans : Chans) (next : list Tag) : Turn :=
  match s_mode s with
  | Tags current =>
    let '(reg', chans') := register_tags reg chans (s_id s) (s_id s) current next in
    go_on (set_mode s (Tags next)) reg' chans'
  | Identity _ => refuse s reg chans "register on an identity session"
  end.

(** [match frame { .. }]. *)
Definition on_frame (s : Session) (reg : Registry) (chans : Chans) (frame : Frame)
    (now : Z) (io_ok : bool) : Turn :=
  match frame with
  | Send destination datagram => on_send s reg chans destination datagram now
  | SendTag tag datagram => on_send_tag s reg chans tag datagram now
  | Register next => on_register s reg chans next
  | Ping opaque => send_or_fail (set_last_ping s now) reg chans (SFrame (Pong opaque)) io_ok
  | Pong _ => go_on (set_last_ping s now) reg chans
  | Close _ => mkTurn s reg chans [] (Some (Ok tt))
  | _ => refuse s reg chans "unexpected frame from client"
  end.

(** The [incoming] branch; [None] is the end of the stream, an error is [?]. *)
Definition on_incoming (s : Session) (reg : Registry) (chans : Chans)
    (incoming : option (result unit Message)) (now : Z) (io_ok : bool) : Turn :=
  match incoming with
  | None => mkTurn s reg chans [] (Some (Ok tt))
  | Some (Err _) => mkTurn s reg chans [] (Some (Err "io"%string))
  | Some (Ok (MPing p)) => send_or_fail s reg chans (SPong p) io_ok
  | Some (Ok (MPong _)) => go_on s reg chans
  | Some (Ok MClose) => mkTurn s reg chans [] (Some (Ok tt))
  | Some (Ok MOther) => refuse s reg chans "non-binary frame"
  | Some (Ok (MBinary bytes)) =>
    match decode_binary (MBinary bytes) with
    | None => refuse s reg chans "oversize or malformed frame"
    | Some frame => on_frame (add_frame_in s) reg chans frame now io_ok
    end
  end.

(** The [outbound] branch: [None] while the queue is empty, when [recv] waits. *)
Definition on_outbound (s : Session) (reg : Registry) (chans : Chans) (io_ok : bool) : option Turn :=
  match chans !! s_id s with
  | None => Some (mkTurn s reg chans [] (Some (Ok tt)))
  | Some [] => None
  | Some (frame :: q) =>
    let s := add_frame_out s in
    let chans := <[s_id s := q]> chans in
    Some (if io_ok then
            mkTurn s reg chans [SFrame frame]
              (match frame with Close _ => Some (Err "superseded"%string) | _ => None end)
          else mkTurn s reg chans [] (Some (Err "io"%string)))
  end.

Inductive Event : Type :=
  | EvStop
  | EvIdle (now : Z)
  | EvOutbound (io_ok : bool)
  | EvIncoming (incoming : option (result unit Message)) (now : Z) (io_ok : bool).

(** One turn of [select!]; [None] when the branch is not ready. *)
Definition on_event (s : Session) (reg : Registry) (chans : Chans) (ev : Event) : option Turn :=
  match ev with
  | EvStop => Some (mkTurn s reg chans [SFrame (Close 0)] (Some (Ok tt)))
  | EvIdle now =>
    Some (if secs IDLE_CLOSE_SECONDS <? duration_since now (s_last_ping s)
          then mkTurn s reg chans [SFrame (Close 0)] (Some (Err "idle"%string))
          else go_on s reg chans)
  | EvOutbound io_ok => on_outbound s reg chans io_ok
  | EvIncoming incoming now io_ok => Some (on_incoming s reg chans incoming now io_ok)
  end.

(** Offering the next cloned target its frame. *)
Definition deliver (s : Session) (chans : Chans) : option (Session * Chans) :=
  match s_out s with
  | [] => None
  | (target, frame) :: rest =>
    match try_send chans target frame with
    | Some chans' => Some (set_out s rest, chans')
    | None => Some (add_dropped (set_out s rest), chans)
    end
  end.

(** The cleanup after the loop. *)
Definition cleanup (reg : Registry) (chans : Chans) (session_id : Z) (mode : Mode) : Registry * Chans :=
  match mode with
  | Identity node_id =>
    (if bool_decide (reg_sessions reg !! node_id = Some session_id)
     then mkRegistry (delete node_id (reg_sessions reg)) (reg_tags reg) (reg_live reg) (reg_by_source reg)
     else reg, chans)
  | Tags current => register_tags reg chans session_id session_id current []
  end.

(** ** The relay as a transition system *)

Inductive Phase : Type :=
  | Pending (challenge : array 32)
  | Running (s : Session)
  | Ended (session_id : Z) (mode : Mode)
  | Returned.

Record Conn : Type := mkConn { c_ip : IpAddr; c_phase : Phase }.

Record Relay : Type := mkRelay {
  r_reg : Registry;
  r_chans : Chans;
  r_next : Z;
  r_conns : gmap nat Conn;
}.

Definition Relay_init : Relay := mkRelay Registry_default ∅ 1 ∅.

(** What a session that finished a turn becomes. *)
Definition phase_after (t : Turn) : Phase :=
  match t_end t with
  | None => Running (t_session t)
  | Some _ => Ended (s_id (t_session t)) (s_mode (t_session t))
  end.

Inductive Label : Type :=
  | LAccept (k : nat) (ip : IpAddr)
  | LFirst (k : nat) (challenge : array 32) (first : option Message)
  | LEvent (k : nat) (ev : Event)
  | LDeliver (k : nat)
  | LCleanup (k : nat)
  | LLeave (k : nat).

(** [LFirst k ch None] is a handshake that failed, timed out or closed. *)
Inductive step : Relay → Label → Relay → Prop :=
  | step_accept r k ip challenge reg' :
      r_conns r !! k = None →
      accept cfg (r_reg r) ip = Some reg' →
      step r (LAccept k ip)
        (mkRelay reg' (r_chans r) (r_next r) (<[k := mkConn ip (Pending challenge)]> (r_conns r)))
  | step_first_none r k ip challenge :
      r_conns r !! k = Some (mkConn ip (Pending challenge)) →
      step r (LFirst k challenge None)
        (mkRelay (r_reg r) (r_chans r) (r_next r) (<[k := mkConn ip Returned]> (r_conns r)))
  | step_first_refused r k ip challenge first reg' chans' :
      r_conns r !! k = Some (mkConn ip (Pending challenge)) →
      first_frame (r_reg r) (<[r_next r := []]> (r_chans r)) (r_next r) challenge first
        = (reg', chans', None) →
      step r (LFirst k challenge (Some first))
        (mkRelay reg' (delete (r_next r) chans') (r_next r + 1)
           (<[k := mkConn ip Returned]> (r_conns r)))
  | step_first_ok r k ip challenge first reg' chans' mode now (io_ok : bool) :
      r_conns r !! k = Some (mkConn ip (Pending challenge)) →
      first_frame (r_reg r) (<[r_next r := []]> (r_chans r)) (r_next r) challenge first
        = (reg', chans', Some mode) →
      step r (LFirst k challenge (Some first))
        (mkRelay reg' chans' (r_next r + 1)
           (<[k := mkConn ip (if io_ok then Running (new_session (r_next r) mode now)
                              else Ended (r_next r) mode)]> (r_conns r)))
  | step_event r k ip s ev t :
      r_conns r !! k = Some (mkConn ip (Running s)) →
      s_out s = [] →
      on_event s (r_reg r) (r_chans r) ev = Some t →
      step r (LEvent k ev)
        (mkRelay (t_reg t) (t_chans t) (r_next r) (<[k := mkConn ip (phase_after t)]> (r_conns r)))
  | step_deliver r k ip s s' chans' :
      r_conns r !! k = Some (mkConn ip (Running s)) →
      deliver s (r_chans r) = Some (s', chans') →
      step r (LDeliver k)
        (mkRelay (r_reg r) chans' (r_next r) (<[k := mkConn ip (Running s')]> (r_conns r)))
  | step_cleanup r k ip id mode reg' chans' :
      r_conns r !! k = Some (mkConn ip (Ended id mode)) →
      cleanup (r_reg r) (r_chans r) id mode = (reg', chans') →
      step r (LCleanup k)
        (mkRelay reg' (delete id chans') (r_next r) (<[k := mkConn ip Returned]> (r_conns r)))
  | step_leave r k ip reg' :
      r_conns r !! k = Some (mkConn ip Returned) →
      leave (r_reg r) ip = Ret reg' →
      step r (LLeave k) (mkRelay reg' (r_chans r) (r_next r) (delete k (r_conns r))).

(** States reachable from the start, with the steps taken. *)
Inductive reach : list Label → Relay → Prop :=
  | reach_init : reach [] Relay_init
  | reach_step tr r l r' : reach tr r → step r l r' → reach (tr ++ [l]) r'.

End handler.

(** ** Queues *)

(** Every queue is within its bound and holds only frames that satisfy [P]. *)
Definition chans_all (P : Frame → Prop) (chans : Chans) : Prop :=
  ∀ c q, chans !! c = Some q → (length q ≤ MAX_QUEUED_FRAMES)%nat ∧ Forall P q.

(** The close frame an eviction queues. *)
Definition superseded : Frame := Close CLOSE_REASON_SUPERSEDED.

Section queues.
Context (P : Frame → Prop).

Lemma try_send_all chans c f chans' :
  chans_all P chans → P f → try_send chans c f = Some chans' → chans_all P chans'.
Proof.
  intros H Hf. unfold try_send. destruct (chans !! c) as [q|] eqn:E; [|done].
  split_if; [|done]. intros [= <-]. to_props. intros c' q'.
  rewrite lookup_insert_Some. intros [[<- <-]|[_ Hq]]; [|by apply H in Hq].
  apply H in E as [_ Hq]. rewrite length_app, Forall_app. simpl. split; [lia|]. split; [done|].
  by constructor.
Qed.

Lemma try_send_dom chans c f chans' : try_send chans c f = Some chans' → dom chans' = dom chans.
Proof.
  unfold try_send. destruct (chans !! c) as [q|] eqn:E; [|done].
  split_if; [|done]. intros [= <-]. apply dom_insert_lookup_L. eauto.
Qed.

Lemma try_send_ignore_all chans c f :
  chans_all P chans → P f → chans_all P (try_send_ignore chans c f).
Proof.
  intros. unfold try_send_ignore. destruct (try_send chans c f) eqn:E; [|done].
  by eapply try_send_all.
Qed.

Lemma try_send_ignore_dom chans c f : dom (try_send_ignore chans c f) = dom chans.
Proof.
  unfold try_send_ignore. destruct (try_send chans c f) eqn:E; [|done]. by eapply try_send_dom.
Qed.

End queues.

(** ** Tag registrations *)

Abbreviation TagMap := (gmap Tag (list (Z * chan))).

(** An entry list of the registry: one or two ends, each session once, each with
    its own channel. *)
Record ends_wf (es : list (Z * chan)) : Prop := {
  ends_some : es ≠ [];
  ends_max : (length es ≤ TAG_ENDS)%nat;
  ends_nodup : NoDup es.*1;
  ends_chan : Forall (λ e, e.2 = e.1) es;
}.

Definition tags_wf (tags : TagMap) : Prop := ∀ t es, tags !! t = Some es → ends_wf es.

(** [id] holds one end of [t]. *)
Definition holds_tag (tags : TagMap) (t : Tag) (id : Z) : Prop :=
  ∃ es, tags !! t = Some es ∧ id ∈ es.*1.

Lemma oldest_spec es :
  es ≠ [] → ∃ i m c, oldest es = Some (i, m) ∧ es !! i = Some (m, c) ∧ Forall (λ e, m <= e.1) es.
Proof.
  induction es as [|[id c] es IH]; [done|]. intros _. simpl.
  destruct es as [|e es]; [|destruct IH as (i & m & c' & -> & Hl & Hm); [done|split_if; to_props]].
  - exists 0%nat, id, c. split_and!; [done..|]. repeat constructor; simpl; lia.
  - exists (S i), m, c'. split_and!; [done..|]. constructor; simpl; [lia|done].
  - exists 0%nat, id, c. split_and!; [done..|]. constructor; simpl; [lia|].
    eapply Forall_impl; [exact Hm|]. simpl. intros. lia.
Qed.

(** Eviction keeps the [TAG_ENDS] newest entries, in order. *)
Lemma evict_spec fuel es chans es' chans' :
  evict fuel es chans = (es', chans') → (length es ≤ fuel)%nat →
  es' `sublist_of` es ∧ length es' = Nat.min (length es) TAG_ENDS ∧
  (∀ e, e ∈ es → e ∈ es' ∨ (length es' = TAG_ENDS ∧ Forall (λ e', e.1 <= e'.1) es')) ∧
  dom chans' = dom chans ∧
  (∀ P, P superseded → chans_all P chans → chans_all P chans').
Proof.
  revert es chans. induction fuel as [|fuel IH]; intros es chans H Hf; simpl in H.
  { destruct es; [|simpl in Hf; lia]. simplify_eq. split_and!; [done|done|tauto|done|done]. }
  destruct (Nat.ltb_spec TAG_ENDS (length es)) as [Hl|Hl].
  2:{ simplify_eq. split_and!; [done|unfold TAG_ENDS in *; lia|tauto|done|done]. }
  destruct (oldest_spec es) as (i & m & c & Ho & Hi & Hm); [by intros ->; simpl in Hl; lia|].
  rewrite Ho, Hi in H. pose proof (length_delete es i) as Hd. rewrite Hi in Hd.
  specialize (Hd (mk_is_Some _ _ eq_refl)).
  apply IH in H as (Hs & Hlen & Hk & Hdom & Hall); [|unfold TAG_ENDS in *; lia].
  split_and!.
  - etrans; [exact Hs|apply sublist_delete].
  - unfold TAG_ENDS in *. lia.
  - intros e He. apply list_elem_of_lookup_1 in He as [j Hj].
    destruct (decide (j = i)) as [->|Hij].
    + right. split; [unfold TAG_ENDS in *; lia|].
      replace e with (m, c) by congruence. apply Forall_forall. intros e' He'.
      rewrite Forall_forall in Hm. apply Hm. eapply elem_of_sublist; [exact He'|].
      etrans; [exact Hs|apply sublist_delete].
    + apply Hk. destruct (decide (j < i)%nat).
      * eapply list_elem_of_lookup_2. by rewrite list_lookup_delete_lt.
      * eapply (list_elem_of_lookup_2 _ (j - 1)). rewrite list_lookup_delete_ge by lia.
        by replace (S (j - 1)) with j by lia.
  - by rewrite Hdom, try_send_ignore_dom.
  - intros P HP HA. apply Hall; [done|]. by apply try_send_ignore_all.
Qed.

(** What eviction leaves of a well-formed list with the newcomer appended. *)
Lemma push_ends es sid :
  (length es ≤ TAG_ENDS)%nat → NoDup es.*1 → Forall (λ e, e.2 = e.1) es → sid ∉ es.*1 →
  ∀ chans es' chans', evict (length (es ++ [(sid, sid)])) (es ++ [(sid, sid)]) chans = (es', chans') →
  ends_wf es' ∧ es' `sublist_of` es ++ [(sid, sid)] ∧
  (sid ∈ es'.*1 ∨ (length es' = TAG_ENDS ∧ Forall (λ e, sid < e.1) es')) ∧
  dom chans' = dom chans ∧ (∀ P, P superseded → chans_all P chans → chans_all P chans').
Proof.
  intros Hl Hn Hc Hs chans es' chans' E.
  apply evict_spec in E as (Hsub & Hlen & Hk & Hdom & Hall); [|done].
  rewrite length_app in Hlen. simpl in Hlen. unfold TAG_ENDS in *.
  assert (Hn' : NoDup es'.*1).
  { eapply sublist_NoDup; [|by apply fmap_sublist]. rewrite fmap_app.
    apply NoDup_app. split_and!; [done| |apply NoDup_singleton].
    intros x Hx ->%list_elem_of_singleton. done. }
  split_and!; [|done| |done|done].
  - split; [intros ->; simpl in Hlen; lia|unfold TAG_ENDS; lia|done|].
    apply Forall_forall. intros e He. eapply elem_of_sublist in He; [|done].
    apply elem_of_app in He as [He| ->%list_elem_of_singleton]; [|done].
    by eapply Forall_forall in Hc.
  - destruct (Hk (sid, sid)) as [Hin|[Hl2 Hge]]; [set_solver|left|].
    { apply list_elem_of_fmap. by exists (sid, sid). }
    destruct (decide (sid ∈ es'.*1)) as [|Hnot]; [by left|right]. split; [done|].
    apply Forall_forall. intros e He. eapply Forall_forall in Hge; [|done]. simpl in Hge.
    assert (e.1 ≠ sid); [|lia]. intros <-. destruct Hnot. by apply list_elem_of_fmap_2.
Qed.

Section registrations.
Context (sid : Z).
Implicit Types (tags : TagMap) (t : Tag).

Lemma unregister_lookup tags t t' :
  unregister_tag sid tags t !! t' =
  if decide (t = t')
  then match filter (λ e, e.1 ≠ sid) <$> tags !! t with Some (e :: es) => Some (e :: es) | _ => None end
  else tags !! t'.
Proof.
  unfold unregister_tag. destruct (tags !! t) as [es|] eqn:E; simpl.
  - case_bool_decide as Hb; case_decide; subst; rewrite ?lookup_delete_eq, ?lookup_insert_eq,
      ?lookup_delete_ne, ?lookup_insert_ne by done; try done; [by rewrite Hb|].
    by destruct (filter _ es).
  - case_decide; [by subst|done].
Qed.

Lemma ends_wf_filter es :
  ends_wf es → filter (λ e, e.1 ≠ sid) es ≠ [] → ends_wf (filter (λ e, e.1 ≠ sid) es).
Proof.
  intros [_ Hm Hn Hc] Hne. pose proof (sublist_filter (λ e : Z * chan, e.1 ≠ sid) es) as Hs.
  split; [done| | |].
  - apply sublist_length in Hs. lia.
  - eapply sublist_NoDup; [|by apply fmap_sublist]. done.
  - apply Forall_forall. intros e He. eapply elem_of_sublist in He; [|done].
    by eapply Forall_forall in Hc.
Qed.

(** Dropping the registrations [current]. *)
Lemma unregister_spec current tags :
  tags_wf tags →
  tags_wf (foldl (unregister_tag sid) tags current) ∧
  (∀ t, t ∉ current → foldl (unregister_tag sid) tags current !! t = tags !! t) ∧
  (∀ t, t ∈ current → ¬ holds_tag (foldl (unregister_tag sid) tags current) t sid) ∧
  (∀ t id, id ≠ sid → holds_tag (foldl (unregister_tag sid) tags current) t id ↔ holds_tag tags t id).
Proof.
  intros Hwf. induction current as [|c current IH] using rev_ind; simpl.
  { split_and!; [done..|set_solver|done]. }
  rewrite foldl_snoc. set (tags' := foldl _ _ _) in *. destruct IH as (Hwf' & Hsame & Hgone & Hoth).
  split_and!.
  - intros t es. rewrite unregister_lookup. case_decide as D; [|apply Hwf'].
    destruct (tags' !! c) as [es0|] eqn:E; simpl; [|done].
    destruct (filter _ es0) eqn:F; [done|]. intros [= <-]. rewrite <- F.
    apply ends_wf_filter; [by eapply Hwf'|congruence].
  - intros t Ht. rewrite unregister_lookup, decide_False by set_solver. apply Hsame. set_solver.
  - intros t Ht (es & Hes & Hin). rewrite unregister_lookup in Hes. case_decide as D.
    + destruct (tags' !! c) as [es0|]; simpl in Hes; [|done].
      destruct (filter _ es0) eqn:F; [done|]. injection Hes as <-. rewrite <- F in Hin.
      apply list_elem_of_fmap in Hin as (e & -> & He). by apply list_elem_of_filter in He as [? _].
    + eapply Hgone; [|by eexists]. set_solver.
  - intros t id Hid. rewrite <- Hoth by done. unfold holds_tag. rewrite unregister_lookup.
    case_decide as D; [subst c|done]. destruct (tags' !! t) as [es0|]; simpl; [|naive_solver].
    assert (Hiff : id ∈ (filter (λ e, e.1 ≠ sid) es0).*1 ↔ id ∈ es0.*1).
    { rewrite !list_elem_of_fmap. setoid_rewrite list_elem_of_filter. naive_solver. }
    destruct (filter _ es0) eqn:F; [set_solver|]. rewrite <- F in *. naive_solver.
Qed.

(** Registering one tag. *)
Lemma register_tag_spec tags chans t tags' chans' :
  tags_wf tags → register_tag sid sid (tags, chans) t = (tags', chans') →
  tags_wf tags' ∧ (∀ t', t' ≠ t → tags' !! t' = tags !! t') ∧
  (∃ es, tags' !! t = Some es ∧
    (sid ∈ es.*1 ∨ (length es = TAG_ENDS ∧ Forall (λ e, sid < e.1) es)) ∧
    (∀ id, id ∈ es.*1 → id = sid ∨ holds_tag tags t id)) ∧
  dom chans' = dom chans ∧ (∀ P, P superseded → chans_all P chans → chans_all P chans').
Proof.
  intros Hwf. unfold register_tag. set (es := default [] (tags !! t)).
  assert (Hes : (length es ≤ TAG_ENDS)%nat ∧ NoDup es.*1 ∧ Forall (λ e, e.2 = e.1) es).
  { subst es. destruct (tags !! t) eqn:E; simpl; [by apply Hwf in E as []|].
    unfold TAG_ENDS. split_and!; [lia|constructor|constructor]. }
  assert (Hhold : ∀ id, id ∈ es.*1 → holds_tag tags t id).
  { intros id Hid. subst es. unfold holds_tag. destruct (tags !! t); simpl in Hid; [eauto|set_solver]. }
  destruct Hes as (Hl & Hn & Hc). destruct (existsb _ es) eqn:E.
  - intros [= <- <-]. apply existsb_exists in E as (e & He & Hid%Z.eqb_eq).
    apply list_elem_of_In in He.
    assert (Hin : sid ∈ es.*1) by (rewrite <- Hid; by apply list_elem_of_fmap_2).
    split_and!; [|intros; by rewrite lookup_insert_ne| |done|done].
    + intros t' es'. rewrite lookup_insert_Some. intros [[<- <-]|[_ H]]; [|by eapply Hwf].
      split; [by intros ->; set_solver|done..].
    + exists es. rewrite lookup_insert_eq. split_and!; [done|by left|naive_solver].
  - destruct (evict _ _ _) as [es' ch'] eqn:Ev. intros [= <- <-].
    assert (Hnot : sid ∉ es.*1).
    { intros (e & Hid & He)%list_elem_of_fmap. apply not_true_iff_false in E. apply E.
      apply existsb_exists. exists e. split; [by apply list_elem_of_In|]. by apply Z.eqb_eq. }
    destruct (push_ends es sid Hl Hn Hc Hnot _ _ _ Ev) as (Hw & Hs & Hin & Hd & Ha).
    split_and!; [|intros; by rewrite lookup_insert_ne| |done|done].
    + intros t' es''. rewrite lookup_insert_Some. intros [[<- <-]|[_ H]]; [done|by eapply Hwf].
    + exists es'. rewrite lookup_insert_eq. split_and!; [done..|].
      intros id (e & -> & He)%list_elem_of_fmap. eapply elem_of_sublist in He; [|done].
      apply elem_of_app in He as [He| ->%list_elem_of_singleton]; [right|by left].
      by apply Hhold, list_elem_of_fmap_2.
Qed.

(** Registering the tags [next]. *)
Lemma register_spec next tags chans tags' chans' :
  tags_wf tags → foldl (register_tag sid sid) (tags, chans) next = (tags', chans') →
  tags_wf tags' ∧ (∀ t, t ∉ next → tags' !! t = tags !! t) ∧
  (∀ t, t ∈ next → ∃ es, tags' !! t = Some es ∧
    (sid ∈ es.*1 ∨ (length es = TAG_ENDS ∧ Forall (λ e, sid < e.1) es))) ∧
  (∀ t id, holds_tag tags' t id → (id = sid ∧ t ∈ next) ∨ holds_tag tags t id) ∧
  dom chans' = dom chans ∧ (∀ P, P superseded → chans_all P chans → chans_all P chans').
Proof.
  intros Hwf. revert tags' chans'. induction next as [|n next IH] using rev_ind; intros tags' chans'.
  { simpl. intros [= <- <-]. split_and!; [done..|set_solver|by right|done|done]. }
  rewrite foldl_snoc. destruct (foldl _ _ next) as [tags1 chans1] eqn:E1. intros E2.
  destruct (IH _ _ eq_refl) as (Hwf1 & Hs1 & Hi1 & Ho1 & Hd1 & Ha1).
  destruct (register_tag_spec _ _ _ _ _ Hwf1 E2) as (Hwf2 & Hs2 & (es & He & Hin & Hold) & Hd2 & Ha2).
  split_and!; [done|..].
  - intros t Ht. rewrite Hs2 by set_solver. apply Hs1. set_solver.
  - intros t Ht. destruct (decide (t = n)) as [->|]; [by eexists|].
    rewrite Hs2 by done. apply Hi1. set_solver.
  - intros t id (es' & He' & Hid). destruct (decide (t = n)) as [->|].
    + assert (es' = es) as -> by congruence. destruct (Hold _ Hid) as [->|H]; [left; set_solver|].
      apply Ho1 in H as [[-> ?]|?]; [left; set_solver|by right].
    + rewrite Hs2 in He' by done. destruct (Ho1 t id) as [[-> ?]|?]; [by eexists|left; set_solver|by right].
  - by rewrite Hd2.
  - intros P HP HA. apply Ha2; [done|]. by apply Ha1.
Qed.

End registrations.

(** The effect of [register_tags] on every tag and queue. *)
Lemma register_tags_effect reg chans sid current next reg' chans' :
  tags_wf (reg_tags reg) → register_tags reg chans sid sid current next = (reg', chans') →
  tags_wf (reg_tags reg') ∧
  (∀ t, t ∉ current → t ∉ next → reg_tags reg' !! t = reg_tags reg !! t) ∧
  (∀ t, t ∈ next → ∃ es, reg_tags reg' !! t = Some es ∧
    (sid ∈ es.*1 ∨ (length es = TAG_ENDS ∧ Forall (λ e, sid < e.1) es))) ∧
  (∀ t, t ∈ current → t ∉ next → ¬ holds_tag (reg_tags reg') t sid) ∧
  (∀ t id, holds_tag (reg_tags reg') t id → (id = sid ∧ t ∈ next) ∨ holds_tag (reg_tags reg) t id) ∧
  reg_sessions reg' = reg_sessions reg ∧ reg_live reg' = reg_live reg ∧
  reg_by_source reg' = reg_by_source reg ∧
  dom chans' = dom chans ∧ (∀ P, P superseded → chans_all P chans → chans_all P chans').
Proof.
  intros Hwf. unfold register_tags.
  destruct (foldl (register_tag _ _) _ next) as [tags2 chans2] eqn:E. intros [= <- <-].
  destruct (unregister_spec sid current _ Hwf) as (Hwf1 & Hs1 & Hg1 & Ho1).
  destruct (register_spec sid next _ _ _ _ Hwf1 E) as (Hwf2 & Hs2 & Hi2 & Ho2 & Hd2 & Ha2).
  cbn [reg_tags reg_sessions reg_live reg_by_source]. split_and!; [done|..|done|done|done|done|done].
  - intros t Hc Hn. rewrite Hs2, Hs1 by done. done.
  - done.
  - intros t Hc Hn [[_ ?]|H]%Ho2; [done|]. by eapply Hg1.
  - intros t id H. apply Ho2 in H as [?|H]; [by left|right].
    destruct (decide (id = sid)) as [->|]; [|by apply Ho1].
    destruct (decide (t ∈ current)) as [Hc|Hc]; [by apply Hg1 in H|].
    unfold holds_tag in *. by rewrite Hs1 in H.
Qed.

(** Re-registering replaces a session's tags: on a well-formed registry
    every tag keeps one or two distinct ends, tags outside the old and the new
    set are untouched, a dropped tag no longer routes to the session, and a
    registered tag routes to it unless both ends belong to newer sessions (the
    oldest of three is the one evicted).  No other session gains a tag. *)
Theorem register_tags_replaces reg chans sid current next reg' chans'
  (Hwf : tags_wf (reg_tags reg))
  (E : register_tags reg chans sid sid current next = (reg', chans')) :
  tags_wf (reg_tags reg') ∧
  (∀ t, t ∉ current → t ∉ next → reg_tags reg' !! t = reg_tags reg !! t) ∧
  (∀ t, t ∈ next → ∃ es, reg_tags reg' !! t = Some es ∧
    (sid ∈ es.*1 ∨ (length es = TAG_ENDS ∧ Forall (λ e, sid < e.1) es))) ∧
  (∀ t, t ∈ current → t ∉ next → ¬ holds_tag (reg_tags reg') t sid) ∧
  (∀ t id, id ≠ sid → holds_tag (reg_tags reg') t id → holds_tag (reg_tags reg) t id) ∧
  dom chans' = dom chans.
Proof.
  destruct (register_tags_effect _ _ _ _ _ _ _ Hwf E) as (? & ? & ? & ? & Ho & _ & _ & _ & ? & _).
  split_and!; [done..| |done]. intros t id Hid [[? _]|?]%Ho; done.
Qed.

(** ** The relay's invariant *)

Definition active (p : Phase) : option (Z * Mode) :=
  match p with
  | Running s => Some (s_id s, s_mode s)
  | Ended id mode => Some (id, mode)
  | Pending _ | Returned => None
  end.

(** Connection [k] serves session [id] in mode [m]. *)
Definition serves (conns : gmap nat Conn) (k : nat) (id : Z) (m : Mode) : Prop :=
  ∃ c, conns !! k = Some c ∧ active (c_phase c) = Some (id, m).

Definition from_source (conns : gmap nat Conn) (ip : IpAddr) : gmap nat Conn :=
  filter (λ kc, c_ip kc.2 = ip) conns.

Section invariant.
Context `{C : Crypto}.
Context (cfg : RelayConfig).

(** [n] answered the challenge of an accepted connection with a signature that
    verifies for one of the relay's hosts. *)
Definition authenticated (tr : list Label) (n : NodeId) : Prop :=
  ∃ k challenge first signature host,
    LFirst k challenge (Some first) ∈ tr ∧ decode_binary first = Some (Auth n signature) ∧
    host ∈ cfg_hosts cfg ∧ verify_relay_auth n host challenge signature = true.

(** A frame the relay may hold for a session. *)
Definition relayed (tr : list Label) (f : Frame) : Prop :=
  Frame_wf f ∧
  match f with
  | Recv source _ => authenticated tr source
  | RecvTag _ _ => True
  | Close reason => reason = CLOSE_REASON_SUPERSEDED
  | _ => False
  end.

(** The counters count the connections, within the caps. *)
Record counts_ok (reg : Registry) (conns : gmap nat Conn) : Prop := {
  inv_live : reg_live reg = size conns;
  inv_source : ∀ ip, reg_by_source reg !! ip =
    (if decide (size (from_source conns ip) = 0%nat) then None
     else Some (size (from_source conns ip)));
  inv_cap : (size conns ≤ cfg_max_sessions cfg)%nat;
  inv_source_cap : ∀ ip, (0 < cfg_max_sessions_per_source cfg)%nat →
    (size (from_source conns ip) ≤ cfg_max_sessions_per_source cfg)%nat;
}.

(** Every registration and every queue belongs to a live session. *)
Record sessions_ok (tr : list Label) (reg : Registry) (chans : Chans) (next : Z)
    (conns : gmap nat Conn) : Prop := {
  inv_fresh : ∀ k id m, serves conns k id m → id < next;
  inv_unique : ∀ k k' id m m', serves conns k id m → serves conns k' id m' → k = k';
  inv_chans : ∀ id, id ∈ dom chans ↔ ∃ k m, serves conns k id m;
  inv_queues : chans_all (relayed tr) chans;
  inv_sessions : ∀ n c, reg_sessions reg !! n = Some c → ∃ k, serves conns k c (Identity n);
  inv_tags : tags_wf (reg_tags reg);
  inv_holders : ∀ t id, holds_tag (reg_tags reg) t id →
    ∃ k ts, serves conns k id (Tags ts) ∧ t ∈ ts;
  inv_modes : ∀ k id n, serves conns k id (Identity n) → authenticated tr n;
  inv_out : ∀ k ip s, conns !! k = Some (mkConn ip (Running s)) →
    Forall (λ o, relayed tr o.2) (s_out s);
}.

Record relay_inv (tr : list Label) (r : Relay) : Prop := {
  inv_counts : counts_ok (r_reg r) (r_conns r);
  inv_sess : sessions_ok tr (r_reg r) (r_chans r) (r_next r) (r_conns r);
}.

(** *** Counting *)

Lemma from_source_insert_new conns k ip p ip' :
  conns !! k = None →
  size (from_source (<[k := mkConn ip p]> conns) ip') =
  ((if decide (ip = ip') then 1 else 0) + size (from_source conns ip'))%nat.
Proof.
  intros Hk. unfold from_source. case_decide as D.
  - rewrite map_filter_insert_True by done. rewrite map_size_insert_None; [done|].
    apply map_lookup_filter_None. by left.
  - rewrite map_filter_insert_not' by (simpl; congruence). done.
Qed.

Lemma from_source_delete conns k ip p ip' :
  conns !! k = Some (mkConn ip p) →
  size (from_source conns ip') =
  ((if decide (ip = ip') then 1 else 0) + size (from_source (delete k conns) ip'))%nat.
Proof.
  intros Hk. rewrite <- (insert_delete_id conns k (mkConn ip p)) at 1 by done.
  apply from_source_insert_new, lookup_delete_eq.
Qed.

Lemma from_source_insert_same conns k ip p p' ip' :
  conns !! k = Some (mkConn ip p) →
  size (from_source (<[k := mkConn ip p']> conns) ip') = size (from_source conns ip').
Proof.
  intros Hk. rewrite <- insert_delete_eq, from_source_insert_new by apply lookup_delete_eq.
  by rewrite (from_source_delete conns k ip p ip' Hk).
Qed.

Lemma counts_phase reg reg' conns k ip p p' :
  counts_ok reg conns → conns !! k = Some (mkConn ip p) →
  reg_live reg' = reg_live reg → reg_by_source reg' = reg_by_source reg →
  counts_ok reg' (<[k := mkConn ip p']> conns).
Proof.
  intros [Hl Hs Hc Hsc] Hk El Es.
  assert (Hsz : size (<[k := mkConn ip p']> conns) = size conns)
    by (rewrite map_size_insert_Some; eauto).
  split.
  - by rewrite El, Hsz.
  - intros ip'. by rewrite Es, (from_source_insert_same _ _ _ _ _ _ Hk).
  - by rewrite Hsz.
  - intros ip'. rewrite (from_source_insert_same _ _ _ _ _ _ Hk). apply Hsc.
Qed.

Lemma accept_counts reg conns k ip p reg' :
  counts_ok reg conns → conns !! k = None → accept cfg reg ip = Some reg' →
  counts_ok reg' (<[k := mkConn ip p]> conns).
Proof.
  intros [Hl Hs Hc Hsc] Hk. unfold accept. split_if; [done|]. cbv zeta. split_if; [done|].
  intros [= <-]. to_props. set (n := default 0%nat (reg_by_source reg !! ip)) in *.
  assert (Hn : n = size (from_source conns ip)).
  { subst n. rewrite Hs. case_decide; simpl; congruence. }
  split; cbn [reg_live reg_by_source].
  - rewrite map_size_insert_None by done. by rewrite Hl.
  - intros ip'. rewrite from_source_insert_new by done. destruct (decide (ip = ip')) as [<-|Hne].
    + rewrite lookup_insert_eq. case_decide; [lia|]. f_equal. lia.
    + rewrite lookup_insert_ne by done. apply Hs.
  - rewrite map_size_insert_None by done. lia.
  - intros ip' Hpos. rewrite from_source_insert_new by done. specialize (Hsc ip' Hpos).
    apply andb_false_iff in G0. case_decide; subst; [|lia].
    destruct G0; to_props; lia.
Qed.

(** Leaving never underflows a counter. *)
Lemma leave_counts reg conns k ip p :
  counts_ok reg conns → conns !! k = Some (mkConn ip p) →
  ∃ reg', leave reg ip = Ret reg' ∧ counts_ok reg' (delete k conns) ∧
    reg_sessions reg' = reg_sessions reg ∧ reg_tags reg' = reg_tags reg.
Proof.
  intros [Hl Hs Hc Hsc] Hk.
  assert (Hsz : size conns = S (size (delete k conns))).
  { rewrite <- (insert_delete_id conns k (mkConn ip p)) at 1 by done.
    rewrite map_size_insert_None; [done|apply lookup_delete_eq]. }
  unfold leave. rewrite Hl, Hsz, Hs. pose proof (from_source_delete _ _ _ _ ip Hk) as Hf.
  rewrite decide_True in Hf by done. rewrite decide_False by lia. rewrite Hf. simpl.
  eexists. split; [done|]. split; [|done].
  split; cbn [reg_live reg_by_source]; [done| |lia|].
  - intros ip'. pose proof (from_source_delete _ _ _ _ ip' Hk) as Hf'.
    destruct (decide (ip = ip')) as [<-|Hne].
    + split_if; to_props; [rewrite lookup_delete_eq, decide_True by done; done|].
      rewrite lookup_insert_eq, decide_False by done. done.
    + simpl in Hf'. split_if; rewrite ?lookup_delete_ne, ?lookup_insert_ne by done; rewrite Hs, Hf'; done.
  - intros ip' Hpos. specialize (Hsc ip' Hpos). rewrite (from_source_delete _ _ _ _ ip' Hk) in Hsc. lia.
Qed.

(** *** Sessions *)

Lemma authenticated_mono tr l n : authenticated tr n → authenticated (tr ++ [l]) n.
Proof. intros (k & ch & f & sg & h & Hin & H). exists k, ch, f, sg, h. split; [set_solver|done]. Qed.

Lemma relayed_mono tr l f : relayed tr f → relayed (tr ++ [l]) f.
Proof. intros [Hw Hf]. split; [done|]. destruct f; try done. by apply authenticated_mono. Qed.

Lemma queues_mono tr l chans : chans_all (relayed tr) chans → chans_all (relayed (tr ++ [l])) chans.
Proof.
  intros H c q Hq. apply H in Hq as [? Hq]. split; [done|].
  eapply Forall_impl; [exact Hq|]. intros. by apply relayed_mono.
Qed.

Lemma out_mono tr l (o : list (chan * Frame)) :
  Forall (λ o, relayed tr o.2) o → Forall (λ o, relayed (tr ++ [l]) o.2) o.
Proof. intros H. eapply Forall_impl; [exact H|]. intros. by apply relayed_mono. Qed.

Lemma superseded_relayed tr : relayed tr superseded.
Proof. split; [vm_compute; split; congruence|done]. Qed.

Lemma serves_insert conns k c k' id m :
  serves (<[k := c]> conns) k' id m ↔
  (k' = k ∧ active (c_phase c) = Some (id, m)) ∨ (k' ≠ k ∧ serves conns k' id m).
Proof.
  unfold serves. destruct (decide (k' = k)) as [->|Hne].
  - rewrite lookup_insert_eq. naive_solver.
  - rewrite lookup_insert_ne by done. naive_solver.
Qed.

Lemma serves_fun conns k id m id' m' :
  serves conns k id m → serves conns k id' m' → id = id' ∧ m = m'.
Proof. intros (c & Hc & Ha) (c' & Hc' & Ha'). by simplify_eq. Qed.

(** The serving connections other than [k] are untouched by a step of [k]; what
    the rest of the invariant asks of that step. *)
Lemma sessions_step tr l reg chans next conns reg' chans' next' k c :
  sessions_ok tr reg chans next conns →
  let conns' := <[k := c]> conns in
  let tr' := tr ++ [l] in
  next <= next' →
  (∀ id m, active (c_phase c) = Some (id, m) →
     id < next' ∧ ((∃ m', serves conns k id m') ∨ ∀ k' m', ¬ serves conns k' id m')) →
  (∀ id, id ∈ dom chans' ↔ ∃ k m, serves conns' k id m) →
  chans_all (relayed tr') chans' →
  (∀ n ch, reg_sessions reg' !! n = Some ch → ∃ k, serves conns' k ch (Identity n)) →
  tags_wf (reg_tags reg') →
  (∀ t id, holds_tag (reg_tags reg') t id → ∃ k ts, serves conns' k id (Tags ts) ∧ t ∈ ts) →
  (∀ id n, active (c_phase c) = Some (id, Identity n) → authenticated tr' n) →
  (∀ s, c_phase c = Running s → Forall (λ o, relayed tr' o.2) (s_out s)) →
  sessions_ok tr' reg' chans' next' conns'.
Proof.
  intros [Hf Hu Hc Hq Hs Ht Hh Hm Ho] conns' tr' Hn Ha Hd Hq' Hs' Ht' Hh' Hm' Ho'.
  split; [| |done..| |].
  - intros k' id m [[-> H]|[_ H]]%serves_insert; [by destruct (Ha _ _ H)|]. apply Hf in H. lia.
  - assert (Hmix : ∀ k' id m m', k' ≠ k → active (c_phase c) = Some (id, m) →
      serves conns k' id m' → False).
    { intros k' id m m' Hne H1 H2. apply Ha in H1 as (_ & [[m1 H1]|H1]);
        [destruct Hne; by eapply Hu|by eapply H1]. }
    intros k1 k2 id m m' [[-> H1]|[N1 H1]]%serves_insert [[-> H2]|[N2 H2]]%serves_insert;
      [done| | |by eapply Hu]; exfalso; eauto.
  - intros k' id n [[-> H]|[_ H]]%serves_insert; [by eapply Hm'|].
    by eapply authenticated_mono, Hm.
  - intros k' ip s. subst conns'. rewrite lookup_insert_Some. intros [[<- H]|[_ H]].
    + apply Ho'. by rewrite H.
    + by eapply out_mono, Ho.
Qed.

Lemma serves_same conns k c :
  (∀ id m, serves conns k id m ↔ active (c_phase c) = Some (id, m)) →
  ∀ k' id m, serves (<[k := c]> conns) k' id m ↔ serves conns k' id m.
Proof.
  intros H k' id m. rewrite serves_insert. destruct (decide (k' = k)) as [->|]; [|naive_solver].
  rewrite H. naive_solver.
Qed.

Lemma serves_at conns k c id m :
  conns !! k = Some c → serves conns k id m ↔ active (c_phase c) = Some (id, m).
Proof. intros Hk. unfold serves. rewrite Hk. naive_solver. Qed.

Lemma serves_none conns k id m : conns !! k = None → ¬ serves conns k id m.
Proof. intros Hk (c & Hc & _). congruence. Qed.

(** A step that changes neither the registrations nor which sessions run. *)
Lemma sessions_keep tr l reg chans next conns reg' chans' next' k c :
  sessions_ok tr reg chans next conns →
  (∀ id m, serves conns k id m ↔ active (c_phase c) = Some (id, m)) →
  reg_sessions reg' = reg_sessions reg → reg_tags reg' = reg_tags reg → next <= next' →
  dom chans' = dom chans → chans_all (relayed (tr ++ [l])) chans' →
  (∀ s, c_phase c = Running s → Forall (λ o, relayed (tr ++ [l]) o.2) (s_out s)) →
  sessions_ok (tr ++ [l]) reg' chans' next' (<[k := c]> conns).
Proof.
  intros H Hk Es Et Hn Hd Hq Ho. pose proof (serves_same _ _ _ Hk) as Hsame.
  eapply sessions_step; [done|done|..]; try setoid_rewrite Hsame; try done.
  - intros id m Ha. apply Hk in Ha. split; [|by eauto]. apply (inv_fresh _ _ _ _ _ H) in Ha. lia.
  - rewrite Hd. apply H.
  - rewrite Es. apply H.
  - rewrite Et. apply H.
  - rewrite Et. apply H.
  - intros id n Ha. apply Hk in Ha. by eapply authenticated_mono, inv_modes.
Qed.

(** A finished connection leaves. *)
Lemma sessions_delete tr l reg chans next conns reg' k ip :
  sessions_ok tr reg chans next conns → conns !! k = Some (mkConn ip Returned) →
  reg_sessions reg' = reg_sessions reg → reg_tags reg' = reg_tags reg →
  sessions_ok (tr ++ [l]) reg' chans next (delete k conns).
Proof.
  intros [Hf Hu Hc Hq Hs Ht Hh Hm Ho] Hk Es Et.
  assert (Hsame : ∀ k' id m, serves (delete k conns) k' id m ↔ serves conns k' id m).
  { intros k' id m. unfold serves. destruct (decide (k' = k)) as [->|].
    - rewrite lookup_delete_eq, Hk. naive_solver.
    - by rewrite lookup_delete_ne. }
  split; rewrite ?Es, ?Et; try setoid_rewrite Hsame; try done.
  - by apply queues_mono.
  - intros k' id n H. by eapply authenticated_mono, Hm.
  - intros k' ip' s [_ H]%lookup_delete_Some. by eapply out_mono, Ho.
Qed.

(** A running tag session replaces its registrations. *)
Lemma sessions_register tr l reg chans next conns reg' chans' k ip s s' current tags :
  sessions_ok tr reg chans next conns →
  conns !! k = Some (mkConn ip (Running s)) → s_mode s = Tags current →
  register_tags reg chans (s_id s) (s_id s) current tags = (reg', chans') →
  s_id s' = s_id s → s_mode s' = Tags tags → s_out s' = [] →
  sessions_ok (tr ++ [l]) reg' chans' next (<[k := mkConn ip (Running s')]> conns).
Proof.
  intros H Hk Hm E Hid' Hm' Hout.
  destruct (register_tags_effect _ _ _ _ _ _ _ (inv_tags _ _ _ _ _ H) E)
    as (Hwf & _ & _ & Hgone & Hold & Es & _ & _ & Hd & Ha).
  assert (Hserve : serves conns k (s_id s) (Tags current)).
  { apply (serves_at _ _ _ _ _ Hk). simpl. by rewrite Hm. }
  assert (Hkind : ∀ k' id, (∃ m, serves (<[k := mkConn ip (Running s')]> conns) k' id m)
    ↔ ∃ m, serves conns k' id m).
  { intros k' id. setoid_rewrite serves_insert. destruct (decide (k' = k)) as [->|]; [|naive_solver].
    setoid_rewrite (serves_at _ _ _ _ _ Hk). simpl. rewrite Hid'. naive_solver. }
  eapply sessions_step; [done|lia|..].
  - simpl. rewrite Hid'. intros id m [= <- <-]. split; [by eapply inv_fresh|eauto].
  - intros id. rewrite Hd, (inv_chans _ _ _ _ _ H). by setoid_rewrite Hkind.
  - apply Ha; [apply superseded_relayed|]. by eapply queues_mono, inv_queues.
  - rewrite Es. intros n ch Hn. apply (inv_sessions _ _ _ _ _ H) in Hn as [k' Hk'].
    exists k'. apply serves_insert. right. split; [|done]. intros ->.
    destruct (serves_fun _ _ _ _ _ _ Hk' Hserve). done.
  - done.
  - intros t id Hh. setoid_rewrite serves_insert. destruct (decide (id = s_id s)) as [->|Hid].
    + exists k, tags. split; [left; simpl; by rewrite Hid', Hm'|]. destruct (Hold _ _ Hh) as [[_ ?]|Hh0]; [done|].
      apply (inv_holders _ _ _ _ _ H) in Hh0 as (k' & ts & Hk' & Ht).
      assert (k' = k) as -> by (by eapply inv_unique).
      destruct (serves_fun _ _ _ _ _ _ Hk' Hserve) as [_ [= ->]].
      destruct (decide (t ∈ tags)); [done|]. by eapply Hgone in Hh.
    + destruct (Hold _ _ Hh) as [[? _]|Hh0]; [done|].
      apply (inv_holders _ _ _ _ _ H) in Hh0 as (k' & ts & Hk' & Ht).
      exists k', ts. split; [|done]. right. split; [|done]. intros ->.
      destruct (serves_fun _ _ _ _ _ _ Hk' Hserve). congruence.
  - simpl. rewrite Hm'. done.
  - simpl. intros s0 [= <-]. by rewrite Hout.
Qed.

(** A pending connection becomes session [next]. *)
Lemma sessions_open tr l reg chans next conns reg' chans' k c p :
  sessions_ok tr reg chans next conns → conns !! k = Some c → active (c_phase c) = None →
  ∀ m, active p = Some (next, m) → (∀ s, p = Running s → s_out s = []) →
  (∀ n, m = Identity n → authenticated (tr ++ [l]) n) →
  (∀ n ch, reg_sessions reg' !! n = Some ch →
     (ch = next ∧ m = Identity n) ∨ reg_sessions reg !! n = Some ch) →
  tags_wf (reg_tags reg') →
  (∀ t id, holds_tag (reg_tags reg') t id →
     (id = next ∧ ∃ ts, m = Tags ts ∧ t ∈ ts) ∨ holds_tag (reg_tags reg) t id) →
  dom chans' = {[next]} ∪ dom chans → chans_all (relayed (tr ++ [l])) chans' →
  sessions_ok (tr ++ [l]) reg' chans' (next + 1) (<[k := mkConn (c_ip c) p]> conns).
Proof.
  intros H Hk Hi m Hp Hout Hau Hs Hwf Ht Hd Hq.
  assert (Hnot : ∀ id m', ¬ serves conns k id m').
  { intros id m'. rewrite (serves_at _ _ _ _ _ Hk). congruence. }
  assert (Hserve : ∀ k' id m', serves (<[k := mkConn (c_ip c) p]> conns) k' id m' ↔
    (k' = k ∧ id = next ∧ m' = m) ∨ serves conns k' id m').
  { intros k' id m'. rewrite serves_insert. simpl. rewrite Hp. split; [naive_solver|].
    intros [(-> & -> & ->)|Hs']; [by left|right]. split; [|done]. intros ->. by apply Hnot in Hs'. }
  eapply sessions_step; [done|lia|..]; try setoid_rewrite Hserve; try done.
  - simpl. rewrite Hp. intros id m' [= <- <-]. split; [lia|]. right. intros k' m' Hs'.
    apply (inv_fresh _ _ _ _ _ H) in Hs'. lia.
  - intros id. rewrite Hd, elem_of_union, elem_of_singleton, (inv_chans _ _ _ _ _ H). naive_solver.
  - intros n ch Hn. apply Hs in Hn as [[-> ->]|Hn]; [by eauto|].
    apply (inv_sessions _ _ _ _ _ H) in Hn as [k' Hk']. eauto.
  - intros t id Hh. apply Ht in Hh as [(-> & ts & -> & Hin)|Hh]; [by eauto 7|].
    apply (inv_holders _ _ _ _ _ H) in Hh as (k' & ts & Hk' & Hin). eauto 6.
  - simpl. rewrite Hp. intros id n [= <- ->]. by apply Hau.
  - simpl. intros s ->. by rewrite Hout.
Qed.

(** What the cleanup of session [id] leaves: nothing of it, all of the others. *)
Lemma cleanup_effect tr reg chans next conns reg' chans' k id mode :
  sessions_ok tr reg chans next conns → serves conns k id mode →
  cleanup reg chans id mode = (reg', chans') →
  tags_wf (reg_tags reg') ∧ dom chans' = dom chans ∧
    (∀ n ch, reg_sessions reg' !! n = Some ch → reg_sessions reg !! n = Some ch ∧ ch ≠ id) ∧
    (∀ t id', holds_tag (reg_tags reg') t id' → holds_tag (reg_tags reg) t id' ∧ id' ≠ id) ∧
    (∀ P, P superseded → chans_all P chans → chans_all P chans').
Proof.
  intros H Hserve E.
  assert (Hmode : ∀ k' m', serves conns k' id m' → m' = mode).
  { intros k' m' Hs. assert (k' = k) as -> by (by eapply inv_unique).
    by destruct (serves_fun _ _ _ _ _ _ Hs Hserve). }
  assert (Hsess : ∀ n, reg_sessions reg !! n = Some id → mode = Identity n).
  { intros n Hn. apply (inv_sessions _ _ _ _ _ H) in Hn as [k' Hk']. symmetry. by eapply Hmode. }
  assert (Hhold : ∀ t, holds_tag (reg_tags reg) t id → ∃ ts, mode = Tags ts ∧ t ∈ ts).
  { intros t Hh. apply (inv_holders _ _ _ _ _ H) in Hh as (k' & ts & Hk' & Hin).
    exists ts. split; [symmetry; by eapply Hmode|done]. }
  unfold cleanup in E. destruct mode as [n|current].
  - injection E as <- <-. split_and!; [case_bool_decide; apply H|done| | |done].
    + intros n' ch Hn. case_bool_decide as D; simpl in Hn.
      * apply lookup_delete_Some in Hn as [Hne Hn]. split; [done|]. intros ->.
        apply Hsess in Hn. congruence.
      * split; [done|]. intros ->. pose proof (Hsess _ Hn) as [= <-]. done.
    + intros t id' Hh. assert (Hh' : holds_tag (reg_tags reg) t id') by by case_bool_decide.
      split; [done|]. intros ->. by apply Hhold in Hh' as (? & ? & _).
  - destruct (register_tags_effect _ _ _ _ _ _ _ (inv_tags _ _ _ _ _ H) E)
      as (Hwf & _ & _ & Hgone & Hold & Es & _ & _ & Hd & Ha). split_and!; [done|done| | |done].
    + rewrite Es. intros n ch Hn. split; [done|]. intros ->. by apply Hsess in Hn.
    + intros t id' Hh. destruct (Hold _ _ Hh) as [[_ Hin]|Hh0]; [set_solver|]. split; [done|].
      intros ->. apply Hhold in Hh0 as (ts & [= <-] & Hin). eapply Hgone; [done| |done]. set_solver.
Qed.

(** The cleanup of a session that ended. *)
Lemma sessions_close tr l reg chans next conns reg' chans' k ip id mode :
  sessions_ok tr reg chans next conns →
  conns !! k = Some (mkConn ip (Ended id mode)) →
  cleanup reg chans id mode = (reg', chans') →
  sessions_ok (tr ++ [l]) reg' (delete id chans') next (<[k := mkConn ip Returned]> conns).
Proof.
  intros H Hk E.
  assert (Hserve : serves conns k id mode) by by apply (serves_at _ _ _ _ _ Hk).
  assert (Hserve' : ∀ k' id' m', serves (<[k := mkConn ip Returned]> conns) k' id' m' ↔
    id' ≠ id ∧ serves conns k' id' m').
  { intros k' id' m'. rewrite serves_insert. simpl. split.
    - intros [[_ [=]]|[Hne Hs]]. split; [|done]. intros ->. apply Hne. by eapply inv_unique.
    - intros [Hne Hs]. right. split; [|done]. intros ->.
      by destruct (serves_fun _ _ _ _ _ _ Hs Hserve). }
  destruct (cleanup_effect _ _ _ _ _ _ _ _ _ _ H Hserve E) as (Hwf & Hd & Hs & Hh & Ha).
  eapply sessions_step; [done|lia|..]; try setoid_rewrite Hserve'; try done.
  - intros id'. rewrite dom_delete_L, elem_of_difference, elem_of_singleton, Hd.
    rewrite (inv_chans _ _ _ _ _ H). naive_solver.
  - intros c q Hq. apply lookup_delete_Some in Hq as [_ Hq]. revert c q Hq. apply Ha.
    + apply superseded_relayed.
    + by eapply queues_mono, inv_queues.
  - intros n ch Hn. apply Hs in Hn as [Hn Hne]. apply (inv_sessions _ _ _ _ _ H) in Hn as [k' Hk']. eauto.
  - intros t id' Ht. apply Hh in Ht as [Ht Hne].
    apply (inv_holders _ _ _ _ _ H) in Ht as (k' & ts & Hk' & Hin). eauto 6.
Qed.

(** *** The steps *)

Lemma decode_binary_wf m f : decode_binary m = Some f → Frame_wf f.
Proof.
  unfold decode_binary, run_opt. destruct m; try done. destruct (Frame_decode bytes) as [o|] eqn:E; [|done].
  intros ->. by apply encode_decode in E as [? _].
Qed.

(** What a session may put up for delivery. *)
Definition own_frame (m : Mode) (f : Frame) : Prop :=
  Frame_wf f ∧
  match f, m with
  | Recv source _, Identity n => source = n
  | RecvTag _ _, Tags _ => True
  | _, _ => False
  end.

(** A turn either replaces the registrations of a tag session, or leaves the
    registry alone. *)
Definition quiet_turn (s : Session) (reg : Registry) (chans : Chans) (t : Turn) : Prop :=
  t_reg t = reg ∧ s_id (t_session t) = s_id s ∧ s_mode (t_session t) = s_mode s ∧
  dom (t_chans t) = dom chans ∧ (∀ P, chans_all P chans → chans_all P (t_chans t)) ∧
  Forall (λ o, own_frame (s_mode s) o.2) (s_out (t_session t)).

Definition register_turn (s : Session) (reg : Registry) (chans : Chans) (t : Turn) : Prop :=
  ∃ current next, s_mode s = Tags current ∧
    register_tags reg chans (s_id s) (s_id s) current next = (t_reg t, t_chans t) ∧
    s_id (t_session t) = s_id s ∧ s_mode (t_session t) = Tags next ∧ s_out (t_session t) = [] ∧
    t_end t = None.

Lemma quiet_same s reg chans s' sent e :
  s_id s' = s_id s → s_mode s' = s_mode s → Forall (λ o, own_frame (s_mode s) o.2) (s_out s') →
  quiet_turn s reg chans (mkTurn s' reg chans sent e).
Proof. done. Qed.

Lemma on_frame_turn s reg chans f now io_ok :
  Frame_wf f → s_out s = [] →
  quiet_turn s reg chans (on_frame s reg chans f now io_ok) ∨
  register_turn s reg chans (on_frame s reg chans f now io_ok).
Proof.
  intros Hf Ho. assert (Hn : Forall (λ o, own_frame (s_mode s) o.2) (s_out s)) by by rewrite Ho.
  destruct f; cbn [on_frame]; try (left; by apply quiet_same); cbn [Frame_wf] in Hf.
  - unfold on_send. destruct (s_mode s) as [n|ts] eqn:Em; [|left; apply quiet_same; rewrite ?Ho; done].
    left. destruct (ByteBudget_allow _ _ _) as [[] b]; cbn [negb].
    + destruct (reg_sessions reg !! destination); apply quiet_same; simpl; rewrite ?Ho, ?Em; try done.
      by apply Forall_singleton.
    + apply quiet_same; simpl; rewrite ?Ho; done.
  - unfold on_register. destruct (s_mode s) as [n|ts] eqn:Em; [left; apply quiet_same; rewrite ?Ho; done|].
    right. destruct (register_tags _ _ _ _ _ _) as [reg' chans'] eqn:E.
    exists ts, tags. split_and!; done.
  - unfold on_send_tag. destruct (s_mode s) as [n|ts] eqn:Em; [left; apply quiet_same; rewrite ?Ho; done|].
    left. destruct (ByteBudget_allow _ _ _) as [[] b]; cbn [negb].
    + case_bool_decide; apply quiet_same; simpl; rewrite ?Ho, ?Em; try done.
      apply Forall_fmap, Forall_true. intros c. done.
    + apply quiet_same; simpl; rewrite ?Ho; done.
  - left. destruct io_ok; by apply quiet_same.
Qed.

Lemma on_outbound_turn s reg chans io_ok t :
  s_out s = [] → on_outbound s reg chans io_ok = Some t → quiet_turn s reg chans t.
Proof.
  intros Ho. unfold on_outbound. destruct (chans !! s_id s) as [[|f q]|] eqn:E; [done| |].
  - intros [= <-]. assert (Hd : dom (<[s_id s := q]> chans) = dom chans)
      by (apply dom_insert_lookup_L; eauto).
    assert (Ha : ∀ P, chans_all P chans → chans_all P (<[s_id s := q]> chans)).
    { intros P HP c q'. rewrite lookup_insert_Some. intros [[<- <-]|[_ Hq]]; [|by apply HP in Hq].
      apply HP in E as [? Hf%Forall_cons]. simpl in *. split; [lia|apply Hf]. }
    destruct io_ok; split_and!; simpl; try done; by rewrite Ho.
  - intros [= <-]. apply quiet_same; [done..|by rewrite Ho].
Qed.

Lemma on_event_turn s reg chans ev t :
  s_out s = [] → on_event s reg chans ev = Some t →
  quiet_turn s reg chans t ∨ register_turn s reg chans t.
Proof.
  intros Ho. assert (Hn : Forall (λ o, own_frame (s_mode s) o.2) (s_out s)) by by rewrite Ho.
  destruct ev as [|now|io_ok|inc now io_ok]; cbn [on_event].
  - intros [= <-]. left. by apply quiet_same.
  - intros [= <-]. left. split_if; by apply quiet_same.
  - intros H. left. by eapply on_outbound_turn.
  - intros [= <-]. unfold on_incoming. destruct inc as [[[bytes|p|p| |]|]|];
      try (left; by apply quiet_same).
    + destruct (decode_binary _) as [f|] eqn:E; [|left; by apply quiet_same].
      apply decode_binary_wf in E.
      destruct (on_frame_turn (add_frame_in s) reg chans f now io_ok E Ho) as [H|H]; [left|right]; exact H.
    + left. destruct io_ok; by apply quiet_same.
Qed.

Lemma own_relayed tr (m : Mode) f :
  (∀ n, m = Identity n → authenticated tr n) → own_frame m f → relayed tr f.
Proof. intros Ha [Hw Hf]. split; [done|]. destruct f, m; try done. subst. by apply Ha. Qed.

Lemma first_frame_refused reg chans sid ch first reg' chans' :
  first_frame cfg reg chans sid ch first = (reg', chans', None) → reg' = reg ∧ chans' = chans.
Proof.
  unfold first_frame. destruct (decode_binary first) as [[]|]; try (by intros [= <- <-]).
  - split_if; [done|]. by intros [= <- <-].
  - case_bool_decide; [by intros [= <- <-]|]. by destruct (register_tags _ _ _ _ _ _).
Qed.

Lemma first_frame_accepted tr k reg chans sid ch first reg' chans' m :
  tags_wf (reg_tags reg) → first_frame cfg reg chans sid ch first = (reg', chans', Some m) →
  (∀ n, m = Identity n → authenticated (tr ++ [LFirst k ch (Some first)]) n) ∧
  (∀ n c, reg_sessions reg' !! n = Some c →
     (c = sid ∧ m = Identity n) ∨ reg_sessions reg !! n = Some c) ∧
  tags_wf (reg_tags reg') ∧
  (∀ t id, holds_tag (reg_tags reg') t id →
     (id = sid ∧ ∃ ts, m = Tags ts ∧ t ∈ ts) ∨ holds_tag (reg_tags reg) t id) ∧
  reg_live reg' = reg_live reg ∧ reg_by_source reg' = reg_by_source reg ∧
  dom chans' = dom chans ∧ (∀ P, P superseded → chans_all P chans → chans_all P chans').
Proof.
  intros Hwf. unfold first_frame.
  destruct (decode_binary first) as [[]|] eqn:Ed; try done.
  - destruct (existsb _ _) eqn:Ev; [|done]. intros [= <- <- <-]. cbn [reg_sessions reg_tags reg_live reg_by_source].
    split_and!; [| |done|by right|done|done|..].
    + intros n [= <-]. apply existsb_exists in Ev as (host & Hin & Hv).
      exists k, ch, first, signature, host. split_and!; [set_solver|done|by apply list_elem_of_In|done].
    + intros n c. rewrite lookup_insert_Some. naive_solver.
    + case_match; [apply try_send_ignore_dom|done].
    + intros P HP HA. case_match; [by apply try_send_ignore_all|done].
  - case_bool_decide; [done|]. destruct (register_tags _ _ _ _ _ _) as [reg1 chans1] eqn:E.
    intros [= <- <- <-].
    destruct (register_tags_effect _ _ _ _ _ _ _ Hwf E) as (? & _ & _ & _ & Ho & Es & ? & ? & ? & ?).
    split_and!; try done; [by rewrite Es; right|]. intros t id [[-> ?]|?]%Ho; [left; eauto|by right].
Qed.

Lemma insert_empty_queue P (chans : Chans) id : chans_all P chans → chans_all P (<[id := []]> chans).
Proof.
  intros H c q. rewrite lookup_insert_Some. intros [[<- <-]|[_ Hq]]; [|by apply H in Hq].
  simpl. split; [lia|constructor].
Qed.

Lemma deliver_effect s chans s' chans' P :
  deliver s chans = Some (s', chans') → Forall (λ o, P o.2) (s_out s) → chans_all P chans →
  s_id s' = s_id s ∧ s_mode s' = s_mode s ∧ Forall (λ o, P o.2) (s_out s') ∧
  dom chans' = dom chans ∧ chans_all P chans'.
Proof.
  unfold deliver. destruct (s_out s) as [|[c f] rest]; [done|].
  intros E [Hf Hr]%Forall_cons Hq. destruct (try_send chans c f) eqn:Et; injection E as <- <-; simpl.
  - split_and!; [done..|by eapply try_send_dom|by eapply try_send_all].
  - by split_and!.
Qed.

(** *** Every step preserves the invariant *)

Lemma relay_step_counts tr r l r' :
  relay_inv tr r → step cfg r l r' → counts_ok (r_reg r') (r_conns r').
Proof.
  intros [Hc Hs] St. destruct St as [r k ip ch reg' Hk Ha|r k ip ch Hk|r k ip ch f reg' chans' Hk Hf
    |r k ip ch f reg' chans' m now io Hk Hf|r k ip s ev t Hk Ho Hev|r k ip s s' chans' Hk Hd
    |r k ip id m reg' chans' Hk Hcl|r k ip reg' Hk Hl]; cbn [r_reg r_conns].
  - by eapply accept_counts.
  - by eapply counts_phase.
  - apply first_frame_refused in Hf as [-> ->]. by eapply counts_phase.
  - destruct (first_frame_accepted tr k _ _ _ _ _ _ _ _ (inv_tags _ _ _ _ _ Hs) Hf)
      as (_ & _ & _ & _ & ? & ? & _). by eapply counts_phase.
  - destruct (on_event_turn _ _ _ _ _ Ho Hev) as [(-> & _)|(cur & nx & _ & E & _)];
      [by eapply counts_phase|].
    destruct (register_tags_effect _ _ _ _ _ _ _ (inv_tags _ _ _ _ _ Hs) E) as (_&_&_&_&_&_&?&?&_).
    by eapply counts_phase.
  - by eapply counts_phase.
  - assert (reg_live reg' = reg_live (r_reg r) ∧ reg_by_source reg' = reg_by_source (r_reg r)) as [? ?].
    { unfold cleanup in Hcl. destruct m; [injection Hcl as <- _; by case_bool_decide|].
      by destruct (register_tags_effect _ _ _ _ _ _ _ (inv_tags _ _ _ _ _ Hs) Hcl)
        as (_&_&_&_&_&_&?&?&_). }
    by eapply counts_phase.
  - destruct (leave_counts _ _ _ _ _ Hc Hk) as (reg1 & E & Hc' & _). rewrite Hl in E. by injection E as <-.
Qed.

(** A turn of a running session. *)
Lemma event_sessions tr l r k ip s ev t :
  relay_inv tr r → r_conns r !! k = Some (mkConn ip (Running s)) → s_out s = [] →
  on_event s (r_reg r) (r_chans r) ev = Some t →
  sessions_ok (tr ++ [l]) (t_reg t) (t_chans t) (r_next r)
    (<[k := mkConn ip (phase_after t)]> (r_conns r)).
Proof.
  intros [_ Hs] Hk Ho Hev.
  destruct (on_event_turn _ _ _ _ _ Ho Hev) as [(-> & Hid & Hm & Hdom & Hall & Hout)|H].
  - eapply sessions_keep; [exact Hs|..]; try done.
    + intros id m. rewrite (serves_at _ _ _ _ _ Hk). unfold phase_after.
      destruct (t_end t); simpl; by rewrite Hid, Hm.
    + by eapply Hall, queues_mono, inv_queues.
    + unfold phase_after. destruct (t_end t); simpl; [done|]. intros s' [= <-].
      eapply Forall_impl; [exact Hout|]. intros o. apply own_relayed. intros n Hn.
      eapply authenticated_mono, (inv_modes _ _ _ _ _ Hs k (s_id s)).
      apply (serves_at _ _ _ _ _ Hk). simpl. by rewrite Hn.
  - destruct H as (cur & nx & Hm & E & Hid & Hm' & Hout & He). unfold phase_after. rewrite He.
    by eapply sessions_register.
Qed.

Lemma relay_step_sessions tr r l r' :
  relay_inv tr r → step cfg r l r' →
  sessions_ok (tr ++ [l]) (r_reg r') (r_chans r') (r_next r') (r_conns r').
Proof.
  intros Hinv St. pose proof (inv_sess _ _ Hinv) as Hs.
  destruct St as [r k ip ch reg' Hk Ha|r k ip ch Hk|r k ip ch f reg' chans' Hk Hf
    |r k ip ch f reg' chans' m now io Hk Hf|r k ip s ev t Hk Ho Hev|r k ip s s' chans' Hk Hd
    |r k ip id m reg' chans' Hk Hcl|r k ip reg' Hk Hl]; cbn [r_reg r_chans r_next r_conns].
  - unfold accept in Ha. split_if_in Ha. cbv zeta in Ha. split_if_in Ha. injection Ha as <-.
    eapply sessions_keep; [exact Hs|..]; try done; [|by eapply queues_mono, inv_queues].
    intros id m. split; [intros H; by apply serves_none in H|done].
  - eapply sessions_keep; [exact Hs|..]; try done; [|by eapply queues_mono, inv_queues].
    intros id m. by rewrite (serves_at _ _ _ _ _ Hk).
  - apply first_frame_refused in Hf as [-> ->].
    rewrite delete_insert_id; [|apply not_elem_of_dom; intros (k' & m & H)%(inv_chans _ _ _ _ _ Hs);
      apply (inv_fresh _ _ _ _ _ Hs) in H; lia].
    eapply sessions_keep; [exact Hs|..]; try done; [|lia|by eapply queues_mono, inv_queues].
    intros id m. by rewrite (serves_at _ _ _ _ _ Hk).
  - destruct (first_frame_accepted tr k _ _ _ _ _ _ _ _ (inv_tags _ _ _ _ _ Hs) Hf)
      as (? & ? & ? & ? & _ & _ & Hdom & Hall).
    eapply (sessions_open _ _ _ _ _ _ _ _ _ _ _ Hs Hk); try done.
    + by destruct io.
    + destruct io; [by intros s [= <-]|done].
    + rewrite Hdom. apply dom_insert_L.
    + apply Hall; [apply superseded_relayed|].
      by apply insert_empty_queue, queues_mono, (inv_queues _ _ _ _ _ Hs).
  - by eapply event_sessions.
  - destruct (deliver_effect _ _ _ _ (relayed tr) Hd) as (Hid & Hm & Hout & Hdom & Hq);
      [by eapply (inv_out _ _ _ _ _ Hs)|by eapply inv_queues|].
    eapply sessions_keep; [exact Hs|..]; try done; [|by apply queues_mono|].
    + intros id m. rewrite (serves_at _ _ _ _ _ Hk). simpl. by rewrite Hid, Hm.
    + simpl. intros s0 [= <-]. by apply out_mono.
  - by eapply sessions_close.
  - destruct (leave_counts _ _ _ _ _ (inv_counts _ _ Hinv) Hk) as (reg1 & E & _ & Es & Et).
    rewrite Hl in E. injection E as <-. by eapply sessions_delete.
Qed.

Lemma relay_init_inv : relay_inv [] Relay_init.
Proof.
  split; split; cbn [Relay_init r_reg r_chans r_next r_conns Registry_default reg_live
    reg_by_source reg_sessions reg_tags]; unfold from_source.
  - by rewrite map_size_empty.
  - intros ip. by rewrite map_filter_empty, map_size_empty.
  - rewrite map_size_empty. lia.
  - intros ip _. rewrite map_filter_empty, map_size_empty. lia.
  - intros k id m (c & Hc & _). by rewrite lookup_empty in Hc.
  - intros k k' id m m' (c & Hc & _). by rewrite lookup_empty in Hc.
  - intros id. rewrite dom_empty_L. split; [set_solver|]. intros (k & m & c & Hc & _).
    by rewrite lookup_empty in Hc.
  - intros c q Hq. by rewrite lookup_empty in Hq.
  - intros n c Hn. by rewrite lookup_empty in Hn.
  - intros t es Ht. by rewrite lookup_empty in Ht.
  - intros t id (es & Ht & _). by rewrite lookup_empty in Ht.
  - intros k id n (c & Hc & _). by rewrite lookup_empty in Hc.
  - intros k ip s Hk. by rewrite lookup_empty in Hk.
Qed.

(** The invariant holds in every reachable state. *)
Lemma reach_inv tr r : reach cfg tr r → relay_inv tr r.
Proof.
  induction 1 as [|tr r l r' _ IH St]; [apply relay_init_inv|].
  split; [by eapply relay_step_counts|by eapply relay_step_sessions].
Qed.

(** *** Draining *)

(** Steps taken from a state, none of which accepts a connection. *)
Inductive closing : Relay → list Label → Relay → Prop :=
  | closing_nil r : closing r [] r
  | closing_cons r l r1 tr r2 :
      step cfg r l r1 → (∀ k ip, l ≠ LAccept k ip) → closing r1 tr r2 → closing r (l :: tr) r2.

Lemma reach_closing tr r tr' r' : reach cfg tr r → closing r tr' r' → reach cfg (tr ++ tr') r'.
Proof.
  intros H Hc. revert tr H. induction Hc as [r|r l r1 tr' r2 St _ _ IH]; intros tr H; [by rewrite app_nil_r|].
  change (l :: tr') with ([l] ++ tr'). rewrite app_assoc. apply IH. by eapply reach_step.
Qed.

Lemma closing_app r tr r1 tr' r2 : closing r tr r1 → closing r1 tr' r2 → closing r (tr ++ tr') r2.
Proof. induction 1; intros; [done|]. cbn. econstructor; eauto. Qed.

(** [k] can always run to completion on its own. *)
Definition drains (r : Relay) (k : nat) : Prop :=
  ∃ tr r', closing r tr r' ∧ r_conns r' = delete k (r_conns r).

Lemma drain_returned tr r k ip :
  reach cfg tr r → r_conns r !! k = Some (mkConn ip Returned) → drains r k.
Proof.
  intros H Hk. destruct (leave_counts _ _ _ _ _ (inv_counts _ _ (reach_inv _ _ H)) Hk) as (reg' & E & _).
  eexists _, _. split; [|shelve]. eapply closing_cons; [exact (step_leave cfg r k ip reg' Hk E)|done|constructor].
  Unshelve. done.
Qed.

(** Add the step [St] of connection [k], then go on with [next]. *)
Lemma drain_step tr r l r1 k c :
  reach cfg tr r → step cfg r l r1 → (∀ k ip, l ≠ LAccept k ip) → r_conns r1 = <[k := c]> (r_conns r) →
  (∀ tr1, reach cfg tr1 r1 → drains r1 k) → drains r k.
Proof.
  intros H St Hl Ec Hn. destruct (Hn (tr ++ [l])) as (tr' & r' & Hr & Hd); [by eapply reach_step|].
  exists (l :: tr'), r'. split; [by eapply closing_cons|]. by rewrite Hd, Ec, delete_insert_eq.
Qed.

Lemma drain_ended tr r k ip id m :
  reach cfg tr r → r_conns r !! k = Some (mkConn ip (Ended id m)) → drains r k.
Proof.
  intros H Hk. destruct (cleanup (r_reg r) (r_chans r) id m) as [reg' chans'] eqn:E.
  eapply drain_step; [done|by eapply step_cleanup|done|done|].
  intros tr1 H1. eapply drain_returned; [done|]. simpl. apply lookup_insert_eq.
Qed.

Lemma drain_running tr r k ip s :
  reach cfg tr r → r_conns r !! k = Some (mkConn ip (Running s)) → drains r k.
Proof.
  remember (s_out s) as out eqn:Ho. revert tr r s Ho.
  induction out as [|[c f] out IH]; intros tr r s Ho H Hk.
  - eapply drain_step; [done|by eapply (step_event cfg r k ip s EvStop)|done|done|].
    intros tr1 H1. eapply drain_ended; [done|]. simpl. apply lookup_insert_eq.
  - destruct (deliver s (r_chans r)) as [[s' chans']|] eqn:E;
      [|unfold deliver in E; rewrite <- Ho in E; by destruct (try_send _ _ _)].
    eapply drain_step; [done|by eapply step_deliver|done|done|].
    intros tr1 H1. eapply IH; [|done|simpl; apply lookup_insert_eq].
    unfold deliver in E. rewrite <- Ho in E. destruct (try_send _ _ _); by injection E as <- _.
Qed.

Lemma drain_conn tr r k c : reach cfg tr r → r_conns r !! k = Some c → drains r k.
Proof.
  intros H Hk. destruct c as [ip [ch|s|id m|]]; [|by eapply drain_running|by eapply drain_ended
    |by eapply drain_returned].
  eapply drain_step; [done|by eapply step_first_none|done|done|].
  intros tr1 H1. eapply drain_returned; [done|]. simpl. apply lookup_insert_eq.
Qed.

Lemma drain_all tr r : reach cfg tr r → ∃ tr' r', closing r tr' r' ∧ r_conns r' = ∅.
Proof.
  remember (size (r_conns r)) as n eqn:Hn. revert tr r Hn.
  induction n as [|n IH]; intros tr r Hn H.
  { exists [], r. split; [constructor|]. by apply map_size_empty_inv. }
  destruct (map_choose (r_conns r)) as (k & c & Hk); [intros E; rewrite E, map_size_empty in Hn; lia|].
  destruct (drain_conn _ _ _ _ H Hk) as (tr1 & r1 & H1 & Hd).
  destruct (IH (tr ++ tr1) r1) as (tr2 & r2 & H2 & He); [|by eapply reach_closing|].
  { rewrite Hd, map_size_delete_Some by eauto. lia. }
  exists (tr1 ++ tr2), r2. split; [by eapply closing_app|done].
Qed.

Lemma no_conns_empty tr r :
  relay_inv tr r → r_conns r = ∅ →
  reg_sessions (r_reg r) = ∅ ∧ reg_tags (r_reg r) = ∅ ∧ reg_by_source (r_reg r) = ∅ ∧
  reg_live (r_reg r) = 0%nat ∧ r_chans r = ∅.
Proof.
  intros [Hc Hs] E. assert (Hno : ∀ k id m, ¬ serves (r_conns r) k id m).
  { intros k id m (c & Hk & _). by rewrite E, lookup_empty in Hk. }
  split_and!.
  - apply map_empty. intros n. apply eq_None_not_Some. intros [c Hn].
    apply (inv_sessions _ _ _ _ _ Hs) in Hn as [k Hk]. by apply Hno in Hk.
  - apply map_empty. intros t. apply eq_None_not_Some. intros [es Ht].
    destruct es as [|e es]; [by apply (inv_tags _ _ _ _ _ Hs) in Ht as []|].
    destruct (inv_holders _ _ _ _ _ Hs t e.1) as (k & ts & Hk & _); [|by apply Hno in Hk].
    exists (e :: es). split; [done|]. simpl. set_solver.
  - apply map_empty. intros ip. rewrite (inv_source _ _ Hc). unfold from_source.
    by rewrite E, map_filter_empty, map_size_empty.
  - by rewrite (inv_live _ _ Hc), E, map_size_empty.
  - apply dom_empty_inv_L, elem_of_equiv_empty_L. intros id (k & m & Hk)%(inv_chans _ _ _ _ _ Hs).
    by apply Hno in Hk.
Qed.

(** C21: in every reachable state of the relay, whatever the interleaving,
    every registration belongs to a live session of the right mode: a node ID
    maps to a session that authenticated it, a tag to one or two distinct
    sessions whose current set contains it, and the outbound queues are exactly
    those of the live sessions.  When the last connection has left, nothing of
    it remains. *)
Theorem relay_no_ghost_registrations tr r (H : reach cfg tr r) :
  (∀ n c, reg_sessions (r_reg r) !! n = Some c →
     (∃ k, serves (r_conns r) k c (Identity n)) ∧ authenticated tr n) ∧
  tags_wf (reg_tags (r_reg r)) ∧
  (∀ t id, holds_tag (reg_tags (r_reg r)) t id →
     ∃ k ts, serves (r_conns r) k id (Tags ts) ∧ t ∈ ts) ∧
  (∀ id, id ∈ dom (r_chans r) ↔ ∃ k m, serves (r_conns r) k id m) ∧
  (r_conns r = ∅ → r_reg r = Registry_default ∧ r_chans r = ∅).
Proof.
  apply reach_inv in H as Hinv. pose proof (inv_sess _ _ Hinv) as Hs. split_and!; try apply Hs.
  - intros n c Hn. apply (inv_sessions _ _ _ _ _ Hs) in Hn as [k Hk]. split; [by exists k|].
    by eapply inv_modes.
  - intros E. destruct (no_conns_empty _ _ Hinv E) as (? & ? & ? & ? & ?). split; [|done].
    destruct (r_reg r); simpl in *; by subst.
Qed.

(** C38: the caps hold in every reachable state: the live counter is the number
    of connections and never above the session cap, each source address is
    counted exactly and never above the per-source cap when one is set, no
    session's queue holds more than 64 frames, and the counters never underflow
    when a connection leaves. *)
Theorem relay_caps tr r (H : reach cfg tr r) :
  reg_live (r_reg r) = size (r_conns r) ∧ (size (r_conns r) ≤ cfg_max_sessions cfg)%nat ∧
  (∀ ip, default 0%nat (reg_by_source (r_reg r) !! ip) = size (from_source (r_conns r) ip)) ∧
  (∀ ip, (0 < cfg_max_sessions_per_source cfg)%nat →
     (size (from_source (r_conns r) ip) ≤ cfg_max_sessions_per_source cfg)%nat) ∧
  (∀ c q, r_chans r !! c = Some q → (length q ≤ MAX_QUEUED_FRAMES)%nat) ∧
  (∀ k ip p, r_conns r !! k = Some (mkConn ip p) → ∃ reg', leave (r_reg r) ip = Ret reg').
Proof.
  apply reach_inv in H as [Hc Hs]. split_and!; try apply Hc.
  - intros ip. rewrite (inv_source _ _ Hc). case_decide; simpl; congruence.
  - intros c q Hq. by apply (inv_queues _ _ _ _ _ Hs) in Hq as [? _].
  - intros k ip p Hk. destruct (leave_counts _ _ _ _ _ Hc Hk) as (reg' & ? & _). by exists reg'.
Qed.

(** A source cannot be forged through the relay: in every reachable state
    each frame waiting for a session is well formed, and a [Recv] frame names a
    node that answered its own challenge with a signature verifying under that
    node ID for one of the relay's hosts. *)
Theorem relay_source_authentic tr r (H : reach cfg tr r) :
  ∀ c q f, r_chans r !! c = Some q → f ∈ q →
  Frame_wf f ∧ ∀ source d, f = Recv source d → authenticated tr source.
Proof.
  apply reach_inv in H as [_ Hs]. intros c q f Hq Hf.
  apply (inv_queues _ _ _ _ _ Hs) in Hq as [_ Hq]. eapply Forall_forall in Hq as [Hw Hr]; [|exact Hf].
  split; [done|]. by intros source d ->.
Qed.

(** From every reachable state the relay can drain: each connection can
    run its remaining steps to the end on its own, after which the registry,
    the counters and the queues are empty. *)
Theorem relay_can_drain tr r (H : reach cfg tr r) :
  ∃ tr' r', reach cfg (tr ++ tr') r' ∧ r_conns r' = ∅ ∧ r_reg r' = Registry_default ∧ r_chans r' = ∅.
Proof.
  destruct (drain_all _ _ H) as (tr' & r' & Hc & E). pose proof (reach_closing _ _ _ _ H Hc) as H'. exists tr', r'.
  destruct (no_conns_empty _ _ (reach_inv _ _ H') E) as (? & ? & ? & ? & ?).
  split_and!; try done. destruct (r_reg r'); simpl in *; by subst.
Qed.

End invariant.

(** A tag datagram is offered to exactly the other sessions that hold the
    tag at the time of the lookup, never to its sender, and an identity
    datagram to the session registered for its destination under the sender's
    own node ID; a frame of the other mode ends the session and routes nothing. *)
Theorem routing_targets s reg chans now :
  (∀ tag d c f, (c, f) ∈ s_out (t_session (on_send_tag (set_out s []) reg chans tag d now)) →
     f = RecvTag tag d ∧ ∃ es id, reg_tags reg !! tag = Some es ∧ (id, c) ∈ es ∧ id ≠ s_id s) ∧
  (∀ dest d c f, (c, f) ∈ s_out (t_session (on_send (set_out s []) reg chans dest d now)) →
     ∃ n, s_mode s = Identity n ∧ f = Recv n d ∧ reg_sessions reg !! dest = Some c) ∧
  (∀ tag d n, s_mode s = Identity n → t_end (on_send_tag s reg chans tag d now) ≠ None ∧
     t_reg (on_send_tag s reg chans tag d now) = reg) ∧
  (∀ dest d ts, s_mode s = Tags ts → t_end (on_send s reg chans dest d now) ≠ None ∧
     t_reg (on_send s reg chans dest d now) = reg).
Proof.
  split_and!.
  - intros tag d c f. unfold on_send_tag. simpl. destruct (s_mode s) as [n|ts]; [set_solver|].
    destruct (ByteBudget_allow _ _ _) as [[] b]; simpl; [|set_solver].
    case_bool_decide; simpl; [set_solver|].
    intros (c' & [= -> ->] & Hc)%list_elem_of_fmap. split; [done|]. unfold tag_targets in Hc.
    destruct (reg_tags reg !! tag) as [es|]; [|set_solver].
    apply list_elem_of_fmap in Hc as ([id c''] & -> & He).
    apply list_elem_of_filter in He as [Hne He]. by exists es, id.
  - intros dest d c f. unfold on_send. simpl. destruct (s_mode s) as [n|ts]; [|set_solver].
    destruct (ByteBudget_allow _ _ _) as [[] b]; simpl; [|set_solver].
    destruct (reg_sessions reg !! dest) as [c'|] eqn:E; simpl; [|set_solver].
    intros [= -> ->]%list_elem_of_singleton. by exists n.
  - intros tag d n E. unfold on_send_tag. by rewrite E.
  - intros dest d ts E. unfold on_send. by rewrite E.
Qed.

(** ** A concrete run *)

#[local] Existing Instance toy_crypto.

Definition ex_ip : IpAddr := V4 (pad_array 4 [Byte.x0a; Byte.x00; Byte.x00; Byte.x01]).
Definition ex_tag : Tag := mkTag (pad_array 16 (lit "tag")).
Definition ex_challenge : array 32 := pad_array 32 (lit "challenge").
Definition ex_register : Message := MBinary (Frame_encode (Register [ex_tag])).
Definition ex_trace : list Label :=
  [LAccept 0 ex_ip; LFirst 0 ex_challenge (Some ex_register)].

(** A tag session is accepted and registers. *)
Lemma ex_reach :
  ∃ r, reach RelayConfig_default ex_trace r ∧ holds_tag (reg_tags (r_reg r)) ex_tag 1.
Proof.
  eexists. split.
  - eapply (reach_step _ [LAccept 0 ex_ip]); [eapply (reach_step _ []); [constructor|]|].
    + apply (step_accept _ _ 0%nat ex_ip ex_challenge); [reflexivity|reflexivity].
    + eapply (step_first_ok _ _ 0%nat ex_ip ex_challenge ex_register _ _ _ 0 true);
        [reflexivity|].
      unfold first_frame, ex_register, decode_binary.
      rewrite decode_encode by (vm_compute; lia). reflexivity.
  - exists [(1, 1)]. split; [vm_compute; reflexivity|]. simpl. set_solver.
Qed.

Lemma relay_no_ghost_registrations_witness :
  ∃ r, reach RelayConfig_default ex_trace r ∧
    ∃ k ts, serves (r_conns r) k 1 (Tags ts) ∧ ex_tag ∈ ts.
Proof.
  destruct ex_reach as (r & Hr & Hh). exists r. split; [exact Hr|].
  destruct (relay_no_ghost_registrations RelayConfig_default ex_trace r Hr) as (_ & _ & H & _).
  exact (H ex_tag 1 Hh).
Defined.

Lemma relay_caps_witness :
  ∃ r, reach RelayConfig_default ex_trace r ∧ (size (r_conns r) ≤ 1024)%nat.
Proof.
  destruct ex_reach as (r & Hr & _). exists r. split; [exact Hr|].
  exact (proj1 (proj2 (relay_caps RelayConfig_default ex_trace r Hr))).
Defined.

Lemma relay_source_authentic_witness :
  ∃ r, reach RelayConfig_default ex_trace r ∧
    ∀ c q f, r_chans r !! c = Some q → f ∈ q → Frame_wf f.
Proof.
  destruct ex_reach as (r & Hr & _). exists r. split; [exact Hr|].
  intros c q f Hq Hf. exact (proj1 (relay_source_authentic RelayConfig_default ex_trace r Hr c q f Hq Hf)).
Defined.

Lemma relay_can_drain_witness :
  ∃ tr' r', reach RelayConfig_default (ex_trace ++ tr') r' ∧ r_conns r' = ∅.
Proof.
  destruct ex_reach as (r & Hr & _).
  destruct (relay_can_drain RelayConfig_default ex_trace r Hr) as (tr' & r' & H1 & H2 & _).
  exists tr', r'. split; [exact H1|exact H2].
Defined.

Lemma register_tags_replaces_witness :
  ∃ es, reg_tags (fst (register_tags Registry_default ∅ 7 7 [] [ex_tag])) !! ex_tag = Some es ∧
    (7 ∈ es.*1 ∨ (length es = TAG_ENDS ∧ Forall (λ e, 7 < e.1) es)).
Proof.
  destruct (register_tags_replaces Registry_default ∅ 7 [] [ex_tag]
    (fst (register_tags Registry_default ∅ 7 7 [] [ex_tag]))
    (snd (register_tags Registry_default ∅ 7 7 [] [ex_tag]))) as (_ & _ & H & _).
  - intros t es Ht. simpl in Ht. by rewrite lookup_empty in Ht.
  - reflexivity.
  - apply H. apply list_elem_of_singleton. reflexivity.
Defined.
