(* ===== verification/Paths.v ===== *)
(** * Paths: the path socket ([link-endpoint/src/path_socket.rs])

    The state shared by the path socket and the sessions above it, every
    operation on it, the direct receive task and the send routing.

    The UDP socket is present or not ([p_udp]); each datagram handed to it is
    appended to [p_log], and whether [try_send_to] succeeded is an input.  Clock
    reads and random nonces are inputs too.  The pool of relay drivers is the
    component [RelayClient]: the operations that ask it take the answers as
    arguments.  A takeover handle ([Notify]) is named by its session, and
    [in_notified] is the set of those signalled. *)

From S2P Require Import Prelude Net Id Rendezvous Card Wire.

Open Scope Z_scope.

Definition DIRECT_FRESH : Z := secs 15.
Definition PROBE_TIMEOUT : Z := secs 5.
Definition COUNTER_PROBE_INTERVAL : Z := secs 1.
Definition PONG_INTERVAL : Z := secs 1.
Definition LEARNED_TTL : Z := secs 10.
Definition INBOUND_CAPACITY : nat := 512.

Record Proven : Type := mkProven { pv_addr : SocketAddr; pv_at : Z }.

Record Peer : Type := mkPeer {
  pr_candidates : list SocketAddr;
  pr_updates : Z;
  pr_pending : gmap (array 16) (SocketAddr * Z);
  pr_last_ping : gmap SocketAddr Z;
  pr_last_pong : gmap SocketAddr Z;
  pr_learned : gmap SocketAddr Z;
  pr_probe_key : option (array 8 * array 32);
  pr_direct : option Proven;
  pr_driver : option Z;
}.

Definition Peer_default : Peer := mkPeer [] 0 ∅ ∅ ∅ ∅ None None None.

Definition pr_set_candidates (e : Peer) (c : list SocketAddr) (u : Z) : Peer :=
  mkPeer c u (pr_pending e) (pr_last_ping e) (pr_last_pong e) (pr_learned e) (pr_probe_key e)
    (pr_direct e) (pr_driver e).
Definition pr_set_pending (e : Peer) (m : gmap (array 16) (SocketAddr * Z)) : Peer :=
  mkPeer (pr_candidates e) (pr_updates e) m (pr_last_ping e) (pr_last_pong e) (pr_learned e)
    (pr_probe_key e) (pr_direct e) (pr_driver e).
Definition pr_set_last_ping (e : Peer) (m : gmap SocketAddr Z) : Peer :=
  mkPeer (pr_candidates e) (pr_updates e) (pr_pending e) m (pr_last_pong e) (pr_learned e)
    (pr_probe_key e) (pr_direct e) (pr_driver e).
Definition pr_set_last_pong (e : Peer) (m : gmap SocketAddr Z) : Peer :=
  mkPeer (pr_candidates e) (pr_updates e) (pr_pending e) (pr_last_ping e) m (pr_learned e)
    (pr_probe_key e) (pr_direct e) (pr_driver e).
Definition pr_set_learned (e : Peer) (m : gmap SocketAddr Z) : Peer :=
  mkPeer (pr_candidates e) (pr_updates e) (pr_pending e) (pr_last_ping e) (pr_last_pong e) m
    (pr_probe_key e) (pr_direct e) (pr_driver e).
Definition pr_set_probe_key (e : Peer) (k : option (array 8 * array 32)) : Peer :=
  mkPeer (pr_candidates e) (pr_updates e) (pr_pending e) (pr_last_ping e) (pr_last_pong e)
    (pr_learned e) k (pr_direct e) (pr_driver e).
Definition pr_set_direct (e : Peer) (d : option Proven) : Peer :=
  mkPeer (pr_candidates e) (pr_updates e) (pr_pending e) (pr_last_ping e) (pr_last_pong e)
    (pr_learned e) (pr_probe_key e) d (pr_driver e).
Definition pr_set_driver (e : Peer) (d : option Z) : Peer :=
  mkPeer (pr_candidates e) (pr_updates e) (pr_pending e) (pr_last_ping e) (pr_last_pong e)
    (pr_learned e) (pr_probe_key e) (pr_direct e) d.

Record Inner : Type := mkInner {
  in_peers : gmap NodeId Peer;
  in_sessions : gmap NodeId Z;
  in_next_session : Z;
  in_by_synthetic : gmap SocketAddr NodeId;
  in_by_direct : gmap SocketAddr NodeId;
  in_by_key_id : gmap (array 8) NodeId;
  in_notified : gset Z;
}.

Definition Inner_default : Inner := mkInner ∅ ∅ 0 ∅ ∅ ∅ ∅.

Record Paths : Type := mkPaths {
  p_node : NodeId;
  p_udp : bool;
  p_udp_local : SocketAddr;
  p_inner : Inner;
  p_reflexive : option SocketAddr;
  p_reflector_nonce : option (array 16);
  p_reflector : option SocketAddr;
  p_inbound : list (SocketAddr * list byte);
  p_log : list (SocketAddr * list byte);
}.

Definition set_inner (p : Paths) (i : Inner) : Paths :=
  mkPaths (p_node p) (p_udp p) (p_udp_local p) i (p_reflexive p) (p_reflector_nonce p)
    (p_reflector p) (p_inbound p) (p_log p).
Definition set_reflexive (p : Paths) (a : option SocketAddr) : Paths :=
  mkPaths (p_node p) (p_udp p) (p_udp_local p) (p_inner p) a (p_reflector_nonce p)
    (p_reflector p) (p_inbound p) (p_log p).
Definition set_reflector_nonce (p : Paths) (n : option (array 16)) : Paths :=
  mkPaths (p_node p) (p_udp p) (p_udp_local p) (p_inner p) (p_reflexive p) n
    (p_reflector p) (p_inbound p) (p_log p).
Definition set_inbound (p : Paths) (q : list (SocketAddr * list byte)) : Paths :=
  mkPaths (p_node p) (p_udp p) (p_udp_local p) (p_inner p) (p_reflexive p) (p_reflector_nonce p)
    (p_reflector p) q (p_log p).
(** [udp.try_send_to(bytes, addr)]. *)
Definition udp_send (p : Paths) (addr : SocketAddr) (bytes : list byte) : Paths :=
  mkPaths (p_node p) (p_udp p) (p_udp_local p) (p_inner p) (p_reflexive p) (p_reflector_nonce p)
    (p_reflector p) (p_inbound p) (p_log p ++ [(addr, bytes)]).

Definition set_peers (i : Inner) (m : gmap NodeId Peer) : Inner :=
  mkInner m (in_sessions i) (in_next_session i) (in_by_synthetic i) (in_by_direct i)
    (in_by_key_id i) (in_notified i).
Definition set_by_direct (i : Inner) (m : gmap SocketAddr NodeId) : Inner :=
  mkInner (in_peers i) (in_sessions i) (in_next_session i) (in_by_synthetic i) m
    (in_by_key_id i) (in_notified i).
Definition set_by_key_id (i : Inner) (m : gmap (array 8) NodeId) : Inner :=
  mkInner (in_peers i) (in_sessions i) (in_next_session i) (in_by_synthetic i) (in_by_direct i)
    m (in_notified i).
Definition set_by_synthetic (i : Inner) (m : gmap SocketAddr NodeId) : Inner :=
  mkInner (in_peers i) (in_sessions i) (in_next_session i) m (in_by_direct i)
    (in_by_key_id i) (in_notified i).
Definition set_sessions (i : Inner) (m : gmap NodeId Z) : Inner :=
  mkInner (in_peers i) m (in_next_session i) (in_by_synthetic i) (in_by_direct i)
    (in_by_key_id i) (in_notified i).

(** [inner.peers.entry(peer).or_default()], then a change of the entry. *)
Definition with_entry (i : Inner) (peer : NodeId) (f : Peer → Peer) : Inner :=
  set_peers i (<[peer := f (default Peer_default (in_peers i !! peer))]> (in_peers i)).

(** [if let Some(entry) = inner.peers.get_mut(&peer)]. *)
Definition with_peer (i : Inner) (peer : NodeId) (f : Peer → Peer) : Inner :=
  match in_peers i !! peer with
  | Some e => set_peers i (<[peer := f e]> (in_peers i))
  | None => i
  end.

Definition is_relay_only (p : Paths) : bool := negb (p_udp p).

Section ops.
Context `{C : Crypto}.

(** [build] and [build_relay_only], as [assemble] leaves them. *)
Definition Paths_assemble (key : TransportKey) (udp : option SocketAddr)
    (reflector : option SocketAddr) : Paths :=
  mkPaths (tk_node_id key) (bool_decide (is_Some udp))
    (default (mkSocketAddr (V4 (pad_array 4 [])) 0) udp) Inner_default None None
    reflector [] [].

Definition register_peer (p : Paths) (peer : NodeId) : Paths :=
  let i := with_entry (p_inner p) peer id in
  set_inner p (set_by_synthetic i (<[NodeId_synthetic_addr peer := peer]> (in_by_synthetic i))).

Definition peer_for_synthetic (p : Paths) (addr : SocketAddr) : option NodeId :=
  in_by_synthetic (p_inner p) !! addr.

Definition can_reach (p : Paths) (addr : SocketAddr) : bool :=
  negb (is_relay_only p) && Bool.eqb (is_ipv4 (sa_ip (p_udp_local p))) (is_ipv4 (sa_ip addr)).

Definition set_peer_candidates (p : Paths) (peer : NodeId) (candidates : list SocketAddr) : Paths :=
  let usable := filter (λ a, can_reach p a = true) (unmap_ipv6 <$> candidates) in
  set_inner p (with_entry (p_inner p) peer (λ e, pr_set_candidates e usable (pr_updates e + 1))).

Definition candidate_updates (p : Paths) (peer : NodeId) : Z :=
  default 0 (pr_updates <$> in_peers (p_inner p) !! peer).

Definition peer_candidates (p : Paths) (peer : NodeId) : list SocketAddr :=
  default [] (pr_candidates <$> in_peers (p_inner p) !! peer).

Definition proven_direct (p : Paths) (peer : NodeId) : option Proven :=
  if is_relay_only p then None
  else in_peers (p_inner p) !! peer ≫= pr_direct.

(** [entry.direct.take()], then [by_direct.remove(&proven.addr)]. *)
Definition take_direct (i : Inner) (peer : NodeId) : Inner :=
  match in_peers i !! peer with
  | Some e =>
    match pr_direct e with
    | Some proven =>
      let i := set_peers i (<[peer := pr_set_direct e None]> (in_peers i)) in
      set_by_direct i (delete (pv_addr proven) (in_by_direct i))
    | None => i
    end
  | None => i
  end.

Definition drop_direct (p : Paths) (peer : NodeId) (session : Z) : Paths :=
  if bool_decide (in_sessions (p_inner p) !! peer = Some session)
  then set_inner p (take_direct (p_inner p) peer) else p.

(** The clears of [begin_session]. *)
Definition pr_clear (e : Peer) : Peer :=
  mkPeer [] (pr_updates e) ∅ ∅ ∅ ∅ (pr_probe_key e) (pr_direct e) (pr_driver e).

Definition begin_session (p : Paths) (peer : NodeId) : Paths * Z :=
  let i := p_inner p in
  let id := in_next_session i in
  let notified := match in_sessions i !! peer with
                  | Some previous => {[previous]} ∪ in_notified i
                  | None => in_notified i
                  end in
  let i := mkInner (in_peers i) (<[peer := id]> (in_sessions i)) (id + 1) (in_by_synthetic i)
             (in_by_direct i) (in_by_key_id i) notified in
  (set_inner p (take_direct (with_peer i peer pr_clear) peer), id).

Definition end_session (p : Paths) (peer : NodeId) (session : Z) : Paths :=
  if bool_decide (in_sessions (p_inner p) !! peer = Some session)
  then set_inner p (set_sessions (p_inner p) (delete peer (in_sessions (p_inner p)))) else p.

Definition register_probe_key (p : Paths) (peer : NodeId) (key_id : array 8) (key : array 32) : Paths :=
  let i := p_inner p in
  let previous := pr_probe_key (default Peer_default (in_peers i !! peer)) in
  let i := with_entry i peer (λ e, pr_set_probe_key e (Some (key_id, key))) in
  let by_id := match previous with
            | Some (old, _) => delete old (in_by_key_id i)
            | None => in_by_key_id i
            end in
  set_inner p (set_by_key_id i (<[key_id := peer]> by_id)).

Definition unregister_probe_key (p : Paths) (key_id : array 8) : Paths :=
  let i := p_inner p in
  match in_by_key_id i !! key_id with
  | None => p
  | Some peer =>
    let i := set_by_key_id i (delete key_id (in_by_key_id i)) in
    set_inner p (with_peer i peer (λ e,
      match pr_probe_key e with
      | Some (k, _) => if bool_decide (k = key_id) then pr_set_probe_key e None else e
      | None => e
      end))
  end.

(** The order in which [learned] is walked is the hash map's. *)
Definition probe_targets `{!HashIter SocketAddr Z} (p : Paths) (peer : NodeId) (now : Z) :
    list SocketAddr :=
  match in_peers (p_inner p) !! peer with
  | None => []
  | Some e =>
    foldl (λ out '(addr, seen),
      if (duration_since now seen <? LEARNED_TTL) && negb (bool_decide (addr ∈ out))
      then out ++ [addr] else out) (pr_candidates e) (hash_iter (pr_learned e))
  end.

Definition prune_learned (p : Paths) (peer : NodeId) (now : Z) : Paths :=
  set_inner p (with_peer (p_inner p) peer (λ e,
    pr_set_learned e (filter (λ s, duration_since now s.2 < LEARNED_TTL) (pr_learned e)))).

(** [has_driver] and [home] are the relay client's answers. *)
Definition relay_for (p : Paths) (peer : NodeId) (has_driver : Z → bool) (home : Z) : Z :=
  match in_peers (p_inner p) !! peer ≫= pr_driver with
  | Some id => if has_driver id then id else home
  | None => home
  end.

(** [driver] is the one [driver_for] answered. *)
Definition set_peer_relays (p : Paths) (peer : NodeId) (driver : Z) : Paths :=
  set_inner p (with_entry (p_inner p) peer (λ e, pr_set_driver e (Some driver))).

Definition copy_relay_route (p : Paths) (route peer : NodeId) : Paths :=
  let driver := in_peers (p_inner p) !! route ≫= pr_driver in
  set_inner p (with_entry (p_inner p) peer (λ e, pr_set_driver e driver)).

Definition heard_on (p : Paths) (peer : NodeId) (driver : Z) : Paths :=
  set_inner p (with_entry (p_inner p) peer (λ e,
    if bool_decide (pr_driver e = Some driver) then e else pr_set_driver e (Some driver))).

(** What one ping consumes: a nonce, two clock reads and the socket's answer. *)
Record PingIn : Type := mkPingIn { pi_nonce : array 16; pi_t1 : Z; pi_t2 : Z; pi_ok : bool }.

Section probing.
Context `{M : Mac}.

Definition send_ping (p : Paths) (peer : NodeId) (addr : SocketAddr) (i : PingIn) : Paths * bool :=
  if negb (p_udp p) then (p, false)
  else
    let p0 := set_inner p (with_entry (p_inner p) peer id) in
    match pr_probe_key (default Peer_default (in_peers (p_inner p) !! peer)) with
    | None => (p0, false)
    | Some (key_id, key) =>
      let p1 := set_inner p (with_entry (p_inner p) peer (λ e,
        let e := pr_set_pending e (<[pi_nonce i := (addr, pi_t1 i)]> (pr_pending e)) in
        pr_set_last_ping e (<[addr := pi_t2 i]> (pr_last_ping e)))) in
      (udp_send p1 addr (Probe_seal (mkProbe PROBE_PING key_id (pi_nonce i)) key), pi_ok i)
    end.

(** The loop of [send_probes]; [rnd n] feeds the [n]th ping. *)
Fixpoint ping_all (p : Paths) (peer : NodeId) (targets : list SocketAddr) (rnd : nat → PingIn)
    (n : nat) (sent : nat) : Paths * nat :=
  match targets with
  | [] => (p, sent)
  | addr :: rest =>
    let '(p, ok) := send_ping p peer addr (rnd n) in
    ping_all p peer rest rnd (S n) (if (ok : bool) then S sent else sent)
  end.

Definition send_probes `{!HashIter SocketAddr Z} (p : Paths) (peer : NodeId) (now now2 : Z)
    (rnd : nat → PingIn) : Paths * nat :=
  let p := set_inner p (with_entry (p_inner p) peer (λ e,
    pr_set_pending e (filter (λ s, duration_since now s.2.2 < PROBE_TIMEOUT) (pr_pending e)))) in
  let p := prune_learned p peer now in
  ping_all p peer (probe_targets p peer now2) rnd 0 0.

Definition query_reflector (p : Paths) (reflector : SocketAddr) (nonce : array 16) : Paths :=
  if negb (p_udp p) then p
  else udp_send (set_reflector_nonce p (Some nonce)) reflector (reflect_request nonce).

Definition requery_reflector (p : Paths) (nonce : array 16) : Paths :=
  match p_reflector p with
  | Some reflector => query_reflector p reflector nonce
  | None => p
  end.

(** [local] is what [local_addresses] answered. *)
Definition local_candidates (p : Paths) (local : list IpAddr) : list SocketAddr :=
  if is_relay_only p then []
  else
    let out := if is_unspecified (sa_ip (p_udp_local p))
               then (λ ip, mkSocketAddr ip (sa_port (p_udp_local p))) <$> local
               else [p_udp_local p] in
    match p_reflexive p with
    | Some reflexive => if bool_decide (reflexive ∈ out) then out else out ++ [reflexive]
    | None => out
    end.

Definition probe_session (p : Paths) (key_id : array 8) : option (NodeId * array 32) :=
  peer ← in_by_key_id (p_inner p) !! key_id;
  e ← in_peers (p_inner p) !! peer;
  k ← pr_probe_key e;
  Some (peer, k.2).

(** The inputs of one received probe: [now], the clock read of [elapsed], and
    those of the ping sent back. *)
Record ProbeIn : Type := mkProbeIn { qi_now : Z; qi_elapsed : Z; qi_ping : PingIn }.

(** The [PROBE_PING] arm. *)
Definition on_ping (p : Paths) (peer : NodeId) (key : array 32) (probe : Probe) (from : SocketAddr)
    (i : ProbeIn) : Paths :=
  let now := qi_now i in
  let entry := default Peer_default (in_peers (p_inner p) !! peer) in
  let answer := match pr_last_pong entry !! from with
                | None => true
                | Some sent => PONG_INTERVAL <=? duration_since now sent
                end in
  let e := if answer then pr_set_last_pong entry (<[from := now]> (pr_last_pong entry)) else entry in
  let e := if bool_decide (from ∈ pr_candidates e) then e
           else pr_set_learned e (<[from := now]> (pr_learned e)) in
  let proved := match pr_direct e with
                | Some pv => bool_decide (pv_addr pv = from) &&
                             (duration_since (qi_elapsed i) (pv_at pv) <? DIRECT_FRESH)
                | None => false
                end in
  let recent := match pr_last_ping e !! from with
                | Some sent => duration_since now sent <? COUNTER_PROBE_INTERVAL
                | None => false
                end in
  let p := set_inner p (with_entry (p_inner p) peer (λ _, e)) in
  let p := if answer
           then udp_send p from (Probe_seal (mkProbe PROBE_PONG (p_key_id probe) (p_nonce probe)) key)
           else p in
  if negb proved && negb recent then fst (send_ping p peer from (qi_ping i)) else p.

(** The [PROBE_PONG] arm. *)
Definition on_pong (p : Paths) (peer : NodeId) (probe : Probe) (from : SocketAddr) (now : Z) : Paths :=
  match in_peers (p_inner p) !! peer with
  | None => p
  | Some e =>
    match pr_pending e !! p_nonce probe with
    | None => p
    | Some _ =>
      let e := pr_set_pending e (delete (p_nonce probe) (pr_pending e)) in
      let e := pr_set_direct e (Some (mkProven from now)) in
      let e := pr_set_learned e (delete from (pr_learned e)) in
      let i := set_peers (p_inner p) (<[peer := e]> (in_peers (p_inner p))) in
      set_inner p (set_by_direct i (<[from := peer]> (in_by_direct i)))
    end
  end.

Definition handle_probe (p : Paths) (peer : NodeId) (key : array 32) (probe : Probe)
    (from : SocketAddr) (i : ProbeIn) : Paths :=
  if negb (p_udp p) then p
  else if bool_decide (p_kind probe = PROBE_PING) then on_ping p peer key probe from i
  else if bool_decide (p_kind probe = PROBE_PONG) then on_pong p peer probe from (qi_now i)
  else p.

(** [deliver]: a full queue is loss. *)
Definition deliver_inbound (p : Paths) (from : SocketAddr) (data : list byte) : Paths :=
  if (length (p_inbound p) <? INBOUND_CAPACITY)%nat
  then set_inbound p (p_inbound p ++ [(from, data)]) else p.

(** One datagram on the direct socket, truncated to the 2048 byte buffer. *)
Definition direct_inbound (p : Paths) (datagram : list byte) (src : SocketAddr) (i : ProbeIn) : Paths :=
  let from := unmap_ipv6 src in
  let data := take 2048 datagram in
  match run_opt (Probe_peek_key_id data) with
  | Some key_id =>
    match probe_session p key_id with
    | Some (peer, key) =>
      match run_opt (Probe_open data key) with
      | Some probe => handle_probe p peer key probe from i
      | None => p
      end
    | None => p
    end
  | None =>
    if (length data =? REFLECT_REPLY_BYTES)%nat && bool_decide (take 4 data = REFLECT_MAGIC) then
      match run_opt (parse_reflect_reply data) with
      | Some (nonce, observed) =>
        if bool_decide (p_reflector_nonce p = Some nonce)
        then set_reflexive (set_reflector_nonce p None) (Some (unmap_ipv6 observed))
        else p
      | None => p
      end
    else
      match in_by_direct (p_inner p) !! from with
      | Some peer => deliver_inbound p (NodeId_synthetic_addr peer) data
      | None => p
      end
  end.

(** One datagram from the relay. *)
Definition relay_inbound (p : Paths) (source : NodeId) (datagram : list byte) (driver : Z) : Paths :=
  let p := register_peer p source in
  let p := heard_on p source driver in
  deliver_inbound p (NodeId_synthetic_addr source) datagram.

End probing.

(** ** Sending *)

(** [QueueOutcome] of a relay driver. *)
Inductive QueueOutcome : Type := Queued | Dropped | WouldBlock.

(** What the socket answers to a direct send. *)
Inductive UdpAnswer : Type := UdpOk | UdpWouldBlock | UdpErr.

(** Where a datagram went. *)
Inductive Route : Type :=
  | RDirect (addr : SocketAddr)
  | RRelay (driver : Z) (peer : NodeId).

Inductive SendResult : Type := SendOk | SendInvalid | SendWouldBlock | SendErr.

(** [AsyncUdpSocket::try_send]: the result, the route taken if any, and the new
    [blocked_on]. *)
Definition path_try_send (p : Paths) (blocked_on : option Z) (destination : SocketAddr)
    (contents : list byte) (now : Z) (has_driver : Z → bool) (home : Z) (udp : UdpAnswer)
    (queue : QueueOutcome) : SendResult * option Route * option Z :=
  if (MAX_DATAGRAM <? length contents)%nat then (SendInvalid, None, blocked_on)
  else
    match peer_for_synthetic p destination with
    | None => (SendOk, None, blocked_on)
    | Some peer =>
      let direct := match proven_direct p peer with
                    | Some pv =>
                      if (duration_since now (pv_at pv) <? DIRECT_FRESH) && p_udp p
                      then Some pv else None
                    | None => None
                    end in
      match direct with
      | Some pv =>
        (match udp with UdpErr => SendErr | _ => SendOk end, Some (RDirect (pv_addr pv)), blocked_on)
      | None =>
        let driver := relay_for p peer has_driver home in
        match queue with
        | Queued | Dropped => (SendOk, Some (RRelay driver peer), None)
        | WouldBlock => (SendWouldBlock, Some (RRelay driver peer), Some driver)
        end
      end
    end.

(** [Poller::poll_writable]'s readiness test; [capacity id] is [None] for a
    driver that is gone. *)
Definition has_capacity (blocked_on : option Z) (capacity : Z → option bool) : bool :=
  match blocked_on with
  | Some id => match capacity id with Some b => b | None => true end
  | None => true
  end.

(** [poll_recv] into [slots] buffers of the given sizes: what is filled, and
    the queue after. *)
Fixpoint poll_recv (queue : list (SocketAddr * list byte)) (bufs : list nat) :
    list (SocketAddr * list byte) * list (SocketAddr * list byte) :=
  match bufs, queue with
  | b :: bufs', (from, data) :: q =>
    let '(filled, q') := poll_recv q bufs' in
    ((from, take (Nat.min (length data) b) data) :: filled, q')
  | _, _ => ([], queue)
  end.

End ops.

(** ** Histories *)

(** The operations of the path socket, with the inputs they consume. *)
Inductive POp : Type :=
  | ORegisterPeer (peer : NodeId)
  | OSetCandidates (peer : NodeId) (candidates : list SocketAddr)
  | ODropDirect (peer : NodeId) (session : Z)
  | OBegin (peer : NodeId)
  | OEnd (peer : NodeId) (session : Z)
  | ORegKey (peer : NodeId) (key_id : array 8) (key : array 32)
  | OUnregKey (key_id : array 8)
  | OPrune (peer : NodeId) (now : Z)
  | OSetRelays (peer : NodeId) (driver : Z)
  | OCopyRelay (route peer : NodeId)
  | OSendProbes (peer : NodeId) (now now2 : Z) (rnd : nat → PingIn)
  | ORequery (nonce : array 16)
  | OQuery (reflector : SocketAddr) (nonce : array 16)
  | ODirect (datagram : list byte) (src : SocketAddr) (i : ProbeIn)
  | ORelay (source : NodeId) (datagram : list byte) (driver : Z)
  | ORecv (bufs : list nat).

Section histories.
Context `{C : Crypto, M : Mac, !HashIter SocketAddr Z}.

Definition p_step (p : Paths) (op : POp) : Paths :=
  match op with
  | ORegisterPeer peer => register_peer p peer
  | OSetCandidates peer candidates => set_peer_candidates p peer candidates
  | ODropDirect peer session => drop_direct p peer session
  | OBegin peer => fst (begin_session p peer)
  | OEnd peer session => end_session p peer session
  | ORegKey peer key_id key => register_probe_key p peer key_id key
  | OUnregKey key_id => unregister_probe_key p key_id
  | OPrune peer now => prune_learned p peer now
  | OSetRelays peer driver => set_peer_relays p peer driver
  | OCopyRelay route peer => copy_relay_route p route peer
  | OSendProbes peer now now2 rnd => fst (send_probes p peer now now2 rnd)
  | ORequery nonce => requery_reflector p nonce
  | OQuery reflector nonce => query_reflector p reflector nonce
  | ODirect datagram src i => direct_inbound p datagram src i
  | ORelay source datagram driver => relay_inbound p source datagram driver
  | ORecv bufs => set_inbound p (snd (poll_recv (p_inbound p) bufs))
  end.

(** The state after a history of operations on a fresh path socket. *)
Definition p_run (key : TransportKey) (udp reflector : option SocketAddr) (ops : list POp) : Paths :=
  foldl p_step (Paths_assemble key udp reflector) ops.

(** This side sent [nonce] in a ping sealed under a key given for [peer]. *)
Definition issued (ops : list POp) (log : list (SocketAddr * list byte)) (peer : NodeId)
    (nonce : array 16) : Prop :=
  ∃ addr k key, ORegKey peer k key ∈ ops ∧
    (addr, Probe_seal (mkProbe PROBE_PING k nonce) key) ∈ log.

(** A pong sealed under a key given for [peer], echoing a nonce issued to it,
    arrived from [a]. *)
Definition proved (ops : list POp) (log : list (SocketAddr * list byte)) (peer : NodeId)
    (a : SocketAddr) : Prop :=
  ∃ datagram src i k key nonce,
    ODirect datagram src i ∈ ops ∧ unmap_ipv6 src = a ∧ ORegKey peer k key ∈ ops ∧
    take 2048 datagram = Probe_seal (mkProbe PROBE_PONG k nonce) key ∧ issued ops log peer nonce.

(** ** The invariant *)

Section inv.
Context (ops : list POp) (log : list (SocketAddr * list byte)) (cr : SocketAddr → bool).

Record peer_ok (peer : NodeId) (e : Peer) : Prop := {
  po_key k key : pr_probe_key e = Some (k, key) → ORegKey peer k key ∈ ops;
  po_pending nonce v : pr_pending e !! nonce = Some v → issued ops log peer nonce;
  po_direct pv : pr_direct e = Some pv → proved ops log peer (pv_addr pv);
  po_candidates : Forall (λ a, cr a = true) (pr_candidates e);
}.

Record inner_ok (i : Inner) : Prop := {
  io_peers peer e : in_peers i !! peer = Some e → peer_ok peer e;
  io_key_id k peer : in_by_key_id i !! k = Some peer →
    ∃ e key, in_peers i !! peer = Some e ∧ pr_probe_key e = Some (k, key);
  io_synthetic a peer : in_by_synthetic i !! a = Some peer → a = NodeId_synthetic_addr peer;
  io_direct a peer : in_by_direct i !! a = Some peer → proved ops log peer a;
  io_sessions peer id : in_sessions i !! peer = Some id → id < in_next_session i;
}.

Lemma peer_default_ok peer : peer_ok peer Peer_default.
Proof. by split. Qed.

Lemma entry_ok i peer : inner_ok i → peer_ok peer (default Peer_default (in_peers i !! peer)).
Proof.
  intros H. destruct (in_peers i !! peer) eqn:E; simpl; [by eapply io_peers|apply peer_default_ok].
Qed.

Lemma with_entry_ok i peer f :
  inner_ok i → (peer_ok peer (default Peer_default (in_peers i !! peer)) →
    peer_ok peer (f (default Peer_default (in_peers i !! peer)))) →
  pr_probe_key (f (default Peer_default (in_peers i !! peer))) =
    pr_probe_key (default Peer_default (in_peers i !! peer)) →
  inner_ok (with_entry i peer f).
Proof.
  intros H Hf Hk. pose proof (Hf (entry_ok i peer H)) as Hn. unfold with_entry.
  split; simpl; try apply H.
  - intros n e. rewrite lookup_insert_Some. intros [[<- <-]|[_ He]]; [done|by eapply io_peers].
  - intros k n Hb. apply (io_key_id _ H) in Hb as (e & key & He & Hp).
    destruct (decide (n = peer)) as [->|]; [|exists e, key; by rewrite lookup_insert_ne].
    eexists _, key. rewrite lookup_insert_eq. split; [done|]. by rewrite Hk, He.
Qed.

Lemma with_peer_ok i peer f :
  inner_ok i → (∀ e, peer_ok peer e → peer_ok peer (f e)) →
  (∀ e, pr_probe_key (f e) = pr_probe_key e) → inner_ok (with_peer i peer f).
Proof.
  intros H Hf Hk. unfold with_peer. destruct (in_peers i !! peer) as [e|] eqn:E; [|done].
  pose proof (with_entry_ok i peer f H) as Hw. unfold with_entry in Hw. rewrite E in Hw.
  apply Hw; [apply Hf|apply Hk].
Qed.

Lemma take_direct_ok i peer : inner_ok i → inner_ok (take_direct i peer).
Proof.
  intros H. unfold take_direct. destruct (in_peers i !! peer) as [e|] eqn:E; [|done].
  destruct (pr_direct e) as [pv|] eqn:Ed; [|done].
  assert (Hw : inner_ok (set_peers i (<[peer := pr_set_direct e None]> (in_peers i)))).
  { pose proof (with_entry_ok i peer (λ e, pr_set_direct e None) H) as Hw.
    unfold with_entry in Hw. rewrite E in Hw. apply Hw; [|done]. by intros []. }
  destruct Hw as [H1 H2 H3 H4 H5]. split; try done. simpl.
  intros a n [_ Hn]%lookup_delete_Some. by apply H4.
Qed.

Lemma set_peer_ok i peer e :
  inner_ok i → peer_ok peer e →
  pr_probe_key e = pr_probe_key (default Peer_default (in_peers i !! peer)) →
  inner_ok (set_peers i (<[peer := e]> (in_peers i))).
Proof. intros H He Hk. by apply (with_entry_ok i peer (λ _, e) H). Qed.

End inv.

Lemma issued_mono ops ops' log log' peer nonce :
  ops ⊆ ops' → log ⊆ log' → issued ops log peer nonce → issued ops' log' peer nonce.
Proof. intros Ho Hl (a & k & key & H1 & H2). exists a, k, key. set_solver. Qed.

Lemma proved_mono ops ops' log log' peer a :
  ops ⊆ ops' → log ⊆ log' → proved ops log peer a → proved ops' log' peer a.
Proof.
  intros Ho Hl (d & s & i & k & key & n & H1 & H2 & H3 & H4 & H5).
  exists d, s, i, k, key, n. split_and!; [set_solver|done|set_solver|done|by eapply issued_mono].
Qed.

Lemma peer_mono ops ops' log log' cr peer e :
  ops ⊆ ops' → log ⊆ log' → peer_ok ops log cr peer e → peer_ok ops' log' cr peer e.
Proof.
  intros Ho Hl [H1 H2 H3 H4]. split; [set_solver| | |done].
  - intros n v Hn. by eapply issued_mono, H2.
  - intros pv Hp. by eapply proved_mono, H3.
Qed.

Lemma inner_mono ops ops' log log' cr i :
  ops ⊆ ops' → log ⊆ log' → inner_ok ops log cr i → inner_ok ops' log' cr i.
Proof.
  intros Ho Hl [H1 H2 H3 H4 H5]. split; try done.
  - intros n e He. by eapply peer_mono, H1.
  - intros a n Ha. by eapply proved_mono, H4.
Qed.

(** The invariant of a path socket with history [ops]. *)
Record paths_ok (ops : list POp) (p : Paths) : Prop := {
  ok_inner : inner_ok ops (p_log p) (can_reach p) (p_inner p);
  ok_inbound : (length (p_inbound p) ≤ INBOUND_CAPACITY)%nat;
  ok_relay_only : p_udp p = false → p_log p = [] ∧ p_reflexive p = None ∧ p_reflector_nonce p = None;
}.

(** A change of the tables only. *)
Lemma set_inner_ok ops p i :
  paths_ok ops p → inner_ok ops (p_log p) (can_reach p) i → paths_ok ops (set_inner p i).
Proof. intros [H1 H2 H3] Hi. by split. Qed.

Lemma paths_mono ops ops' p : ops ⊆ ops' → paths_ok ops p → paths_ok ops' p.
Proof. intros Ho [H1 H2 H3]. split; try done. by eapply inner_mono. Qed.

(** Sending a datagram only adds to the log. *)
Lemma udp_send_ok ops p a b : p_udp p = true → paths_ok ops p → paths_ok ops (udp_send p a b).
Proof.
  intros Hu [H1 H2 H3]. split; simpl; [|done|congruence].
  eapply inner_mono; [done| |exact H1]. set_solver.
Qed.

Lemma deliver_ok ops p from data : paths_ok ops p → paths_ok ops (deliver_inbound p from data).
Proof.
  intros [H1 H2 H3]. unfold deliver_inbound. split_if; [|by split]. to_props.
  split; simpl; try done. rewrite length_app; simpl. lia.
Qed.

(** ** Every operation preserves it *)

Lemma send_ping_ok ops p peer addr i : paths_ok ops p → paths_ok ops (fst (send_ping p peer addr i)).
Proof.
  intros H. unfold send_ping. destruct (p_udp p) eqn:Hu; simpl; [|done].
  destruct (pr_probe_key _) as [[k key]|] eqn:Ek; simpl.
  2:{ apply set_inner_ok; [done|]. apply with_entry_ok; [apply H|done|done]. }
  set (log' := p_log p ++ [(addr, Probe_seal (mkProbe PROBE_PING k (pi_nonce i)) key)]).
  assert (Hi : inner_ok ops log' (can_reach p) (p_inner p)).
  { eapply inner_mono; [done| |apply H]. set_solver. }
  destruct H as [H1 H2 H3]. split; simpl; [|done|congruence].
  apply (with_entry_ok ops log' (can_reach p)); [done| |done].
  intros [P1 P2 P3 P4]. split; simpl; try done.
  intros nonce v. rewrite lookup_insert_Some. intros [[<- _]|[_ Hn]]; [|by eapply P2].
  exists addr, k, key. split; [|subst log'; set_solver]. eapply P1. exact Ek.
Qed.

Lemma send_ping_udp p peer addr i : p_udp (fst (send_ping p peer addr i)) = p_udp p.
Proof. unfold send_ping. destruct (p_udp p) eqn:E; simpl; [|done]. by destruct (pr_probe_key _) as [[]|]. Qed.

Lemma ping_all_ok ops p peer targets rnd n sent :
  paths_ok ops p → paths_ok ops (fst (ping_all p peer targets rnd n sent)).
Proof.
  revert p n sent. induction targets as [|a targets IH]; intros p n sent H; simpl; [done|].
  destruct (send_ping p peer a (rnd n)) as [p' ok] eqn:E. apply IH.
  replace p' with (fst (send_ping p peer a (rnd n))) by by rewrite E. by apply send_ping_ok.
Qed.

Lemma prune_learned_ok ops p peer now : paths_ok ops p → paths_ok ops (prune_learned p peer now).
Proof.
  intros H. apply set_inner_ok; [done|]. apply with_peer_ok; [apply H| |done]. by intros e [].
Qed.

Lemma send_probes_ok ops p peer now now2 rnd :
  paths_ok ops p → paths_ok ops (fst (send_probes p peer now now2 rnd)).
Proof.
  intros H. apply ping_all_ok, prune_learned_ok, set_inner_ok; [done|].
  apply with_entry_ok; [apply H| |done]. intros [P1 P2 P3 P4]. split; simpl; try done.
  intros nonce v [Hn _]%map_lookup_filter_Some. by eapply P2.
Qed.

Lemma on_ping_ok ops p peer key probe from i :
  p_udp p = true → paths_ok ops p → paths_ok ops (on_ping p peer key probe from i).
Proof.
  intros Hu H. unfold on_ping. set (entry := default Peer_default _).
  set (answer := match pr_last_pong entry !! from with None => true | Some _ => _ end).
  set (e1 := if answer then _ else entry).
  set (e2 := if bool_decide _ then e1 else _).
  assert (He : peer_ok ops (p_log p) (can_reach p) peer e2 ∧ pr_probe_key e2 = pr_probe_key entry).
  { pose proof (entry_ok _ _ _ _ peer (ok_inner _ _ H)) as [P1 P2 P3 P4].
    subst e2 e1. destruct answer; case_bool_decide; by split. }
  assert (H1 : paths_ok ops (set_inner p (with_entry (p_inner p) peer (λ _, e2)))).
  { apply set_inner_ok; [done|]. apply with_entry_ok; [apply H|by intros _; apply He|apply He]. }
  set (p1 := set_inner p _) in *.
  set (p2 := if answer then udp_send p1 _ _ else p1).
  assert (H2 : paths_ok ops p2) by (subst p2; destruct answer; [by apply udp_send_ok|done]).
  split_if; [by apply send_ping_ok|done].
Qed.

Lemma on_pong_ok ops p peer k key nonce d src i now :
  paths_ok ops p → ODirect d src i ∈ ops → ORegKey peer k key ∈ ops →
  take 2048 d = Probe_seal (mkProbe PROBE_PONG k nonce) key →
  paths_ok ops (on_pong p peer (mkProbe PROBE_PONG k nonce) (unmap_ipv6 src) now).
Proof.
  intros H Ho Hk Hd. unfold on_pong. cbn [p_nonce].
  destruct (in_peers (p_inner p) !! peer) as [e|] eqn:E; [|done].
  destruct (pr_pending e !! nonce) as [v|] eqn:Ep; [|done].
  pose proof (io_peers _ _ _ _ (ok_inner _ _ H) _ _ E) as [P1 P2 P3 P4].
  assert (Hp : proved ops (p_log p) peer (unmap_ipv6 src)).
  { exists d, src, i, k, key, nonce. split_and!; try done. by eapply P2. }
  set (e' := pr_set_learned _ _).
  assert (He : peer_ok ops (p_log p) (can_reach p) peer e').
  { split; simpl; try done.
    - intros n v' [_ Hn]%lookup_delete_Some. by eapply P2.
    - by intros pv [= <-]. }
  apply set_inner_ok; [done|].
  assert (Hi : inner_ok ops (p_log p) (can_reach p)
    (set_peers (p_inner p) (<[peer := e']> (in_peers (p_inner p))))).
  { apply set_peer_ok; [apply H|done|]. by rewrite E. }
  destruct Hi as [I1 I2 I3 I4 I5]. split; try done. simpl.
  intros a n. rewrite lookup_insert_Some. intros [[<- <-]|[_ Hn]]; [done|by apply I4].
Qed.

(** The session a probe is handled for is the one whose key sealed it. *)
Lemma probe_session_key ops log cr p k peer key :
  inner_ok ops log cr (p_inner p) → probe_session p k = Some (peer, key) →
  ORegKey peer k key ∈ ops ∧
  ∃ e, in_peers (p_inner p) !! peer = Some e ∧ pr_probe_key e = Some (k, key).
Proof.
  intros H. unfold probe_session. destruct (in_by_key_id (p_inner p) !! k) as [n|] eqn:E1; [|done].
  simpl. destruct (io_key_id _ _ _ _ H _ _ E1) as (e & key' & He & Hk). rewrite He. simpl.
  rewrite Hk. simpl. intros [= <- <-]. split; [|eauto].
  by eapply (po_key _ _ _ _ _ (io_peers _ _ _ _ H _ _ He)).
Qed.

Lemma run_opt_Some {A} (m : exec (option A)) a : run_opt m = Some a → m = Ret (Some a).
Proof. destruct m; simpl; congruence. Qed.

Lemma peek_open bytes key probe k :
  Probe_peek_key_id bytes = Ret (Some k) → Probe_open bytes key = Ret (Some probe) →
  p_key_id probe = k.
Proof.
  intros H1 H2. apply open_sound in H2 as [_ ->]. rewrite peek_sealed in H1. congruence.
Qed.

Lemma direct_inbound_ok ops p d src i :
  paths_ok ops p → ODirect d src i ∈ ops → paths_ok ops (direct_inbound p d src i).
Proof.
  intros H Ho. unfold direct_inbound.
  destruct (run_opt (Probe_peek_key_id _)) as [k|] eqn:Ek; [apply run_opt_Some in Ek|].
  - destruct (probe_session p k) as [[peer key]|] eqn:Es; [|done].
    destruct (run_opt (Probe_open _ _)) as [probe|] eqn:Eo; [apply run_opt_Some in Eo|done].
    pose proof (peek_open _ _ _ _ Ek Eo) as Hkid.
    apply (probe_session_key ops (p_log p) (can_reach p)) in Es as [Hreg _]; [|apply H].
    apply open_sound in Eo as [Hkind Hseal].
    unfold handle_probe. destruct (p_udp p) eqn:Hu; simpl; [|done].
    case_bool_decide as D1; [by apply on_ping_ok|]. case_bool_decide as D2; [|done].
    destruct probe as [kind kid nonce]. simpl in *. subst. by eapply on_pong_ok.
  - split_if.
    + destruct (run_opt (parse_reflect_reply _)) as [[nonce obs]|]; [|done].
      destruct (bool_decide_reflect (p_reflector_nonce p = Some nonce)) as [D|D]; [|done].
      destruct H as [H1 H2 H3]. split; simpl; try done. intros Hu. apply H3 in Hu as (_ & _ & Hn). congruence.
    + destruct (in_by_direct (p_inner p) !! unmap_ipv6 src); [|done]. by apply deliver_ok.
Qed.

Lemma register_probe_key_ok ops p peer k key :
  paths_ok ops p → ORegKey peer k key ∈ ops → paths_ok ops (register_probe_key p peer k key).
Proof.
  intros H Ho. apply set_inner_ok; [done|]. pose proof (ok_inner _ _ H) as Hi.
  pose proof (entry_ok _ _ _ _ peer Hi) as [P1 P2 P3 P4].
  destruct Hi as [I1 I2 I3 I4 I5]. unfold with_entry. split; simpl; try done.
  - intros n e. rewrite lookup_insert_Some. intros [[<- <-]|[_ He]]; [|by apply I1].
    split; simpl; try done. by intros ? ? [= <- <-].
  - set (old := match pr_probe_key _ with Some _ => _ | None => _ end).
    intros k' n. rewrite lookup_insert_Some. intros [[<- <-]|[Hne Hn]].
    { eexists _, key. by rewrite lookup_insert_eq. }
    assert (Hn' : in_by_key_id (p_inner p) !! k' = Some n ∧
      (∀ kk, pr_probe_key (default Peer_default (in_peers (p_inner p) !! peer)) = Some (k', kk) → False)).
    { subst old. destruct (pr_probe_key _) as [[o okey]|] eqn:E; [|by split].
      apply lookup_delete_Some in Hn as [Hno Hn]. split; [done|]. intros kk [= <- _]. done. }
    destruct Hn' as [Hn' Hno]. apply I2 in Hn' as (e & key' & He & Hk).
    exists e, key'. split; [|done]. rewrite lookup_insert_ne; [done|]. intros <-.
    rewrite He in Hno. by eapply Hno.
Qed.

Lemma unregister_probe_key_ok ops p k : paths_ok ops p → paths_ok ops (unregister_probe_key p k).
Proof.
  intros H. unfold unregister_probe_key. destruct (in_by_key_id _ !! k) as [peer|] eqn:E; [|done].
  apply set_inner_ok; [done|]. destruct (ok_inner _ _ H) as [I1 I2 I3 I4 I5].
  unfold with_peer. simpl. destruct (I2 _ _ E) as (e & key & He & Hk). rewrite He, Hk.
  rewrite bool_decide_true by done.
  split; simpl; try done.
  - intros n e'. rewrite lookup_insert_Some. intros [[<- <-]|[_ He']]; [|by apply I1].
    destruct (I1 _ _ He). by split.
  - intros k' n [Hne Hn]%lookup_delete_Some. apply I2 in Hn as (e' & key' & He' & Hk').
    exists e', key'. split; [|done]. rewrite lookup_insert_ne; [done|]. intros <-. congruence.
Qed.

Lemma begin_session_ok ops p peer : paths_ok ops p → paths_ok ops (fst (begin_session p peer)).
Proof.
  intros H. apply set_inner_ok; [done|]. apply take_direct_ok.
  apply with_peer_ok; [|by intros e [P1 P2 P3 P4]; split; simpl|done].
  destruct (ok_inner _ _ H) as [I1 I2 I3 I4 I5]. split; simpl; try done.
  intros n id. rewrite lookup_insert_Some. intros [[<- <-]|[_ Hs]]; [lia|]. apply I5 in Hs. lia.
Qed.

Lemma poll_recv_length q bufs : (length (snd (poll_recv q bufs)) ≤ length q)%nat.
Proof.
  revert q. induction bufs as [|b bufs IH]; intros [|[a d] q]; simpl; try lia.
  specialize (IH q). destruct (poll_recv q bufs); simpl in *. lia.
Qed.

Lemma register_peer_ok ops p peer : paths_ok ops p → paths_ok ops (register_peer p peer).
Proof.
  intros H. apply set_inner_ok; [done|].
  assert (Hi : inner_ok ops (p_log p) (can_reach p) (with_entry (p_inner p) peer id))
    by (apply with_entry_ok; [apply H|done|done]).
  destruct Hi as [I1 I2 I3 I4 I5]. split; try done. simpl.
  intros a n. rewrite lookup_insert_Some. intros [[<- <-]|[_ Hn]]; [done|by apply I3].
Qed.

Lemma p_step_ok ops p op : op ∈ ops → paths_ok ops p → paths_ok ops (p_step p op).
Proof.
  intros Ho H. destruct op; cbn [p_step].
  - by apply register_peer_ok.
  - apply set_inner_ok; [done|]. apply with_entry_ok; [apply H| |done].
    intros [P1 P2 P3 P4]. split; simpl; try done.
    apply Forall_forall. by intros a [Ha _]%list_elem_of_filter.
  - unfold drop_direct. case_bool_decide; [|done]. apply set_inner_ok; [done|].
    apply take_direct_ok, H.
  - by apply begin_session_ok.
  - unfold end_session. case_bool_decide; [|done]. apply set_inner_ok; [done|].
    destruct (ok_inner _ _ H) as [I1 I2 I3 I4 I5]. split; try done. simpl.
    intros n id [_ Hn]%lookup_delete_Some. by apply I5 in Hn.
  - by apply register_probe_key_ok.
  - by apply unregister_probe_key_ok.
  - by apply prune_learned_ok.
  - apply set_inner_ok; [done|]. apply with_entry_ok; [apply H|by intros []|done].
  - apply set_inner_ok; [done|]. apply with_entry_ok; [apply H|by intros []|done].
  - by apply send_probes_ok.
  - unfold requery_reflector, query_reflector. destruct (p_reflector p); [|done].
    destruct (p_udp p) eqn:Hu; simpl; [|done]. apply udp_send_ok; [done|].
    destruct H as [H1 H2 H3]. split; simpl; try done. congruence.
  - unfold query_reflector. destruct (p_udp p) eqn:Hu; simpl; [|done]. apply udp_send_ok; [done|].
    destruct H as [H1 H2 H3]. split; simpl; try done. congruence.
  - by apply direct_inbound_ok.
  - apply deliver_ok. pose proof (register_peer_ok _ _ source H) as Hr.
    apply set_inner_ok; [done|]. apply with_entry_ok; [apply Hr| |by case_bool_decide].
    intros [P1 P2 P3 P4]. case_bool_decide; by split.
  - destruct H as [H1 H2 H3]. split; simpl; try done.
    etrans; [apply poll_recv_length|done].
Qed.

Lemma p_run_snoc key udp refl ops op :
  p_run key udp refl (ops ++ [op]) = p_step (p_run key udp refl ops) op.
Proof. apply foldl_snoc. Qed.

Lemma assemble_ok key udp refl : paths_ok [] (Paths_assemble key udp refl).
Proof. split; simpl; [|unfold INBOUND_CAPACITY; lia|done]. by split. Qed.

Lemma p_run_ok key udp refl ops : paths_ok ops (p_run key udp refl ops).
Proof.
  induction ops as [|op ops IH] using rev_ind; [apply assemble_ok|].
  rewrite p_run_snoc. apply p_step_ok; [set_solver|]. eapply paths_mono; [|exact IH]. set_solver.
Qed.

(** No operation creates or removes the UDP socket. *)
Lemma on_ping_udp p peer key probe from i : p_udp (on_ping p peer key probe from i) = p_udp p.
Proof.
  unfold on_ping. set (p1 := if _ : bool then udp_send _ _ _ else _).
  assert (E : p_udp p1 = p_udp p) by (subst p1; by case_match).
  match goal with |- context [if ?b then fst _ else p1] => destruct b end;
    [by rewrite send_ping_udp|done].
Qed.

Lemma direct_inbound_udp p d src i : p_udp (direct_inbound p d src i) = p_udp p.
Proof.
  unfold direct_inbound, handle_probe, on_pong, deliver_inbound.
  repeat case_match; simplify_eq; try done. by apply on_ping_udp.
Qed.

Lemma ping_all_udp p peer targets rnd n sent :
  p_udp (fst (ping_all p peer targets rnd n sent)) = p_udp p.
Proof.
  revert p n sent. induction targets as [|a targets IH]; intros p n sent; simpl; [done|].
  pose proof (send_ping_udp p peer a (rnd n)) as E. destruct (send_ping _ _ _ _) as [p' ok].
  rewrite IH. exact E.
Qed.

Lemma p_step_udp p op : p_udp (p_step p op) = p_udp p.
Proof.
  destruct op; cbn [p_step]; try done.
  - unfold drop_direct. by case_bool_decide.
  - unfold end_session. by case_bool_decide.
  - unfold unregister_probe_key. by case_match.
  - unfold send_probes. by rewrite ping_all_udp.
  - unfold requery_reflector, query_reflector. repeat case_match; done.
  - unfold query_reflector. by case_match.
  - apply direct_inbound_udp.
  - unfold relay_inbound, deliver_inbound. by case_match.
Qed.

Lemma p_run_udp key udp refl ops :
  p_udp (p_run key udp refl ops) = bool_decide (is_Some udp).
Proof.
  induction ops as [|op ops IH] using rev_ind; [done|]. by rewrite p_run_snoc, p_step_udp.
Qed.

Lemma not_issued_empty ops peer nonce : ¬ issued ops [] peer nonce.
Proof. intros (a & k & key & _ & H). by apply not_elem_of_nil in H. Qed.

Lemma not_proved_empty ops peer a : ¬ proved ops [] peer a.
Proof. intros (d & s & i & k & key & n & _ & _ & _ & _ & H). by apply not_issued_empty in H. Qed.

(** C20: whatever the history, a peer's direct path, and every address whose
    datagrams are handed to QUIC as a peer's, was proved: a pong sealed under a
    probe key given for that peer arrived from that very address, echoing a
    nonce this side had sent in a ping sealed under a key given for that peer. *)
Theorem direct_path_was_proved key udp refl ops :
  let p := p_run key udp refl ops in
  (∀ peer pv, proven_direct p peer = Some pv → proved ops (p_log p) peer (pv_addr pv)) ∧
  (∀ a peer, in_by_direct (p_inner p) !! a = Some peer → proved ops (p_log p) peer a).
Proof.
  intros p. pose proof (ok_inner _ _ (p_run_ok key udp refl ops)) as Hi. fold p in Hi. split.
  - intros peer pv. unfold proven_direct. split_if; [done|].
    intros (e & He & Hd)%bind_Some. by eapply (po_direct _ _ _ _ _ (io_peers _ _ _ _ Hi _ _ He)).
  - intros a peer Ha. by eapply io_direct.
Qed.

(** A datagram leaves on the direct path only for the peer whose synthetic
    address it is sent to, only to an address proved for that peer, and only
    while that proof is younger than fifteen seconds; every other datagram for a
    known peer goes to a relay driver, one above 1350 bytes to neither. *)
Theorem send_routing key udp refl ops blocked dest contents now has_driver home ua qo :
  let p := p_run key udp refl ops in
  let '(res, route, _) := path_try_send p blocked dest contents now has_driver home ua qo in
  ((MAX_DATAGRAM < length contents)%nat → res = SendInvalid ∧ route = None) ∧
  (∀ a, route = Some (RDirect a) → ∃ peer pv, dest = NodeId_synthetic_addr peer ∧
     proven_direct p peer = Some pv ∧ pv_addr pv = a ∧ proved ops (p_log p) peer a ∧
     duration_since now (pv_at pv) < DIRECT_FRESH) ∧
  (∀ d peer, route = Some (RRelay d peer) →
     dest = NodeId_synthetic_addr peer ∧ (has_driver d = true ∨ d = home) ∧
     ∀ pv, proven_direct p peer = Some pv → DIRECT_FRESH <= duration_since now (pv_at pv)).
Proof.
  intros p. pose proof (p_run_ok key udp refl ops) as Hok. fold p in Hok.
  destruct (path_try_send _ _ _ _ _ _ _ _ _) as [[res route] blocked'] eqn:E. revert E.
  unfold path_try_send. split_if; to_props.
  { intros [= <- <- <-]. split_and!; [done|intros a [=]|intros d peer [=]]. }
  destruct (peer_for_synthetic p dest) as [peer|] eqn:Ep.
  2:{ intros [= <- <- <-]. split_and!; [lia|intros a [=]|intros d peer [=]]. }
  apply (io_synthetic _ _ _ _ (ok_inner _ _ Hok)) in Ep.
  destruct (proven_direct p peer) as [pv|] eqn:Ed; [split_if; to_props|].
  - intros [= <- <- <-]. split_and!; [lia| |by intros d n [=]].
    intros a [= <-]. exists peer, pv. split_and!; try done.
    unfold proven_direct in Ed. split_if_in Ed. apply bind_Some in Ed as (e & He & Hd).
    by eapply (po_direct _ _ _ _ _ (io_peers _ _ _ _ (ok_inner _ _ Hok) _ _ He)).
  - assert (Hold : DIRECT_FRESH <= duration_since now (pv_at pv)).
    { unfold proven_direct, is_relay_only in Ed. destruct (p_udp p); [|done].
      rewrite andb_true_r in G0. by to_props. }
    intros E. split_and!; [lia| |]; [intros a ->; by destruct qo|].
    intros d n ->. destruct qo; injection E as _ <- <- _; (split_and!; [done| |congruence]);
      unfold relay_for; repeat case_match; auto.
  - intros E. split_and!; [lia| |]; [intros a ->; by destruct qo|].
    intros d n ->. destruct qo; injection E as _ <- <- _; (split_and!; [done| |congruence]);
      unfold relay_for; repeat case_match; auto.
Qed.

(** A relay-only path socket never touches UDP: whatever the history, it
    has sent no datagram, offers and accepts no candidate, has no direct proof
    and no address mapped to a peer, and routes nothing directly. *)
Theorem relay_only_never_direct key refl ops :
  let p := p_run key None refl ops in
  p_log p = [] ∧ (∀ local, local_candidates p local = []) ∧ p_reflexive p = None ∧
  (∀ peer, peer_candidates p peer = [] ∧ proven_direct p peer = None) ∧
  in_by_direct (p_inner p) = ∅ ∧
  ∀ blocked dest contents now has_driver home ua qo a,
    (path_try_send p blocked dest contents now has_driver home ua qo).1.2 ≠ Some (RDirect a).
Proof.
  intros p. pose proof (p_run_ok key None refl ops) as Hok. fold p in Hok.
  assert (Hu : p_udp p = false) by apply p_run_udp.
  destruct (ok_relay_only _ _ Hok Hu) as (Hl & Hr & _). pose proof (ok_inner _ _ Hok) as Hi.
  assert (Hpd : ∀ peer, proven_direct p peer = None) by (intros; unfold proven_direct, is_relay_only; by rewrite Hu).
  split_and!; try done.
  - intros local. unfold local_candidates, is_relay_only. by rewrite Hu.
  - intros peer. split; [|done]. unfold peer_candidates.
    destruct (in_peers (p_inner p) !! peer) as [e|] eqn:E; [|done]. simpl.
    apply (io_peers _ _ _ _ Hi) in E as [_ _ _ Hc]. destruct (pr_candidates e); [done|].
    apply Forall_cons in Hc as [Hc _]. unfold can_reach, is_relay_only in Hc. by rewrite Hu in Hc.
  - apply map_empty. intros a. apply eq_None_not_Some. intros [n Hn].
    apply (io_direct _ _ _ _ Hi) in Hn. rewrite Hl in Hn. by apply not_proved_empty in Hn.
  - intros. unfold path_try_send. split_if; [done|]. destruct (peer_for_synthetic p dest); [|done].
    rewrite Hpd. by destruct qo.
Qed.

(** One live session per peer, the newest: a new session gets a higher id,
    signals the one it replaces, starts with no candidate, no pending probe and
    no direct proof, and the replaced session can no longer drop the new
    session's proof or free its slot. *)
Theorem session_takeover key udp refl ops peer :
  let p := p_run key udp refl ops in
  let '(p', id) := begin_session p peer in
  in_sessions (p_inner p') !! peer = Some id ∧
  (∀ old, in_sessions (p_inner p) !! peer = Some old →
     old < id ∧ old ∈ in_notified (p_inner p') ∧
     drop_direct p' peer old = p' ∧ end_session p' peer old = p') ∧
  proven_direct p' peer = None ∧ peer_candidates p' peer = [] ∧
  (∀ e, in_peers (p_inner p') !! peer = Some e → pr_pending e = ∅ ∧ pr_learned e = ∅) ∧
  (∀ n, n ≠ peer → in_sessions (p_inner p') !! n = in_sessions (p_inner p) !! n ∧
                   in_peers (p_inner p') !! n = in_peers (p_inner p) !! n).
Proof.
  intros p. pose proof (ok_inner _ _ (p_run_ok key udp refl ops)) as Hi. fold p in Hi.
  unfold begin_session. set (i1 := mkInner _ _ _ _ _ _ _).
  set (i2 := take_direct (with_peer i1 peer pr_clear) peer).
  assert (Hs : in_sessions i2 = in_sessions i1 ∧ in_notified i2 = in_notified i1).
  { subst i2. unfold take_direct, with_peer. repeat case_match; done. }
  destruct Hs as [Hs Hno].
  assert (Hp : (∀ e, in_peers i2 !! peer = Some e →
      pr_direct e = None ∧ pr_candidates e = [] ∧ pr_pending e = ∅ ∧ pr_learned e = ∅) ∧
    (∀ n, n ≠ peer → in_peers i2 !! n = in_peers (p_inner p) !! n)).
  { subst i2. unfold take_direct, with_peer. subst i1. simpl.
    destruct (in_peers (p_inner p) !! peer) as [e0|] eqn:E0; simpl; [rewrite lookup_insert_eq|rewrite E0]; simpl.
    - destruct (pr_direct e0) eqn:Ed; simpl; (split; [|by intros n Hn; rewrite !lookup_insert_ne]);
        intros e; rewrite lookup_insert_eq; by intros [= <-].
    - split; [by rewrite E0|done]. }
  destruct Hp as [Hp Hoth]. simpl. rewrite Hs, Hno. split_and!.
  - subst i1. simpl. apply lookup_insert_eq.
  - intros old Ho. pose proof (io_sessions _ _ _ _ Hi _ _ Ho) as Hlt. split_and!; [done| | |].
    + subst i1. simpl. rewrite Ho. set_solver.
    + unfold drop_direct. rewrite bool_decide_false; [done|]. simpl. rewrite Hs. subst i1. simpl.
      rewrite lookup_insert_eq. intros [= E]. lia.
    + unfold end_session. rewrite bool_decide_false; [done|]. simpl. rewrite Hs. subst i1. simpl.
      rewrite lookup_insert_eq. intros [= E]. lia.
  - unfold proven_direct. split_if; [done|]. simpl. destruct (in_peers i2 !! peer) eqn:E; [|done].
    simpl. by apply Hp.
  - unfold peer_candidates. simpl. destruct (in_peers i2 !! peer) eqn:E; [|done]. simpl. by apply Hp.
  - intros e He. by apply Hp in He as (_ & _ & ? & ?).
  - intros n Hn. split; [|by apply Hoth]. subst i1. simpl. by rewrite lookup_insert_ne.
Qed.

End histories.

(** ** A concrete history *)

#[local] Existing Instance toy_crypto.

Definition toy_mac : Mac := {| hmac_sha256 key m := pad_array 32 (bytes_of key ++ m) |}.

#[local] Existing Instance toy_mac.
#[local] Instance ex_order : HashIter SocketAddr Z := map_order SocketAddr Z.

Definition ex_peer : NodeId := mkNodeId (pad_array 32 (lit "peer")).
Definition ex_addr (host : byte) : SocketAddr :=
  mkSocketAddr (V4 (pad_array 4 [Byte.x0a; Byte.x00; Byte.x00; host])) 4433.
Definition ex_kid : array 8 := pad_array 8 (lit "kid").
Definition ex_pkey : array 32 := pad_array 32 (lit "probe key").
Definition ex_nonce (b : byte) : array 16 := pad_array 16 [b].
Definition ex_ping (b : byte) : PingIn := mkPingIn (ex_nonce b) 0 0 true.
Definition ex_pong (b : byte) (from : SocketAddr) : POp :=
  ODirect (Probe_seal (mkProbe PROBE_PONG ex_kid (ex_nonce b)) ex_pkey) from
    (mkProbeIn 1 1 (ex_ping Byte.x00)).

(** The peer proves address A, then address B. *)
Definition ex_roam : list POp :=
  [ ORegisterPeer ex_peer; OBegin ex_peer; ORegKey ex_peer ex_kid ex_pkey;
    OSetCandidates ex_peer [ex_addr Byte.x0a];
    OSendProbes ex_peer 0 0 (λ _, ex_ping Byte.x01); ex_pong Byte.x01 (ex_addr Byte.x0a);
    OSendProbes ex_peer 0 0 (λ _, ex_ping Byte.x02); ex_pong Byte.x02 (ex_addr Byte.x0b) ].

Definition ex_socket : option SocketAddr := Some (ex_addr Byte.x01).

Definition ex_run (ops : list POp) : Paths :=
  p_run (TransportKey_from_seed (pad_array 32 [])) ex_socket None ops.

(** When a peer's proven address changes from A to B, A stays mapped to
    the peer, and dropping the direct path forgets B only: a datagram from A is
    still handed to QUIC as the peer's although the peer has no direct proof at
    all, where the receive task's comment says a datagram from an unproven
    address is dropped. *)
Theorem stale_direct_address_accepted :
  let p := ex_run ex_roam in
  let q := ex_run (ex_roam ++ [ODropDirect ex_peer 0]) in
  let r := ex_run (ex_roam ++ [ODropDirect ex_peer 0;
             ODirect (lit "late") (ex_addr Byte.x0a) (mkProbeIn 9 9 (ex_ping Byte.x00))]) in
  pv_addr <$> proven_direct p ex_peer = Some (ex_addr Byte.x0b) ∧
  in_by_direct (p_inner p) !! ex_addr Byte.x0a = Some ex_peer ∧
  proven_direct q ex_peer = None ∧
  in_by_direct (p_inner q) !! ex_addr Byte.x0b = None ∧
  p_inbound r = [(NodeId_synthetic_addr ex_peer, lit "late")].
Proof. split_and!; apply (bool_decide_eq_true_1 _); vm_compute; reflexivity. Qed.
