(* ===== verification/TagBook.v ===== *)
(** * TagBook: the endpoint's rendezvous book ([link-endpoint/src/rendezvous_book.rs])

    The three route tables, the send-tag cache and the change counter.  The
    operations run one after another, as they do under the book's locks.  A
    secret is its bytes; the route a pairing registration draws at random is the
    first free one of the candidates given.  Hash map iteration orders are the
    operations of [HashIter]. *)

From S2P Require Import Prelude Net Id Rendezvous Card Wire.

Open Scope Z_scope.

Record RendezvousPeer : Type := mkRendezvousPeer {
  rp_case : TagCase;
  rp_static_x : array 32;
  rp_eph_x : array 32;
}.

Definition EPOCH_WINDOW : list Z := [-1; 0; 1].

Record ExpiringSecret : Type := mkExpiringSecret { es_secret : array 16; es_expires_at : Z }.

Record LivePairingRoute : Type := mkLivePairingRoute { lp_generation : Z; lp_secret : array 16 }.

Record PairingRoute : Type := mkPairingRoute {
  pr_admission : option ExpiringSecret;
  pr_live : option LivePairingRoute;
}.

Record TagBook : Type := mkTagBook {
  tb_peers : gmap NodeId RendezvousPeer;
  tb_pairing : gmap NodeId PairingRoute;
  tb_paired : gmap NodeId (array 32);
  tb_version : Z;
  (** the watched value of [changes] *)
  tb_changes : Z;
  tb_cache_host : list byte;
  tb_cache : gmap (NodeId * Z) Tag;
}.

Definition SEND_CACHE_CAP : nat := 4096.

Definition TagBook_with_paired (peers : gmap NodeId RendezvousPeer) (paired : gmap NodeId (array 32)) :
    TagBook := mkTagBook peers ∅ paired 0 0 [] ∅.

Definition TagBook_new (peers : gmap NodeId RendezvousPeer) : TagBook := TagBook_with_paired peers ∅.

(** [fetch_add] wraps at 64 bits. *)
Definition bump (b : TagBook) : TagBook :=
  let version := (tb_version b + 1) mod 2 ^ 64 in
  mkTagBook (tb_peers b) (tb_pairing b) (tb_paired b) version version (tb_cache_host b) ∅.

Definition set_tb_peers (b : TagBook) (m : gmap NodeId RendezvousPeer) : TagBook :=
  mkTagBook m (tb_pairing b) (tb_paired b) (tb_version b) (tb_changes b) (tb_cache_host b) (tb_cache b).
Definition set_tb_pairing (b : TagBook) (m : gmap NodeId PairingRoute) : TagBook :=
  mkTagBook (tb_peers b) m (tb_paired b) (tb_version b) (tb_changes b) (tb_cache_host b) (tb_cache b).
Definition set_tb_paired (b : TagBook) (m : gmap NodeId (array 32)) : TagBook :=
  mkTagBook (tb_peers b) (tb_pairing b) m (tb_version b) (tb_changes b) (tb_cache_host b) (tb_cache b).
Definition set_tb_cache (b : TagBook) (host : list byte) (m : gmap (NodeId * Z) Tag) : TagBook :=
  mkTagBook (tb_peers b) (tb_pairing b) (tb_paired b) (tb_version b) (tb_changes b) host m.

Definition upsert (b : TagBook) (peer : NodeId) (material : RendezvousPeer) : TagBook :=
  bump (set_tb_peers b (<[peer := material]> (tb_peers b))).

Definition remove (b : TagBook) (peer : NodeId) : TagBook :=
  bump (set_tb_peers b (delete peer (tb_peers b))).

Definition upsert_paired (b : TagBook) (peer : NodeId) (secret : array 32) : TagBook :=
  bump (set_tb_paired b (<[peer := secret]> (tb_paired b))).

Definition remove_paired (b : TagBook) (peer : NodeId) : TagBook :=
  match tb_paired b !! peer with
  | Some _ => bump (set_tb_paired b (delete peer (tb_paired b)))
  | None => b
  end.

(** The loop that draws a route: the first candidate no table holds. *)
Definition fresh_route (b : TagBook) (candidates : list NodeId) : option NodeId :=
  snd <$> list_find (λ c, tb_peers b !! c = None ∧ tb_pairing b !! c = None ∧ tb_paired b !! c = None)
    candidates.

(** [None] while no candidate is free, when the source draws again. *)
Definition register_pairing (b : TagBook) (candidates : list NodeId) (secret : array 16)
    (expires_at : Z) : option (TagBook * NodeId) :=
  route ← fresh_route b candidates;
  let entry := mkPairingRoute (Some (mkExpiringSecret secret expires_at)) None in
  Some (bump (set_tb_pairing b (<[route := entry]> (tb_pairing b))), route).

(** Also the [Drop] of [PairingRegistration]. *)
Definition remove_pairing (b : TagBook) (route : NodeId) : TagBook * bool :=
  match tb_pairing b !! route with
  | None => (b, false)
  | Some r =>
    let removed := bool_decide (is_Some (pr_admission r)) in
    let r' := mkPairingRoute None (pr_live r) in
    let pairing := match pr_live r' with
                   | None => delete route (tb_pairing b)
                   | Some _ => <[route := r']> (tb_pairing b)
                   end in
    let b := set_tb_pairing b pairing in
    (if removed then bump b else b, removed)
  end.

(** The [retain] closure: the admission past its expiry is dropped. *)
Definition expire_route (now_unix : Z) (r : PairingRoute) : PairingRoute :=
  match pr_admission r with
  | Some s => if es_expires_at s <=? now_unix then mkPairingRoute None (pr_live r) else r
  | None => r
  end.

Definition route_kept (r : PairingRoute) : bool :=
  bool_decide (is_Some (pr_admission r)) || bool_decide (is_Some (pr_live r)).

Definition route_expires (now_unix : Z) (r : PairingRoute) : bool :=
  match pr_admission r with Some s => es_expires_at s <=? now_unix | None => false end.

Definition prune_expired (b : TagBook) (now_unix : Z) : TagBook :=
  let expired := filter (λ kr, route_expires now_unix kr.2 = true) (tb_pairing b) in
  let pairing := filter (λ kr, route_kept kr.2 = true) (expire_route now_unix <$> tb_pairing b) in
  let changed := negb (bool_decide (expired = ∅)) ||
                 negb (size pairing =? size (tb_pairing b))%nat in
  let b := set_tb_pairing b pairing in
  if changed then bump b else b.

Definition promote_pairing (b : TagBook) (route : NodeId) (secret : array 16)
    (generation now_unix : Z) : TagBook * bool :=
  let b := prune_expired b now_unix in
  match tb_pairing b !! route with
  | None => (b, false)
  | Some entry =>
    match pr_admission entry with
    | None => (b, false)
    | Some _ =>
      let entry := mkPairingRoute (pr_admission entry) (Some (mkLivePairingRoute generation secret)) in
      (bump (set_tb_pairing b (<[route := entry]> (tb_pairing b))), true)
    end
  end.

Definition remove_live_pairing (b : TagBook) (route : NodeId) (generation : Z) : TagBook * bool :=
  match tb_pairing b !! route with
  | None => (b, false)
  | Some r =>
    let removed := match pr_live r with
                   | Some live => lp_generation live =? generation
                   | None => false
                   end in
    let r' := if removed then mkPairingRoute (pr_admission r) None else r in
    let pairing := match pr_admission r', pr_live r' with
                   | None, None => delete route (tb_pairing b)
                   | _, _ => <[route := r']> (tb_pairing b)
                   end in
    let b := set_tb_pairing b pairing in
    (if removed then bump b else b, removed)
  end.

Definition pairing_active (b : TagBook) (route : NodeId) (now_unix : Z) : TagBook * bool :=
  let b := prune_expired b now_unix in
  (b, bool_decide (is_Some (tb_pairing b !! route ≫= pr_admission))).

(** [PairingRegistration::is_active] of a registration whose book is alive. *)
Definition registration_active (b : TagBook) (route : NodeId) (expires_at now_unix : Z) :
    TagBook * bool :=
  if now_unix <? expires_at then pairing_active b route now_unix else (b, false).

Definition cache_len (b : TagBook) : nat := size (tb_cache b).

Definition book_is_empty (b : TagBook) : bool :=
  bool_decide (tb_peers b = ∅) && bool_decide (tb_pairing b = ∅) && bool_decide (tb_paired b = ∅).

Definition contains (b : TagBook) (peer : NodeId) : bool :=
  bool_decide (is_Some (tb_peers b !! peer)) || bool_decide (is_Some (tb_pairing b !! peer)) ||
  bool_decide (is_Some (tb_paired b !! peer)).

(** [checked_add_signed] leaves out an epoch outside [u64]. *)
Definition window (now_unix : Z) : list Z :=
  filter (λ e, 0 <= e <= u64_max) ((λ o, epoch_index now_unix + o) <$> EPOCH_WINDOW).

Section tags.
Context `{R : RdvCrypto}.

Definition peer_tag (m : RendezvousPeer) (host : list byte) (epoch : Z) : Tag :=
  derive_tag (rp_case m) (rp_static_x m) (rp_eph_x m) host epoch.

(** The tags of one pairing route in [registration]: admission, then live. *)
Definition route_secrets (r : PairingRoute) : list (array 16) :=
  option_list (es_secret <$> pr_admission r) ++ option_list (lp_secret <$> pr_live r).

(** The derivation of [tag_for_send] past the cache. *)
Definition derive_for_send (b : TagBook) (peer : NodeId) (host : list byte) (epoch : Z) : option Tag :=
  match (r ← tb_pairing b !! peer;
         match pr_admission r with
         | Some a => Some (derive_pairing_tag (es_secret a) host epoch)
         | None => (λ l, derive_pairing_tag (lp_secret l) host epoch) <$> pr_live r
         end) with
  | Some tag => Some tag
  | None =>
    match tb_paired b !! peer with
    | Some secret => Some (derive_paired_route_tag secret host epoch)
    | None => (λ m, peer_tag m host epoch) <$> tb_peers b !! peer
    end
  end.

Definition tag_for_send (b : TagBook) (peer : NodeId) (host : list byte) (now_unix : Z) :
    TagBook * option Tag :=
  let b := prune_expired b now_unix in
  let epoch := epoch_index now_unix in
  let b := if bool_decide (tb_cache_host b = host) then b else set_tb_cache b host ∅ in
  match tb_cache b !! (peer, epoch) with
  | Some tag => (b, Some tag)
  | None =>
    match derive_for_send b peer host epoch with
    | None => (b, None)
    | Some tag =>
      let cache := if (SEND_CACHE_CAP <=? size (tb_cache b))%nat then ∅ else tb_cache b in
      (set_tb_cache b (tb_cache_host b) (<[(peer, epoch) := tag]> cache), Some tag)
    end
  end.

Context `{!HashIter NodeId RendezvousPeer, !HashIter NodeId PairingRoute, !HashIter NodeId (array 32)}.

(** The tags of each table, in the order [registration] pushes them. *)
Definition peer_tags (b : TagBook) (host : list byte) (epochs : list Z) : list Tag :=
  mbind (λ pm, peer_tag pm.2 host <$> epochs) (hash_iter (tb_peers b)).
Definition pairing_tags (b : TagBook) (host : list byte) (epochs : list Z) : list Tag :=
  mbind (λ pr, mbind (λ s, derive_pairing_tag s host <$> epochs) (route_secrets pr.2))
    (hash_iter (tb_pairing b)).
Definition paired_tags (b : TagBook) (host : list byte) (epochs : list Z) : list Tag :=
  mbind (λ ps, derive_paired_route_tag ps.2 host <$> epochs) (hash_iter (tb_paired b)).

Definition registration (b : TagBook) (host : list byte) (now_unix : Z) : TagBook * list Tag :=
  let b := prune_expired b now_unix in
  let epochs := window now_unix in
  (b, peer_tags b host epochs ++ pairing_tags b host epochs ++ paired_tags b host epochs).

(** [for (peer, x) in map.iter() { for epoch in &epochs { if .. return } }]. *)
Definition find_peer {A} (l : list (NodeId * A)) (matches : A → bool) : option NodeId :=
  fst ∘ snd <$> list_find (λ px, matches px.2 = true) l.

Definition resolve (b : TagBook) (tag : Tag) (host : list byte) (now_unix : Z) :
    TagBook * option NodeId :=
  let b := prune_expired b now_unix in
  let epochs := window now_unix in
  (b,
   match find_peer (hash_iter (tb_peers b)) (λ m,
           existsb (λ e, bool_decide (peer_tag m host e = tag)) epochs) with
   | Some peer => Some peer
   | None =>
     match find_peer (hash_iter (tb_pairing b)) (λ r,
             existsb (λ e, existsb (λ s, bool_decide (derive_pairing_tag s host e = tag))
                             (route_secrets r)) epochs) with
     | Some route => Some route
     | None => find_peer (hash_iter (tb_paired b)) (λ s,
                 existsb (λ e, bool_decide (derive_paired_route_tag s host e = tag)) epochs)
     end
   end).

End tags.

(** ** Histories *)

Inductive BOp : Type :=
  | BUpsert (peer : NodeId) (m : RendezvousPeer)
  | BRemove (peer : NodeId)
  | BUpsertPaired (peer : NodeId) (secret : array 32)
  | BRemovePaired (peer : NodeId)
  | BRegisterPairing (candidates : list NodeId) (secret : array 16) (expires_at : Z)
  | BRemovePairing (route : NodeId)
  | BPromote (route : NodeId) (secret : array 16) (generation now : Z)
  | BRemoveLive (route : NodeId) (generation : Z)
  | BPrune (now : Z)
  | BTagForSend (peer : NodeId) (host : list byte) (now : Z).

Section histories.
Context `{R : RdvCrypto}.

(** [registration], [resolve] and [pairing_active] change the book as [BPrune]. *)
Definition b_step (b : TagBook) (op : BOp) : TagBook :=
  match op with
  | BUpsert peer m => upsert b peer m
  | BRemove peer => remove b peer
  | BUpsertPaired peer secret => upsert_paired b peer secret
  | BRemovePaired peer => remove_paired b peer
  | BRegisterPairing candidates secret expires_at =>
    match register_pairing b candidates secret expires_at with Some (b', _) => b' | None => b end
  | BRemovePairing route => fst (remove_pairing b route)
  | BPromote route secret generation now => fst (promote_pairing b route secret generation now)
  | BRemoveLive route generation => fst (remove_live_pairing b route generation)
  | BPrune now => prune_expired b now
  | BTagForSend peer host now => fst (tag_for_send b peer host now)
  end.

Definition b_run (peers : gmap NodeId RendezvousPeer) (paired : gmap NodeId (array 32))
    (ops : list BOp) : TagBook := foldl b_step (TagBook_with_paired peers paired) ops.

(** ** The send cache *)

(** The material a datagram to [peer] is tagged from. *)
Definition pairing_material (r : PairingRoute) : option route_material :=
  match pr_admission r with
  | Some a => Some (RPairing (es_secret a))
  | None => (λ l, RPairing (lp_secret l)) <$> pr_live r
  end.

Definition send_material (b : TagBook) (peer : NodeId) : option route_material :=
  match tb_pairing b !! peer ≫= pairing_material with
  | Some m => Some m
  | None =>
    match tb_paired b !! peer with
    | Some secret => Some (RPaired secret)
    | None => (λ m, RPair (rp_case m) (rp_static_x m) (rp_eph_x m)) <$> tb_peers b !! peer
    end
  end.

Lemma derive_for_send_material b peer host e :
  derive_for_send b peer host e = (λ m, derive_material m host e) <$> send_material b peer.
Proof.
  unfold derive_for_send, send_material, pairing_material.
  destruct (tb_pairing b !! peer) as [[[a|] [l|]]|]; simpl; try done;
    destruct (tb_paired b !! peer); simpl; try done; by destruct (tb_peers b !! peer).
Qed.

(** The cache holds only what would be derived again, within its bound. *)
Record cache_ok (b : TagBook) : Prop := {
  co_fresh peer e tag : tb_cache b !! (peer, e) = Some tag →
    derive_for_send b peer (tb_cache_host b) e = Some tag;
  co_bound : (size (tb_cache b) ≤ SEND_CACHE_CAP)%nat;
}.

Lemma bump_ok b : cache_ok (bump b).
Proof. split; simpl; [done|]. rewrite map_size_empty. lia. Qed.

(** A change of the tables that no send notices keeps the cache right. *)
Lemma cache_ok_same b b' :
  cache_ok b → (∀ peer, send_material b' peer = send_material b peer) →
  tb_cache b' = tb_cache b → tb_cache_host b' = tb_cache_host b → cache_ok b'.
Proof.
  intros [H1 H2] Hm Hc Hh. split; rewrite Hc; [|done]. rewrite Hh. intros peer e tag Ht.
  apply H1 in Ht. by rewrite derive_for_send_material, Hm, <- derive_for_send_material.
Qed.

Lemma send_material_pairing b m :
  (∀ peer, m !! peer ≫= pairing_material = tb_pairing b !! peer ≫= pairing_material) →
  ∀ peer, send_material (set_tb_pairing b m) peer = send_material b peer.
Proof. intros H peer. unfold send_material. simpl. by rewrite H. Qed.

Lemma expire_route_id now r : route_expires now r = false → expire_route now r = r.
Proof. unfold route_expires, expire_route. destruct (pr_admission r); [|done]. by intros ->. Qed.

Lemma prune_lookup b now route :
  tb_pairing (prune_expired b now) !! route =
  (r ← tb_pairing b !! route;
   if route_kept (expire_route now r) then Some (expire_route now r) else None).
Proof.
  set (m := filter (λ kr, route_kept kr.2 = true) (expire_route now <$> tb_pairing b)).
  assert (E : tb_pairing (prune_expired b now) = m).
  { unfold prune_expired. by destruct (_ || _). }
  rewrite E. subst m. rewrite map_lookup_filter, lookup_fmap.
  destruct (tb_pairing b !! route) as [r|]; simpl; [|done].
  case_guard as G; [by rewrite G|]. by destruct (route_kept _).
Qed.

Lemma prune_ok b now : cache_ok b → cache_ok (prune_expired b now).
Proof.
  intros H. pose proof (prune_lookup b now) as L. unfold prune_expired in *.
  destruct (_ || _) eqn:E in L |- *; [apply bump_ok|].
  apply orb_false_iff in E as [E _]. to_props.
  eapply cache_ok_same; [exact H| |done|done].
  apply send_material_pairing. intros peer. simpl in L. rewrite L.
  destruct (tb_pairing b !! peer) as [r|] eqn:Er; simpl; [|done].
  assert (Hno : route_expires now r = false).
  { apply not_true_iff_false. intros Ht.
    assert (Hin : filter (λ kr : NodeId * PairingRoute, route_expires now kr.2 = true)
      (tb_pairing b) !! peer = Some r) by by apply map_lookup_filter_Some.
    rewrite E in Hin. by rewrite lookup_empty in Hin. }
  rewrite expire_route_id by done. unfold route_kept, pairing_material.
  by destruct r as [[a|] [l|]].
Qed.

Lemma tag_for_send_ok b peer host now : cache_ok b → cache_ok (fst (tag_for_send b peer host now)).
Proof.
  intros H%(prune_ok _ now). unfold tag_for_send. set (b1 := prune_expired b now) in *.
  set (b2 := if bool_decide _ then b1 else _).
  assert (H2 : cache_ok b2 ∧ tb_cache_host b2 = host).
  { subst b2. case_bool_decide; [done|]. split; [|done].
    split; simpl; [done|]. rewrite map_size_empty. lia. }
  destruct H2 as [[F S] Hh]. destruct (tb_cache b2 !! _) eqn:Ec; [by split|].
  destruct (derive_for_send b2 peer host _) as [tag|] eqn:Ed; [|by split].
  set (cache := if (_ <=? _)%nat then ∅ else tb_cache b2).
  assert (Hs : (size cache < SEND_CACHE_CAP)%nat ∧ ∀ k v, cache !! k = Some v → tb_cache b2 !! k = Some v).
  { subst cache. unfold SEND_CACHE_CAP in *. split_if; to_props; [|done].
    rewrite map_size_empty. split; [lia|]. intros k v Hk. by rewrite lookup_empty in Hk. }
  destruct Hs as [Hs Hsub]. split; simpl.
  - intros q e t. rewrite lookup_insert_Some. intros [[[= <- <-] <-]|[_ Hc]]; [by rewrite Hh|].
    apply Hsub, F in Hc. exact Hc.
  - pose proof (map_size_insert (peer, epoch_index now) tag cache) as Hz. destruct (cache !! _); simpl in Hz; lia.
Qed.

(** With a right cache the tag is the one derived afresh. *)
Lemma tag_for_send_derived b peer host now :
  cache_ok b →
  snd (tag_for_send b peer host now) =
    derive_for_send (prune_expired b now) peer host (epoch_index now).
Proof.
  intros H%(prune_ok _ now). unfold tag_for_send. set (b1 := prune_expired b now) in *.
  case_bool_decide as D.
  - destruct (tb_cache b1 !! _) as [tag|] eqn:Ec; [|by destruct (derive_for_send b1 _ _ _)].
    apply (co_fresh _ H) in Ec. by rewrite D in Ec.
  - simpl. by destruct (derive_for_send (set_tb_cache b1 host ∅) _ _ _) eqn:E.
Qed.

Lemma b_step_ok b op : cache_ok b → cache_ok (b_step b op).
Proof.
  intros H. destruct op; cbn [b_step]; try apply bump_ok.
  - unfold remove_paired. case_match; [apply bump_ok|done].
  - unfold register_pairing. destruct (fresh_route b candidates); simpl; [apply bump_ok|done].
  - unfold remove_pairing. destruct (tb_pairing b !! route) as [r|] eqn:Er; [|done]. simpl.
    case_bool_decide as D; [apply bump_ok|].
    eapply cache_ok_same; [exact H| |done|done]. apply send_material_pairing. intros q.
    apply eq_None_not_Some in D. destruct (decide (q = route)) as [->|].
    + rewrite Er. unfold pairing_material. destruct (pr_live r) as [l|] eqn:El.
      * rewrite lookup_insert_eq. simpl. by rewrite D, El.
      * rewrite lookup_delete_eq. simpl. by rewrite D, El.
    + destruct (pr_live r); by rewrite ?lookup_insert_ne, ?lookup_delete_ne.
  - unfold promote_pairing. apply (prune_ok _ now) in H.
    destruct (tb_pairing _ !! route) as [r|]; [|done]. destruct (pr_admission r); [apply bump_ok|done].
  - unfold remove_live_pairing. destruct (tb_pairing b !! route) as [r|] eqn:Er; [|done].
    destruct (match pr_live r with Some l => _ | None => false end); simpl; [apply bump_ok|].
    eapply cache_ok_same; [exact H| |done|done]. apply send_material_pairing. intros q.
    destruct (decide (q = route)) as [->|]; unfold pairing_material.
    + rewrite Er. destruct r as [[a|] [l|]]; simpl; rewrite ?lookup_insert_eq, ?lookup_delete_eq; done.
    + destruct (pr_admission r), (pr_live r); by rewrite ?lookup_insert_ne, ?lookup_delete_ne.
  - by apply prune_ok.
  - by apply tag_for_send_ok.
Qed.

Lemma b_run_ok peers paired ops : cache_ok (b_run peers paired ops).
Proof.
  induction ops as [|op ops IH] using rev_ind.
  - split; simpl; [done|]. rewrite map_size_empty. lia.
  - unfold b_run. rewrite foldl_snoc. by apply b_step_ok.
Qed.

(** The send-tag cache is invisible: after any history of the book, the tag
    stamped on a datagram is the one derived afresh from the current material,
    for the current relay host and epoch, and the cache stays within 4096
    entries. *)
Theorem tag_for_send_uncached peers paired ops peer host now :
  let b := b_run peers paired ops in
  snd (tag_for_send b peer host now) =
    derive_for_send (prune_expired b now) peer host (epoch_index now) ∧
  (cache_len (fst (tag_for_send b peer host now)) ≤ SEND_CACHE_CAP)%nat.
Proof.
  intros b. pose proof (b_run_ok peers paired ops) as H. fold b in H.
  split; [by apply tag_for_send_derived|by apply tag_for_send_ok].
Qed.

End histories.

(** ** Registration and resolution *)

Section resolution.
Context `{R : RdvCrypto}.
Context `{I1 : !HashIter NodeId RendezvousPeer, I2 : !HashIter NodeId PairingRoute,
          I3 : !HashIter NodeId (array 32)}.
Context {L1 : HashIterLaws _ _ I1} {L2 : HashIterLaws _ _ I2} {L3 : HashIterLaws _ _ I3}.

(** [peer] is reachable under the material [m]. *)
Inductive holds_material (b : TagBook) : NodeId → route_material → Prop :=
  | holds_pair peer m : tb_peers b !! peer = Some m →
      holds_material b peer (RPair (rp_case m) (rp_static_x m) (rp_eph_x m))
  | holds_pairing peer r s : tb_pairing b !! peer = Some r → s ∈ route_secrets r →
      holds_material b peer (RPairing s)
  | holds_paired peer s : tb_paired b !! peer = Some s → holds_material b peer (RPaired s).

Lemma hash_iter_elem {K A} `{Countable K} {I : HashIter K A} {L : HashIterLaws K A I} (m : gmap K A) k a :
  (k, a) ∈ hash_iter m ↔ m !! k = Some a.
Proof. rewrite (hash_iter_perm m). apply elem_of_map_to_list. Qed.

(** The tags registered are exactly those of the material held, over the window. *)
Lemma registration_elem b host now tag :
  tag ∈ snd (registration b host now) ↔
  ∃ peer m e, holds_material (prune_expired b now) peer m ∧ e ∈ window now ∧
    tag = derive_material m host e.
Proof.
  unfold registration. simpl. set (b1 := prune_expired b now). set (es := window now).
  rewrite !elem_of_app. unfold peer_tags, pairing_tags, paired_tags.
  rewrite !list_elem_of_bind. split.
  - intros [([peer m] & Ht & Hi)|[([peer r] & Ht & Hi)|([peer s] & Ht & Hi)]];
      apply hash_iter_elem in Hi; simpl in Ht.
    + apply list_elem_of_fmap in Ht as (e & -> & He). eexists peer, _, e.
      split; [by apply holds_pair|done].
    + apply list_elem_of_bind in Ht as (s & Ht & Hs). apply list_elem_of_fmap in Ht as (e & -> & He).
      eexists peer, _, e. split; [by eapply holds_pairing|done].
    + apply list_elem_of_fmap in Ht as (e & -> & He). eexists peer, _, e.
      split; [by apply holds_paired|done].
  - intros (peer & m & e & Hm & He & ->). destruct Hm as [peer m Hp|peer r s Hp Hs|peer s Hp].
    + left. exists (peer, m). split; [|by apply hash_iter_elem]. by apply (list_elem_of_fmap_2 (peer_tag m host)).
    + right; left. exists (peer, r). split; [|by apply hash_iter_elem]. simpl.
      apply list_elem_of_bind. exists s. split; [|done].
      by apply (list_elem_of_fmap_2 (derive_pairing_tag s host)).
    + right; right. exists (peer, s). split; [|by apply hash_iter_elem].
      by apply (list_elem_of_fmap_2 (derive_paired_route_tag s host)).
Qed.

Lemma existsb_window (f : Z → bool) es : existsb f es = true ↔ ∃ e, e ∈ es ∧ f e = true.
Proof.
  rewrite existsb_exists. split; intros (e & He & Hf); exists e; split; try done;
    by apply list_elem_of_In.
Qed.

Lemma find_peer_Some {A} (l : list (NodeId * A)) f peer :
  find_peer l f = Some peer → ∃ a, (peer, a) ∈ l ∧ f a = true.
Proof.
  unfold find_peer. intros ([i [p a]] & Hf & ->)%fmap_Some.
  apply list_find_Some in Hf as (Hl & Hf & _). exists a. split; [|done].
  by eapply list_elem_of_lookup_2.
Qed.

Lemma find_peer_None {A} (l : list (NodeId * A)) f :
  find_peer l f = None → ∀ p a, (p, a) ∈ l → f a = false.
Proof.
  unfold find_peer. intros Hn%fmap_None. apply list_find_None in Hn. rewrite Forall_forall in Hn.
  intros p a Hin. apply Hn in Hin. simpl in Hin. by apply not_true_iff_false.
Qed.

(** What [resolve] answers is an owner of the tag. *)
Lemma resolve_sound b tag host now peer :
  snd (resolve b tag host now) = Some peer →
  ∃ m e, holds_material (prune_expired b now) peer m ∧ e ∈ window now ∧
    tag = derive_material m host e.
Proof.
  unfold resolve. simpl. set (b1 := prune_expired b now). set (es := window now).
  destruct (find_peer (hash_iter (tb_peers b1)) _) as [p|] eqn:E1.
  - intros [= ->]. apply find_peer_Some in E1 as (m & Hi & Hf). apply hash_iter_elem in Hi.
    apply existsb_window in Hf as (e & He & Hf). to_props. eexists _, e. split; [by apply holds_pair|].
    split; [done|]. by rewrite <- Hf.
  - destruct (find_peer (hash_iter (tb_pairing b1)) _) as [p|] eqn:E2.
    + intros [= ->]. apply find_peer_Some in E2 as (r & Hi & Hf). apply hash_iter_elem in Hi.
      apply existsb_window in Hf as (e & He & Hf). apply existsb_exists in Hf as (s & Hs & Hf).
      apply list_elem_of_In in Hs. to_props. eexists _, e. split; [by eapply holds_pairing|].
      split; [done|]. by rewrite <- Hf.
    + intros E3. apply find_peer_Some in E3 as (s & Hi & Hf). apply hash_iter_elem in Hi.
      apply existsb_window in Hf as (e & He & Hf). to_props. eexists _, e.
      split; [by apply holds_paired|]. split; [done|]. by rewrite <- Hf.
Qed.

Lemma resolve_complete b tag host now peer m e :
  holds_material (prune_expired b now) peer m → e ∈ window now → tag = derive_material m host e →
  is_Some (snd (resolve b tag host now)).
Proof.
  intros Hm He ->. unfold resolve. simpl. set (b1 := prune_expired b now) in *.
  destruct (find_peer (hash_iter (tb_peers b1)) _) as [p|] eqn:E1; [by eexists|].
  destruct (find_peer (hash_iter (tb_pairing b1)) _) as [p|] eqn:E2; [by eexists|].
  destruct (find_peer (hash_iter (tb_paired b1)) _) as [p|] eqn:E3; [by eexists|]. exfalso.
  destruct Hm as [peer m Hp|peer r s Hp Hs|peer s Hp].
  - pose proof (find_peer_None _ _ E1 peer m (proj2 (hash_iter_elem _ _ _) Hp)) as Hf.
    apply not_true_iff_false in Hf. apply Hf. apply existsb_window. exists e.
    split; [done|]. by apply bool_decide_true.
  - pose proof (find_peer_None _ _ E2 peer r (proj2 (hash_iter_elem _ _ _) Hp)) as Hf.
    apply not_true_iff_false in Hf. apply Hf. apply existsb_window. exists e.
    split; [done|]. apply existsb_exists. exists s. split; [by apply list_elem_of_In|].
    by apply bool_decide_true.
  - pose proof (find_peer_None _ _ E3 peer s (proj2 (hash_iter_elem _ _ _) Hp)) as Hf.
    apply not_true_iff_false in Hf. apply Hf. apply existsb_window. exists e.
    split; [done|]. by apply bool_decide_true.
Qed.

(** An inbound tag resolves to a peer exactly when this endpoint registered
    it, and then to a peer whose own current material yields that tag in one of
    the three epochs of the window. *)
Theorem resolve_registered b tag host now :
  (is_Some (snd (resolve b tag host now)) ↔ tag ∈ snd (registration b host now)) ∧
  (∀ peer, snd (resolve b tag host now) = Some peer →
     ∃ m e, holds_material (prune_expired b now) peer m ∧ e ∈ window now ∧
       tag = derive_material m host e).
Proof.
  split; [|by apply resolve_sound]. rewrite registration_elem. split.
  - intros [peer Hr]. apply resolve_sound in Hr as (m & e & ?). by exists peer, m, e.
  - intros (peer & m & e & Hm & He & Ht). by eapply resolve_complete.
Qed.

(** ** Clock skew *)

Lemma window_elem now e :
  e ∈ window now ↔ 0 <= e <= u64_max ∧ epoch_index now - 1 <= e <= epoch_index now + 1.
Proof.
  unfold window, EPOCH_WINDOW. rewrite list_elem_of_filter. cbn [fmap list_fmap].
  rewrite !elem_of_cons, elem_of_nil. lia.
Qed.

Lemma epoch_skew now now' :
  u64 now → u64 now' → Z.abs (now - now') <= EPOCH_SECONDS → epoch_index now ∈ window now'.
Proof.
  intros H1 H2 Hd. apply window_elem. unfold epoch_index, EPOCH_SECONDS, u64, u64_max in *.
  pose proof (Z.div_mod now 3600 ltac:(lia)). pose proof (Z.mod_pos_bound now 3600 ltac:(lia)).
  pose proof (Z.div_mod now' 3600 ltac:(lia)). pose proof (Z.mod_pos_bound now' 3600 ltac:(lia)).
  split; nia.
Qed.

(** Two ends that hold the same material meet across an hour of clock
    skew: the tag the sender stamps is registered by the receiver, and resolves
    there, whatever their two clocks say within one epoch of each other. *)
Theorem tags_meet_across_skew b b' peer peer' m host now now'
  (Hnow : u64 now) (Hnow' : u64 now') (Hskew : Z.abs (now - now') <= EPOCH_SECONDS)
  (Hsend : send_material (prune_expired b now) peer = Some m)
  (Hheld : holds_material (prune_expired b' now') peer' m) :
  ∃ tag, derive_for_send (prune_expired b now) peer host (epoch_index now) = Some tag ∧
    tag ∈ snd (registration b' host now') ∧ is_Some (snd (resolve b' tag host now')).
Proof.
  exists (derive_material m host (epoch_index now)).
  pose proof (epoch_skew _ _ Hnow Hnow' Hskew) as He. split_and!.
  - by rewrite derive_for_send_material, Hsend.
  - apply registration_elem. by exists peer', m, (epoch_index now).
  - by eapply resolve_complete.
Qed.

(** ** The size of a registration *)

Lemma bind_length_const {A B} (f : A → list B) l n :
  (∀ a, length (f a) = n) → length (mbind f l) = (length l * n)%nat.
Proof.
  intros H. induction l as [|a l IH]; [done|]. rewrite bind_cons, length_app, H, IH. simpl. lia.
Qed.

Lemma window_length now : u64 now → 3600 <= now → length (window now) = 3%nat.
Proof.
  intros H Hn. unfold window, EPOCH_WINDOW.
  assert (E : 1 <= epoch_index now <= u64_max - 1).
  { unfold epoch_index, EPOCH_SECONDS, u64, u64_max in *. split.
    - apply Z.div_le_lower_bound; lia.
    - apply Z.lt_le_pred, Z.div_lt_upper_bound; lia. }
  cbn [fmap list_fmap]. rewrite !filter_cons_True by lia. done.
Qed.

Lemma hash_iter_length {K A} `{Countable K} {I : HashIter K A} {L : HashIterLaws K A I} (m : gmap K A) :
  length (hash_iter m) = size m.
Proof. rewrite (hash_iter_perm m). apply length_map_to_list. Qed.

Lemma registration_length b host now :
  u64 now → 3600 <= now → tb_pairing b = ∅ →
  length (snd (registration b host now)) = (3 * (size (tb_peers b) + size (tb_paired b)))%nat.
Proof.
  intros Hu Hn Hp. unfold registration. simpl.
  assert (E : tb_peers (prune_expired b now) = tb_peers b ∧
    tb_paired (prune_expired b now) = tb_paired b ∧ tb_pairing (prune_expired b now) = ∅).
  { split_and!; [unfold prune_expired; by destruct (_ || _)..|].
    apply map_eq. intros k. by rewrite prune_lookup, Hp, !lookup_empty. }
  destruct E as (E1 & E2 & E3). unfold peer_tags, pairing_tags, paired_tags.
  rewrite !length_app, E1, E2, E3.
  rewrite (bind_length_const _ _ 3) by (intros; rewrite length_fmap; by apply window_length).
  rewrite (bind_length_const (λ ps : NodeId * array 32, _) _ 3)
    by (intros; rewrite length_fmap; by apply window_length).
  assert (Hz : hash_iter (∅ : gmap NodeId PairingRoute) = []).
  { apply length_zero_iff_nil. by rewrite hash_iter_length, map_size_empty. }
  rewrite Hz, !hash_iter_length. simpl. lia.
Qed.

Lemma oversize_register tags :
  (MAX_TAGS_PER_REGISTER < length tags)%nat → Z.of_nat (length tags) < 2 ^ 16 →
  ∀ f, Frame_decode (Frame_encode (Register tags)) ≠ Ret (Some f).
Proof.
  intros Hl Hs f E. apply encode_decode in E as [Hw E]. destruct f; try discriminate E.
  cbn [Frame_wf] in Hw. cbn [Frame_encode] in E. apply app_inj_1 in E as [_ E1]; [|done].
  apply app_inj_1 in E1 as [E1 _]; [|by rewrite !to_be_length].
  apply (f_equal from_be) in E1. unfold MAX_TAGS_PER_REGISTER in *.
  rewrite !from_to_be_16 in E1 by (unfold u16; lia). lia.
Qed.

(** The registration frame has room for 256 tags but the book has no such
    bound: with 86 or more pairs the frame the endpoint sends is one no decoder
    accepts, and the relay closes the session as malformed. *)
Theorem registration_overflows_frame b host now
  (Hu : u64 now) (Hn : 3600 <= now) (Hp : tb_pairing b = ∅)
  (Hmany : (86 ≤ size (tb_peers b) + size (tb_paired b) ≤ 4000)%nat) :
  ∀ f, Frame_decode (Frame_encode (Register (snd (registration b host now)))) ≠ Ret (Some f).
Proof.
  apply oversize_register; rewrite registration_length by done; unfold MAX_TAGS_PER_REGISTER; lia.
Qed.

End resolution.

(** ** Pairing routes *)

Lemma pairing_active_iff b route now :
  snd (pairing_active b route now) = true ↔
  ∃ r a, tb_pairing b !! route = Some r ∧ pr_admission r = Some a ∧ now < es_expires_at a.
Proof.
  unfold pairing_active. cbn [snd]. rewrite bool_decide_eq_true, prune_lookup.
  destruct (tb_pairing b !! route) as [r|]; simpl; [|split; [by intros []|naive_solver]].
  unfold expire_route, route_kept. destruct (pr_admission r) as [a|] eqn:Ea.
  - destruct (Z.leb_spec (es_expires_at a) now); simpl.
    + split; [|intros (r' & a' & [= <-] & ? & ?); simplify_eq; lia].
      destruct (pr_live r); simpl; by intros [].
    + rewrite Ea. simpl. split; [|by eauto]. intros _. exists r, a. auto with lia.
  - rewrite Ea. split; [|naive_solver]. destruct (pr_live r); simpl; rewrite ?Ea; by intros [].
Qed.

(** A pairing admission is good exactly until its expiry or until its
    handle is dropped; only an active admission can be promoted to a live
    route; dropping the admission keeps the live route of a connection that
    already switched, and a superseded connection cannot remove its successor's
    live route. *)
Theorem pairing_lifecycle b route now :
  (snd (pairing_active b route now) = true ↔
     ∃ r a, tb_pairing b !! route = Some r ∧ pr_admission r = Some a ∧ now < es_expires_at a) ∧
  snd (pairing_active (fst (remove_pairing b route)) route now) = false ∧
  (∀ s g, snd (promote_pairing b route s g now) = snd (pairing_active b route now)) ∧
  (∀ r l, tb_pairing b !! route = Some r → pr_live r = Some l →
     (∃ r', tb_pairing (fst (remove_pairing b route)) !! route = Some r' ∧ pr_live r' = Some l) ∧
     (∀ g, g ≠ lp_generation l →
        tb_pairing (fst (remove_live_pairing b route g)) !! route = Some r)).
Proof.
  split_and!; [apply pairing_active_iff|..].
  - apply not_true_iff_false. rewrite pairing_active_iff. intros (r & a & Hr & Ha & _).
    unfold remove_pairing in Hr. destruct (tb_pairing b !! route) as [r0|] eqn:E0; [|by simplify_eq/=].
    simpl in Hr. assert (Hr' : match pr_live r0 with
      | Some _ => <[route := mkPairingRoute None (pr_live r0)]> (tb_pairing b)
      | None => delete route (tb_pairing b) end !! route = Some r) by by case_bool_decide.
    destruct (pr_live r0); [|by rewrite lookup_delete_eq in Hr'].
    rewrite lookup_insert_eq in Hr'. by injection Hr' as <-.
  - intros s g. unfold promote_pairing, pairing_active. cbn [snd].
    destruct (tb_pairing (prune_expired b now) !! route) as [r|]; [|done]. simpl.
    by destruct (pr_admission r).
  - intros r l Hr Hl. split.
    + exists (mkPairingRoute None (Some l)). unfold remove_pairing. rewrite Hr. simpl. rewrite Hl.
      case_bool_decide; simpl; by rewrite lookup_insert_eq.
    + intros g Hg. unfold remove_live_pairing. rewrite Hr, Hl.
      rewrite (proj2 (Z.eqb_neq _ _)) by done. simpl. rewrite Hl.
      destruct (pr_admission r); simpl; by rewrite lookup_insert_eq.
Qed.

(** ** Concrete books *)

#[local] Existing Instance toy_rdv.
#[local] Instance ex_peers_order : HashIter NodeId RendezvousPeer := map_order _ _.
#[local] Instance ex_pairing_order : HashIter NodeId PairingRoute := map_order _ _.
#[local] Instance ex_paired_order : HashIter NodeId (array 32) := map_order _ _.
#[local] Existing Instance map_order_laws.

Definition ex_id (n : Z) : NodeId := mkNodeId (pad_array 32 (to_be 2 n)).
Definition ex_secret : array 32 := pad_array 32 (lit "shared secret").

Definition ex_alice : TagBook := upsert_paired (TagBook_new ∅) (ex_id 2) ex_secret.
Definition ex_bob : TagBook := upsert_paired (TagBook_new ∅) (ex_id 1) ex_secret.

Lemma tags_meet_across_skew_witness :
  ∃ tag, derive_for_send (prune_expired ex_alice 7300) (ex_id 2) (lit "relay.example") 2 = Some tag ∧
    is_Some (snd (resolve ex_bob tag (lit "relay.example") 10800)).
Proof.
  destruct (tags_meet_across_skew ex_alice ex_bob (ex_id 2) (ex_id 1) (RPaired ex_secret)
    (lit "relay.example") 7300 10800) as (tag & H1 & _ & H2).
  - split; vm_compute; congruence.
  - split; vm_compute; congruence.
  - vm_compute; congruence.
  - reflexivity.
  - apply holds_paired. reflexivity.
  - exists tag. split; [exact H1|exact H2].
Defined.

Lemma resolve_registered_witness :
  is_Some (snd (resolve ex_bob (derive_paired_route_tag ex_secret (lit "relay.example") 2)
    (lit "relay.example") 7300)) ↔
  derive_paired_route_tag ex_secret (lit "relay.example") 2
    ∈ snd (registration ex_bob (lit "relay.example") 7300).
Proof. apply (resolve_registered ex_bob). Defined.

(** A roster of 86 pairs. *)
Definition ex_roster : TagBook :=
  TagBook_new (list_to_map ((λ n, (ex_id (Z.of_nat n),
    mkRendezvousPeer TagNone (pad_array 32 []) (pad_array 32 []))) <$> seq 0 86)).

Lemma registration_overflows_frame_witness :
  size (tb_peers ex_roster) = 86%nat ∧
  ∀ f, Frame_decode (Frame_encode (Register (snd (registration ex_roster (lit "relay.example") 7300))))
    ≠ Ret (Some f).
Proof.
  split; [vm_compute; reflexivity|].
  apply (registration_overflows_frame ex_roster).
  - split; vm_compute; congruence.
  - vm_compute; congruence.
  - reflexivity.
  - assert (E : (size (tb_peers ex_roster) + size (tb_paired ex_roster))%nat = 86%nat)
      by (vm_compute; reflexivity).
    rewrite E. lia.
Defined.
