(* ===== verification/RelayClient.v ===== *)
(** * RelayClient: relay URLs, drivers and the pool ([link-endpoint/src/relay_client.rs])

    Relay URL parsing with the host rule a browser and a native dial agree on,
    write-readiness, the driver's queue, the reconnect loop, the session pump and
    the driver pool.  A string is its bytes.  The WebSocket underneath
    ([RelaySocket]) is I/O: what it delivers and whether a write succeeded are
    inputs, what is written is output.  A waker is a number. *)

From S2P Require Import Prelude Net Id Rendezvous Card Wire Paths TagBook.

Open Scope Z_scope.

Definition BACKOFF_MIN : Z := secs 1.
Definition BACKOFF_MAX : Z := secs 30.
Definition RECONNECT_DEADLINE : Z := secs 60.
Definition CONNECT_TIMEOUT : Z := secs 10.
Definition PING_INTERVAL : Z := secs 20.

(** ** Strings *)

Definition ch (s : string) : byte := default Byte.x00 (head (lit s)).

(** [str::strip_prefix]. *)
Definition strip_prefix (p s : list byte) : option (list byte) :=
  if bool_decide (take (length p) s = p) then Some (drop (length p) s) else None.

(** [str::split_once] on a one byte separator. *)
Fixpoint split_once (c : byte) (s : list byte) : option (list byte * list byte) :=
  match s with
  | [] => None
  | x :: s' =>
    if bool_decide (x = c) then Some ([], s')
    else match split_once c s' with
         | Some (a, b) => Some (x :: a, b)
         | None => None
         end
  end.

(** [str::rsplit_once]: at the last separator. *)
Definition rsplit_once (c : byte) (s : list byte) : option (list byte * list byte) :=
  match split_once c (rev s) with
  | Some (a, b) => Some (rev b, rev a)
  | None => None
  end.

(** [str::split] on a one byte separator. *)
Fixpoint split_on (c : byte) (s : list byte) : list (list byte) :=
  match s with
  | [] => [[]]
  | x :: s' =>
    if bool_decide (x = c) then [] :: split_on c s'
    else match split_on c s' with
         | l :: ls => (x :: l) :: ls
         | [] => [[x]]
         end
  end.

Definition is_ascii_graphic (b : byte) : bool := in_range 0x21 0x7e b.
Definition is_ascii_digit (b : byte) : bool := in_range 0x30 0x39 b.
Definition is_ascii_lowercase (b : byte) : bool := in_range 0x61 0x7a b.
Definition is_ascii_hexdigit (b : byte) : bool :=
  in_range 0x30 0x39 b || in_range 0x61 0x66 b || in_range 0x41 0x46 b.
Definition to_ascii_lowercase (b : byte) : byte :=
  if in_range 0x41 0x5a b then byte_of_Z (byte_to_Z b + 32) else b.

(** The value of a run of decimal digits. *)
Definition digits_value (s : list byte) : Z :=
  foldl (λ a b, a * 10 + (byte_to_Z b - 0x30)) 0 s.

(** [p.parse::<u16>()] of a string of ASCII digits. *)
Definition parse_u16 (s : list byte) : option Z :=
  if bool_decide (s = []) then None
  else if 65535 <? digits_value s then None else Some (digits_value s).

(** Decimal printing of a machine integer; twenty digits hold any [u64]. *)
Fixpoint print_dec (fuel : nat) (z : Z) : list byte :=
  match fuel with
  | O => []
  | S fuel' => (if z <? 10 then [] else print_dec fuel' (z / 10)) ++ [byte_of_Z (0x30 + z mod 10)]
  end.
Definition print_num (z : Z) : list byte := print_dec 20 z.

(** ** Canonical hosts *)

(** [Ipv4Addr::from_str] then [to_string]: four octets in the one decimal
    spelling without leading zeros that the parser accepts. *)
Definition ipv4_octet (s : list byte) : bool :=
  forallb is_ascii_digit s && (1 <=? length s)%nat && (length s <=? 3)%nat &&
  ((length s =? 1)%nat || negb (bool_decide (head s = Some (ch "0")))) && (digits_value s <=? 255).

Definition canonical_ipv4 (s : list byte) : bool :=
  let parts := split_on (ch ".") s in (length parts =? 4)%nat && forallb ipv4_octet parts.

Definition hex_value (b : byte) : Z :=
  let z := byte_to_Z b in
  if in_range 0x30 0x39 b then z - 0x30 else if in_range 0x61 0x66 b then z - 0x61 + 10 else z - 0x41 + 10.

(** A group of an IPv6 address: one to four hexadecimal digits. *)
Definition parse_group (s : list byte) : option Z :=
  if forallb is_ascii_hexdigit s && (1 <=? length s)%nat && (length s <=? 4)%nat
  then Some (foldl (λ a b, a * 16 + hex_value b) 0 s) else None.

Definition parse_groups (s : list byte) : option (list Z) :=
  if bool_decide (s = []) then Some [] else mapM parse_group (split_on (ch ":") s).

(** Cut at the first [::]. *)
Fixpoint cut_double (s : list byte) : option (list byte * list byte) :=
  match s with
  | x :: s' =>
    if bool_decide (x = ch ":") && bool_decide (head s' = Some (ch ":")) then Some ([], drop 1 s')
    else match cut_double s' with Some (a, b) => Some (x :: a, b) | None => None end
  | [] => None
  end.

(** [Ipv6Addr::from_str] of a text without a dot. *)
Definition parse_ipv6 (s : list byte) : option (list Z) :=
  match cut_double s with
  | None =>
    gs ← parse_groups s; if (length gs =? 8)%nat then Some gs else None
  | Some (a, b) =>
    ga ← parse_groups a;
    gb ← parse_groups b;
    if (length ga + length gb <=? 7)%nat
    then Some (ga ++ replicate (8 - length ga - length gb) 0 ++ gb) else None
  end.

Definition hex_digit (v : Z) : byte := byte_of_Z (if v <? 10 then 0x30 + v else 0x61 + v - 10).

Fixpoint print_hex (fuel : nat) (z : Z) : list byte :=
  match fuel with
  | O => []
  | S fuel' => (if z <? 16 then [] else print_hex fuel' (z / 16)) ++ [hex_digit (z mod 16)]
  end.

(** The first longest run of zero groups, as (start, length). *)
Fixpoint longest_zeros (gs : list Z) (i cur_start cur_len best_start best_len : nat) : nat * nat :=
  match gs with
  | [] => (best_start, best_len)
  | g :: gs' =>
    if g =? 0 then
      let start := if (cur_len =? 0)%nat then i else cur_start in
      let len := S cur_len in
      if (best_len <? len)%nat then longest_zeros gs' (S i) start len start len
      else longest_zeros gs' (S i) start len best_start best_len
    else longest_zeros gs' (S i) 0 0 best_start best_len
  end.

Fixpoint print_groups (gs : list Z) : list byte :=
  match gs with
  | [] => []
  | [g] => print_hex 4 g
  | g :: gs' => print_hex 4 g ++ [ch ":"] ++ print_groups gs'
  end.

(** [Ipv4Addr]'s [Display]. *)
Definition print_ipv4 (a b c d : Z) : list byte :=
  print_num a ++ [ch "."] ++ print_num b ++ [ch "."] ++ print_num c ++ [ch "."] ++ print_num d.

(** [Ipv6Addr]'s [Display]; a v4-mapped address prints its last two groups as
    an IPv4 address. *)
Definition print_ipv6 (gs : list Z) : list byte :=
  if bool_decide (take 6 gs = [0; 0; 0; 0; 0; 0xffff])
  then
    let g6 := default 0 (gs !! 6%nat) in
    let g7 := default 0 (gs !! 7%nat) in
    lit "::ffff:" ++ print_ipv4 (g6 / 256) (g6 mod 256) (g7 / 256) (g7 mod 256)
  else
    let '(start, len) := longest_zeros gs 0 0 0 0 0 in
    if (1 <? len)%nat
    then print_groups (take start gs) ++ lit "::" ++ print_groups (drop (start + len) gs)
    else print_groups gs.

Definition canonical_ipv6 (inner : list byte) : bool :=
  negb (bool_decide (ch "." ∈ inner)) &&
  match parse_ipv6 inner with
  | Some gs => bool_decide (print_ipv6 gs = inner)
  | None => false
  end.

Definition strip_brackets (host : list byte) : option (list byte) :=
  h ← strip_prefix (lit "[") host;
  if bool_decide (last h = Some (ch "]")) then Some (take (length h - 1) h) else None.

Definition dns_label (label : list byte) : bool :=
  (1 <=? length label)%nat && (length label <=? 63)%nat &&
  negb (bool_decide (head label = Some (ch "-"))) && negb (bool_decide (last label = Some (ch "-"))) &&
  forallb (λ b, is_ascii_lowercase b || is_ascii_digit b || bool_decide (b = ch "-")) label.

Definition canonical_host (host : list byte) : bool :=
  match strip_brackets host with
  | Some inner => canonical_ipv6 inner
  | None =>
    let labels := split_on (ch ".") host in
    let last := default [] (last labels) in
    let numeric := negb (bool_decide (last = [])) &&
      (forallb is_ascii_digit last ||
       match strip_prefix (lit "0x") last with
       | Some hex => forallb is_ascii_hexdigit hex
       | None => false
       end) in
    if numeric then canonical_ipv4 host
    else (length host <=? 253)%nat && forallb dns_label labels
  end.

(** ** Relay specifications *)

Record RelaySpec : Type := mkRelaySpec {
  spec_url : list byte;
  spec_cert_sha256 : option (list byte);
  spec_insecure_tls : bool;
}.

#[global] Instance RelaySpec_eq_dec : EqDecision RelaySpec.
Proof. solve_decision. Defined.

Definition RelaySpec_plain (url : list byte) : RelaySpec := mkRelaySpec url None false.
Definition RelaySpec_pinned (url cert : list byte) : RelaySpec := mkRelaySpec url (Some cert) false.

Definition url_char (b : byte) : bool :=
  is_ascii_graphic b && negb (bool_decide (b = ch "%")) && negb (bool_decide (b = Byte.x5c)) &&
  negb (bool_decide (b = ch "#")).

Record UrlParts : Type := mkUrlParts { u_tls : bool; u_host : list byte; u_port : Z; u_path : list byte }.

Definition url_scheme (url : list byte) : option (bool * list byte) :=
  match strip_prefix (lit "wss://") url with
  | Some rest => Some (true, rest)
  | None => (λ rest, (false, rest)) <$> strip_prefix (lit "ws://") url
  end.

(** The match on [authority.rsplit_once(':')]; [None] is [parse::<u16>()?]. *)
Definition host_port (tls : bool) (authority : list byte) : option (list byte * Z) :=
  let no_port := Some (authority, if tls then 443 else 80) in
  match rsplit_once (ch ":") authority with
  | Some (h, p) =>
    if negb (bool_decide (h = [])) && forallb is_ascii_digit p
    then port ← parse_u16 p; Some (h, port)
    else no_port
  | None => no_port
  end.

Definition RelaySpec_parts (spec : RelaySpec) : option UrlParts :=
  match url_scheme (spec_url spec) with
  | None => None
  | Some (tls, rest) =>
    if negb (forallb url_char (spec_url spec)) then None
    else
      let '(authority, path) := match split_once (ch "/") rest with
                                | Some (a, p) => (a, [ch "/"] ++ p)
                                | None => (rest, [ch "/"])
                                end in
      match host_port tls authority with
      | None => None
      | Some (h, port) =>
        let host := to_ascii_lowercase <$> h in
        if canonical_host host then Some (mkUrlParts tls host port path) else None
      end
  end.

Definition RelaySpec_host (spec : RelaySpec) : option (list byte) := u_host <$> RelaySpec_parts spec.

Definition RelaySpec_browser_url (spec : RelaySpec) : option (list byte) :=
  if bool_decide (is_Some (spec_cert_sha256 spec)) then None
  else if spec_insecure_tls spec then None
  else
    p ← RelaySpec_parts spec;
    if u_tls p
    then Some (lit "wss://" ++ u_host p ++ [ch ":"] ++ print_num (u_port p) ++ u_path p)
    else None.

(** ** Write-readiness *)

Record WriteReadiness : Type := mkReadiness { wr_wakers : list (Z * Z); wr_next : Z }.

Definition WriteReadiness_new_id (w : WriteReadiness) : WriteReadiness * Z :=
  (mkReadiness (wr_wakers w) (wr_next w + 1), wr_next w).

Fixpoint replace_waker (l : list (Z * Z)) (id waker : Z) : option (list (Z * Z)) :=
  match l with
  | [] => None
  | (i, w) :: l' =>
    if i =? id then Some ((i, waker) :: l')
    else (λ r, (i, w) :: r) <$> replace_waker l' id waker
  end.

Definition WriteReadiness_register (w : WriteReadiness) (id waker : Z) : WriteReadiness :=
  mkReadiness (match replace_waker (wr_wakers w) id waker with
               | Some l => l
               | None => wr_wakers w ++ [(id, waker)]
               end) (wr_next w).

Definition WriteReadiness_unregister (w : WriteReadiness) (id : Z) : WriteReadiness :=
  mkReadiness (filter (λ e, e.1 ≠ id) (wr_wakers w)) (wr_next w).

(** [wake_all]: the wakers woken, in order. *)
Definition WriteReadiness_wake_all (w : WriteReadiness) : WriteReadiness * list Z :=
  (mkReadiness [] (wr_next w), (wr_wakers w).*2).

(** ** One driver *)

Inductive RelayStatus : Type :=
  | Connecting
  | Up (url : list byte)
  | Reconnecting
  | Superseded
  | Failed.

#[global] Instance RelayStatus_eq_dec : EqDecision RelayStatus.
Proof. solve_decision. Defined.

Record RelayActivity : Type := mkActivity {
  ra_registrations_sent : Z;
  ra_tag_datagrams_sent : Z;
  ra_tag_datagrams_received : Z;
  ra_tag_datagrams_resolved : Z;
}.

Definition RelayActivity_default : RelayActivity := mkActivity 0 0 0 0.

(** The handle of a driver: its outbound queue, whether the task still holds
    the receiving end, the status and the events broadcast so far. *)
Record Driver : Type := mkDriver {
  d_id : Z;
  d_urls : list (list byte);
  d_queue : list Frame;
  d_receiving : bool;
  d_status : RelayStatus;
  d_events : list RelayStatus;
  d_memo : option (list byte * list byte);
  d_activity : RelayActivity;
  d_stop : bool;
}.

Definition d_set_queue (d : Driver) (q : list Frame) : Driver :=
  mkDriver (d_id d) (d_urls d) q (d_receiving d) (d_status d) (d_events d) (d_memo d) (d_activity d) (d_stop d).
Definition d_set_memo (d : Driver) (m : option (list byte * list byte)) : Driver :=
  mkDriver (d_id d) (d_urls d) (d_queue d) (d_receiving d) (d_status d) (d_events d) m (d_activity d) (d_stop d).
Definition d_set_activity (d : Driver) (a : RelayActivity) : Driver :=
  mkDriver (d_id d) (d_urls d) (d_queue d) (d_receiving d) (d_status d) (d_events d) (d_memo d) a (d_stop d).
Definition d_set_stop (d : Driver) (b : bool) : Driver :=
  mkDriver (d_id d) (d_urls d) (d_queue d) (d_receiving d) (d_status d) (d_events d) (d_memo d) (d_activity d) b.
Definition d_set_receiving (d : Driver) (b : bool) : Driver :=
  mkDriver (d_id d) (d_urls d) (d_queue d) b (d_status d) (d_events d) (d_memo d) (d_activity d) (d_stop d).

Definition set_status (d : Driver) (next : RelayStatus) : Driver :=
  if bool_decide (d_status d = next) then d
  else mkDriver (d_id d) (d_urls d) (d_queue d) (d_receiving d) next (d_events d ++ [next]) (d_memo d)
         (d_activity d) (d_stop d).

(** [spawn_driver]: the handle as it starts. *)
Definition spawn_driver (id : Z) (relays : list RelaySpec) : Driver :=
  mkDriver id (spec_url <$> relays) [] true Connecting [] None RelayActivity_default false.

(** [mpsc::Sender::try_send] on the outbound queue. *)
Inductive QueueSend : Type := QSent (d : Driver) | QFull | QClosed.

Definition queue_send (d : Driver) (f : Frame) : QueueSend :=
  if negb (d_receiving d) then QClosed
  else if (length (d_queue d) <? MAX_QUEUED_FRAMES)%nat then QSent (d_set_queue d (d_queue d ++ [f]))
  else QFull.

(** [with_current_host]: the host of the relay the session is on, with the memo. *)
Definition current_host (d : Driver) : Driver * option (list byte) :=
  match d_status d with
  | Up url =>
    let parse :=
      match RelaySpec_host (RelaySpec_plain url) with
      | Some h => (d_set_memo d (Some (url, h)), Some h)
      | None => (d, None)
      end in
    match d_memo d with
    | Some (memo_url, host) => if bool_decide (memo_url = url) then (d, Some host) else parse
    | None => parse
    end
  | _ => (d, None)
  end.

(** [outbound.capacity() > 0]; a dropped receiver has drained its queue. *)
Definition driver_has_capacity (d : Driver) : bool := negb (d_receiving d) || (length (d_queue d) <? MAX_QUEUED_FRAMES)%nat.

Definition count_registration (a : RelayActivity) : RelayActivity :=
  mkActivity (ra_registrations_sent a + 1) (ra_tag_datagrams_sent a) (ra_tag_datagrams_received a) (ra_tag_datagrams_resolved a).
Definition count_sent (a : RelayActivity) : RelayActivity :=
  mkActivity (ra_registrations_sent a) (ra_tag_datagrams_sent a + 1) (ra_tag_datagrams_received a) (ra_tag_datagrams_resolved a).
Definition count_received (a : RelayActivity) : RelayActivity :=
  mkActivity (ra_registrations_sent a) (ra_tag_datagrams_sent a) (ra_tag_datagrams_received a + 1) (ra_tag_datagrams_resolved a).
Definition count_resolved (a : RelayActivity) : RelayActivity :=
  mkActivity (ra_registrations_sent a) (ra_tag_datagrams_sent a) (ra_tag_datagrams_received a) (ra_tag_datagrams_resolved a + 1).

Inductive PumpEnd : Type := Lost | PumpSuperseded.

Inductive WsMessage : Type :=
  | WsBinary (bytes : list byte)
  | WsPing (payload : list byte)
  | WsPong
  | WsOther.

(** The locals of one [pump]. *)
Record Pump : Type := mkPump { pp_host : list byte; pp_last_epoch : Z; pp_last_version : Z }.

(** Where the driver task is: in the reconnect loop, inside [pump], or returned. *)
Inductive RunPhase : Type := Dialling | Pumping (p : Pump) | Returned.

(** A driver task with what it shares: the handle, the tag book ([None] is
    identity mode), the inbound queue of the path socket and the locals of the
    loop. *)
Record Run : Type := mkRun {
  r_driver : Driver;
  r_book : option TagBook;
  r_inbound : list (NodeId * list byte * Z);
  r_index : nat;
  r_backoff : Z;
  r_down_since : option Z;
  r_phase : RunPhase;
}.

Definition r_set_driver (r : Run) (d : Driver) : Run :=
  mkRun d (r_book r) (r_inbound r) (r_index r) (r_backoff r) (r_down_since r) (r_phase r).
Definition r_set_book (r : Run) (b : option TagBook) : Run :=
  mkRun (r_driver r) b (r_inbound r) (r_index r) (r_backoff r) (r_down_since r) (r_phase r).
Definition r_set_inbound (r : Run) (q : list (NodeId * list byte * Z)) : Run :=
  mkRun (r_driver r) (r_book r) q (r_index r) (r_backoff r) (r_down_since r) (r_phase r).
Definition r_set_phase (r : Run) (p : RunPhase) : Run :=
  mkRun (r_driver r) (r_book r) (r_inbound r) (r_index r) (r_backoff r) (r_down_since r) p.
Definition r_count (f : RelayActivity → RelayActivity) (r : Run) : Run :=
  r_set_driver r (d_set_activity (r_driver r) (f (d_activity (r_driver r)))).
Definition r_status (r : Run) (s : RelayStatus) : Run := r_set_driver r (set_status (r_driver r) s).

(** What a turn writes to the socket. *)
Inductive PumpSent : Type := PFrame (f : Frame) | PPong (payload : list byte).

(** What a turn puts out: the bytes written, whether readiness is woken, and
    how long the loop then sleeps. *)
Record Out : Type := mkOut { o_sent : list PumpSent; o_wake : bool; o_sleep : Z }.

Definition quiet : Out := mkOut [] false 0.

(** [inbound.try_send]: a full queue is loss. *)
Definition r_deliver (r : Run) (source : NodeId) (datagram : list byte) : Run :=
  if (length (r_inbound r) <? INBOUND_CAPACITY)%nat
  then r_set_inbound r (r_inbound r ++ [(source, datagram, d_id (r_driver r))])
  else r.

Section driver.
Context `{C : Crypto, R : RdvCrypto}.
Context `{!HashIter NodeId RendezvousPeer, !HashIter NodeId PairingRoute, !HashIter NodeId (array 32)}.

(** The tail of [RelayDriver::try_send]. *)
Definition finish_send (d : Driver) (frame : Frame) : Driver * QueueOutcome :=
  let up := match d_status d with Up _ => true | _ => false end in
  match queue_send d frame with
  | QSent d' => (d', Queued)
  | QFull => (d, if up then WouldBlock else Dropped)
  | QClosed => (d, Dropped)
  end.

(** [RelayDriver::try_send] when no turn of the driver task falls between its reads and
    its queueing; [book] is the book of a tag-mode driver.  The four steps it is made of,
    with the task's turns between them, are the machine of [Sends], where
    [Sends.uninterrupted_send] shows that this is their composition. *)
Definition driver_try_send (d : Driver) (book : option TagBook) (destination : NodeId)
    (datagram : list byte) (now_unix : Z) : Driver * option TagBook * QueueOutcome :=
  if d_stop d then (d, book, Dropped)
  else
    match book with
    | None => let '(d, o) := finish_send d (Send destination datagram) in (d, None, o)
    | Some b =>
      let '(d, host) := current_host d in
      match host with
      | None => (d, Some b, Dropped)
      | Some host =>
        let '(b, tag) := tag_for_send b destination host now_unix in
        match tag with
        | None => (d, Some b, Dropped)
        | Some tag =>
          let '(d, o) := finish_send d (SendTag tag datagram) in (d, Some b, o)
        end
      end
    end.

(** ** Connecting *)

(** What the network does during [connect]: whether the socket opened, what
    arrived first, whether this side's frame could be written, what arrived
    after it; and the clock at its two reads, by [connect] for the registration
    and, once welcomed, by [pump] for its first epoch.  A timeout is the failing
    input at the point it struck. *)
Record Dial : Type := mkDial {
  dl_opened : bool;
  dl_first : option Frame;
  dl_unix : Z;
  dl_send_ok : bool;
  dl_reply : option Frame;
  dl_pumped : Z;
}.

(** [connect]: the task afterwards, the frame written, and whether the session
    is welcomed.  [None] is every [bail!] and [?]. *)
Definition connect (key : TransportKey) (spec : RelaySpec) (r : Run) (n : Dial) :
    Run * list PumpSent * option unit :=
  match RelaySpec_host spec with
  | None => (r, [], None)
  | Some host =>
    if negb (dl_opened n) then (r, [], None)
    else match dl_first n with
    | Some (Challenge challenge) =>
      let welcome := match dl_reply n with Some (Welcome _) => Some tt | _ => None end in
      match r_book r with
      | None =>
        if dl_send_ok n
        then (r, [PFrame (Auth (tk_node_id key) (sign_relay_auth key host challenge))], welcome)
        else (r, [], None)
      | Some b =>
        let '(b, tags) := registration b host (dl_unix n) in
        let r := r_set_book r (Some b) in
        if bool_decide (tags = []) then (r, [], None)
        else if dl_send_ok n
        then (r_count count_registration r, [PFrame (Register tags)], welcome)
        else (r, [], None)
      end
    | _ => (r, [], None)
    end
  end.

(** ** The reconnect loop *)

(** The relay dialled in a pass. *)
Definition dialled (relays : list RelaySpec) (r : Run) : option RelaySpec :=
  relays !! (r_index r mod length relays)%nat.

(** The arm for an attempt that failed: [now] is read for [get_or_insert_with],
    [elapsed_now] for [elapsed]. *)
Definition attempt_failed (r : Run) (now elapsed_now : Z) (sent : list PumpSent) : Run * Out :=
  let since := default now (r_down_since r) in
  let late := RECONNECT_DEADLINE <? duration_since elapsed_now since in
  let d := set_status (r_driver r) (if late then Failed else Reconnecting) in
  (mkRun d (r_book r) (r_inbound r) (S (r_index r)) (Z.min (r_backoff r * 2) BACKOFF_MAX)
     (Some since) Dialling,
   mkOut sent late (r_backoff r)).

(** The arm for an attempt that came up, to the call of [pump]. *)
Definition attempt_up (r : Run) (spec : RelaySpec) (now_unix : Z) (sent : list PumpSent) : Run * Out :=
  let d := set_status (d_set_queue (r_driver r) []) (Up (spec_url spec)) in
  let p := mkPump (default [] (RelaySpec_host spec)) (epoch_index now_unix)
             (default 0 (tb_version <$> r_book r)) in
  (mkRun d (r_book r) (r_inbound r) (r_index r) BACKOFF_MIN (r_down_since r) (Pumping p),
   mkOut sent true 0).

(** What follows the return of [pump]. *)
Definition session_ended (r : Run) (ended : PumpEnd) (now : Z) (sent : list PumpSent) : Run * Out :=
  match ended, r_book r with
  | PumpSuperseded, None =>
    (r_set_phase (r_set_driver r (d_set_receiving (set_status (r_driver r) Superseded) false)) Returned,
     mkOut sent true 0)
  | _, _ =>
    (mkRun (set_status (r_driver r) Reconnecting) (r_book r) (r_inbound r) (S (r_index r)) (r_backoff r)
       (Some now) Dialling,
     mkOut sent true (match ended with PumpSuperseded => BACKOFF_MAX | Lost => 0 end))
  end.

(** The branch for a book with nothing in it. *)
Definition idle_pass (r : Run) : Run * Out :=
  (mkRun (set_status (r_driver r) Connecting) (r_book r) (r_inbound r) (r_index r) (r_backoff r) None Dialling,
   mkOut [] false BACKOFF_MIN).

(** One pass of the loop up to [pump] or to the next pass. *)
Definition loop_pass (key : TransportKey) (relays : list RelaySpec) (r : Run) (n : Dial)
    (now elapsed_now : Z) : Run * Out :=
  if default false (book_is_empty <$> r_book r) then idle_pass r
  else match dialled relays r with
  | None => (r, quiet)
  | Some spec =>
    match connect key spec r n with
    | (r, sent, Some _) => attempt_up r spec (dl_pumped n) sent
    | (r, sent, None) => attempt_failed r now elapsed_now sent
    end
  end.

(** [spawn_driver] and the start of [driver]: no relay at all fails at once. *)
Definition run_start (id : Z) (relays : list RelaySpec) (book : option TagBook) : Run :=
  let d := spawn_driver id relays in
  match relays with
  | [] => mkRun (d_set_receiving (set_status d Failed) false) book [] 0 BACKOFF_MIN None Returned
  | _ => mkRun d book [] 0 BACKOFF_MIN None Dialling
  end.

(** ** The pump *)

(** A turn of [pump]: the task, what was written, whether readiness is woken,
    and why the pump ended, if it did. *)
Record PumpTurn : Type := mkPumpTurn {
  pt_run : Run;
  pt_sent : list PumpSent;
  pt_wake : bool;
  pt_end : option PumpEnd;
}.

Definition pump_on (r : Run) : PumpTurn := mkPumpTurn r [] false None.
Definition pump_end (r : Run) (e : PumpEnd) : PumpTurn := mkPumpTurn r [] false (Some e).

(** Register the book's current tags, as two branches do. *)
Definition pump_register (r : Run) (p : Pump) (b : TagBook) (epoch now_unix : Z) (send_ok : bool) : PumpTurn :=
  let version := tb_version b in
  let '(b, tags) := registration b (pp_host p) now_unix in
  let r := r_set_phase (r_set_book r (Some b)) (Pumping (mkPump (pp_host p) epoch version)) in
  if send_ok
  then mkPumpTurn (r_count count_registration r) [PFrame (Register tags)] false None
  else pump_end r Lost.

Definition pump_refresh (r : Run) (p : Pump) (now_epoch now_unix : Z) (send_ok : bool) : PumpTurn :=
  match r_book r with
  | None => pump_on r
  | Some b =>
    let current := epoch_index now_epoch in
    if negb (current =? pp_last_epoch p) || negb (tb_version b =? pp_last_version p)
    then pump_register r p b current now_unix send_ok
    else pump_on r
  end.

Definition pump_changed (r : Run) (p : Pump) (ok : bool) (now_epoch now_unix : Z) (send_ok : bool) : PumpTurn :=
  match r_book r with
  | None => pump_on r
  | Some b =>
    if negb ok then pump_end r Lost
    else pump_register r p b (epoch_index now_epoch) now_unix send_ok
  end.

(** The [outbound] branch as far as its first suspension: [outbound.recv], which
    waits while the queue is empty. *)
Definition outbound_take (r : Run) : option (Frame * Run) :=
  match d_queue (r_driver r) with
  | [] => None
  | frame :: q => Some (frame, r_set_driver r (d_set_queue (r_driver r) q))
  end.

(** The rest of the branch, from the completion of the awaited [ws.send]: [r] is the
    task as it is by then, so that the capacity read sees what was queued meanwhile. *)
Definition outbound_written (r : Run) (frame : Frame) (send_ok : bool) : PumpTurn :=
  if negb send_ok then pump_end r Lost
  else
    let r := match frame with SendTag _ _ => r_count count_sent r | _ => r end in
    mkPumpTurn r [PFrame frame]
      (MAX_QUEUED_FRAMES / 2 <=? MAX_QUEUED_FRAMES - length (d_queue (r_driver r)))%nat None.

(** The [outbound] branch when nothing touches the queue while the write waits, a turn
    of the machine below.  What else may run in that gap, and that no waiting sender is
    forgotten over it, is [Backpressure.write_gap_keeps_wakeups]. *)
Definition pump_outbound (r : Run) (send_ok : bool) : PumpTurn :=
  match outbound_take r with
  | None => pump_on r
  | Some (frame, r) => outbound_written r frame send_ok
  end.

(** The [message] branch. *)
Definition pump_message (r : Run) (p : Pump) (message : option (result unit WsMessage)) (now_unix : Z)
    (send_ok : bool) : PumpTurn :=
  match message with
  | Some (Ok (WsBinary bytes)) =>
    match run_opt (Frame_decode bytes) with
    | Some (Recv source datagram) =>
      match r_book r with
      | Some _ => pump_end r Lost
      | None => pump_on (r_deliver r source datagram)
      end
    | Some (RecvTag tag datagram) =>
      match r_book r with
      | None => pump_end r Lost
      | Some b =>
        let r := r_count count_received r in
        let '(b, who) := resolve b tag (pp_host p) now_unix in
        let r := r_set_book r (Some b) in
        match who with
        | Some peer => pump_on (r_deliver (r_count count_resolved r) peer datagram)
        | None => pump_on r
        end
      end
    | Some (Pong _) => pump_on r
    | Some (Close reason) =>
      pump_end r (if reason =? CLOSE_REASON_SUPERSEDED then PumpSuperseded else Lost)
    | _ => pump_end r Lost
    end
  | Some (Ok (WsPing payload)) =>
    if send_ok then mkPumpTurn r [PPong payload] false None else pump_end r Lost
  | Some (Ok WsPong) => pump_on r
  | Some (Ok WsOther) => pump_end r Lost
  | _ => pump_end r Lost
  end.

(** The keepalive branch. *)
Definition pump_ping (r : Run) (nonce : array 8) (send_ok : bool) : PumpTurn :=
  if send_ok then mkPumpTurn r [PFrame (Ping nonce)] false None else pump_end r Lost.

(** A turn and, where the pump ended, what [driver] does next. *)
Definition after_turn (t : PumpTurn) (now : Z) : Run * Out :=
  match pt_end t with
  | None => (pt_run t, mkOut (pt_sent t) (pt_wake t) 0)
  | Some e => session_ended (pt_run t) e now (pt_sent t)
  end.

(** ** The driver task as a machine *)

Inductive DEvent : Type :=
  | DPass (n : Dial) (now elapsed_now : Z)
  | DPing (nonce : array 8) (send_ok : bool) (now : Z)
  | DRefresh (now_epoch now_unix : Z) (send_ok : bool) (now : Z)
  | DChanged (ok : bool) (now_epoch now_unix : Z) (send_ok : bool) (now : Z)
  | DOutbound (send_ok : bool) (now : Z)
  | DMessage (m : option (result unit WsMessage)) (now_unix : Z) (send_ok : bool) (now : Z)
  | DSend (destination : NodeId) (datagram : list byte) (now_unix : Z)
  | DBook (op : BOp)
  | DTake
  | DClose
  | DStopped.

(** [DSend], [DBook], [DTake] and [DClose] are what the rest of the endpoint
    does to the shared state; the others are the task's own turns. *)
Definition d_step (key : TransportKey) (relays : list RelaySpec) (r : Run) (e : DEvent) : Run * Out :=
  match e, r_phase r with
  | DPass n now elapsed_now, Dialling => loop_pass key relays r n now elapsed_now
  | DPing nonce ok now, Pumping _ => after_turn (pump_ping r nonce ok) now
  | DRefresh ne nu ok now, Pumping p => after_turn (pump_refresh r p ne nu ok) now
  | DChanged c ne nu ok now, Pumping p => after_turn (pump_changed r p c ne nu ok) now
  | DOutbound ok now, Pumping _ => after_turn (pump_outbound r ok) now
  | DMessage m nu ok now, Pumping p => after_turn (pump_message r p m nu ok) now
  | DSend dst dg nu, _ =>
    let '(d, b, _) := driver_try_send (r_driver r) (r_book r) dst dg nu in
    (r_set_book (r_set_driver r d) b, quiet)
  | DBook op, _ => (r_set_book r ((λ b, b_step b op) <$> r_book r), quiet)
  | DTake, _ => (r_set_inbound r (drop 1 (r_inbound r)), quiet)
  | DClose, _ => (r_set_driver r (d_set_stop (r_driver r) true), quiet)
  | DStopped, (Dialling | Pumping _) =>
    if d_stop (r_driver r)
    then (r_set_phase (r_set_driver r (d_set_receiving (set_status (r_driver r) Failed) false)) Returned,
          mkOut [] true 0)
    else (r, quiet)
  | _, _ => (r, quiet)
  end.

(** A history of a driver, with everything it wrote. *)
Definition d_run (key : TransportKey) (id : Z) (relays : list RelaySpec)
    (tables : option (gmap NodeId RendezvousPeer * gmap NodeId (array 32)))
    (es : list DEvent) : Run * list PumpSent :=
  foldl (λ '(r, w) e, let '(r, o) := d_step key relays r e in (r, w ++ o_sent o))
    (run_start id relays ((λ t, TagBook_with_paired t.1 t.2) <$> tables), []) es.

End driver.

(** ** The pool *)

Definition MAX_EXTRA_DRIVERS : nat := 16.

Record RelayClient : Type := mkRelayClient {
  rc_home : Z;
  rc_next_id : Z;
  rc_extra : gmap (list (list byte)) Z;
  rc_by_id : gmap Z Driver;
}.

Definition RelayClient_spawn (relays : list RelaySpec) : RelayClient :=
  mkRelayClient 0 1 ∅ {[0 := spawn_driver 0 relays]}.

Definition rc_driver (c : RelayClient) (id : Z) : option Driver := rc_by_id c !! id.

(** [self.home.urls] and [self.home.stop], through the shared handle. *)
Definition home_urls (c : RelayClient) : list (list byte) :=
  default [] (d_urls <$> rc_by_id c !! rc_home c).
Definition home_stopped (c : RelayClient) : bool :=
  default false (d_stop <$> rc_by_id c !! rc_home c).

Definition driver_for (c : RelayClient) (relays : list RelaySpec) : RelayClient * Z :=
  let urls := spec_url <$> relays in
  if bool_decide (urls = []) || bool_decide (urls = home_urls c) then (c, rc_home c)
  else if home_stopped c then (c, rc_home c)
  else match rc_extra c !! urls with
  | Some id => (c, id)
  | None =>
    if (MAX_EXTRA_DRIVERS <=? size (rc_extra c))%nat then (c, rc_home c)
    else
      let id := rc_next_id c in
      (mkRelayClient (rc_home c) (id + 1) (<[urls := id]> (rc_extra c))
         (<[id := spawn_driver id relays]> (rc_by_id c)), id)
  end.

Definition RelayClient_close (c : RelayClient) : RelayClient :=
  mkRelayClient (rc_home c) (rc_next_id c) (rc_extra c)
    ((λ d, d_set_stop d true) <$> rc_by_id c).

(** ** Properties of relay URLs *)

Lemma strip_prefix_app p s : strip_prefix p (p ++ s) = Some s.
Proof.
  unfold strip_prefix. rewrite take_app_length, drop_app_length.
  by rewrite bool_decide_true.
Qed.

Lemma strip_prefix_Some p s r : strip_prefix p s = Some r → s = p ++ r.
Proof.
  unfold strip_prefix. destruct (bool_decide_reflect (take (length p) s = p)) as [D|D]; [|done].
  intros [= <-]. rewrite <- (take_drop (length p) s) at 1. by rewrite D.
Qed.

Lemma split_once_Some c s a b : split_once c s = Some (a, b) → s = a ++ c :: b ∧ c ∉ a.
Proof.
  revert a b. induction s as [|x s IH]; intros a b; cbn; [done|].
  destruct (bool_decide_reflect (x = c)) as [->|D].
  - intros [= <- <-]. split; [done|]. apply not_elem_of_nil.
  - destruct (split_once c s) as [[a' b']|] eqn:E; [|done].
    intros [= <- <-]. destruct (IH _ _ eq_refl) as [-> ?].
    split; [done|]. rewrite elem_of_cons. intros [->|?]; done.
Qed.

Lemma split_once_None c s : split_once c s = None → c ∉ s.
Proof.
  induction s as [|x s IH]; cbn; [intros _; apply not_elem_of_nil|].
  destruct (bool_decide_reflect (x = c)) as [->|D]; [done|].
  destruct (split_once c s) as [[a' b']|] eqn:E; [done|].
  intros _. rewrite elem_of_cons. intros [->|?]; [done|]. by apply IH.
Qed.

Lemma split_once_app c a b : c ∉ a → split_once c (a ++ c :: b) = Some (a, b).
Proof.
  induction a as [|x a IH]; intros Ha; cbn.
  - by rewrite bool_decide_true.
  - rewrite not_elem_of_cons in Ha. destruct Ha as [Hx Ha].
    rewrite bool_decide_false by congruence. by rewrite (IH Ha).
Qed.

Lemma rsplit_once_app c a b : c ∉ b → rsplit_once c (a ++ c :: b) = Some (a, b).
Proof.
  intros Hb. unfold rsplit_once. rewrite rev_app_distr. cbn [rev]. rewrite <- app_assoc. cbn [app].
  rewrite split_once_app.
  - by rewrite !rev_involutive.
  - rewrite list_elem_of_In, <- in_rev. by rewrite <- list_elem_of_In.
Qed.

Lemma rsplit_once_Some c s a b : rsplit_once c s = Some (a, b) → s = a ++ c :: b ∧ c ∉ b.
Proof.
  unfold rsplit_once. destruct (split_once c (rev s)) as [[x y]|] eqn:E; [|done].
  intros [= <- <-]. apply split_once_Some in E as [E Hx]. split.
  - rewrite <- (rev_involutive s), E, rev_app_distr. cbn [rev]. by rewrite <- app_assoc.
  - rewrite list_elem_of_In, <- in_rev. by rewrite <- list_elem_of_In.
Qed.

Lemma digits_value_snoc s b : digits_value (s ++ [b]) = digits_value s * 10 + (byte_to_Z b - 0x30).
Proof. unfold digits_value. by rewrite foldl_snoc. Qed.

Lemma print_dec_correct fuel z :
  (0 < fuel)%nat → 0 <= z < 10 ^ Z.of_nat fuel →
  digits_value (print_dec fuel z) = z ∧ forallb is_ascii_digit (print_dec fuel z) = true ∧
  print_dec fuel z ≠ [].
Proof.
  revert z. induction fuel as [|fuel IH]; intros z Hf Hz; [lia|]. cbn [print_dec].
  assert (Hd : 0 <= z mod 10 < 10) by (apply Z.mod_pos_bound; lia).
  assert (Hb : byte_to_Z (byte_of_Z (0x30 + z mod 10)) = 0x30 + z mod 10) by (apply byte_to_Z_small; lia).
  rewrite digits_value_snoc, Hb, forallb_app. cbn [forallb].
  assert (Hdig : is_ascii_digit (byte_of_Z (0x30 + z mod 10)) = true).
  { unfold is_ascii_digit, in_range. rewrite Hb. lia. }
  rewrite Hdig. split_and!; [| |by destruct (if z <? 10 then _ else _)].
  - destruct (Z.ltb_spec z 10).
    + cbn. rewrite Z.mod_small; lia.
    + destruct fuel as [|fuel]; [cbn in Hz; lia|].
      destruct (IH (z / 10)) as [-> _]; [lia| |].
      * split; [apply Z.div_pos; lia|]. apply Z.div_lt_upper_bound; [lia|].
        rewrite (Nat2Z.inj_succ (S fuel)), Z.pow_succ_r in Hz; lia.
      * pose proof (Z.div_mod z 10). lia.
  - destruct (Z.ltb_spec z 10); [done|].
    destruct fuel as [|fuel]; [cbn in Hz; lia|].
    destruct (IH (z / 10)) as (_ & -> & _); [lia| |done].
    split; [apply Z.div_pos; lia|]. apply Z.div_lt_upper_bound; [lia|].
    rewrite (Nat2Z.inj_succ (S fuel)), Z.pow_succ_r in Hz; lia.
Qed.

Lemma print_num_correct z :
  u16 z → digits_value (print_num z) = z ∧ forallb is_ascii_digit (print_num z) = true ∧ print_num z ≠ [].
Proof. intros Hz. apply print_dec_correct; [lia|]. unfold u16 in Hz. lia. Qed.

Lemma parse_print_u16 z : u16 z → parse_u16 (print_num z) = Some z.
Proof.
  intros Hz. destruct (print_num_correct z Hz) as (Hv & _ & Hne). unfold parse_u16.
  rewrite bool_decide_false by done. rewrite Hv. unfold u16 in Hz.
  by rewrite (proj2 (Z.ltb_ge 65535 z)) by lia.
Qed.

Lemma digit_value_nonneg s : forallb is_ascii_digit s = true → 0 <= digits_value s.
Proof.
  induction s as [|b s IH] using rev_ind; [done|].
  rewrite forallb_app, digits_value_snoc. cbn. unfold is_ascii_digit, in_range. intros H.
  apply andb_prop in H as [Hs Hb]. specialize (IH Hs). lia.
Qed.

Lemma parse_u16_range s z : forallb is_ascii_digit s = true → parse_u16 s = Some z → u16 z.
Proof.
  intros Hs. unfold parse_u16, u16. case_bool_decide; [done|].
  destruct (Z.ltb_spec 65535 (digits_value s)); [done|]. intros [= <-].
  pose proof (digit_value_nonneg s Hs). lia.
Qed.

(** Facts about single bytes, by cases. *)
Lemma lower_idem b : to_ascii_lowercase (to_ascii_lowercase b) = to_ascii_lowercase b.
Proof. by destruct b. Qed.
Lemma lower_url_char b : url_char b = true → url_char (to_ascii_lowercase b) = true.
Proof. by destruct b. Qed.
Lemma lower_slash b : to_ascii_lowercase b = ch "/" → b = ch "/".
Proof. by destruct b. Qed.
Lemma digit_url_char b : is_ascii_digit b = true → url_char b = true.
Proof. by destruct b. Qed.
Lemma digit_not_slash b : is_ascii_digit b = true → b ≠ ch "/" ∧ b ≠ ch ":".
Proof. by destruct b. Qed.

Lemma digits_no_sep s : forallb is_ascii_digit s = true → (ch "/" ∉ s) ∧ ch ":" ∉ s.
Proof.
  rewrite forallb_forall. intros H.
  split; intros Hin%list_elem_of_In; destruct (digit_not_slash _ (H _ Hin)); done.
Qed.

Lemma forallb_mono {A} (f g : A → bool) l :
  (∀ x, f x = true → g x = true) → forallb f l = true → forallb g l = true.
Proof. rewrite !forallb_forall. auto. Qed.

Lemma lower_url_chars s :
  forallb url_char s = true → forallb url_char (to_ascii_lowercase <$> s) = true.
Proof.
  induction s as [|b s IH]; [done|]. cbn [fmap list_fmap forallb].
  rewrite !andb_true_iff. intros [Hb Hs]. auto using lower_url_char.
Qed.

(** What the authority's match yields: a part of the authority and a port. *)
Lemma host_port_spec tls authority h port :
  host_port tls authority = Some (h, port) →
  u16 port ∧ (∃ rest, authority = h ++ rest) .
Proof.
  unfold host_port.
  assert (D : Some (authority, if tls then 443 else 80) = Some (h, port) →
              u16 port ∧ ∃ rest, authority = h ++ rest).
  { intros [= <- <-]. split; [unfold u16; destruct tls; lia|]. exists []. by rewrite app_nil_r. }
  destruct (rsplit_once _ authority) as [[x y]|] eqn:E; [|done].
  destruct (negb _ && forallb is_ascii_digit y) eqn:G; [|done].
  apply andb_prop in G as [_ G]. destruct (parse_u16 y) as [z|] eqn:Ez; cbn; [|done].
  intros [= <- <-]. split; [by eapply parse_u16_range|].
  apply rsplit_once_Some in E as [-> _]. eauto.
Qed.

(** The parts of a URL: every field in its canonical shape. *)
Lemma parts_spec spec p :
  RelaySpec_parts spec = Some p →
  u16 (u_port p) ∧ canonical_host (u_host p) = true ∧
  to_ascii_lowercase <$> u_host p = u_host p ∧
  forallb url_char (u_host p) = true ∧ forallb url_char (u_path p) = true ∧
  (ch "/" ∉ u_host p) ∧ ∃ rest, u_path p = ch "/" :: rest.
Proof.
  unfold RelaySpec_parts. destruct (url_scheme _) as [[tls rest]|] eqn:Es; [|done].
  destruct (forallb url_char (spec_url spec)) eqn:Hu; [|done]. cbn [negb].
  assert (Hr : forallb url_char rest = true).
  { unfold url_scheme in Es. destruct (strip_prefix _ (spec_url spec)) eqn:E1.
    - injection Es as <- <-. rewrite (strip_prefix_Some _ _ _ E1), forallb_app in Hu.
      by apply andb_prop in Hu as [_ ?].
    - destruct (strip_prefix (lit "ws://") _) eqn:E2; [|done]. injection Es as <- <-.
      rewrite (strip_prefix_Some _ _ _ E2), forallb_app in Hu. by apply andb_prop in Hu as [_ ?]. }
  assert (HS : ∃ a path, (match split_once (ch "/") rest with
                          | Some (a, p) => (a, [ch "/"] ++ p)
                          | None => (rest, [ch "/"])
                          end) = (a, path) ∧ forallb url_char a = true ∧ (ch "/" ∉ a) ∧
                         forallb url_char path = true ∧ ∃ t, path = ch "/" :: t).
  { destruct (split_once _ rest) as [[a q]|] eqn:E.
    - apply split_once_Some in E as [-> Ha]. rewrite forallb_app in Hr. apply andb_prop in Hr as [H1 H2].
      eexists _, _. split; [done|]. split_and!; eauto.
    - apply split_once_None in E. eexists _, _. split; [done|]. split_and!; eauto. }
  destruct HS as (a & path & -> & Ha & Hs & Hp & Ht). cbn beta iota.
  destruct (host_port tls a) as [[h port]|] eqn:Ehp; [|done].
  apply host_port_spec in Ehp as [Hport [t ->]].
  rewrite forallb_app in Ha. apply andb_prop in Ha as [Ha _]. rewrite not_elem_of_app in Hs.
  destruct (canonical_host _) eqn:Hc; [|done]. intros [= <-]. cbn.
  split_and!; try done.
  - rewrite <- list_fmap_compose. apply list_fmap_ext. intros ? b _. apply lower_idem.
  - by apply lower_url_chars.
  - intros (b & Hb & Hin)%list_elem_of_fmap. symmetry in Hb. apply lower_slash in Hb as ->. tauto.
Qed.

(** A URL printed from canonical parts. *)
Definition print_url (tls : bool) (host : list byte) (port : Z) (path : list byte) : list byte :=
  (if tls then lit "wss" else lit "ws") ++ lit "://" ++ host ++ lit ":" ++ print_num port ++ path.

(** It parses to them, whatever else the spec says. *)
Lemma print_url_parts tls host port path cert insecure :
  u16 port → canonical_host host = true → to_ascii_lowercase <$> host = host →
  forallb url_char host = true → forallb url_char path = true →
  ch "/" ∉ host → (∃ t, path = ch "/" :: t) →
  RelaySpec_parts (mkRelaySpec (print_url tls host port path) cert insecure) = Some (mkUrlParts tls host port path).
Proof.
  intros Hport Hc Hl Hh Hp Hs [t ->].
  destruct (print_num_correct port Hport) as (_ & Hd & Hne). destruct (digits_no_sep _ Hd) as [Hd1 Hd2].
  unfold RelaySpec_parts. cbn [spec_url].
  assert (Hu : url_scheme (print_url tls host port (ch "/" :: t)) = Some (tls, host ++ lit ":" ++ print_num port ++ ch "/" :: t))
    by (by destruct tls).
  rewrite Hu. cbn beta iota.
  assert (Hall : forallb url_char (print_url tls host port (ch "/" :: t)) = true).
  { unfold print_url. rewrite !forallb_app, Hh, Hp, (forallb_mono _ _ _ digit_url_char Hd). by destruct tls. }
  rewrite Hall. cbn [negb].
  replace (host ++ lit ":" ++ print_num port ++ ch "/" :: t)
    with ((host ++ ch ":" :: print_num port) ++ ch "/" :: t) by (by rewrite <- app_assoc).
  rewrite split_once_app.
  2:{ rewrite not_elem_of_app, not_elem_of_cons. done. }
  cbn beta iota. unfold host_port. rewrite rsplit_once_app by done.
  rewrite Hd. rewrite bool_decide_false by (intros ->; done). cbn [negb andb].
  rewrite parse_print_u16 by done. cbn [mbind option_bind]. by rewrite Hl, Hc.
Qed.

(** The browser's URL for a relay is offered exactly for an unpinned,
    verified [wss://] relay, and what a native dial parses out of it — host to
    sign against, port and path — is what it parses out of the configured URL,
    with a canonical lower-case host and a port of 16 bits; every other relay is
    refused, never downgraded. *)
Theorem browser_url_same_relay (spec : RelaySpec) :
  match RelaySpec_browser_url spec with
  | Some u =>
    spec_cert_sha256 spec = None ∧ spec_insecure_tls spec = false ∧
    ∃ p, RelaySpec_parts spec = Some p ∧ RelaySpec_parts (RelaySpec_plain u) = Some p ∧
      RelaySpec_browser_url (RelaySpec_plain u) = Some u ∧
      u_tls p = true ∧ u16 (u_port p) ∧ canonical_host (u_host p) = true
  | None =>
    is_Some (spec_cert_sha256 spec) ∨ spec_insecure_tls spec = true ∨
    RelaySpec_parts spec = None ∨ u_tls <$> RelaySpec_parts spec = Some false
  end.
Proof.
  unfold RelaySpec_browser_url at 1. destruct (bool_decide_reflect (is_Some (spec_cert_sha256 spec))); [auto|].
  destruct (spec_insecure_tls spec); [auto|].
  destruct (RelaySpec_parts spec) as [p|] eqn:Ep; cbn [mbind option_bind]; [|auto].
  destruct (u_tls p) eqn:Et; [|right; right; right; cbn; by rewrite Et].
  apply parts_spec in Ep as (Hport & Hc & Hl & Hh & Hpath & Hs & Ht).
  assert (Hrt := print_url_parts true _ _ _ None false Hport Hc Hl Hh Hpath Hs Ht).
  change (RelaySpec_parts (RelaySpec_plain (lit "wss://" ++ u_host p ++ [ch ":"] ++ print_num (u_port p) ++ u_path p))
          = Some (mkUrlParts true (u_host p) (u_port p) (u_path p))) in Hrt.
  assert (Hp : mkUrlParts true (u_host p) (u_port p) (u_path p) = p) by (rewrite <- Et; by destruct p).
  rewrite Hp in Hrt. split_and!; [by apply eq_None_not_Some|done|].
  exists p. split_and!; try done.
  unfold RelaySpec_browser_url. rewrite Hrt. cbn. by rewrite Et.
Qed.

(** ** Invariant of the driver task *)

Section driver_invariant.
Context `{C : Crypto, R : RdvCrypto}.
Context `{!HashIter NodeId RendezvousPeer, !HashIter NodeId PairingRoute, !HashIter NodeId (array 32)}.
Variables (key : TransportKey) (id : Z) (relays : list RelaySpec).
Variable tables : option (gmap NodeId RendezvousPeer * gmap NodeId (array 32)).

Definition run_of (es : list DEvent) : Run := (d_run key id relays tables es).1.

(** The tag of a queued datagram: derived for [host] from the book as it stood
    when the datagram was handed over. *)
Definition tagged_for (es : list DEvent) (host : list byte) (tag : Tag) (datagram : list byte) : Prop :=
  ∃ es1 dst now b, es1 ++ [DSend dst datagram now] `prefix_of` es ∧ r_book (run_of es1) = Some b ∧
    derive_for_send (prune_expired b now) dst host (epoch_index now) = Some tag.

(** The frames a mode ever queues. *)
Definition queue_frame (f : Frame) : Prop :=
  match f with
  | SendTag _ _ => is_Some tables
  | Send _ _ => tables = None
  | _ => False
  end.

(** The statuses entered, in order: each differs from the one before it. *)
Definition statuses (d : Driver) : list RelayStatus := Connecting :: d_events d.
Definition log_ok (d : Driver) : Prop :=
  last (statuses d) = Some (d_status d) ∧
  ∀ i x y, statuses d !! i = Some x → statuses d !! S i = Some y → x ≠ y.

Definition phase_ok (r : Run) : Prop :=
  let d := r_driver r in
  match r_phase r with
  | Dialling =>
    d_receiving d = true ∧ (d_status d = Connecting ∨ d_status d = Reconnecting ∨ d_status d = Failed)
  | Pumping p =>
    d_receiving d = true ∧ ∃ spec, dialled relays r = Some spec ∧ d_status d = Up (spec_url spec) ∧
      RelaySpec_host spec = Some (pp_host p)
  | Returned =>
    d_receiving d = false ∧
    (d_status d = Failed ∧ (d_stop d = true ∨ relays = []) ∨ d_status d = Superseded ∧ tables = None)
  end.

Record d_inv (es : list DEvent) (r : Run) : Prop := {
  i_mode : is_Some (r_book r) ↔ is_Some tables;
  i_cache b : r_book r = Some b → cache_ok b;
  i_queue : (length (d_queue (r_driver r)) ≤ MAX_QUEUED_FRAMES)%nat;
  i_inbound : (length (r_inbound r) ≤ INBOUND_CAPACITY)%nat;
  i_backoff : BACKOFF_MIN <= r_backoff r <= BACKOFF_MAX;
  i_memo u h : d_memo (r_driver r) = Some (u, h) → RelaySpec_host (RelaySpec_plain u) = Some h;
  i_log : log_ok (r_driver r);
  i_phase : phase_ok r;
  i_frames : Forall queue_frame (d_queue (r_driver r));
  i_tags p tag datagram : r_phase r = Pumping p → SendTag tag datagram ∈ d_queue (r_driver r) →
    tagged_for es (pp_host p) tag datagram;
}.

Lemma run_of_snoc es e : run_of (es ++ [e]) = (d_step key relays (run_of es) e).1.
Proof.
  unfold run_of, d_run. rewrite foldl_snoc. destruct (foldl _ _ es) as [r w]. cbn.
  by destruct (d_step key relays r e).
Qed.

Lemma d_inv_weaken es e r : d_inv es r → d_inv (es ++ [e]) r.
Proof.
  intros []; split; try done. intros p tag dg Hp Hin.
  destruct (i_tags0 p tag dg Hp Hin) as (es1 & dst & now & b & Hpre & Hrest).
  exists es1, dst, now, b. split; [|done]. etrans; [exact Hpre|]. by apply prefix_app_r.
Qed.

Lemma set_status_log d s : log_ok d → log_ok (set_status d s).
Proof.
  intros [Hl Hd]. unfold set_status. destruct (bool_decide_reflect (d_status d = s)) as [|D]; [done|].
  unfold log_ok, statuses in *. cbn [d_events d_status]. rewrite app_comm_cons.
  split; [apply last_snoc|]. intros i x y Hx Hy.
  destruct (decide (S i < length (Connecting :: d_events d))%nat) as [Hi|Hi].
  - rewrite lookup_app_l in Hx, Hy by lia. eauto.
  - pose proof (lookup_lt_Some _ _ _ Hy) as Hlt. rewrite length_app in Hlt. cbn [length] in Hlt, Hi.
    assert (i = length (d_events d)) as -> by lia.
    rewrite lookup_app_l in Hx by (cbn; lia). rewrite last_lookup in Hl. cbn [length pred] in Hl.
    rewrite Hx in Hl. injection Hl as ->.
    rewrite lookup_app_r in Hy by (cbn; lia). cbn [length] in Hy. rewrite Nat.sub_diag in Hy.
    injection Hy as <-. done.
Qed.

(** [set_status] changes nothing but the status and the log. *)
Lemma set_status_status d s : d_status (set_status d s) = s.
Proof. unfold set_status. by destruct (bool_decide_reflect (d_status d = s)). Qed.
Lemma set_status_queue d s : d_queue (set_status d s) = d_queue d.
Proof. unfold set_status. by case_bool_decide. Qed.
Lemma set_status_receiving d s : d_receiving (set_status d s) = d_receiving d.
Proof. unfold set_status. by case_bool_decide. Qed.
Lemma set_status_memo d s : d_memo (set_status d s) = d_memo d.
Proof. unfold set_status. by case_bool_decide. Qed.
Lemma set_status_stop d s : d_stop (set_status d s) = d_stop d.
Proof. unfold set_status. by case_bool_decide. Qed.

Ltac status :=
  rewrite ?set_status_status, ?set_status_queue, ?set_status_receiving, ?set_status_memo, ?set_status_stop.

(** A task that agrees on what the invariant reads, with a new book. *)
Lemma d_inv_same es r r' :
  d_inv es r →
  (is_Some (r_book r') ↔ is_Some tables) → (∀ b, r_book r' = Some b → cache_ok b) →
  (length (r_inbound r') ≤ INBOUND_CAPACITY)%nat →
  r_backoff r' = r_backoff r → r_index r' = r_index r →
  d_queue (r_driver r') = d_queue (r_driver r) → d_receiving (r_driver r') = d_receiving (r_driver r) →
  d_status (r_driver r') = d_status (r_driver r) → d_events (r_driver r') = d_events (r_driver r) →
  d_memo (r_driver r') = d_memo (r_driver r) →
  (d_stop (r_driver r') = d_stop (r_driver r) ∨ d_stop (r_driver r') = true) →
  match r_phase r, r_phase r' with
  | Pumping p, Pumping p' => pp_host p' = pp_host p
  | x, y => y = x
  end → d_inv es r'.
Proof.
  intros [] Hb Hc Hin Hbk Hi Hq Hr Hs He Hm Hst Hp.
  split; rewrite ?Hq, ?Hm, ?Hbk; try done.
  - unfold log_ok, statuses in *. by rewrite He, Hs.
  - unfold phase_ok, dialled in *. rewrite Hr, Hs, Hi.
    destruct (r_phase r), (r_phase r'); try done; [by rewrite Hp|].
    destruct i_phase0 as [? [[? Ho]|?]]; split; auto. left. split; [done|].
    destruct Ho as [Ho|Ho]; [|auto]. left. destruct Hst as [->| ->]; done.
  - intros p' tag dg Hp' Hin'. rewrite Hp' in Hp. destruct (r_phase r) eqn:E; try done. rewrite Hp. eauto.
Qed.

(** ** What each transition keeps *)

Lemma d_inv_book es r b :
  d_inv es r → (is_Some b ↔ is_Some tables) → (∀ b', b = Some b' → cache_ok b') → d_inv es (r_set_book r b).
Proof. intros H ??. eapply d_inv_same; try done; try apply H; cbn; auto. by destruct (r_phase r). Qed.

Lemma d_inv_count es r f : d_inv es r → d_inv es (r_count f r).
Proof. intros H. eapply d_inv_same; try done; try apply H; cbn; auto. by destruct (r_phase r). Qed.

Lemma d_inv_deliver es r source dg : d_inv es r → d_inv es (r_deliver r source dg).
Proof.
  intros H. unfold r_deliver. destruct (Nat.ltb_spec (length (r_inbound r)) INBOUND_CAPACITY); [|done].
  eapply d_inv_same; try done; try apply H; cbn; auto; [rewrite length_app; cbn; lia|by destruct (r_phase r)].
Qed.

Lemma d_inv_mode es r b : d_inv es r → r_book r = Some b → is_Some tables.
Proof. intros H Hb. apply (i_mode _ _ H). by eexists. Qed.

Lemma d_inv_pop es r f q :
  d_inv es r → d_queue (r_driver r) = f :: q → d_inv es (r_set_driver r (d_set_queue (r_driver r) q)).
Proof.
  intros H Hq. destruct H. rewrite Hq in *. split; cbn; auto.
  - cbn in i_queue0. lia.
  - by apply Forall_cons_1 in i_frames0 as [_ ?].
  - intros p tag dg Hp Hin. apply (i_tags0 p tag dg Hp). by apply elem_of_cons; right.
Qed.

Lemma d_inv_idle es r : d_inv es r → d_receiving (r_driver r) = true → d_inv es (idle_pass r).1.
Proof.
  intros [] Hr. unfold idle_pass. split; cbn; status; auto; [by apply set_status_log|done].
Qed.

Lemma d_inv_failed es r now enow sent :
  d_inv es r → d_receiving (r_driver r) = true → d_inv es (attempt_failed r now enow sent).1.
Proof.
  intros [] Hr. unfold attempt_failed. split; cbn; status; auto.
  - unfold BACKOFF_MIN, BACKOFF_MAX, secs in *. lia.
  - by apply set_status_log.
  - split; [done|]. destruct (_ <? _); auto.
  - done.
Qed.

Lemma d_inv_up es r spec now sent host :
  d_inv es r → d_receiving (r_driver r) = true → dialled relays r = Some spec →
  RelaySpec_host spec = Some host → d_inv es (attempt_up r spec now sent).1.
Proof.
  intros [] Hr Hd Hh. unfold attempt_up. split; cbn; status; cbn; auto.
  - lia.
  - unfold BACKOFF_MIN, BACKOFF_MAX, secs. lia.
  - apply set_status_log. exact i_log0.
  - split; [done|]. exists spec. rewrite Hh. done.
  - intros p tag dg _ Hin. by apply not_elem_of_nil in Hin.
Qed.

Lemma d_inv_ended es r ended now sent :
  d_inv es r → d_receiving (r_driver r) = true → d_inv es (session_ended r ended now sent).1.
Proof.
  intros H Hr. assert (Hm := i_mode _ _ H). destruct H. unfold session_ended.
  assert (Hre : d_inv es (mkRun (set_status (r_driver r) Reconnecting) (r_book r) (r_inbound r)
                 (S (r_index r)) (r_backoff r) (Some now) Dialling)).
  { split; cbn; status; auto; [by apply set_status_log|done]. }
  destruct ended; [done|]. destruct (r_book r) as [b|] eqn:Eb; [done|].
  split; cbn; status; rewrite ?Eb; auto; [by apply set_status_log| |done].
  split; [done|]. right. split; [done|].
  apply eq_None_not_Some. intros Hs. destruct Hm as [_ Hm]. destruct (Hm Hs). done.
Qed.

Lemma d_inv_stopped es r :
  d_inv es r → d_stop (r_driver r) = true →
  d_inv es (r_set_phase (r_set_driver r (d_set_receiving (set_status (r_driver r) Failed) false)) Returned).
Proof.
  intros [] Hs. split; cbn; status; auto; [by apply set_status_log|done].
Qed.

(** What a mode ever writes: in tag mode neither an identity nor a signature. *)
Definition written_ok (s : PumpSent) : Prop :=
  match s with
  | PPong _ | PFrame (Ping _) => True
  | PFrame (Register _) | PFrame (SendTag _ _) => is_Some tables
  | PFrame (Auth node_id _) => tables = None ∧ node_id = tk_node_id key
  | PFrame (Send _ _) => tables = None
  | _ => False
  end.

Lemma mode_none es r : d_inv es r → r_book r = None → tables = None.
Proof.
  intros H Hb. apply eq_None_not_Some. intros Hs. apply (i_mode _ _ H) in Hs as [??]. congruence.
Qed.

Lemma connect_ok es spec r n r' sent ok :
  d_inv es r → connect key spec r n = (r', sent, ok) →
  d_inv es r' ∧ Forall written_ok sent ∧ r_index r' = r_index r ∧ r_phase r' = r_phase r ∧
  d_receiving (r_driver r') = d_receiving (r_driver r) ∧
  (is_Some ok → is_Some (RelaySpec_host spec)).
Proof.
  intros H. unfold connect.
  assert (Hfail : ∀ r1 : Run, (r1, [], None) = (r', sent, ok) → d_inv es r1 →
    r_index r1 = r_index r → r_phase r1 = r_phase r → d_receiving (r_driver r1) = d_receiving (r_driver r) →
    d_inv es r' ∧ Forall written_ok sent ∧ r_index r' = r_index r ∧ r_phase r' = r_phase r ∧
    d_receiving (r_driver r') = d_receiving (r_driver r) ∧ (is_Some ok → is_Some (RelaySpec_host spec))).
  { intros r1 [= <- <- <-] ????. split_and!; auto. by intros []. }
  destruct (RelaySpec_host spec) as [host|]; [|intros E; by apply (Hfail _ E)].
  destruct (dl_opened n); [|intros E; by apply (Hfail _ E)]. cbn [negb].
  destruct (dl_first n) as [[]|]; try (intros E; by apply (Hfail _ E)).
  destruct (r_book r) as [b|] eqn:Eb.
  - destruct (registration b host (dl_unix n)) as [b' tags] eqn:Er.
    assert (Hc : cache_ok b').
    { replace b' with (prune_expired b (dl_unix n)) by (unfold registration in Er; congruence).
      apply prune_ok. by eapply i_cache. }
    assert (Ht := d_inv_mode _ _ _ H Eb).
    assert (H' : d_inv es (r_set_book r (Some b'))).
    { apply d_inv_book; [done|by split|by intros ? [= <-]]. }
    case_bool_decide; [intros E; by apply (Hfail _ E)|].
    destruct (dl_send_ok n); [|intros E; by apply (Hfail _ E)]. intros [= <- <- <-].
    split_and!; auto; by apply d_inv_count.
  - destruct (dl_send_ok n); [|intros E; by apply (Hfail _ E)]. intros [= <- <- <-].
    assert (Ht := mode_none _ _ H Eb). split_and!; auto. by apply Forall_singleton.
Qed.

Lemma loop_pass_ok es r n now enow :
  d_inv es r → r_phase r = Dialling →
  d_inv es (loop_pass key relays r n now enow).1 ∧
  Forall written_ok (o_sent (loop_pass key relays r n now enow).2).
Proof.
  intros H Hp.
  assert (Hr : d_receiving (r_driver r) = true).
  { pose proof (i_phase _ _ H) as P. unfold phase_ok in P. rewrite Hp in P. tauto. }
  unfold loop_pass. destruct (default false _); [split; [by apply d_inv_idle|by constructor]|].
  destruct (dialled relays r) as [spec|] eqn:Ed; [|split; [done|by constructor]].
  destruct (connect key spec r n) as [[r' sent] ok] eqn:Ec.
  destruct (connect_ok _ _ _ _ _ _ _ H Ec) as (H' & Hw & Hi & Hph & Hrec & Hhost).
  rewrite Hr in Hrec. destruct ok as [[]|]; cbn; (split; [|done]).
  - destruct Hhost as [host Hh]; [done|]. eapply (d_inv_up es r' spec (dl_pumped n) sent host); try done.
    unfold dialled in *. by rewrite Hi.
  - by apply (d_inv_failed es r' now enow sent).
Qed.

(** ** Sends *)

Lemma d_inv_memo es r m :
  d_inv es r → (∀ u h, m = Some (u, h) → RelaySpec_host (RelaySpec_plain u) = Some h) →
  d_inv es (r_set_driver r (d_set_memo (r_driver r) m)).
Proof. intros [] Hm. split; cbn; auto. Qed.

Lemma d_inv_push es r f :
  d_inv es r → (length (d_queue (r_driver r)) < MAX_QUEUED_FRAMES)%nat → queue_frame f →
  (∀ p tag dg, f = SendTag tag dg → r_phase r = Pumping p → tagged_for es (pp_host p) tag dg) →
  d_inv es (r_set_driver r (d_set_queue (r_driver r) (d_queue (r_driver r) ++ [f]))).
Proof.
  intros [] Hl Hf Ht. split; cbn; auto.
  - rewrite length_app. cbn. lia.
  - apply Forall_app. auto.
  - intros p tag dg Hp. rewrite elem_of_app, list_elem_of_singleton. intros [Hin|Hin]; [eauto|].
    by eapply Ht.
Qed.

Lemma finish_send_ok es r f d o :
  d_inv es r → queue_frame f →
  (∀ p tag dg, f = SendTag tag dg → r_phase r = Pumping p → tagged_for es (pp_host p) tag dg) →
  finish_send (r_driver r) f = (d, o) → d_inv es (r_set_driver r d).
Proof.
  intros H Hf Ht. assert (Hsame : r_set_driver r (r_driver r) = r) by (by destruct r).
  unfold finish_send, queue_send.
  destruct (d_receiving (r_driver r)); cbn [negb]; [|intros [= <- <-]; by rewrite Hsame].
  destruct (Nat.ltb_spec (length (d_queue (r_driver r))) MAX_QUEUED_FRAMES);
    intros [= <- <-]; [by apply d_inv_push|by rewrite Hsame].
Qed.

(** The host of the current session, from the memo or parsed. *)
Lemma current_host_ok es r d host :
  d_inv es r → current_host (r_driver r) = (d, host) →
  d_inv es (r_set_driver r d) ∧ d_queue d = d_queue (r_driver r) ∧
  ∀ h p, host = Some h → r_phase r = Pumping p → h = pp_host p.
Proof.
  intros H. assert (Hsame : r_set_driver r (r_driver r) = r) by (by destruct r).
  assert (Hhost : ∀ url h p, d_status (r_driver r) = Up url → RelaySpec_host (RelaySpec_plain url) = Some h →
    r_phase r = Pumping p → h = pp_host p).
  { intros url h p Hu Hh Hp. pose proof (i_phase _ _ H) as P. unfold phase_ok in P. rewrite Hp in P.
    destruct P as (_ & spec & _ & Hs & Hsh). rewrite Hu in Hs. injection Hs as ->.
    assert (E : RelaySpec_host (RelaySpec_plain (spec_url spec)) = RelaySpec_host spec) by done.
    congruence. }
  unfold current_host. destruct (d_status (r_driver r)) as [|url| | |] eqn:Es;
    try (intros [= <- <-]; rewrite Hsame; by split_and!).
  assert (Hparse : (match RelaySpec_host (RelaySpec_plain url) with
      | Some h => (d_set_memo (r_driver r) (Some (url, h)), Some h)
      | None => (r_driver r, None) end) = (d, host) →
    d_inv es (r_set_driver r d) ∧ d_queue d = d_queue (r_driver r) ∧
    ∀ h p, host = Some h → r_phase r = Pumping p → h = pp_host p).
  { destruct (RelaySpec_host (RelaySpec_plain url)) as [h|] eqn:Eh; intros [= <- <-].
    - split; [apply d_inv_memo; [done|by intros ? ? [= <- <-]]|]. split; [done|]. intros h' p [= <-]. eauto.
    - rewrite Hsame. by split_and!. }
  destruct (d_memo (r_driver r)) as [[u h]|] eqn:Em; [|done].
  case_bool_decide as D; [|done]. subst u. intros [= <- <-]. rewrite Hsame.
  split; [done|]. split; [done|]. intros h' p [= <-]. eapply Hhost; [done|].
  by eapply i_memo.
Qed.

Lemma try_send_ok es r dst dg now d b o :
  d_inv es r → r = run_of es →
  driver_try_send (r_driver r) (r_book r) dst dg now = (d, b, o) →
  d_inv (es ++ [DSend dst dg now]) (r_set_book (r_set_driver r d) b).
Proof.
  intros H Hrun. assert (Hsame : r_set_book (r_set_driver r (r_driver r)) (r_book r) = r) by (by destruct r).
  assert (Hw := d_inv_weaken _ (DSend dst dg now) _ H). set (es' := es ++ _) in *.
  unfold driver_try_send. destruct (d_stop (r_driver r)); [intros [= <- <- <-]; by rewrite Hsame|].
  destruct (r_book r) as [bk|] eqn:Eb.
  2:{ destruct (finish_send (r_driver r) (Send dst dg)) as [d' o'] eqn:Ef. intros [= <- <- <-].
      assert (Ht := mode_none _ _ H Eb).
      replace (r_set_book (r_set_driver r d') None) with (r_set_driver r d')
        by (unfold r_set_book, r_set_driver; cbn; by rewrite Eb).
      apply (finish_send_ok _ _ (Send dst dg) _ o' Hw Ht); [done|exact Ef]. }
  assert (Ht := d_inv_mode _ _ _ H Eb).
  destruct (current_host (r_driver r)) as [d1 host] eqn:Eh.
  destruct (current_host_ok _ _ _ _ Hw Eh) as (H1 & _ & Hhost).
  destruct host as [host|]; [|intros [= <- <- <-]; apply d_inv_book; [done|by split|]].
  2:{ intros b' [= <-]. by eapply i_cache. }
  assert (Hc := i_cache _ _ H _ Eb).
  pose proof (tag_for_send_derived bk dst host now Hc) as Hder.
  pose proof (tag_for_send_ok bk dst host now Hc) as Hc'.
  destruct (tag_for_send bk dst host now) as [b1 tag]. cbn in Hder, Hc'.
  destruct tag as [tag|]; [|intros [= <- <- <-]; apply d_inv_book; [done|by split|by intros ? [= <-]]].
  destruct (finish_send d1 (SendTag tag dg)) as [d2 o'] eqn:Ef. intros [= <- <- <-].
  apply d_inv_book; [|by split|by intros ? [= <-]].
  change (r_set_driver r d2) with (r_set_driver (r_set_driver r d1) d2).
  apply (finish_send_ok _ _ (SendTag tag dg) _ o' H1 Ht); [|exact Ef].
  cbn. intros p tag' dg' [= <- <-] Hp. rewrite <- (Hhost host p) by done.
  exists es, dst, now, bk. split; [done|]. rewrite <- Hrun. auto.
Qed.

(** ** Turns of the pump *)

Definition turn_ok (es : list DEvent) (t : PumpTurn) : Prop :=
  d_inv es (pt_run t) ∧ (∃ p, r_phase (pt_run t) = Pumping p) ∧ Forall written_ok (pt_sent t).

Lemma pump_on_ok es r p : d_inv es r → r_phase r = Pumping p → turn_ok es (pump_on r).
Proof. intros H Hp. split; [done|]. split; [by eexists|by constructor]. Qed.

Lemma pump_end_ok es r p e : d_inv es r → r_phase r = Pumping p → turn_ok es (pump_end r e).
Proof. intros H Hp. split; [done|]. split; [by eexists|by constructor]. Qed.

Lemma deliver_phase r source dg : r_phase (r_deliver r source dg) = r_phase r.
Proof. unfold r_deliver. by destruct (_ <? _)%nat. Qed.

Lemma pump_register_ok es r p b epoch now ok :
  d_inv es r → r_phase r = Pumping p → r_book r = Some b → turn_ok es (pump_register r p b epoch now ok).
Proof.
  intros H Hp Hb. unfold pump_register, registration. cbn beta iota.
  assert (Ht := d_inv_mode _ _ _ H Hb).
  set (r1 := r_set_phase _ _). assert (H1 : d_inv es r1).
  { eapply d_inv_same; try exact H; cbn; auto.
    - by split.
    - intros b' [= <-]. apply prune_ok. by eapply i_cache.
    - by apply (i_inbound _ _ H).
    - by rewrite Hp. }
  destruct ok; [|by eapply pump_end_ok].
  split; [by apply d_inv_count|]. split; [by eexists|]. by apply Forall_singleton.
Qed.

Lemma pump_outbound_ok es r p ok : d_inv es r → r_phase r = Pumping p → turn_ok es (pump_outbound r ok).
Proof.
  intros H Hp. unfold pump_outbound, outbound_take. destruct (d_queue (r_driver r)) as [|f q] eqn:Eq; [by eapply pump_on_ok|]. unfold outbound_written.
  assert (H1 := d_inv_pop _ _ _ _ H Eq). destruct ok; cbn [negb]; [|by eapply pump_end_ok].
  assert (Hf : queue_frame f).
  { pose proof (i_frames _ _ H) as F. rewrite Eq in F. by apply Forall_cons_1 in F as [? _]. }
  split; [|split].
  - destruct f; try exact H1. by apply d_inv_count.
  - exists p. by destruct f.
  - apply Forall_singleton. by destruct f.
Qed.

Lemma pump_message_ok es r p m now ok :
  d_inv es r → r_phase r = Pumping p → turn_ok es (pump_message r p m now ok).
Proof.
  intros H Hp. assert (Hend : ∀ e, turn_ok es (pump_end r e)) by (intros; by eapply pump_end_ok).
  assert (Hon : turn_ok es (pump_on r)) by (by eapply pump_on_ok).
  destruct m as [[[bytes|payload| |]|]|]; cbn [pump_message]; try done.
  - destruct (run_opt (Frame_decode bytes)) as [[]|]; try done; destruct (r_book r) as [b|] eqn:Eb; try done.
    + eapply pump_on_ok; [by apply d_inv_deliver|by rewrite deliver_phase].
    + unfold resolve. cbn beta iota. set (r1 := r_set_book _ _). assert (H1 : d_inv es r1).
      { apply d_inv_book; [by apply d_inv_count|by split; intros; [eapply d_inv_mode|]|].
        intros b' [= <-]. apply prune_ok. by eapply i_cache. }
      destruct (match find_peer _ _ with Some peer => Some peer | None => _ end);
        (eapply pump_on_ok; [|try rewrite deliver_phase; exact Hp]); [|done].
      by apply d_inv_deliver, d_inv_count.
  - destruct ok; [|done]. split; [done|]. split; [by eexists|]. by apply Forall_singleton.
Qed.

Lemma after_turn_ok es t now :
  turn_ok es t → d_inv es (after_turn t now).1 ∧ Forall written_ok (o_sent (after_turn t now).2).
Proof.
  intros (H & [p Hp] & Hw). unfold after_turn. destruct (pt_end t) as [e|]; [|done]. split.
  - apply d_inv_ended; [done|]. pose proof (i_phase _ _ H) as P. unfold phase_ok in P.
    rewrite Hp in P. tauto.
  - unfold session_ended. by destruct e, (r_book (pt_run t)).
Qed.

(** ** Every step *)

Lemma d_step_ok es e :
  d_inv es (run_of es) →
  d_inv (es ++ [e]) (d_step key relays (run_of es) e).1 ∧
  Forall written_ok (o_sent (d_step key relays (run_of es) e).2).
Proof.
  intros H0. assert (H := d_inv_weaken _ e _ H0). set (r := run_of es) in *.
  assert (Hq : d_inv (es ++ [e]) r ∧ Forall written_ok []) by done.
  destruct e; cbn [d_step].
  - destruct (r_phase r) eqn:Ep; [|exact Hq..]. by apply loop_pass_ok.
  - destruct (r_phase r) eqn:Ep; try exact Hq. apply after_turn_ok. unfold pump_ping.
    destruct send_ok; [|by eapply pump_end_ok]. split; [done|]. split; [by eexists|]. by apply Forall_singleton.
  - destruct (r_phase r) eqn:Ep; try exact Hq. apply after_turn_ok. unfold pump_refresh.
    destruct (r_book r) eqn:Eb; [|by eapply pump_on_ok].
    destruct (_ || _); [by apply pump_register_ok|by eapply pump_on_ok].
  - destruct (r_phase r) eqn:Ep; try exact Hq. apply after_turn_ok. unfold pump_changed.
    destruct (r_book r) eqn:Eb; [|by eapply pump_on_ok].
    destruct ok; [by apply pump_register_ok|by eapply pump_end_ok].
  - destruct (r_phase r) eqn:Ep; try exact Hq. apply after_turn_ok. by eapply pump_outbound_ok.
  - destruct (r_phase r) eqn:Ep; try exact Hq. apply after_turn_ok. by eapply pump_message_ok.
  - destruct (driver_try_send (r_driver r) (r_book r) destination datagram now_unix) as [[d b] o] eqn:Es.
    split; [|by constructor]. by eapply try_send_ok.
  - split; [|by constructor]. apply d_inv_book; [done| |].
    + rewrite fmap_is_Some. apply (i_mode _ _ H).
    + intros b' Hb. apply fmap_Some in Hb as (b & Hb & ->). apply b_step_ok. by eapply i_cache.
  - split; [|by constructor]. eapply d_inv_same; try exact H; cbn; auto; try apply H.
    + rewrite length_drop. pose proof (i_inbound _ _ H). lia.
    + by destruct (r_phase r).
  - split; [|by constructor]. eapply d_inv_same; try exact H; cbn; auto; try apply H.
    by destruct (r_phase r).
  - destruct (r_phase r) eqn:Ep; try exact Hq; (destruct (d_stop (r_driver r)) eqn:Es; [|exact Hq]);
      (split; [by apply d_inv_stopped|by constructor]).
Qed.

Lemma d_inv_start : d_inv [] (run_of []).
Proof.
  unfold run_of, d_run, run_start. cbn [foldl fst].
  assert (Hb : ∀ b : TagBook, (λ t, TagBook_with_paired t.1 t.2) <$> tables = Some b → cache_ok b).
  { intros b (t & _ & ->)%fmap_Some. apply (b_run_ok t.1 t.2 []). }
  assert (Hlog : log_ok (spawn_driver id relays)) by (split; [done|]; intros [|i] x y; done).
  destruct relays as [|s l] eqn:Er; split; cbn; status; auto; try apply fmap_is_Some; try done;
    try (unfold MAX_QUEUED_FRAMES, INBOUND_CAPACITY, BACKOFF_MIN, BACKOFF_MAX, secs; lia).
  - cbn. lia.
  - by apply (set_status_log _ Failed) in Hlog.
Qed.

Lemma run_inv es : d_inv es (run_of es).
Proof.
  induction es as [|e es IH] using rev_ind; [apply d_inv_start|].
  rewrite run_of_snoc. by apply d_step_ok.
Qed.

Lemma run_written es : Forall written_ok (d_run key id relays tables es).2.
Proof.
  induction es as [|e es IH] using rev_ind; [by constructor|].
  pose proof (d_step_ok es e (run_inv es)) as [_ Hw]. unfold run_of in Hw.
  unfold d_run in *. rewrite foldl_snoc. destruct (foldl _ _ es) as [r w]. cbn in *.
  destruct (d_step key relays r e) as [r' o]. cbn in *. by apply Forall_app.
Qed.

(** C26: what a relay learns from a driver, over any history of its connections,
    its sessions, the sends and the edits of its book.  In tag mode it only ever
    sees tag registrations, datagrams under a tag, keepalives and echoed pongs:
    no node identity and no signature.  In identity mode every authentication
    names this node itself, and no tag is ever written. *)
Theorem tag_session_reveals_no_identity es : Forall written_ok (d_run key id relays tables es).2.
Proof. apply run_written. Qed.

(** The bounds and the status of a driver after any history: at most 64
    queued frames and 512 undelivered datagrams, a backoff between one and
    thirty seconds, an up status exactly while a session is pumped on the relay
    dialled, a superseded status only in identity mode and a returned task only
    when stopped, superseded or without relays; consecutive broadcast statuses
    differ and the last is the current one. *)
Theorem driver_bounds_and_status es :
  let r := run_of es in
  let d := r_driver r in
  (length (d_queue d) ≤ MAX_QUEUED_FRAMES)%nat ∧ (length (r_inbound r) ≤ INBOUND_CAPACITY)%nat ∧
  BACKOFF_MIN <= r_backoff r <= BACKOFF_MAX ∧ phase_ok r ∧ log_ok d ∧
  ((∃ url, d_status d = Up url) ↔ ∃ p, r_phase r = Pumping p).
Proof.
  pose proof (run_inv es) as H. cbn zeta. split_and!; try apply H.
  pose proof (i_phase _ _ H) as P. unfold phase_ok in P. destruct (r_phase (run_of es)) as [|p|].
  - split; intros [? E]; [|done]. rewrite E in P. naive_solver.
  - split; [by eexists|]. destruct P as (_ & spec & _ & -> & _). by eexists.
  - split; intros [? E]; [|done]. rewrite E in P. naive_solver.
Qed.

(** Where what a step writes comes from, in tag mode. *)
Definition bound_to_relay (es : list DEvent) (s : PumpSent) : Prop :=
  let r := run_of es in
  match s with
  | PFrame (SendTag tag datagram) =>
    ∃ p spec, r_phase r = Pumping p ∧ dialled relays r = Some spec ∧
      d_status (r_driver r) = Up (spec_url spec) ∧ RelaySpec_host spec = Some (pp_host p) ∧
      tagged_for es (pp_host p) tag datagram
  | PFrame (Register tags) =>
    ∃ spec host b now, dialled relays r = Some spec ∧ RelaySpec_host spec = Some host ∧
      r_book r = Some b ∧ tags = snd (registration b host now)
  | _ => True
  end.

Lemma outbound_bound es p ok now :
  r_phase (run_of es) = Pumping p →
  Forall (bound_to_relay es) (o_sent (after_turn (pump_outbound (run_of es) ok) now).2).
Proof.
  intros Hp. pose proof (run_inv es) as H. unfold pump_outbound, outbound_take.
  destruct (d_queue (r_driver (run_of es))) as [|f q] eqn:Eq; [by constructor|].
  unfold outbound_written. destruct ok; cbn [negb]; [|by constructor].
  unfold after_turn. cbn [pt_end o_sent snd pt_sent]. apply Forall_singleton.
  pose proof (i_frames _ _ H) as F. rewrite Eq in F. apply Forall_cons_1 in F as [F _].
  destruct f; try done. pose proof (i_phase _ _ H) as P. unfold phase_ok in P. rewrite Hp in P.
  destruct P as (_ & spec & Hd & Hs & Hh). exists p, spec. split_and!; try done.
  apply (i_tags _ _ H p); [done|]. rewrite Eq. apply elem_of_cons. by left.
Qed.

Lemma register_bound es p b epoch nu ok now :
  r_phase (run_of es) = Pumping p → r_book (run_of es) = Some b →
  Forall (bound_to_relay es) (o_sent (after_turn (pump_register (run_of es) p b epoch nu ok) now).2).
Proof.
  intros Hp Hb. pose proof (i_phase _ _ (run_inv es)) as P. unfold phase_ok in P. rewrite Hp in P.
  destruct P as (_ & spec & Hd & _ & Hh). unfold pump_register, registration. cbn beta iota.
  destruct ok; [|by constructor].
  apply Forall_singleton. by exists spec, (pp_host p), b, nu.
Qed.

Lemma pass_bound es n now enow :
  Forall (bound_to_relay es) (o_sent (loop_pass key relays (run_of es) n now enow).2).
Proof.
  unfold loop_pass. destruct (default false _); [by constructor|].
  destruct (dialled relays (run_of es)) as [spec|] eqn:Ed; [|by constructor].
  assert (Hc : Forall (bound_to_relay es) (connect key spec (run_of es) n).1.2).
  { unfold connect. destruct (RelaySpec_host spec) as [host|] eqn:Eh; [|by constructor].
    destruct (dl_opened n); [|by constructor]. cbn [negb].
    destruct (dl_first n) as [[]|]; try by constructor.
    destruct (r_book (run_of es)) as [b|] eqn:Eb.
    - unfold registration. cbn beta iota. case_bool_decide; [by constructor|].
      destruct (dl_send_ok n); [|by constructor]. apply Forall_singleton.
      by exists spec, host, b, (dl_unix n).
    - destruct (dl_send_ok n); [|by constructor]. by apply Forall_singleton. }
  destruct (connect key spec (run_of es) n) as [[r' sent] [[]|]]; exact Hc.
Qed.

(** Tags and relays, with each send taken as one step.  After any history of such
    sends, a datagram written under a tag goes out on a session whose relay is the one
    dialled, under the tag derived for that relay's host from the material the book held
    for its destination when it was handed over; a registration lists the tags of the
    current book for that same host.  What is left of it when a send is interrupted
    between deriving and queueing is [Sends.raced_tags_follow_their_relay]. *)
Theorem tags_bound_to_their_relay es e :
  Forall (bound_to_relay es) (o_sent (d_step key relays (run_of es) e).2).
Proof.
  assert (Hnil : Forall (bound_to_relay es) []) by constructor.
  destruct e; cbn [d_step].
  - destruct (r_phase (run_of es)); try exact Hnil. apply pass_bound.
  - destruct (r_phase (run_of es)); try exact Hnil. unfold pump_ping. by destruct send_ok; [apply Forall_singleton|].
  - destruct (r_phase (run_of es)) eqn:Ep; try exact Hnil. unfold pump_refresh.
    destruct (r_book (run_of es)) eqn:Eb; [|exact Hnil]. destruct (_ || _); [by apply register_bound|exact Hnil].
  - destruct (r_phase (run_of es)) eqn:Ep; try exact Hnil. unfold pump_changed.
    destruct (r_book (run_of es)) eqn:Eb; [|exact Hnil]. destruct ok; [by apply register_bound|exact Hnil].
  - destruct (r_phase (run_of es)) eqn:Ep; try exact Hnil. by eapply outbound_bound.
  - destruct (r_phase (run_of es)); try exact Hnil. unfold after_turn, session_ended.
    assert (Hm : Forall (bound_to_relay es) (pt_sent (pump_message (run_of es) p m now_unix send_ok))).
    { unfold pump_message, resolve. repeat case_match; subst; try exact Hnil. by apply Forall_singleton. }
    repeat case_match; exact Hm.
  - by destruct (driver_try_send _ _ _ _ _) as [[??]?].
  - exact Hnil.
  - exact Hnil.
  - exact Hnil.
  - destruct (r_phase (run_of es)); try exact Hnil; by destruct (d_stop _).
Qed.

(** What reaches the path socket.  In any state, a step adds to the inbound
    queue at most one datagram, only while a session is pumped and the queue has
    room, and attributes it either to the source an identity relay names (in
    identity mode only) or to the peer whose material this endpoint's own book
    resolves the delivery's tag to (in tag mode only). *)
Theorem inbound_attribution r e :
  let q := r_inbound (d_step key relays r e).1 in
  q = r_inbound r ∨ (e = DTake ∧ q = drop 1 (r_inbound r)) ∨
  ∃ p bytes now_unix ok now who datagram,
    e = DMessage (Some (Ok (WsBinary bytes))) now_unix ok now ∧ r_phase r = Pumping p ∧
    (length (r_inbound r) < INBOUND_CAPACITY)%nat ∧
    q = r_inbound r ++ [(who, datagram, d_id (r_driver r))] ∧
    match r_book r with
    | None => run_opt (Frame_decode bytes) = Some (Recv who datagram)
    | Some b => ∃ tag, run_opt (Frame_decode bytes) = Some (RecvTag tag datagram) ∧
        snd (resolve b tag (pp_host p) now_unix) = Some who
    end.
Proof.
  assert (Hat : ∀ t now, r_inbound (after_turn t now).1 = r_inbound (pt_run t)).
  { intros t now. unfold after_turn, session_ended. by repeat case_match. }
  cbn zeta. destruct e; cbn [d_step].
  - left. destruct (r_phase r); try done. unfold loop_pass.
    destruct (default false _); [done|]. destruct (dialled relays r) as [spec|]; [|done].
    assert (Hc : r_inbound (connect key spec r n).1.1 = r_inbound r).
    { unfold connect, registration. by repeat case_match. }
    by destruct (connect key spec r n) as [[r' sent] [[]|]].
  - left. destruct (r_phase r); try done. rewrite Hat. unfold pump_ping. by destruct send_ok.
  - left. destruct (r_phase r); try done. rewrite Hat. unfold pump_refresh, pump_register, registration.
    by repeat case_match.
  - left. destruct (r_phase r); try done. rewrite Hat. unfold pump_changed, pump_register, registration.
    by repeat case_match.
  - left. destruct (r_phase r); try done. rewrite Hat. unfold pump_outbound, outbound_take, outbound_written. by repeat case_match; simplify_eq.
  - destruct (r_phase r) as [|p|] eqn:Ep; try by left. rewrite Hat.
    destruct m as [[[bytes|payload| |]|]|]; cbn [pump_message]; try (by left); [|left; by destruct send_ok].
    destruct (run_opt (Frame_decode bytes)) as [[]|] eqn:Ef; try (by left);
      destruct (r_book r) as [b|] eqn:Eb; try (by left).
    + unfold r_deliver. destruct (Nat.ltb_spec (length (r_inbound r)) INBOUND_CAPACITY); [|by left].
      right; right. eexists p, bytes, now_unix, send_ok, now, _, _. by split_and!.
    + destruct (resolve b tag (pp_host p) now_unix) as [b' who] eqn:Er. destruct who as [who|]; [|by left].
      unfold r_deliver. cbn [pump_on pt_run r_count r_set_driver r_set_book r_inbound r_driver d_set_activity d_id].
      destruct (Nat.ltb_spec (length (r_inbound r)) INBOUND_CAPACITY); [|by left].
      right; right. eexists p, bytes, now_unix, send_ok, now, _, _. split_and!; try done.
      exists tag. by rewrite Er.
  - left. by destruct (driver_try_send _ _ _ _ _) as [[??]?].
  - by left.
  - right; left. done.
  - by left.
  - left. destruct (r_phase r); try done; by destruct (d_stop _).
Qed.

End driver_invariant.

(** ** The reconnect schedule *)

Definition fails (r : Run) (ts : list (Z * Z)) : Run :=
  foldl (λ r t, (attempt_failed r t.1 t.2 []).1) r ts.

Lemma fails_snoc r ts t : fails r (ts ++ [t]) = (attempt_failed (fails r ts) t.1 t.2 []).1.
Proof. unfold fails. by rewrite foldl_snoc. Qed.

Lemma fails_index r ts : r_index (fails r ts) = (r_index r + length ts)%nat.
Proof.
  induction ts as [|t ts IH] using rev_ind; cbn; [lia|].
  rewrite fails_snoc, length_app. cbn. rewrite IH. lia.
Qed.

Lemma fails_backoff r ts :
  r_backoff r = BACKOFF_MIN →
  r_backoff (fails r ts) = Z.min (BACKOFF_MIN * 2 ^ Z.of_nat (length ts)) BACKOFF_MAX.
Proof.
  intros Hb. induction ts as [|t ts IH] using rev_ind; [done|].
  rewrite fails_snoc, length_app. cbn [attempt_failed fst r_backoff length]. rewrite IH.
  rewrite Nat2Z.inj_add. change (Z.of_nat 1) with 1. rewrite Z.pow_add_r by lia.
  unfold BACKOFF_MIN, BACKOFF_MAX, secs. lia.
Qed.

Lemma fails_down r t ts : r_down_since (fails r (t :: ts)) = Some (default t.1 (r_down_since r)).
Proof.
  induction ts as [|u ts IH] using rev_ind; [done|].
  rewrite app_comm_cons, fails_snoc. cbn [attempt_failed fst r_down_since]. by rewrite IH.
Qed.

(** The reconnect schedule.  Through [k] failed attempts in a row the waits
    double from one second up to thirty, the relays are dialled round robin so
    that every configured relay is tried within as many attempts as there are
    relays, the outage is timed from its first failure, and the status is
    [Failed] exactly when the last failure came more than sixty seconds into it,
    [Reconnecting] otherwise — the task goes on either way. *)
Theorem reconnect_schedule (relays : list RelaySpec) (r : Run) (first : Z * Z) (ts : list (Z * Z)) (last : Z * Z)
    (Hb : r_backoff r = BACKOFF_MIN) (Hd : r_down_since r = None) :
  let r1 := fails r (first :: ts) in
  let r' := fails r (first :: ts ++ [last]) in
  let k := S (length ts) in
  o_sleep (attempt_failed r1 last.1 last.2 []).2 = Z.min (secs 1 * 2 ^ Z.of_nat k) (secs 30) ∧
  r_down_since r' = Some first.1 ∧ r_phase r' = Dialling ∧
  d_status (r_driver r') =
    (if RECONNECT_DEADLINE <? duration_since last.2 first.1 then Failed else Reconnecting) ∧
  ∀ spec, spec ∈ relays →
    ∃ j, (j < length relays)%nat ∧ ∀ us, length us = j → dialled relays (fails r' us) = Some spec.
Proof.
  cbn zeta. rewrite app_comm_cons. split_and!.
  - cbn [attempt_failed snd o_sleep]. rewrite fails_backoff by done. done.
  - by rewrite <- app_comm_cons, fails_down, Hd.
  - by rewrite fails_snoc.
  - rewrite fails_snoc. cbn [attempt_failed fst r_driver]. rewrite fails_down, Hd. cbn [default].
    apply set_status_status.
  - intros spec Hin. set (r' := fails r _). apply list_elem_of_lookup_1 in Hin as [i Hi].
    pose proof (lookup_lt_Some _ _ _ Hi) as Hlt.
    set (n := length relays) in *. set (s := (r_index r' mod n)%nat).
    assert (Hs : (s < n)%nat) by (apply Nat.mod_upper_bound; lia).
    exists ((i + n - s) mod n)%nat. split; [apply Nat.mod_upper_bound; lia|]. intros us Hus.
    unfold dialled. fold n. rewrite fails_index, Hus. rewrite <- Nat.Div0.add_mod_idemp_l. fold s.
    rewrite Nat.Div0.add_mod_idemp_r. replace (s + (i + n - s))%nat with (i + 1 * n)%nat by lia.
    rewrite Nat.Div0.mod_add, Nat.mod_small by lia. done.
Qed.

(** ** The pool under any history *)

Inductive PoolOp : Type := PDriverFor (relays : list RelaySpec) | PClose.

#[global] Instance PoolOp_eq_dec : EqDecision PoolOp.
Proof. solve_decision. Defined.

Definition pool_step (c : RelayClient) (op : PoolOp) : RelayClient :=
  match op with
  | PDriverFor relays => (driver_for c relays).1
  | PClose => RelayClient_close c
  end.

Definition pool_run (home : list RelaySpec) (ops : list PoolOp) : RelayClient :=
  foldl pool_step (RelayClient_spawn home) ops.

Record pool_inv (home : list RelaySpec) (closed : bool) (c : RelayClient) : Prop := {
  po_home : rc_home c = 0;
  po_next : 0 < rc_next_id c;
  po_home_driver : ∃ d, rc_by_id c !! 0 = Some d ∧ d_urls d = spec_url <$> home;
  po_ids i d : rc_by_id c !! i = Some d → d_id d = i ∧ d_stop d = closed ∧ 0 <= i < rc_next_id c;
  po_extra urls i : rc_extra c !! urls = Some i → 0 < i ∧ ∃ d, rc_by_id c !! i = Some d ∧ d_urls d = urls;
  po_size : (size (rc_extra c) ≤ MAX_EXTRA_DRIVERS)%nat;
}.

Lemma spawn_inv home : pool_inv home false (RelayClient_spawn home).
Proof.
  split; cbn; try done.
  - by exists (spawn_driver 0 home).
  - intros i d [<- <-]%lookup_singleton_Some. cbn. lia.
  - rewrite map_size_empty. lia.
Qed.

Lemma home_stopped_inv home closed c : pool_inv home closed c → home_stopped c = closed.
Proof.
  intros H. unfold home_stopped. rewrite (po_home _ _ _ H). destruct (po_home_driver _ _ _ H) as (d & Hd & _).
  rewrite Hd. cbn. by apply (po_ids _ _ _ H) in Hd as (_ & ? & _).
Qed.

Lemma home_urls_inv home closed c : pool_inv home closed c → home_urls c = spec_url <$> home.
Proof.
  intros H. unfold home_urls. rewrite (po_home _ _ _ H). destruct (po_home_driver _ _ _ H) as (d & -> & Hd).
  done.
Qed.

Lemma driver_for_inv home closed c relays : pool_inv home closed c → pool_inv home closed (driver_for c relays).1.
Proof.
  intros H. unfold driver_for. set (urls := spec_url <$> relays).
  destruct (_ || _); [done|]. rewrite (home_stopped_inv _ _ _ H). destruct closed; [done|].
  destruct (rc_extra c !! urls) eqn:Ee; [done|].
  destruct (Nat.leb_spec MAX_EXTRA_DRIVERS (size (rc_extra c))); [done|]. destruct H. cbn.
  split; cbn; auto; try lia.
  - rewrite lookup_insert_ne by lia. done.
  - intros i d. rewrite lookup_insert_Some. intros [[<- <-]|[_ Hd]]; [cbn; lia|].
    destruct (po_ids0 i d Hd) as (? & ? & ?). split_and!; auto; lia.
  - intros u i. rewrite lookup_insert_Some. intros [[<- <-]|[_ Hu]].
    + split; [done|]. exists (spawn_driver (rc_next_id c) relays). by rewrite lookup_insert_eq.
    + destruct (po_extra0 u i Hu) as (? & d & Hd & ?). split; [done|]. exists d. split; [|done].
      rewrite lookup_insert_ne; [done|]. destruct (po_ids0 i d Hd) as (_ & _ & ?). lia.
  - rewrite map_size_insert, Ee. cbn. lia.
Qed.

Lemma close_inv home closed c : pool_inv home closed c → pool_inv home true (RelayClient_close c).
Proof.
  intros []. split; cbn; auto.
  - destruct po_home_driver0 as (d & Hd & ?). exists (d_set_stop d true). by rewrite lookup_fmap, Hd.
  - intros i d. rewrite lookup_fmap_Some. intros (d0 & <- & Hd).
    destruct (po_ids0 i d0 Hd) as (? & ? & ?). split; [done|]. by split.
  - intros u i Hu. destruct (po_extra0 u i Hu) as (? & d & Hd & ?). split; [done|].
    exists (d_set_stop d true). by rewrite lookup_fmap, Hd.
Qed.

Lemma pool_run_inv home ops : pool_inv home (bool_decide (PClose ∈ ops)) (pool_run home ops).
Proof.
  induction ops as [|op ops IH] using rev_ind.
  - rewrite bool_decide_false by apply not_elem_of_nil. apply spawn_inv.
  - unfold pool_run in *. rewrite foldl_snoc. destruct op as [relays|]; cbn [pool_step].
    + replace (bool_decide (PClose ∈ ops ++ [PDriverFor relays])) with (bool_decide (PClose ∈ ops)).
      * by apply driver_for_inv.
      * apply bool_decide_ext. rewrite elem_of_app, list_elem_of_singleton. naive_solver.
    + rewrite bool_decide_true by (rewrite elem_of_app, list_elem_of_singleton; auto).
      by eapply close_inv.
Qed.

Lemma driver_for_again home closed c relays :
  pool_inv home closed c → driver_for (driver_for c relays).1 relays = driver_for c relays.
Proof.
  intros H. assert (H' := driver_for_inv _ _ _ relays H). revert H'.
  destruct (driver_for c relays) as [c' i] eqn:E. cbn [fst]. intros H'. revert E.
  unfold driver_for. set (urls := spec_url <$> relays).
  rewrite (home_urls_inv _ _ _ H'), (home_urls_inv _ _ _ H), (home_stopped_inv _ _ _ H'), (home_stopped_inv _ _ _ H).
  destruct (_ || _); [by intros [= <- <-]|]. destruct closed; [by intros [= <- <-]|].
  destruct (rc_extra c !! urls) eqn:E3; [intros [= <- <-]; by rewrite E3|].
  destruct (MAX_EXTRA_DRIVERS <=? _)%nat eqn:E4; [intros [= <- <-]; by rewrite E3, E4|].
  intros [= <- <-]. cbn [rc_extra]. by rewrite lookup_insert_eq.
Qed.

(** The relay pool after any history of requests and closes.  A request is
    answered by a driver that is in the pool under the id it carries; asking
    again changes nothing and gives the same driver; the driver walks the
    requested list, unless it is the home driver standing in for an empty list,
    a closed pool or the bound of sixteen extra drivers; and once the pool was
    closed every driver in it is stopped and none is started. *)
Theorem pool_driver_for home ops relays :
  let c := pool_run home ops in
  let c' := (driver_for c relays).1 in
  let i := (driver_for c relays).2 in
  (size (rc_extra c') ≤ MAX_EXTRA_DRIVERS)%nat ∧
  driver_for c' relays = (c', i) ∧
  (∃ d, rc_driver c' i = Some d ∧ d_id d = i ∧
     (d_urls d = spec_url <$> relays ∨
      i = rc_home c' ∧ (relays = [] ∨ PClose ∈ ops ∨ size (rc_extra c') = MAX_EXTRA_DRIVERS))) ∧
  (PClose ∈ ops → c' = c ∧ map_Forall (λ _ d, d_stop d = true) (rc_by_id c')).
Proof.
  cbn zeta. pose proof (pool_run_inv home ops) as H. set (c := pool_run home ops) in *.
  set (closed := bool_decide _) in H. assert (H' := driver_for_inv _ _ _ relays H).
  split_and!.
  - apply H'.
  - rewrite (driver_for_again home closed) by done. by destruct (driver_for c relays).
  - revert H'. unfold driver_for. set (urls := spec_url <$> relays).
    destruct (po_home_driver _ _ _ H) as (dh & Hdh & Hu).
    assert (Hhome : ∀ P, (d_urls dh = urls ∨ P) → ∃ d, rc_driver c (rc_home c) = Some d ∧ d_id d = rc_home c ∧
      (d_urls d = urls ∨ rc_home c = rc_home c ∧ P)).
    { intros P HP. exists dh. unfold rc_driver. rewrite (po_home _ _ _ H).
      destruct (po_ids _ _ _ H _ _ Hdh) as (? & _). split_and!; tauto. }
    rewrite (home_urls_inv _ _ _ H), (home_stopped_inv _ _ _ H).
    destruct (bool_decide_reflect (urls = [])) as [E1|E1]; cbn [orb].
    { intros _. cbn. apply Hhome. right. left. by apply fmap_nil_inv in E1. }
    destruct (bool_decide_reflect (urls = spec_url <$> home)) as [E2|E2].
    { intros _. cbn. apply Hhome. left. congruence. }
    destruct closed eqn:Ec.
    { intros _. cbn. apply Hhome. right. right. left. by apply bool_decide_eq_true_1 in Ec. }
    destruct (rc_extra c !! urls) as [i|] eqn:E3.
    { intros _. cbn. destruct (po_extra _ _ _ H _ _ E3) as (_ & d & Hd & Hdu). exists d.
      destruct (po_ids _ _ _ H _ _ Hd) as (? & _). split_and!; try done. by left. }
    destruct (Nat.leb_spec MAX_EXTRA_DRIVERS (size (rc_extra c))).
    { intros _. cbn. apply Hhome. right. right. right. pose proof (po_size _ _ _ H). unfold MAX_EXTRA_DRIVERS in *. lia. }
    intros _. cbn. exists (spawn_driver (rc_next_id c) relays). unfold rc_driver. cbn.
    rewrite lookup_insert_eq. split_and!; try done. by left.
  - intros Hc. assert (closed = true) as Et by (by apply bool_decide_eq_true_2). split.
    + unfold driver_for. rewrite (home_stopped_inv _ _ _ H), Et. by destruct (_ || _).
    + intros i d Hd. apply (po_ids _ _ _ H') in Hd as (_ & -> & _). done.
Qed.

(** ** Concrete inputs *)

Definition ex_relays : list RelaySpec :=
  [RelaySpec_plain (lit "wss://a.example"); RelaySpec_plain (lit "wss://b.example:8443/link")].

Example ex_parts :
  RelaySpec_parts (RelaySpec_plain (lit "wss://Relay.Example:8443/link")) =
    Some (mkUrlParts true (lit "relay.example") 8443 (lit "/link")) ∧
  RelaySpec_host (RelaySpec_plain (lit "wss://[2001:db8::1]:443")) = Some (lit "[2001:db8::1]") ∧
  RelaySpec_host (RelaySpec_plain (lit "wss://[2001:DB8:0::1]")) = None ∧
  RelaySpec_host (RelaySpec_plain (lit "wss://[::ffff:1.2.3.4]")) = None ∧
  RelaySpec_host (RelaySpec_plain (lit "wss://127.0.0.1")) = Some (lit "127.0.0.1") ∧
  RelaySpec_host (RelaySpec_plain (lit "wss://127.1")) = None ∧
  RelaySpec_host (RelaySpec_plain (lit "wss://0x7f")) = None ∧
  RelaySpec_browser_url (RelaySpec_plain (lit "wss://a.example")) = Some (lit "wss://a.example:443/").
Proof. by vm_compute. Qed.

Lemma reconnect_schedule_witness :
  r_backoff (run_start 0 ex_relays None) = BACKOFF_MIN ∧
  let r' := fails (run_start 0 ex_relays None) [(secs 5, secs 5); (secs 20, secs 20); (secs 70, secs 70)] in
  d_status (r_driver r') = Failed ∧ r_down_since r' = Some (secs 5) ∧
  ∃ j, (j < 2)%nat ∧
    ∀ us, length us = j → dialled ex_relays (fails r' us) = Some (RelaySpec_plain (lit "wss://a.example")).
Proof.
  split; [reflexivity|]. cbn zeta.
  destruct (reconnect_schedule ex_relays (run_start 0 ex_relays None) (secs 5, secs 5) [(secs 20, secs 20)]
              (secs 70, secs 70) eq_refl eq_refl) as (_ & Hd & _ & Hs & Hr).
  split; [exact Hs|]. split; [exact Hd|]. apply Hr. by apply elem_of_cons; left.
Defined.

Section example_run.
#[local] Existing Instance toy_crypto.
#[local] Existing Instance toy_rdv.
#[local] Instance rx_peers_order : HashIter NodeId RendezvousPeer := map_order _ _.
#[local] Instance rx_pairing_order : HashIter NodeId PairingRoute := map_order _ _.
#[local] Instance rx_paired_order : HashIter NodeId (array 32) := map_order _ _.

Definition ex_dial : Dial :=
  mkDial true (Some (Challenge (pad_array 32 (lit "c")))) 0 true (Some (Welcome (pad_array 16 []))) 0.

(** A tag-mode session that comes up on the first relay, sends, loses its
    socket and comes up on the second: the datagram queued for the first relay
    and not yet written is gone. *)
Definition ex_events : list DEvent :=
  [DPass ex_dial 0 0; DSend (ex_id 2) (lit "one") 0; DSend (ex_id 2) (lit "two") 0; DOutbound true 0;
   DMessage None 0 true 0; DPass ex_dial 0 0; DOutbound true 0; DSend (ex_id 2) (lit "three") 0;
   DOutbound true 0].

Example ex_run_written :
  (λ s, match s with
        | PFrame (Register tags) => (length tags, [])
        | PFrame (SendTag _ datagram) => (0%nat, datagram)
        | _ => (1%nat, [])
        end) <$> (d_run (TransportKey_from_seed (pad_array 32 (lit "seed"))) 0 ex_relays
                   (Some (∅, {[ex_id 2 := ex_secret]})) ex_events).2 =
  [(2%nat, []); (0%nat, lit "one"); (2%nat, []); (0%nat, lit "three")].
Proof. by vm_compute. Qed.

End example_run.
