(* ===== verification/Sends.v ===== *)
(** * Sends: [RelayDriver::try_send] against the driver task
      ([link-endpoint/src/relay_client.rs])

    [RelayClient] takes a send as one step.  It is not: quinn's threads run
    [try_send] while the driver task runs, and between reading the stop flag, reading
    the status, deriving the frame under the borrow of the status and queueing it, the
    task may do anything.  Here each of the four is a step of its own, any number of
    sends are under way at once, and the task's turns fall anywhere between them. *)

From S2P Require Import Prelude Net Id Rendezvous Card Wire Paths TagBook RelayClient.

Open Scope Z_scope.

(** ** The state *)

(** A send under way, by what it does next. *)
Inductive Sending : Type :=
  | ReadStop (destination : NodeId) (datagram : list byte)
  | ReadUp (destination : NodeId) (datagram : list byte)
  | Derive (destination : NodeId) (datagram : list byte) (up : bool)
  | Enqueue (frame : Frame) (up : bool)
  | Answered (outcome : QueueOutcome).

(** What a tag was derived from: not in the code, kept to say where it belongs. *)
Record Derived : Type := mkDerived {
  dv_host : list byte;
  dv_book : TagBook;
  dv_destination : NodeId;
  dv_unix : Z;
  dv_tag : Tag;
  dv_datagram : list byte;
}.

(** [ra_derived] are the tags derived so far, [ra_carried] the frames of the sends
    that were about to queue when the session came up; both are history. *)
Record Race : Type := mkRace {
  ra_run : Run;
  ra_calls : gmap nat Sending;
  ra_derived : list Derived;
  ra_carried : list Frame;
}.

Definition ra_set_run (s : Race) (r : Run) : Race := mkRace r (ra_calls s) (ra_derived s) (ra_carried s).
Definition ra_set_call (s : Race) (k : nat) (c : Sending) : Race :=
  mkRace (ra_run s) (<[k := c]> (ra_calls s)) (ra_derived s) (ra_carried s).

Inductive RStep : Type :=
  | RTurn (e : DEvent)
  | RCall (k : nat) (destination : NodeId) (datagram : list byte)
  | RNext (k : nat) (now_unix : Z).

Definition about_to_queue (calls : gmap nat Sending) : list Frame :=
  omap (λ c, match c.2 with Enqueue f _ => Some f | _ => None end) (map_to_list calls).

Definition is_up (d : Driver) : bool := match d_status d with Up _ => true | _ => false end.

Section sends.
Context `{C : Crypto, R : RdvCrypto}.
Context `{!HashIter NodeId RendezvousPeer, !HashIter NodeId PairingRoute, !HashIter NodeId (array 32)}.
Context (key : TransportKey) (relays : list RelaySpec).

(** [let frame = match &self.book ..]: the book and the memo afterwards, and what
    follows. *)
Definition derive_frame (s : Race) (k : nat) (destination : NodeId) (datagram : list byte) (up : bool) (now_unix : Z) : Race :=
  let r := ra_run s in
  match r_book r with
  | None => ra_set_call s k (Enqueue (Send destination datagram) up)
  | Some b =>
    let '(d, host) := current_host (r_driver r) in
    match host with
    | None => ra_set_call (ra_set_run s (r_set_driver r d)) k (Answered Dropped)
    | Some host =>
      let '(b', tag) := tag_for_send b destination host now_unix in
      let s := ra_set_run s (r_set_book (r_set_driver r d) (Some b')) in
      match tag with
      | None => ra_set_call s k (Answered Dropped)
      | Some tag =>
        let s := ra_set_call s k (Enqueue (SendTag tag datagram) up) in
        mkRace (ra_run s) (ra_calls s) (ra_derived s ++ [mkDerived host b destination now_unix tag datagram]) (ra_carried s)
      end
    end
  end.

(** [match self.outbound.try_send(frame)]. *)
Definition enqueue (s : Race) (k : nat) (frame : Frame) (up : bool) : Race :=
  match queue_send (r_driver (ra_run s)) frame with
  | QSent d => ra_set_call (ra_set_run s (r_set_driver (ra_run s) d)) k (Answered Queued)
  | QFull => ra_set_call s k (Answered (if up then WouldBlock else Dropped))
  | QClosed => ra_set_call s k (Answered Dropped)
  end.

(** The next step of a send. *)
Definition send_next (s : Race) (k : nat) (now_unix : Z) : Race :=
  match ra_calls s !! k with
  | Some (ReadStop destination datagram) =>
    ra_set_call s k (if d_stop (r_driver (ra_run s)) then Answered Dropped else ReadUp destination datagram)
  | Some (ReadUp destination datagram) => ra_set_call s k (Derive destination datagram (is_up (r_driver (ra_run s))))
  | Some (Derive destination datagram up) => derive_frame s k destination datagram up now_unix
  | Some (Enqueue frame up) => enqueue s k frame up
  | Some (Answered _) | None => s
  end.

(** A turn of the task, or of the endpoint on what the task shares with it. *)
Definition race_turn (s : Race) (e : DEvent) : Race * list PumpSent :=
  match e with
  | DSend _ _ _ => (s, [])
  | _ =>
    let '(r, o) := d_step key relays (ra_run s) e in
    let carried :=
      match r_phase (ra_run s), r_phase r with
      | Dialling, Pumping _ => about_to_queue (ra_calls s)
      | _, _ => ra_carried s
      end in
    (mkRace r (ra_calls s) (ra_derived s) carried, o_sent o)
  end.

Definition race_step (s : Race) (e : RStep) : Race * list PumpSent :=
  match e with
  | RTurn e => race_turn s e
  | RCall k destination datagram => (if ra_calls s !! k is None then ra_set_call s k (ReadStop destination datagram) else s, [])
  | RNext k now_unix => (send_next s k now_unix, [])
  end.

Definition race_start (id : Z) (book : option TagBook) : Race := mkRace (run_start id relays book) ∅ [] [].

Definition race_run (s : Race) (es : list RStep) : Race := foldl (λ s e, (race_step s e).1) s es.

(** ** A send nothing comes between *)

Lemma set_call_twice s k c c' : ra_set_call (ra_set_call s k c) k c' = ra_set_call s k c'.
Proof. unfold ra_set_call. cbn. by rewrite insert_insert_eq. Qed.

(** The next step of the send that is at [c]. *)
Lemma send_next_at s k c now :
  send_next (ra_set_call s k c) k now =
  match c with
  | ReadStop destination datagram =>
    ra_set_call s k (if d_stop (r_driver (ra_run s)) then Answered Dropped else ReadUp destination datagram)
  | ReadUp destination datagram => ra_set_call s k (Derive destination datagram (is_up (r_driver (ra_run s))))
  | Derive destination datagram up => derive_frame s k destination datagram up now
  | Enqueue frame up => enqueue s k frame up
  | Answered _ => ra_set_call s k c
  end.
Proof.
  unfold send_next. cbn [ra_set_call ra_calls]. rewrite lookup_insert_eq. destruct c; try apply set_call_twice; [| |done].
  - unfold derive_frame. cbn [ra_set_call ra_run]. repeat case_match; simplify_eq; unfold ra_set_call, ra_set_run; cbn; by rewrite insert_insert_eq.
  - unfold enqueue. cbn [ra_set_call ra_run]. case_match; unfold ra_set_call, ra_set_run; cbn; by rewrite insert_insert_eq.
Qed.

Lemma current_host_driver d d' host :
  current_host d = (d', host) → d' = d ∨ ∃ m, d' = d_set_memo d m.
Proof. unfold current_host. intros E. repeat case_match; simplify_eq; eauto. Qed.

(** The end of a send, once its frame is there. *)
Lemma enqueue_finish s k f d o :
  finish_send (r_driver (ra_run s)) f = (d, o) →
  enqueue s k f (is_up (r_driver (ra_run s))) = ra_set_call (ra_set_run s (r_set_driver (ra_run s) d)) k (Answered o).
Proof.
  unfold finish_send, enqueue, is_up. intros E. destruct s as [[] ???]. destruct (queue_send _ _); by simplify_eq.
Qed.

(** A send that runs to its end without a turn between its steps is
    [driver_try_send], whatever other sends are under way. *)
Theorem uninterrupted_send s k destination datagram now :
  ra_calls s !! k = None →
  let s' := race_run s [RCall k destination datagram; RNext k now; RNext k now; RNext k now; RNext k now] in
  ∃ d b outcome, driver_try_send (r_driver (ra_run s)) (r_book (ra_run s)) destination datagram now = (d, b, outcome) ∧
    ra_run s' = r_set_book (r_set_driver (ra_run s) d) b ∧ ra_calls s' = <[k := Answered outcome]> (ra_calls s).
Proof.
  intros Hk. cbn zeta. unfold race_run. cbn [foldl race_step fst]. rewrite Hk. rewrite send_next_at.
  unfold driver_try_send. destruct (d_stop (r_driver (ra_run s))).
  { rewrite !send_next_at. eexists _, _, _. split; [done|]. split; [by destruct s as [[] ???]|done]. }
  rewrite !send_next_at. unfold derive_frame. destruct (r_book (ra_run s)) as [b|] eqn:Eb.
  2:{ rewrite send_next_at. destruct (finish_send (r_driver (ra_run s)) (Send destination datagram)) as [d o] eqn:Ef.
      rewrite (enqueue_finish _ _ _ _ _ Ef). eexists _, _, _. split; [done|]. split; [|done].
      destruct s as [[] ???]. cbn in *. by subst. }
  destruct (current_host (r_driver (ra_run s))) as [d host] eqn:Eh.
  assert (Hup : is_up (r_driver (ra_run s)) = is_up d) by (by destruct (current_host_driver _ _ _ Eh) as [->|[m ->]]).
  destruct host as [host|].
  2:{ rewrite send_next_at. eexists _, _, _. split; [done|]. split; [|done]. destruct s as [[] ???]. cbn in *. by subst. }
  destruct (tag_for_send b destination host now) as [b' [tag|]].
  2:{ rewrite send_next_at. eexists _, _, _. by split. }
  set (s1 := mkRace (r_set_book (r_set_driver (ra_run s) d) (Some b')) (ra_calls s)
    (ra_derived s ++ [mkDerived host b destination now tag datagram]) (ra_carried s)).
  destruct (finish_send d (SendTag tag datagram)) as [d2 o] eqn:Ef.
  change (mkRace _ _ _ _) with (ra_set_call s1 k (Enqueue (SendTag tag datagram) (is_up (r_driver (ra_run s))))).
  rewrite send_next_at, Hup. change d with (r_driver (ra_run s1)) in Ef |- *.
  rewrite (enqueue_finish _ _ _ _ _ Ef). eexists _, _, _. by split.
Qed.

(** ** What a turn does to the session and the queue *)

(** The status names the relay of the session that is pumped, and the memo is right. *)
Record host_agrees (r : Run) : Prop := {
  ho_up url : d_status (r_driver r) = Up url → ∃ p, r_phase r = Pumping p ∧ RelaySpec_host (RelaySpec_plain url) = Some (pp_host p);
  ho_memo u h : d_memo (r_driver r) = Some (u, h) → RelaySpec_host (RelaySpec_plain u) = Some h;
}.

(** A turn within a session: it stays on its relay or ends, its queue only shrinks,
    and a datagram under a tag that is written was queued. *)
Record session_turn (r r' : Run) (sent : list PumpSent) : Prop := {
  sa_host : host_agrees r → host_agrees r';
  sa_phase p' : r_phase r' = Pumping p' → ∃ p, r_phase r = Pumping p ∧ pp_host p = pp_host p';
  sa_queue f : f ∈ d_queue (r_driver r') → f ∈ d_queue (r_driver r);
  sa_sent tag datagram : PFrame (SendTag tag datagram) ∈ sent → SendTag tag datagram ∈ d_queue (r_driver r) ∧ ∃ p, r_phase r = Pumping p;
}.

(** A session that comes up: on the host the status then names, with its queue
    drained and no datagram written yet. *)
Record comes_up (r r' : Run) (sent : list PumpSent) : Prop := {
  ns_host : host_agrees r → host_agrees r';
  ns_down : r_phase r = Dialling;
  ns_queue : d_queue (r_driver r') = [];
  ns_sent tag datagram : PFrame (SendTag tag datagram) ∉ sent;
}.

Lemma session_turn_refl r : session_turn r r [].
Proof. split; eauto; set_solver. Qed.

(** A turn that keeps driver and host. *)
Lemma session_turn_keep r r' sent :
  d_status (r_driver r') = d_status (r_driver r) → d_memo (r_driver r') = d_memo (r_driver r) → d_queue (r_driver r') = d_queue (r_driver r) →
  (∀ p, r_phase r = Pumping p → ∃ p', r_phase r' = Pumping p' ∧ pp_host p' = pp_host p) →
  (∀ p', r_phase r' = Pumping p' → ∃ p, r_phase r = Pumping p ∧ pp_host p = pp_host p') →
  (∀ tag datagram, PFrame (SendTag tag datagram) ∉ sent) →
  session_turn r r' sent.
Proof.
  intros Hs Hm Hq Hp Hp' Hsent. split; [|done|by rewrite Hq|by intros ?? ?%Hsent]. intros [Hup Hmemo]. split.
  - intros url. rewrite Hs. intros (p & Hph & Hh)%Hup. destruct (Hp _ Hph) as (p' & ? & E). exists p'. by rewrite E.
  - intros u h. rewrite Hm. apply Hmemo.
Qed.

(** A session that ends: the status goes down with it. *)
Lemma session_turn_down r r' sent :
  (∀ url, d_status (r_driver r') ≠ Up url) → d_memo (r_driver r') = d_memo (r_driver r) →
  (∀ f, f ∈ d_queue (r_driver r') → f ∈ d_queue (r_driver r)) → (∀ p, r_phase r' ≠ Pumping p) →
  (∀ tag datagram, PFrame (SendTag tag datagram) ∉ sent) → session_turn r r' sent.
Proof.
  intros Hs Hm Hq Hp Hsent. split; [|by intros ? ?%Hp|done|by intros ?? ?%Hsent]. intros [Hup Hmemo]. split.
  - by intros url ?%Hs.
  - intros u h. rewrite Hm. apply Hmemo.
Qed.

Ltac going_down :=
  first [ done | by rewrite set_status_memo | intros ?; by rewrite set_status_status | intros ?; by rewrite set_status_queue
        | intros ? ? ?; set_solver ].

Lemma session_ended_same r r1 e now sent :
  session_turn r r1 sent → session_turn r (session_ended r1 e now sent).1 (o_sent (session_ended r1 e now sent).2).
Proof.
  intros [Hh Hp Hq Hs]. unfold session_ended.
  assert (Hany : ∀ r2 st, r_driver r2 = set_status (r_driver r1) st ∨ r_driver r2 = d_set_receiving (set_status (r_driver r1) st) false →
    (∀ url, st ≠ Up url) → (∀ p, r_phase r2 ≠ Pumping p) → session_turn r r2 sent).
  { intros r2 st Hd Hst Hp2. split; [|by intros ? ?%Hp2| |done].
    - intros [Hup Hmemo]%Hh. split; intros *; destruct Hd as [->| ->]; cbn; rewrite ?set_status_status, ?set_status_memo.
      + by intros ?%Hst.
      + by intros ?%Hst.
      + apply Hmemo.
      + apply Hmemo.
    - intros f. destruct Hd as [->| ->]; cbn; rewrite set_status_queue; apply Hq. }
  destruct e, (r_book r1); cbn; eapply Hany; cbn; eauto; done.
Qed.

Lemma after_turn_same r t now :
  session_turn r (pt_run t) (pt_sent t) → session_turn r (after_turn t now).1 (o_sent (after_turn t now).2).
Proof. intros H. unfold after_turn. destruct (pt_end t); [|done]. by apply session_ended_same. Qed.

Lemma pump_message_same r p m now ok :
  r_phase r = Pumping p → session_turn r (pt_run (pump_message r p m now ok)) (pt_sent (pump_message r p m now ok)).
Proof.
  intros Hp. unfold pump_message, resolve, r_deliver. repeat case_match; simplify_eq; cbn;
    (apply session_turn_keep; [done..|by eauto|by eauto|set_solver]).
Qed.

Lemma pump_register_same r p b epoch now ok :
  r_phase r = Pumping p → session_turn r (pt_run (pump_register r p b epoch now ok)) (pt_sent (pump_register r p b epoch now ok)).
Proof.
  intros Hp. unfold pump_register. destruct (registration b (pp_host p) now) as [b' tags].
  destruct ok; cbn; (apply session_turn_keep; [done..|intros p0 E; rewrite Hp in E; simplify_eq; by eexists|intros p' [= <-]; by exists p|set_solver]).
Qed.

Lemma pump_outbound_same r p ok :
  r_phase r = Pumping p → session_turn r (pt_run (pump_outbound r ok)) (pt_sent (pump_outbound r ok)).
Proof.
  intros Hp. unfold pump_outbound, outbound_take. destruct (d_queue (r_driver r)) as [|f q] eqn:Eq; [apply session_turn_refl|]. unfold outbound_written.
  assert (Hr : ∀ r2 sent, r_driver r2 = d_set_queue (r_driver r) q ∨ r_driver r2 = d_set_activity (d_set_queue (r_driver r) q) (count_sent (d_activity (r_driver r))) →
    r_phase r2 = r_phase r → (∀ g, PFrame g ∈ sent → g = f) → session_turn r r2 sent).
  { intros r2 sent Hd Hp2 Hsent. split.
    - intros [Hup Hmemo]. split; intros *; rewrite ?Hp2; destruct Hd as [->| ->]; cbn; eauto.
    - intros p'. rewrite Hp2. eauto.
    - intros g. rewrite Eq. destruct Hd as [->| ->]; cbn; by right.
    - intros tag dg ->%Hsent. rewrite Eq. split; [by left|eauto]. }
  destruct ok; cbn; [|apply Hr; [by left|done|set_solver]].
  apply Hr; [|by destruct f|set_solver]. destruct f; first [by left|by right].
Qed.

(** A pass of the loop brings a session up or none. *)
Lemma loop_pass_session r n now enow :
  r_phase r = Dialling →
  let '(r', o) := loop_pass key relays r n now enow in comes_up r r' (o_sent o) ∨ session_turn r r' (o_sent o).
Proof.
  intros Hp. unfold loop_pass. destruct (default false _).
  { right. cbn. apply session_turn_down; cbn; going_down. }
  destruct (dialled relays r) as [spec|]; [|right; apply session_turn_refl].
  assert (Hc : match connect key spec r n with (r1, sent, ok) =>
    r_driver r1 = r_driver r ∨ r_driver r1 = d_set_activity (r_driver r) (count_registration (d_activity (r_driver r))) end ∧
    (∀ tag dg, PFrame (SendTag tag dg) ∉ (connect key spec r n).1.2) ∧
    ((connect key spec r n).2 = Some tt → is_Some (RelaySpec_host spec))).
  { unfold connect, registration. repeat case_match; simplify_eq; cbn; split_and!; try done; auto; set_solver. }
  destruct (connect key spec r n) as [[r1 sent] [[]|]]; destruct Hc as (Hd & Hs & Hh); cbn in Hs, Hh |- *.
  - left. destruct Hh as [host Hh]; [done|]. split; cbn; try done; [|by rewrite set_status_queue].
    intros [_ Hmemo]. split; cbn; intros *.
    + rewrite set_status_status. intros [= <-]. eexists. split; [done|]. cbn. change (RelaySpec_host spec = Some (default [] (RelaySpec_host spec))). by rewrite Hh.
    + rewrite set_status_memo. destruct Hd as [E|E]; cbn; rewrite E; apply Hmemo.
  - right. apply session_turn_down; cbn; try done; intros *; rewrite ?set_status_status, ?set_status_memo, ?set_status_queue; [by destruct (_ <? _)|..];
      by destruct Hd as [->| ->].
Qed.

Lemma d_step_session r e :
  (∀ dst dg now, e ≠ DSend dst dg now) →
  let '(r', o) := d_step key relays r e in comes_up r r' (o_sent o) ∨ session_turn r r' (o_sent o).
Proof.
  intros He.
  assert (Hat : ∀ t now, session_turn r (pt_run t) (pt_sent t) → let '(r', o) := after_turn t now in comes_up r r' (o_sent o) ∨ session_turn r r' (o_sent o)).
  { intros t now H%(after_turn_same _ _ now). destruct (after_turn t now). by right. }
  pose proof (session_turn_refl r) as H0. destruct e; cbn [d_step]; try (right; exact H0).
  - destruct (r_phase r) eqn:Ep; try (right; exact H0). by apply loop_pass_session.
  - destruct (r_phase r) eqn:Ep; try (right; exact H0). apply Hat. unfold pump_ping. destruct send_ok; [|done].
    apply session_turn_keep; [done..|cbn; eauto|cbn; eauto|set_solver].
  - destruct (r_phase r) eqn:Ep; try (right; exact H0). apply Hat. unfold pump_refresh.
    destruct (r_book r); [|done]. destruct (_ || _); [by apply pump_register_same|done].
  - destruct (r_phase r) eqn:Ep; try (right; exact H0). apply Hat. unfold pump_changed.
    destruct (r_book r); [|done]. destruct ok; [by apply pump_register_same|done].
  - destruct (r_phase r) eqn:Ep; try (right; exact H0). apply Hat. by eapply pump_outbound_same.
  - destruct (r_phase r) eqn:Ep; try (right; exact H0). apply Hat. by apply pump_message_same.
  - by destruct (He destination datagram now_unix).
  - right. apply session_turn_keep; [done..|cbn; eauto|cbn; eauto|set_solver].
  - right. apply session_turn_keep; [done..|cbn; eauto|cbn; eauto|set_solver].
  - right. apply session_turn_keep; [done..|cbn; eauto|cbn; eauto|set_solver].
  - destruct (r_phase r) eqn:Ep; try (right; exact H0); (destruct (d_stop _); [|right; exact H0]); right;
      (apply session_turn_down; cbn; going_down).
Qed.

(** ** Where a tag ends up *)

(** A frame with a tag was derived, and for the relay whose session is pumped unless it
    is one of those carried into the session. *)
Definition belongs (s : Race) (f : Frame) : Prop :=
  ∀ tag datagram, f = SendTag tag datagram →
    ∃ x, x ∈ ra_derived s ∧ dv_tag x = tag ∧ dv_datagram x = datagram ∧
      ∀ p, r_phase (ra_run s) = Pumping p → dv_host x = pp_host p ∨ f ∈ ra_carried s.

Record race_ok (s : Race) : Prop := {
  ro_host : host_agrees (ra_run s);
  ro_derived x : x ∈ ra_derived s → snd (tag_for_send (dv_book x) (dv_destination x) (dv_host x) (dv_unix x)) = Some (dv_tag x);
  ro_calls k f up : ra_calls s !! k = Some (Enqueue f up) → belongs s f;
  ro_queue f : f ∈ d_queue (r_driver (ra_run s)) → belongs s f;
}.

Lemma belongs_mono s s' f :
  belongs s f → (∀ x, x ∈ ra_derived s → x ∈ ra_derived s') → ra_carried s' = ra_carried s →
  (∀ p', r_phase (ra_run s') = Pumping p' → ∃ p, r_phase (ra_run s) = Pumping p ∧ pp_host p = pp_host p') → belongs s' f.
Proof.
  intros Hb Hd Hc Hp tag dg Hf. destruct (Hb _ _ Hf) as (x & Hx & ? & ? & Hh). exists x. split_and!; auto.
  rewrite Hc. intros p' (p & Hph & <-)%Hp. by apply Hh.
Qed.

Lemma about_to_queue_elem calls k f up : calls !! k = Some (Enqueue f up) → f ∈ about_to_queue calls.
Proof. intros H. apply list_elem_of_omap. exists (k, Enqueue f up). split; [by apply elem_of_map_to_list|done]. Qed.

Lemma race_turn_cases s e :
  race_turn s e = (s, []) ∨
  ∃ r o, d_step key relays (ra_run s) e = (r, o) ∧ (comes_up (ra_run s) r (o_sent o) ∨ session_turn (ra_run s) r (o_sent o)) ∧
    race_turn s e = (mkRace r (ra_calls s) (ra_derived s)
      (match r_phase (ra_run s), r_phase r with Dialling, Pumping _ => about_to_queue (ra_calls s) | _, _ => ra_carried s end), o_sent o).
Proof.
  destruct e as [| | | | | |dst dg nu| | | |] eqn:E; [..|by left| | | |].
  all: right; pose proof (d_step_session (ra_run s) e) as Hs; rewrite E in Hs; unfold race_turn.
  all: destruct (d_step key relays (ra_run s) _) as [r o]; exists r, o; split; [done|]; split; [by apply Hs|done].
Qed.

Lemma race_turn_ok s e : race_ok s → race_ok (race_turn s e).1.
Proof.
  intros H. destruct (race_turn_cases s e) as [->|(r' & o & _ & [Hs|Hs] & ->)]; [done|..]; cbn [fst].
  - assert (Hb : ∀ k f up, ra_calls s !! k = Some (Enqueue f up) → belongs (mkRace r' (ra_calls s) (ra_derived s)
      (match r_phase (ra_run s), r_phase r' with Dialling, Pumping _ => about_to_queue (ra_calls s) | _, _ => ra_carried s end)) f).
    { intros k f up Hk tag dg Hf. destruct (ro_calls _ H _ _ _ Hk _ _ Hf) as (x & ? & ? & ? & _). exists x. split_and!; [done..|].
      cbn. intros p ->. right. rewrite (ns_down _ _ _ Hs). by eapply about_to_queue_elem. }
    split; cbn; [by apply Hs, H|by apply H|exact Hb|]. rewrite (ns_queue _ _ _ Hs). set_solver.
  - assert (Hb : ∀ f, belongs s f → belongs (mkRace r' (ra_calls s) (ra_derived s)
      (match r_phase (ra_run s), r_phase r' with Dialling, Pumping _ => about_to_queue (ra_calls s) | _, _ => ra_carried s end)) f).
    { intros f Hf. apply (belongs_mono s); [done|done| |apply Hs]. cbn.
      destruct (r_phase r') as [|p'|] eqn:E; [by destruct (r_phase (ra_run s))| |by destruct (r_phase (ra_run s))].
      destruct (sa_phase _ _ _ Hs p' E) as (p & -> & _). done. }
    split; cbn; [by apply Hs, H|by apply H| |].
    + intros k f up Hk. by eapply Hb, H.
    + intros f Hf%Hs. by apply Hb, H.
Qed.

(** Changing a call that is not about to queue. *)
Lemma set_call_ok s k c : race_ok s → (∀ f up, c = Enqueue f up → belongs s f) → race_ok (ra_set_call s k c).
Proof.
  intros H Hc. split; cbn; [apply H|apply H| |apply H].
  intros k' f up. rewrite lookup_insert_Some. intros [[_ E]|[_ E]]; [by eapply Hc|by eapply H].
Qed.

(** The host a tag is derived for is the one of the session. *)
Lemma current_host_session r d host :
  host_agrees r → current_host (r_driver r) = (d, host) →
  host_agrees (r_set_driver r d) ∧ d_queue d = d_queue (r_driver r) ∧
  ∀ h, host = Some h → ∃ p, r_phase r = Pumping p ∧ h = pp_host p.
Proof.
  intros [Hup Hmemo] E. pose proof E as E2. apply current_host_driver in E2.
  assert (Hh : ∀ url h, d_status (r_driver r) = Up url → RelaySpec_host (RelaySpec_plain url) = Some h → ∃ p, r_phase r = Pumping p ∧ h = pp_host p).
  { intros url h (p & ? & Hp)%Hup. rewrite Hp. intros [= <-]. by exists p. }
  split_and!.
  - split; [intros url; destruct E2 as [->|[m ->]]; apply Hup|]. unfold current_host in E. repeat case_match; simplify_eq; cbn; eauto; naive_solver.
  - by destruct E2 as [->|[m ->]].
  - intros h ->. unfold current_host in E. repeat case_match; simplify_eq; eauto.
    apply bool_decide_eq_true_1 in H2 as ->. eauto.
Qed.

Lemma derive_ok s k dst dg up now : race_ok s → race_ok (derive_frame s k dst dg up now).
Proof.
  intros H. unfold derive_frame. destruct (r_book (ra_run s)) as [b|] eqn:Eb; [|apply set_call_ok; [done|]; by intros ?? [= <- <-] ?].
  destruct (current_host (r_driver (ra_run s))) as [d host] eqn:Eh.
  destruct (current_host_session _ _ _ (ro_host _ H) Eh) as (Hh & Hq & Hhost).
  assert (Hrun : ∀ b', race_ok (ra_set_run s (r_set_book (r_set_driver (ra_run s) d) b'))).
  { intros b'. split; [by destruct Hh|apply H| |]; cbn; [apply H|rewrite Hq; apply H]. }
  destruct host as [host|].
  2:{ apply set_call_ok; [|done]. specialize (Hrun (r_book (ra_run s))). by destruct s as [[] ???]. }
  destruct (tag_for_send b dst host now) as [b' [tag|]] eqn:Et; [|by apply set_call_ok].
  set (s1 := mkRace (r_set_book (r_set_driver (ra_run s) d) (Some b')) (ra_calls s) (ra_derived s ++ [mkDerived host b dst now tag dg]) (ra_carried s)).
  change (race_ok (ra_set_call s1 k (Enqueue (SendTag tag dg) up))). destruct (Hhost _ eq_refl) as (p & Hp & Hpp).
  assert (Hm : ∀ f, belongs s f → belongs s1 f).
  { intros f Hf. eapply belongs_mono; [done|set_solver|done|]. cbn. eauto. }
  apply set_call_ok.
  - split; cbn.
    + by destruct (Hrun None) as [[] _ _ _].
    + intros x [Hx| ->%list_elem_of_singleton]%elem_of_app; [by apply H|]. cbn. by rewrite Et.
    + intros k' f up' Hk. by eapply Hm, H.
    + intros f. rewrite Hq. intros Hf. by apply Hm, H.
  - intros f up' [= <- <-] tag' dg' [= <- <-]. eexists. split; [apply elem_of_app; right; by left|]. split_and!; [done..|].
    cbn. intros p'. rewrite Hp. intros [= <-]. by left.
Qed.

Lemma enqueue_ok s k f up : race_ok s → belongs s f → race_ok (enqueue s k f up).
Proof.
  intros H Hf. unfold enqueue, queue_send. destruct (negb _); [by apply set_call_ok|]. destruct (_ <? _)%nat; [|by apply set_call_ok].
  apply set_call_ok; [|done]. destruct (ro_host _ H) as [Hup Hmemo]. split; cbn; [by split|apply H|apply H|].
  intros g [Hg| ->%list_elem_of_singleton]%elem_of_app; [by apply H|done].
Qed.

Lemma race_step_ok s e : race_ok s → race_ok (race_step s e).1.
Proof.
  intros H. destruct e as [e|k dst dg|k now]; cbn [race_step fst]; [by apply race_turn_ok| |].
  - destruct (ra_calls s !! k); [done|]. by apply set_call_ok.
  - unfold send_next. destruct (ra_calls s !! k) as [[]|] eqn:Ek; try done.
    + apply set_call_ok; [done|]. by destruct (d_stop _).
    + by apply set_call_ok.
    + by apply derive_ok.
    + apply enqueue_ok; [done|]. by eapply H.
Qed.

Lemma race_run_ok id book es : race_ok (race_run (race_start id book) es).
Proof.
  unfold race_run. assert (H : race_ok (race_start id book)).
  { unfold race_start, run_start. destruct relays; (split; cbn; [split; cbn; done|set_solver|by intros ???; rewrite lookup_empty|set_solver]). }
  revert H. generalize (race_start id book). induction es as [|e es IH]; intros s H; [done|]. by apply IH, race_step_ok.
Qed.

(** C28: whose tag a relay is shown, with sends and the task interleaved in any way.
    A datagram written under a tag was derived from the book for the host of the
    session it is written on, unless it belongs to a send that had its frame in hand
    and had not queued it when that session came up; so where no send was at that
    point, every tag is on the relay it was derived for. *)
Theorem raced_tags_follow_their_relay id book es e tag datagram :
  let s := race_run (race_start id book) es in
  PFrame (SendTag tag datagram) ∈ (race_turn s e).2 →
  ∃ p x, r_phase (ra_run s) = Pumping p ∧ x ∈ ra_derived s ∧ dv_tag x = tag ∧ dv_datagram x = datagram ∧
    snd (tag_for_send (dv_book x) (dv_destination x) (dv_host x) (dv_unix x)) = Some tag ∧
    (dv_host x = pp_host p ∨ SendTag tag datagram ∈ ra_carried s) ∧
    (ra_carried s = [] → dv_host x = pp_host p).
Proof.
  cbn zeta. pose proof (race_run_ok id book es) as H. set (s := race_run _ _) in *. intros Hin.
  assert (Hs : SendTag tag datagram ∈ d_queue (r_driver (ra_run s)) ∧ ∃ p, r_phase (ra_run s) = Pumping p).
  { destruct (race_turn_cases s e) as [E|(r' & o & _ & Hd & E)]; rewrite E in Hin; cbn in Hin; [set_solver|].
    destruct Hd as [Hd|Hd]; [by apply Hd in Hin|by apply Hd]. }
  destruct Hs as [Hq [p Hp]]. destruct (ro_queue _ H _ Hq _ _ eq_refl) as (x & Hx & Ht & Hg & Hh). exists p, x.
  split_and!; try done; [rewrite <-Ht; by apply H|by apply Hh|]. intros Hc. destruct (Hh _ Hp) as [|Hh']; [done|]. rewrite Hc in Hh'. set_solver.
Qed.

End sends.

(** ** A send that crosses *)

#[local] Existing Instances toy_crypto toy_rdv.
#[local] Instance se_peers_order : HashIter NodeId RendezvousPeer := map_order _ _.
#[local] Instance se_pairing_order : HashIter NodeId PairingRoute := map_order _ _.
#[local] Instance se_paired_order : HashIter NodeId (array 32) := map_order _ _.

Definition se_key : TransportKey := TransportKey_from_seed (pad_array 32 (lit "seed")).
Definition se_relays : list RelaySpec := [RelaySpec_plain (lit "wss://relay.one"); RelaySpec_plain (lit "wss://relay.two")].

(** The send derives its tag on the first relay, the session is lost, the second
    relay comes up with its queue drained, and then the send queues. *)
Definition se_events : list RStep :=
  [RTurn (DPass ex_dial 0 0); RCall 0 (ex_id 2) (lit "one"); RNext 0 0; RNext 0 0; RNext 0 0;
   RTurn (DMessage None 0 true 0); RTurn (DPass ex_dial 0 0); RNext 0 0].

Abbreviation se_after := (race_run se_key se_relays (race_start se_relays 0 (Some ex_alice)) se_events).

Definition se_tag (host : list byte) : option Tag := snd (tag_for_send ex_alice (ex_id 2) host 0).

Lemma se_written :
  ∃ tag, se_tag (lit "relay.one") = Some tag ∧ (race_turn se_key se_relays se_after (DOutbound true 0)).2 = [PFrame (SendTag tag (lit "one"))].
Proof. vm_compute. eexists. split; reflexivity. Qed.

(** The drain does not keep a tag from another relay.  A datagram is written on
    the session of the second relay under the tag that was derived for the first
    relay's host, though the queue was drained when the second session came
    up: its send took its frame before the first session was lost and queued it after
    the drain. *)
Theorem send_race_crosses_relays :
  ∃ p tag, r_phase (ra_run se_after) = Pumping p ∧ pp_host p = lit "relay.two" ∧
    (race_turn se_key se_relays se_after (DOutbound true 0)).2 = [PFrame (SendTag tag (lit "one"))] ∧
    se_tag (lit "relay.one") = Some tag ∧ se_tag (lit "relay.two") ≠ Some tag.
Proof.
  destruct se_written as (tag & Ht & Hw).
  assert (Hd : bool_decide (se_tag (lit "relay.one") = se_tag (lit "relay.two")) = false) by (vm_compute; reflexivity).
  assert (Hp : ∃ p, r_phase (ra_run se_after) = Pumping p ∧ pp_host p = lit "relay.two") by (vm_compute; eexists; split; reflexivity).
  destruct Hp as (p & Hp & Hh). exists p, tag. split_and!; try assumption. intros E.
  apply bool_decide_eq_false_1 in Hd. apply Hd. by rewrite Ht, E.
Qed.

Lemma raced_tags_follow_their_relay_witness :
  ∃ tag x, PFrame (SendTag tag (lit "one")) ∈ (race_turn se_key se_relays se_after (DOutbound true 0)).2 ∧
    x ∈ ra_derived se_after ∧ dv_tag x = tag ∧ snd (tag_for_send (dv_book x) (dv_destination x) (dv_host x) (dv_unix x)) = Some tag.
Proof.
  destruct se_written as (tag & _ & Hw).
  assert (Hin : PFrame (SendTag tag (lit "one")) ∈ (race_turn se_key se_relays se_after (DOutbound true 0)).2) by (rewrite Hw; by left).
  destruct (raced_tags_follow_their_relay se_key se_relays 0 (Some ex_alice) se_events (DOutbound true 0) tag (lit "one") Hin)
    as (p & x & _ & Hx & Ht & _ & Hd & _).
  exists tag, x. split; [exact Hin|]. split; [exact Hx|]. split; [exact Ht|exact Hd].
Defined.
