(* ===== verification/RelaySocket.v ===== *)
(** * RelaySocket: the browser's relay socket ([link-endpoint/src/relay_socket])

    The bounded receive queue of [inbound.rs], the callbacks and polls of the
    browser socket of [web.rs] around it, and the shutdown barrier of
    [relay_socket.rs] that waits until the page has closed every socket.  What the
    page delivers is an event; [taken] and [read] are histories of what the socket
    accepted and what the session read. *)

From S2P Require Import Prelude Net Id Rendezvous Card Wire Paths TagBook RelayClient.

Open Scope Z_scope.

Definition INBOUND_BOUND : nat := 1024.
Definition INBOUND_BYTES : Z := Z.shiftl 2 20.
Definition MAX_MESSAGE_BYTES : Z := 16 * 1024.
Definition SEND_HIGH_WATER : Z := Z.shiftl 1 20.

(** ** The receive queue *)

Record InboundQueue : Type := mkInboundQueue { iq_queue : list WsMessage; iq_bytes : Z }.

Definition InboundQueue_default : InboundQueue := mkInboundQueue [] 0.

Definition message_len (m : WsMessage) : Z :=
  match m with WsBinary bytes => Z.of_nat (length bytes) | _ => 0 end.

Definition is_datagram (m : WsMessage) : bool :=
  match m with
  | WsBinary bytes => bool_decide (head bytes = Some FRAME_RECV) || bool_decide (head bytes = Some FRAME_RECV_TAG)
  | _ => false
  end.

(** The condition of the loop in [push], negated. *)
Definition fits (q : InboundQueue) (len : Z) : bool :=
  negb ((INBOUND_BOUND <=? length (iq_queue q))%nat || (INBOUND_BYTES <? iq_bytes q + len)).

(** The loop: one datagram less per turn, so the queue's length is fuel enough. *)
Fixpoint make_room (fuel : nat) (q : InboundQueue) (len : Z) : InboundQueue * bool :=
  if fits q len then (q, true)
  else match list_find (λ m, is_datagram m = true) (iq_queue q), fuel with
  | Some (oldest, dropped), S fuel =>
    make_room fuel (mkInboundQueue (delete oldest (iq_queue q)) (iq_bytes q - message_len dropped)) len
  | _, _ => (q, false)
  end.

Definition iq_push (q : InboundQueue) (m : WsMessage) : InboundQueue * bool :=
  let '(q, room) := make_room (length (iq_queue q)) q (message_len m) in
  if room then (mkInboundQueue (iq_queue q ++ [m]) (iq_bytes q + message_len m), true) else (q, false).

Definition iq_pop (q : InboundQueue) : InboundQueue * option WsMessage :=
  match iq_queue q with
  | [] => (q, None)
  | m :: rest => (mkInboundQueue rest (iq_bytes q - message_len m), Some m)
  end.

(** ** The browser socket *)

(** Why a socket ended. *)
Inductive SocketEnd : Type := EndBound | EndControl | EndError | EndClosed (code : Z).

Record Shared : Type := mkShared {
  sh_open : bool;
  sh_ended : option SocketEnd;
  sh_queue : InboundQueue;
  sh_taken : list WsMessage;
  sh_read : list WsMessage;
}.

Definition Shared_default : Shared := mkShared false None InboundQueue_default [] [].

(** [Shared::end]: the first reason stays. *)
Definition sh_end (s : Shared) (reason : SocketEnd) : Shared :=
  mkShared (sh_open s) (match sh_ended s with None => Some reason | Some r => Some r end) (sh_queue s) (sh_taken s) (sh_read s).

Definition on_open (s : Shared) : Shared := mkShared true (sh_ended s) (sh_queue s) (sh_taken s) (sh_read s).

(** [data] is an array buffer's bytes, or [None] for anything else. *)
Definition on_page_message (s : Shared) (data : option (list byte)) : Shared :=
  match sh_ended s with
  | Some _ => s
  | None =>
    if (match data with Some bytes => MAX_MESSAGE_BYTES <? Z.of_nat (length bytes) | None => false end)
    then sh_end s EndBound
    else
      let message := match data with Some bytes => WsBinary bytes | None => WsOther end in
      let '(q, ok) := iq_push (sh_queue s) message in
      if ok then mkShared (sh_open s) (sh_ended s) q (sh_taken s ++ [message]) (sh_read s)
      else sh_end (mkShared (sh_open s) (sh_ended s) q (sh_taken s) (sh_read s)) EndControl
  end.

(** One poll of [next]: [None] is pending, [Some None] the end. *)
Definition socket_next (s : Shared) : Shared * option (option WsMessage) :=
  let '(q, m) := iq_pop (sh_queue s) in
  match m with
  | Some m => (mkShared (sh_open s) (sh_ended s) q (sh_taken s) (sh_read s ++ [m]), Some (Some m))
  | None => (s, if bool_decide (is_Some (sh_ended s)) then Some None else None)
  end.

(** One poll of the wait in [open]: [None] is pending. *)
Definition open_poll (s : Shared) : option (result SocketEnd unit) :=
  if sh_open s then Some (Ok tt)
  else match sh_ended s with Some reason => Some (Err reason) | None => None end.

(** [send]; [page] is whether the page took the bytes. *)
Definition socket_send (s : Shared) (page : bool) : result (option SocketEnd) unit :=
  match sh_ended s with
  | Some reason => Err (Some reason)
  | None => if page then Ok tt else Err None
  end.

Definition send_ready (buffered_amount : Z) : bool := buffered_amount <=? SEND_HIGH_WATER.

Inductive SEvent : Type :=
  | SOpen
  | SMessage (data : option (list byte))
  | SError
  | SClose (code : Z)
  | SNext.

Definition sk_step (s : Shared) (ev : SEvent) : Shared :=
  match ev with
  | SOpen => on_open s
  | SMessage data => on_page_message s data
  | SError => sh_end s EndError
  | SClose code => sh_end s (EndClosed code)
  | SNext => fst (socket_next s)
  end.

Definition sk_run (s : Shared) (es : list SEvent) : Shared := foldl sk_step s es.

(** ** The shutdown barrier *)

(** A socket's guard: with the socket, or, once that is dropped, with the task
    that waits for the page's [CLOSED]. *)
Inductive Guard : Type := WithSocket | WithTask.

Record Shutdown : Type := mkShutdown {
  (** [SocketShutdown]'s watched count *)
  sd_count : Z;
  sd_guards : gmap Z Guard;
  (** sockets the page reports as [CLOSED] *)
  sd_closed : gset Z;
  sd_next : Z;
}.

Definition Shutdown_default : Shutdown := mkShutdown 0 ∅ ∅ 0.

(** [opened]: the count and a guard. *)
Definition sd_opened (s : Shutdown) : Shutdown :=
  mkShutdown (sd_count s + 1) (<[sd_next s := WithSocket]> (sd_guards s)) (sd_closed s) (sd_next s + 1).

(** [Drop for RelaySocket]: the guard moves to the task. *)
Definition sd_drop (s : Shutdown) (id : Z) : Shutdown :=
  match sd_guards s !! id with
  | Some WithSocket => mkShutdown (sd_count s) (<[id := WithTask]> (sd_guards s)) (sd_closed s) (sd_next s)
  | _ => s
  end.

Definition sd_page_closed (s : Shutdown) (id : Z) : Shutdown :=
  if id <? sd_next s then mkShutdown (sd_count s) (sd_guards s) (sd_closed s ∪ {[id]}) (sd_next s) else s.

(** The task, past its wait: the guard's [Drop] counts down. *)
Definition sd_task (s : Shutdown) (id : Z) : Shutdown :=
  match sd_guards s !! id with
  | Some WithTask =>
    if bool_decide (id ∈ sd_closed s) then mkShutdown (sd_count s - 1) (delete id (sd_guards s)) (sd_closed s) (sd_next s) else s
  | _ => s
  end.

(** [wait] goes on. *)
Definition sd_wait (s : Shutdown) : bool := sd_count s =? 0.

Inductive BEvent : Type := BOpened | BDrop (id : Z) | BPageClosed (id : Z) | BTask (id : Z).

Definition sd_step (s : Shutdown) (ev : BEvent) : Shutdown :=
  match ev with
  | BOpened => sd_opened s
  | BDrop id => sd_drop s id
  | BPageClosed id => sd_page_closed s id
  | BTask id => sd_task s id
  end.

Definition sd_run (s : Shutdown) (es : list BEvent) : Shutdown := foldl sd_step s es.

(** ** What the queue keeps *)

Definition total (l : list WsMessage) : Z := foldr (λ m n, message_len m + n) 0 l.
Definition controls (l : list WsMessage) : list WsMessage := filter (λ m, is_datagram m = false) l.

(** [l] without its [k] oldest datagrams. *)
Fixpoint drop_datagrams (k : nat) (l : list WsMessage) : list WsMessage :=
  match l with
  | [] => []
  | m :: rest =>
    match k with
    | O => l
    | S k' => if is_datagram m then drop_datagrams k' rest else m :: drop_datagrams k rest
    end
  end.

Lemma message_len_nonneg m : 0 <= message_len m.
Proof. destruct m; cbn; lia. Qed.

Lemma total_app l l' : total (l ++ l') = total l + total l'.
Proof. induction l as [|m l IH]; [done|]. cbn [app total foldr]. fold (total (l ++ l')) (total l). lia. Qed.

Lemma total_sublist l l' : l `sublist_of` l' → 0 <= total l <= total l'.
Proof.
  induction 1 as [|m l l' H IH|m l l' H IH]; [done| |]; cbn [total foldr]; fold (total l) (total l');
    pose proof (message_len_nonneg m); lia.
Qed.

Lemma drop_datagrams_0 l : drop_datagrams 0 l = l.
Proof. by destruct l. Qed.

Lemma drop_datagrams_1 k l : drop_datagrams k (drop_datagrams 1 l) = drop_datagrams (S k) l.
Proof.
  induction l as [|m l IH]; [done|]. cbn [drop_datagrams]. destruct (is_datagram m) eqn:E.
  - by rewrite drop_datagrams_0.
  - cbn [drop_datagrams]. destruct k as [|k]; [done | by rewrite E, IH].
Qed.

Lemma drop_datagrams_sublist k l : drop_datagrams k l `sublist_of` l.
Proof.
  revert k. induction l as [|m l IH]; intros k; [done|]. cbn [drop_datagrams]. destruct k as [|k]; [done|].
  destruct (is_datagram m); [by apply sublist_cons | by apply sublist_skip].
Qed.

Lemma controls_cons m l : controls (m :: l) = if is_datagram m then controls l else m :: controls l.
Proof. unfold controls. rewrite filter_cons. destruct (is_datagram m) eqn:E; by repeat case_decide. Qed.

Lemma controls_app l l' : controls (l ++ l') = controls l ++ controls l'.
Proof. apply filter_app. Qed.

Lemma controls_sublist l : controls l `sublist_of` l.
Proof. apply sublist_filter. Qed.

Lemma controls_drop k l : controls (drop_datagrams k l) = controls l.
Proof.
  revert k. induction l as [|m l IH]; intros k; [done|]. cbn [drop_datagrams]. destruct k as [|k]; [done|].
  rewrite (controls_cons m l). destruct (is_datagram m) eqn:E; [done|]. by rewrite controls_cons, E, IH.
Qed.

Lemma find_datagram l :
  match list_find (λ m, is_datagram m = true) l with
  | Some (i, m) => delete i l = drop_datagrams 1 l ∧ total (drop_datagrams 1 l) = total l - message_len m ∧
                   (length (drop_datagrams 1 l) < length l)%nat
  | None => controls l = l
  end.
Proof.
  induction l as [|m l IH]; [done|]. cbn [list_find]. rewrite controls_cons. case_decide as E.
  - cbn [drop_datagrams]. rewrite E, drop_datagrams_0. cbn. split_and!; [done | unfold total; lia | lia].
  - apply not_true_is_false in E. cbn [drop_datagrams]. rewrite E. destruct (list_find _ l) as [[i d]|]; cbn; [|by rewrite IH].
    destruct IH as (IH1 & IH2 & IH3). split_and!; [by f_equal | | lia]. unfold total in *. lia.
Qed.

(** [make_room] gives up the fewest oldest datagrams that make the message fit,
    and fails only when the control frames alone leave no room. *)
Lemma make_room_spec fuel q len :
  iq_bytes q = total (iq_queue q) → (length (iq_queue q) ≤ fuel)%nat →
  let '(q', ok) := make_room fuel q len in
  ∃ k, iq_queue q' = drop_datagrams k (iq_queue q) ∧ iq_bytes q' = total (iq_queue q') ∧ ok = fits q' len ∧
    (∀ j, (j < k)%nat → fits (mkInboundQueue (drop_datagrams j (iq_queue q)) (total (drop_datagrams j (iq_queue q)))) len = false) ∧
    (ok = false → iq_queue q' = controls (iq_queue q)).
Proof.
  revert q. induction fuel as [|fuel IH]; intros q Hb Hf; cbn [make_room]; destruct (fits q len) eqn:Hfit.
  all: try (exists 0%nat; rewrite drop_datagrams_0; split_and!; try done; lia).
  - assert (iq_queue q = []) as Hq by (apply nil_length_inv; lia). rewrite Hq in *. cbn [list_find].
    exists 0%nat. split_and!; try done; try lia. all: rewrite ?Hq; try done.
  - pose proof (find_datagram (iq_queue q)) as Hfind. destruct (list_find _ _) as [[i d]|].
    + destruct Hfind as (-> & Ht & Hl). specialize (IH (mkInboundQueue (drop_datagrams 1 (iq_queue q)) (iq_bytes q - message_len d))).
      cbn [iq_queue iq_bytes] in IH. destruct (make_room fuel _ len) as [q' ok].
      destruct IH as (k & H1 & H2 & H3 & H4 & H5); [lia | lia |]. exists (S k).
      rewrite controls_drop in H5. rewrite drop_datagrams_1 in H1. split_and!; try done.
      intros [|j] Hj.
      * rewrite drop_datagrams_0, <- Hb. by destruct q.
      * rewrite <- drop_datagrams_1. apply H4. lia.
    + exists 0%nat. rewrite drop_datagrams_0. split_and!; try done. lia.
Qed.

Definition fits_now (l : list WsMessage) (len : Z) : Prop := (length l < INBOUND_BOUND)%nat ∧ total l + len <= INBOUND_BYTES.

Lemma fits_spec q len : iq_bytes q = total (iq_queue q) → fits q len = true ↔ fits_now (iq_queue q) len.
Proof.
  intros Hb. unfold fits, fits_now. rewrite negb_true_iff, orb_false_iff, Nat.leb_gt, Z.ltb_ge, Hb. done.
Qed.

Lemma fits_sublist l l' len : l `sublist_of` l' → fits_now l' len → fits_now l len.
Proof. intros H [H1 H2]. pose proof (total_sublist _ _ H). apply sublist_length in H. split; lia. Qed.

(** What [push] does to a queue whose byte count is right. *)
Lemma iq_push_spec q m :
  iq_bytes q = total (iq_queue q) →
  let '(q', ok) := iq_push q m in
  iq_bytes q' = total (iq_queue q') ∧
  (ok = true ↔ fits_now (controls (iq_queue q)) (message_len m)) ∧
  if ok then ∃ k, iq_queue q' = drop_datagrams k (iq_queue q) ++ [m] ∧ fits_now (drop_datagrams k (iq_queue q)) (message_len m) ∧
                  ∀ j, (j < k)%nat → ¬ fits_now (drop_datagrams j (iq_queue q)) (message_len m)
  else iq_queue q' = controls (iq_queue q).
Proof.
  intros Hb. unfold iq_push. pose proof (make_room_spec (length (iq_queue q)) q (message_len m) Hb ltac:(lia)) as H.
  destruct (make_room _ q _) as [q' ok]. destruct H as (k & H1 & H2 & H3 & H4 & H5). destruct ok; cbn [iq_bytes iq_queue].
  - symmetry in H3. apply fits_spec in H3; [|done]. rewrite total_app, H1 in *. cbn [total foldr]. rewrite H2.
    split; [cbn; lia|]. split.
    + split; [intros _ | done]. eapply fits_sublist; [|done]. rewrite <- (controls_drop k). apply controls_sublist.
    + exists k. split_and!; try done. intros j Hj Hfit. specialize (H4 j Hj).
      rewrite (proj2 (fits_spec (mkInboundQueue (drop_datagrams j (iq_queue q)) (total (drop_datagrams j (iq_queue q)))) _ eq_refl) Hfit) in H4. done.
  - split; [done|]. split; [|by apply H5]. split; [done|]. intros Hfit. rewrite <- (H5 eq_refl) in Hfit.
    apply fits_spec in Hfit; [|done]. congruence.
Qed.

(** ** What the session reads *)

Record sk_ok (s : Shared) : Prop := {
  so_len : (length (iq_queue (sh_queue s)) ≤ INBOUND_BOUND)%nat;
  so_bytes : iq_bytes (sh_queue s) = total (iq_queue (sh_queue s));
  so_budget : iq_bytes (sh_queue s) <= INBOUND_BYTES;
  so_order : sh_read s ++ iq_queue (sh_queue s) `sublist_of` sh_taken s;
  so_controls : controls (sh_read s ++ iq_queue (sh_queue s)) = controls (sh_taken s);
  so_small : Forall (λ m, message_len m <= MAX_MESSAGE_BYTES) (sh_taken s);
}.

Lemma sh_end_ok s reason : sk_ok s → sk_ok (sh_end s reason).
Proof. by intros []. Qed.

(** Replacing the queue by a part of it that keeps the control frames. *)
Lemma sk_shrink s q ended :
  sk_ok s → iq_bytes q = total (iq_queue q) → iq_queue q `sublist_of` iq_queue (sh_queue s) →
  controls (iq_queue q) = controls (iq_queue (sh_queue s)) →
  sk_ok (mkShared (sh_open s) ended q (sh_taken s) (sh_read s)).
Proof.
  intros [] Hb Hsub Hc. pose proof (total_sublist _ _ Hsub). pose proof (sublist_length _ _ Hsub).
  split; cbn [sh_queue sh_taken sh_read]; try done; try lia.
  - etrans; [|done]. by apply sublist_app.
  - by rewrite controls_app, Hc, <- controls_app.
Qed.

Lemma on_page_message_ok s data : sk_ok s → sk_ok (on_page_message s data).
Proof.
  intros Hok. unfold on_page_message. destruct (sh_ended s); [done|].
  destruct (match data with Some _ => _ | None => _ end) eqn:Hbig; [by apply sh_end_ok|].
  set (m := match data with Some bytes => WsBinary bytes | None => WsOther end).
  assert (Hm : message_len m <= MAX_MESSAGE_BYTES).
  { subst m. destruct data as [bytes|]; cbn; [by apply Z.ltb_ge in Hbig | done]. }
  pose proof (iq_push_spec (sh_queue s) m (so_bytes _ Hok)) as Hp. destruct (iq_push _ m) as [q ok].
  destruct Hp as (Hb & _ & Hp). destruct ok.
  - destruct Hp as (k & Hq & [Hfl Hft] & _). pose proof (drop_datagrams_sublist k (iq_queue (sh_queue s))) as Hsub.
    destruct Hok. split; cbn [sh_queue sh_taken sh_read]; try done.
    + rewrite Hq, length_app. cbn. lia.
    + rewrite Hb, Hq, total_app. cbn. lia.
    + rewrite Hq, (assoc_L (++)). apply sublist_app; [|done]. etrans; [|done]. by apply sublist_app.
    + rewrite Hq, (assoc_L (++)), !(controls_app _ [m]). f_equal.
      by rewrite controls_app, controls_drop, <- controls_app.
    + apply Forall_app. auto.
  - apply sh_end_ok, sk_shrink; [done | done | |].
    + rewrite Hp. apply controls_sublist.
    + rewrite Hp. unfold controls. rewrite list_filter_filter. apply list_filter_iff. naive_solver.
Qed.

Lemma socket_next_ok s : sk_ok s → sk_ok (fst (socket_next s)).
Proof.
  intros Hok. unfold socket_next, iq_pop. destruct (iq_queue (sh_queue s)) as [|m rest] eqn:Hq; [done|].
  destruct Hok. rewrite Hq in *.
  cbn [total foldr] in so_bytes0. fold (total rest) in so_bytes0. cbn [length] in so_len0.
  pose proof (message_len_nonneg m).
  split; cbn [fst sh_queue sh_taken sh_read iq_queue iq_bytes]; rewrite <- ?(assoc_L (++)); cbn; try done; lia.
Qed.

Lemma sk_step_ok s ev : sk_ok s → sk_ok (sk_step s ev).
Proof.
  intros Hok. destruct ev as [|data| |code|]; cbn [sk_step]; auto using sh_end_ok, on_page_message_ok, socket_next_ok.
  by destruct Hok.
Qed.

Lemma sk_run_ok s es : sk_ok s → sk_ok (sk_run s es).
Proof. revert s. induction es as [|ev es IH]; intros s Hok; [done|]. cbn. by apply IH, sk_step_ok. Qed.

Lemma sk_default_ok : sk_ok Shared_default.
Proof. split; cbn; try done; try (unfold INBOUND_BOUND; lia). Qed.

(** Once ended, a socket takes nothing more and keeps its reason. *)
Lemma sk_ended_stays s es reason :
  sh_ended s = Some reason → sh_ended (sk_run s es) = Some reason ∧ sh_taken (sk_run s es) = sh_taken s.
Proof.
  revert s. induction es as [|ev es IH]; intros s He; [done|]. cbn.
  assert (sh_ended (sk_step s ev) = Some reason ∧ sh_taken (sk_step s ev) = sh_taken s) as [H1 H2].
  { destruct ev; cbn; unfold on_page_message, socket_next; try destruct (iq_pop _) as [? []]; rewrite ?He; done. }
  destruct (IH _ H1) as [H3 H4]. split; [done | exact (eq_trans H4 H2)].
Qed.

(** C34: what a browser session reads from its relay, whatever the page delivers
    and however slowly the session reads.  The queue holds at most 1024 messages
    and 2 MiB, and no message above 16 KiB is taken.  What was read and is queued
    comes in the order it arrived; only datagrams are ever missing from it, never a
    control frame.  A further message gives up the fewest oldest datagrams that
    make it fit and is refused, ending the socket, exactly when the control
    frames alone leave no room.  The session is told of the end only after it has
    read everything, and an ended socket takes nothing more and keeps its first
    reason. *)
Theorem browser_socket_delivery es :
  let s := sk_run Shared_default es in let q := iq_queue (sh_queue s) in
  ((length q ≤ INBOUND_BOUND)%nat ∧ total q <= INBOUND_BYTES ∧ Forall (λ m, message_len m <= MAX_MESSAGE_BYTES) (sh_taken s)) ∧
  (sh_read s ++ q `sublist_of` sh_taken s ∧ controls (sh_read s ++ q) = controls (sh_taken s)) ∧
  (∀ m, message_len m <= MAX_MESSAGE_BYTES →
    let '(q', ok) := iq_push (sh_queue s) m in
    (ok = true ↔ fits_now (controls q) (message_len m)) ∧
    (ok = true → ∃ k, iq_queue q' = drop_datagrams k q ++ [m] ∧ ∀ j, (j < k)%nat → ¬ fits_now (drop_datagrams j q) (message_len m))) ∧
  (snd (socket_next s) = Some None ↔ q = [] ∧ is_Some (sh_ended s)) ∧
  (∀ reason es', sh_ended s = Some reason →
    sh_ended (sk_run s es') = Some reason ∧ sh_taken (sk_run s es') = sh_taken s).
Proof.
  intros s q. pose proof (sk_run_ok _ es sk_default_ok : sk_ok s) as Hok. split_and!.
  - apply Hok.
  - pose proof (so_bytes _ Hok) as Hb. fold q in Hb. rewrite <- Hb. apply Hok.
  - apply Hok.
  - apply Hok.
  - apply Hok.
  - intros m _. pose proof (iq_push_spec (sh_queue s) m (so_bytes _ Hok)) as Hp. destruct (iq_push _ m) as [q' ok].
    destruct Hp as (_ & Hiff & Hp). split; [done|]. intros ->. destruct Hp as (k & H1 & _ & H2). eauto.
  - unfold socket_next, iq_pop. fold q. destruct q as [|m rest]; cbn; [|naive_solver].
    case_bool_decide; naive_solver.
  - intros reason es' He. by apply sk_ended_stays.
Qed.

(** A full queue gives up its oldest datagram for a pong and keeps the control
    frame in front. *)
Example oldest_datagram_goes :
  let full := mkInboundQueue (WsOther :: WsBinary [FRAME_RECV; Byte.x01] :: replicate 1022 (WsBinary [FRAME_RECV_TAG])) 1024 in
  let '(q, ok) := iq_push full WsPong in
  ok = true ∧ length (iq_queue q) = INBOUND_BOUND ∧ iq_bytes q = 1022 ∧ take 2 (iq_queue q) = [WsOther; WsBinary [FRAME_RECV_TAG]].
Proof. vm_compute. auto. Qed.

(** ** The barrier waits for every socket *)

Record sd_ok (s : Shutdown) : Prop := {
  sd_exact : sd_count s = Z.of_nat (size (sd_guards s));
  sd_fresh : ∀ id g, sd_guards s !! id = Some g → 0 <= id < sd_next s;
  sd_released : ∀ id, 0 <= id < sd_next s → sd_guards s !! id = None → id ∈ sd_closed s;
  sd_counter : 0 <= sd_next s;
}.

Lemma sd_step_ok s ev : sd_ok s → sd_ok (sd_step s ev).
Proof.
  intros [Hc Hf Hr Hn]. destruct ev as [|id|id|id]; cbn [sd_step].
  - unfold sd_opened. split; cbn [sd_count sd_guards sd_next sd_closed]; [| | |lia].
    + rewrite map_size_insert_None; [lia|]. destruct (sd_guards s !! sd_next s) eqn:E; [|done]. apply Hf in E. lia.
    + intros id g. rewrite lookup_insert_Some. intros [[<- _]|[_ H%Hf]]; lia.
    + intros id Hid [H Hne]%lookup_insert_None. apply Hr; [lia | done].
  - unfold sd_drop. destruct (sd_guards s !! id) as [[]|] eqn:E; try done. split; cbn [sd_count sd_guards sd_next sd_closed]; [| | |done].
    + rewrite map_size_insert_Some; eauto.
    + intros id' g. rewrite lookup_insert_Some. intros [[<- _]|[_ H%Hf]]; [by apply Hf in E | done].
    + intros id' Hid [H _]%lookup_insert_None. by apply Hr.
  - unfold sd_page_closed. destruct (id <? sd_next s); [|done]. split; cbn [sd_count sd_guards sd_next sd_closed]; try done.
    intros id' Hid H. apply elem_of_union_l. by apply Hr.
  - unfold sd_task. destruct (sd_guards s !! id) as [[]|] eqn:E; try done. case_bool_decide; [|done].
    split; cbn [sd_count sd_guards sd_next sd_closed]; [| | |done].
    + rewrite Hc, (map_size_delete_Some id (sd_guards s)) by eauto.
      assert (size (sd_guards s) ≠ 0%nat); [|lia]. intros H0%map_size_empty_inv. by rewrite H0 in E.
    + intros id' g [_ H2%Hf]%lookup_delete_Some. done.
    + intros id' Hid [<-|H2]%lookup_delete_None; [done | by apply Hr].
Qed.

Lemma sd_run_ok es : sd_ok (sd_run Shutdown_default es).
Proof.
  induction es as [|ev es IH] using rev_ind; [split; cbn; try done; lia|]. unfold sd_run in *. rewrite foldl_snoc. by apply sd_step_ok.
Qed.

(** A dropped socket the page has closed is released by its task. *)
Lemma sd_task_releases s id :
  sd_guards s !! id = Some WithTask → id ∈ sd_closed s →
  sd_task s id = mkShutdown (sd_count s - 1) (delete id (sd_guards s)) (sd_closed s) (sd_next s).
Proof. intros E Hc. unfold sd_task. rewrite E. by rewrite bool_decide_eq_true_2. Qed.

Lemma sd_tasks_drain ids s :
  (∀ id g, sd_guards s !! id = Some g → id ∈ ids ∧ g = WithTask ∧ id ∈ sd_closed s) →
  sd_guards (sd_run s (BTask <$> ids)) = ∅.
Proof.
  revert s. induction ids as [|i ids IH]; intros s Hs.
  { apply map_empty. intros id. destruct (sd_guards s !! id) eqn:E; [|done]. by apply Hs in E as [[]%not_elem_of_nil _]. }
  cbn. apply IH. cbn [sd_step]. destruct (sd_guards s !! i) as [g|] eqn:E.
  - destruct (Hs _ _ E) as (_ & -> & Hc). rewrite (sd_task_releases s i E Hc). cbn. intros id g [Hne H]%lookup_delete_Some.
    apply Hs in H as ([->|H]%elem_of_cons & ?); [done|]. auto.
  - unfold sd_task. rewrite E. intros id g H. pose proof H as H'. apply Hs in H as ([->|H]%elem_of_cons & ?); [congruence|]. auto.
Qed.

(** Waiting for the sockets of a closing client: the wait ends exactly when every
    socket ever opened was dropped and closed by the page, also those of a
    cancelled or replaced connection; and once they are, the tasks bring it about. *)
Theorem shutdown_barrier es :
  let s := sd_run Shutdown_default es in
  (sd_wait s = true ↔ ∀ id, 0 <= id < sd_next s → sd_guards s !! id = None) ∧
  (∀ id, 0 <= id < sd_next s → sd_guards s !! id = None → id ∈ sd_closed s) ∧
  ((∀ id g, sd_guards s !! id = Some g → g = WithTask ∧ id ∈ sd_closed s) →
   sd_wait (sd_run s (BTask <$> elements (dom (sd_guards s)))) = true).
Proof.
  intros s. pose proof (sd_run_ok es : sd_ok s) as Hok.
  assert (Hwait : ∀ t, sd_ok t → sd_wait t = true ↔ sd_guards t = ∅).
  { intros t Ht. unfold sd_wait. rewrite (sd_exact _ Ht), Z.eqb_eq, <- map_size_empty_iff. lia. }
  split_and!.
  - rewrite (Hwait _ Hok). split; [intros ->; intros; apply lookup_empty|]. intros H. apply map_empty. intros id.
    destruct (sd_guards s !! id) eqn:E; [|done]. rewrite <- E. apply H. by eapply sd_fresh.
  - apply Hok.
  - intros H. apply Hwait.
    + subst s. unfold sd_run. rewrite <- foldl_app. apply sd_run_ok.
    + apply sd_tasks_drain. intros id g E. split; [|by apply H in E]. apply elem_of_elements, elem_of_dom. eauto.
Qed.
