(* ===== verification/RelayTls.v ===== *)
(** * RelayTls: whose certificate a native relay connection accepts
    ([link-endpoint/src/relay_tls.rs])

    The choice between WebPKI, a pinned leaf and the development mode, and the
    verifier of the last two.  WebPKI verification and the signature checks of
    rustls are parameters.  [str::to_lowercase] is its ASCII part: no other
    character has a lower case among the hexadecimal digits a pin is compared with. *)

From S2P Require Import Prelude Net Id Tls Rendezvous Card Wire Paths TagBook RelayClient.

Open Scope Z_scope.

(** [format!("{b:02x}")] over the bytes. *)
Definition hex_nibble (v : Z) : byte := byte_of_Z (if v <? 10 then 0x30 + v else 0x57 + v).
Definition hex_text (l : list byte) : list byte :=
  l ≫= λ b, [hex_nibble (byte_to_Z b / 16); hex_nibble (byte_to_Z b mod 16)].

(** rustls: WebPKI verification of a leaf for the relay's name, and its two
    signature checks. *)
Class RelayTlsLib : Type := {
  webpki_accepts : list byte → list byte → bool;
  tls12_verify : list byte → list byte → Dss → bool;
  tls13_verify : list byte → list byte → Dss → bool;
  provider_schemes : list Z;
}.

Section relay_tls.
Context `{C : Crypto, R : RelayTlsLib}.

Definition sig_result (ok : bool) : exec (result TlsError unit) := Ret (if ok then Ok tt else Err BadSignature).

Definition PinnedRelayVerifier (expected : option (list byte)) : ServerCertVerifier := {|
  sv_verify_server_cert end_entity :=
    Ret (match expected with
         | Some expected =>
           if negb (bool_decide (hex_text (bytes_of (sha256 end_entity)) = expected))
           then Err ApplicationVerificationFailure else Ok tt
         | None => Ok tt
         end);
  sv_verify_tls12_signature message cert dss := sig_result (tls12_verify message cert dss);
  sv_verify_tls13_signature message cert dss := sig_result (tls13_verify message cert dss);
  sv_supported_verify_schemes := provider_schemes;
  sv_requires_raw_public_keys := false;
|}.

(** The verifier a connector holds: rustls's own over the bundled roots, or the
    custom one. *)
Definition connector (spec : RelaySpec) : option ServerCertVerifier :=
  match spec_cert_sha256 spec, spec_insecure_tls spec with
  | None, false => None
  | expected, _ =>
    Some (PinnedRelayVerifier (match expected with
                               | Some fingerprint => Some (to_ascii_lowercase <$> fingerprint)
                               | None => None
                               end))
  end.

(** Whether a relay's leaf is accepted for a host. *)
Definition relay_accepts (spec : RelaySpec) (host leaf : list byte) : exec bool :=
  match connector spec with
  | None => Ret (webpki_accepts host leaf)
  | Some v => r ← sv_verify_server_cert v leaf; Ret (match r with Ok _ => true | Err _ => false end)
  end.

Lemma hex_byte_inj : ∀ a b : byte,
  hex_nibble (byte_to_Z a / 16) = hex_nibble (byte_to_Z b / 16) → hex_nibble (byte_to_Z a mod 16) = hex_nibble (byte_to_Z b mod 16) → a = b.
Proof.
  assert (Hd : ∀ v w, 0 <= v < 16 → 0 <= w < 16 → hex_nibble v = hex_nibble w → v = w).
  { intros v w Hv Hw E. apply (f_equal byte_to_Z) in E. unfold hex_nibble in E.
    rewrite !byte_to_Z_of_Z in E.
    destruct (Z.ltb_spec v 10), (Z.ltb_spec w 10); rewrite !Z.mod_small in E by lia; lia. }
  intros a b H1 H2. pose proof (byte_to_Z_range a). pose proof (byte_to_Z_range b).
  apply Hd in H1; [|Z.div_mod_to_equations; lia..]. apply Hd in H2; [|Z.div_mod_to_equations; lia..].
  apply (inj byte_to_Z). Z.div_mod_to_equations. lia.
Qed.

Lemma hex_text_inj l l' : hex_text l = hex_text l' → l = l'.
Proof.
  revert l'. induction l as [|a l IH]; intros [|b l']; [done..|]. unfold hex_text. cbn. intros [= H1 H2 H3].
  f_equal; [by apply hex_byte_inj | by apply IH].
Qed.

(** The rule for relay certificates.  A spec with a fingerprint, spelt in either
    case and with or without the development flag, accepts the leaf with that
    SHA-256 digest and no other; a plain spec leaves the decision to WebPKI; only
    the flag without a fingerprint accepts every leaf. *)
Theorem relay_certificate_rule spec host leaf :
  (∀ pin digest, spec_cert_sha256 spec = Some pin → to_ascii_lowercase <$> pin = hex_text (bytes_of digest) →
     ∃ b, relay_accepts spec host leaf = Ret b ∧ (b = true ↔ sha256 leaf = digest)) ∧
  (spec_cert_sha256 spec = None → spec_insecure_tls spec = false → relay_accepts spec host leaf = Ret (webpki_accepts host leaf)) ∧
  (spec_cert_sha256 spec = None → spec_insecure_tls spec = true → relay_accepts spec host leaf = Ret true).
Proof.
  unfold relay_accepts, connector. split_and!.
  - intros pin digest -> Hpin. cbn. rewrite Hpin. eexists. split; [done|]. case_bool_decide as E; cbn.
    + split; [|done]. intros _. by apply (inj bytes_of), hex_text_inj.
    + split; [done|]. intros <-. done.
  - by intros -> ->.
  - by intros -> ->.
Qed.
End relay_tls.
