(* ===== verification/Session.v ===== *)
(** * Session: the control stream and the path state machine ([link-endpoint/src/session.rs])

    The control messages two ends exchange over QUIC, the transition record of a
    session and the machine that drives it, turn by turn, over the path socket
    of [Paths].  QUIC itself, its exporter and the stream plumbing are inputs: a
    turn is told what woke it, what the relay client answers and the time; one
    turn reads the clock once. *)

From S2P Require Import Prelude Net Id Rendezvous Card Wire Paths TagBook RelayClient.

Open Scope Z_scope.

Definition PROBE_ROUND : Z := secs 5.
Definition PROBE_COOLDOWN : Z := secs 30.
Definition REPROVE_INTERVAL : Z := secs 5.
Definition REFLECTOR_GRACE : Z := millis 300.
Definition HISTORY_CAP : nat := 256.
Definition CONTROL_QUEUE : nat := 8.

(** ** Path status ([link-core/src/path.rs]) *)

Inductive FailReason : Type := FrRelay | FrRendezvous | FrIdentity | FrTimeout | FrSuperseded.

Inductive PathStatus : Type :=
  | PIdle | PRendezvous | PRelayed | PProbing | PDirect | PReconnecting
  | PFailed (reason : FailReason).

#[global] Instance FailReason_eq_dec : EqDecision FailReason.
Proof. solve_decision. Defined.
#[global] Instance PathStatus_eq_dec : EqDecision PathStatus.
Proof. solve_decision. Defined.

Definition FailReason_fmt (r : FailReason) : list byte :=
  match r with
  | FrRelay => lit "relay"
  | FrRendezvous => lit "rendezvous"
  | FrIdentity => lit "identity"
  | FrTimeout => lit "timeout"
  | FrSuperseded => lit "superseded"
  end.

Definition outcome (s : PathStatus) : list byte :=
  match s with
  | PIdle => lit "idle"
  | PRendezvous => lit "rendezvous"
  | PRelayed => lit "relayed"
  | PProbing => lit "probing"
  | PDirect => lit "direct"
  | PReconnecting => lit "reconnecting"
  | PFailed reason => lit "failed(" ++ FailReason_fmt reason ++ lit ")"
  end.

(** The causes of a transition, one constructor per text of the source, with
    the values formatted into it. *)
Inductive RoundCause : Type := SettleDelay | PunchFromPeer | RequestedHere | CooldownElapsed.

Inductive Cause : Type :=
  | CConnect
  | CHandshakeOk
  | CSupersededBySession
  | CIdleTimeout
  | CConnectionEnded
  | CRelaySlotTaken
  | CNoRelay
  | CRelayLost
  | CNewWelcome (waited_ms : Z)
  | CDeclined
  | CNoCandidates
  | CPongProved (addr : SocketAddr)
  | CCandidates (count : nat) (why : RoundCause)
  | CDirectFailed
  | CDirectLost.

#[global] Instance RoundCause_eq_dec : EqDecision RoundCause.
Proof. solve_decision. Defined.
#[global] Instance Cause_eq_dec : EqDecision Cause.
Proof. solve_decision. Defined.

Record PathReport : Type := mkReport {
  rp_status : PathStatus;
  rp_relay : option (list byte);
  rp_direct : option SocketAddr;
  rp_since : Z;
  rp_cause : Cause;
}.

(** ** The control stream *)

Definition CONTROL_CANDIDATES : byte := Byte.x01.
Definition CONTROL_PUNCH_NOW : byte := Byte.x02.
Definition CONTROL_MAX_BYTES : Z := 4096.

Inductive Control : Type :=
  | Candidates (l : list SocketAddr)
  | PunchNow
  | Unknown.

Definition punch_now_message : list byte := [Byte.x00; Byte.x00; Byte.x00; Byte.x01; CONTROL_PUNCH_NOW].

Definition candidate_bytes (a : SocketAddr) : list byte := bytes_of (to_ipv6 (sa_ip a)) ++ to_be 2 (sa_port a).

Definition candidates_message (candidates : list SocketAddr) : list byte :=
  let body := [CONTROL_CANDIDATES] ++ [byte_of_Z (Z.min (Z.of_nat (length candidates)) 255)] ++
              mbind candidate_bytes (take 255 candidates) in
  to_be 4 (Z.of_nat (length body)) ++ body.

(** [rest.as_chunks::<18>()] and the loop over it. *)
Fixpoint parse_chunks (count : nat) (rest : list byte) : exec (option (list SocketAddr)) :=
  match count with
  | O => Ret (Some [])
  | S k =>
    h ← Hint_as_udp (mkHint HINT_UDP (take 18 rest));
    a ←? h;
    t ← parse_chunks k (drop 18 rest);
    l ←? t;
    Ret (Some (a :: l))
  end.

Definition parse_candidates (rest : list byte) : exec (option (list SocketAddr)) :=
  match rest with
  | [] => Ret None
  | count :: rest =>
    if negb (Z.of_nat (length rest) =? byte_to_Z count * 18) then Ret None
    else parse_chunks (length rest / 18) rest
  end.

Definition parse_control (body : list byte) : exec (option Control) :=
  match body with
  | [] => Ret None
  | kind :: rest =>
    if bool_decide (kind = CONTROL_CANDIDATES)
    then (l ← parse_candidates rest; c ←? l; Ret (Some (Candidates c)))
    else if bool_decide (kind = CONTROL_PUNCH_NOW) then Ret (Some PunchNow)
    else Ret (Some Unknown)
  end.

(** The reading loop of [control_acceptor] over the bytes the peer wrote: the
    messages it acts on, and whether it still reads at the end of the input.
    Every message takes at least five bytes, which is the fuel. *)
Fixpoint read_control (fuel : nat) (input : list byte) : exec (list Control * bool) :=
  match fuel with
  | O => Ret ([], true)
  | S fuel' =>
    if (length input <? 4)%nat then Ret ([], true)
    else
      let len := from_be (take 4 input) in
      let rest := drop 4 input in
      if (len =? 0) || (CONTROL_MAX_BYTES <? len) then Ret ([], false)
      else if Z.of_nat (length rest) <? len then Ret ([], true)
      else
        m ← parse_control (take (Z.to_nat len) rest);
        match m with
        | None => Ret ([], false)
        | Some c =>
          more ← read_control fuel' (drop (Z.to_nat len) rest);
          Ret (c :: more.1, more.2)
        end
  end.

Definition control_acceptor (input : list byte) : exec (list Control * bool) :=
  read_control (S (length input)) input.

(** ** The session *)

Inductive ProbeAsk : Type := PROBE_IDLE | PROBE_LOCAL | PROBE_PEER.
Inductive ControlSend : Type := SendCandidates | SendPunchNow.

(** [SessionInner], without the connection and the shared path socket. *)
Record Sess : Type := mkSess {
  s_peer : NodeId;
  s_allow_direct : bool;
  s_report : PathReport;
  s_history : list PathReport;
  s_probe_now : ProbeAsk;
  s_control : list ControlSend;
  s_punch_requests : Z;
  s_probe_key_id : option (array 8);
  s_session_id : Z;
}.

Definition s_set_report (s : Sess) (r : PathReport) (h : list PathReport) : Sess :=
  mkSess (s_peer s) (s_allow_direct s) r h (s_probe_now s) (s_control s) (s_punch_requests s)
    (s_probe_key_id s) (s_session_id s).
Definition s_set_probe (s : Sess) (a : ProbeAsk) : Sess :=
  mkSess (s_peer s) (s_allow_direct s) (s_report s) (s_history s) a (s_control s) (s_punch_requests s)
    (s_probe_key_id s) (s_session_id s).
Definition s_set_control (s : Sess) (q : list ControlSend) : Sess :=
  mkSess (s_peer s) (s_allow_direct s) (s_report s) (s_history s) (s_probe_now s) q (s_punch_requests s)
    (s_probe_key_id s) (s_session_id s).
(** [punch_requests.fetch_add(1)] on a [u32]. *)
Definition s_count_punch (s : Sess) : Sess :=
  mkSess (s_peer s) (s_allow_direct s) (s_report s) (s_history s) (s_probe_now s) (s_control s)
    ((s_punch_requests s + 1) mod 2 ^ 32) (s_probe_key_id s) (s_session_id s).

(** [control_tx.try_send]: dropped when the queue is full. *)
Definition control_send (s : Sess) (c : ControlSend) : Sess :=
  if (length (s_control s) <? CONTROL_QUEUE)%nat then s_set_control s (s_control s ++ [c]) else s.

(** What the relay client answers during a turn: the drivers it has, the home
    driver and the status of each. *)
Record RelayView : Type := mkRelayView { rv_has : Z → bool; rv_home : Z; rv_status : Z → RelayStatus }.

Definition current_driver (p : Paths) (peer : NodeId) (v : RelayView) : Z :=
  relay_for p peer (rv_has v) (rv_home v).

Definition up_url (s : RelayStatus) : option (list byte) :=
  match s with Up url => Some url | _ => None end.

Definition transition (p : Paths) (v : RelayView) (now : Z) (s : Sess) (status : PathStatus) (cause : Cause) : Sess :=
  let relay := up_url (rv_status v (current_driver p (s_peer s) v)) in
  let direct := match status with
                | PDirect => pv_addr <$> proven_direct p (s_peer s)
                | _ => None
                end in
  let report := s_report s in
  if bool_decide (rp_status report = status)
  then s_set_report s (mkReport (rp_status report) relay direct (rp_since report) (rp_cause report)) (s_history s)
  else
    let report := mkReport status relay direct now cause in
    s_set_report s report
      (if (length (s_history s) <? HISTORY_CAP)%nat then s_history s ++ [report] else s_history s).

(** [request_direct] and [reannounce]. *)
Definition request_direct (s : Sess) : Sess := control_send (s_set_probe s PROBE_LOCAL) SendPunchNow.
Definition reannounce (s : Sess) : Sess := request_direct (control_send s SendCandidates).

(** What the loop of [control_acceptor] does with a message. *)
Definition on_control (p : Paths) (s : Sess) (c : Control) : Paths * Sess :=
  match c with
  | Candidates l => (set_peer_candidates p (s_peer s) l, s)
  | PunchNow => (p, s_set_probe (s_count_punch s) PROBE_PEER)
  | Unknown => (p, s)
  end.

(** What [control_initiator] writes first, and for each request it takes. *)
Definition own_candidates (p : Paths) (s : Sess) (local : list IpAddr) : list SocketAddr :=
  if s_allow_direct s then local_candidates p local else [].
Definition control_write (p : Paths) (s : Sess) (local : list IpAddr) (c : ControlSend) : list byte :=
  match c with
  | SendCandidates => candidates_message (own_candidates p s local)
  | SendPunchNow => punch_now_message
  end.

(** [Session::start], up to the tasks it spawns; [material] is what the TLS
    exporter gave, if it did. *)
Definition session_start (p : Paths) (v : RelayView) (now now2 : Z) (peer : NodeId) (allow_direct : bool)
    (session_id : Z) (material : option (array 32 * array 8)) : Paths * Sess :=
  let relay := up_url (rv_status v (current_driver p peer v)) in
  let initial := mkReport PRendezvous relay None now CConnect in
  let '(p, key_id) := match material with
                      | Some (key, key_id) => (register_probe_key p peer key_id key, Some key_id)
                      | None => (p, None)
                      end in
  let s := mkSess peer allow_direct initial [initial] PROBE_IDLE [] 0 key_id session_id in
  (p, transition p v now2 s PRelayed CHandshakeOk).

(** ** The machine of [drive] *)

(** The locals of [drive]. *)
Record Drive : Type := mkDrive {
  dv_previous : PathStatus;
  dv_reconnect_since : option Z;
  dv_round_ends : option Z;
  dv_next_attempt : Z;
  dv_last_probe : Z;
  dv_announced : bool;
  dv_round_cause : RoundCause;
  dv_net_alive : bool;
  dv_reannounce_at : option Z;
  dv_driver : Z;
  dv_relay_state : RelayStatus;
}.

Definition dv_set_reconnect (d : Drive) (prev : PathStatus) (since : option Z) : Drive :=
  mkDrive prev since (dv_round_ends d) (dv_next_attempt d) (dv_last_probe d) (dv_announced d)
    (dv_round_cause d) (dv_net_alive d) (dv_reannounce_at d) (dv_driver d) (dv_relay_state d).
Definition dv_set_round (d : Drive) (ends : option Z) : Drive :=
  mkDrive (dv_previous d) (dv_reconnect_since d) ends (dv_next_attempt d) (dv_last_probe d) (dv_announced d)
    (dv_round_cause d) (dv_net_alive d) (dv_reannounce_at d) (dv_driver d) (dv_relay_state d).
Definition dv_set_next (d : Drive) (t : Z) : Drive :=
  mkDrive (dv_previous d) (dv_reconnect_since d) (dv_round_ends d) t (dv_last_probe d) (dv_announced d)
    (dv_round_cause d) (dv_net_alive d) (dv_reannounce_at d) (dv_driver d) (dv_relay_state d).
Definition dv_set_last (d : Drive) (t : Z) : Drive :=
  mkDrive (dv_previous d) (dv_reconnect_since d) (dv_round_ends d) (dv_next_attempt d) t (dv_announced d)
    (dv_round_cause d) (dv_net_alive d) (dv_reannounce_at d) (dv_driver d) (dv_relay_state d).
Definition dv_set_announced (d : Drive) : Drive :=
  mkDrive (dv_previous d) (dv_reconnect_since d) (dv_round_ends d) (dv_next_attempt d) (dv_last_probe d) true
    (dv_round_cause d) (dv_net_alive d) (dv_reannounce_at d) (dv_driver d) (dv_relay_state d).
Definition dv_set_cause (d : Drive) (c : RoundCause) : Drive :=
  mkDrive (dv_previous d) (dv_reconnect_since d) (dv_round_ends d) (dv_next_attempt d) (dv_last_probe d)
    (dv_announced d) c (dv_net_alive d) (dv_reannounce_at d) (dv_driver d) (dv_relay_state d).
Definition dv_set_net (d : Drive) (alive : bool) (at_ : option Z) : Drive :=
  mkDrive (dv_previous d) (dv_reconnect_since d) (dv_round_ends d) (dv_next_attempt d) (dv_last_probe d)
    (dv_announced d) (dv_round_cause d) alive at_ (dv_driver d) (dv_relay_state d).
Definition dv_set_relay (d : Drive) (driver : Z) (state : RelayStatus) : Drive :=
  mkDrive (dv_previous d) (dv_reconnect_since d) (dv_round_ends d) (dv_next_attempt d) (dv_last_probe d)
    (dv_announced d) (dv_round_cause d) (dv_net_alive d) (dv_reannounce_at d) driver state.

(** What the [select!] of a turn saw. *)
Inductive CloseReason : Type := LocallyClosed | ApplicationClosed | TimedOut | OtherClose.
Inductive RelayEvent : Type := EvStatus (s : RelayStatus) | EvLagged | EvClosed.
Inductive Wake : Type :=
  | WSuperseded
  | WClosed (reason : CloseReason)
  | WRelay (e : RelayEvent)
  | WNet (ok : bool) (nonce : array 16)
  | WTick.

(** [now] and what a round of probes consumes. *)
Record TurnIn : Type := mkTurnIn { ti_now : Z; ti_probe_now : Z; ti_rnd : nat → PingIn }.

(** A session over its path socket; [w_drive] is [None] once [drive] returned,
    [w_closed] that it closed the connection. *)
Record World : Type := mkWorld {
  w_paths : Paths;
  w_sess : Sess;
  w_drive : option Drive;
  w_closed : bool;
}.

(** [reprove_due]: an instant five seconds back, or now when the clock is younger. *)
Definition reprove_due (now : Z) : Z := if now <? REPROVE_INTERVAL then now else now - REPROVE_INTERVAL.

Definition drive_start (p : Paths) (s : Sess) (v : RelayView) (now probe_delay : Z) : World :=
  let driver := current_driver p (s_peer s) v in
  mkWorld p s (Some (mkDrive PRelayed None None (now + probe_delay) (reprove_due now) false SettleDelay true None
                       driver (rv_status v driver))) false.

Definition elapsed (now since : Z) : Z := duration_since now since.

(** A proof the path socket would send on. *)
Definition fresh_proof (now : Z) (proven : option Proven) : option Proven :=
  match proven with
  | Some pv => if elapsed now (pv_at pv) <? DIRECT_FRESH then Some pv else None
  | None => None
  end.

Section drive.
Context `{M : Mac, !HashIter SocketAddr Z}.

Definition forget_probe_key (p : Paths) (s : Sess) : Paths :=
  match s_probe_key_id s with Some key_id => unregister_probe_key p key_id | None => p end.

(** The [superseded] branch. *)
Definition on_superseded (p : Paths) (s : Sess) (v : RelayView) (now : Z) : World :=
  let p := forget_probe_key p s in
  mkWorld p (transition p v now s (PFailed FrSuperseded) CSupersededBySession) None true.

(** The [closed] branch. *)
Definition on_closed (p : Paths) (s : Sess) (v : RelayView) (now : Z) (reason : CloseReason) : World :=
  let p := end_session (forget_probe_key p s) (s_peer s) (s_session_id s) in
  let s := match rp_status (s_report s) with
           | PFailed _ => s
           | _ =>
             match reason with
             | LocallyClosed | ApplicationClosed => s
             | TimedOut => transition p v now s (PFailed FrTimeout) CIdleTimeout
             | OtherClose => transition p v now s (PFailed FrRelay) CConnectionEnded
             end
           end in
  mkWorld p s None true.

(** The relay's status as this turn sees it: the event, then the driver the
    peer is reached on now. *)
Definition follow_relay (p : Paths) (s : Sess) (d : Drive) (v : RelayView) (e : option RelayEvent) : Drive :=
  let d := match e with
           | Some (EvStatus next) => dv_set_relay d (dv_driver d) next
           | Some EvLagged => dv_set_relay d (dv_driver d) (rv_status v (dv_driver d))
           | Some EvClosed | None => d
           end in
  let current := current_driver p (s_peer s) v in
  if current =? dv_driver d then d else dv_set_relay d current (rv_status v current).

(** The consumption of [probe_now] and of a due re-announcement. *)
Definition take_requests (s : Sess) (d : Drive) (now : Z) : Sess * Drive :=
  let '(s, d) :=
    match dv_reannounce_at d with
    | Some at_ =>
      if at_ <=? now
      then (s_set_probe (control_send (control_send s SendCandidates) SendPunchNow) PROBE_LOCAL,
            dv_set_net d (dv_net_alive d) None)
      else (s, d)
    | None => (s, d)
    end in
  let asked := s_probe_now s in
  let s := s_set_probe s PROBE_IDLE in
  match asked with
  | PROBE_IDLE => (s, d)
  | _ =>
    let cause := match asked with PROBE_PEER => PunchFromPeer | _ => RequestedHere end in
    (s, dv_set_last (dv_set_cause (dv_set_next d now) cause) (reprove_due now))
  end.

(** [inner.paths.send_probes] and [last_probe_sent = Instant::now()]. *)
Definition probe_round (p : Paths) (s : Sess) (d : Drive) (i : TurnIn) : Paths * Drive :=
  ((send_probes p (s_peer s) (ti_now i) (ti_probe_now i) (ti_rnd i)).1, dv_set_last d (ti_now i)).

(** The [match status] of a turn with direct paths allowed. *)
Definition drive_relayed (p : Paths) (s : Sess) (d : Drive) (v : RelayView) (i : TurnIn) : Paths * Sess * Drive :=
  let now := ti_now i in
  let candidates := peer_candidates p (s_peer s) in
  match fresh_proof now (proven_direct p (s_peer s)) with
  | Some pv => (p, transition p v now s PDirect (CPongProved (pv_addr pv)), d)
  | None =>
    if bool_decide (candidates = [])
    then if dv_announced d then (p, s, d)
         else (p, transition p v now s PRelayed CNoCandidates, dv_set_announced d)
    else if now <? dv_next_attempt d then (p, s, d)
    else
      let s := transition p v now s PProbing (CCandidates (length candidates) (dv_round_cause d)) in
      let d := dv_set_round (dv_set_cause d CooldownElapsed) (Some (now + PROBE_ROUND)) in
      let '(p, d) := probe_round p s d i in (p, s, d)
  end.

Definition drive_probing (p : Paths) (s : Sess) (d : Drive) (v : RelayView) (i : TurnIn) : Paths * Sess * Drive :=
  let now := ti_now i in
  match fresh_proof now (proven_direct p (s_peer s)) with
  | Some pv => (p, transition p v now s PDirect (CPongProved (pv_addr pv)), dv_set_round d None)
  | None =>
    let '(p, d) := if millis 500 <=? elapsed now (dv_last_probe d) then probe_round p s d i else (p, d) in
    match dv_round_ends d with
    | Some ends =>
      if ends <=? now
      then (p, transition p v now s PRelayed CDirectFailed,
            dv_set_next (dv_set_round d None) (now + PROBE_COOLDOWN))
      else (p, s, d)
    | None => (p, s, d)
    end
  end.

Definition drive_direct (p : Paths) (s : Sess) (d : Drive) (v : RelayView) (i : TurnIn) : Paths * Sess * Drive :=
  let now := ti_now i in
  match fresh_proof now (proven_direct p (s_peer s)) with
  | Some _ =>
    let '(p, d) := if REPROVE_INTERVAL <=? elapsed now (dv_last_probe d) then probe_round p s d i else (p, d) in
    (p, s, d)
  | None =>
    let p := drop_direct p (s_peer s) (s_session_id s) in
    (p, transition p v now s PRelayed CDirectLost, dv_set_next d (now + PROBE_COOLDOWN))
  end.

Definition drive_paths (p : Paths) (s : Sess) (d : Drive) (v : RelayView) (i : TurnIn) : World :=
  let now := ti_now i in
  if negb (s_allow_direct s)
  then
    if bool_decide (rp_status (s_report s) = PRelayed) && negb (dv_announced d)
    then mkWorld p (transition p v now s PRelayed CDeclined) (Some (dv_set_announced d)) false
    else mkWorld p s (Some d) false
  else
    let status := rp_status (s_report s) in
    let '(s, d) := take_requests s d now in
    let '(p, s, d) := match status with
                      | PRelayed => drive_relayed p s d v i
                      | PProbing => drive_probing p s d v i
                      | PDirect => drive_direct p s d v i
                      | _ => (p, s, d)
                      end in
    mkWorld p s (Some d) false.

(** The rest of a turn once the relay's status is known. *)
Definition drive_relay (p : Paths) (s : Sess) (d : Drive) (v : RelayView) (i : TurnIn) : World :=
  let now := ti_now i in
  let status := rp_status (s_report s) in
  match status with
  | PFailed _ => mkWorld p s None false
  | _ =>
    match dv_relay_state d with
    | Superseded => mkWorld p (transition p v now s (PFailed FrSuperseded) CRelaySlotTaken) None false
    | Failed => mkWorld p (transition p v now s (PFailed FrRelay) CNoRelay) None false
    | Reconnecting | Connecting =>
      if bool_decide (status = PReconnecting) then mkWorld p s (Some d) false
      else mkWorld p (transition p v now s PReconnecting CRelayLost)
             (Some (dv_set_reconnect d status (Some now))) false
    | Up _ =>
      if bool_decide (status = PReconnecting)
      then
        let waited := default 0 ((λ t, elapsed now t / 1000000) <$> dv_reconnect_since d) in
        drive_paths p (transition p v now s (dv_previous d) (CNewWelcome waited))
          (dv_set_reconnect d (dv_previous d) None) v i
      else drive_paths p s d v i
    end
  end.

(** One turn of the loop. *)
Definition drive_turn (w : World) (wake : Wake) (v : RelayView) (i : TurnIn) : World :=
  match w_drive w with
  | None => w
  | Some d =>
    let p := w_paths w in
    let s := w_sess w in
    match wake with
    | WSuperseded => on_superseded p s v (ti_now i)
    | WClosed reason => on_closed p s v (ti_now i) reason
    | WRelay e => drive_relay p s (follow_relay p s d v (Some e)) v i
    | WNet true nonce =>
      if negb (dv_net_alive d) then w
      else
        let p := requery_reflector p nonce in
        let d := dv_set_net d true (Some (ti_now i + REFLECTOR_GRACE)) in
        drive_relay p s (follow_relay p s d v None) v i
    | WNet false _ =>
      if negb (dv_net_alive d) then w
      else drive_relay p s (follow_relay p s (dv_set_net d false (dv_reannounce_at d)) v None) v i
    | WTick => drive_relay p s (follow_relay p s d v None) v i
    end
  end.

End drive.

(** ** Histories of a session *)

Inductive SEvent : Type :=
  | STurn (wake : Wake) (v : RelayView) (i : TurnIn)
  | SPaths (op : POp)
  | SRequestDirect
  | SReannounce
  | SControl (c : Control)
  | SWriter.

Section histories.
Context `{C : Crypto, M : Mac, !HashIter SocketAddr Z}.

(** [SPaths] is any operation of the path socket by another task, [SWriter] the
    control writer taking its next request. *)
Definition s_step (w : World) (e : SEvent) : World :=
  match e with
  | STurn wake v i => drive_turn w wake v i
  | SPaths op => mkWorld (p_step (w_paths w) op) (w_sess w) (w_drive w) (w_closed w)
  | SRequestDirect => mkWorld (w_paths w) (request_direct (w_sess w)) (w_drive w) (w_closed w)
  | SReannounce => mkWorld (w_paths w) (reannounce (w_sess w)) (w_drive w) (w_closed w)
  | SControl c => let '(p, s) := on_control (w_paths w) (w_sess w) c in mkWorld p s (w_drive w) (w_closed w)
  | SWriter => mkWorld (w_paths w) (s_set_control (w_sess w) (drop 1 (s_control (w_sess w)))) (w_drive w) (w_closed w)
  end.

(** Everything a session is started with. *)
Record SStart : Type := mkSStart {
  st_paths : Paths;
  st_view : RelayView;
  st_now : Z;
  st_peer : NodeId;
  st_allow_direct : bool;
  st_session : Z;
  st_material : option (array 32 * array 8);
  st_probe_delay : Z;
}.

Definition s_start (a : SStart) : World :=
  let '(p, s) := session_start (st_paths a) (st_view a) (st_now a) (st_now a) (st_peer a) (st_allow_direct a)
                   (st_session a) (st_material a) in
  drive_start p s (st_view a) (st_now a) (st_probe_delay a).

Definition s_run (a : SStart) (es : list SEvent) : World := foldl s_step (s_start a) es.

Lemma s_run_ind (P : World → Prop) a :
  P (s_start a) → (∀ w e, P w → P (s_step w e)) → ∀ es, P (s_run a es).
Proof.
  intros H0 Hs es. induction es as [|e es IH] using rev_ind; [done|].
  unfold s_run in *. rewrite foldl_snoc. auto.
Qed.

(** ** The transition record *)

(** A session that goes on: every status after the handshake but [Failed]. *)
Definition is_live (st : PathStatus) : bool :=
  match st with PRelayed | PProbing | PDirect | PReconnecting => true | _ => false end.

(** The moves of the diagram of spec 4.3 after [connect()], with their causes, and of
    the findings under it ([Relayed] to [Direct], the idle timeout). *)
Definition spec_move (a b : PathStatus) (c : Cause) : bool :=
  match a, b, c with
  | PRendezvous, PRelayed, CHandshakeOk => true
  | PRelayed, PProbing, CCandidates n _ => (0 <? n)%nat
  | (PRelayed | PProbing), PDirect, CPongProved _ => true
  | PProbing, PRelayed, CDirectFailed => true
  | PDirect, PRelayed, CDirectLost => true
  | (PRelayed | PDirect), PReconnecting, CRelayLost => true
  | PReconnecting, (PRelayed | PDirect), CNewWelcome _ => true
  | PReconnecting, PFailed FrRelay, CNoRelay => true
  | a, PFailed FrSuperseded, CSupersededBySession => is_live a
  | a, PFailed FrTimeout, CIdleTimeout => is_live a
  | _, _, _ => false
  end.

(** The moves of [drive] that the diagram does not have: a relay lost and found in the
    middle of a round of probes, a relay that is given up under a session that was not
    reconnecting (it followed its peer to a driver that had failed), the takeover of the
    node's slot at its relay, and a connection that ends for any other reason. *)
Definition extra_move (a b : PathStatus) (c : Cause) : bool :=
  match a, b, c with
  | PProbing, PReconnecting, CRelayLost => true
  | PReconnecting, PProbing, CNewWelcome _ => true
  | (PRelayed | PProbing | PDirect), PFailed FrRelay, CNoRelay => true
  | a, PFailed FrSuperseded, CRelaySlotTaken => is_live a
  | a, PFailed FrRelay, CConnectionEnded => is_live a
  | _, _, _ => false
  end.

Definition a_move (a b : PathStatus) (c : Cause) : bool := spec_move a b c || extra_move a b c.

(** What a status may be with direct paths declined. *)
Definition permitted (allow_direct : bool) (s : PathStatus) : Prop :=
  allow_direct = false → s ≠ PProbing ∧ s ≠ PDirect.

(** Causes that stand for a transition. *)
Definition moving (c : Cause) : Prop := c ≠ CDeclined ∧ c ≠ CNoCandidates.

Record record_ok (s : Sess) : Prop := {
  ro_bound : (length (s_history s) ≤ HISTORY_CAP)%nat;
  ro_start : ∃ a b l, s_history s = a :: b :: l ∧ rp_status a = PRendezvous ∧ rp_status b = PRelayed;
  ro_moves i a b : s_history s !! i = Some a → s_history s !! S i = Some b →
    a_move (rp_status a) (rp_status b) (rp_cause b) = true;
  ro_back i a b c : s_history s !! i = Some a → s_history s !! S i = Some b → s_history s !! S (S i) = Some c →
    rp_status b = PReconnecting → rp_status c = rp_status a ∨ ∃ r, rp_status c = PFailed r;
  ro_last : (length (s_history s) < HISTORY_CAP)%nat →
    rp_status <$> last (s_history s) = Some (rp_status (s_report s));
  ro_permitted : Forall (λ r, permitted (s_allow_direct s) (rp_status r)) (s_report s :: s_history s);
  ro_causes : Forall (λ r, moving (rp_cause r)) (s_report s :: s_history s);
  ro_queue : (length (s_control s) ≤ CONTROL_QUEUE)%nat;
}.

Lemma transition_status p v now s st c : rp_status (s_report (transition p v now s st c)) = st.
Proof. unfold transition. by destruct (bool_decide_reflect (rp_status (s_report s) = st)). Qed.

Lemma transition_fields p v now s st c :
  let s' := transition p v now s st c in
  s_peer s' = s_peer s ∧ s_allow_direct s' = s_allow_direct s ∧ s_probe_key_id s' = s_probe_key_id s ∧
  s_session_id s' = s_session_id s ∧ s_control s' = s_control s.
Proof. unfold transition. by case_bool_decide. Qed.

(** The status before the last one, while the record is not full. *)
Definition came_from (s : Sess) (st : PathStatus) : Prop :=
  (length (s_history s) < HISTORY_CAP)%nat →
  ∃ k a, length (s_history s) = S (S k) ∧ s_history s !! k = Some a ∧ rp_status a = st.

(** A move that keeps to where the session was before it lost its relay. *)
Definition good_move (s : Sess) (st : PathStatus) (c : Cause) : Prop :=
  a_move (rp_status (s_report s)) st c = true ∧
  (rp_status (s_report s) = PReconnecting → came_from s st ∨ ∃ r, st = PFailed r).

(** A cause that stands for a move. *)
Lemma move_moving a b c : a_move a b c = true → moving c.
Proof. intros H. split; intros ->; revert H; by destruct a, b as [| | | | | |[]]. Qed.

Lemma last_status (l : list PathReport) st i a :
  rp_status <$> last l = Some st → length l = S i → l !! i = Some a → rp_status a = st.
Proof. rewrite last_lookup. intros Hl E Ha. rewrite E in Hl. cbn in Hl. rewrite Ha in Hl. by injection Hl. Qed.

(** A move, or a refresh, keeps the record in order. *)
Lemma transition_ok p v now s st c :
  record_ok s → (rp_status (s_report s) = st ∨ good_move s st c) →
  permitted (s_allow_direct s) st → record_ok (transition p v now s st c).
Proof.
  intros [] He Hp. unfold transition. apply Forall_cons_1 in ro_permitted0 as [Hp1 Hp2].
  apply Forall_cons_1 in ro_causes0 as [Hc1 Hc2].
  destruct (bool_decide_reflect (rp_status (s_report s) = st)) as [D|D].
  { split; cbn; auto; constructor; auto. }
  destruct He as [|[He Hback]]; [done|]. pose proof (move_moving _ _ _ He) as Hm.
  destruct (Nat.ltb_spec (length (s_history s)) HISTORY_CAP) as [Hl|Hl]; split; cbn; auto; try lia;
    try (by constructor).
  - rewrite length_app. cbn. lia.
  - destruct ro_start0 as (a & b & l & -> & ? & ?). by eexists _, _, _.
  - intros i a b Ha [[Hi Hb]|[Hi <-]]%lookup_snoc_Some; [rewrite lookup_app_l in Ha by lia; eauto|].
    rewrite lookup_app_l in Ha by lia. by rewrite (last_status _ _ _ _ (ro_last0 Hl) (eq_sym Hi) Ha).
  - intros i a b d Ha Hb [[Hi Hd]|[Hi <-]]%lookup_snoc_Some Hs; rewrite lookup_app_l in Ha, Hb by lia; [eauto|].
    rewrite (last_status _ _ _ _ (ro_last0 Hl) (eq_sym Hi) Hb) in Hs.
    destruct (Hback Hs) as [Hf|Hf]; [|by right]. destruct (Hf Hl) as (k & a' & Hk & Ha' & <-). left.
    assert (k = i) as -> by lia. cbn. congruence.
  - intros _. by rewrite last_snoc.
  - constructor; [done|]. apply Forall_app. split; [done|]. by apply Forall_singleton.
  - constructor; [done|]. apply Forall_app. split; [done|]. by apply Forall_singleton.
Qed.

Lemma control_send_ok s c : record_ok s → record_ok (control_send s c).
Proof.
  intros H. unfold control_send. destruct (Nat.ltb_spec (length (s_control s)) CONTROL_QUEUE); [|done].
  destruct H. split; cbn; auto. rewrite length_app. cbn. lia.
Qed.

Lemma set_probe_ok s a : record_ok s → record_ok (s_set_probe s a).
Proof. by intros []. Qed.

(** ** The machine's invariant *)

Definition is_moving (st : PathStatus) : Prop := st = PRelayed ∨ st = PProbing ∨ st = PDirect.

Record alive_ok (s : Sess) (d : Drive) : Prop := {
  ao_status : is_moving (rp_status (s_report s)) ∨ rp_status (s_report s) = PReconnecting;
  ao_previous : is_moving (dv_previous d) ∧ permitted (s_allow_direct s) (dv_previous d);
  ao_round : rp_status (s_report s) = PProbing ∨
             rp_status (s_report s) = PReconnecting ∧ dv_previous d = PProbing → is_Some (dv_round_ends d);
  ao_back : rp_status (s_report s) = PReconnecting → came_from s (dv_previous d);
}.

Definition world_ok (w : World) : Prop :=
  record_ok (w_sess w) ∧ ∀ d, w_drive w = Some d → alive_ok (w_sess w) d.

Lemma permitted_relayed b : permitted b PRelayed.
Proof. done. Qed.
Lemma permitted_reconnecting b : permitted b PReconnecting.
Proof. done. Qed.
Lemma permitted_failed b r : permitted b (PFailed r).
Proof. done. Qed.
Lemma permitted_allowed b st : b = true → permitted b st.
Proof. by intros ->. Qed.

(** From a status that is not [Reconnecting] any move of the two tables is good. *)
Lemma moving_move s st c :
  is_moving (rp_status (s_report s)) → a_move (rp_status (s_report s)) st c = true → good_move s st c.
Proof. intros Hm H. split; [done|]. intros E. rewrite E in Hm. by destruct Hm as [|[|]]. Qed.

Ltac moves Hs := apply moving_move; rewrite Hs; [unfold is_moving; tauto|done].

(** What a session came from when its relay was lost. *)
Lemma came_from_push p v now s c :
  record_ok s → rp_status (s_report s) ≠ PReconnecting → came_from (transition p v now s PReconnecting c) (rp_status (s_report s)).
Proof.
  intros H Hn. unfold came_from, transition. rewrite bool_decide_false by done. cbn [s_set_report s_history].
  destruct (Nat.ltb_spec (length (s_history s)) HISTORY_CAP) as [Hl|Hl]; [|lia]. intros _.
  pose proof (ro_last _ H Hl) as Hlast. destruct (ro_start _ H) as (x & y & l & E & _).
  destruct (s_history s) as [|z h] eqn:Eh using rev_ind; [done|]. rewrite last_snoc in Hlast. injection Hlast as Hz.
  exists (length h), z. rewrite !length_app. cbn. split; [lia|]. split; [|done].
  rewrite lookup_app_l by (rewrite length_app; cbn; lia). by rewrite list_lookup_middle.
Qed.

(** A session that failed: the record stays in order and the machine has returned. *)
Lemma fail_ok p v now s r c w_p closed :
  record_ok s → a_move (rp_status (s_report s)) (PFailed r) c = true →
  world_ok (mkWorld w_p (transition p v now s (PFailed r) c) None closed).
Proof.
  intros H Hm. split; [|done]. cbn. apply transition_ok; [done| |done].
  right. split; [done|]. right. by eexists.
Qed.

(** The outcome of a turn of one status: the next one, reached along an edge. *)
Lemma move_ok p v now s d st c :
  record_ok s → is_moving (dv_previous d) ∧ permitted (s_allow_direct s) (dv_previous d) →
  rp_status (s_report s) = st ∨ good_move s st c →
  is_moving st → permitted (s_allow_direct s) st → (st = PProbing → is_Some (dv_round_ends d)) →
  record_ok (transition p v now s st c) ∧ alive_ok (transition p v now s st c) d.
Proof.
  intros H Hprev He Hm Hp Hr. split; [by apply transition_ok|].
  destruct (transition_fields p v now s st c) as (_ & Ha & _).
  split; rewrite ?transition_status; [by left|by rewrite Ha| |].
  - intros [?|[-> _]]; [auto|]. by destruct Hm as [|[|]].
  - intros ->. by destruct Hm as [|[|]].
Qed.

Lemma keep_ok s s' d :
  s_report s' = s_report s → s_history s' = s_history s → s_allow_direct s' = s_allow_direct s → alive_ok s d → alive_ok s' d.
Proof. intros Hr Hh Ha []. unfold came_from in *. split; unfold came_from; by rewrite ?Hr, ?Hh, ?Ha. Qed.

Lemma alive_drive s d d' :
  alive_ok s d → dv_previous d' = dv_previous d →
  (rp_status (s_report s) = PProbing ∨ rp_status (s_report s) = PReconnecting → dv_round_ends d' = dv_round_ends d) →
  alive_ok s d'.
Proof.
  intros [] Hp Hr. split; rewrite ?Hp; auto. intros Hc. rewrite Hr by naive_solver. auto.
Qed.

Lemma take_requests_ok s d now :
  record_ok s → alive_ok s d →
  let '(s', d') := take_requests s d now in
  record_ok s' ∧ alive_ok s' d' ∧ s_report s' = s_report s ∧ s_allow_direct s' = s_allow_direct s ∧
  s_peer s' = s_peer s ∧ s_session_id s' = s_session_id s ∧ dv_round_ends d' = dv_round_ends d.
Proof.
  intros H Ha. unfold take_requests.
  assert (Hcs : ∀ s c, s_report (control_send s c) = s_report s ∧ s_allow_direct (control_send s c) = s_allow_direct s ∧
    s_peer (control_send s c) = s_peer s ∧ s_session_id (control_send s c) = s_session_id s).
  { intros s1 c. unfold control_send. by destruct (_ <? _)%nat. }
  assert (Hch : ∀ s c, s_history (control_send s c) = s_history s) by (intros s1 c; unfold control_send; by destruct (_ <? _)%nat).
  set (sd := match dv_reannounce_at d with Some _ => _ | None => _ end).
  assert (Hsd : record_ok sd.1 ∧ s_report sd.1 = s_report s ∧ s_allow_direct sd.1 = s_allow_direct s ∧
    s_peer sd.1 = s_peer s ∧ s_session_id sd.1 = s_session_id s ∧ s_history sd.1 = s_history s ∧
    dv_previous sd.2 = dv_previous d ∧ dv_round_ends sd.2 = dv_round_ends d).
  { subst sd. destruct (dv_reannounce_at d) as [t|]; [|done]. destruct (t <=? now); [|done].
    cbn [fst snd]. split; [by apply set_probe_ok, control_send_ok, control_send_ok|].
    set (s1 := control_send s SendCandidates). destruct (Hcs s SendCandidates) as (E1 & E2 & E3 & E4).
    destruct (Hcs s1 SendPunchNow) as (F1 & F2 & F3 & F4). cbn. fold s1 in E1, E2, E3, E4.
    rewrite F1, F2, F3, F4, Hch. subst s1. by rewrite Hch. }
  destruct sd as [s1 d1]. cbn in Hsd. destruct Hsd as (H1 & Hr & Hal & Hpe & Hse & Hh & Hpr & Hro).
  assert (A1 : alive_ok (s_set_probe s1 PROBE_IDLE) d1).
  { eapply keep_ok; [exact Hr|exact Hh|exact Hal|]. eapply alive_drive; [exact Ha|done|done]. }
  destruct (s_probe_now s1); cbn; (split; [by apply set_probe_ok|]); split_and!; auto;
    (eapply alive_drive; [exact A1|done|done]).
Qed.

(** A round of probes does not touch the session or the proof. *)
Lemma ping_all_direct peer targets rnd :
  ∀ p n sent, proven_direct (ping_all p peer targets rnd n sent).1 peer = proven_direct p peer.
Proof.
  induction targets as [|a targets IH]; intros p n sent; cbn [ping_all]; [done|].
  destruct (send_ping p peer a (rnd n)) as [p' ok] eqn:E. rewrite IH. revert E.
  unfold send_ping. destruct (p_udp p) eqn:Eu; cbn [negb]; [|by intros [= <- <-]].
  destruct (pr_probe_key _) as [[k key]|]; intros [= <- <-]; unfold proven_direct, is_relay_only; cbn;
    rewrite Eu; cbn; rewrite lookup_insert_eq; cbn; by destruct (in_peers (p_inner p) !! peer).
Qed.

Lemma send_probes_direct p peer now now2 rnd :
  proven_direct (send_probes p peer now now2 rnd).1 peer = proven_direct p peer.
Proof.
  unfold send_probes. rewrite ping_all_direct. unfold prune_learned, with_peer, proven_direct, is_relay_only. cbn.
  rewrite lookup_insert_eq. cbn. rewrite lookup_insert_eq.
  destruct (negb (p_udp p)); [done|]. by destruct (in_peers (p_inner p) !! peer).
Qed.

(** ** Turns *)

(** What a turn with direct paths allowed leaves: the record in order, the
    machine alive, and a direct report only over a fresh proof. *)
Definition direct_backed (s : Sess) (p : Paths) (now : Z) : Prop :=
  rp_status (s_report s) = PDirect → is_Some (fresh_proof now (proven_direct p (s_peer s))).

Definition turn_done (r : Paths * Sess * Drive) (now : Z) : Prop :=
  record_ok r.1.2 ∧ alive_ok r.1.2 r.2 ∧ direct_backed r.1.2 r.1.1 now.

Lemma move_done p v now s d st c p' :
  record_ok s → alive_ok s d →
  rp_status (s_report s) = st ∨ good_move s st c →
  is_moving st → permitted (s_allow_direct s) st → (st = PProbing → is_Some (dv_round_ends d)) →
  (st = PDirect → is_Some (fresh_proof now (proven_direct p' (s_peer s)))) →
  turn_done (p', transition p v now s st c, d) now.
Proof.
  intros H Ha He Hm Hp Hr Hd. destruct (move_ok p v now s d st c) as [H1 H2]; auto; [apply Ha|].
  split; [done|]. split; [done|]. unfold direct_backed. cbn. rewrite transition_status.
  destruct (transition_fields p v now s st c) as (-> & _). done.
Qed.

Lemma stay_done p s d now :
  record_ok s → alive_ok s d → rp_status (s_report s) ≠ PDirect → turn_done (p, s, d) now.
Proof. intros H Ha Hs. split; [done|]. split; [done|]. by intros E. Qed.

Lemma drive_relayed_ok p s d v i :
  record_ok s → alive_ok s d → rp_status (s_report s) = PRelayed → s_allow_direct s = true →
  turn_done (drive_relayed p s d v i) (ti_now i).
Proof.
  intros H Ha Hs Hal. unfold drive_relayed.
  destruct (fresh_proof (ti_now i) (proven_direct p (s_peer s))) as [pv|] eqn:Ef.
  { apply move_done; [done|done| |by right; right|by apply permitted_allowed|done|by rewrite Ef].
    right; moves Hs. }
  case_bool_decide.
  { destruct (dv_announced d); [apply stay_done; auto; by rewrite Hs|].
    apply move_done; [done|by eapply alive_drive|by left|by left|done|done|done]. }
  destruct (ti_now i <? dv_next_attempt d); [apply stay_done; auto; by rewrite Hs|].
  unfold probe_round. cbn beta iota zeta. 
  apply move_done; [done| | |by right; left|by apply permitted_allowed| |done].
  - eapply alive_drive; [exact Ha|done|]. rewrite Hs. by intros [|].
  - right. apply moving_move; rewrite Hs; [by left|]. unfold a_move. cbn [spec_move extra_move]. rewrite orb_false_r.
    apply Nat.ltb_lt. destruct (peer_candidates p (s_peer s)); [done|cbn; lia].
  - by eexists.
Qed.

Lemma drive_probing_ok p s d v i :
  record_ok s → alive_ok s d → rp_status (s_report s) = PProbing → s_allow_direct s = true →
  turn_done (drive_probing p s d v i) (ti_now i) ∧
  (∀ e, dv_round_ends d = Some e → e <= ti_now i → rp_status (s_report (drive_probing p s d v i).1.2) ≠ PProbing).
Proof.
  intros H Ha Hs Hal. unfold drive_probing.
  destruct (fresh_proof (ti_now i) (proven_direct p (s_peer s))) as [pv|] eqn:Ef.
  { split; [|intros; cbn; by rewrite transition_status].
    destruct (move_ok p v (ti_now i) s (dv_set_round d None) PDirect (CPongProved (pv_addr pv))) as [H1 H2];
      [done|apply Ha|right; moves Hs|by right; right|by apply permitted_allowed|done|].
    split; [done|]. split; [done|]. unfold direct_backed. cbn. rewrite transition_status.
    destruct (transition_fields p v (ti_now i) s PDirect (CPongProved (pv_addr pv))) as (-> & _). by rewrite Ef. }
  set (pd := if millis 500 <=? _ then _ else _).
  assert (Hpd : dv_previous pd.2 = dv_previous d ∧ dv_round_ends pd.2 = dv_round_ends d)
    by (subst pd; by destruct (millis 500 <=? _)).
  destruct pd as [p1 d1]. cbn in Hpd. destruct Hpd as [Hpr Hro]. rewrite Hro.
  assert (A1 : alive_ok s d1) by (eapply alive_drive; [exact Ha|done|done]).
  destruct (dv_round_ends d) as [e|] eqn:Ee; [|split; [apply stay_done; auto; by rewrite Hs|done]].
  destruct (Z.leb_spec e (ti_now i)).
  - split; [|intros; cbn; by rewrite transition_status].
    destruct (move_ok p1 v (ti_now i) s (dv_set_next (dv_set_round d1 None) (ti_now i + PROBE_COOLDOWN))
      PRelayed CDirectFailed) as [H1 H2]; [done|apply A1|right; moves Hs|by left|done|done|].
    split; [done|]. split; [done|]. unfold direct_backed. cbn. by rewrite transition_status.
  - split; [apply stay_done; auto; by rewrite Hs|]. intros e' [= <-]. lia.
Qed.

Lemma drive_direct_ok p s d v i :
  record_ok s → alive_ok s d → rp_status (s_report s) = PDirect → s_allow_direct s = true →
  turn_done (drive_direct p s d v i) (ti_now i).
Proof.
  intros H Ha Hs Hal. unfold drive_direct.
  destruct (fresh_proof (ti_now i) (proven_direct p (s_peer s))) as [pv|] eqn:Ef.
  - set (pd := if REPROVE_INTERVAL <=? _ then _ else _).
    assert (Hpd : dv_previous pd.2 = dv_previous d ∧ proven_direct pd.1 (s_peer s) = proven_direct p (s_peer s)).
    { subst pd. destruct (REPROVE_INTERVAL <=? _); [|done]. split; [done|]. apply send_probes_direct. }
    destruct pd as [p1 d1]. cbn in Hpd. destruct Hpd as [Hpr Hpv].
    split; [done|]. split; [apply (alive_drive _ d); [done|done|cbn; rewrite Hs; by intros [|]]|].
    intros _. cbn. by rewrite Hpv, Ef.
  - apply move_done; [done| |right; moves Hs|by left|done|done|done].
    eapply alive_drive; [exact Ha|done|rewrite Hs; by intros [|]].
Qed.

Definition turn_world (w : World) (now : Z) : Prop :=
  world_ok w ∧ (is_Some (w_drive w) → direct_backed (w_sess w) (w_paths w) now).

Lemma turn_done_world p s d now : turn_done (p, s, d) now → turn_world (mkWorld p s (Some d) false) now.
Proof. intros (H & Ha & Hd). split; [|done]. split; [done|]. by intros d' [= <-]. Qed.

Lemma status_permitted s : record_ok s → permitted (s_allow_direct s) (rp_status (s_report s)).
Proof. intros H. pose proof (ro_permitted _ H) as P. by apply Forall_cons_1 in P as [? _]. Qed.

Lemma drive_paths_ok p s d v i :
  record_ok s → alive_ok s d → turn_world (drive_paths p s d v i) (ti_now i).
Proof.
  intros H Ha. pose proof (status_permitted _ H) as Hp. unfold drive_paths.
  destruct (s_allow_direct s) eqn:Eal; cbn [negb].
  - pose proof (take_requests_ok s d (ti_now i) H Ha) as T.
    destruct (take_requests s d (ti_now i)) as [s1 d1].
    destruct T as (H1 & A1 & Hr & Hal & _). rewrite Eal in Hal.
    destruct (rp_status (s_report s)) eqn:Es; rewrite <- Hr in Es;
      try (apply turn_done_world, stay_done; [done|done|by rewrite Es]).
    + pose proof (drive_relayed_ok p s1 d1 v i H1 A1 Es Hal) as T.
      destruct (drive_relayed p s1 d1 v i) as [[p2 s2] d2]. by apply turn_done_world.
    + pose proof (drive_probing_ok p s1 d1 v i H1 A1 Es Hal) as [T _].
      destruct (drive_probing p s1 d1 v i) as [[p2 s2] d2]. by apply turn_done_world.
    + pose proof (drive_direct_ok p s1 d1 v i H1 A1 Es Hal) as T.
      destruct (drive_direct p s1 d1 v i) as [[p2 s2] d2]. by apply turn_done_world.
  - destruct (Hp eq_refl) as [Hnp Hnd].
    destruct (_ && _) eqn:E; [|apply turn_done_world, stay_done; auto].
    apply andb_prop in E as [E _]. apply bool_decide_eq_true_1 in E.
    apply turn_done_world, move_done; [done| |by left|by left|done|done|done].
    by eapply alive_drive.
Qed.

Lemma drive_relay_ok p s d v i :
  record_ok s → alive_ok s d → turn_world (drive_relay p s d v i) (ti_now i).
Proof.
  intros H Ha. unfold drive_relay. set (st := rp_status (s_report s)).
  assert (Hst : is_moving st ∨ st = PReconnecting) by apply Ha.
  assert (Hfail : ∀ r c, a_move st (PFailed r) c = true →
    turn_world (mkWorld p (transition p v (ti_now i) s (PFailed r) c) None false) (ti_now i)).
  { intros r c Hc. split; [by apply fail_ok|]. by intros []. }
  assert (Hrec : turn_world (if bool_decide (st = PReconnecting) then mkWorld p s (Some d) false
    else mkWorld p (transition p v (ti_now i) s PReconnecting CRelayLost)
           (Some (dv_set_reconnect d st (Some (ti_now i)))) false) (ti_now i)).
  { destruct (bool_decide_reflect (st = PReconnecting)) as [E|E].
    - apply turn_done_world, stay_done; [done|done|]. fold st. by rewrite E.
    - destruct Hst as [Hst|?]; [|done].
      assert (He : a_move st PReconnecting CRelayLost = true) by (by destruct Hst as [->|[->| ->]]).
      destruct (transition_fields p v (ti_now i) s PReconnecting CRelayLost) as (_ & Hal & _).
      split; [split; cbn|cbn; intros _; unfold direct_backed; by rewrite transition_status].
      + apply transition_ok; [done| |done]. right. by apply moving_move.
      + intros d' [= <-]. split; rewrite ?transition_status; [by right| | |intros _; by apply came_from_push].
        * cbn. split; [done|]. rewrite Hal. by apply status_permitted.
        * cbn. intros [?|[_ Hpr]]; [done|]. apply (ao_round _ _ Ha). by left. }
  assert (Hup : turn_world (if bool_decide (st = PReconnecting)
      then drive_paths p (transition p v (ti_now i) s (dv_previous d)
             (CNewWelcome (default 0 ((λ t, elapsed (ti_now i) t / 1000000) <$> dv_reconnect_since d))))
             (dv_set_reconnect d (dv_previous d) None) v i
      else drive_paths p s d v i) (ti_now i)).
  { destruct (bool_decide_reflect (st = PReconnecting)) as [E|E]; [|by apply drive_paths_ok].
    destruct (ao_previous _ _ Ha) as [Hpm Hpp].
    assert (He : ∀ n, a_move PReconnecting (dv_previous d) (CNewWelcome n) = true) by (intros; by destruct Hpm as [->|[->| ->]]).
    destruct (move_ok p v (ti_now i) s (dv_set_reconnect d (dv_previous d) None) (dv_previous d)
      (CNewWelcome (default 0 ((λ t, elapsed (ti_now i) t / 1000000) <$> dv_reconnect_since d)))) as [H1 H2];
      [done|done| |done|done| |by apply drive_paths_ok].
    - right. unfold good_move. fold st. rewrite E. split; [apply He|]. intros _. left. by apply (ao_back _ _ Ha).
    - intros Hpr. apply (ao_round _ _ Ha). right. done. }
  destruct st eqn:Es; try (by destruct Hst as [[|[|]]|]);
    destruct (dv_relay_state d); first [exact Hup|exact Hrec|by apply Hfail].
Qed.

Lemma follow_relay_ok p s d v e : alive_ok s d → alive_ok s (follow_relay p s d v e).
Proof.
  intros Ha. eapply alive_drive; [exact Ha| |].
  - unfold follow_relay. by repeat case_match.
  - intros _. unfold follow_relay. by repeat case_match.
Qed.

(** A branch of the [select!] that is enabled. *)
Definition enabled (w : World) (wake : Wake) : Prop :=
  match wake with
  | WNet _ _ => ∀ d, w_drive w = Some d → dv_net_alive d = true
  | _ => True
  end.

Lemma drive_turn_ok w wake v i :
  world_ok w →
  world_ok (drive_turn w wake v i) ∧
  (enabled w wake → is_Some (w_drive (drive_turn w wake v i)) →
   direct_backed (w_sess (drive_turn w wake v i)) (w_paths (drive_turn w wake v i)) (ti_now i)).
Proof.
  intros [H Ha]. unfold drive_turn. destruct (w_drive w) as [d|] eqn:Ed.
  2:{ split; [|rewrite Ed; by intros _ []]. split; [done|]. rewrite Ed. done. }
  specialize (Ha d eq_refl).
  assert (Hturn : ∀ p d', alive_ok (w_sess w) d' →
    let w' := drive_relay p (w_sess w) d' v i in
    world_ok w' ∧ (enabled w wake → is_Some (w_drive w') → direct_backed (w_sess w') (w_paths w') (ti_now i))).
  { intros p d' Ha'. destruct (drive_relay_ok p (w_sess w) d' v i H Ha') as [??]. auto. }
  assert (Hnet : ∀ b t, alive_ok (w_sess w) (dv_set_net d b t)) by (intros; by eapply alive_drive).
  destruct wake as [|reason|e|ok nonce|].
  - split; [|by intros _ []]. apply fail_ok; [done|]. by destruct (ao_status _ _ Ha) as [[->|[->| ->]]| ->].
  - split; [|by intros _ []]. split; [|done]. unfold on_closed. cbn.
    pose proof (ao_status _ _ Ha) as Hs.
    assert (Hf : ∀ p r c, a_move (rp_status (s_report (w_sess w))) (PFailed r) c = true →
      record_ok (transition p v (ti_now i) (w_sess w) (PFailed r) c)).
    { intros p r c Hm. apply transition_ok; [done| |done]. right. split; [done|]. right. by eexists. }
    destruct Hs as [[Hs|[Hs|Hs]]|Hs]; rewrite Hs in Hf |- *; destruct reason; try done; by apply Hf.
  - apply Hturn. by apply follow_relay_ok.
  - unfold enabled in *. assert (Hdis : world_ok w) by (split; [done|]; rewrite Ed; by intros ? [= <-]).
    destruct ok; (destruct (dv_net_alive d) eqn:En; cbn [negb];
      [apply Hturn; by apply follow_relay_ok|split; [done|]; intros F; rewrite (F d Ed) in En; done]).
  - apply Hturn. by apply follow_relay_ok.
Qed.

Lemma s_start_ok a : world_ok (s_start a).
Proof.
  unfold s_start, session_start, drive_start.
  set (pk := match st_material a with Some _ => _ | None => _ end). destruct pk as [p key_id].
  set (initial := mkReport PRendezvous _ _ _ _).
  set (s0 := mkSess _ _ initial _ _ _ _ _ _).
  assert (E : transition p (st_view a) (st_now a) s0 PRelayed CHandshakeOk =
    s_set_report s0 (s_report (transition p (st_view a) (st_now a) s0 PRelayed CHandshakeOk))
      [initial; s_report (transition p (st_view a) (st_now a) s0 PRelayed CHandshakeOk)]) by done.
  rewrite E. set (r := s_report _). assert (Hr : rp_status r = PRelayed ∧ rp_cause r = CHandshakeOk) by done.
  destruct Hr as [Hr Hc]. clearbody r. split; cbn.
  - split; cbn; rewrite ?Hr; auto.
    + unfold HISTORY_CAP. lia.
    + by eexists _, _, _.
    + intros [|[|i]] x y; cbn; [|done|done]. intros [= <-] [= <-]. by rewrite Hr, Hc.
    + intros [|[|i]] x y z; cbn; done.
    + repeat constructor; by rewrite ?Hr.
    + repeat constructor; by rewrite ?Hc.
    + unfold CONTROL_QUEUE. lia.
  - intros d [= <-]. split; cbn; rewrite ?Hr; [by left; left|by split; [left|]| |done]. by intros [|[]].
Qed.

Lemma s_step_ok w e : world_ok w → world_ok (s_step w e).
Proof.
  intros Hw. destruct (Hw) as [H Ha].
  assert (Hkeep : ∀ p s, record_ok s → s_report s = s_report (w_sess w) → s_history s = s_history (w_sess w) →
    s_allow_direct s = s_allow_direct (w_sess w) → world_ok (mkWorld p s (w_drive w) (w_closed w))).
  { intros p s Hs Hr Hh Hal. split; [done|]. intros d Hd. eapply keep_ok; [done|done|done|by apply Ha]. }
  assert (Hcs : ∀ s c, s_report (control_send s c) = s_report s ∧ s_history (control_send s c) = s_history s ∧
    s_allow_direct (control_send s c) = s_allow_direct s).
  { intros s c. unfold control_send. by destruct (_ <? _)%nat. }
  destruct e as [wake v i|op| | |c|]; cbn [s_step].
  - by apply drive_turn_ok.
  - by apply Hkeep.
  - unfold request_direct. set (s := s_set_probe _ _). destruct (Hcs s SendPunchNow) as (? & ? & ?).
    apply Hkeep; [by apply control_send_ok, set_probe_ok|done..].
  - unfold reannounce, request_direct. set (s1 := control_send _ SendCandidates). set (s := s_set_probe s1 _).
    destruct (Hcs s SendPunchNow) as (E1 & E2 & E3). destruct (Hcs (w_sess w) SendCandidates) as (F1 & F2 & F3).
    apply Hkeep; [by apply control_send_ok, set_probe_ok, control_send_ok|rewrite E1; exact F1|rewrite E2; exact F2|rewrite E3; exact F3].
  - destruct c; cbn; apply Hkeep; try done. by destruct H.
  - apply Hkeep; try done. destruct H. split; cbn; auto. rewrite length_drop. lia.
Qed.

Lemma s_run_ok a es : world_ok (s_run a es).
Proof. apply s_run_ind; [apply s_start_ok|]. intros. by apply s_step_ok. Qed.

Lemma s_allow a es : s_allow_direct (w_sess (s_run a es)) = st_allow_direct a.
Proof.
  apply (s_run_ind (λ w, s_allow_direct (w_sess w) = st_allow_direct a)).
  { unfold s_start, session_start, drive_start. destruct (match st_material a with Some _ => _ | None => _ end).
    cbn [w_sess]. unfold transition. by case_bool_decide. }
  intros w e Hw. rewrite <- Hw. destruct e as [wake v i|op| | |c|]; cbn [s_step]; try done.
  - assert (Ht : ∀ p s st c, s_allow_direct (transition p v (ti_now i) s st c) = s_allow_direct s).
    { intros. unfold transition. by case_bool_decide. }
    assert (Hcs : ∀ s c, s_allow_direct (control_send s c) = s_allow_direct s).
    { intros s c. unfold control_send. by destruct (_ <? _)%nat. }
    assert (Htr : ∀ s d, s_allow_direct (take_requests s d (ti_now i)).1 = s_allow_direct s).
    { intros s d. unfold take_requests. repeat case_match; simplify_eq; cbn; rewrite ?Hcs; done. }
    assert (Hp : ∀ p s d, s_allow_direct (w_sess (drive_paths p s d v i)) = s_allow_direct s).
    { intros p s d. unfold drive_paths. specialize (Htr s d).
      destruct (take_requests s d (ti_now i)) as [s1 d1]. cbn in Htr.
      unfold drive_relayed, drive_probing, drive_direct, probe_round.
      repeat case_match; simplify_eq; cbn; rewrite ?Ht; done. }
    unfold drive_turn, on_superseded, on_closed, drive_relay.
    repeat case_match; cbn; rewrite ?Hp, ?Ht; done.
  - unfold request_direct, control_send. by case_match.
  - unfold reannounce, request_direct, control_send. by repeat case_match.
  - by destruct c.
Qed.

(** C29: the transition record of a session, after any interleaving of turns of
    its machine, control messages, requests and operations of the path socket.
    It starts at [Rendezvous] then [Relayed].  Every later entry, together with the
    cause recorded for it, is a move of the state machine of spec 4.3 (its diagram and
    the findings under it) from the entry before it, or one of the five moves the code
    makes and the diagram does not have: [Probing] to [Reconnecting] on a lost relay and
    back on a new welcome, [Failed(relay)] for want of a relay without [Reconnecting]
    before it, [Failed(superseded)] when the node's slot at its relay is taken over, and
    [Failed(relay)] when the connection ends for a reason of its own.  What follows
    [Reconnecting] is the status before it or [Failed].  The record never exceeds 256
    entries and until then ends at the status reported; with direct paths declined
    neither the record nor the report shows [Probing] or [Direct]; a session still
    driven has not failed. *)
Theorem session_record a es :
  let w := s_run a es in
  let s := w_sess w in
  record_ok s ∧
  (st_allow_direct a = false →
     Forall (λ r, rp_status r ≠ PProbing ∧ rp_status r ≠ PDirect) (s_report s :: s_history s)) ∧
  (is_Some (w_drive w) → ∀ r, rp_status (s_report s) ≠ PFailed r).
Proof.
  pose proof (s_run_ok a es) as [H Ha]. cbn zeta. split; [done|]. split.
  - intros Hal. eapply Forall_impl; [apply (ro_permitted _ H)|]. cbn. intros r Hr. apply Hr.
    by rewrite s_allow.
  - intros [d Hd] r E. destruct (ao_status _ _ (Ha d Hd)) as [Hm|Hm]; rewrite E in Hm; [|done].
    by destruct Hm as [|[|]].
Qed.

(** C35: the path report is never inferred: after any history, a turn of the
    machine (woken by an enabled branch) that leaves the session driven and
    reported [Direct] had, at its own time, a proof from the path socket younger
    than fifteen seconds for this peer. *)
Theorem direct_report_is_proved a es wake v i :
  let w := s_run a es in
  let w' := drive_turn w wake v i in
  enabled w wake → is_Some (w_drive w') → rp_status (s_report (w_sess w')) = PDirect →
  ∃ pv, proven_direct (w_paths w') (s_peer (w_sess w')) = Some pv ∧
        duration_since (ti_now i) (pv_at pv) < secs 15.
Proof.
  cbn zeta. intros He Hd Hs. destruct (drive_turn_ok _ wake v i (s_run_ok a es)) as [_ Hb].
  destruct (Hb He Hd Hs) as [pv Hpv]. unfold fresh_proof, elapsed in Hpv.
  destruct (proven_direct _ _) as [pv'|] eqn:E; [|done]. exists pv'. split; [done|].
  destruct (Z.ltb_spec (duration_since (ti_now i) (pv_at pv')) DIRECT_FRESH); [done|done].
Qed.

(** C39: a probing round ends: whenever the session is [Probing] its round has
    an end, and the first tick at or past it with the relay up leaves [Probing],
    for [Relayed] or, on a fresh proof, [Direct]. *)
Theorem probing_round_ends a es d v i url :
  let w := s_run a es in
  w_drive w = Some d → rp_status (s_report (w_sess w)) = PProbing →
  dv_relay_state (follow_relay (w_paths w) (w_sess w) d v None) = Up url →
  ∃ e, dv_round_ends d = Some e ∧
    (e <= ti_now i →
     let s' := w_sess (drive_turn w WTick v i) in
     rp_status (s_report s') = PRelayed ∨ rp_status (s_report s') = PDirect).
Proof.
  cbn zeta. intros Hd Hs Hup. pose proof (s_run_ok a es) as Hw. destruct (Hw) as [H Ha].
  destruct (ao_round _ _ (Ha d Hd)) as [e He]; [by left|]. exists e. split; [done|]. intros Hle.
  set (w := s_run a es) in *.
  pose proof (status_permitted _ H) as Hp. rewrite Hs in Hp.
  assert (Hal : s_allow_direct (w_sess w) = true).
  { destruct (s_allow_direct (w_sess w)); [done|]. by destruct (Hp eq_refl). }
  assert (A1 := follow_relay_ok (w_paths w) (w_sess w) d v None (Ha d Hd)).
  assert (Hro : dv_round_ends (follow_relay (w_paths w) (w_sess w) d v None) = Some e).
  { unfold follow_relay. by case_match. }
  unfold drive_turn. rewrite Hd. unfold drive_relay. rewrite Hs, Hup. rewrite bool_decide_false by done.
  unfold drive_paths. rewrite Hal, Hs. cbn [negb].
  pose proof (take_requests_ok (w_sess w) _ (ti_now i) H A1) as T.
  destruct (take_requests _ _ _) as [s1 d1]. destruct T as (H1 & A2 & Hr & Hal1 & _ & _ & Hro1).
  rewrite Hal in Hal1. rewrite <- Hr in Hs. rewrite Hro in Hro1.
  destruct (drive_probing_ok (w_paths w) s1 d1 v i H1 A2 Hs Hal1) as [T Hnp].
  specialize (Hnp e Hro1 Hle). destruct (drive_probing _ s1 d1 v i) as [[p2 s2] d2] eqn:Edp.
  cbn [w_sess fst snd] in *. revert Edp. unfold drive_probing.
  destruct (fresh_proof _ _); [intros [= <- <- <-]; rewrite transition_status; by right|].
  set (pd := if millis 500 <=? _ then _ else _). destruct pd as [p3 d3]. 
  destruct (dv_round_ends d3) as [e3|]; [|intros [= <- <- <-]; congruence].
  destruct (e3 <=? ti_now i); intros [= <- <- <-]; [rewrite transition_status; by left|congruence].
Qed.

(** The two causes the machine passes for a session that stays relayed, for
    an owner that declined direct paths and for a peer without candidates, are
    never recorded: a transition to the status already reported only refreshes
    the addresses, so neither the report nor the history ever carries them. *)
Theorem relayed_causes_never_recorded a es :
  let s := w_sess (s_run a es) in
  Forall (λ r, rp_cause r ≠ CDeclined ∧ rp_cause r ≠ CNoCandidates) (s_report s :: s_history s).
Proof. apply (ro_causes _ (proj1 (s_run_ok a es))). Qed.

(** The reason [drive] gives up a session for its relay, if it does. *)
Definition relay_gone (st : RelayStatus) : option FailReason :=
  match st with
  | Failed => Some FrRelay
  | Superseded => Some FrSuperseded
  | _ => None
  end.

(** C40: a session that ends for its relay leaves its probe key behind.  Whatever a
    driven session went through before, reconnecting for the sixty seconds included: when
    an event of the driver it follows, or the driver it has just moved to, says that no
    relay was found or that the node's slot was taken, the machine records the failure
    and returns without unregistering the probe key or the session's slot, and from then
    on no turn, not even the end of the connection, removes them. *)
Theorem relay_failure_keeps_probe_key a es0 d e v i reason es :
  let w := s_run a es0 in
  w_drive w = Some d →
  relay_gone (dv_relay_state (follow_relay (w_paths w) (w_sess w) d v (Some e))) = Some reason →
  Forall (λ e, ∃ wake v i, e = STurn wake v i) es →
  let w2 := foldl s_step (drive_turn w (WRelay e) v i) es in
  rp_status (s_report (w_sess w2)) = PFailed reason ∧ w_paths w2 = w_paths w.
Proof.
  cbn zeta. intros Hd Hgone Hes. destruct (s_run_ok a es0) as [_ Ha]. specialize (Ha d Hd).
  set (w := s_run a es0) in *. set (w1 := drive_turn w _ v i).
  assert (H1 : w_drive w1 = None ∧ w_paths w1 = w_paths w ∧ rp_status (s_report (w_sess w1)) = PFailed reason).
  { subst w1. unfold drive_turn. rewrite Hd. unfold drive_relay.
    destruct (dv_relay_state _); cbn in Hgone; try done; injection Hgone as <-;
      destruct (ao_status _ _ Ha) as [[->|[->| ->]]| ->]; cbn [w_drive w_paths w_sess]; by rewrite transition_status. }
  destruct H1 as (Hn & Hp & Hst).
  assert (Hsame : foldl s_step w1 es = w1).
  { clearbody w1. clear Hp Hst. induction Hes as [|e' es (wake & v' & i' & ->) _ IH]; [done|].
    cbn. unfold drive_turn at 1. rewrite Hn. exact IH. }
  by rewrite Hsame.
Qed.

End histories.

(** ** The control stream, end to end *)

(** An address as it arrives: in its IPv6 form. *)
Definition as_received (a : SocketAddr) : SocketAddr := mkSocketAddr (V6 (to_ipv6 (sa_ip a))) (sa_port a).

Definition control_wire (c : Control) : list byte :=
  match c with
  | Candidates l => candidates_message l
  | PunchNow => punch_now_message
  | Unknown => []
  end.

Definition control_received (c : Control) : Control :=
  match c with Candidates l => Candidates (as_received <$> l) | _ => c end.

(** A message the other end takes: at most 227 candidates fit its 4096 bytes. *)
Definition sendable (c : Control) : Prop :=
  match c with
  | Candidates l => (length l ≤ 227)%nat ∧ Forall (λ a, u16 (sa_port a)) l
  | PunchNow => True
  | Unknown => False
  end.

Lemma candidate_bytes_length a : length (candidate_bytes a) = 18%nat.
Proof. unfold candidate_bytes. by rewrite length_app, bytes_of_length, to_be_length. Qed.

Lemma candidates_length l : length (mbind candidate_bytes l) = (18 * length l)%nat.
Proof.
  induction l as [|a l IH]; [done|]. rewrite bind_cons, length_app, candidate_bytes_length, IH. cbn [length]. lia.
Qed.

Lemma parse_chunks_candidates l :
  Forall (λ a, u16 (sa_port a)) l →
  parse_chunks (length l) (mbind candidate_bytes l) = Ret (Some (as_received <$> l)).
Proof.
  induction 1 as [|a l Ha Hl IH]; [done|]. rewrite bind_cons. cbn [length parse_chunks].
  rewrite take_app_length', drop_app_length' by (by rewrite candidate_bytes_length).
  change (mkHint HINT_UDP (candidate_bytes a)) with (Hint_udp a).
  rewrite Hint_udp_roundtrip by done. rewrite exec_bind_Ret_l, IH. done.
Qed.

Lemma parse_candidates_message l :
  (length l ≤ 255)%nat → Forall (λ a, u16 (sa_port a)) l →
  parse_control ([CONTROL_CANDIDATES] ++ [byte_of_Z (Z.min (Z.of_nat (length l)) 255)] ++ mbind candidate_bytes l) =
  Ret (Some (Candidates (as_received <$> l))).
Proof.
  intros Hlen Hp. unfold parse_control. cbn [app]. rewrite bool_decide_true by done. unfold parse_candidates.
  rewrite candidates_length, byte_to_Z_small by lia.
  rewrite (proj2 (Z.eqb_eq _ _)) by lia. cbn [negb].
  replace (18 * length l / 18)%nat with (length l) by (rewrite Nat.mul_comm, Nat.div_mul; lia).
  by rewrite parse_chunks_candidates.
Qed.

(** One framed message at the head of the input. *)
Lemma read_control_message fuel body rest c :
  (0 < length body)%nat → Z.of_nat (length body) <= CONTROL_MAX_BYTES → parse_control body = Ret (Some c) →
  read_control (S fuel) (to_be 4 (Z.of_nat (length body)) ++ body ++ rest) =
  (more ← read_control fuel rest; Ret (c :: more.1, more.2)).
Proof.
  intros H0 Hmax Hp. unfold CONTROL_MAX_BYTES in Hmax. cbn [read_control].
  rewrite length_app, to_be_length. cbn [Nat.add Nat.ltb Nat.leb].
  rewrite take_app_length', drop_app_length' by (by rewrite to_be_length).
  rewrite from_to_be_32 by (unfold u32; lia). unfold CONTROL_MAX_BYTES.
  rewrite (proj2 (Z.eqb_neq _ _)), (proj2 (Z.ltb_ge _ _)) by lia. cbn [orb].
  rewrite length_app, (proj2 (Z.ltb_ge _ _)) by lia.
  rewrite Nat2Z.id, take_app_length, drop_app_length, Hp. done.
Qed.

(** A length the reader does not take. *)
Lemma read_control_too_long fuel len rest :
  CONTROL_MAX_BYTES < len < 2 ^ 32 → read_control (S fuel) (to_be 4 len ++ rest) = Ret ([], false).
Proof.
  unfold CONTROL_MAX_BYTES. intros H. cbn [read_control].
  rewrite length_app, to_be_length. cbn [Nat.add Nat.ltb Nat.leb].
  rewrite take_app_length' by (by rewrite to_be_length).
  rewrite from_to_be_32 by (unfold u32; lia). unfold CONTROL_MAX_BYTES.
  by rewrite (proj2 (Z.eqb_neq _ _)), (proj2 (Z.ltb_lt _ _)) by lia.
Qed.

Lemma candidates_message_frame l :
  ∃ len rest, candidates_message l = to_be 4 len ++ rest ∧ len = 2 + 18 * Z.of_nat (min 255 (length l)).
Proof.
  unfold candidates_message. eexists _, _. split; [reflexivity|].
  rewrite !length_app, candidates_length, length_take. cbn [length]. lia.
Qed.

Lemma control_wire_read fuel c rest :
  sendable c →
  read_control (S fuel) (control_wire c ++ rest) =
  (more ← read_control fuel rest; Ret (control_received c :: more.1, more.2)).
Proof.
  destruct c as [l| |]; cbn [sendable control_wire control_received]; [|intros _|done].
  - intros [Hl Hp]. unfold candidates_message. rewrite take_ge by lia. set (body := [CONTROL_CANDIDATES] ++ _).
    rewrite <- app_assoc. assert (Hb : length body = (2 + 18 * length l)%nat).
    { subst body. rewrite !length_app, candidates_length. done. }
    apply read_control_message; [lia|unfold CONTROL_MAX_BYTES; lia|].
    apply parse_candidates_message; [lia|done].
  - apply (read_control_message fuel [CONTROL_PUNCH_NOW] rest PunchNow); [cbn; lia|unfold CONTROL_MAX_BYTES; cbn; lia|done].
Qed.

Lemma control_wire_nonempty c : sendable c → (0 < length (control_wire c))%nat.
Proof.
  destruct c; cbn [sendable control_wire]; [|cbn; lia|done]. intros _. unfold candidates_message.
  rewrite length_app, to_be_length. lia.
Qed.

Lemma control_wires_read ms : ∀ fuel,
  Forall sendable ms → (length ms < fuel)%nat →
  read_control fuel (mbind control_wire ms) = Ret (control_received <$> ms, true).
Proof.
  induction ms as [|m ms IH]; intros fuel Hs Hf; (destruct fuel as [|fuel]; [lia|]); [done|].
  apply Forall_cons_1 in Hs as [Hm Hs]. rewrite bind_cons, control_wire_read by done.
  cbn in Hf. rewrite IH by (done || lia). done.
Qed.

(** Control messages survive the stream: whatever sequence of candidate
    lists (of at most 227 addresses with 16-bit ports) and punch requests one
    end writes back to back, the other end reads exactly that sequence, each
    address in its IPv6 form, and goes on reading. *)
Theorem control_stream_roundtrip (ms : list Control) (Hms : Forall sendable ms) :
  control_acceptor (mbind control_wire ms) = Ret (control_received <$> ms, true).
Proof.
  apply control_wires_read; [done|]. apply Nat.lt_succ_r.
  induction Hms as [|m ms Hm _ IH]; [done|]. rewrite bind_cons, length_app. cbn [length].
  pose proof (control_wire_nonempty m Hm). lia.
Qed.

(** A candidate list of 228 addresses or more, which the sender accepts,
    makes a message longer than the reader takes: the reader stops there and
    acts on nothing that follows. *)
Lemma candidates_message_overflows_reader (l : list SocketAddr) (rest : list byte)
    (Hl : (228 ≤ length l)%nat) :
  control_acceptor (candidates_message l ++ rest) = Ret ([], false).
Proof.
  destruct (candidates_message_frame l) as (len & body & E & Hlen). unfold control_acceptor.
  rewrite E, <- app_assoc. apply read_control_too_long. unfold CONTROL_MAX_BYTES. lia.
Qed.

(** ** Reading any input *)

Lemma Hint_as_udp_total h : ∃ o, Hint_as_udp h = Ret o.
Proof.
  unfold Hint_as_udp. destruct (_ || _) eqn:E; [by eexists|].
  apply orb_false_iff in E as [_ E]. apply negb_false_iff, Nat.eqb_eq in E.
  rewrite slice_ok by lia. rewrite exec_bind_Ret_l. destruct (try_array 16 _); [|by eexists].
  destruct (index_ok (h_value h) 16) as (b0 & -> & _); [lia|].
  destruct (index_ok (h_value h) 17) as (b1 & -> & _); [lia|]. by eexists.
Qed.

Lemma parse_chunks_total n : ∀ rest, ∃ o, parse_chunks n rest = Ret o.
Proof.
  induction n as [|n IH]; intros rest; cbn [parse_chunks]; [by eexists|].
  destruct (Hint_as_udp_total (mkHint HINT_UDP (take 18 rest))) as [[a|] ->]; [|by eexists].
  rewrite exec_bind_Ret_l. destruct (IH (drop 18 rest)) as [[l|] ->]; by eexists.
Qed.

Lemma parse_control_total body : ∃ o, parse_control body = Ret o.
Proof.
  unfold parse_control. destruct body as [|kind rest]; [by eexists|].
  case_bool_decide; [|case_bool_decide; by eexists].
  unfold parse_candidates. destruct rest as [|count rest]; [by eexists|].
  destruct (negb _); [by eexists|]. destruct (parse_chunks_total (length rest / 18) rest) as [[l|] ->]; by eexists.
Qed.

(** The control reader takes any bytes: it never panics, it consumes its
    input, so that the bound on its iterations is never what ends it, and its
    answer does not depend on that bound. *)
Lemma control_acceptor_total input :
  ∃ r, control_acceptor input = Ret r ∧ ∀ fuel, (length input < fuel)%nat → read_control fuel input = Ret r.
Proof.
  unfold control_acceptor.
  assert (G : ∀ n input, (length input ≤ n)%nat →
    ∃ r, ∀ fuel, (length input < fuel)%nat → read_control fuel input = Ret r).
  { induction n as [|n IH]; intros inp Hn.
    - destruct inp; [|cbn in Hn; lia]. exists ([], true). by intros [|fuel] Hf; [lia|].
    - destruct (decide (length inp < 4)%nat) as [H4|H4].
      { exists ([], true). intros [|fuel] Hf; [lia|]. cbn [read_control]. by rewrite (proj2 (Nat.ltb_lt _ _)). }
      destruct ((from_be (take 4 inp) =? 0) || (CONTROL_MAX_BYTES <? from_be (take 4 inp))) eqn:El.
      { exists ([], false). intros [|fuel] Hf; [lia|]. cbn [read_control].
        by rewrite (proj2 (Nat.ltb_ge _ _)), El by lia. }
      destruct (Z.of_nat (length (drop 4 inp)) <? from_be (take 4 inp)) eqn:Es.
      { exists ([], true). intros [|fuel] Hf; [lia|]. cbn [read_control].
        by rewrite (proj2 (Nat.ltb_ge _ _)), El, Es by lia. }
      set (len := from_be (take 4 inp)) in *. set (rest := drop 4 inp) in *.
      destruct (parse_control_total (take (Z.to_nat len) rest)) as [o Ho].
      destruct o as [c|].
      + destruct (IH (drop (Z.to_nat len) rest)) as [r Hr].
        { subst rest. rewrite !length_drop. lia. }
        exists (c :: r.1, r.2). intros [|fuel] Hf; [lia|]. cbn [read_control].
        rewrite (proj2 (Nat.ltb_ge _ _)) by lia. fold len rest. rewrite El, Es, Ho, exec_bind_Ret_l.
        rewrite Hr; [done|]. subst rest. rewrite !length_drop. lia.
      + exists ([], false). intros [|fuel] Hf; [lia|]. cbn [read_control].
        rewrite (proj2 (Nat.ltb_ge _ _)) by lia. fold len rest. by rewrite El, Es, Ho, exec_bind_Ret_l. }
  destruct (G (length input) input) as [r Hr]; [done|]. exists r. split; [|done]. apply Hr. lia.
Qed.

(** ** Concrete inputs *)

Lemma control_stream_roundtrip_witness :
  let ms := [Candidates [ex_addr Byte.x01; ex_addr Byte.x02]; PunchNow; Candidates []] in
  Forall sendable ms ∧ control_acceptor (mbind control_wire ms) = Ret (control_received <$> ms, true).
Proof.
  cbn zeta.
  assert (H : Forall sendable [Candidates [ex_addr Byte.x01; ex_addr Byte.x02]; PunchNow; Candidates []]).
  { repeat constructor; cbn; unfold u16; lia. }
  split; [exact H|]. exact (control_stream_roundtrip _ H).
Defined.

Lemma candidates_message_overflows_reader_witness :
  (228 ≤ length (replicate 228 (ex_addr Byte.x01)))%nat ∧
  control_acceptor (candidates_message (replicate 228 (ex_addr Byte.x01)) ++ punch_now_message) = Ret ([], false).
Proof.
  assert (H : (228 ≤ length (replicate 228 (ex_addr Byte.x01)))%nat) by (rewrite length_replicate; lia).
  split; [exact H|]. exact (candidates_message_overflows_reader _ _ H).
Defined.

Section example_session.
#[local] Existing Instance toy_crypto.
#[local] Existing Instance toy_mac.
#[local] Instance sx_order : HashIter SocketAddr Z := map_order SocketAddr Z.

Definition ex_view : RelayView := mkRelayView (λ _, true) 0 (λ _, Up (lit "wss://a.example")).
Definition ex_turn (now : Z) : TurnIn := mkTurnIn now now (λ _, ex_ping Byte.x01).
Definition ex_start : SStart :=
  mkSStart (ex_run [ORegisterPeer ex_peer; OBegin ex_peer]) ex_view 0 ex_peer true 0
    (Some (ex_pkey, ex_kid)) 0.
Definition ex_probing : list SEvent :=
  [SControl (Candidates [ex_addr Byte.x0a]); STurn WTick ex_view (ex_turn 0)].
Definition ex_proved : list SEvent := ex_probing ++ [SPaths (ex_pong Byte.x01 (ex_addr Byte.x0a))].

Lemma direct_report_is_proved_witness :
  rp_status (s_report (w_sess (drive_turn (s_run ex_start ex_proved) WTick ex_view (ex_turn 2)))) = PDirect ∧
  ∃ pv, proven_direct (w_paths (drive_turn (s_run ex_start ex_proved) WTick ex_view (ex_turn 2)))
          (s_peer (w_sess (drive_turn (s_run ex_start ex_proved) WTick ex_view (ex_turn 2)))) = Some pv ∧
        duration_since 2 (pv_at pv) < secs 15.
Proof.
  assert (H : rp_status (s_report (w_sess (drive_turn (s_run ex_start ex_proved) WTick ex_view (ex_turn 2)))) = PDirect)
    by (vm_compute; reflexivity).
  split; [exact H|].
  apply (direct_report_is_proved ex_start ex_proved WTick ex_view (ex_turn 2)); [exact I| |exact H].
  apply (bool_decide_eq_true_1 _). vm_compute. reflexivity.
Defined.

Lemma probing_round_ends_witness :
  ∃ d e, w_drive (s_run ex_start ex_probing) = Some d ∧ dv_round_ends d = Some e ∧
    (e <= secs 6 →
     let s' := w_sess (drive_turn (s_run ex_start ex_probing) WTick ex_view (ex_turn (secs 6))) in
     rp_status (s_report s') = PRelayed ∨ rp_status (s_report s') = PDirect).
Proof.
  let o := eval vm_compute in (w_drive (s_run ex_start ex_probing)) in
  match o with
  | Some ?d =>
    destruct (probing_round_ends ex_start ex_probing d ex_view (ex_turn (secs 6)) (lit "wss://a.example"))
      as (e & He & Hs);
    [vm_compute; reflexivity|vm_compute; reflexivity|vm_compute; reflexivity|exists d, e]
  end.
  split; [vm_compute; reflexivity|]. split; [exact He|exact Hs].
Defined.

(** An outage: the relay is lost, sixty-one seconds later it is given up. *)
Definition ex_outage : list SEvent := [STurn (WRelay (EvStatus Reconnecting)) ex_view (ex_turn 0)].

Lemma relay_failure_keeps_probe_key_witness :
  let w := s_run ex_start ex_outage in
  let w2 := foldl s_step (drive_turn w (WRelay (EvStatus Failed)) ex_view (ex_turn (secs 61)))
              [STurn (WClosed TimedOut) ex_view (ex_turn (secs 62))] in
  rp_status (s_report (w_sess w)) = PReconnecting ∧
  in_by_key_id (p_inner (w_paths w)) !! ex_kid = Some ex_peer ∧
  rp_status (s_report (w_sess w2)) = PFailed FrRelay ∧ w_paths w2 = w_paths w.
Proof.
  cbn zeta. split; [vm_compute; reflexivity|]. split; [apply (bool_decide_eq_true_1 _); vm_compute; reflexivity|].
  eapply (relay_failure_keeps_probe_key ex_start ex_outage _ (EvStatus Failed) ex_view (ex_turn (secs 61))).
  - vm_compute. reflexivity.
  - vm_compute. reflexivity.
  - repeat constructor. by eexists _, _, _.
Defined.

(** The diagram has no [Probing] to [Reconnecting] and no way back; the code does. *)
Example probing_reconnects :
  rp_status <$> s_history (w_sess (s_run ex_start (ex_probing ++
    [STurn (WRelay (EvStatus Reconnecting)) ex_view (ex_turn 1);
     STurn (WRelay (EvStatus (Up (lit "wss://a.example")))) ex_view (ex_turn 2)]))) =
  [PRendezvous; PRelayed; PProbing; PReconnecting; PProbing].
Proof. vm_compute. reflexivity. Qed.

(** A session that was set up with direct paths declined. *)
Definition ex_declined : SStart :=
  mkSStart (ex_run [ORegisterPeer ex_peer; OBegin ex_peer]) ex_view 0 ex_peer false 0 (Some (ex_pkey, ex_kid)) 0.

(** The peer pings under the session's key, is pinged back, and answers. *)
Definition ex_pinged : list SEvent :=
  [SPaths (ODirect (Probe_seal (mkProbe PROBE_PING ex_kid (ex_nonce Byte.x07)) ex_pkey) (ex_addr Byte.x0a)
             (mkProbeIn 1 1 (ex_ping Byte.x01)));
   SPaths (ex_pong Byte.x01 (ex_addr Byte.x0a)); STurn WTick ex_view (ex_turn 2)].

(** Declining direct paths does not keep the path socket off them: the flag is the
    session's alone, the probe key is registered all the same, the socket pings back
    whoever pings under it, and the answer proves an address to which the session's
    datagrams then go, while the session goes on reporting [Relayed]. *)
Theorem declined_direct_is_taken :
  let w := s_run ex_declined ex_pinged in
  s_allow_direct (w_sess w) = false ∧ rp_status (s_report (w_sess w)) = PRelayed ∧
  pv_addr <$> proven_direct (w_paths w) ex_peer = Some (ex_addr Byte.x0a) ∧
  path_try_send (w_paths w) None (NodeId_synthetic_addr ex_peer) (lit "datagram") 2 (λ _, true) 0 UdpOk Queued =
    (SendOk, Some (RDirect (ex_addr Byte.x0a)), None).
Proof.
  cbn zeta. split_and!; [apply (bool_decide_eq_true_1 _); vm_compute; reflexivity..|].
  vm_compute. reflexivity.
Qed.

End example_session.
