(* ===== verification/Endpoint.v ===== *)
(** * Endpoint: opening, dialling and accepting ([link-endpoint/src/endpoint.rs])

    The endpoint over the path socket, the tag book and the TLS verifiers.  A call
    that awaits is cut at its await points: [connect] is [connect_begin],
    [connect_ready] and [connect_handshake], one turn of [accept_any] is
    [accept_incoming] and [accept_handshake], and what is under way in between is a
    [Flight] of the state, so that any interleaving of dials, accepts, datagrams
    and session ends is a sequence of events.  The relay client's answers, the
    clock, the random route candidates and the outcome of QUIC are inputs; a
    handshake outcome counts only where the verifier in use lets it finish. *)

From S2P Require Import Prelude Net Id Rendezvous Card Wire Tls Paths TagBook RelayClient Session.

Open Scope Z_scope.

Definition MAX_MTU : Z := 1350.
Definition ALPN : list byte := lit "fsl/0".
Definition PAIRING_ALPN : list byte := lit "fsl-pair/0".
Definition MAX_PAIRING_LIFETIME : Z := secs (10 * 60).
Definition MAX_PAIRING_SESSION_LIFETIME : Z := secs 60.

Inductive PairingError : Type := TagModeRequired | Lifetime | RouteExport.

(** ** Configuration *)

Record EndpointConfig : Type := mkEndpointConfig {
  ec_key : TransportKey;
  ec_serial_seed : option Z;
  ec_relays : list RelaySpec;
  ec_allow_direct : bool;
  ec_bind : SocketAddr;
  ec_reflector : option SocketAddr;
  ec_net_poll : Z;
  ec_probe_delay : Z;
  ec_rendezvous_timeout : Z;
  ec_rendezvous : option (gmap NodeId RendezvousPeer);
  ec_paired_routes : option (gmap NodeId (array 32));
}.

(** [browser] is [cfg!(wasm_browser)]. *)
Definition EndpointConfig_new (browser : bool) (key : TransportKey) : EndpointConfig :=
  mkEndpointConfig key None [] (negb browser) (mkSocketAddr (V4 (pad_array 4 [])) 0) None
    (if browser then 0 else secs 5) 0 (secs 30) None None.

Inductive OpenError : Type := SeedExhausted | BindFailed | BrowserRefused | SetupFailed.

Definition browser_config_check (c : EndpointConfig) : result OpenError unit :=
  if ec_allow_direct c then Err BrowserRefused
  else if bool_decide (is_Some (ec_reflector c)) then Err BrowserRefused
  else if forallb (λ r, bool_decide (is_Some (RelaySpec_browser_url r))) (ec_relays c) then Ok tt
  else Err BrowserRefused.

(** [config.rendezvous.take()] and [config.paired_routes.take()]. *)
Definition ec_take_material (c : EndpointConfig) : EndpointConfig :=
  if bool_decide (is_Some (ec_rendezvous c)) || bool_decide (is_Some (ec_paired_routes c))
  then mkEndpointConfig (ec_key c) (ec_serial_seed c) (ec_relays c) (ec_allow_direct c) (ec_bind c)
         (ec_reflector c) (ec_net_poll c) (ec_probe_delay c) (ec_rendezvous_timeout c) None None
  else c.

Definition open_book (c : EndpointConfig) : option TagBook :=
  if bool_decide (is_Some (ec_rendezvous c)) || bool_decide (is_Some (ec_paired_routes c))
  then Some (TagBook_with_paired (default ∅ (ec_rendezvous c)) (default ∅ (ec_paired_routes c)))
  else None.

(** ** State *)

(** Whom a connection under way is with: the peer and the slot it took, on a
    pairing route or not; an inbound pairing connection has no slot yet. *)
Inductive Flight : Type :=
  | FDial (peer : NodeId) (session : Z) (pairing : option NodeId)
  | FShake (peer : NodeId) (session : Z) (pairing : option NodeId)
  | FAccept (route : NodeId) (slot : option Z).

Inductive Kind : Type :=
  | Pinned
  | Provisional (route : NodeId) (generation : Z) (application_stream_used : bool).

(** An established session: [Session], or [PairingSession] around one. *)
Record Live : Type := mkLive { lv_conn : Presented; lv_kind : Kind; lv_sess : Sess }.

Record Endpoint : Type := mkEndpoint {
  ep_config : EndpointConfig;
  ep_paths : Paths;
  ep_serial : Z;
  ep_book : option TagBook;
  (** [NEXT_PAIRING_ROUTE_GENERATION] *)
  ep_generation : Z;
  ep_flights : gmap Z Flight;
  ep_next_flight : Z;
  ep_live : gmap Z Live;
}.

Definition ep_set_paths (e : Endpoint) (p : Paths) : Endpoint :=
  mkEndpoint (ep_config e) p (ep_serial e) (ep_book e) (ep_generation e) (ep_flights e) (ep_next_flight e) (ep_live e).
Definition ep_set_serial (e : Endpoint) (s : Z) : Endpoint :=
  mkEndpoint (ep_config e) (ep_paths e) s (ep_book e) (ep_generation e) (ep_flights e) (ep_next_flight e) (ep_live e).
Definition ep_set_book (e : Endpoint) (b : option TagBook) : Endpoint :=
  mkEndpoint (ep_config e) (ep_paths e) (ep_serial e) b (ep_generation e) (ep_flights e) (ep_next_flight e) (ep_live e).
Definition ep_next_generation (e : Endpoint) : Endpoint :=
  mkEndpoint (ep_config e) (ep_paths e) (ep_serial e) (ep_book e) ((ep_generation e + 1) mod 2 ^ 64)
    (ep_flights e) (ep_next_flight e) (ep_live e).
Definition ep_set_flights (e : Endpoint) (m : gmap Z Flight) (next : Z) : Endpoint :=
  mkEndpoint (ep_config e) (ep_paths e) (ep_serial e) (ep_book e) (ep_generation e) m next (ep_live e).
Definition ep_set_live (e : Endpoint) (m : gmap Z Live) : Endpoint :=
  mkEndpoint (ep_config e) (ep_paths e) (ep_serial e) (ep_book e) (ep_generation e) (ep_flights e) (ep_next_flight e) m.

Definition ep_node_id (e : Endpoint) : NodeId := tk_node_id (ec_key (ep_config e)).

Definition add_flight (e : Endpoint) (f : Flight) : Endpoint * Z :=
  (ep_set_flights e (<[ep_next_flight e := f]> (ep_flights e)) (ep_next_flight e + 1), ep_next_flight e).
Definition move_flight (e : Endpoint) (id : Z) (f : Flight) : Endpoint :=
  ep_set_flights e (<[id := f]> (ep_flights e)) (ep_next_flight e).
Definition end_flight (e : Endpoint) (id : Z) : Endpoint :=
  ep_set_flights e (delete id (ep_flights e)) (ep_next_flight e).

Section endpoint.
Context `{C : Crypto, R : RdvCrypto, T : RawKeyTls}.

(** [open]: [udp] is the bound socket, if the bind succeeded; [setup] whether the
    TLS and QUIC configuration was accepted. *)
Definition Endpoint_open (browser : bool) (c : EndpointConfig) (udp : option SocketAddr) (setup : bool)
    (now : Z) (nonce : array 16) : result OpenError Endpoint :=
  if bool_decide (ec_serial_seed c = Some u64_max) then Err SeedExhausted
  else
    let book := open_book c in
    let c := ec_take_material c in
    paths ← (if browser
             then (_ ← browser_config_check c; Ok (Paths_assemble (ec_key c) None None))
             else match udp with
                  | None => Err BindFailed
                  | Some a => Ok (Paths_assemble (ec_key c) (Some a) (ec_reflector c))
                  end);
    if negb setup then Err SetupFailed
    else
      let serial := Z.max (default 0 (ec_serial_seed c)) now in
      let paths := match ec_reflector c with
                   | Some reflector => query_reflector paths reflector nonce
                   | None => paths
                   end in
      Ok (mkEndpoint c paths serial book 1 ∅ 0 ∅).

(** ** Cards *)

Definition card_own_hints (e : Endpoint) (local : list IpAddr) : list Hint :=
  (Hint_relay ∘ spec_url <$> ec_relays (ep_config e)) ++
  (if ec_allow_direct (ep_config e) then Hint_udp <$> local_candidates (ep_paths e) local else []).

(** The endpoint's own hints are truncated into the space the caller's leave. *)
Definition card_all_hints (e : Endpoint) (local : list IpAddr) (extra : list Hint) : list Hint :=
  let extra := take MAX_HINTS extra in
  take (MAX_HINTS - length extra) (card_own_hints e local) ++ extra.

(** [ttl] is [ttl.as_secs()], [local] what [local_addresses] answers. *)
Definition card (e : Endpoint) (now ttl : Z) (extra : list Hint) (local : list IpAddr) : Endpoint * Card :=
  let ttl := Z.max 1 (Z.min ttl MAX_LIFETIME_SECONDS) in
  let serial := Z.max (sat_add64 (ep_serial e) 1) now in
  (ep_set_serial e serial,
   Card_sign (ec_key (ep_config e)) now ((now + ttl) mod 2 ^ 64) serial (card_all_hints e local extra)).

(** ** Pairing registrations *)

Record PairingRegistration : Type := mkRegistration { pg_route : NodeId; pg_expires_at : Z }.

(** [lifetime] in nanoseconds; [None] while no candidate route is free. *)
Definition register_pairing_secret (e : Endpoint) (secret : array 16) (lifetime now : Z)
    (candidates : list NodeId) : option (result PairingError (Endpoint * PairingRegistration)) :=
  if (lifetime <? secs 1) || (MAX_PAIRING_LIFETIME <? lifetime) then Some (Err Lifetime)
  else match ep_book e with
  | None => Some (Err TagModeRequired)
  | Some book =>
    let expires_at := sat_add64 now (lifetime / 10 ^ 9) in
    '(book, route) ← register_pairing book candidates secret expires_at;
    Some (Ok (ep_set_book e (Some book), mkRegistration route expires_at))
  end.

(** The task that ends a registration, and its [Drop]. *)
Definition expire_registration (e : Endpoint) (route : NodeId) : Endpoint :=
  ep_set_book e ((λ b, fst (remove_pairing b route)) <$> ep_book e).

(** ** Rendezvous *)

(** [wait_up] over the statuses the watch shows; [None] while it still waits. *)
Fixpoint wait_up (seen : list RelayStatus) (closed : bool) : option (option (list byte)) :=
  match seen with
  | [] => if closed then Some None else None
  | Up url :: _ => Some (Some url)
  | Superseded :: _ | Failed :: _ => Some None
  | _ :: rest => wait_up rest closed
  end.

(** [status] at the call, what [wait_up] saw before the deadline, [after] the
    status once it ended. *)
Definition rendezvous (status : RelayStatus) (seen : list RelayStatus) (closed : bool) (after : RelayStatus) :
    result FailReason (list byte) :=
  match status with
  | Up url => Ok url
  | Superseded => Err FrSuperseded
  | Failed => Err FrRelay
  | _ =>
    match wait_up seen closed with
    | None => Err FrTimeout
    | Some (Some url) => Ok url
    | Some None => match after with Superseded => Err FrSuperseded | _ => Err FrRelay end
    end
  end.

(** ** QUIC outcomes *)

Inductive ConnectionError : Type := TimedOut | TransportError (code : Z) | OtherError.

Definition classify (err : ConnectionError) : FailReason :=
  match err with
  | TimedOut => FrTimeout
  | TransportError code => if (0x100 <=? code) && (code <=? 0x1ff) then FrIdentity else FrRelay
  | OtherError => FrRelay
  end.

Inductive Handshake : Type :=
  | HsFailed (err : ConnectionError)
  (** what the peer presented, and the exporter's answers for the pairing route
      and for the session's probe key *)
  | HsDone (conn : Presented) (route_secret : option (array 16)) (material : option (array 32 * array 8)).

(** The inputs of one handshake's end: the relay client's view, the clock, and
    whether the client configuration and [connect_with] succeeded. *)
Record HsIn : Type := mkHsIn {
  hi_view : RelayView;
  hi_now : Z;
  hi_unix : Z;
  hi_config : bool;
  hi_connect : bool;
}.

Definition finishes (v : Verifier) (conn : Presented) : bool :=
  match handshake_finishes v conn with Ret b => b | Panic => false end.

Definition promote_pairing_route (e : Endpoint) (book : TagBook) (route : NodeId) (secret : option (array 16))
    (now : Z) : Endpoint * result FailReason Z :=
  match secret with
  | None => (e, Err FrRelay)
  | Some secret =>
    let generation := ep_generation e in
    let e := ep_next_generation e in
    let '(book, ok) := promote_pairing book route secret generation now in
    (ep_set_book e (Some book), if (ok : bool) then Ok generation else Err FrRendezvous)
  end.

(** [Session::start] on a slot, and the session kept under its id. *)
Definition establish (e : Endpoint) (i : HsIn) (peer : NodeId) (session : Z) (allow_direct : bool) (kind : Kind)
    (conn : Presented) (material : option (array 32 * array 8)) : Endpoint :=
  let '(p, s) := session_start (ep_paths e) (hi_view i) (hi_now i) (hi_now i) peer allow_direct session material in
  let e := ep_set_paths e p in
  ep_set_live e (<[session := mkLive conn kind s]> (ep_live e)).

(** [paths.end_session] where an attempt fails. *)
Definition release (e : Endpoint) (peer : NodeId) (session : Z) : Endpoint :=
  ep_set_paths e (end_session (ep_paths e) peer session).
(** ** Dialling *)

(** The relays a card names, as [set_peer_relays] is asked for them. *)
Definition dial_hints (c : Card) : list RelaySpec := RelaySpec_plain <$> Card_relay_urls c.

(** [connect] up to the relay welcome; [driver] is the one [driver_for] answers
    for [dial_hints c]. *)
Definition connect_begin (e : Endpoint) (c : Card) (driver : Z) : Endpoint * result FailReason Z :=
  let peer := card_node_id c in
  if bool_decide (peer = ep_node_id e) then (e, Err FrIdentity)
  else if (match ep_book e with Some book => negb (contains book peer) | None => false end)
  then (e, Err FrRendezvous)
  else
    let p := register_peer (ep_paths e) peer in
    let '(p, session) := begin_session p peer in
    let p := set_peer_relays p peer driver in
    let '(e, id) := add_flight (ep_set_paths e p) (FDial peer session None) in
    (e, Ok id).

(** [connect_pairing] up to the relay welcome; [belongs] is
    [registration.belongs_to(book)], the clock is read twice. *)
Definition connect_pairing_begin (e : Endpoint) (c : Card) (reg : PairingRegistration) (belongs : bool)
    (now now2 : Z) (driver : Z) : Endpoint * result FailReason Z :=
  let peer := card_node_id c in
  if bool_decide (peer = ep_node_id e) then (e, Err FrIdentity)
  else match ep_book e with
  | None => (e, Err FrRendezvous)
  | Some book =>
    if negb belongs then (e, Err FrRendezvous)
    else
      let route := pg_route reg in
      let '(book, active) := registration_active book route (pg_expires_at reg) now in
      let e := ep_set_book e (Some book) in
      if negb active then (e, Err FrRendezvous)
      else if bool_decide (route = ep_node_id e) then (e, Err FrRendezvous)
      else
        let '(book, active) := pairing_active book route now2 in
        let e := ep_set_book e (Some book) in
        if negb active then (e, Err FrRendezvous)
        else
          let p := register_peer (register_peer (ep_paths e) route) peer in
          let '(p, session) := begin_session p peer in
          let p := copy_relay_route (set_peer_relays p route driver) route peer in
          let '(e, id) := add_flight (ep_set_paths e p) (FDial peer session (Some route)) in
          (e, Ok id)
  end.

(** The relay welcome, or the end of the wait for it. *)
Definition connect_ready (e : Endpoint) (id : Z) (r : result FailReason (list byte)) : Endpoint * option FailReason :=
  match ep_flights e !! id with
  | Some (FDial peer session pairing) =>
    match r with
    | Ok _ => (move_flight e id (FShake peer session pairing), None)
    | Err reason => (end_flight (release e peer session) id, Some reason)
    end
  | _ => (e, None)
  end.

(** From [client_config] on: the session, or why there is none.  The answer is
    [None] for an outcome the pinned verifier does not let happen. *)
Definition connect_handshake (e : Endpoint) (id : Z) (i : HsIn) (h : Handshake) :
    Endpoint * option (result FailReason Z) :=
  match ep_flights e !! id with
  | Some (FShake peer session pairing) =>
    if negb (hi_config i) then (end_flight e id, Some (Err FrIdentity))
    else if negb (hi_connect i) then (end_flight (release e peer session) id, Some (Err FrRelay))
    else match h with
    | HsFailed err => (end_flight (release e peer session) id, Some (Err (classify err)))
    | HsDone conn secret material =>
      if negb (finishes (PinnedServer peer) conn) then (e, None)
      else
        match pairing with
        | None =>
          let e := end_flight e id in
          (establish e i peer session (ec_allow_direct (ep_config e)) Pinned conn material, Some (Ok session))
        | Some route =>
          match ep_book e with
          | None => (e, None)
          | Some book =>
            let '(e, r) := promote_pairing_route (end_flight e id) book route secret (hi_unix i) in
            match r with
            | Ok generation =>
              (establish e i peer session false (Provisional route generation false) conn material,
               Some (Ok session))
            | Err reason => (release e peer session, Some (Err reason))
            end
          end
        end
    end
  | _ => (e, None)
  end.

(** The future of a [connect] dropped before it finished, as a timeout or a stop
    around it does: nothing in it frees the slot. *)
Definition connect_dropped (e : Endpoint) (id : Z) : Endpoint :=
  match ep_flights e !! id with
  | Some (FDial _ _ _) | Some (FShake _ _ _) => end_flight e id
  | _ => e
  end.

(** ** Accepting *)

(** One turn of [accept_any] up to the handshake; [config] and [accepts] are the
    answers of [server_config] and [accept_with].  [Some] is the error it returns. *)
Definition accept_incoming (e : Endpoint) (remote : SocketAddr) (now : Z) (config accepts : bool) :
    Endpoint * option FailReason :=
  match peer_for_synthetic (ep_paths e) remote with
  | None => (e, None)
  | Some route =>
    let '(book, pairing) := match ep_book e with
                            | Some book => let '(b, active) := pairing_active book route now in (Some b, active)
                            | None => (None, false)
                            end in
    let e := ep_set_book e book in
    let '(e, slot) := if (pairing : bool) then (e, None)
                      else let '(p, session) := begin_session (ep_paths e) route in
                           (ep_set_paths e p, Some session) in
    if negb config then (e, Some FrIdentity)
    else if negb accepts then
      (match slot with Some session => release e route session | None => e end, None)
    else (fst (add_flight e (FAccept route slot)), None)
  end.

Definition release_slot (e : Endpoint) (route : NodeId) (slot : option Z) : Endpoint :=
  match slot with Some session => release e route session | None => e end.

Definition accept_verifier (route : NodeId) (slot : option Z) : Verifier :=
  match slot with Some _ => PinnedClient route | None => ProvisionalClient end.

(** The rest of the turn: the session accepted, or the error returned; [None] when
    the loop goes on. *)
Definition accept_handshake (e : Endpoint) (id : Z) (i : HsIn) (h : Handshake) :
    Endpoint * option (result FailReason Z) :=
  match ep_flights e !! id with
  | Some (FAccept route slot) =>
    match h with
    | HsFailed _ => (end_flight (release_slot e route slot) id, None)
    | HsDone conn secret material =>
      if negb (finishes (accept_verifier route slot) conn) then (e, None)
      else
        let e := end_flight e id in
        match presented_node_id conn with
        | Ret (Some presented) =>
          match slot with
          | None =>
            if bool_decide (presented = ep_node_id e) then (e, None)
            else match ep_book e with
            | None => (e, None)
            | Some book =>
              let '(e, r) := promote_pairing_route e book route secret (hi_unix i) in
              match r with
              | Err _ => (e, None)
              | Ok generation =>
                let p := copy_relay_route (register_peer (ep_paths e) presented) route presented in
                let '(p, session) := begin_session p presented in
                let e := ep_set_paths e p in
                (establish e i presented session false (Provisional route generation false) conn material,
                 Some (Ok session))
              end
            end
          | Some session =>
            if negb (bool_decide (presented = route))
            then (release e route session, Some (Err FrIdentity))
            else (establish e i route session (ec_allow_direct (ep_config e)) Pinned conn material, Some (Ok session))
          end
        | _ => (release_slot e route slot, None)
        end
    end
  | _ => (e, None)
  end.

(** ** Sessions *)

(** [take_application_stream]: [true] when the stream may be used. *)
Definition take_application_stream (e : Endpoint) (session : Z) : Endpoint * bool :=
  match ep_live e !! session with
  | Some l =>
    match lv_kind l with
    | Provisional route generation used =>
      (ep_set_live e (<[session := mkLive (lv_conn l) (Provisional route generation true) (lv_sess l)]> (ep_live e)),
       negb used)
    | Pinned => (e, true)
    end
  | None => (e, false)
  end.

(** A session's connection ended.  [driven]: its [drive] still ran, and its [closed]
    branch forgets the probe key and frees the slot; otherwise [drive] had returned, on
    a relay that failed or whose slot was taken, which frees neither, and nothing does
    now. *)
Definition session_ends (e : Endpoint) (session : Z) (driven : bool) : Endpoint :=
  match ep_live e !! session with
  | Some l =>
    let e := if driven
             then release (ep_set_paths e (forget_probe_key (ep_paths e) (lv_sess l))) (s_peer (lv_sess l)) session
             else e in
    ep_set_live e (delete session (ep_live e))
  | None => e
  end.

(** The clean-up task of [PairingSession]. *)
Definition pairing_cleanup (e : Endpoint) (route : NodeId) (generation : Z) : Endpoint :=
  ep_set_book e ((λ b, fst (remove_live_pairing b route generation)) <$> ep_book e).

End endpoint.

(** ** Histories *)

(** Operations of the path socket that sessions and datagrams perform: the slots
    are the endpoint's and the sessions' own. *)
Definition slot_free (op : POp) : bool :=
  match op with OBegin _ | OEnd _ _ => false | _ => true end.

Inductive EEvent : Type :=
  | EConnect (c : Card) (driver : Z)
  | EConnectPairing (c : Card) (reg : PairingRegistration) (belongs : bool) (now now2 driver : Z)
  | EReady (id : Z) (r : result FailReason (list byte))
  | EDialled (id : Z) (i : HsIn) (h : Handshake)
  | EDropped (id : Z)
  | EIncoming (remote : SocketAddr) (now : Z) (config accepts : bool)
  | EAccepted (id : Z) (i : HsIn) (h : Handshake)
  | EStream (session : Z)
  | EEnds (session : Z) (driven : bool)
  | ECleanup (route : NodeId) (generation : Z)
  | ECard (now ttl : Z) (extra : list Hint) (local : list IpAddr)
  | ERegister (secret : array 16) (lifetime now : Z) (candidates : list NodeId)
  | EExpire (route : NodeId)
  | EBook (op : BOp)
  | EPaths (op : POp).

Section histories.
Context `{C : Crypto, R : RdvCrypto, T : RawKeyTls, M : Mac, !HashIter SocketAddr Z}.

Definition ep_step (e : Endpoint) (ev : EEvent) : Endpoint :=
  match ev with
  | EConnect c driver => fst (connect_begin e c driver)
  | EConnectPairing c reg belongs now now2 driver => fst (connect_pairing_begin e c reg belongs now now2 driver)
  | EReady id r => fst (connect_ready e id r)
  | EDialled id i h => fst (connect_handshake e id i h)
  | EDropped id => connect_dropped e id
  | EIncoming remote now config accepts => fst (accept_incoming e remote now config accepts)
  | EAccepted id i h => fst (accept_handshake e id i h)
  | EStream session => fst (take_application_stream e session)
  | EEnds session driven => session_ends e session driven
  | ECleanup route generation => pairing_cleanup e route generation
  | ECard now ttl extra local => fst (card e now ttl extra local)
  | ERegister secret lifetime now candidates =>
    match register_pairing_secret e secret lifetime now candidates with
    | Some (Ok (e, _)) => e
    | _ => e
    end
  | EExpire route => expire_registration e route
  | EBook op => ep_set_book e ((λ b, b_step b op) <$> ep_book e)
  | EPaths op => if slot_free op then ep_set_paths e (p_step (ep_paths e) op) else e
  end.

Definition ep_run (e : Endpoint) (es : list EEvent) : Endpoint := foldl ep_step e es.

Lemma ep_run_ind (P : Endpoint → Prop) e :
  P e → (∀ e ev, P e → P (ep_step e ev)) → ∀ es, P (ep_run e es).
Proof.
  intros H0 Hs es. induction es as [|ev es IH] using rev_ind; [done|].
  unfold ep_run in *. rewrite foldl_snoc. auto.
Qed.

End histories.

(** ** Slots of the path socket *)

Definition slots (p : Paths) : gmap NodeId Z * Z * gset Z :=
  (in_sessions (p_inner p), in_next_session (p_inner p), in_notified (p_inner p)).

Section slots.
Context `{C : Crypto, M : Mac, !HashIter SocketAddr Z}.

Lemma take_direct_slots i peer :
  in_sessions (take_direct i peer) = in_sessions i ∧
  in_next_session (take_direct i peer) = in_next_session i ∧ in_notified (take_direct i peer) = in_notified i.
Proof. unfold take_direct. by repeat case_match. Qed.

Lemma with_peer_slots i peer f :
  in_sessions (with_peer i peer f) = in_sessions i ∧
  in_next_session (with_peer i peer f) = in_next_session i ∧ in_notified (with_peer i peer f) = in_notified i.
Proof. unfold with_peer. by case_match. Qed.

Lemma drop_direct_slots p peer session : slots (drop_direct p peer session) = slots p.
Proof.
  unfold drop_direct, slots. split_if; [|done]. cbn [p_inner set_inner].
  by destruct (take_direct_slots (p_inner p) peer) as (-> & -> & ->).
Qed.

Lemma unregister_slots p k : slots (unregister_probe_key p k) = slots p.
Proof.
  unfold unregister_probe_key, slots. case_match; [|done]. cbn [p_inner set_inner].
  by destruct (with_peer_slots (set_by_key_id (p_inner p) (delete k (in_by_key_id (p_inner p)))) n
    (λ e, match pr_probe_key e with Some (k', _) => if bool_decide (k' = k) then pr_set_probe_key e None else e | None => e end))
    as (-> & -> & ->).
Qed.

Lemma forget_slots p s : slots (forget_probe_key p s) = slots p.
Proof. unfold forget_probe_key. destruct (s_probe_key_id s); [apply unregister_slots|done]. Qed.

Lemma prune_slots p peer now : slots (prune_learned p peer now) = slots p.
Proof. unfold prune_learned, slots, with_peer. by case_match. Qed.

Lemma send_ping_slots p peer addr i : slots (fst (send_ping p peer addr i)) = slots p.
Proof. unfold send_ping. split_if; [done|]. by repeat case_match. Qed.

Lemma ping_all_slots p peer targets rnd n sent : slots (fst (ping_all p peer targets rnd n sent)) = slots p.
Proof.
  revert p n sent. induction targets as [|a l IH]; intros; [done|]. cbn [ping_all].
  pose proof (send_ping_slots p peer a (rnd n)). destruct (send_ping p peer a (rnd n)) as [p' ok].
  by rewrite IH.
Qed.

Lemma on_ping_slots p peer key probe from i : slots (on_ping p peer key probe from i) = slots p.
Proof. unfold on_ping. repeat split_if; by rewrite ?send_ping_slots. Qed.

Lemma deliver_slots p from data : slots (deliver_inbound p from data) = slots p.
Proof. unfold deliver_inbound. by split_if. Qed.

Lemma handle_probe_slots p peer key probe from i : slots (handle_probe p peer key probe from i) = slots p.
Proof.
  unfold handle_probe. repeat split_if; try done; [apply on_ping_slots|].
  unfold on_pong. by repeat case_match.
Qed.

Lemma direct_inbound_slots p d src i : slots (direct_inbound p d src i) = slots p.
Proof.
  unfold direct_inbound.
  repeat (case_match; try done); auto using handle_probe_slots, deliver_slots.
Qed.

(** Only the session operations touch the slots. *)
Lemma p_step_slots p op : slot_free op = true → slots (p_step p op) = slots p.
Proof.
  destruct op; cbn [slot_free p_step]; intros; try done;
    auto using drop_direct_slots, unregister_slots, prune_slots, direct_inbound_slots.
  - unfold send_probes. rewrite ping_all_slots, prune_slots. done.
  - unfold requery_reflector. case_match; [|done]. unfold query_reflector. by split_if.
  - unfold query_reflector. by split_if.
  - unfold relay_inbound. by rewrite deliver_slots.
Qed.

Lemma begin_session_slots p peer :
  slots (fst (begin_session p peer)) =
    (<[peer := in_next_session (p_inner p)]> (in_sessions (p_inner p)), in_next_session (p_inner p) + 1,
     match in_sessions (p_inner p) !! peer with
     | Some previous => {[previous]} ∪ in_notified (p_inner p)
     | None => in_notified (p_inner p)
     end).
Proof.
  unfold begin_session, slots. cbn [fst p_inner set_inner].
  set (i := mkInner _ _ _ _ _ _ _). destruct (take_direct_slots (with_peer i peer pr_clear) peer) as (-> & -> & ->).
  by destruct (with_peer_slots i peer pr_clear) as (-> & -> & ->).
Qed.

Lemma begin_session_id p peer : snd (begin_session p peer) = in_next_session (p_inner p).
Proof. done. Qed.

Lemma session_start_slots p v now now2 peer allow session material :
  slots (fst (session_start p v now now2 peer allow session material)) = slots p.
Proof. unfold session_start. destruct material as [[key k]|]; [|done]. by cbn [fst]. Qed.

Lemma session_start_sess p v now now2 peer allow session material :
  s_peer (snd (session_start p v now now2 peer allow session material)) = peer ∧
  s_allow_direct (snd (session_start p v now now2 peer allow session material)) = allow ∧
  s_session_id (snd (session_start p v now now2 peer allow session material)) = session.
Proof.
  unfold session_start. destruct material as [[key k]|]; cbn [snd];
    match goal with |- context [transition ?p ?v ?n ?s ?st ?c] =>
      destruct (transition_fields p v n s st c) end; naive_solver.
Qed.
End slots.

(** ** The session table

    The promise of one session per peer, newest first: a table of who holds which
    session and which of them is the peer's current one. *)

Record Table : Type := mkTable {
  t_current : gmap NodeId Z;
  t_next : Z;
  t_told : gset Z;
  t_held : gmap Z NodeId;
}.

Definition Table_empty : Table := mkTable ∅ 0 ∅ ∅.

(** [TForget] is a session given up with its slot still taken. *)
Inductive TOp : Type := TBegin (peer : NodeId) | TRelease (session : Z) | TForget (session : Z).

Definition t_step (t : Table) (op : TOp) : Table :=
  match op with
  | TBegin peer =>
    mkTable (<[peer := t_next t]> (t_current t)) (t_next t + 1)
      (match t_current t !! peer with Some old => {[old]} ∪ t_told t | None => t_told t end)
      (<[t_next t := peer]> (t_held t))
  | TRelease session =>
    match t_held t !! session with
    | Some peer =>
      mkTable (if bool_decide (t_current t !! peer = Some session) then delete peer (t_current t) else t_current t)
        (t_next t) (t_told t) (delete session (t_held t))
    | None => t
    end
  | TForget session => mkTable (t_current t) (t_next t) (t_told t) (delete session (t_held t))
  end.

Definition forgets (op : TOp) : bool := match op with TForget _ => true | _ => false end.

(** What the table promises: a held session is its peer's current one or has been
    told that it is not; and a current session is held, unless one was forgotten. *)
Record t_ok (exact : bool) (t : Table) : Prop := {
  to_fresh session peer : t_held t !! session = Some peer → session < t_next t;
  to_newest session peer : t_held t !! session = Some peer → t_current t !! peer = Some session ∨ session ∈ t_told t;
  to_current peer session : exact = true → t_current t !! peer = Some session → t_held t !! session = Some peer;
}.

Lemma t_empty_ok exact : t_ok exact Table_empty.
Proof. split; intros; simplify_map_eq. Qed.

Lemma t_begin_ok exact t peer : t_ok exact t → t_ok exact (t_step t (TBegin peer)).
Proof.
  intros [Hf Hn Hc]. split; cbn [t_step t_current t_next t_told t_held].
  - intros s p. rewrite lookup_insert_Some. intros [[<- <-]|[_ H]]; [lia|]. apply Hf in H. lia.
  - intros s p. rewrite lookup_insert_Some. intros [[<- <-]|[Hne H]]; [left; by rewrite lookup_insert_eq|].
    destruct (decide (p = peer)) as [->|Hp].
    + right. destruct (Hn _ _ H) as [E|E]; [rewrite E; set_solver|]. case_match; set_solver.
    + rewrite lookup_insert_ne by done. destruct (Hn _ _ H) as [E|E]; [by left|]. right. case_match; set_solver.
  - intros p s He. rewrite lookup_insert_Some. intros [[<- <-]|[Hne H]]; [by rewrite lookup_insert_eq|].
    apply Hc in H; [|done]. rewrite lookup_insert_ne; [done|]. intros <-. apply Hf in H. lia.
Qed.

Lemma t_release_ok exact t session : t_ok exact t → t_ok exact (t_step t (TRelease session)).
Proof.
  intros [Hf Hn Hc]. cbn [t_step]. destruct (t_held t !! session) as [peer|] eqn:Eh; [|done].
  split; cbn [t_current t_next t_told t_held].
  - intros s p [_ H]%lookup_delete_Some. eauto.
  - intros s p [Hne H]%lookup_delete_Some. destruct (Hn _ _ H) as [E|E]; [|by right]. left.
    split_if; [|done]. rewrite lookup_delete_ne; [done|]. intros <-. congruence.
  - intros p s He H.
    assert (t_current t !! p = Some s ∧ s ≠ session) as [H1 Hne].
    { destruct (bool_decide_reflect (t_current t !! peer = Some session)) as [Hb|Hb];
        [apply lookup_delete_Some in H as [Hne H]|]; (split; [done|]); intros ->;
        apply Hc in H as H'; congruence. }
    apply lookup_delete_Some. split; [done|]. eauto.
Qed.

Lemma t_forget_ok t session : t_ok false t → t_ok false (t_step t (TForget session)).
Proof.
  intros [Hf Hn Hc]. split; cbn [t_step t_current t_next t_told t_held]; [| |done].
  - intros s p [_ H]%lookup_delete_Some. eauto.
  - intros s p [_ H]%lookup_delete_Some. eauto.
Qed.

Lemma t_step_ok exact t op : (exact = true → forgets op = false) → t_ok exact t → t_ok exact (t_step t op).
Proof.
  intros H Hok. destruct op; [by apply t_begin_ok | by apply t_release_ok|].
  destruct exact; [by specialize (H eq_refl) | by apply t_forget_ok].
Qed.

(** ** The endpoint implements the table *)

Definition flight_slot (f : Flight) : option (NodeId * Z) :=
  match f with
  | FDial peer session _ | FShake peer session _ => Some (peer, session)
  | FAccept route (Some session) => Some (route, session)
  | FAccept _ None => None
  end.

(** [hand] is a slot the step under way has taken and not yet stored. *)
Record refines (hand : option (NodeId * Z)) (e : Endpoint) (t : Table) : Prop := {
  rf_slots : slots (ep_paths e) = (t_current t, t_next t, t_told t);
  rf_flight id f peer session :
    ep_flights e !! id = Some f → flight_slot f = Some (peer, session) → t_held t !! session = Some peer;
  rf_live session l : ep_live e !! session = Some l → t_held t !! session = Some (s_peer (lv_sess l));
  rf_hand peer session : hand = Some (peer, session) → t_held t !! session = Some peer;
  rf_held session peer : t_held t !! session = Some peer →
    (∃ id f, ep_flights e !! id = Some f ∧ flight_slot f = Some (peer, session)) ∨
    is_Some (ep_live e !! session) ∨ hand = Some (peer, session);
  rf_flights id id' f f' peer peer' session :
    ep_flights e !! id = Some f → ep_flights e !! id' = Some f' →
    flight_slot f = Some (peer, session) → flight_slot f' = Some (peer', session) → id = id';
  rf_flight_live id f peer session :
    ep_flights e !! id = Some f → flight_slot f = Some (peer, session) → ep_live e !! session = None;
  rf_hand_flight id f peer peer' session :
    hand = Some (peer, session) → ep_flights e !! id = Some f → flight_slot f = Some (peer', session) → False;
  rf_hand_live peer session : hand = Some (peer, session) → ep_live e !! session = None;
  rf_ids id f : ep_flights e !! id = Some f → id < ep_next_flight e;
  rf_fresh session peer : t_held t !! session = Some peer → session < t_next t;
}.

Section refinement.
Context `{C : Crypto, R : RdvCrypto, T : RawKeyTls, M : Mac, !HashIter SocketAddr Z}.

(** Steps that keep the flights, the sessions and the slots. *)
Lemma refines_same hand e e' t :
  slots (ep_paths e') = slots (ep_paths e) → ep_flights e' = ep_flights e → ep_live e' = ep_live e →
  ep_next_flight e' = ep_next_flight e → refines hand e t → refines hand e' t.
Proof. intros Hs Hf Hl Hn []. split; rewrite ?Hs, ?Hf, ?Hl, ?Hn; eauto. Qed.

Lemma refines_begin e t peer :
  refines None e t →
  refines (Some (peer, snd (begin_session (ep_paths e) peer)))
    (ep_set_paths e (fst (begin_session (ep_paths e) peer))) (t_step t (TBegin peer)).
Proof.
  intros []. rewrite begin_session_id. pose proof rf_slots0 as Hs. unfold slots in Hs. injection Hs as Hc Hn Ht.
  rewrite Hn. assert (Hnew : t_held t !! t_next t = None).
  { destruct (t_held t !! t_next t) as [p|] eqn:E; [|done]. apply rf_fresh0 in E. lia. }
  split; cbn [ep_set_paths ep_paths ep_flights ep_live ep_next_flight t_step t_current t_next t_told t_held].
  - rewrite begin_session_slots, Hc, Hn, Ht. done.
  - intros id f p s H1 H2. rewrite lookup_insert_ne; [eauto|]. intros <-. rewrite (rf_flight0 _ _ _ _ H1 H2) in Hnew. done.
  - intros s l H. rewrite lookup_insert_ne; [eauto|]. intros <-. rewrite (rf_live0 _ _ H) in Hnew. done.
  - intros p s [= <- <-]. apply lookup_insert_eq.
  - intros s p [[<- <-]|[Hne H]]%lookup_insert_Some; [auto|]. destruct (rf_held0 _ _ H) as [?|[?|?]]; auto. done.
  - eauto.
  - eauto.
  - intros id f p p' s [= <- <-] H1 H2. rewrite (rf_flight0 _ _ _ _ H1 H2) in Hnew. done.
  - intros p s [= <- <-]. apply eq_None_not_Some. intros [l H]. rewrite (rf_live0 _ _ H) in Hnew. done.
  - eauto.
  - intros s p [[<- <-]|[Hne H]]%lookup_insert_Some; [lia|]. apply rf_fresh0 in H. lia.
Qed.

Lemma refines_park e t peer session f :
  refines (Some (peer, session)) e t → flight_slot f = Some (peer, session) → refines None (fst (add_flight e f)) t.
Proof.
  intros [] Hf. assert (Hid : ep_flights e !! ep_next_flight e = None).
  { destruct (ep_flights e !! ep_next_flight e) eqn:E; [|done]. apply rf_ids0 in E. lia. }
  split; cbn [add_flight fst ep_set_flights ep_paths ep_flights ep_live ep_next_flight]; try done; try by eauto.
  - intros id g p s [[<- <-]|[Hne H]]%lookup_insert_Some Hg; [rewrite Hf in Hg; simplify_eq|]; eauto.
  - intros s p H. destruct (rf_held0 _ _ H) as [(id & g & H1 & H2)|[?|?]]; [|by auto|].
    + left. exists id, g. rewrite lookup_insert_ne; [done|]. intros <-. congruence.
    + simplify_eq. left. exists (ep_next_flight e), f. by rewrite lookup_insert_eq.
  - intros id id' g g' p p' s [[<- <-]|[Hne H]]%lookup_insert_Some [[<- <-]|[Hne' H']]%lookup_insert_Some Hg Hg';
      try done; try (exfalso; rewrite Hf in *; simplify_eq; eauto; fail). eauto.
  - intros id g p s [[<- <-]|[Hne H]]%lookup_insert_Some Hg; [rewrite Hf in Hg; simplify_eq|]; eauto.
  - intros id g [[<- <-]|[Hne H]]%lookup_insert_Some; [lia|]. apply rf_ids0 in H. lia.
Qed.

(** A flight with no slot in hand comes and goes freely. *)
Lemma refines_add_free e t f : flight_slot f = None → refines None e t → refines None (fst (add_flight e f)) t.
Proof.
  intros Hf []. split; cbn [add_flight fst ep_set_flights ep_paths ep_flights ep_live ep_next_flight]; try done; try by eauto.
  - intros id g p s [[<- <-]|[Hne H]]%lookup_insert_Some Hg; [congruence | eauto].
  - intros s p H. destruct (rf_held0 _ _ H) as [(id & g & H1 & H2)|[?|?]]; [| by auto | by auto].
    left. exists id, g. rewrite lookup_insert_ne; [done|]. intros <-. apply rf_ids0 in H1. lia.
  - intros id id' g g' p p' s [[<- <-]|[Hne H]]%lookup_insert_Some [[<- <-]|[Hne' H']]%lookup_insert_Some Hg Hg';
      try congruence. eauto.
  - intros id g p s [[<- <-]|[Hne H]]%lookup_insert_Some Hg; [congruence | eauto].
  - intros id g [[<- <-]|[Hne H]]%lookup_insert_Some; [lia|]. apply rf_ids0 in H. lia.
Qed.

(** A flight is taken out: its slot, if any, is in hand. *)
Lemma refines_take e t id f :
  refines None e t → ep_flights e !! id = Some f → refines (flight_slot f) (end_flight e id) t.
Proof.
  intros [] Hf. split; cbn [end_flight ep_set_flights ep_paths ep_flights ep_live ep_next_flight]; try done.
  - intros id' g p s [Hne H]%lookup_delete_Some. eauto.
  - eauto.
  - intros s p H. destruct (rf_held0 _ _ H) as [(id' & g & H1 & H2)|[?|?]]; [|by auto|done].
    destruct (decide (id' = id)) as [->|Hne]; [simplify_eq; auto|].
    left. exists id', g. by rewrite lookup_delete_ne.
  - intros id1 id2 g g' p p' s [_ H]%lookup_delete_Some [_ H']%lookup_delete_Some. eauto.
  - intros id' g p s [_ H]%lookup_delete_Some. eauto.
  - intros id' g p p' s Hs [Hne H]%lookup_delete_Some Hg. apply Hne. eauto.
  - intros p s Hs. eauto.
  - intros id' g [_ H]%lookup_delete_Some. eauto.
Qed.
Lemma refines_move e t id f f' :
  ep_flights e !! id = Some f → flight_slot f' = flight_slot f → refines None e t →
  refines None (move_flight e id f') t.
Proof.
  intros Hf Hs []. split; cbn [move_flight ep_set_flights ep_paths ep_flights ep_live ep_next_flight]; try done; try by eauto.
  - intros id' g p s [[<- <-]|[Hne H]]%lookup_insert_Some Hg; [rewrite Hs in Hg|]; eauto.
  - intros s p H. destruct (rf_held0 _ _ H) as [(id' & g & H1 & H2)|[?|?]]; [| by auto | by auto].
    left. destruct (decide (id' = id)) as [->|Hne].
    + exists id, f'. rewrite lookup_insert_eq. simplify_eq. by rewrite Hs.
    + exists id', g. by rewrite lookup_insert_ne.
  - intros id1 id2 g g' p p' s [[<- <-]|[Hne H]]%lookup_insert_Some [[<- <-]|[Hne' H']]%lookup_insert_Some Hg Hg';
      rewrite ?Hs in *; eauto.
  - intros id' g p s [[<- <-]|[Hne H]]%lookup_insert_Some Hg; [rewrite Hs in Hg|]; eauto.
  - intros id' g [[<- <-]|[Hne H]]%lookup_insert_Some; eauto.
Qed.

Lemma refines_establish e t i peer session allow kind conn material :
  refines (Some (peer, session)) e t → refines None (establish e i peer session allow kind conn material) t.
Proof.
  intros []. unfold establish.
  pose proof (session_start_slots (ep_paths e) (hi_view i) (hi_now i) (hi_now i) peer allow session material) as Hsl.
  pose proof (session_start_sess (ep_paths e) (hi_view i) (hi_now i) (hi_now i) peer allow session material) as (Hp & _ & _).
  destruct (session_start _ _ _ _ _ _ _ _) as [p s]. cbn [fst snd] in Hsl, Hp.
  split; cbn [ep_set_live ep_set_paths ep_paths ep_flights ep_live ep_next_flight]; try done; try by eauto.
  - by rewrite Hsl.
  - intros s' l [[<- <-]|[Hne H]]%lookup_insert_Some; [cbn [lv_sess]; rewrite Hp|]; eauto.
  - intros s' p' H. destruct (rf_held0 _ _ H) as [?|[?|?]]; [by auto | |].
    + right. left. by apply lookup_insert_is_Some'; right.
    + simplify_eq. right. left. rewrite lookup_insert_eq. eauto.
  - intros id f p' s' H Hf. apply lookup_insert_None. split; [eauto|]. intros <-. eauto.
Qed.

Lemma refines_release e t peer session :
  refines (Some (peer, session)) e t → refines None (release e peer session) (t_step t (TRelease session)).
Proof.
  intros []. pose proof (rf_hand0 _ _ eq_refl) as Hh. pose proof rf_slots0 as Hsl. unfold slots in Hsl.
  injection Hsl as Hc Hn Ht. cbn [t_step]. rewrite Hh. unfold release.
  split; cbn [ep_set_paths ep_paths ep_flights ep_live ep_next_flight t_current t_next t_told t_held]; try done; try by eauto.
  - unfold end_session, slots. rewrite Hc. by split_if; cbn [p_inner set_inner set_sessions in_sessions in_next_session in_notified]; rewrite ?Hc, ?Hn, ?Ht.
  - intros id f p s H1 H2. rewrite lookup_delete_ne; [eauto|]. intros <-. eauto.
  - intros s l H. rewrite lookup_delete_ne; [eauto|]. intros <-. rewrite (rf_hand_live0 _ _ eq_refl) in H. done.
  - intros s p [Hne H]%lookup_delete_Some. destruct (rf_held0 _ _ H) as [?|[?|?]]; auto. simplify_eq.
  - intros s p [_ H]%lookup_delete_Some. eauto.
Qed.

Lemma refines_forget e t peer session :
  refines (Some (peer, session)) e t → refines None e (t_step t (TForget session)).
Proof.
  intros []. split; cbn [t_step t_current t_next t_told t_held]; try done; try by eauto.
  - intros id f p s H1 H2. rewrite lookup_delete_ne; [eauto|]. intros <-. eauto.
  - intros s l H. rewrite lookup_delete_ne; [eauto|]. intros <-. rewrite (rf_hand_live0 _ _ eq_refl) in H. done.
  - intros s p [Hne H]%lookup_delete_Some. destruct (rf_held0 _ _ H) as [?|[?|?]]; auto. simplify_eq.
  - intros s p [_ H]%lookup_delete_Some. eauto.
Qed.

Lemma refines_take_live e t session l :
  refines None e t → ep_live e !! session = Some l →
  refines (Some (s_peer (lv_sess l), session)) (ep_set_live e (delete session (ep_live e))) t.
Proof.
  intros [] Hl. split; cbn [ep_set_live ep_paths ep_flights ep_live ep_next_flight]; try done; try by eauto.
  - intros s l' [_ H]%lookup_delete_Some. eauto.
  - intros p s [= <- <-]. eauto.
  - intros s p H. destruct (rf_held0 _ _ H) as [?|[[l' Hl']|?]]; [by auto | | done].
    destruct (decide (s = session)) as [->|Hne].
    + right. right. rewrite (rf_live0 _ _ Hl) in H. by simplify_eq.
    + right. left. exists l'. by rewrite lookup_delete_ne.
  - intros id f p s H1 H2. apply lookup_delete_None. eauto.
  - intros id f p p' s [= <- <-] H1 H2. rewrite (rf_flight_live0 _ _ _ _ H1 H2) in Hl. done.
  - intros p s [= <- <-]. apply lookup_delete_eq.
Qed.

Lemma refines_relive e t session l l' :
  refines None e t → ep_live e !! session = Some l → s_peer (lv_sess l') = s_peer (lv_sess l) →
  refines None (ep_set_live e (<[session := l']> (ep_live e))) t.
Proof.
  intros [] Hl Hs. split; cbn [ep_set_live ep_paths ep_flights ep_live ep_next_flight]; try done; try by eauto.
  - intros s k [[<- <-]|[Hne H]]%lookup_insert_Some; [rewrite Hs|]; eauto.
  - intros s p H. destruct (rf_held0 _ _ H) as [?|[?|?]]; [by auto | | by auto].
    right. left. by apply lookup_insert_is_Some'; right.
  - intros id f p s H1 H2. apply lookup_insert_None. split; [eauto|]. intros <-.
    rewrite (rf_flight_live0 _ _ _ _ H1 H2) in Hl. done.
Qed.
(** ** Simulation *)

(** Events in which no slot is given up without being freed: the TLS configuration of
    an attempt was accepted and its caller did not drop it, a connection that ended
    still had its driver. *)
Definition configured (ev : EEvent) : bool :=
  match ev with
  | EDialled _ i _ => hi_config i
  | EDropped _ => false
  | EIncoming _ _ config _ => config
  | EEnds _ driven => driven
  | _ => true
  end.

Definition simulates (exact : bool) (t : Table) (e : Endpoint) : Prop :=
  ∃ ops, refines None e (foldl t_step t ops) ∧ (exact = true → Forall (λ op, forgets op = false) ops).

Lemma sim_stay exact t e : refines None e t → simulates exact t e.
Proof. intros. by exists []. Qed.

Lemma sim_one exact t e op : forgets op = false → refines None e (t_step t op) → simulates exact t e.
Proof. intros. exists [op]. split; [done|]. by repeat constructor. Qed.

Lemma refines_paths hand e t p : slots p = slots (ep_paths e) → refines hand e t → refines hand (ep_set_paths e p) t.
Proof. intros. by apply (refines_same _ e). Qed.

Lemma refines_book hand e t b : refines hand e t → refines hand (ep_set_book e b) t.
Proof. by apply refines_same. Qed.

Lemma promote_same e book route secret now :
  let e' := fst (promote_pairing_route e book route secret now) in
  ep_paths e' = ep_paths e ∧ ep_flights e' = ep_flights e ∧ ep_live e' = ep_live e ∧ ep_next_flight e' = ep_next_flight e.
Proof. unfold promote_pairing_route. destruct secret; [|done]. by destruct (promote_pairing _ _ _ _ _). Qed.

Lemma refines_promote hand e t book route secret now :
  refines hand e t → refines hand (fst (promote_pairing_route e book route secret now)) t.
Proof. destruct (promote_same e book route secret now) as (Hp & Hf & Hl & Hn). apply refines_same; try done. by rewrite Hp. Qed.

(** A slot begun for [peer] and parked in a flight. *)
Lemma begin_park exact e t p peer f g :
  slots p = slots (ep_paths e) → (∀ p, slots (g p) = slots p) →
  (∀ session, flight_slot (f session) = Some (peer, session)) → refines None e t →
  simulates exact t (let '(p, session) := begin_session p peer in
                     fst (add_flight (ep_set_paths e (g p)) (f session))).
Proof.
  intros Hp Hg Hf Hr. apply (sim_one _ _ _ (TBegin peer)); [done|].
  pose proof (refines_begin _ _ peer (refines_paths _ _ _ _ Hp Hr)) as H. cbn [ep_set_paths ep_paths] in H.
  destruct (begin_session p peer) as [p2 session]. cbn [fst snd] in H.
  eapply refines_park; [|by apply Hf]. eapply refines_same, H; done || apply Hg.
Qed.

Lemma connect_begin_sim exact e t c driver :
  refines None e t → simulates exact t (fst (connect_begin e c driver)).
Proof.
  intros Hr. unfold connect_begin. split_if; [by apply sim_stay|]. split_if; [by apply sim_stay|].
  pose proof (begin_park exact e t (register_peer (ep_paths e) (card_node_id c)) (card_node_id c)
    (λ s, FDial (card_node_id c) s None) (λ p, set_peer_relays p (card_node_id c) driver)) as H.
  destruct (begin_session _ _) as [p session]. by apply H.
Qed.

Lemma connect_pairing_sim exact e t c reg belongs now now2 driver :
  refines None e t → simulates exact t (fst (connect_pairing_begin e c reg belongs now now2 driver)).
Proof.
  intros Hr. unfold connect_pairing_begin. split_if; [by apply sim_stay|]. destruct (ep_book e) as [book|]; [|by apply sim_stay].
  split_if; [by apply sim_stay|]. destruct (registration_active _ _ _ _) as [b1 a1].
  destruct a1; cbn [negb]; [|by apply sim_stay, refines_book]. split_if; [by apply sim_stay, refines_book|].
  destruct (pairing_active _ _ _) as [b2 a2]. destruct a2; cbn [negb]; [|by apply sim_stay, refines_book, refines_book].
  set (e2 := ep_set_book _ (Some b2)). set (route := pg_route reg). set (peer := card_node_id c).
  pose proof (begin_park exact e2 t (register_peer (register_peer (ep_paths e2) route) peer) peer
    (λ s, FDial peer s (Some route)) (λ p, copy_relay_route (set_peer_relays p route driver) route peer)) as H.
  destruct (begin_session _ _) as [p session]. apply H; try done. by apply refines_book, refines_book.
Qed.

Lemma connect_ready_sim exact e t id r :
  refines None e t → simulates exact t (fst (connect_ready e id r)).
Proof.
  intros Hr. unfold connect_ready. destruct (ep_flights e !! id) as [[peer session pairing| |]|] eqn:Ef;
    try by apply sim_stay. destruct r as [url|reason].
  - apply sim_stay. by eapply refines_move.
  - apply (sim_one _ _ _ (TRelease session)); [done|]. cbn [fst].
    change (end_flight (release e peer session) id) with (release (end_flight e id) peer session).
    apply refines_release. by apply (refines_take _ _ _ _ Hr Ef).
Qed.

Lemma connect_handshake_sim exact e t id i h :
  (exact = true → hi_config i = true) → refines None e t → simulates exact t (fst (connect_handshake e id i h)).
Proof.
  intros Hx Hr. unfold connect_handshake. destruct (ep_flights e !! id) as [[|peer session pairing|]|] eqn:Ef;
    try by apply sim_stay.
  pose proof (refines_take _ _ _ _ Hr Ef) as Ht. cbn [flight_slot] in Ht.
  assert (Hrel : simulates exact t (end_flight (release e peer session) id)).
  { apply (sim_one _ _ _ (TRelease session)); [done|]. by apply (refines_release (end_flight e id)). }
  destruct (hi_config i) eqn:Ec; cbn [negb].
  2:{ exists [TForget session]. split; [by eapply refines_forget|]. intros ->. by specialize (Hx eq_refl). }
  split_if; [done|]. destruct h as [err|conn secret material]; [done|]. split_if; [by apply sim_stay|].
  destruct pairing as [route|]; [|by apply sim_stay, refines_establish].
  destruct (ep_book e) as [book|]; [|by apply sim_stay].
  pose proof (refines_promote _ _ _ book route secret (hi_unix i) Ht) as Hp.
  destruct (promote_pairing_route _ _ _ _ _) as [e' r]. cbn [fst] in Hp. destruct r as [generation|reason].
  - by apply sim_stay, refines_establish.
  - apply (sim_one _ _ _ (TRelease session)); [done|]. by apply refines_release.
Qed.
Lemma connect_dropped_sim e t id : refines None e t → simulates false t (connect_dropped e id).
Proof.
  intros Hr. unfold connect_dropped. destruct (ep_flights e !! id) as [f|] eqn:Ef; [|by apply sim_stay].
  pose proof (refines_take _ _ _ _ Hr Ef) as Ht.
  destruct f as [peer session pairing|peer session pairing|]; [| |by apply sim_stay];
    exists [TForget session]; (split; [by eapply refines_forget | done]).
Qed.

Lemma accept_incoming_sim exact e t remote now config accepts :
  (exact = true → config = true) → refines None e t →
  simulates exact t (fst (accept_incoming e remote now config accepts)).
Proof.
  intros Hx Hr. unfold accept_incoming. destruct (peer_for_synthetic _ _) as [route|]; [|by apply sim_stay].
  set (bp := match ep_book e with Some book => _ | None => _ end). destruct bp as [book pairing].
  set (e1 := ep_set_book e book). assert (Hr1 : refines None e1 t) by by apply refines_book.
  destruct pairing.
  - destruct config; cbn [negb]; [|by apply sim_stay]. destruct accepts; cbn [negb]; [|by apply sim_stay].
    by apply sim_stay, refines_add_free.
  - pose proof (refines_begin _ _ route Hr1) as Hb. pose proof (begin_park exact e1 t (ep_paths e1) route
      (λ s, FAccept route (Some s)) id) as Hk.
    destruct (begin_session (ep_paths e1) route) as [p session]. cbn [fst snd] in Hb.
    destruct config; cbn [negb].
    2:{ exists [TBegin route; TForget session]. split; [by eapply refines_forget|]. intros ->. by specialize (Hx eq_refl). }
    destruct accepts; cbn [negb]; [by apply Hk|].
    exists [TBegin route; TRelease session]. split; [by apply refines_release | by repeat constructor].
Qed.

Lemma accept_handshake_sim exact e t id i h :
  refines None e t → simulates exact t (fst (accept_handshake e id i h)).
Proof.
  intros Hr. unfold accept_handshake. destruct (ep_flights e !! id) as [[| |route slot]|] eqn:Ef; try by apply sim_stay.
  pose proof (refines_take _ _ _ _ Hr Ef) as Ht.
  assert (Hrel : simulates exact t (release_slot (end_flight e id) route slot)).
  { destruct slot as [session|]; [|by apply sim_stay].
    apply (sim_one _ _ _ (TRelease session)); [done|]. by apply refines_release. }
  destruct h as [err|conn secret material].
  { replace (end_flight (release_slot e route slot) id) with (release_slot (end_flight e id) route slot); [done|].
    by destruct slot. }
  split_if; [by apply sim_stay|]. destruct (presented_node_id conn) as [[presented|]|]; try done.
  destruct slot as [session|].
  - destruct (bool_decide (presented = route)); cbn [negb]; [by apply sim_stay, refines_establish | done].
  - cbn [flight_slot] in Ht. split_if; [by apply sim_stay|].
    destruct (ep_book (end_flight e id)) as [book|]; [|by apply sim_stay].
    pose proof (refines_promote _ _ _ book route secret (hi_unix i) Ht) as Hp.
    destruct (promote_pairing_route _ _ _ _ _) as [e' r]. cbn [fst] in Hp.
    destruct r as [generation|reason]; [|by apply sim_stay].
    set (p1 := copy_relay_route _ _ _). assert (Hs : slots p1 = slots (ep_paths e')) by done.
    pose proof (refines_begin _ _ presented (refines_paths _ _ _ _ Hs Hp)) as Hb.
    cbn [ep_set_paths ep_paths] in Hb. destruct (begin_session p1 presented) as [p2 session]. cbn [fst snd] in Hb.
    apply (sim_one _ _ _ (TBegin presented)); [done|]. apply refines_establish. eapply refines_same, Hb; done.
Qed.

Lemma session_ends_sim exact e t session driven :
  (exact = true → driven = true) → refines None e t → simulates exact t (session_ends e session driven).
Proof.
  intros Hx Hr. unfold session_ends. destruct (ep_live e !! session) as [l|] eqn:El; [|by apply sim_stay].
  pose proof (refines_take_live _ _ _ _ Hr El) as Ht. destruct driven.
  - apply (sim_one _ _ _ (TRelease session)); [done|].
    eapply refines_same; [| | | |eapply refines_release, (refines_paths _ _ _ (forget_probe_key (ep_paths e) (lv_sess l))), Ht]; [done..|].
    apply forget_slots.
  - exists [TForget session]. split; [by eapply refines_forget|]. intros ->. by specialize (Hx eq_refl).
Qed.

Lemma stream_sim exact e t session : refines None e t → simulates exact t (fst (take_application_stream e session)).
Proof.
  intros Hr. unfold take_application_stream. apply sim_stay.
  destruct (ep_live e !! session) as [l|] eqn:El; [|done]. destruct (lv_kind l); [done|].
  by eapply refines_relive.
Qed.

Lemma ep_step_sim exact e t ev :
  (exact = true → configured ev = true) → refines None e t → simulates exact t (ep_step e ev).
Proof.
  intros Hx Hr. destruct ev; cbn [ep_step configured] in *;
    try (destruct exact; [by specialize (Hx eq_refl) | by apply connect_dropped_sim]);
    auto using connect_begin_sim, connect_pairing_sim, connect_ready_sim, connect_handshake_sim, accept_incoming_sim,
      accept_handshake_sim, session_ends_sim, stream_sim; apply sim_stay; try by apply refines_book.
  - by apply (refines_same _ e).
  - unfold register_pairing_secret. split_if; [done|]. destruct (ep_book e); [|done].
    destruct (register_pairing _ _ _ _) as [[b route]|]; [|done]. by apply refines_book.
  - split_if; [|done]. apply refines_paths; [|done]. by apply p_step_slots.
Qed.

(** An endpoint as [open] returns it holds nothing. *)
Definition idle (e : Endpoint) : Prop :=
  slots (ep_paths e) = (∅, 0, ∅) ∧ ep_flights e = ∅ ∧ ep_live e = ∅.

Lemma idle_refines e : idle e → refines None e Table_empty.
Proof. intros (Hs & Hf & Hl). split; rewrite ?Hf, ?Hl; try done; cbn [Table_empty t_held]; intros; simplify_map_eq. Qed.

Lemma open_idle browser c udp setup now nonce e :
  Endpoint_open browser c udp setup now nonce = Ok e → idle e.
Proof.
  unfold Endpoint_open. split_if; [done|]. intros (p & Hp & E)%result_bind_Ok.
  destruct setup; [|done]. injection E as <-. split; [|done]. cbn [ep_paths].
  assert (slots p = (∅, 0, ∅)) as H.
  { destruct browser; [apply result_bind_Ok in Hp as (u & _ & Hp) | destruct udp; [|done]]; by injection Hp as <-. }
  destruct (ec_reflector _); [|done]. unfold query_reflector. by split_if.
Qed.

Lemma ep_run_refines exact e es :
  idle e → (exact = true → Forall (λ ev, configured ev = true) es) →
  ∃ t, refines None (ep_run e es) t ∧ t_ok exact t ∧
       ∃ ops, t = foldl t_step Table_empty ops ∧ (exact = true → Forall (λ op, forgets op = false) ops).
Proof.
  intros Hi Hx. induction es as [|ev es IH] using rev_ind.
  { exists Table_empty. split; [by apply idle_refines|]. split; [apply t_empty_ok|]. by exists []. }
  destruct IH as (t & Hr & Hok & ops & -> & Hops). { intros E. by apply Hx, Forall_app in E as [? _]. }
  unfold ep_run in *. rewrite foldl_snoc.
  assert (Hev : exact = true → configured ev = true).
  { intros E. specialize (Hx E). apply Forall_app in Hx as [_ Hx]. by inversion Hx. }
  destruct (ep_step_sim exact _ _ ev Hev Hr) as (ops' & Hr' & Hops').
  eexists. split; [done|]. rewrite <- foldl_app. split.
  - assert (Hall : exact = true → Forall (λ op, forgets op = false) (ops ++ ops')) by (intros E; apply Forall_app; auto).
    clear -Hall. induction (ops ++ ops') as [|op l IH] using rev_ind; [apply t_empty_ok|]. rewrite foldl_snoc.
    apply t_step_ok; [intros E; apply Hall, Forall_app in E as [_ E]; by inversion E|].
    apply IH. intros E. by apply Hall, Forall_app in E as [? _].
  - exists (ops ++ ops'). split; [done|]. intros E. apply Forall_app; auto.
Qed.
End refinement.

(** ** Who a session is with *)

Section identity.
Context `{C : Crypto, R : RdvCrypto, T : RawKeyTls, M : Mac, !HashIter SocketAddr Z}.

Lemma finishes_spec v conn : finishes v conn = true ↔ ∃ n, verifier_allows v n ∧ authenticated n conn.
Proof. unfold finishes. destruct (handshake_spec v conn) as (ok & -> & H & _). done. Qed.

Lemma presented_authenticated n conn : authenticated n conn → presented_node_id conn = Ret (Some n).
Proof. destruct (handshake_spec RefusingClient conn) as (ok & _ & _ & H). apply H. Qed.

Definition live_ok (config : EndpointConfig) (session : Z) (l : Live) : Prop :=
  s_session_id (lv_sess l) = session ∧ authenticated (s_peer (lv_sess l)) (lv_conn l) ∧
  s_allow_direct (lv_sess l) = match lv_kind l with Pinned => ec_allow_direct config | Provisional _ _ _ => false end.

Definition lives_ok (e : Endpoint) : Prop := map_Forall (live_ok (ep_config e)) (ep_live e).

Lemma lives_same e e' : ep_live e' = ep_live e → ep_config e' = ep_config e → lives_ok e → lives_ok e'.
Proof. unfold lives_ok. by intros -> ->. Qed.

Lemma promote_keeps e book route secret now :
  let e' := fst (promote_pairing_route e book route secret now) in
  ep_live e' = ep_live e ∧ ep_config e' = ep_config e.
Proof. unfold promote_pairing_route. destruct secret; [|done]. by destruct (promote_pairing _ _ _ _ _). Qed.

Lemma establish_lives e i peer session allow kind conn material :
  lives_ok e → authenticated peer conn →
  allow = match kind with Pinned => ec_allow_direct (ep_config e) | Provisional _ _ _ => false end →
  lives_ok (establish e i peer session allow kind conn material).
Proof.
  intros Hok Ha Hal. unfold establish.
  pose proof (session_start_sess (ep_paths e) (hi_view i) (hi_now i) (hi_now i) peer allow session material) as (Hp & Hd & Hs).
  destruct (session_start _ _ _ _ _ _ _ _) as [p s]. cbn [snd] in *.
  apply map_Forall_insert_2; [|done]. unfold live_ok. cbn [lv_sess lv_conn lv_kind]. by rewrite Hp, Hs, Hd.
Qed.

Lemma connect_handshake_lives e id i h : lives_ok e → lives_ok (fst (connect_handshake e id i h)).
Proof.
  intros Hok. unfold connect_handshake. destruct (ep_flights e !! id) as [[|peer session pairing|]|]; try done.
  split_if; [done|]. split_if; [done|]. destruct h as [|conn secret material]; [done|].
  destruct (finishes (PinnedServer peer) conn) eqn:Ef; [|done]. cbn [negb].
  apply finishes_spec in Ef as (n & -> & Ha). destruct pairing as [route|]; [|by apply establish_lives].
  destruct (ep_book e) as [book|]; [|done].
  destruct (promote_keeps (end_flight e id) book route secret (hi_unix i)) as [Hl Hc].
  destruct (promote_pairing_route _ _ _ _ _) as [e' r]. cbn [fst] in Hl, Hc.
  assert (Hok' : lives_ok e') by (by eapply lives_same).
  destruct r; [by apply establish_lives | by eapply lives_same, Hok'].
Qed.

Lemma accept_handshake_lives e id i h : lives_ok e → lives_ok (fst (accept_handshake e id i h)).
Proof.
  intros Hok. unfold accept_handshake. destruct (ep_flights e !! id) as [[| |route slot]|]; try done.
  destruct h as [|conn secret material]; [by destruct slot|].
  destruct (finishes (accept_verifier route slot) conn) eqn:Ef; [|done]. cbn [negb].
  apply finishes_spec in Ef as (n & Hn & Ha). rewrite (presented_authenticated _ _ Ha).
  destruct slot as [session|]; cbn [accept_verifier verifier_allows] in Hn.
  - subst n. rewrite bool_decide_true by done. by apply establish_lives.
  - split_if; [done|]. destruct (ep_book _) as [book|]; [|done].
    destruct (promote_keeps (end_flight e id) book route secret (hi_unix i)) as [Hl Hc].
    destruct (promote_pairing_route _ _ _ _ _) as [e' r]. cbn [fst] in Hl, Hc.
    assert (Hok' : lives_ok e') by (by eapply lives_same). destruct r; [|done].
    destruct (begin_session _ _) as [p session]. by apply establish_lives.
Qed.

Lemma ep_step_lives e ev : lives_ok e → lives_ok (ep_step e ev).
Proof.
  intros Hok. destruct ev; cbn [ep_step]; auto using connect_handshake_lives, accept_handshake_lives.
  - unfold connect_begin. split_if; [done|]. split_if; [done|]. by destruct (begin_session _ _).
  - unfold connect_pairing_begin. split_if; [done|]. destruct (ep_book e); [|done]. split_if; [done|].
    destruct (registration_active _ _ _ _) as [b []]; cbn [negb]; [|done]. split_if; [done|].
    destruct (pairing_active _ _ _) as [b2 []]; cbn [negb]; [|done]. by destruct (begin_session _ _).
  - unfold connect_ready. destruct (ep_flights e !! id) as [[]|]; try done. by destruct r.
  - unfold connect_dropped. by destruct (ep_flights e !! id) as [[]|].
  - unfold accept_incoming. destruct (peer_for_synthetic _ _); [|done].
    destruct (match ep_book e with Some book => _ | None => _ end) as [book []].
    + by destruct config, accepts.
    + destruct (begin_session _ _). by destruct config, accepts.
  - unfold take_application_stream. destruct (ep_live e !! session) as [l|] eqn:El; [|done].
    destruct (lv_kind l) eqn:Ek; [done|]. apply map_Forall_insert_2; [|done].
    apply Hok in El as (H1 & H2 & H3). rewrite Ek in H3. done.
  - unfold session_ends. destruct (ep_live e !! session); [|done]. destruct driven; by apply map_Forall_delete.
  - unfold register_pairing_secret. split_if; [done|]. destruct (ep_book e); [|done].
    by destruct (register_pairing _ _ _ _) as [[]|].
  - by split_if.
Qed.

Lemma ep_run_lives e es : idle e → lives_ok (ep_run e es).
Proof.
  intros (_ & _ & Hl). apply ep_run_ind; [|apply ep_step_lives]. unfold lives_ok. rewrite Hl. apply map_Forall_empty.
Qed.

Lemma promote_admission e book route secret now e' g :
  promote_pairing_route e book route secret now = (e', Ok g) →
  is_Some (tb_pairing (prune_expired book now) !! route ≫= pr_admission).
Proof.
  unfold promote_pairing_route, promote_pairing. destruct secret; [|done].
  destruct (tb_pairing (prune_expired book now) !! route) as [r|]; cbn; [|done].
  destruct (pr_admission r); [eauto | done].
Qed.

(** A pairing session is accepted only on a route whose admission has not expired,
    from a node other than this one, with its application stream unused. *)
Lemma pairing_needs_admission e id i h e' s l route g u :
  accept_handshake e id i h = (e', Some (Ok s)) → ep_live e' !! s = Some l → lv_kind l = Provisional route g u →
  u = false ∧ ∃ n book, s_peer (lv_sess l) = n ∧ n ≠ ep_node_id e ∧ ep_book e = Some book ∧
    is_Some (tb_pairing (prune_expired book (hi_unix i)) !! route ≫= pr_admission).
Proof.
  unfold accept_handshake. destruct (ep_flights e !! id) as [[| |route' slot]|]; try done.
  destruct h as [|conn secret material]; [done|]. split_if; [done|].
  destruct (presented_node_id conn) as [[n|]|]; try done. destruct slot as [session|].
  - destruct (bool_decide (n = route')); [|done]. cbn [negb]. intros [= <- <-]. unfold establish.
    destruct (session_start _ _ _ _ _ _ _ _) as [p ss]. cbn [ep_set_live ep_live]. rewrite lookup_insert_eq. by intros [= <-].
  - destruct (bool_decide_reflect (n = ep_node_id (end_flight e id))) as [|Hn]; [done|].
    destruct (ep_book (end_flight e id)) as [book|] eqn:Eb; [|done].
    destruct (promote_pairing_route _ _ _ _ _) as [e1 r] eqn:Ep. destruct r as [g'|]; [|done].
    destruct (begin_session _ _) as [p session]. intros [= <- <-]. unfold establish.
    pose proof (session_start_sess (ep_paths (ep_set_paths e1 p)) (hi_view i) (hi_now i) (hi_now i) n false session material) as (Hp & _ & _).
    destruct (session_start _ _ _ _ _ _ _ _) as [p' ss]. cbn [ep_set_live ep_live snd] in *. rewrite lookup_insert_eq.
    intros [= <-] Hk. cbn [lv_kind lv_sess] in *. injection Hk as <- <- <-. split; [done|].
    exists n, book. split_and!; try done. by eapply promote_admission.
Qed.
End identity.

(** ** Cards *)

Section cards.
Context `{C : Crypto, R : RdvCrypto, T : RawKeyTls, M : Mac, !HashIter SocketAddr Z}.

(** A hint that is well formed and short enough for sixteen to fit a card. *)
Definition MAX_SAFE_HINT : nat := 245.
Definition Hint_fits (h : Hint) : Prop := Hint_ok h ∧ (length (h_value h) ≤ MAX_SAFE_HINT)%nat.
Definition relay_fits (r : RelaySpec) : Prop := (1 ≤ length (spec_url r) ≤ MAX_SAFE_HINT)%nat.

Lemma Hint_relay_fits r : relay_fits r → Hint_fits (Hint_relay (spec_url r)).
Proof.
  intros H. unfold relay_fits, MAX_SAFE_HINT in H. unfold Hint_fits, MAX_SAFE_HINT. split; [|cbn [Hint_relay h_value]; lia].
  split; cbn [Hint_relay h_kind h_value]; try done; unfold MAX_RELAY_HINT_BYTES; lia.
Qed.

Lemma Hint_udp_fits a : Hint_fits (Hint_udp a).
Proof.
  assert (Hl : length (h_value (Hint_udp a)) = 18%nat) by (cbn [Hint_udp h_value]; rewrite length_app, bytes_of_length, to_be_length; done).
  unfold Hint_fits, MAX_SAFE_HINT. rewrite Hl. split; [|lia]. split; rewrite ?Hl; try done; lia.
Qed.

Lemma own_hints_fit e local :
  Forall relay_fits (ec_relays (ep_config e)) →
  Forall (λ h, Hint_fits h ∧ h_kind h ≠ HINT_EPHEMERAL) (card_own_hints e local).
Proof.
  intros H. unfold card_own_hints. apply Forall_app. split.
  - rewrite Forall_fmap. eapply Forall_impl; [done|]. intros r Hr. split; [by apply Hint_relay_fits | done].
  - split_if; [|constructor]. rewrite Forall_fmap. apply Forall_true. intros a. split; [apply Hint_udp_fits | done].
Qed.

Lemma ephemeral_count_app l k : ephemeral_count (l ++ k) = (ephemeral_count l + ephemeral_count k)%nat.
Proof. unfold ephemeral_count. by rewrite filter_app, length_app. Qed.

Lemma ephemeral_count_none l : Forall (λ h, h_kind h ≠ HINT_EPHEMERAL) l → ephemeral_count l = 0%nat.
Proof.
  induction 1 as [|h l Hh _ IH]; [done|]. unfold ephemeral_count in *. by rewrite filter_cons_False.
Qed.

Lemma hints_size l n :
  Forall Hint_fits l → (length l ≤ n)%nat → (sum_list (Hint_encoded_len <$> l) ≤ n * (3 + MAX_SAFE_HINT))%nat.
Proof.
  intros H. revert n. induction H as [|h l [_ Hh] _ IH]; intros n Hn; [simpl; lia|].
  destruct n as [|n]; [simpl in Hn; lia|]. cbn [fmap list_fmap sum_list]. specialize (IH n).
  unfold Hint_encoded_len at 1. cbn [length] in Hn. change (sum_list (?a :: ?b)) with (a + sum_list b)%nat.
  assert (Hn2 : (length l ≤ n)%nat) by lia. specialize (IH Hn2). unfold MAX_SAFE_HINT, id in *. lia.
Qed.

Lemma card_hints_fit e local extra :
  Forall relay_fits (ec_relays (ep_config e)) → Forall Hint_fits extra → (ephemeral_count extra ≤ 1)%nat →
  (length extra ≤ MAX_HINTS)%nat → card_hints_ok (card_all_hints e local extra).
Proof.
  intros Hr He Hc Hl. unfold card_all_hints. rewrite (take_ge extra) by lia.
  pose proof (own_hints_fit e local Hr) as Ho. set (own := take _ (card_own_hints e local)).
  assert (Hown : Forall (λ h, Hint_fits h ∧ h_kind h ≠ HINT_EPHEMERAL) own) by by apply Forall_take.
  assert (Hlen : (length (own ++ extra) ≤ MAX_HINTS)%nat) by (subst own; rewrite length_app, length_take; lia).
  assert (Hall : Forall Hint_fits (own ++ extra)).
  { apply Forall_app. split; [|done]. eapply Forall_impl; [done|]. by intros h []. }
  split; [done | | |].
  - eapply Forall_impl; [done|]. by intros h [].
  - rewrite ephemeral_count_app, ephemeral_count_none; [done|]. eapply Forall_impl; [done|]. by intros h [].
  - pose proof (hints_size _ _ Hall Hlen) as H. unfold MAX_HINTS, MAX_SAFE_HINT, MAX_CARD_BYTES, MIN_CARD_BYTES in *. lia.
Qed.

(** C33: a card the endpoint signs verifies.  With relay URLs of 1 to 245 bytes
    and at most sixteen well-formed extra hints of at most 245 bytes, one of them
    ephemeral at most, the card passes the verifier of anyone whose clock is inside its
    window (no more than the allowed skew before it was signed, and before it expires),
    who has not yet seen a serial as high as the card's, and who expects this node or
    nobody in particular; it comes back as it was signed, carries every extra hint, and
    names UDP addresses of its own only with the owner's consent to direct paths.  The
    clock at signing is at least the longest lifetime, a week, below the end of the
    [u64] range. *)
Theorem endpoint_card_verifies `{!CryptoLaws C} e now ttl extra local ctx
  (Hk : TransportKey_wf (ec_key (ep_config e)))
  (Hnow : 0 <= now < 2 ^ 64 - MAX_LIFETIME_SECONDS) (Hserial : 0 <= ep_serial e <= u64_max)
  (Hr : Forall relay_fits (ec_relays (ep_config e))) (He : Forall Hint_fits extra)
  (Hc : (ephemeral_count extra ≤ 1)%nat) (Hl : (length extra ≤ MAX_HINTS)%nat)
  (Hskew : now <= sat_add64 (ctx_now ctx) CLOCK_SKEW_SECONDS)
  (Hfresh : ctx_now ctx < now + Z.max 1 (Z.min ttl MAX_LIFETIME_SECONDS))
  (Hser : ctx_highest_seen_serial ctx < card_serial (snd (card e now ttl extra local)))
  (Hexp : ∀ n, ctx_expected_node_id ctx = Some n → n = ep_node_id e) :
  let c := snd (card e now ttl extra local) in
  Card_verify (Card_as_bytes c) ctx = Ret (Ok c) ∧ extra ⊆ card_hints c ∧
  (ec_allow_direct (ep_config e) = false → ∀ h, h ∈ card_hints c → h_kind h = HINT_UDP → h ∈ extra).
Proof.
  cbn [card snd]. cbn [card snd Card_sign card_serial] in Hser. unfold MAX_LIFETIME_SECONDS, u64_max in *.
  rewrite (Z.mod_small (now + _)) by lia. split.
  - apply sign_verify_card; try done; try by apply card_hints_fit.
    all: unfold u64, sat_add64, u64_max, MAX_LIFETIME_SECONDS; lia.
  - cbn [Card_sign card_hints]. unfold card_all_hints. rewrite (take_ge extra) by lia. split; [set_solver|].
    unfold card_own_hints. intros -> h [H|H]%elem_of_app Hk2; [|done].
    rewrite app_nil_r in H. apply elem_of_take in H as (i & H & _). apply list_elem_of_lookup_2 in H.
    apply list_elem_of_fmap in H as (r & -> & _). done.
Qed.

(** ** Serials *)

(** The clock reads of signed cards are [u64]. *)
Definition clocked (ev : EEvent) : Prop := match ev with ECard now _ _ _ => u64 now | _ => True end.

Lemma ep_step_serial e ev :
  clocked ev → 0 <= ep_serial e <= u64_max → ep_serial e <= ep_serial (ep_step e ev) <= u64_max.
Proof.
  intros Hc Hs. destruct ev; cbn [ep_step]; try (cbn [ep_set_book ep_serial expire_registration pairing_cleanup]; lia).
  - unfold connect_begin. split_if; [simpl; lia|]. split_if; [simpl; lia|]. destruct (begin_session _ _). simpl. lia.
  - unfold connect_pairing_begin. split_if; [simpl; lia|]. destruct (ep_book e); [|simpl; lia]. split_if; [simpl; lia|].
    destruct (registration_active _ _ _ _) as [b []]; cbn [negb]; [|simpl; lia]. split_if; [simpl; lia|].
    destruct (pairing_active _ _ _) as [b2 []]; cbn [negb]; [|simpl; lia]. destruct (begin_session _ _). simpl. lia.
  - unfold connect_ready. destruct (ep_flights e !! id) as [[]|]; try (simpl; lia). destruct r; simpl; lia.
  - assert (ep_serial (fst (connect_handshake e id i h)) = ep_serial e) as ->; [|lia].
    unfold connect_handshake, establish, promote_pairing_route. by repeat (case_match; simplify_eq/=; try done).
  - unfold connect_dropped. destruct (ep_flights e !! id) as [[]|]; simpl; lia.
  - unfold accept_incoming. destruct (peer_for_synthetic _ _); [|simpl; lia].
    destruct (match ep_book e with Some book => _ | None => _ end) as [book []].
    + destruct config, accepts; simpl; lia.
    + destruct (begin_session _ _). destruct config, accepts; simpl; lia.
  - assert (ep_serial (fst (accept_handshake e id i h)) = ep_serial e) as ->; [|lia].
    unfold accept_handshake, release_slot, establish, promote_pairing_route. by repeat (case_match; simplify_eq/=; try done).
  - unfold take_application_stream. repeat case_match; simpl; lia.
  - unfold session_ends. case_match; [destruct driven|]; simpl; lia.
  - cbn [card fst ep_set_serial ep_serial]. unfold clocked, u64 in Hc. unfold sat_add64, u64_max in *. lia.
  - unfold register_pairing_secret. split_if; [lia|]. destruct (ep_book e); [|lia].
    destruct (register_pairing _ _ _ _) as [[]|]; simpl; lia.
  - split_if; simpl; lia.
Qed.
End cards.

(** ** Claims over histories *)

Section claims.
Context `{C : Crypto, R : RdvCrypto, T : RawKeyTls, M : Mac, !HashIter SocketAddr Z}.

Lemma ep_run_serial e es :
  Forall clocked es → 0 <= ep_serial e <= u64_max → ep_serial e <= ep_serial (ep_run e es) <= u64_max.
Proof.
  revert e. induction es as [|ev es IH]; intros e Hc Hs; [simpl; lia|]. apply Forall_cons in Hc as [Hev Hc].
  pose proof (ep_step_serial e ev Hev Hs) as H. cbn [ep_run foldl] in *. specialize (IH (ep_step e ev) Hc). unfold ep_run in IH. lia.
Qed.

Lemma open_serial browser c udp setup now nonce e :
  Endpoint_open browser c udp setup now nonce = Ok e → ep_serial e = Z.max (default 0 (ec_serial_seed c)) now.
Proof.
  unfold Endpoint_open. split_if; [done|]. intros (p & _ & E)%result_bind_Ok. destruct setup; [|done].
  injection E as <-. cbn [ep_serial]. unfold ec_take_material. by split_if.
Qed.

(** Card serials only rise.  Whatever the clock does and whatever else the
    endpoint does in between, a card signed later has a higher serial than one
    signed earlier, and the first is above the high-water mark the endpoint was
    opened with, so a restart that persisted the last serial never reuses one;
    this holds up to the last [u64], where the serial stays. *)
Theorem card_serials_increase browser cfg udp setup now0 nonce e es es' now1 ttl1 extra1 local1 now2 ttl2 extra2 local2
  (Hopen : Endpoint_open browser cfg udp setup now0 nonce = Ok e)
  (Hseed : 0 <= default 0 (ec_serial_seed cfg) <= u64_max) (Hnow : u64 now0 ∧ u64 now1 ∧ u64 now2)
  (Hes : Forall clocked es) (Hes' : Forall clocked es') :
  let '(e1, c1) := card (ep_run e es) now1 ttl1 extra1 local1 in
  let '(_, c2) := card (ep_run e1 es') now2 ttl2 extra2 local2 in
  now1 <= card_serial c1 ∧ now2 <= card_serial c2 <= u64_max ∧
  (ep_serial (ep_run e1 es') < u64_max →
   default 0 (ec_serial_seed cfg) < card_serial c1 ∧ card_serial c1 < card_serial c2).
Proof.
  apply open_serial in Hopen. destruct Hnow as (H0 & H1 & H2). unfold u64 in H0, H1, H2.
  assert (Hs : 0 <= ep_serial e <= u64_max) by (unfold u64_max in *; lia).
  pose proof (ep_run_serial e es Hes Hs) as Hs1. cbn [card].
  set (s1 := Z.max (sat_add64 (ep_serial (ep_run e es)) 1) now1).
  assert (Hs2 : 0 <= s1 <= u64_max) by (subst s1; unfold sat_add64, u64_max in *; lia).
  pose proof (ep_run_serial (ep_set_serial (ep_run e es) s1) es' Hes') as Hs3. cbn [ep_serial ep_set_serial] in Hs3.
  specialize (Hs3 Hs2). cbn [Card_sign card_serial]. fold s1. subst s1. unfold sat_add64, u64_max in *. lia.
Qed.


(** A session or an attempt under way that has the slot [session] of [peer]. *)
Definition holds (e : Endpoint) (peer : NodeId) (session : Z) : Prop :=
  (∃ id f, ep_flights e !! id = Some f ∧ flight_slot f = Some (peer, session)) ∨
  (∃ l, ep_live e !! session = Some l ∧ s_peer (lv_sess l) = peer).

Lemma refines_holds e t peer session : refines None e t → holds e peer session ↔ t_held t !! session = Some peer.
Proof.
  intros []. unfold holds. split.
  - intros [(id & f & H1 & H2)|(l & Hl & <-)]; eauto.
  - intros H. destruct (rf_held0 _ _ H) as [?|[[l Hl]|?]]; [by left | | done]. right. exists l. split; [done|].
    apply rf_live0 in Hl. congruence.
Qed.

(** One session per peer, the newest.  In every reachable state, whoever
    holds a slot is its peer's current holder or has been signalled that it was
    superseded, so that two unsignalled sessions with one peer are the same
    session; and while no TLS configuration is refused, no caller drops its dial and
    no session outlives its driver, every slot of the path socket is held, so none is
    stranded by a failed dial or handshake. *)
Theorem one_session_per_peer browser cfg udp setup now nonce e0 es
  (Hopen : Endpoint_open browser cfg udp setup now nonce = Ok e0) :
  let e := ep_run e0 es in let i := p_inner (ep_paths e) in
  (∀ peer s, holds e peer s → in_sessions i !! peer = Some s ∨ s ∈ in_notified i) ∧
  (∀ peer s s', holds e peer s → holds e peer s' → s ∉ in_notified i → s' ∉ in_notified i → s = s') ∧
  (Forall (λ ev, configured ev = true) es → ∀ peer s, in_sessions i !! peer = Some s → holds e peer s).
Proof.
  intros e i. apply open_idle in Hopen.
  assert (Hn : ∀ peer s, holds e peer s → in_sessions i !! peer = Some s ∨ s ∈ in_notified i).
  { destruct (ep_run_refines false e0 es Hopen) as (t & Hr & Hok & _); [done|]. intros peer s H.
    apply (refines_holds _ _ _ _ Hr), (to_newest _ _ Hok) in H.
    pose proof (rf_slots _ _ _ Hr) as Hs. unfold slots in Hs. injection Hs as Hc _ Ht. subst i e. by rewrite Hc, Ht. }
  split; [done|]. split.
  - intros peer s s' H1 H2 N1 N2. apply Hn in H1 as [H1|?]; [|done]. apply Hn in H2 as [H2|?]; [|done]. congruence.
  - intros Hcfg peer s H. destruct (ep_run_refines true e0 es Hopen) as (t & Hr & Hok & _); [done|].
    apply (refines_holds _ _ _ _ Hr), (to_current _ _ Hok); [done|].
    pose proof (rf_slots _ _ _ Hr) as Hs. unfold slots in Hs. injection Hs as Hc _ _. subst i e. by rewrite <- Hc.
Qed.

(** C5: a session is with the node it says.  In every reachable state the
    connection behind a session presented the raw key of the session's peer and
    signed the handshake with it, whether it was dialled, accepted or paired, and the
    session has the id it is filed under.  A pairing session is set up with its
    [allow_direct] off, so that its driver announces no candidates and starts no
    probes; what the path socket does with a peer that probes all the same is
    [Session.declined_direct_is_taken]. *)
Theorem session_identity browser cfg udp setup now nonce e0 es session l
  (Hopen : Endpoint_open browser cfg udp setup now nonce = Ok e0)
  (Hl : ep_live (ep_run e0 es) !! session = Some l) :
  s_session_id (lv_sess l) = session ∧ authenticated (s_peer (lv_sess l)) (lv_conn l) ∧
  (∀ route generation used, lv_kind l = Provisional route generation used → s_allow_direct (lv_sess l) = false).
Proof.
  apply open_idle in Hopen. apply (ep_run_lives _ es) in Hopen. apply Hopen in Hl as (H1 & H2 & H3).
  split; [done|]. split; [done|]. intros route g u Hk. by rewrite Hk in H3.
Qed.
End claims.

(** ** Concrete histories *)

#[local] Existing Instances toy_crypto toy_rdv toy_mac toy_crypto_laws.
#[local] Instance demo_order : HashIter SocketAddr Z := map_order SocketAddr Z.
Definition toy_tls : RawKeyTls := {| raw_verify _ _ _ := true |}.
#[local] Existing Instance toy_tls.

Definition demo_key : TransportKey := TransportKey_from_seed (pad_array 32 (lit "box")).
Definition demo_peer_key : TransportKey := TransportKey_from_seed (pad_array 32 (lit "phone")).
Definition demo_peer : NodeId := tk_node_id demo_peer_key.
Definition demo_relay : RelaySpec := RelaySpec_plain (lit "wss://relay.example").

Definition demo_config : EndpointConfig :=
  mkEndpointConfig demo_key (Some 41) [demo_relay] true (mkSocketAddr (V4 (pad_array 4 [])) 0) None 0 0 (secs 30) None None.
Definition demo_udp : SocketAddr := mkSocketAddr (V4 (pad_array 4 [Byte.x0a])) 4433.
Definition demo_endpoint : Endpoint :=
  mkEndpoint demo_config (Paths_assemble demo_key (Some demo_udp) None) 41 None 1 ∅ 0 ∅.

Lemma demo_open : Endpoint_open false demo_config (Some demo_udp) true 7 (pad_array 16 []) = Ok demo_endpoint.
Proof. reflexivity. Qed.

Definition demo_card : Card := Card_sign demo_peer_key 5 500 1 [Hint_relay (lit "wss://relay.example")].
Definition demo_view : RelayView := mkRelayView (λ _, true) 0 (λ _, Up (lit "wss://relay.example")).
Definition demo_in (config : bool) : HsIn := mkHsIn demo_view 9 9 config true.
Definition demo_conn : Presented :=
  mkPresented [NodeId_spki_der demo_peer] (lit "transcript") (mkDss ED25519 (lit "signature")).
Definition demo_done : Handshake := HsDone demo_conn None None.

(** Dial the peer, then accept a connection from it: the second takes over. *)
Definition demo_history : list EEvent :=
  [ EConnect demo_card 0; EReady 0 (Ok (lit "wss://relay.example")); EDialled 0 (demo_in true) demo_done;
    EIncoming (NodeId_synthetic_addr demo_peer) 9 true true; EAccepted 1 (demo_in true) demo_done ].

Lemma demo_both_live :
  (λ l, (s_peer (lv_sess l), s_session_id (lv_sess l))) <$> ep_live (ep_run demo_endpoint demo_history) =
  {[ 0 := (demo_peer, 0); 1 := (demo_peer, 1) ]}.
Proof. vm_compute. reflexivity. Qed.


Lemma one_session_per_peer_witness :
  let i := p_inner (ep_paths (ep_run demo_endpoint demo_history)) in
  in_sessions i !! demo_peer = Some 1 ∧ 0 ∈ in_notified i ∧
  (Forall (λ ev, configured ev = true) demo_history →
   ∀ peer s, in_sessions i !! peer = Some s → holds (ep_run demo_endpoint demo_history) peer s).
Proof.
  split; [vm_compute; reflexivity|]. split; [apply (bool_decide_unpack _); vm_compute; exact I|].
  exact (proj2 (proj2 (one_session_per_peer _ _ _ _ _ _ _ demo_history demo_open))).
Defined.

Lemma session_identity_witness :
  ∃ l, ep_live (ep_run demo_endpoint demo_history) !! 1 = Some l ∧ authenticated (s_peer (lv_sess l)) (lv_conn l).
Proof.
  eexists. split; [vm_compute; reflexivity|].
  eapply (session_identity _ _ _ _ _ _ _ demo_history 1 _ demo_open). vm_compute. reflexivity.
Defined.

Lemma card_serials_increase_witness :
  let c1 := snd (card demo_endpoint 1000 60 [] []) in
  let c2 := snd (card (fst (card demo_endpoint 1000 60 [] [])) 3 60 [] []) in
  41 < card_serial c1 ∧ card_serial c1 < card_serial c2.
Proof.
  assert (u64 7 ∧ u64 1000 ∧ u64 3) as Hn by (repeat split; vm_compute; congruence).
  assert (0 <= default 0 (ec_serial_seed demo_config) <= u64_max) as Hs by (split; vm_compute; congruence).
  pose proof (card_serials_increase _ _ _ _ _ _ _ [] [] 1000 60 [] [] 3 60 [] [] demo_open Hs Hn
    (Forall_nil_2 _) (Forall_nil_2 _)) as H.
  apply H. vm_compute. reflexivity.
Defined.

Definition demo_ctx : VerifyContext := VerifyContext_expecting (VerifyContext_new 1010) (tk_node_id demo_key).

Lemma endpoint_card_verifies_witness :
  let c := snd (card demo_endpoint 1000 60 [] [V4 (pad_array 4 [Byte.x0a])]) in
  Card_verify (Card_as_bytes c) demo_ctx = Ret (Ok c).
Proof.
  refine (proj1 (endpoint_card_verifies demo_endpoint 1000 60 [] [V4 (pad_array 4 [Byte.x0a])] demo_ctx _ _ _ _ _ _ _ _ _ _ _)).
  - reflexivity.
  - split; vm_compute; congruence.
  - split; vm_compute; congruence.
  - repeat constructor; vm_compute; lia.
  - constructor.
  - vm_compute. lia.
  - vm_compute. lia.
  - vm_compute. congruence.
  - vm_compute. reflexivity.
  - vm_compute. reflexivity.
  - intros n [= <-]. reflexivity.
Defined.

(** A refused TLS configuration leaves the slot taken with no one to free it. *)
Lemma refused_configuration_strands_slot :
  let e := ep_run demo_endpoint [EConnect demo_card 0; EReady 0 (Ok []); EDialled 0 (demo_in false) demo_done] in
  in_sessions (p_inner (ep_paths e)) !! demo_peer = Some 0 ∧ ep_flights e = ∅ ∧ ep_live e = ∅.
Proof. split_and!; vm_compute; reflexivity. Qed.

(** Sixteen relay URLs of the longest allowed length make a card no one accepts. *)
Definition demo_long : Endpoint :=
  mkEndpoint (mkEndpointConfig demo_key None
    (replicate 16 (RelaySpec_plain (lit "wss://" ++ replicate 249 Byte.x61))) false demo_udp None 0 0 0 None None)
    (Paths_assemble demo_key None None) 0 None 1 ∅ 0 ∅.

Lemma long_relays_unverifiable :
  Card_verify (Card_as_bytes (snd (card demo_long 1000 60 [] []))) (VerifyContext_new 1000) =
  Ret (Err (fail 1 "card longer than the 4096 byte maximum")).
Proof. vm_compute. reflexivity. Qed.
