(* ===== verification/Blossom.v ===== *)
(** * Blossom: blobs over a session ([link-blossom/src])

    The request and response codec, the serving side and the fetching side of one
    blob exchange, and what the two do together over one stream.  A stream is the
    bytes that arrive on it; it is a prefix of what the other side
    wrote, all of it when nothing goes wrong.  The blob store, the URL parser and the hex crate are
    parameters. *)

From S2P Require Import Prelude Net Id Rendezvous Card Paths TagBook RelayClient Session.

Open Scope Z_scope.

(** ** The wire format ([wire.rs]) *)

Definition REQUEST_MAGIC : list byte := lit "FSLB".
Definition PROTOCOL_VERSION : byte := Byte.x01.
Definition REQUEST_LEN : nat := 37.
Definition MAX_CONTENT_TYPE : nat := 255.
Definition STATUS_OK : byte := Byte.x00.
Definition STATUS_NOT_FOUND : byte := Byte.x01.
Definition STATUS_ERROR : byte := Byte.x02.
Definition STATUS_UNSUPPORTED_VERSION : byte := Byte.x03.
Definition CHUNK : nat := Z.to_nat (64 * 1024).

Inductive WireError : Type :=
  | Short (needed had : nat)
  | BadMagic
  | BadVersion (v : byte)
  | BadStatus (s : byte)
  | ContentTypeTooLong (n : Z)
  | BadContentType.

Record Request : Type := mkRequest { rq_sha256 : array 32 }.

Definition Request_encode (r : Request) : list byte :=
  REQUEST_MAGIC ++ [PROTOCOL_VERSION] ++ bytes_of (rq_sha256 r).

Definition Request_decode (bytes : list byte) : exec (result WireError Request) :=
  if (length bytes <? REQUEST_LEN)%nat then Ret (Err (Short REQUEST_LEN (length bytes)))
  else
    magic ← slice 0 4 bytes;
    if negb (bool_decide (magic = REQUEST_MAGIC)) then Ret (Err BadMagic)
    else
      v ← index bytes 4;
      if negb (bool_decide (v = PROTOCOL_VERSION)) then Ret (Err (BadVersion v))
      else
        d ← slice 5 REQUEST_LEN bytes;
        Ret (Ok (mkRequest (pad_array 32 d))).

Inductive ResponseHeader : Type :=
  | RespOk (size : Z) (content_type : option (list byte))
  | RespNotFound
  | RespError
  | RespUnsupportedVersion.

(** The media type as it is sent: one above the bound is dropped whole. *)
Definition sent_type (content_type : option (list byte)) : list byte :=
  match content_type with
  | Some t => if (length t <=? MAX_CONTENT_TYPE)%nat then t else []
  | None => []
  end.

Definition ResponseHeader_encode (h : ResponseHeader) : list byte :=
  match h with
  | RespOk size content_type =>
    let t := sent_type content_type in
    [STATUS_OK] ++ to_be 8 size ++ to_be 2 (Z.of_nat (length t)) ++ t
  | RespNotFound => [STATUS_NOT_FOUND]
  | RespError => [STATUS_ERROR]
  | RespUnsupportedVersion => [STATUS_UNSUPPORTED_VERSION]
  end.

Definition ResponseHeader_decode (bytes : list byte) : exec (result WireError (ResponseHeader * nat)) :=
  match bytes with
  | [] => Ret (Err (Short 1 0))
  | status :: _ =>
    if bool_decide (status = STATUS_OK) then
      if (length bytes <? 11)%nat then Ret (Err (Short 11 (length bytes)))
      else
        s ← slice 1 9 bytes;
        c0 ← index bytes 9;
        c1 ← index bytes 10;
        let content_len := from_be [c0; c1] in
        if (Z.of_nat MAX_CONTENT_TYPE <? content_len) then Ret (Err (ContentTypeTooLong content_len))
        else
          let end_ := (11 + Z.to_nat content_len)%nat in
          if (length bytes <? end_)%nat then Ret (Err (Short end_ (length bytes)))
          else if content_len =? 0 then Ret (Ok (RespOk (from_be s) None, end_))
          else
            t ← slice 11 end_ bytes;
            match from_utf8 t with
            | None => Ret (Err BadContentType)
            | Some text => Ret (Ok (RespOk (from_be s) (Some text), end_))
            end
    else if bool_decide (status = STATUS_NOT_FOUND) then Ret (Ok (RespNotFound, 1%nat))
    else if bool_decide (status = STATUS_ERROR) then Ret (Ok (RespError, 1%nat))
    else if bool_decide (status = STATUS_UNSUPPORTED_VERSION) then Ret (Ok (RespUnsupportedVersion, 1%nat))
    else Ret (Err (BadStatus status))
  end.

(** ** Hexadecimal text

    The hex crate: lower-case digits, two to a byte. *)

Definition lower_hex (b : byte) : bool := in_range 0x30 0x39 b || in_range 0x61 0x66 b.

Class Hex : Type := {
  hex_encode : list byte → list byte;
  hex_decode : list byte → option (list byte);
}.

Class HexLaws (X : Hex) : Prop := {
  hex_encode_length l : length (hex_encode l) = (2 * length l)%nat;
  hex_encode_lower l : forallb lower_hex (hex_encode l) = true;
  hex_decode_encode l : hex_decode (hex_encode l) = Some l;
  hex_encode_decode s l : forallb lower_hex s = true → hex_decode s = Some l → hex_encode l = s;
}.

(** ** Streams *)

(** [read_exact] of [n] bytes from what arrives. *)
Definition read_exact (n : nat) (recv : list byte) : option (list byte * list byte) :=
  if (n <=? length recv)%nat then Some (take n recv, drop n recv) else None.

(** [Dropped] is a send half left without a finish.  What the peer makes of it is
    the transport's affair; either way it receives a prefix of what was written. *)
Inductive StreamEnd : Type := Finished | Dropped.

(** What a side wrote, and how it left its half of the stream. *)
Record Written : Type := mkWritten { wr_bytes : list byte; wr_end : StreamEnd }.

(** ** Serving ([server.rs], [source.rs]) *)

(** A blob as a source hands it out; [None] in the body is a read error. *)
Record BlobBytes : Type := mkBlobBytes {
  bb_size : Z;
  bb_content_type : option (list byte);
  bb_body : list (option (list byte));
}.

(** [slice.chunks(n)]; a byte per piece bounds the number of pieces. *)
Fixpoint pieces_fuel (fuel n : nat) (l : list byte) : list (list byte) :=
  match fuel, l with
  | S f, _ :: _ => take n l :: pieces_fuel f n (drop n l)
  | _, _ => []
  end.
Definition pieces (n : nat) (l : list byte) : list (list byte) := pieces_fuel (length l) n l.

(** The inner loop of [send_blob]: the bytes written, and [sent] after it unless
    it bailed. *)
Fixpoint send_parts (parts : list (list byte)) (sent size : Z) : list byte * option Z :=
  match parts with
  | [] => ([], Some sent)
  | part :: rest =>
    let sent := sent + Z.of_nat (length part) in
    if size <? sent then ([], None)
    else let '(w, r) := send_parts rest sent size in (part ++ w, r)
  end.

Fixpoint send_chunks (body : list (option (list byte))) (sent size : Z) : list byte * option Z :=
  match body with
  | [] => ([], Some sent)
  | None :: _ => ([], None)
  | Some chunk :: rest =>
    match send_parts (pieces CHUNK chunk) sent size with
    | (w, None) => (w, None)
    | (w, Some sent) => let '(w', r) := send_chunks rest sent size in (w ++ w', r)
    end
  end.

Definition send_blob (blob : BlobBytes) : Written :=
  let header := ResponseHeader_encode (RespOk (bb_size blob) (bb_content_type blob)) in
  match send_chunks (bb_body blob) 0 (bb_size blob) with
  | (w, Some sent) => mkWritten (header ++ w) (if sent =? bb_size blob then Finished else Dropped)
  | (w, None) => mkWritten (header ++ w) Dropped
  end.

(** [MapBlobSource]: its map, [insert] and [get]. *)
Definition MapBlobSource : Type := gmap (list byte) (option (list byte) * list byte).

Definition mbs_insert (m : MapBlobSource) (sha256 : list byte) (content_type : option (list byte))
    (data : list byte) : MapBlobSource := <[sha256 := (content_type, data)]> m.

Definition mbs_get (m : MapBlobSource) (sha256 : list byte) : option BlobBytes :=
  match m !! sha256 with
  | Some (content_type, data) =>
    Some (mkBlobBytes (Z.of_nat (length data)) content_type (Some <$> pieces CHUNK data))
  | None => None
  end.

Section blossom.
Context `{X : Hex}.

(** [serve_stream]: [source] is the store's answer to a digest. *)
Definition serve_stream (preread input : list byte) (source : list byte → option BlobBytes) : exec Written :=
  if (REQUEST_LEN <? length preread)%nat then Ret (mkWritten [] Dropped)
  else match read_exact (REQUEST_LEN - length preread) input with
  | None => Ret (mkWritten [] Dropped)
  | Some (rest, _) =>
    d ← Request_decode (preread ++ rest);
    match d with
    | Err (BadVersion _) => Ret (mkWritten (ResponseHeader_encode RespUnsupportedVersion) Finished)
    | Err _ => Ret (mkWritten [] Dropped)
    | Ok request =>
      Ret (match source (hex_encode (bytes_of (rq_sha256 request))) with
           | Some blob => send_blob blob
           | None => mkWritten (ResponseHeader_encode RespNotFound) Finished
           end)
    end
  end.

(** ** Fetching ([client.rs]) *)

(** The variants of shelter-kit's [FetchError], [FetchPath] and [FetchedBlob]
    that this code constructs; a status keeps its code, an error text is dropped. *)
Inductive FetchError : Type :=
  | UnsupportedSource
  | Unreachable
  | UnusableStatus (code : Z)
  | StreamError.

Definition read_response (recv : list byte) : exec (result FetchError (ResponseHeader * list byte)) :=
  match read_exact 1 recv with
  | None => Ret (Err Unreachable)
  | Some (status, recv) =>
    s0 ← index status 0;
    if negb (bool_decide (s0 = STATUS_OK)) then
      d ← ResponseHeader_decode status;
      Ret (match d with Ok (h, _) => Ok (h, recv) | Err _ => Err Unreachable end)
    else match read_exact 10 recv with
    | None => Ret (Err Unreachable)
    | Some (fixed, recv) =>
      c0 ← index fixed 8;
      c1 ← index fixed 9;
      let content_len := from_be [c0; c1] in
      if Z.of_nat MAX_CONTENT_TYPE <? content_len then Ret (Err Unreachable)
      else match read_exact (Z.to_nat content_len) recv with
      | None => Ret (Err Unreachable)
      | Some (content_type, recv) =>
        d ← ResponseHeader_decode (status ++ fixed ++ content_type);
        Ret (match d with Ok (h, _) => Ok (h, recv) | Err _ => Err Unreachable end)
      end
    end
  end.

(** [open_blob_stream] up to the response: the request the client writes. *)
Definition blob_request (sha256 : array 32) : Written := mkWritten (Request_encode (mkRequest sha256)) Finished.

(** [open_blob_stream] from the response on: the stream at the first body byte. *)
Definition open_blob_stream (recv : list byte) :
    exec (result FetchError (list byte * Z * option (list byte))) :=
  r ← read_response recv;
  Ret (match r with
       | Err e => Err e
       | Ok (RespOk size content_type, recv) => Ok (recv, size, content_type)
       | Ok (RespNotFound, _) => Err (UnusableStatus 404)
       | Ok (RespError, _) => Err (UnusableStatus 500)
       | Ok (RespUnsupportedVersion, _) => Err (UnusableStatus 505)
       end).

(** How a body holds its session; [Owned None] is one already closed. *)
Inductive BodySession : Type := Owned (session : option unit) | Shared.

(** [finish]: the session held afterwards, and whether [session.close(0)] was called. *)
Definition body_finish (s : BodySession) : BodySession * bool :=
  match s with
  | Owned (Some _) => (Owned None, true)
  | _ => (s, false)
  end.

Record Body : Type := mkBody {
  bd_recv : list byte;
  bd_session : BodySession;
  bd_remaining : Z;
  bd_errored : bool;
  (** how often [close] was called on the body's session *)
  bd_closed : nat;
}.

Definition link_body (recv : list byte) (session : BodySession) (size : Z) : Body :=
  mkBody recv session size false 0.

(** The state after [state.session.finish().await]. *)
Definition body_finished (b : Body) (errored : bool) : Body :=
  let '(session, closed) := body_finish (bd_session b) in
  mkBody (bd_recv b) session (bd_remaining b) errored (if closed : bool then S (bd_closed b) else bd_closed b).

(** One poll of the body stream: its item, if any, and the state after it. *)
Definition body_next (b : Body) : option (result FetchError (list byte)) * Body :=
  if bd_errored b then (None, b)
  else if bd_remaining b =? 0 then
    (None, body_finished b false)
  else
    let want := Z.to_nat (Z.min (bd_remaining b) (Z.of_nat CHUNK)) in
    match read_exact want (bd_recv b) with
    | Some (buffer, recv) =>
      (Some (Ok buffer), mkBody recv (bd_session b) (bd_remaining b - Z.of_nat want) false (bd_closed b))
    | None =>
      (Some (Err StreamError), body_finished b true)
    end.

(** Poll the body until it ends. *)
Fixpoint body_items (fuel : nat) (b : Body) : list (result FetchError (list byte)) * Body :=
  match fuel with
  | O => ([], b)
  | S fuel' =>
    match body_next b with
    | (None, b) => ([], b)
    | (Some item, b) => let '(items, b) := body_items fuel' b in (item :: items, b)
    end
  end.

Inductive FetchPath : Type := FetchDirect | FetchRelayed.

Definition fetch_path (s : PathStatus) : FetchPath :=
  match s with PDirect => FetchDirect | _ => FetchRelayed end.

Record FetchedBlob : Type := mkFetchedBlob {
  fb_path : FetchPath;
  fb_size : Z;
  fb_content_type : option (list byte);
  fb_body : Body;
}.

(** [fetch_blob_over] a held session, and the exchange of [fetch_over_link] over
    the session it dialled. *)
Definition fetch_blob_over (status : PathStatus) (expected_size : option Z) (recv : list byte) :
    exec (result FetchError FetchedBlob) :=
  r ← open_blob_stream recv;
  Ret (match r with
       | Err e => Err e
       | Ok (recv, size, content_type) =>
         if (match expected_size with Some expected => negb (expected =? size) | None => false end)
         then Err Unreachable
         else Ok (mkFetchedBlob (fetch_path status) size content_type (link_body recv Shared size))
       end).

Definition fetch_dialled (status : PathStatus) (recv : list byte) : exec (result FetchError FetchedBlob) :=
  r ← open_blob_stream recv;
  Ret (match r with
       | Err e => Err e
       | Ok (recv, size, content_type) =>
         Ok (mkFetchedBlob (fetch_path status) size content_type (link_body recv (Owned (Some tt)) size))
       end).

(** [split(c).next()]: what comes before the first [c]. *)
Fixpoint before (c : byte) (s : list byte) : list byte :=
  match s with
  | [] => []
  | x :: s' => if bool_decide (x = c) then [] else x :: before c s'
  end.

(** [trim_start_matches('/')]. *)
Fixpoint trim_slashes (s : list byte) : list byte :=
  match s with
  | x :: s' => if bool_decide (x = ch "/") then trim_slashes s' else s
  | [] => []
  end.

(** [parse_fsl_source] of a URL the URL parser took apart. *)
Definition parse_fsl_source (scheme : list byte) (host : option (list byte)) (path : list byte) :
    result FetchError (NodeId * array 32) :=
  if negb (bool_decide (scheme = lit "fsl")) then Err UnsupportedSource
  else match host with
  | None => Err Unreachable
  | Some host =>
    match NodeId_from_base32 host with
    | None => Err Unreachable
    | Some node =>
      let hex_digest := before (ch ".") (before (ch "/") (trim_slashes path)) in
      if negb (length hex_digest =? 64)%nat || negb (forallb lower_hex hex_digest) then Err Unreachable
      else match hex_decode hex_digest with
      | None => Err Unreachable
      | Some raw =>
        match try_array 32 raw with
        | Some sha256 => Ok (node, sha256)
        | None => Err Unreachable
        end
      end
    end
  end.

End blossom.

(** ** The codec *)

(** A [u64] size and a [String] of UTF-8. *)
Definition header_wf (h : ResponseHeader) : Prop :=
  match h with
  | RespOk size (Some t) => u64 size ∧ utf8_valid t = true
  | RespOk size None => u64 size
  | _ => True
  end.

(** The header a reader gets: no media type where none was sent. *)
Definition type_normal (content_type : option (list byte)) : option (list byte) :=
  match sent_type content_type with [] => None | t => Some t end.

Definition header_normal (h : ResponseHeader) : ResponseHeader :=
  match h with RespOk size content_type => RespOk size (type_normal content_type) | _ => h end.

Lemma sent_type_length t : (length (sent_type t) ≤ MAX_CONTENT_TYPE)%nat.
Proof. unfold sent_type. destruct t as [t|]; [|simpl; unfold MAX_CONTENT_TYPE; lia]. split_if; simpl; unfold MAX_CONTENT_TYPE in *; to_props; lia. Qed.

Lemma sent_type_valid t size : header_wf (RespOk size t) → utf8_valid (sent_type t) = true.
Proof. destruct t as [t|]; [|done]. simpl. intros [_ ?]. by split_if. Qed.

Lemma header_wf_size t size : header_wf (RespOk size t) → u64 size.
Proof. destruct t; simpl; tauto. Qed.

Lemma Request_encode_length r : length (Request_encode r) = REQUEST_LEN.
Proof. unfold Request_encode. rewrite !length_app, bytes_of_length. done. Qed.

Lemma Request_roundtrip r rest : Request_decode (Request_encode r ++ rest) = Ret (Ok r).
Proof.
  unfold Request_decode. rewrite (proj2 (Nat.ltb_ge _ _)) by (rewrite length_app, Request_encode_length; lia).
  unfold Request_encode. rewrite <- !app_assoc.
  assert (length REQUEST_MAGIC = 4%nat) by done. unfold REQUEST_LEN.
  rewrite (slice_app_l 0 4), slice_all by (rewrite ?H; lia). rewrite exec_bind_Ret_l, bool_decide_true by done. cbn [negb].
  rewrite (index_app_r REQUEST_MAGIC) by (rewrite H; lia).
  rewrite index_hd by (rewrite H; lia). cbn [expect app head]. rewrite exec_bind_Ret_l.
  rewrite bool_decide_true by done. cbn [negb].
  change (PROTOCOL_VERSION :: ?x) with ([PROTOCOL_VERSION] ++ x).
  rewrite !slice_app_r by (rewrite ?H; simpl; lia). rewrite H. cbn [length Nat.sub].
  rewrite slice_app_l, slice_all by (rewrite bytes_of_length; lia).
  rewrite exec_bind_Ret_l, pad_array_bytes. by destruct r.
Qed.

Lemma Request_decode_sound bytes r :
  Request_decode bytes = Ret (Ok r) → take REQUEST_LEN bytes = Request_encode r.
Proof.
  unfold Request_decode. destruct (Nat.ltb_spec (length bytes) REQUEST_LEN) as [|Hl]; [done|]. intros E.
  apply exec_bind_Ret in E as (m & Hm & E). destruct (bool_decide_reflect (m = REQUEST_MAGIC)) as [->|]; [|done].
  cbn [negb] in E. apply exec_bind_Ret in E as (v & Hv & E).
  destruct (bool_decide_reflect (v = PROTOCOL_VERSION)) as [->|]; [|done].
  cbn [negb] in E. apply exec_bind_Ret in E as (d & Hd & [= <-]).
  pose proof (slice_length _ _ _ _ Hd) as [Hdl _].
  pose proof (slice_glue _ _ _ _ _ _ Hm (slice_glue _ _ _ _ _ _ (index_slice _ _ _ Hv) Hd)) as Hall.
  rewrite slice_ok in Hall by (split; [unfold REQUEST_LEN; lia|done]).
  rewrite Nat.sub_0_r, drop_0 in Hall. injection Hall as ->.
  unfold Request_encode. cbn [rq_sha256]. by rewrite bytes_of_pad.
Qed.

Lemma Request_decode_total bytes : ∃ r, Request_decode bytes = Ret r.
Proof.
  unfold Request_decode. destruct (Nat.ltb_spec (length bytes) REQUEST_LEN) as [|Hl]; [eauto|].
  unfold REQUEST_LEN in *. rewrite (slice_ok 0 4), (slice_ok 5 37), exec_bind_Ret_l by lia. cbn beta.
  split_if; [eauto|]. destruct (index_ok bytes 4) as (v & -> & _); [lia|].
  rewrite exec_bind_Ret_l. split_if; eauto.
Qed.

Lemma ltb_add k a b : (k + a <? k + b)%nat = (a <? b)%nat.
Proof. destruct (Nat.ltb_spec a b); [apply Nat.ltb_lt | apply Nat.ltb_ge]; lia. Qed.

(** What [ResponseHeader_decode] makes of an ok header once its fixed part is read. *)
Definition decode_type (size content_len : Z) (rest : list byte) : result WireError (ResponseHeader * nat) :=
  let n := Z.to_nat content_len in
  if Z.of_nat MAX_CONTENT_TYPE <? content_len then Err (ContentTypeTooLong content_len)
  else if (length rest <? n)%nat then Err (Short (11 + n) (11 + length rest))
  else if content_len =? 0 then Ok (RespOk size None, 11%nat)
  else match from_utf8 (take n rest) with
  | None => Err BadContentType
  | Some text => Ok (RespOk size (Some text), (11 + n)%nat)
  end.

Lemma decode_fixed sz cl rest :
  length sz = 8%nat → length cl = 2%nat →
  ResponseHeader_decode ([STATUS_OK] ++ sz ++ cl ++ rest) = Ret (decode_type (from_be sz) (from_be cl) rest).
Proof.
  intros Hs Hc. destruct cl as [|c0 [|c1 [|]]]; try done.
  pose proof (from_be_range [c0; c1]) as Hr.
  unfold ResponseHeader_decode, decode_type. cbn [app].
  change (STATUS_OK :: ?x) with ([STATUS_OK] ++ x). rewrite bool_decide_true by done.
  change (c0 :: c1 :: rest) with ([c0; c1] ++ rest).
  assert (Hl : length ([STATUS_OK] ++ sz ++ [c0; c1] ++ rest) = (11 + length rest)%nat)
    by (rewrite !length_app, Hs; done).
  rewrite Hl. rewrite (proj2 (Nat.ltb_ge _ _)) by lia.
  rewrite (slice_app_r 1 9) by (simpl; lia). cbn [length Nat.sub].
  rewrite slice_app_l, slice_all by lia. rewrite exec_bind_Ret_l.
  rewrite !(index_app_r [STATUS_OK]) by (simpl; lia). cbn [length Nat.sub].
  rewrite !(index_app_r sz) by lia. rewrite Hs. cbn [Nat.sub].
  change (index ([c0; c1] ++ rest) 0) with (Ret c0). change (index ([c0; c1] ++ rest) 1) with (Ret c1).
  rewrite !exec_bind_Ret_l. set (n := from_be [c0; c1]) in *.
  destruct (Z.of_nat MAX_CONTENT_TYPE <? n); [done|].
  rewrite (ltb_add 11). destruct (length rest <? Z.to_nat n)%nat eqn:E; [done|].
  destruct (Z.eqb_spec n 0) as [->|Hn]; [done|].
  rewrite (slice_app_r 11) by (simpl; lia). cbn [length].
  rewrite (slice_app_r _ _ sz) by lia. rewrite (slice_app_r _ _ [c0; c1]) by (simpl; lia).
  rewrite Hs. apply Nat.ltb_ge in E.
  rewrite slice_ok by (simpl; lia). rewrite exec_bind_Ret_l.
  replace (11 + Z.to_nat n - 1 - 8 - length [c0; c1] - (11 - 1 - 8 - length [c0; c1]))%nat
    with (Z.to_nat n) by (simpl; lia).
  cbn [length Nat.sub drop]. by destruct (from_utf8 _).
Qed.

(** Every buffer is too short for an ok header, is one up to its media type, or
    opens with another status byte. *)
Lemma header_shape bytes :
  (∃ s l, bytes = s :: l ∧ s ≠ STATUS_OK) ∨ (length bytes < 11 ∧ (bytes = [] ∨ head bytes = Some STATUS_OK))%nat ∨
  ∃ sz cl rest, length sz = 8%nat ∧ length cl = 2%nat ∧ bytes = [STATUS_OK] ++ sz ++ cl ++ rest.
Proof.
  destruct bytes as [|s l]; [right; left; simpl; split; [lia|auto]|].
  destruct (decide (s = STATUS_OK)) as [->|]; [right | left; eauto].
  destruct (decide (length l < 10)%nat) as [|Hl]; [left; simpl; split; [lia|auto] | right].
  exists (take 8 l), (take 2 (drop 8 l)), (drop 2 (drop 8 l)).
  rewrite !length_take, !length_drop. rewrite !take_drop. repeat split; lia.
Qed.

(** A header other than ok is its status byte. *)
Definition short_header (s : byte) : result WireError (ResponseHeader * nat) :=
  if bool_decide (s = STATUS_NOT_FOUND) then Ok (RespNotFound, 1%nat)
  else if bool_decide (s = STATUS_ERROR) then Ok (RespError, 1%nat)
  else if bool_decide (s = STATUS_UNSUPPORTED_VERSION) then Ok (RespUnsupportedVersion, 1%nat)
  else Err (BadStatus s).

Lemma decode_short_header s l : s ≠ STATUS_OK → ResponseHeader_decode (s :: l) = Ret (short_header s).
Proof.
  intros. unfold ResponseHeader_decode, short_header. rewrite bool_decide_false by done. by repeat split_if.
Qed.

Lemma decode_truncated bytes :
  (length bytes < 11)%nat → bytes = [] ∨ head bytes = Some STATUS_OK →
  ∃ n, ResponseHeader_decode bytes = Ret (Err (Short n (length bytes))).
Proof.
  intros Hl [->|H]; [by exists 1%nat|]. destruct bytes as [|s l]; [done|]. injection H as ->. exists 11%nat.
  unfold ResponseHeader_decode. rewrite bool_decide_true by done. by rewrite (proj2 (Nat.ltb_lt _ _)).
Qed.

Lemma ResponseHeader_decode_total bytes : ∃ r, ResponseHeader_decode bytes = Ret r.
Proof.
  destruct (header_shape bytes) as [(s & l & -> & Hs) | [[Hl H] | (sz & cl & rest & Hs & Hc & ->)]].
  - rewrite decode_short_header by done. eauto.
  - destruct (decode_truncated _ Hl H) as [n ->]. eauto.
  - rewrite decode_fixed by done. eauto.
Qed.

Lemma ResponseHeader_roundtrip h rest :
  header_wf h →
  ResponseHeader_decode (ResponseHeader_encode h ++ rest) = Ret (Ok (header_normal h, length (ResponseHeader_encode h))).
Proof.
  destruct h as [size ct| | |]; intros Hwf; try (cbn [ResponseHeader_encode app]; by rewrite decode_short_header).
  pose proof (sent_type_length ct) as Hl. pose proof (sent_type_valid _ _ Hwf) as Hv.
  apply header_wf_size in Hwf. unfold ResponseHeader_encode, header_normal, type_normal.
  set (t := sent_type ct) in *. unfold MAX_CONTENT_TYPE in Hl. rewrite <- !app_assoc.
  rewrite decode_fixed by apply to_be_length. do 2 f_equal.
  rewrite from_to_be_64 by done. rewrite from_to_be_16 by (unfold u16; lia).
  unfold decode_type, MAX_CONTENT_TYPE. rewrite (proj2 (Z.ltb_ge _ _)) by lia. rewrite Nat2Z.id.
  rewrite (proj2 (Nat.ltb_ge _ _)) by (rewrite length_app; lia). rewrite !length_app, !to_be_length.
  destruct t as [|b t'] eqn:E; [done|]. rewrite (proj2 (Z.eqb_neq _ _)) by (simpl; lia).
  rewrite take_app_length. unfold from_utf8. by rewrite Hv.
Qed.

Lemma ResponseHeader_decode_sound bytes h n :
  ResponseHeader_decode bytes = Ret (Ok (h, n)) →
  header_wf h ∧ header_normal h = h ∧ take n bytes = ResponseHeader_encode h ∧ n = length (ResponseHeader_encode h).
Proof.
  destruct (header_shape bytes) as [(s & l & -> & Hs) | [[Hl H] | (sz & cl & rest & Hs & Hc & ->)]].
  - rewrite decode_short_header by done. unfold short_header. intros E.
    repeat split_if_in E; simplify_eq; done.
  - destruct (decode_truncated _ Hl H) as [k ->]. done.
  - rewrite decode_fixed by done. unfold decode_type, MAX_CONTENT_TYPE.
    pose proof (from_be_u64 _ Hs) as Hu. pose proof (from_be_u16 _ Hc) as Hu2.
    pose proof (to_from_be_n _ _ Hs) as Es. pose proof (to_from_be_n _ _ Hc) as Ec.
    set (k := from_be cl) in *. unfold u16 in Hu2.
    destruct (Z.ltb_spec (Z.of_nat 255) k) as [|Hk]; [done|].
    destruct (Nat.ltb_spec (length rest) (Z.to_nat k)) as [|Hr]; [done|].
    destruct (Z.eqb_spec k 0) as [Hk0|Hk0].
    + intros [= <- <-]. split_and!; [done | done | | done].
      cbn [ResponseHeader_encode sent_type length]. change (Z.of_nat 0) with 0. rewrite <- Hk0, Es, Ec.
      rewrite !(app_assoc), app_nil_r, take_app_length' by (rewrite !length_app, Hs, Hc; done). done.
    + unfold from_utf8. destruct (utf8_valid (take (Z.to_nat k) rest)) eqn:Hv; [|done]. intros [= <- <-].
      set (t := take (Z.to_nat k) rest) in *.
      assert (Ht : length t = Z.to_nat k) by (subst t; rewrite length_take; lia).
      assert (Hst : sent_type (Some t) = t) by (cbn [sent_type]; rewrite (proj2 (Nat.leb_le _ _)); [done | unfold MAX_CONTENT_TYPE; lia]).
      unfold header_normal, type_normal, ResponseHeader_encode. rewrite Hst.
      split_and!; [done | destruct t; [simpl in Ht; lia | done] | |].
      * rewrite Ht, Z2Nat.id, Es, Ec by lia. rewrite <- (take_drop (Z.to_nat k) rest) at 1. fold t.
        rewrite !app_assoc, take_app_length' by (rewrite !length_app, Hs, Hc, Ht; simpl; lia). done.
      * rewrite !length_app, !to_be_length, Ht. simpl. lia.
Qed.

(** Reading a header off a stream piece by piece is decoding what has arrived. *)
Definition parse_response (recv : list byte) : exec (result FetchError (ResponseHeader * list byte)) :=
  d ← ResponseHeader_decode recv;
  Ret (match d with Ok (h, n) => Ok (h, drop n recv) | Err _ => Err Unreachable end).

Lemma read_exact_app n l k : length l = n → read_exact n (l ++ k) = Some (l, k).
Proof.
  intros <-. unfold read_exact. rewrite (proj2 (Nat.leb_le _ _)) by (rewrite length_app; lia).
  by rewrite take_app_length, drop_app_length.
Qed.

Lemma read_exact_short n l : (length l < n)%nat → read_exact n l = None.
Proof. intros. unfold read_exact. by rewrite (proj2 (Nat.leb_gt _ _)). Qed.

Lemma read_response_ok sz cl rest :
  length sz = 8%nat → length cl = 2%nat →
  read_response ([STATUS_OK] ++ sz ++ cl ++ rest) = parse_response ([STATUS_OK] ++ sz ++ cl ++ rest).
Proof.
  intros Hs Hc. unfold parse_response. rewrite decode_fixed, exec_bind_Ret_l by done.
  unfold read_response. rewrite read_exact_app by done. change (index [STATUS_OK] 0) with (Ret STATUS_OK).
  rewrite exec_bind_Ret_l, bool_decide_true by done. cbn [negb].
  rewrite (app_assoc sz), read_exact_app by (rewrite length_app; lia).
  destruct cl as [|c0 [|c1 [|]]]; try done.
  rewrite !(index_app_r sz) by lia. rewrite Hs. cbn [Nat.sub].
  change (index [c0; c1] 0) with (Ret c0). change (index [c0; c1] 1) with (Ret c1). rewrite !exec_bind_Ret_l.
  pose proof (from_be_range [c0; c1]) as Hr. unfold decode_type. set (n := from_be [c0; c1]) in *.
  destruct (Z.of_nat MAX_CONTENT_TYPE <? n) eqn:Em; [done|].
  destruct (Nat.ltb_spec (length rest) (Z.to_nat n)) as [Hl|Hl]; [by rewrite read_exact_short|].
  rewrite <- (take_drop (Z.to_nat n) rest) at 1.
  assert (Ht : length (take (Z.to_nat n) rest) = Z.to_nat n) by (rewrite length_take; lia).
  rewrite read_exact_app, <- app_assoc, decode_fixed, exec_bind_Ret_l by done.
  unfold decode_type. fold n. rewrite Em, Ht, Nat.ltb_irrefl, take_take, Nat.min_id.
  do 2 f_equal. destruct (Z.eqb_spec n 0) as [->|Hn]; [|destruct (from_utf8 _); [|done]].
  - do 2 f_equal. rewrite !app_assoc, drop_app_length' by (rewrite !length_app, Hs; done). done.
  - do 2 f_equal. rewrite <- drop_drop, !app_assoc, drop_app_length' by (rewrite !length_app, Hs; done). done.
Qed.

Lemma read_response_parse recv : read_response recv = parse_response recv.
Proof.
  destruct (header_shape recv) as [(s & l & -> & Hs) | [[Hl H] | (sz & cl & rest & Hs & Hc & ->)]].
  - unfold parse_response. rewrite decode_short_header by done.
    unfold read_response. change (s :: l) with ([s] ++ l). rewrite read_exact_app by done.
    change (index [s] 0) with (Ret s). rewrite exec_bind_Ret_l, bool_decide_false by done. cbn [negb].
    rewrite decode_short_header by done. rewrite !exec_bind_Ret_l. unfold short_header. by repeat split_if.
  - unfold parse_response. destruct (decode_truncated _ Hl H) as [n ->]. rewrite exec_bind_Ret_l.
    destruct H as [->|H]; [done|]. destruct recv as [|s l]; [done|]. injection H as ->.
    unfold read_response. change (STATUS_OK :: l) with ([STATUS_OK] ++ l). rewrite read_exact_app by done.
    change (index [STATUS_OK] 0) with (Ret STATUS_OK). rewrite exec_bind_Ret_l, bool_decide_true by done. cbn [negb].
    rewrite read_exact_short by (simpl in Hl; lia). done.
  - by apply read_response_ok.
Qed.

(** ** What the server writes *)

(** The bytes a source yields before its first error, and whether it has none. *)
Fixpoint source_bytes (body : list (option (list byte))) : list byte :=
  match body with Some chunk :: rest => chunk ++ source_bytes rest | _ => [] end.

Definition source_clean (body : list (option (list byte))) : bool := forallb (λ item, match item with Some _ => true | None => false end) body.

(** A source that keeps its word on the size. *)
Definition faithful (blob : BlobBytes) : Prop :=
  source_clean (bb_body blob) = true ∧ Z.of_nat (length (source_bytes (bb_body blob))) = bb_size blob.

Lemma pieces_fuel_concat fuel n l : (0 < n)%nat → (length l ≤ fuel)%nat → concat (pieces_fuel fuel n l) = l.
Proof.
  intros Hn. revert l. induction fuel as [|f IH]; intros [|b l] Hl; try done; [simpl in Hl; lia|].
  cbn [pieces_fuel concat]. rewrite IH; [apply take_drop|]. rewrite length_drop. simpl in *. lia.
Qed.

Lemma pieces_concat n l : (0 < n)%nat → concat (pieces n l) = l.
Proof. intros. by apply pieces_fuel_concat. Qed.

Lemma CHUNK_pos : (0 < CHUNK)%nat.
Proof. unfold CHUNK. lia. Qed.

Lemma send_parts_spec parts sent size w r :
  send_parts parts sent size = (w, r) → sent <= size →
  w `prefix_of` concat parts ∧ sent + Z.of_nat (length w) <= size ∧
  match r with
  | Some sent' => w = concat parts ∧ sent' = sent + Z.of_nat (length w)
  | None => size < sent + Z.of_nat (length (concat parts))
  end.
Proof.
  revert sent w r. induction parts as [|part rest IH]; intros sent w r.
  - intros [= <- <-] Hs. cbn [length]. repeat split; [apply prefix_nil | lia | lia].
  - cbn [send_parts concat]. destruct (Z.ltb_spec size (sent + Z.of_nat (length part))) as [Hlt|Hle].
    + intros [= <- <-] Hs. rewrite length_app. cbn [length]. repeat split; [apply prefix_nil | lia | lia].
    + destruct (send_parts rest _ size) as [w0 r0] eqn:E. intros [= <- <-] Hs.
      destruct (IH _ _ _ E) as (Hp & Hl & Hr); [lia|]. rewrite !length_app.
      split; [by apply prefix_app|]. split; [lia|].
      destruct r0; [destruct Hr as [-> ->]; split; [done | lia] | lia].
Qed.

Lemma send_chunks_spec body sent size w r :
  send_chunks body sent size = (w, r) → sent <= size →
  w `prefix_of` source_bytes body ∧ sent + Z.of_nat (length w) <= size ∧
  match r with
  | Some sent' => source_clean body = true ∧ w = source_bytes body ∧ sent' = sent + Z.of_nat (length w)
  | None => source_clean body = false ∨ size < sent + Z.of_nat (length (source_bytes body))
  end.
Proof.
  revert sent w r. induction body as [|[chunk|] rest IH]; intros sent w r.
  - intros [= <- <-] Hs. cbn [length]. repeat split; [apply prefix_nil | lia | lia].
  - cbn [send_chunks source_bytes]. destruct (send_parts _ sent size) as [w0 r0] eqn:E. intros E2 Hs.
    destruct (send_parts_spec _ _ _ _ _ E Hs) as (Hp & Hl & Hr). rewrite pieces_concat in Hp, Hr by apply CHUNK_pos.
    rewrite length_app. destruct r0 as [sent1|].
    + destruct Hr as [-> ->]. destruct (send_chunks rest _ size) as [w1 r1] eqn:E1. injection E2 as <- <-.
      destruct (IH _ _ _ E1 Hl) as (Hp1 & Hl1 & Hr1). rewrite length_app.
      split; [by apply prefix_app|]. split; [lia|]. cbn [source_clean forallb andb].
      destruct r1; [destruct Hr1 as (? & -> & ->); split_and!; [done | done | lia]|].
      destruct Hr1 as [|]; [by left | right; lia].
    + injection E2 as <- <-. split; [by apply prefix_app_r|]. split; [lia|]. right. lia.
  - intros [= <- <-] Hs. cbn [length]. repeat split; [apply prefix_nil | lia | by left].
Qed.

Definition BlobBytes_wf (blob : BlobBytes) : Prop := header_wf (RespOk (bb_size blob) (bb_content_type blob)).

(** The server writes the header and then at most the declared bytes of the
    source, and finishes the stream exactly when the source kept its word. *)
Lemma send_blob_spec blob :
  0 <= bb_size blob →
  ∃ w, wr_bytes (send_blob blob) = ResponseHeader_encode (RespOk (bb_size blob) (bb_content_type blob)) ++ w ∧
    w `prefix_of` source_bytes (bb_body blob) ∧ Z.of_nat (length w) <= bb_size blob ∧
    (wr_end (send_blob blob) = Finished ↔ faithful blob) ∧
    (faithful blob → w = source_bytes (bb_body blob)).
Proof.
  intros H0. unfold send_blob, faithful. destruct (send_chunks _ 0 _) as [w r] eqn:E. exists w.
  destruct (send_chunks_spec _ _ _ _ _ E H0) as (Hp & Hl & Hr).
  destruct r as [sent|]; cbn [wr_bytes wr_end].
  - destruct Hr as (Hc & -> & ->). split_and!; [done | done | lia | | done].
    rewrite Hc. destruct (Z.eqb_spec (0 + Z.of_nat (length (source_bytes (bb_body blob)))) (bb_size blob)); split; naive_solver lia.
  - split_and!; [done | done | lia | |]; destruct Hr as [Hc|Hc]; try rewrite Hc; naive_solver lia.
Qed.

(** ** What the client delivers *)

Definition item_bytes (i : result FetchError (list byte)) : list byte :=
  match i with Ok b => b | Err _ => [] end.

(** The bytes a polled body delivered. *)
Definition delivered (items : list (result FetchError (list byte))) : list byte := concat (item_bytes <$> items).

Definition piece_ok (i : result FetchError (list byte)) : Prop :=
  ∃ b, i = Ok b ∧ (0 < length b ≤ CHUNK)%nat.

Definition finished_with (session : BodySession) (b : Body) : Prop :=
  bd_session b = (body_finish session).1 ∧ bd_closed b = if (body_finish session).2 then 1%nat else 0%nat.

(** Polled to its end over [recv]: bounded pieces, all of [size] bytes or a read
    error after a shorter prefix, and either way the session finished: closed once if
    the body owned it, left alone if it was shared. *)
Definition body_outcome (recv : list byte) (size : Z) (session : BodySession)
    (items : list (result FetchError (list byte))) (b : Body) : Prop :=
  (body_next b).1 = None ∧ finished_with session b ∧
  if (size <=? Z.of_nat (length recv)) then Forall piece_ok items ∧ delivered items = take (Z.to_nat size) recv
  else ∃ oks, items = oks ++ [Err StreamError] ∧ Forall piece_ok oks ∧ delivered oks `prefix_of` recv.

Lemma body_items_stop fuel b : body_next b = (None, b) → body_items fuel b = ([], b).
Proof. destruct fuel; [done|]. cbn [body_items]. by intros ->. Qed.

(** A poll that reads a piece. *)
Lemma body_outcome_piece piece recv size session items b :
  (0 < length piece ≤ CHUNK)%nat → Z.of_nat (length piece) <= size →
  body_outcome recv (size - Z.of_nat (length piece)) session items b →
  body_outcome (piece ++ recv) size session (Ok piece :: items) b.
Proof.
  intros Hp Hs (Hn & Hses & H). split; [done|]. split; [done|]. rewrite length_app.
  assert (Hok : piece_ok (Ok piece)) by (eexists; split; [done | lia]).
  destruct (Z.leb_spec size (Z.of_nat (length piece + length recv))) as [Hle|Hgt].
  - rewrite (proj2 (Z.leb_le _ _)) in H by lia. destruct H as [HF Hd].
    split; [by constructor|]. unfold delivered in *. cbn [fmap list_fmap concat item_bytes]. rewrite Hd.
    rewrite take_app_ge by lia. do 2 f_equal. lia.
  - rewrite (proj2 (Z.leb_gt _ _)) in H by lia. destruct H as (oks & -> & HF & Hd).
    exists (Ok piece :: oks). split; [done|]. split; [by constructor|].
    unfold delivered in *. cbn [fmap list_fmap concat item_bytes]. by apply prefix_app.
Qed.

Lemma body_items_spec fuel recv session size :
  0 <= size → (Z.to_nat size + 1 < fuel)%nat →
  let '(items, b) := body_items fuel (link_body recv session size) in body_outcome recv size session items b.
Proof.
  unfold link_body. revert recv size. induction fuel as [|fuel IH]; intros recv size H0 Hf; [lia|].
  cbn [body_items]. unfold body_next at 1. cbn [bd_errored bd_remaining bd_recv bd_session bd_closed].
  destruct (Z.eqb_spec size 0) as [->|Hn].
  - unfold body_outcome. rewrite (proj2 (Z.leb_le _ _)) by lia.
    split; [by destruct session as [[]|]|]. split; [by destruct session as [[]|]|]. by split; [constructor|].
  - pose proof CHUNK_pos. set (want := Z.to_nat (Z.min size (Z.of_nat CHUNK))) in *.
    assert (Hw : (0 < want ≤ CHUNK)%nat ∧ Z.of_nat want <= size) by lia. clearbody want.
    unfold read_exact. destruct (Nat.leb_spec want (length recv)) as [Hl|Hl].
    + destruct (body_items fuel _) as [items b] eqn:E.
      specialize (IH (drop want recv) (size - Z.of_nat want)). rewrite E in IH.
      assert (Hlen : length (take want recv) = want) by (rewrite length_take; lia).
      rewrite <- (take_drop want recv) at 1. apply body_outcome_piece; rewrite Hlen; [lia | lia |].
      apply IH; lia.
    + rewrite body_items_stop by (by destruct session as [[]|]). unfold body_outcome. rewrite (proj2 (Z.leb_gt _ _)) by lia.
      split; [by destruct session as [[]|]|]. split; [by destruct session as [[]|]|].
      exists []. split; [done|]. split; [constructor | apply prefix_nil].
Qed.

(** ** One exchange *)

Section exchange.
Context `{X : Hex}.

Lemma serve_stream_request preread input source sha :
  preread ++ input = Request_encode (mkRequest sha) →
  serve_stream preread input source =
    Ret (match source (hex_encode (bytes_of sha)) with
         | Some blob => send_blob blob
         | None => mkWritten (ResponseHeader_encode RespNotFound) Finished
         end).
Proof.
  intros E. pose proof (f_equal length E) as Hl. rewrite length_app, Request_encode_length in Hl.
  unfold serve_stream. rewrite (proj2 (Nat.ltb_ge _ _)) by lia.
  rewrite <- (app_nil_r input), read_exact_app, E by lia.
  rewrite <- (app_nil_r (Request_encode _)), Request_roundtrip. done.
Qed.

(** The stream opens on the body when the whole header arrived, and is
    unreachable when only part of it did. *)
Lemma open_blob_stream_ok size ct rest :
  header_wf (RespOk size ct) →
  open_blob_stream (ResponseHeader_encode (RespOk size ct) ++ rest) = Ret (Ok (rest, size, type_normal ct)).
Proof.
  intros Hwf. unfold open_blob_stream. rewrite read_response_parse. unfold parse_response.
  rewrite ResponseHeader_roundtrip by done. rewrite !exec_bind_Ret_l. cbn [header_normal].
  by rewrite drop_app_length.
Qed.

Lemma open_blob_stream_cut h recv k :
  header_wf h → recv ++ k = ResponseHeader_encode h → k ≠ [] → open_blob_stream recv = Ret (Err Unreachable).
Proof.
  intros Hwf E Hk. unfold open_blob_stream. rewrite read_response_parse. unfold parse_response.
  destruct (ResponseHeader_decode_total recv) as [[[h' n]|e] Hd]; rewrite Hd; [|done]. exfalso.
  destruct (ResponseHeader_decode_sound _ _ _ Hd) as (Hwf' & Hn & Ht & Hlen).
  pose proof (ResponseHeader_roundtrip h' (drop n recv ++ k) Hwf') as E1.
  rewrite <- Ht, app_assoc, take_drop, E in E1.
  pose proof (ResponseHeader_roundtrip h [] Hwf) as E2. rewrite app_nil_r, E1 in E2.
  injection E2 as _ Hl. pose proof (f_equal length E) as Hl2. pose proof (f_equal length Ht) as Hl3.
  rewrite length_take in Hl, Hl3. rewrite length_app in Hl2. destruct k; [done|]. simpl in Hl2. lia.
Qed.

(** A prefix of a header and a body ends in the header or in the body. *)
Lemma prefix_app_split {A} (l h w : list A) :
  l `prefix_of` h ++ w → (∃ k, l ++ k = h ∧ k ≠ []) ∨ ∃ rest, l = h ++ rest ∧ rest `prefix_of` w.
Proof.
  intros [k E]. destruct (decide (length l < length h)%nat) as [Hl|Hl].
  - left. exists (drop (length l) h). split.
    + pose proof (f_equal (take (length l)) E) as Et. rewrite take_app_le, take_app_length in Et by lia.
      rewrite <- Et at 1. apply take_drop.
    + intros H. apply (f_equal length) in H. rewrite length_drop in H. simpl in H. lia.
  - right. exists (drop (length h) l).
    pose proof (f_equal (take (length h)) E) as Et. rewrite take_app_length, take_app_le in Et by lia.
    pose proof (f_equal (drop (length h)) E) as Ed. rewrite drop_app_length, drop_app_le in Ed by lia.
    split; [by rewrite Et at 1; rewrite take_drop | by exists k].
Qed.

(** What the client may make of a served blob, [recv] being what arrived of [w]. *)
Definition transfer_ok (blob : BlobBytes) (complete : bool) (session : BodySession)
    (items : list (result FetchError (list byte))) (b : Body) : Prop :=
  (body_next b).1 = None ∧ finished_with session b ∧
  ((Forall piece_ok items ∧ Z.of_nat (length (delivered items)) = bb_size blob ∧
      delivered items `prefix_of` source_bytes (bb_body blob) ∧
      (faithful blob → delivered items = source_bytes (bb_body blob))) ∨
   (∃ oks, items = oks ++ [Err StreamError] ∧ Forall piece_ok oks ∧
      Z.of_nat (length (delivered oks)) < bb_size blob ∧
      delivered oks `prefix_of` source_bytes (bb_body blob) ∧ (faithful blob → complete = false))).

Lemma body_of_served blob rest w session fuel :
  0 <= bb_size blob → rest `prefix_of` w →
  w `prefix_of` source_bytes (bb_body blob) → (faithful blob → w = source_bytes (bb_body blob)) →
  (Z.to_nat (bb_size blob) + 1 < fuel)%nat →
  let '(items, b) := body_items fuel (link_body rest session (bb_size blob)) in
  transfer_ok blob (bool_decide (rest = w)) session items b.
Proof.
  intros H0 Hr Hw Hf Hfuel. pose proof (body_items_spec fuel rest session _ H0 Hfuel) as H.
  destruct (body_items _ _) as [items b]. destruct H as (Hn & Hs & H). split; [done|]. split; [done|].
  destruct (Z.leb_spec (bb_size blob) (Z.of_nat (length rest))) as [Hle|Hgt].
  - left. destruct H as [HF Hd].
    assert (Hlen : Z.of_nat (length (delivered items)) = bb_size blob) by (rewrite Hd, length_take; lia).
    assert (Hp : delivered items `prefix_of` source_bytes (bb_body blob)).
    { rewrite Hd. etrans; [|exact Hw]. etrans; [|exact Hr]. exists (drop (Z.to_nat (bb_size blob)) rest). by rewrite take_drop. }
    split_and!; [done | done | done |]. intros [_ Hsize].
    apply prefix_length_eq; [done | lia].
  - right. destruct H as (oks & -> & HF & Hd). exists oks. split_and!; [done | done | apply prefix_length in Hd; lia | by do 2 (etrans; [eassumption|]) |].
    intros Hfa. apply bool_decide_eq_false. intros ->. destruct Hfa as [? Hsize] eqn:E. rewrite Hf in Hgt by done. lia.
Qed.

(** A served blob as [fetch_blob_over] and the dialling fetcher receive it. *)
Definition fetches (blob : BlobBytes) (w : Written) (status : PathStatus) (recv : list byte) : Prop :=
  ∃ rest, let fetched s := mkFetchedBlob (fetch_path status) (bb_size blob)
                             (type_normal (bb_content_type blob)) (link_body rest s (bb_size blob)) in
  fetch_blob_over status None recv = Ret (Ok (fetched Shared)) ∧
  fetch_blob_over status (Some (bb_size blob)) recv = Ret (Ok (fetched Shared)) ∧
  (∀ expected, expected ≠ bb_size blob → fetch_blob_over status (Some expected) recv = Ret (Err Unreachable)) ∧
  fetch_dialled status recv = Ret (Ok (fetched (Owned (Some tt)))) ∧
  ∀ session fuel, (Z.to_nat (bb_size blob) + 1 < fuel)%nat →
    let '(items, b) := body_items fuel (link_body rest session (bb_size blob)) in
    transfer_ok blob (bool_decide (recv = wr_bytes w)) session items b.

(** What is fetched of a blob the source holds, when [recv] arrives of [w]. *)
Definition fetch_ok (blob : BlobBytes) (w : Written) (status : PathStatus) (recv : list byte) : Prop :=
  fetches blob w status recv ∨
  (recv ≠ wr_bytes w ∧ fetch_dialled status recv = Ret (Err Unreachable) ∧
   ∀ expected, fetch_blob_over status expected recv = Ret (Err Unreachable)).

Lemma fetch_blob_over_opened status expected recv rest size ct :
  open_blob_stream recv = Ret (Ok (rest, size, ct)) → expected = None ∨ expected = Some size →
  fetch_blob_over status expected recv =
    Ret (Ok (mkFetchedBlob (fetch_path status) size ct (link_body rest Shared size))).
Proof.
  intros E He. unfold fetch_blob_over. rewrite E, exec_bind_Ret_l.
  destruct He as [->| ->]; [done|]. by rewrite Z.eqb_refl.
Qed.

Lemma served_fetch blob status recv :
  BlobBytes_wf blob → recv `prefix_of` wr_bytes (send_blob blob) → fetch_ok blob (send_blob blob) status recv.
Proof.
  intros Hwf Hp. pose proof (header_wf_size _ _ Hwf) as Hu. unfold u64 in Hu.
  destruct (send_blob_spec blob) as (w & Ew & Hpw & Hlw & Hfin & Hfa); [lia|]. rewrite Ew in Hp.
  destruct (prefix_app_split _ _ _ Hp) as [(k & E & Hk) | (rest & -> & Hr)].
  - right. pose proof (open_blob_stream_cut _ _ _ Hwf E Hk) as Ho. unfold fetch_dialled, fetch_blob_over.
    rewrite Ho. split_and!; [|done..]. rewrite Ew, <- E, <- app_assoc. intros H.
    apply (f_equal length) in H. rewrite !length_app in H. destruct k; [done|]. simpl in H. lia.
  - left. exists rest. pose proof (open_blob_stream_ok _ _ rest Hwf) as Ho. cbn zeta. split_and!.
    + by apply fetch_blob_over_opened; [|left].
    + by apply fetch_blob_over_opened; [|right].
    + intros e He. unfold fetch_blob_over. rewrite Ho, exec_bind_Ret_l.
      by rewrite (proj2 (Z.eqb_neq _ _)) by done.
    + unfold fetch_dialled. by rewrite Ho, exec_bind_Ret_l.
    + intros session fuel Hfuel. rewrite Ew.
      rewrite (bool_decide_ext (_ = _) (rest = w)) by (split; [apply app_inv_head | by intros ->]).
      apply body_of_served; [lia | done..].
Qed.

(** C36: one request answered by [serve_stream] and fetched.  A digest the source
    does not hold is answered not found, which the client reports as status 404.
    For one it holds, the server finishes the stream exactly when the source
    yields the declared number of bytes without an error; and whatever prefix of
    the answer arrives, the client either fails before the body, or reports the
    declared size and media type and, polled to its end, delivers a prefix of the
    source's bytes in pieces of at most [CHUNK]: exactly the declared number of
    them, or fewer followed by one stream error.  All of a faithful source
    arrives when all that was written does.  A size other than the expected one
    is refused, a dialled session is closed when the body ends or errs, and a
    held one never is. *)
Theorem blob_transfer preread input source sha status :
  preread ++ input = wr_bytes (blob_request sha) →
  ∃ w, serve_stream preread input source = Ret w ∧
  match source (hex_encode (bytes_of sha)) with
  | None => wr_end w = Finished ∧
      ∀ expected, fetch_blob_over status expected (wr_bytes w) = Ret (Err (UnusableStatus 404))
  | Some blob => BlobBytes_wf blob →
      (wr_end w = Finished ↔ faithful blob) ∧
      ∀ recv, recv `prefix_of` wr_bytes w → fetch_ok blob w status recv
  end.
Proof.
  intros E. eexists. split; [by apply (serve_stream_request _ _ _ sha)|].
  destruct (source _) as [blob|]; [|split; [done|]].
  - intros Hwf. split; [|intros recv; by apply served_fetch].
    pose proof (header_wf_size _ _ Hwf) as [? ?]. destruct (send_blob_spec blob) as (w & _ & _ & _ & Hfin & _); [lia|done].
  - intros expected. by destruct status.
Qed.
End exchange.

(** Requests and response headers decode to what was encoded and to nothing
    else, the decoders never panic, and a media type above 255 bytes is dropped
    whole; reading a header off a stream piece by piece gives what decoding
    everything that arrived gives, with the stream left at the first body byte. *)
Theorem blossom_wire_codec r h rest bytes :
  header_wf h →
  Request_decode (Request_encode r ++ rest) = Ret (Ok r) ∧
  (∃ d, Request_decode bytes = Ret d ∧ ∀ r', d = Ok r' → take REQUEST_LEN bytes = Request_encode r') ∧
  ResponseHeader_decode (ResponseHeader_encode h ++ rest) =
    Ret (Ok (header_normal h, length (ResponseHeader_encode h))) ∧
  (∃ d, ResponseHeader_decode bytes = Ret d ∧
     ∀ h' n, d = Ok (h', n) → header_wf h' ∧ header_normal h' = h' ∧ take n bytes = ResponseHeader_encode h') ∧
  read_response bytes = parse_response bytes.
Proof.
  intros Hwf. split_and!; [apply Request_roundtrip | | by apply ResponseHeader_roundtrip | | apply read_response_parse].
  - destruct (Request_decode_total bytes) as [d Hd]. exists d. split; [done|]. intros r' ->. by apply Request_decode_sound.
  - destruct (ResponseHeader_decode_total bytes) as [d Hd]. exists d. split; [done|]. intros h' n ->.
    apply ResponseHeader_decode_sound in Hd. tauto.
Qed.

Lemma blossom_wire_codec_witness :
  ResponseHeader_decode (ResponseHeader_encode (RespOk 5 (Some (lit "text/plain"))) ++ lit "hello") =
    Ret (Ok (RespOk 5 (Some (lit "text/plain")), 21%nat)).
Proof.
  assert (Hwf : header_wf (RespOk 5 (Some (lit "text/plain")))) by (split; [split; vm_compute; congruence | done]).
  exact (proj1 (proj2 (proj2 (blossom_wire_codec (mkRequest (pad_array 32 [])) _ (lit "hello") [] Hwf)))).
Defined.

(** ** Text forms: the hex crate's contract and [fsl] sources *)

Definition hex_digit (v : Z) : byte := byte_of_Z (if v <? 10 then 0x30 + v else 0x57 + v).

Definition hex_value (b : byte) : option Z :=
  if in_range 0x30 0x39 b then Some (byte_to_Z b - 0x30)
  else if in_range 0x61 0x66 b then Some (byte_to_Z b - 0x57)
  else None.

Fixpoint hex_pairs (s : list byte) : option (list byte) :=
  match s with
  | [] => Some []
  | a :: b :: s' =>
    match hex_value a, hex_value b, hex_pairs s' with
    | Some x, Some y, Some l => Some (byte_of_Z (16 * x + y) :: l)
    | _, _, _ => None
    end
  | _ => None
  end.

Definition ascii_hex : Hex := {|
  hex_encode l := l ≫= λ b, [hex_digit (byte_to_Z b / 16); hex_digit (byte_to_Z b mod 16)];
  hex_decode := hex_pairs;
|}.

Lemma hex_byte b :
  lower_hex (hex_digit (byte_to_Z b / 16)) = true ∧ lower_hex (hex_digit (byte_to_Z b mod 16)) = true ∧
  hex_pairs [hex_digit (byte_to_Z b / 16); hex_digit (byte_to_Z b mod 16)] = Some [b].
Proof. destruct b; vm_compute; auto. Qed.

Lemma hex_value_digit b v : hex_value b = Some v → 0 <= v < 16 ∧ hex_digit v = b.
Proof.
  assert (H : match hex_value b with
              | Some v => (0 <=? v) && (v <? 16) && bool_decide (hex_digit v = b) | None => true end = true)
    by (destruct b; vm_compute; reflexivity).
  intros E. rewrite E in H. apply andb_prop in H as [[H1 H2]%andb_prop H3%bool_decide_eq_true].
  split; [lia | done].
Qed.

Lemma ascii_hex_laws : HexLaws ascii_hex.
Proof.
  split; cbn [hex_encode hex_decode ascii_hex].
  - induction l as [|b l IH]; [done|]. rewrite bind_cons, length_app, IH. simpl. lia.
  - induction l as [|b l IH]; [done|]. rewrite bind_cons, forallb_app, IH. destruct (hex_byte b) as (H1 & H2 & _).
    cbn [forallb]. by rewrite H1, H2.
  - induction l as [|b l IH]; [done|]. rewrite bind_cons. destruct (hex_byte b) as (_ & _ & H). revert H. cbn [hex_pairs app].
    destruct (hex_value _); [|done]. destruct (hex_value _); [|done]. rewrite IH. by intros [= ->].
  - intros s l _. revert s. induction l as [|c l IH]; intros [|a [|b s]]; cbn [hex_pairs]; try done;
      destruct (hex_value a) as [x|] eqn:Ea; try done; destruct (hex_value b) as [y|] eqn:Eb; try done;
      destruct (hex_pairs s) as [k|] eqn:Es; try done. intros [= <- ->].
    apply hex_value_digit in Ea as [Hx <-], Eb as [Hy <-]. rewrite bind_cons, (IH _ Es).
    rewrite byte_to_Z_small by lia. rewrite Z.mul_comm, Z.div_add_l, Z.div_small, Z.add_0_r by lia.
    rewrite Z.add_comm, Z.mod_add, Z.mod_small by lia. done.
Qed.

Section fsl.
Context `{X : Hex} {L : HexLaws X}.

Lemma before_app c s rest : forallb (λ b, negb (bool_decide (b = c))) s = true → before c (s ++ c :: rest) = s.
Proof.
  induction s as [|b s IH]; cbn [forallb app before]; [by rewrite bool_decide_true|].
  intros [H1%negb_true_iff H2]%andb_prop. rewrite H1. by rewrite IH.
Qed.

Lemma before_none c s : forallb (λ b, negb (bool_decide (b = c))) s = true → before c s = s.
Proof.
  induction s as [|b s IH]; cbn [forallb before]; [done|].
  intros [H1%negb_true_iff H2]%andb_prop. rewrite H1. by rewrite IH.
Qed.

Lemma lower_hex_no c s :
  lower_hex c = false → forallb lower_hex s = true → forallb (λ b, negb (bool_decide (b = c))) s = true.
Proof.
  intros Hc. induction s as [|b s IH]; [done|]. cbn [forallb]. intros [H1 H2]%andb_prop. rewrite IH by done.
  destruct (bool_decide_reflect (b = c)) as [->|]; [congruence | done].
Qed.

Lemma trim_hex x tail :
  forallb lower_hex x = true → x ≠ [] → trim_slashes (lit "/" ++ x ++ tail) = x ++ tail.
Proof.
  intros Hlow Hx. change (lit "/" ++ x ++ tail) with (ch "/" :: (x ++ tail)). cbn [trim_slashes].
  rewrite bool_decide_true by done. destruct x as [|b x']; [done|]. cbn [app trim_slashes].
  cbn [forallb] in Hlow. by destruct (bool_decide_reflect (b = ch "/")) as [->|].
Qed.

(** What an [fsl] source may put after its digest. *)
Definition digest_tail (tail : list byte) : Prop :=
  tail = [] ∨ ∃ rest, tail = ch "." :: rest ∨ tail = ch "/" :: rest.

Lemma before_app_ne c d s rest :
  d ≠ c → forallb (λ b, negb (bool_decide (b = c))) s = true →
  before c (s ++ d :: rest) = s ++ d :: before c rest.
Proof.
  intros Hd. induction s as [|b s IH]; cbn [forallb app before]; [by rewrite bool_decide_false|].
  intros [H1%negb_true_iff H2]%andb_prop. rewrite H1. by rewrite IH.
Qed.

Lemma digest_hex x tail :
  forallb lower_hex x = true → digest_tail tail → before (ch ".") (before (ch "/") (x ++ tail)) = x.
Proof.
  intros Hlow Ht. pose proof (lower_hex_no (ch "/") x eq_refl Hlow) as Hs.
  pose proof (lower_hex_no (ch ".") x eq_refl Hlow) as Hd. destruct Ht as [->|[rest [->| ->]]].
  - rewrite app_nil_r, (before_none (ch "/")) by done. by apply before_none.
  - rewrite before_app_ne by done. by apply before_app.
  - rewrite before_app by done. by apply before_none.
Qed.

(** The text a node and a digest are written as is read back, whatever extension
    or further segments follow it. *)
Lemma fsl_source_roundtrip n sha tail :
  digest_tail tail →
  parse_fsl_source (lit "fsl") (Some (NodeId_to_base32 n)) (lit "/" ++ hex_encode (bytes_of sha) ++ tail) = Ok (n, sha).
Proof.
  intros Ht. unfold parse_fsl_source. rewrite bool_decide_true by done. cbn [negb]. rewrite base32_roundtrip.
  pose proof (hex_encode_lower (bytes_of sha)) as Hlow. pose proof (hex_encode_length (bytes_of sha)) as Hlen.
  rewrite bytes_of_length in Hlen. set (x := hex_encode (bytes_of sha)) in *.
  assert (Htrim : trim_slashes (lit "/" ++ x ++ tail) = x ++ tail).
  { apply trim_hex; [done|]. intros E. rewrite E in Hlen. discriminate Hlen. }
  assert (Hdig : before (ch ".") (before (ch "/") (x ++ tail)) = x) by (by apply digest_hex).
  rewrite Htrim, Hdig, Hlen, Hlow. cbn [negb orb Nat.eqb Nat.mul Nat.add].
  unfold x. rewrite hex_decode_encode, try_array_bytes. done.
Qed.

(** An accepted source names its node and its digest in their one spelling. *)
Lemma fsl_source_canonical scheme host path n sha :
  parse_fsl_source scheme host path = Ok (n, sha) →
  scheme = lit "fsl" ∧ host = Some (NodeId_to_base32 n) ∧
  before (ch ".") (before (ch "/") (trim_slashes path)) = hex_encode (bytes_of sha).
Proof.
  unfold parse_fsl_source. destruct (bool_decide_reflect (scheme = lit "fsl")) as [->|]; [|done]. cbn [negb].
  destruct host as [host|]; [|done]. destruct (NodeId_from_base32 host) as [m|] eqn:En; [|done].
  set (x := before _ _). destruct (negb (length x =? 64)%nat); [done|]. cbn [orb].
  destruct (forallb lower_hex x) eqn:Hlow; [|done]. cbn [negb].
  destruct (hex_decode x) as [raw|] eqn:Ex; [|done]. destruct (try_array 32 raw) as [a|] eqn:Ea; [|done].
  intros [= -> ->]. apply from_base32_canonical in En as ->. apply try_array_Some in Ea as ->.
  split_and!; [done | done |]. symmetry. by apply hex_encode_decode.
Qed.
End fsl.

(** ** Concrete exchanges *)

Definition demo_sha : array 32 := pad_array 32 [Byte.x2a].
Definition demo_source : list byte → option BlobBytes :=
  mbs_get (mbs_insert ∅ (@hex_encode ascii_hex (bytes_of demo_sha)) (Some (lit "text/plain")) (lit "hello")).
Definition demo_blob : BlobBytes := mkBlobBytes 5 (Some (lit "text/plain")) [Some (lit "hello")].

Lemma demo_source_holds : demo_source (@hex_encode ascii_hex (bytes_of demo_sha)) = Some demo_blob.
Proof. vm_compute. reflexivity. Qed.

Lemma demo_blob_wf : BlobBytes_wf demo_blob.
Proof. split; [split; vm_compute; congruence | done]. Qed.

Lemma blob_transfer_witness :
  ∃ w, @serve_stream ascii_hex (lit "FSLB") (Byte.x01 :: bytes_of demo_sha) demo_source = Ret w ∧
    (wr_end w = Finished ↔ faithful demo_blob) ∧
    ∀ recv, recv `prefix_of` wr_bytes w → fetch_ok demo_blob w PDirect recv.
Proof.
  destruct (@blob_transfer ascii_hex (lit "FSLB") (Byte.x01 :: bytes_of demo_sha) demo_source demo_sha PDirect
              eq_refl) as (w & E & H).
  rewrite demo_source_holds in H. exists w. split; [exact E | exact (H demo_blob_wf)].
Defined.

(** A source that yields more than it declared: the server drops the stream after
    the declared bytes, and the client that received them reports no error. *)
Lemma overlong_source_unseen :
  let blob := mkBlobBytes 3 None [Some (lit "abc"); Some (lit "d")] in
  wr_end (send_blob blob) = Dropped ∧
  ∃ f, fetch_blob_over PRelayed None (wr_bytes (send_blob blob)) = Ret (Ok f) ∧
    (body_items 5 (fb_body f)).1 = [Ok (lit "abc")].
Proof.
  split; [vm_compute; reflexivity|]. exists (mkFetchedBlob FetchRelayed 3 None (link_body (lit "abc") Shared 3)).
  split; vm_compute; reflexivity.
Qed.
