(* ===== verification/Http.v ===== *)
(** * Http: the engine's request and response boundary ([link-engine/src])

    What a host may ask for over a paired route and what it may be answered: the
    allowlist and the request checks, the bounded response decoders, file
    operations ([blob_http.rs]), persisted routes and the enrolment frame.  hyper
    is not modelled: a response is a status, its headers in order and the frames
    of its body. *)

From S2P Require Import Prelude Net Id Rendezvous Card Wire Tls Paths TagBook RelayClient Session Endpoint Blossom.

Open Scope Z_scope.

(** ** Data *)

Inductive EngineError : Type :=
  | EngConfig (message : string)
  | EngRoute (message : string)
  | EngTransport (message : string)
  | EngSocket (message : string)
  | EngStopped.

(** One persisted paired route. *)
Record ERoute : Type := mkERoute {
  er_route_id : list byte;
  er_card : list byte;
  er_paired_route_secret : list byte;
  er_card_serial : Z;
  er_card_verified_at : Z;
}.

Record JsonRequest : Type := mkJsonRequest {
  jr_route_id : list byte;
  jr_method : list byte;
  jr_path : list byte;
  jr_authorization : list byte;
  jr_body : list byte;
}.

Definition PAIRING_CLOCK_SKEW : Z := secs 60.
Definition ROUTE_MAGIC : list byte := lit "EVR1".
Definition ROUTE_PREFIX_BYTES : nat := 6.
Definition MAX_ROUTE_FRAME_BYTES : nat := ROUTE_PREFIX_BYTES + MAX_CARD_BYTES.
Definition MAX_HTTP_PATH_BYTES : Z := 2048.
Definition MAX_HTTP_AUTHORIZATION_BYTES : Z := 48 * 1024.
Definition MAX_HTTP_BODY_BYTES : Z := 256 * 1024.
Definition MAX_VMLS_JSON_BYTES : Z := 128 * 1024.
Definition MAX_VMLS_ENVELOPE_BYTES : Z := 44 + 1048576.
Definition MAX_VMLS_FETCH_RESPONSE_BYTES : Z := 2 * 1024 * 1024.
Definition MAX_WITNESS_REQUEST_BYTES : Z := 256.
Definition WITNESS_RECEIPT_BYTES : Z := 170.
Definition MAX_DISCARDED_REFUSAL_BYTES : Z := 1024.
Definition MAX_BLOB_BYTES : Z := 64 * 1024 * 1024.
Definition LEGACY_ENCRYPTED_MEDIA_TYPE : list byte := lit "application/vnd.forgesworn.encrypted".

Inductive Method : Type := GET | POST | PUT | DELETE.

Definition Method_as_str (m : Method) : list byte :=
  match m with GET => lit "GET" | POST => lit "POST" | PUT => lit "PUT" | DELETE => lit "DELETE" end.

Inductive RequestBody : Type := BodyJson | BodyOctets | BodyEmpty.
Inductive BlobResponse : Type := Upload | Download (digest : array 32) | Delete.
Inductive ResponseBody : Type :=
  | RespJson
  | JsonOrEmptyRefusal
  | WitnessReceipt
  | RespBlob (kind : BlobResponse).

Record HttpRoute : Type := mkHttpRoute {
  hr_body : RequestBody;
  hr_max_body_bytes : Z;
  hr_nostr_authorization : bool;
  hr_response : ResponseBody;
  hr_max_response_bytes : Z;
}.

#[global] Instance Method_eq_dec : EqDecision Method.
Proof. solve_decision. Defined.
#[global] Instance BlobResponse_eq_dec : EqDecision BlobResponse.
Proof. solve_decision. Defined.
#[global] Instance ResponseBody_eq_dec : EqDecision ResponseBody.
Proof. solve_decision. Defined.

Definition is_file (r : HttpRoute) : bool := match hr_response r with RespBlob _ => true | _ => false end.

(** ** Secrets, lifetimes and persisted routes *)

Definition secret (bytes : list byte) : result EngineError (array 32) :=
  ok_or (EngRoute "paired route secret must be 32 bytes") (try_array 32 bytes).

Definition pairing_secret (bytes : list byte) : result EngineError (array 16) :=
  ok_or (EngRoute "pairing secret must be 16 bytes") (try_array 16 bytes).

(** Unix seconds in, a duration in nanoseconds out. *)
Definition pairing_lifetime (expires_at now : Z) : result EngineError Z :=
  if expires_at - now <=? 0 then Err (EngRoute "pairing bundle is expired")
  else
    let remaining := secs (expires_at - now) in
    if MAX_PAIRING_LIFETIME + PAIRING_CLOCK_SKEW <? remaining
    then Err (EngRoute "pairing bundle lifetime is too long")
    else Ok (Z.min remaining MAX_PAIRING_LIFETIME).

Definition node_from_card_bytes (bytes : list byte) : result EngineError NodeId :=
  ok_or (EngRoute "card has no node id")
    (if (37 <=? length bytes)%nat then NodeId_from_slice (take 32 (drop 5 bytes)) else None).

Section routes.
Context `{C : Crypto, R : RdvCrypto}.

(** A rule violation becomes the text of the error. *)
Definition verify_route (route : ERoute) : exec (result EngineError (NodeId * Card)) :=
  if bool_decide (er_route_id route = []) then Ret (Err (EngRoute "route id must not be empty"))
  else match node_from_card_bytes (er_card route) with
  | Err e => Ret (Err e)
  | Ok node =>
    if er_card_serial route <=? 0 then Ret (Err (EngRoute "card serial must be positive"))
    else
      let previous := er_card_serial route - 1 in
      v ← Card_verify (er_card route)
            (VerifyContext_after_serial
               (VerifyContext_expecting (VerifyContext_new (er_card_verified_at route)) node) previous);
      Ret (match v with
           | Err violation => Err (EngRoute (detail violation))
           | Ok card =>
             if negb (card_serial card =? er_card_serial route)
             then Err (EngRoute "card serial does not match retained serial")
             else Ok (node, card)
           end)
  end.

End routes.

(** [u16::try_from(card.len()).expect(..)]. *)
Definition route_frame (card : list byte) : exec (list byte) :=
  if (Z.of_nat (length card) <? 2 ^ 16)%Z
  then Ret (ROUTE_MAGIC ++ to_be 2 (Z.of_nat (length card)) ++ card) else Panic.

Definition route_card (frame : list byte) : exec (result EngineError (list byte)) :=
  let malformed := Ret (Err (EngRoute "server returned a malformed route frame")) in
  if (length frame <? ROUTE_PREFIX_BYTES)%nat then malformed
  else
    magic ← slice 0 4 frame;
    if negb (bool_decide (magic = ROUTE_MAGIC)) then malformed
    else
      l0 ← index frame 4;
      l1 ← index frame 5;
      let len := Z.to_nat (from_be [l0; l1]) in
      if (MAX_CARD_BYTES <? len)%nat || negb (length frame =? ROUTE_PREFIX_BYTES + len)%nat then malformed
      else
        rest ← slice ROUTE_PREFIX_BYTES (length frame) frame;
        Ret (Ok rest).

(** ** The allowlist *)

Definition CADENCE_ROUTE : HttpRoute := mkHttpRoute BodyJson MAX_HTTP_BODY_BYTES true RespJson MAX_HTTP_BODY_BYTES.

Definition vmls_route (body : RequestBody) (max_response_bytes : Z) : HttpRoute :=
  mkHttpRoute body
    (match body with BodyJson => MAX_VMLS_JSON_BYTES | BodyOctets => MAX_VMLS_ENVELOPE_BYTES | BodyEmpty => 0 end)
    true JsonOrEmptyRefusal max_response_bytes.

Definition WITNESS_ROUTE : HttpRoute :=
  mkHttpRoute BodyOctets MAX_WITNESS_REQUEST_BYTES false WitnessReceipt WITNESS_RECEIPT_BYTES.

Definition lower_hex_32 (value : list byte) : bool := (length value =? 64)%nat && forallb lower_hex value.

Definition canonical_u32 (value : list byte) : bool :=
  negb (bool_decide (value = [])) &&
  ((length value =? 1)%nat || negb (bool_decide (head value = Some (ch "0")))) &&
  forallb is_ascii_digit value && (digits_value value <? 2 ^ 32).

Section allow.
Context `{X : Hex}.

(** [blob_http::route]. *)
Definition blob_route (method : Method) (path : list byte) : option HttpRoute :=
  if bool_decide (method = PUT) && bool_decide (path = lit "/upload")
  then Some (mkHttpRoute BodyOctets MAX_BLOB_BYTES true (RespBlob Upload) MAX_HTTP_BODY_BYTES)
  else
    hash ← strip_prefix (lit "/") path;
    if negb (lower_hex_32 hash) then None
    else
      raw ← hex_decode hash;
      digest ← try_array 32 raw;
      match method with
      | GET => Some (mkHttpRoute BodyEmpty 0 false (RespBlob (Download digest)) MAX_BLOB_BYTES)
      | DELETE => Some (mkHttpRoute BodyEmpty 0 true (RespBlob Delete) MAX_HTTP_BODY_BYTES)
      | _ => None
      end.

(** The match on the segments of a VMLS path. *)
Definition vmls_segments (method : Method) (segments : list (list byte)) : option HttpRoute :=
  let json := vmls_route BodyJson MAX_HTTP_BODY_BYTES in
  match segments with
  | [a] =>
    if bool_decide (method = POST) && bool_decide (a = lit "fetch")
    then Some (vmls_route BodyJson MAX_VMLS_FETCH_RESPONSE_BYTES)
    else if bool_decide (method = POST) && bool_decide (a = lit "ack") then Some json
    else if bool_decide (method = GET) && bool_decide (a = lit "capabilities")
    then Some (vmls_route BodyEmpty MAX_HTTP_BODY_BYTES)
    else None
  | [a; b] =>
    if bool_decide (a = lit "packages") && lower_hex_32 b then
      match method with
      | PUT => Some json
      | DELETE => Some (vmls_route BodyEmpty MAX_HTTP_BODY_BYTES)
      | _ => None
      end
    else None
  | [a; b; c] =>
    if bool_decide (method = PUT) && bool_decide (a = lit "mailboxes") && bool_decide (c = lit "records") && lower_hex_32 b
    then Some (vmls_route BodyOctets MAX_HTTP_BODY_BYTES)
    else if bool_decide (method = PUT) && bool_decide (a = lit "slots") && lower_hex_32 b && canonical_u32 c
    then Some (vmls_route BodyOctets MAX_HTTP_BODY_BYTES)
    else None
  | [a; b; c; d] =>
    if bool_decide (method = POST) && bool_decide (a = lit "slots") && bool_decide (d = lit "status") &&
       lower_hex_32 b && canonical_u32 c
    then Some (vmls_route BodyJson MAX_VMLS_FETCH_RESPONSE_BYTES)
    else None
  | _ => None
  end.

Definition allowlisted (method : Method) (path : list byte) : option HttpRoute :=
  match blob_route method path with
  | Some route => Some route
  | None =>
    if bool_decide (is_Some (strip_prefix (lit "/cadence/v1/") path))
    then if bool_decide (method = POST) || bool_decide (method = PUT) then Some CADENCE_ROUTE else None
    else if bool_decide (path = lit "/vmls-witness/v1/read") || bool_decide (path = lit "/vmls-witness/v1/advance")
    then if bool_decide (method = POST) then Some WITNESS_ROUTE else None
    else
      rest ← strip_prefix (lit "/vmls/v1/") path;
      vmls_segments method (split_on (ch "/") rest)
  end.

(** ** Requests *)

Definition parse_method (text : list byte) : option Method :=
  if bool_decide (text = lit "GET") then Some GET
  else if bool_decide (text = lit "POST") then Some POST
  else if bool_decide (text = lit "PUT") then Some PUT
  else if bool_decide (text = lit "DELETE") then Some DELETE
  else None.

Definition is_ascii_alphanumeric (b : byte) : bool :=
  is_ascii_digit b || is_ascii_lowercase b || in_range 0x41 0x5a b.

Definition base64_char (b : byte) : bool :=
  is_ascii_alphanumeric b || bool_decide (b = ch "+") || bool_decide (b = ch "/") || bool_decide (b = ch "=").

Definition path_not_canonical (path : list byte) : bool :=
  bool_decide (path = []) || (MAX_HTTP_PATH_BYTES <? Z.of_nat (length path)) || bool_decide (ch "?" ∈ path) ||
  bool_decide (ch "#" ∈ path) || negb (forallb is_ascii_graphic path).

Definition validate_http_request_length (request : JsonRequest) (body_bytes : Z) :
    result EngineError (Method * HttpRoute) :=
  match parse_method (jr_method request) with
  | None => Err (EngRoute "request method must be GET, POST, PUT or DELETE")
  | Some method =>
    let path := jr_path request in
    if path_not_canonical path then Err (EngRoute "request path is not canonical")
    else match allowlisted method path with
    | None => Err (EngRoute "request method and path are not allowlisted")
    | Some route =>
      let authorization := jr_authorization request in
      let encoded := default [] (strip_prefix (lit "Nostr ") authorization) in
      if hr_nostr_authorization route &&
         ((MAX_HTTP_AUTHORIZATION_BYTES <? Z.of_nat (length authorization)) || bool_decide (encoded = []) ||
          negb (forallb base64_char encoded))
      then Err (EngRoute "authorization is not one bounded Nostr value")
      else if negb (hr_nostr_authorization route) && negb (bool_decide (authorization = []))
      then Err (EngRoute "this route carries no authorization")
      else if hr_max_body_bytes route <? body_bytes then Err (EngRoute "request body is too large")
      else if bool_decide (hr_response route = RespBlob Upload) && (body_bytes =? 0)
      then Err (EngRoute "file upload body is empty")
      else Ok (method, route)
    end
  end.

Definition validate_http_request (request : JsonRequest) : result EngineError (Method * HttpRoute) :=
  validate_http_request_length request (Z.of_nat (length (jr_body request))).

(** The request as it is handed to hyper. *)
Record Outgoing : Type := mkOutgoing {
  og_method : Method;
  og_uri : list byte;
  og_headers : list (list byte * list byte);
  og_body : list byte;
}.

Definition body_headers `{C : Crypto} (route : HttpRoute) (body : list byte) : list (list byte * list byte) :=
  match hr_body route with
  | BodyJson => [(lit "content-type", lit "application/json")]
  | BodyOctets =>
    (if bool_decide (hr_response route = RespBlob Upload)
     then [(lit "x-sha-256", hex_encode (bytes_of (sha256 body)));
           (lit "content-length", print_num (Z.of_nat (length body)))]
     else []) ++ [(lit "content-type", lit "application/octet-stream")]
  | BodyEmpty => []
  end.

Definition outgoing_http_request `{C : Crypto} (request : JsonRequest) (method : Method) (route : HttpRoute)
    (node : NodeId) : Outgoing :=
  mkOutgoing method (jr_path request)
    ([(lit "host", NodeId_to_base32 node)] ++ body_headers route (jr_body request) ++
     (if hr_nostr_authorization route then [(lit "authorization", jr_authorization request)] else []) ++
     [(lit "connection", lit "close")])
    (jr_body request).

End allow.

(** ** Responses *)

(** A frame of a body: data, or trailers. *)
Inductive BodyFrame : Type := FData (data : list byte) | FTrailers.

(** A response: its status, its headers in order with lower-case names, and the
    frames of its body, where [None] is a transport error. *)
Record Response : Type := mkResponse {
  rs_status : Z;
  rs_headers : list (list byte * list byte);
  rs_frames : list (option BodyFrame);
}.

Fixpoint collect_frames (frames : list (option BodyFrame)) (bytes : list byte) (limit : Z) (label : string) :
    result EngineError (list byte) :=
  match frames with
  | [] => Ok bytes
  | None :: _ => Err (EngTransport "body")
  | Some FTrailers :: rest => collect_frames rest bytes limit label
  | Some (FData data) :: rest =>
    if limit <? Z.of_nat (length bytes) + Z.of_nat (length data)
    then Err (EngRoute ("server " ++ label ++ " response is too large"))
    else collect_frames rest (bytes ++ data) limit label
  end.

Definition collect_bounded (frames : list (option BodyFrame)) (limit : Z) (label : string) :
    result EngineError (list byte) := collect_frames frames [] limit label.

(** [headers.get_all(name)]. *)
Definition get_all (headers : list (list byte * list byte)) (name : list byte) : list (list byte) :=
  snd <$> filter (λ h, h.1 = name) headers.

(** [HeaderValue::to_str]: visible ASCII, space and tab. *)
Definition header_text (b : byte) : bool := in_range 0x20 0x7e b || in_range 0x09 0x09 b.
Definition header_to_str (value : list byte) : option (list byte) :=
  if forallb header_text value then Some value else None.

(** [str::trim] of header text. *)
Definition is_blank (b : byte) : bool := in_range 0x20 0x20 b || in_range 0x09 0x09 b.
Fixpoint trim_start (s : list byte) : list byte :=
  match s with
  | b :: s' => if is_blank b then trim_start s' else s
  | [] => []
  end.
Definition trim (s : list byte) : list byte := rev (trim_start (rev (trim_start s))).

(** [value.split(';').next().trim().to_ascii_lowercase()]. *)
Definition media_of (value : list byte) : list byte := to_ascii_lowercase <$> trim (before (ch ";") value).

Definition is_success (status : Z) : bool := (200 <=? status) && (status <? 300).
Definition is_redirection (status : Z) : bool := (300 <=? status) && (status <? 400).

Definition one_header (headers : list (list byte * list byte)) (name : list byte) :
    result EngineError (option (list byte)) :=
  match get_all headers name with
  | [] => Ok None
  | [value] =>
    match header_to_str value with
    | Some text => Ok (Some text)
    | None => Err (EngRoute "file response header is not text")
    end
  | _ => Err (EngRoute "file response header is ambiguous")
  end.

(** [text.parse::<usize>()] of ASCII digits, with the 64 bit [usize] of the native
    targets.  On wasm32 it has 32 bits: a length from 2^32 on is then refused here, as an
    invalid one, instead of a few lines on, as one above the cap. *)
Definition parse_usize (s : list byte) : option Z :=
  if bool_decide (s = []) then None
  else if u64_max <? digits_value s then None else Some (digits_value s).

Definition contains_key (headers : list (list byte * list byte)) (name : list byte) : bool :=
  negb (bool_decide (get_all headers name = [])).

Section decode.
Context `{C : Crypto}.

(** The [Download] arm of [blob_http::decode], past the media type. *)
Definition decode_download (response : Response) (expected_hash : array 32) : result EngineError (Z * list byte) :=
  let headers := rs_headers response in
  if contains_key headers (lit "transfer-encoding") then Err (EngRoute "file response must use an exact length")
  else
    length_text ← one_header headers (lit "content-length");
    match length_text with
    | None => Err (EngRoute "file response has no length")
    | Some length_text =>
      if bool_decide (length_text = []) || negb (forallb is_ascii_digit length_text)
      then Err (EngRoute "file response length is invalid")
      else match parse_usize length_text with
      | None => Err (EngRoute "file response length is invalid")
      | Some len =>
        if negb (bool_decide (print_num len = length_text)) then Err (EngRoute "file response length is not canonical")
        else if MAX_BLOB_BYTES <? len then Err (EngRoute "file response is too large")
        else
          body ← collect_bounded (rs_frames response) len "file response";
          if negb (Z.of_nat (length body) =? len) || negb (bool_decide (sha256 body = expected_hash))
          then Err (EngRoute "file response length or digest does not match")
          else Ok (rs_status response, body)
      end
    end.

(** [blob_http::decode]. *)
Definition decode_blob (response : Response) (kind : BlobResponse) : result EngineError (Z * list byte) :=
  let status := rs_status response in
  let headers := rs_headers response in
  if negb (is_success status) then
    _ ← collect_bounded (rs_frames response) MAX_DISCARDED_REFUSAL_BYTES "file refusal";
    Ok (status, [])
  else if negb (match kind with Upload => (status =? 200) || (status =? 201) | _ => status =? 200 end)
  then Err (EngRoute "unexpected file response status")
  else if contains_key headers (lit "content-range") then Err (EngRoute "file response must not contain a range")
  else
    encoding ← one_header headers (lit "content-encoding");
    if (match encoding with
        | Some value => negb (bool_decide (to_ascii_lowercase <$> value = lit "identity"))
        | None => false
        end)
    then Err (EngRoute "file response must not be encoded")
    else
      content_type ← one_header headers (lit "content-type");
      let media := media_of (default [] content_type) in
      match kind with
      | Download expected_hash =>
        if negb (bool_decide (media = LEGACY_ENCRYPTED_MEDIA_TYPE)) &&
           negb (bool_decide (media = lit "application/octet-stream"))
        then Err (EngRoute "file response is not encrypted or opaque bytes")
        else decode_download response expected_hash
      | _ =>
        if negb (bool_decide (media = lit "application/json")) then Err (EngRoute "file result is not JSON")
        else
          body ← collect_bounded (rs_frames response) MAX_HTTP_BODY_BYTES "file result";
          Ok (status, body)
      end.

Definition is_witness_refusal (route : HttpRoute) (status : Z) (headers : list (list byte * list byte)) : bool :=
  if negb (bool_decide (hr_response route = WitnessReceipt)) || negb (status =? 403) then false
  else match get_all headers (lit "vmls-witness") with
  | [value] => bool_decide (value = lit "refused")
  | _ => false
  end.

Definition content_type (response : Response) : option (list byte) :=
  value ← head (get_all (rs_headers response) (lit "content-type"));
  text ← header_to_str value;
  Some (media_of text).

Definition decode_http_response (response : Response) (route : HttpRoute) : result EngineError (Z * list byte) :=
  let status := rs_status response in
  if is_redirection status then Err (EngRoute "response must not redirect")
  else match hr_response route with
  | RespBlob kind => decode_blob response kind
  | kind =>
    let expected := match kind with WitnessReceipt => "application/octet-stream" | _ => "application/json" end%string in
    let receipt_status := (status =? 200) || (status =? 409) || (status =? 410) in
    let typed := bool_decide (content_type response = Some (lit expected)) &&
                 (negb (bool_decide (kind = WitnessReceipt)) || receipt_status) in
    if negb typed then
      if bool_decide (kind = RespJson) || is_success status then Err (EngRoute ("response is not " ++ expected))
      else
        _ ← collect_bounded (rs_frames response) MAX_DISCARDED_REFUSAL_BYTES "refusal";
        Ok (status, [])
    else
      body ← collect_bounded (rs_frames response) (hr_max_response_bytes route) "response";
      if bool_decide (kind = WitnessReceipt) && negb (Z.of_nat (length body) =? WITNESS_RECEIPT_BYTES)
      then Err (EngRoute "witness receipt is not 170 bytes")
      else Ok (status, body)
  end.

End decode.

(** ** Decimal and segmented text *)

Definition no_leading_zero (s : list byte) : Prop := length s = 1%nat ∨ head s ≠ Some (ch "0").

Lemma digit_range b : is_ascii_digit b = true → 0 <= byte_to_Z b - 0x30 < 10.
Proof. unfold is_ascii_digit, in_range. lia. Qed.

Lemma digit_zero b : is_ascii_digit b = true → b ≠ ch "0" → 1 <= byte_to_Z b - 0x30.
Proof. destruct b; vm_compute; congruence. Qed.

Lemma byte_of_digit b : is_ascii_digit b = true → byte_of_Z (0x30 + (byte_to_Z b - 0x30)) = b.
Proof. intros _. replace (0x30 + (byte_to_Z b - 0x30)) with (byte_to_Z b) by lia. apply byte_of_to_Z. Qed.

Lemma digits_value_pos s :
  forallb is_ascii_digit s = true → s ≠ [] → head s ≠ Some (ch "0") → 1 <= digits_value s.
Proof.
  induction s as [|b s IH] using rev_ind; [done|]. rewrite forallb_app, digits_value_snoc. cbn [forallb].
  rewrite andb_true_r. intros [Hs Hb]%andb_prop _ Hh. pose proof (digit_range b Hb).
  destruct s as [|a s]; [|specialize (IH Hs); cbn [app head] in *; assert (1 <= digits_value (a :: s)) by (by apply IH); lia].
  cbn [app head digits_value foldl] in *. assert (1 <= byte_to_Z b - 0x30) by (apply digit_zero; congruence). lia.
Qed.

(** A number has one decimal text without leading zeros, and it is printed. *)
Lemma print_digits_value fuel s :
  forallb is_ascii_digit s = true → s ≠ [] → no_leading_zero s → digits_value s < 10 ^ Z.of_nat fuel → (0 < fuel)%nat →
  print_dec fuel (digits_value s) = s.
Proof.
  revert fuel. induction s as [|b s IH] using rev_ind; [done|]. intros fuel. rewrite forallb_app, digits_value_snoc. cbn [forallb].
  rewrite andb_true_r. intros [Hs Hb]%andb_prop _ Hz Hv Hf. pose proof (digit_range b Hb) as Hd.
  destruct fuel as [|fuel]; [lia|]. cbn [print_dec]. set (d := byte_to_Z b - 0x30) in *.
  assert (Hm : (digits_value s * 10 + d) mod 10 = d) by (rewrite Z.add_comm, Z.mod_add, Z.mod_small; lia).
  assert (Hq : (digits_value s * 10 + d) / 10 = digits_value s) by (rewrite Z.add_comm, Z.div_add, Z.div_small; lia).
  rewrite Hm, Hq. subst d. rewrite byte_of_digit by done. f_equal.
  destruct s as [|a s]; [cbn [digits_value foldl]; by rewrite (proj2 (Z.ltb_lt _ _)) by lia|].
  destruct Hz as [Hz|Hz]; [rewrite length_app in Hz; simpl in Hz; lia|].
  assert (Hp : 1 <= digits_value (a :: s)) by by apply digits_value_pos.
  rewrite (proj2 (Z.ltb_ge _ _)) by lia. rewrite Nat2Z.inj_succ, Z.pow_succ_r in Hv by lia.
  destruct fuel as [|fuel]; [rewrite Z.pow_0_r in Hv; lia|]. apply IH; try done; [by right | lia | lia].
Qed.

Lemma print_dec_zero fuel z : 0 <= z < 10 ^ Z.of_nat fuel → (0 < fuel)%nat →
  no_leading_zero (print_dec fuel z) ∧ (1 <= z → head (print_dec fuel z) ≠ Some (ch "0")).
Proof.
  revert z. induction fuel as [|fuel IH]; intros z Hz Hf; [lia|]. cbn [print_dec].
  assert (Hd : 0 <= z mod 10 < 10) by (apply Z.mod_pos_bound; lia).
  destruct (Z.ltb_spec z 10) as [Hlt|Hge].
  - split; [by left|]. intros H1. cbn [app head]. intros [= H].
    assert (byte_to_Z (byte_of_Z (0x30 + z mod 10)) = 0x30) as E by (rewrite H; done).
    rewrite byte_to_Z_small in E by lia. rewrite Z.mod_small in E; lia.
  - destruct fuel as [|fuel]; [cbn in Hz; lia|].
    assert (Hq : 0 <= z / 10 < 10 ^ Z.of_nat (S fuel)).
    { split; [apply Z.div_pos; lia|]. apply Z.div_lt_upper_bound; [lia|].
      rewrite (Nat2Z.inj_succ (S fuel)), Z.pow_succ_r in Hz; lia. }
    assert (H1 : 1 <= z / 10) by (apply Z.div_le_lower_bound; lia).
    destruct (IH (z / 10) Hq) as [_ Hh]; [lia|]. specialize (Hh H1).
    destruct (print_dec_correct (S fuel) (z / 10)) as (_ & _ & Hne); [lia | done|].
    destruct (print_dec (S fuel) (z / 10)) as [|c l]; [done|]. cbn [app head] in *. split; [by right | done].
Qed.

Lemma canonical_u32_spec s : canonical_u32 s = true ↔ ∃ n, u32 n ∧ s = print_num n.
Proof.
  unfold canonical_u32, print_num. split.
  - intros [[[H1 H2]%andb_prop H3]%andb_prop H4]%andb_prop. exists (digits_value s).
    apply negb_true_iff, bool_decide_eq_false in H1. pose proof (digit_value_nonneg s H3).
    apply Z.ltb_lt in H4. split; [unfold u32; lia|]. symmetry. apply print_digits_value; try done; [| | lia].
    2:{ eapply Z.lt_trans; [exact H4|]. done. }
    apply orb_prop in H2 as [H2|H2]; [left; by apply Nat.eqb_eq | right]. by apply negb_true_iff, bool_decide_eq_false in H2.
  - intros (n & Hn & ->). unfold u32 in Hn.
    assert (Hb : 0 <= n < 10 ^ Z.of_nat 20) by (split; [lia|]; eapply Z.lt_trans; [apply Hn | done]).
    destruct (print_dec_correct 20 n) as (Hv & Hd & Hne); [lia | done|].
    destruct (print_dec_zero 20 n) as [Hz _]; [done | lia|]. rewrite Hv, Hd, bool_decide_false by done.
    rewrite (proj2 (Z.ltb_lt _ _)) by lia. cbn [negb andb]. rewrite !andb_true_r.
    destruct Hz as [Hz|Hz]; [by rewrite Hz|]. rewrite (bool_decide_false (head _ = _)) by done. by rewrite orb_true_r.
Qed.

(** Segments joined by a separator. *)
Fixpoint join (c : byte) (segments : list (list byte)) : list byte :=
  match segments with
  | [] => []
  | [s] => s
  | s :: rest => s ++ c :: join c rest
  end.

Lemma split_on_nonempty c s : split_on c s ≠ [].
Proof. destruct s as [|x s]; [done|]. cbn [split_on]. split_if; [done|]. by destruct (split_on c s). Qed.

Lemma join_split c s : join c (split_on c s) = s.
Proof.
  induction s as [|x s IH]; [done|]. cbn [split_on]. pose proof (split_on_nonempty c s) as Hne.
  destruct (bool_decide_reflect (x = c)) as [->|Hx]; destruct (split_on c s) as [|l ls]; try done.
  - change (join c ([] :: l :: ls)) with (c :: join c (l :: ls)). by rewrite IH.
  - rewrite <- IH. by destruct ls.
Qed.

Lemma split_on_free c s : (c ∉ s) → split_on c s = [s].
Proof.
  induction s as [|x s IH]; [done|]. rewrite not_elem_of_cons. intros [Hx Hs]. cbn [split_on].
  rewrite bool_decide_false by congruence. by rewrite IH.
Qed.

Lemma split_on_app c s rest : (c ∉ s) → split_on c (s ++ c :: rest) = s :: split_on c rest.
Proof.
  induction s as [|x s IH]; cbn [app split_on]; [by rewrite bool_decide_true|].
  rewrite not_elem_of_cons. intros [Hx Hs]. rewrite bool_decide_false by congruence. by rewrite IH.
Qed.

Lemma split_join c segments :
  Forall (λ s, c ∉ s) segments → segments ≠ [] → split_on c (join c segments) = segments.
Proof.
  induction 1 as [|s segments Hs HF IH]; [done|]. intros _. destruct segments as [|s' rest]; [by apply split_on_free|].
  change (join c (s :: s' :: rest)) with (s ++ c :: join c (s' :: rest)).
  rewrite split_on_app by done. by rewrite IH.
Qed.

(** ** The allowlist, as a specification *)

Ltac compute_decides :=
  repeat match goal with
  | |- context [bool_decide ?P] =>
    lazymatch P with lit _ = lit _ => idtac | @eq Method _ _ => idtac end;
    let v := eval vm_compute in (bool_decide P) in change (bool_decide P) with v
  end; cbn [andb].

Lemma parse_method_spec text m : parse_method text = Some m ↔ text = Method_as_str m.
Proof.
  unfold parse_method. split; [|intros ->; by destruct m].
  intros E. repeat split_if_in E; injection E as <-; done.
Qed.

(** The authorization a route carries. *)
Definition authorization_ok (r : HttpRoute) (authorization : list byte) : Prop :=
  if hr_nostr_authorization r
  then ∃ encoded, authorization = lit "Nostr " ++ encoded ∧ encoded ≠ [] ∧ forallb base64_char encoded = true ∧
       Z.of_nat (length authorization) <= MAX_HTTP_AUTHORIZATION_BYTES
  else authorization = [].

Lemma authorization_spec r authorization :
  let encoded := default [] (strip_prefix (lit "Nostr ") authorization) in
  hr_nostr_authorization r &&
     ((MAX_HTTP_AUTHORIZATION_BYTES <? Z.of_nat (length authorization)) || bool_decide (encoded = []) ||
      negb (forallb base64_char encoded)) ||
  negb (hr_nostr_authorization r) && negb (bool_decide (authorization = [])) = false ↔
  authorization_ok r authorization.
Proof.
  unfold authorization_ok. destruct (hr_nostr_authorization r); cbn [andb negb orb].
  2:{ rewrite negb_false_iff. apply bool_decide_eq_true. }
  rewrite orb_false_r, !orb_false_iff, negb_false_iff, bool_decide_eq_false, Z.ltb_ge. split.
  - intros [[H1 H2] H3]. destruct (strip_prefix _ _) as [e|] eqn:E; [|done]. apply strip_prefix_Some in E. by exists e.
  - intros (e & -> & H1 & H2 & H3). rewrite strip_prefix_app. done.
Qed.

Section allowlist.
Context `{X : Hex} {L : HexLaws X}.

(** A path of the VMLS service. *)
Definition vmls (segments : list (list byte)) : list byte := lit "/vmls/v1/" ++ join (ch "/") segments.

(** What a host may ask a paired box for, one rule per route. *)
Inductive admitted : Method → list byte → HttpRoute → Prop :=
  | adm_upload :
      admitted PUT (lit "/upload") (mkHttpRoute BodyOctets MAX_BLOB_BYTES true (RespBlob Upload) MAX_HTTP_BODY_BYTES)
  | adm_download (d : array 32) :
      admitted GET (lit "/" ++ hex_encode (bytes_of d)) (mkHttpRoute BodyEmpty 0 false (RespBlob (Download d)) MAX_BLOB_BYTES)
  | adm_delete (d : array 32) :
      admitted DELETE (lit "/" ++ hex_encode (bytes_of d))
        (mkHttpRoute BodyEmpty 0 true (RespBlob Delete) MAX_HTTP_BODY_BYTES)
  | adm_cadence m rest :
      m = POST ∨ m = PUT → admitted m (lit "/cadence/v1/" ++ rest) CADENCE_ROUTE
  | adm_witness path :
      path = lit "/vmls-witness/v1/read" ∨ path = lit "/vmls-witness/v1/advance" → admitted POST path WITNESS_ROUTE
  | adm_mailbox id :
      lower_hex_32 id = true →
      admitted PUT (vmls [lit "mailboxes"; id; lit "records"]) (vmls_route BodyOctets MAX_HTTP_BODY_BYTES)
  | adm_fetch : admitted POST (vmls [lit "fetch"]) (vmls_route BodyJson MAX_VMLS_FETCH_RESPONSE_BYTES)
  | adm_ack : admitted POST (vmls [lit "ack"]) (vmls_route BodyJson MAX_HTTP_BODY_BYTES)
  | adm_package id :
      lower_hex_32 id = true → admitted PUT (vmls [lit "packages"; id]) (vmls_route BodyJson MAX_HTTP_BODY_BYTES)
  | adm_package_delete id :
      lower_hex_32 id = true → admitted DELETE (vmls [lit "packages"; id]) (vmls_route BodyEmpty MAX_HTTP_BODY_BYTES)
  | adm_slot id n :
      lower_hex_32 id = true → u32 n →
      admitted PUT (vmls [lit "slots"; id; print_num n]) (vmls_route BodyOctets MAX_HTTP_BODY_BYTES)
  | adm_slot_status id n :
      lower_hex_32 id = true → u32 n →
      admitted POST (vmls [lit "slots"; id; print_num n; lit "status"]) (vmls_route BodyJson MAX_VMLS_FETCH_RESPONSE_BYTES)
  | adm_capabilities : admitted GET (vmls [lit "capabilities"]) (vmls_route BodyEmpty MAX_HTTP_BODY_BYTES).

Lemma lower_hex_no_slash s : forallb lower_hex s = true → ch "/" ∉ s.
Proof.
  intros H Hin. rewrite forallb_forall in H. apply list_elem_of_In in Hin. by specialize (H _ Hin).
Qed.

Lemma slash_in_app s rest : existsb (λ b, bool_decide (b = ch "/")) s = true → ch "/" ∈ s ++ rest.
Proof.
  intros (b & Hb & H%bool_decide_eq_true_1)%existsb_exists. subst.
  apply elem_of_app. left. by apply list_elem_of_In.
Qed.

Lemma lower_hex_32_no_slash s : lower_hex_32 s = true → ch "/" ∉ s.
Proof. intros [_ H]%andb_prop. by apply lower_hex_no_slash. Qed.

Lemma print_num_no_slash n : u32 n → ch "/" ∉ print_num n.
Proof.
  intros Hn Hin. assert (H : canonical_u32 (print_num n) = true) by (apply canonical_u32_spec; eauto).
  unfold canonical_u32 in H. to_props. rewrite forallb_forall in H1.
  apply list_elem_of_In in Hin. by specialize (H1 _ Hin).
Qed.

Lemma literal_no_slash s : forallb (λ b, negb (bool_decide (b = ch "/"))) s = true → ch "/" ∉ s.
Proof.
  intros H Hin. rewrite forallb_forall in H. apply list_elem_of_In in Hin. specialize (H _ Hin).
  by rewrite bool_decide_true in H.
Qed.

Local Ltac segments :=
  lazymatch goal with
  | |- Forall _ (_ :: _) => apply Forall_cons_2; [segments | segments]
  | |- Forall _ [] => apply Forall_nil_2
  | |- _ ∉ print_num _ => by apply print_num_no_slash
  | |- _ ∉ lit _ => by apply literal_no_slash
  | |- _ ∉ _ => by apply lower_hex_32_no_slash
  | |- _ => done
  end.

Lemma blob_route_slash m rest : ch "/" ∈ rest → blob_route m (lit "/" ++ rest) = None.
Proof.
  intros Hin. unfold blob_route. destruct (bool_decide_reflect (lit "/" ++ rest = lit "/upload")) as [E|E].
  { exfalso. injection E as ->. by apply (bool_decide_eq_false_1 (ch "/" ∈ lit "upload")) in Hin. }
  rewrite andb_false_r, strip_prefix_app. cbn [mbind option_bind].
  destruct (lower_hex_32 rest) eqn:H; [|done]. by apply lower_hex_32_no_slash in H.
Qed.

Lemma allowlisted_vmls m segments :
  segments ≠ [] → Forall (λ s, ch "/" ∉ s) segments →
  allowlisted m (vmls segments) = vmls_segments m segments.
Proof.
  intros Hne HF. unfold allowlisted.
  assert (Hb : blob_route m (vmls segments) = None).
  { change (vmls segments) with (lit "/" ++ (lit "vmls/v1/" ++ join (ch "/") segments)). by apply blob_route_slash, slash_in_app. }
  rewrite Hb. unfold vmls. rewrite bool_decide_false by (intros [r Hr]; by apply strip_prefix_Some in Hr).
  rewrite !(bool_decide_false (_ = _)) by done. cbn [orb]. rewrite strip_prefix_app. cbn [mbind option_bind].
  by rewrite split_join.
Qed.

Lemma vmls_segments_spec m segments r :
  vmls_segments m segments = Some r → admitted m (vmls segments) r.
Proof.
  unfold vmls_segments. destruct segments as [|a [|b [|c [|d [|]]]]]; intros E; try discriminate E.
  - repeat split_if_in E; to_props; subst; injection E as <-; constructor.
  - split_if_in E; to_props; subst. destruct m; try discriminate E; injection E as <-; by constructor.
  - repeat split_if_in E; to_props; subst; injection E as <-; [by constructor|].
    match goal with H : canonical_u32 _ = true |- _ => apply canonical_u32_spec in H as (n & Hn & ->) end. by constructor.
  - split_if_in E; to_props; subst. injection E as <-.
    match goal with H : canonical_u32 _ = true |- _ => apply canonical_u32_spec in H as (n & Hn & ->) end. by constructor.
Qed.

Lemma blob_route_spec m path r : blob_route m path = Some r → admitted m path r.
Proof.
  unfold blob_route. intros E. split_if_in E; to_props; subst; [injection E as <-; constructor|].
  destruct (strip_prefix (lit "/") path) as [h|] eqn:Hp; [|done]. apply strip_prefix_Some in Hp as ->.
  cbn [mbind option_bind] in E. destruct (lower_hex_32 h) eqn:Hh; [|done]. cbn [negb] in E.
  destruct (hex_decode h) as [raw|] eqn:Hd; [|done]. cbn [mbind option_bind] in E.
  destruct (try_array 32 raw) as [d|] eqn:Ht; [|done]. cbn [mbind option_bind] in E.
  unfold lower_hex_32 in Hh. to_props. apply try_array_Some in Ht.
  apply hex_encode_decode in Hd; [|done]. subst.
  destruct m; try discriminate E; injection E as <-; constructor.
Qed.

Lemma blob_route_digest m (d : array 32) :
  blob_route m (lit "/" ++ hex_encode (bytes_of d)) =
  match m with
  | GET => Some (mkHttpRoute BodyEmpty 0 false (RespBlob (Download d)) MAX_BLOB_BYTES)
  | DELETE => Some (mkHttpRoute BodyEmpty 0 true (RespBlob Delete) MAX_HTTP_BODY_BYTES)
  | _ => None
  end.
Proof.
  assert (Hn : lit "/" ++ hex_encode (bytes_of d) ≠ lit "/upload").
  { intros E. apply (f_equal length) in E. rewrite length_app, hex_encode_length, bytes_of_length in E. done. }
  unfold blob_route. rewrite (bool_decide_false (_ = lit "/upload")) by done.
  rewrite andb_false_r, strip_prefix_app. cbn [mbind option_bind].
  assert (Hl : lower_hex_32 (hex_encode (bytes_of d)) = true).
  { unfold lower_hex_32. by rewrite hex_encode_length, bytes_of_length, hex_encode_lower. }
  rewrite Hl, hex_decode_encode. cbn [negb mbind option_bind]. rewrite try_array_bytes. cbn [mbind option_bind].
  by destruct m.
Qed.

Lemma allowlisted_admitted m path r : allowlisted m path = Some r → admitted m path r.
Proof.
  unfold allowlisted. destruct (blob_route m path) as [r'|] eqn:Hb; [intros [= <-]; by apply blob_route_spec|].
  destruct (bool_decide_reflect (is_Some (strip_prefix (lit "/cadence/v1/") path))) as [[rest Hp]|_].
  { apply strip_prefix_Some in Hp as ->. intros E. split_if_in E. injection E as <-. constructor.
    apply orb_prop in G as [G|G]; apply bool_decide_eq_true_1 in G; auto. }
  destruct (_ || _) eqn:Hw.
  { intros E. split_if_in E. injection E as <-. subst. constructor.
    apply orb_prop in Hw as [Hw|Hw]; apply bool_decide_eq_true_1 in Hw; auto. }
  destruct (strip_prefix (lit "/vmls/v1/") path) as [rest|] eqn:Hp; [|done]. cbn [mbind option_bind].
  apply strip_prefix_Some in Hp as ->. intros E%vmls_segments_spec. unfold vmls in E. by rewrite join_split in E.
Qed.

Lemma admitted_allowlisted m path r : admitted m path r → allowlisted m path = Some r.
Proof.
  assert (Hc : ∀ n, u32 n → canonical_u32 (print_num n) = true) by (intros n Hn; apply canonical_u32_spec; eauto).
  destruct 1 as [ | d | d | m rest Hm | path Hp | id Hid | | | id Hid | id Hid | id n Hid Hn | id n Hid Hn | ].
  - unfold allowlisted, blob_route. by compute_decides.
  - unfold allowlisted. by rewrite blob_route_digest.
  - unfold allowlisted. by rewrite blob_route_digest.
  - unfold allowlisted. change (lit "/cadence/v1/" ++ rest) with (lit "/" ++ (lit "cadence/v1/" ++ rest)) at 1.
    rewrite blob_route_slash by (by apply slash_in_app).
    rewrite strip_prefix_app, bool_decide_true by done. by destruct Hm as [-> | ->].
  - unfold allowlisted. by destruct Hp as [-> | ->]; vm_compute.
  - rewrite allowlisted_vmls by segments. unfold vmls_segments. compute_decides. by rewrite Hid.
  - by rewrite allowlisted_vmls by segments.
  - by rewrite allowlisted_vmls by segments.
  - rewrite allowlisted_vmls by segments. unfold vmls_segments. compute_decides. by rewrite Hid.
  - rewrite allowlisted_vmls by segments. unfold vmls_segments. compute_decides. by rewrite Hid.
  - rewrite allowlisted_vmls by segments. unfold vmls_segments. compute_decides. by rewrite Hid, Hc.
  - rewrite allowlisted_vmls by segments. unfold vmls_segments. compute_decides. by rewrite Hid, Hc.
  - by rewrite allowlisted_vmls by segments.
Qed.

Lemma validate_spec request body_bytes m r :
  validate_http_request_length request body_bytes = Ok (m, r) ↔
  jr_method request = Method_as_str m ∧
  path_not_canonical (jr_path request) = false ∧
  admitted m (jr_path request) r ∧
  authorization_ok r (jr_authorization request) ∧
  body_bytes <= hr_max_body_bytes r ∧
  (hr_response r = RespBlob Upload → body_bytes ≠ 0).
Proof.
  unfold validate_http_request_length. split.
  - destruct (parse_method _) as [m'|] eqn:Hm; [|done]. apply parse_method_spec in Hm.
    destruct (path_not_canonical _) eqn:Hp; [done|].
    destruct (allowlisted m' _) as [r'|] eqn:Ha; [|done]. apply allowlisted_admitted in Ha. cbn zeta.
    intros E. split_if_in E. split_if_in E. split_if_in E. split_if_in E. injection E as -> ->. to_props.
    split_and!; [done.. | | done |].
    + apply authorization_spec. by rewrite G, G0.
    + intros Hu. apply andb_false_iff in G2 as [G2|G2]; to_props; done.
  - intros (Hm & Hp & Ha & Hauth & Hb & Hu). apply parse_method_spec in Hm as ->. rewrite Hp.
    apply admitted_allowlisted in Ha as ->. cbn zeta. apply authorization_spec in Hauth.
    apply orb_false_iff in Hauth as [-> ->]. rewrite (proj2 (Z.ltb_ge _ _)) by done.
    destruct (bool_decide_reflect (hr_response r = RespBlob Upload)) as [E|E]; cbn [andb]; [|done].
    rewrite (proj2 (Z.eqb_neq _ _)) by auto. done.
Qed.

(** C24: The request boundary of the engine is exactly the allowlist: a request
    passes the checks, with the bounds of a route, just when its method is one of
    the four, its path is a canonical one (graphic ASCII, no query or fragment, at
    most 2048 bytes) that one of the thirteen rules admits under that method, its
    authorization is one bounded [Nostr <base64>] value on a route that carries
    one and empty on a route that does not, and its body has the size the route
    allows (an upload is not empty). *)
Theorem request_allowlist request body_bytes m r :
  validate_http_request_length request body_bytes = Ok (m, r) ↔
  jr_method request = Method_as_str m ∧
  path_not_canonical (jr_path request) = false ∧
  admitted m (jr_path request) r ∧
  authorization_ok r (jr_authorization request) ∧
  body_bytes <= hr_max_body_bytes r ∧
  (hr_response r = RespBlob Upload → body_bytes ≠ 0).
Proof. apply validate_spec. Qed.

End allowlist.

Lemma request_allowlist_witness :
  let request := mkJsonRequest (lit "box") (lit "POST") (vmls [lit "slots"; replicate 64 (ch "a"); print_num 7; lit "status"])
                   (lit "Nostr YQ==") [] in
  validate_http_request_length (X:=ascii_hex) request 10 =
  Ok (POST, vmls_route BodyJson MAX_VMLS_FETCH_RESPONSE_BYTES).
Proof.
  intros request. apply (request_allowlist (X:=ascii_hex) (L:=ascii_hex_laws)).
  split; [done|]. split; [by vm_compute|]. split; [apply (adm_slot_status (X:=ascii_hex)); [by vm_compute | done]|].
  split; [|split; [by vm_compute | done]].
  exists (lit "YQ=="). split; [done|]. split; [done|]. split; [by vm_compute | by vm_compute].
Defined.

(** ** Responses *)

(** The data of a body. *)
Fixpoint frame_data (frames : list (option BodyFrame)) : list byte :=
  match frames with
  | [] => []
  | Some (FData data) :: rest => data ++ frame_data rest
  | _ :: rest => frame_data rest
  end.

Lemma collect_frames_spec frames acc limit label b :
  Z.of_nat (length acc) <= limit →
  collect_frames frames acc limit label = Ok b ↔
  Forall is_Some frames ∧ b = acc ++ frame_data frames ∧ Z.of_nat (length b) <= limit.
Proof.
  revert acc. induction frames as [|[[data|]|] frames IH]; intros acc Hacc; cbn [collect_frames frame_data].
  - rewrite app_nil_r. split; [intros [= ->]; done | intros (_ & -> & _); done].
  - destruct (Z.ltb_spec limit (Z.of_nat (length acc) + Z.of_nat (length data))) as [Hlt|Hge].
    + split; [done|]. intros (_ & -> & Hb). rewrite !length_app in Hb. lia.
    + rewrite IH by (rewrite length_app; lia). rewrite app_assoc, Forall_cons. naive_solver.
  - rewrite IH by done. rewrite Forall_cons. naive_solver.
  - split; [done|]. rewrite Forall_cons. intros [[[? H] _] _]. done.
Qed.

Lemma collect_bounded_spec frames limit label b :
  0 <= limit →
  collect_bounded frames limit label = Ok b ↔
  Forall is_Some frames ∧ b = frame_data frames ∧ Z.of_nat (length b) <= limit.
Proof. intros. unfold collect_bounded. by rewrite collect_frames_spec. Qed.

Section responses.
Context `{C : Crypto}.

(** What a response of each kind may hand to the host. *)
Definition delivered (response : Response) (route : HttpRoute) (body : list byte) : Prop :=
  let st := rs_status response in
  match hr_response route with
  | RespJson => body = frame_data (rs_frames response)
  | JsonOrEmptyRefusal => body = frame_data (rs_frames response) ∨ (is_success st = false ∧ body = [])
  | WitnessReceipt =>
    (body = frame_data (rs_frames response) ∧ Z.of_nat (length body) = WITNESS_RECEIPT_BYTES ∧ (st = 200 ∨ st = 409 ∨ st = 410)) ∨
    (is_success st = false ∧ body = [])
  | RespBlob kind =>
    (is_success st = false ∧ body = []) ∨
    (body = frame_data (rs_frames response) ∧
     match kind with
     | Upload => st = 200 ∨ st = 201
     | Download digest => st = 200 ∧ sha256 body = digest
     | Delete => st = 200
     end)
  end.

Ltac ok_bind E :=
  match type of E with
  | (mbind _ ?m) = Ok _ => let H := fresh "B" in destruct m eqn:H; cbn [mbind result_bind] in E; [|discriminate E]
  end.

Lemma decode_download_ok response digest st body :
  decode_download response digest = Ok (st, body) →
  st = rs_status response ∧ body = frame_data (rs_frames response) ∧ sha256 body = digest ∧
  Z.of_nat (length body) <= MAX_BLOB_BYTES.
Proof.
  unfold decode_download. cbn zeta. intros E. split_if_in E. ok_bind E.
  destruct a as [text|]; [|done]. split_if_in E.
  destruct (parse_usize text) as [len|] eqn:Hl; [|done]. split_if_in E. split_if_in E. ok_bind E.
  split_if_in E. injection E as <- <-. to_props.
  apply collect_bounded_spec in B0 as (_ & -> & _); [|lia]. split_and!; [done.. | lia].
Qed.

Lemma decode_blob_ok response kind st body :
  decode_blob response kind = Ok (st, body) →
  st = rs_status response ∧
  delivered response (mkHttpRoute BodyEmpty 0 false (RespBlob kind) 0) body ∧
  Z.of_nat (length body) <= match kind with Download _ => MAX_BLOB_BYTES | _ => MAX_HTTP_BODY_BYTES end.
Proof.
  unfold decode_blob, delivered. cbn zeta. cbn [hr_response]. intros E. split_if_in E.
  { ok_bind E. injection E as <- <-. to_props. split_and!; [done | by left | by destruct kind]. }
  split_if_in E. split_if_in E. ok_bind E. split_if_in E. ok_bind E. to_props. destruct kind as [|digest|].
  - split_if_in E. ok_bind E. injection E as <- <-. apply collect_bounded_spec in B1 as (_ & -> & ?); [|done].
    apply orb_prop in G0 as [?|?]; to_props; split_and!; auto.
  - split_if_in E. apply decode_download_ok in E as (-> & -> & ? & ?). to_props. split_and!; auto.
  - split_if_in E. ok_bind E. injection E as <- <-. apply collect_bounded_spec in B1 as (_ & -> & ?); [|done].
    to_props; split_and!; auto.
Qed.

Lemma decode_typed_ok response route st body :
  0 <= hr_max_response_bytes route → is_file route = false →
  decode_http_response response route = Ok (st, body) →
  st = rs_status response ∧ Z.of_nat (length body) <= hr_max_response_bytes route ∧ delivered response route body.
Proof.
  intros H0 Hf. unfold decode_http_response, delivered, is_file in *. destruct (is_redirection _); [done|]. cbn zeta.
  destruct (hr_response route) as [| | |kind]; [| | |done]; intros E; split_if_in E;
    try (split_if_in E; ok_bind E; injection E as <- <-; to_props; by auto);
    ok_bind E; apply collect_bounded_spec in B as (_ & -> & ?); try done; split_if_in E; injection E as <- <-; auto.
  split_and!; [done..|]. left. apply negb_false_iff, andb_prop in G as [_ G].
  cbn [negb orb] in G. rewrite bool_decide_true in G by done. cbn [negb orb] in G. rewrite bool_decide_true in G0 by done.
  cbn [andb] in G0. to_props. split_and!; [done..|]. apply orb_prop in G as [[G|G]%orb_prop|G]; to_props; auto.
Qed.

Lemma admitted_bounds `{X : Hex} m path route :
  admitted m path route →
  0 <= hr_max_response_bytes route ∧
  ∀ kind, hr_response route = RespBlob kind →
    hr_max_response_bytes route = match kind with Download _ => MAX_BLOB_BYTES | _ => MAX_HTTP_BODY_BYTES end.
Proof. destruct 1; split; try done; by intros kind [= <-]. Qed.

Lemma decode_ok `{X : Hex} m path route response st body :
  admitted m path route →
  decode_http_response response route = Ok (st, body) →
  st = rs_status response ∧ is_redirection st = false ∧
  Z.of_nat (length body) <= hr_max_response_bytes route ∧
  delivered response route body.
Proof.
  intros [H0 Hb]%admitted_bounds E. assert (Hr : is_redirection (rs_status response) = false).
  { unfold decode_http_response in E. by destruct (is_redirection _). }
  destruct (hr_response route) as [| | |kind] eqn:Hk.
  4:{ unfold decode_http_response in E. rewrite Hr, Hk in E. apply decode_blob_ok in E as (-> & Hd & Hl).
      rewrite (Hb kind eq_refl). unfold delivered in *. by rewrite Hk. }
  all: apply decode_typed_ok in E as (-> & ? & ?); [done | done | unfold is_file; by rewrite Hk].
Qed.

(** C25: Whatever a paired box answers, an answer the engine hands to the host is
    within the bound of the allowlisted route it was asked on and is never a
    redirect's: its status is the response's, its body is the whole body of the
    response or, for a refusal, empty; a witness receipt is exactly 170 bytes
    under status 200, 409 or 410; a downloaded file has the digest its path
    named. *)
Theorem response_bounded `{X : Hex} m path route response st body :
  admitted m path route →
  decode_http_response response route = Ok (st, body) →
  st = rs_status response ∧ is_redirection st = false ∧
  Z.of_nat (length body) <= hr_max_response_bytes route ∧
  delivered response route body.
Proof. apply decode_ok. Qed.

End responses.

(** A file in two frames, with its digest in the path. *)
Definition hello_digest : array 32 := sha256 (Crypto:=toy_crypto) (lit "hello").

Definition hello_response : Response :=
  mkResponse 200 [(lit "content-type", lit "application/octet-stream"); (lit "content-length", lit "5")]
    [Some (FData (lit "he")); Some FTrailers; Some (FData (lit "llo"))].

Lemma response_bounded_witness :
  200 = rs_status hello_response ∧ is_redirection 200 = false ∧
  Z.of_nat (length (lit "hello")) <= MAX_BLOB_BYTES ∧
  delivered (C:=toy_crypto) hello_response
    (mkHttpRoute BodyEmpty 0 false (RespBlob (Download hello_digest)) MAX_BLOB_BYTES) (lit "hello").
Proof.
  refine (response_bounded (C:=toy_crypto) (X:=ascii_hex) GET (lit "/" ++ @hex_encode ascii_hex (bytes_of hello_digest))
            (mkHttpRoute BodyEmpty 0 false (RespBlob (Download hello_digest)) MAX_BLOB_BYTES)
            hello_response 200 (lit "hello") (adm_download (X:=ascii_hex) hello_digest) _).
  by vm_compute.
Defined.

(** ** Enrolment frames and persisted routes *)

Lemma route_card_prefix b0 b1 b2 b3 b4 b5 card :
  route_card (b0 :: b1 :: b2 :: b3 :: b4 :: b5 :: card) =
  Ret (if bool_decide ([b0; b1; b2; b3] = ROUTE_MAGIC) && (length card <=? MAX_CARD_BYTES)%nat &&
          (from_be [b4; b5] =? Z.of_nat (length card))
       then Ok card else Err (EngRoute "server returned a malformed route frame")).
Proof.
  unfold route_card. cbn zeta. rewrite (slice_ok 0 4) by (cbn [length]; lia).
  rewrite (slice_ok ROUTE_PREFIX_BYTES) by (unfold ROUTE_PREFIX_BYTES; cbn [length]; lia).
  unfold ROUTE_PREFIX_BYTES, index. rewrite (proj2 (Nat.ltb_ge _ 6)) by (cbn [length]; lia).
  cbn [length Nat.sub take drop lookup list_lookup expect mbind exec_bind].
  rewrite Nat.sub_0_r, drop_0, firstn_all. destruct (bool_decide ([b0; b1; b2; b3] = ROUTE_MAGIC)); cbn [negb andb]; [|done].
  pose proof (from_be_range [b4; b5]) as [H0 _].
  destruct (Nat.leb_spec (length card) MAX_CARD_BYTES); destruct (Z.eqb_spec (from_be [b4; b5]) (Z.of_nat (length card)));
    cbn [andb]; split_if; try done; exfalso;
    first [apply orb_prop in G as [G|G] | idtac]; to_props; unfold MAX_CARD_BYTES in *; lia.
Qed.

(** The frame of a card is the one text that reads back to it, and reading never
    panics. *)
Lemma route_card_spec frame card :
  route_card frame = Ret (Ok card) ↔ (length card ≤ MAX_CARD_BYTES)%nat ∧ route_frame card = Ret frame.
Proof.
  split.
  - destruct frame as [|b0 [|b1 [|b2 [|b3 [|b4 [|b5 rest]]]]]]; try done. rewrite route_card_prefix.
    intros [= E]. split_if_in E. injection E as ->. to_props. split; [done|]. unfold route_frame.
    rewrite (proj2 (Z.ltb_lt _ _)) by (unfold MAX_CARD_BYTES in *; lia). do 2 f_equal.
    match goal with H : from_be _ = _ |- _ => rewrite <- H end. rewrite (to_from_be_n 2 [b4; b5]) by done.
    match goal with H : _ = ROUTE_MAGIC |- _ => rewrite <- H end. done.
  - intros [Hl Hf]. unfold route_frame in Hf. rewrite (proj2 (Z.ltb_lt _ _)) in Hf by (unfold MAX_CARD_BYTES in Hl; lia).
    assert (frame = ROUTE_MAGIC ++ to_be 2 (Z.of_nat (length card)) ++ card) as -> by congruence. clear Hf.
    pose proof (to_be_length 2 (Z.of_nat (length card))) as Hn.
    pose proof (from_to_be_16 (Z.of_nat (length card))) as Hv.
    destruct (to_be 2 _) as [|x [|y [|]]]; try done.
    change (ROUTE_MAGIC ++ [x; y] ++ card) with (ch "E" :: ch "V" :: ch "R" :: ch "1" :: x :: y :: card).
    rewrite route_card_prefix, Hv by (unfold u16, MAX_CARD_BYTES in *; lia).
    rewrite (bool_decide_true (_ = ROUTE_MAGIC)) by done. rewrite (proj2 (Nat.leb_le _ _)) by done.
    by rewrite Z.eqb_refl.
Qed.

Section persisted.
Context `{C : Crypto, R : RdvCrypto}.

Lemma node_from_card bytes :
  (37 ≤ length bytes)%nat → node_from_card_bytes bytes = Ok (f_node bytes).
Proof.
  intros Hl. unfold node_from_card_bytes. rewrite (proj2 (Nat.leb_le _ _)) by done.
  fold (field 5 32 bytes). rewrite from_slice_field by lia. done.
Qed.

Lemma verify_route_returns route : ∃ r, verify_route route = Ret r.
Proof.
  unfold verify_route. split_if; [eauto|]. destruct (node_from_card_bytes _) as [node|]; [|eauto].
  split_if; [eauto|]. cbn zeta. match goal with |- context [Card_verify ?b ?c] =>
    destruct (verify_verdict b c) as (r & -> & _) end. cbn [mbind exec_bind]. eauto.
Qed.

(** What an accepted route holds: its card, read under the node the card names,
    at the serial the route retains. *)
Lemma verify_route_ok route node card :
  verify_route route = Ret (Ok (node, card)) →
  er_route_id route ≠ [] ∧ 1 <= er_card_serial route ∧
  card_node_id card = node ∧ card_serial card = er_card_serial route ∧ card_raw card = er_card route.
Proof.
  unfold verify_route. intros E. split_if_in E.
  destruct (node_from_card_bytes _) as [n|] eqn:Hn; [|done]. split_if_in E. cbn zeta in E.
  match type of E with context [Card_verify ?b ?c] => destruct (Card_verify b c) as [[c'|v]|] eqn:Hv end; try done.
  cbn [mbind exec_bind] in E. destruct (Z.eqb_spec (card_serial c') (er_card_serial route)); [|done].
  injection E as <- <-. apply verify_sound in Hv as [Hr (Hraw & _ & Hid & _)]. to_props.
  split_and!; [done | lia | | done | done]. rewrite Hid. symmetry. by apply (Hr 9 ltac:(lia)).
Qed.

(** A card accepted now under a node is accepted again from the store, at the
    second it was accepted, whatever the clock says by then. *)
Lemma verified_card_restarts id node card bytes psecret now seen :
  id ≠ [] → 0 <= seen →
  Card_verify bytes (VerifyContext_after_serial (VerifyContext_expecting (VerifyContext_new now) node) seen) = Ret (Ok card) →
  verify_route (mkERoute id (card_raw card) psecret (card_serial card) now) = Ret (Ok (node, card)).
Proof.
  intros Hid Hseen Hv. pose proof (verify_sound _ _ _ Hv) as [Hr Hd]. destruct Hd as (Hraw & Hd).
  pose proof (Hr 1 ltac:(lia)) as [Hl _]. pose proof (Hr 8 ltac:(lia)) as H8.
  pose proof (Hr 9 ltac:(lia) node eq_refl) as Hnode. unfold MIN_CARD_BYTES in Hl. cbn in H8.
  destruct Hd as (Hh & Hcn & Hi & He & Hs).
  unfold verify_route. cbn [er_route_id er_card er_card_serial er_card_verified_at]. rewrite bool_decide_false by done.
  rewrite Hraw, node_from_card, <- Hnode by lia. rewrite (proj2 (Z.leb_gt _ _)) by lia. cbn zeta.
  set (ctx := VerifyContext_after_serial _ _).
  assert (Hr' : rules_below ctx bytes 10).
  { intros r Hrr. specialize (Hr r Hrr).
    assert (r = 1 ∨ r = 2 ∨ r = 3 ∨ r = 4 ∨ r = 5 ∨ r = 6 ∨ r = 7 ∨ r = 8 ∨ r = 9) as Hcases by lia.
    destruct Hcases as [->|[->|[->|[->|[->|[->|[->|[->| ->]]]]]]]]; try exact Hr. cbn. lia. }
  destruct (verify_complete _ _ Hr') as (c' & -> & Hd').
  assert (c' = card) as ->.
  { destruct c', card. destruct Hd' as (? & Hh' & ? & ? & ? & ?). cbn in *.
    assert (card_hints = card_hints0) by (by eapply hints_of_unique). congruence. }
  cbn [mbind exec_bind]. by rewrite Z.eqb_refl.
Qed.

End persisted.
