(* ===== verification/WebSocket.v ===== *)
(** * WebSocket: text messages over a session stream ([link-websocket/src/lib.rs])

    The virtual URL check, the handle's bounded command queue and the driver task.
    The driver is cut at its await points: in [select!] it waits in [DSelect], a
    frame being written is [DWrite], and the one terminal event waiting for room in
    the application's queue is [DTerminal].  tungstenite is not modelled: a message
    it yields and the outcome of a write are inputs, a URL is its parsed parts. *)

From S2P Require Import Prelude Net Id.

Open Scope Z_scope.

Definition MAX_TEXT_BYTES : Z := 1048576.
Definition OUTBOUND_QUEUE : nat := 64.
Definition INBOUND_QUEUE : nat := 64.

Inductive SocketError : Type :=
  | SScheme | SAuthority | SPath | SHost | SPeerMismatch | STextTooLarge | SQueueFull | SClosed
  | SStream (reason : string) | SUpgrade (reason : string).

Inductive IncomingMessage : Type := InText (text : list byte) | InClosed (reason : string).
Inductive Command : Type := CText (text : list byte) | CClose.

(** [tungstenite::Message]. *)
Inductive Message : Type :=
  | MText (text : list byte) | MBinary (data : list byte) | MPing (payload : list byte) | MPong (payload : list byte)
  | MClose | MFrame.

(** ** The virtual URL *)

(** What the [url] crate says of a parsed URL. *)
Record Url : Type := mkUrl {
  url_scheme : list byte;
  url_username : list byte;
  url_password : option (list byte);
  url_host : option (list byte);
  url_port : option Z;
  url_path : list byte;
  url_query : option (list byte);
  url_fragment : option (list byte);
}.

Definition validate_virtual_url (url : Url) (peer : NodeId) : result SocketError unit :=
  if negb (bool_decide (url_scheme url = lit "ws")) then Err SScheme
  else if negb (bool_decide (url_username url = [])) || bool_decide (is_Some (url_password url)) ||
          bool_decide (is_Some (url_port url)) || bool_decide (is_Some (url_query url)) ||
          bool_decide (is_Some (url_fragment url))
  then Err SAuthority
  else if negb (bool_decide (url_path url = lit "/events") || bool_decide (url_path url = lit "/drops")) then Err SPath
  else match url_host url with
  | None => Err SHost
  | Some host =>
    match NodeId_from_base32 host with
    | None => Err SHost
    | Some node => if bool_decide (node = peer) then Ok tt else Err SPeerMismatch
    end
  end.

(** ** The socket and its driver *)

(** What the driver does once the frame it writes has been taken: go on, or stop
    with this reason when the write failed; or stop with this reason whatever the
    write did ([close_once]). *)
Inductive After : Type := Continue (failed : string) | Stop (reason : string).

Inductive Driver : Type :=
  | DSelect
  | DWrite (m : Message) (after : After)
  | DTerminal (reason : string)
  | DDone.

Record Ws : Type := mkWs {
  ws_commands : list Command;
  (** live [Socket] handles *)
  ws_handles : nat;
  (** the watched flag, and whether the driver has yet to see its last change *)
  ws_overflow : bool;
  ws_unseen : bool;
  ws_inbox : list IncomingMessage;
  (** the application still holds its receiver *)
  ws_receiver : bool;
  ws_driver : Driver;
  (** histories: texts the handle took, frames written, texts that arrived, and
      what the application received *)
  ws_accepted : list (list byte);
  ws_written : list Message;
  ws_arrived : list (list byte);
  ws_received : list IncomingMessage;
}.

Definition Ws_open : Ws := mkWs [] 1 false false [] true DSelect [] [] [] [].

Definition ws_set_commands (w : Ws) (q : list Command) (accepted : list (list byte)) : Ws :=
  mkWs q (ws_handles w) (ws_overflow w) (ws_unseen w) (ws_inbox w) (ws_receiver w) (ws_driver w)
    accepted (ws_written w) (ws_arrived w) (ws_received w).
Definition ws_set_handles (w : Ws) (n : nat) : Ws :=
  mkWs (ws_commands w) n (ws_overflow w) (ws_unseen w) (ws_inbox w) (ws_receiver w) (ws_driver w)
    (ws_accepted w) (ws_written w) (ws_arrived w) (ws_received w).
Definition ws_set_overflow (w : Ws) (value unseen : bool) : Ws :=
  mkWs (ws_commands w) (ws_handles w) value unseen (ws_inbox w) (ws_receiver w) (ws_driver w)
    (ws_accepted w) (ws_written w) (ws_arrived w) (ws_received w).
Definition ws_set_inbox (w : Ws) (q received : list IncomingMessage) : Ws :=
  mkWs (ws_commands w) (ws_handles w) (ws_overflow w) (ws_unseen w) q (ws_receiver w) (ws_driver w)
    (ws_accepted w) (ws_written w) (ws_arrived w) received.
Definition ws_set_driver (w : Ws) (d : Driver) : Ws :=
  mkWs (ws_commands w) (ws_handles w) (ws_overflow w) (ws_unseen w) (ws_inbox w) (ws_receiver w) d
    (ws_accepted w) (ws_written w) (ws_arrived w) (ws_received w).
Definition ws_wrote (w : Ws) (m : Message) : Ws :=
  mkWs (ws_commands w) (ws_handles w) (ws_overflow w) (ws_unseen w) (ws_inbox w) (ws_receiver w) (ws_driver w)
    (ws_accepted w) (ws_written w ++ [m]) (ws_arrived w) (ws_received w).
Definition ws_arrive (w : Ws) (text : list byte) : Ws :=
  mkWs (ws_commands w) (ws_handles w) (ws_overflow w) (ws_unseen w) (ws_inbox w) (ws_receiver w) (ws_driver w)
    (ws_accepted w) (ws_written w) (ws_arrived w ++ [text]) (ws_received w).
(** The receiver is dropped with what it had not read. *)
Definition ws_drop_receiver (w : Ws) : Ws :=
  mkWs (ws_commands w) (ws_handles w) (ws_overflow w) (ws_unseen w) [] false (ws_driver w)
    (ws_accepted w) (ws_written w) (ws_arrived w) (ws_received w).

Definition running (w : Ws) : bool := match ws_driver w with DDone => false | _ => true end.

(** [commands.try_send]: closed once the driver has returned, else full or taken.
    A full queue sets the watched flag. *)
Definition try_command (w : Ws) (c : Command) : Ws * result SocketError unit :=
  if negb (running w) then (w, Err SClosed)
  else if (OUTBOUND_QUEUE <=? length (ws_commands w))%nat then (ws_set_overflow w true true, Err SQueueFull)
  else (ws_set_commands w (ws_commands w ++ [c])
          (match c with CText text => ws_accepted w ++ [text] | CClose => ws_accepted w end), Ok tt).

Definition send_text (w : Ws) (text : list byte) : Ws * result SocketError unit :=
  if MAX_TEXT_BYTES <? Z.of_nat (length text) then (w, Err STextTooLarge) else try_command w (CText text).

Definition socket_close (w : Ws) : Ws * result SocketError unit := try_command w CClose.

(** [open]: the URL is checked against the session's peer before a stream is opened
    and upgraded; [stream] and [upgrade] are the reasons these failed for. *)
Definition websocket_open (url : Url) (peer : NodeId) (stream upgrade : option string) : result SocketError Ws :=
  _ ← validate_virtual_url url peer;
  match stream with
  | Some reason => Err (SStream reason)
  | None => match upgrade with Some reason => Err (SUpgrade reason) | None => Ok Ws_open end
  end.

(** [close_once] then [terminal]. *)
Definition closing (w : Ws) (reason : string) : Ws := ws_set_driver w (DWrite MClose (Stop reason)).

(** The [overflow.changed()] branch: ready on an unseen change, or once every
    handle is gone. *)
Definition on_overflow (w : Ws) : Ws :=
  if ws_unseen w then
    let w := ws_set_overflow w (ws_overflow w) false in
    if ws_overflow w then closing w "outbound queue overflow" else w
  else if (ws_handles w =? 0)%nat then closing w "closed locally"
  else w.

(** The [commands.recv()] branch: ready on a command, or once the queue is empty
    and every handle is gone. *)
Definition on_command (w : Ws) : Ws :=
  match ws_commands w with
  | CText text :: rest =>
    ws_set_driver (ws_set_commands w rest (ws_accepted w)) (DWrite (MText text) (Continue "write failed"))
  | CClose :: rest => closing (ws_set_commands w rest (ws_accepted w)) "closed locally"
  | [] => if (ws_handles w =? 0)%nat then closing w "closed locally" else w
  end.

(** [incoming.try_send] succeeds. *)
Definition inbox_room (w : Ws) : bool := ws_receiver w && (length (ws_inbox w) <? INBOUND_QUEUE)%nat.

(** The [websocket.next()] branch: [None] is the end of the stream, [Some None] an
    error. *)
Definition on_message (w : Ws) (m : option (option Message)) : Ws :=
  match m with
  | Some (Some (MText text)) =>
    let w := ws_arrive w text in
    if MAX_TEXT_BYTES <? Z.of_nat (length text) then closing w "text frame exceeds limit"
    else if inbox_room w then ws_set_inbox w (ws_inbox w ++ [InText text]) (ws_received w)
    else closing w "inbound queue overflow"
  | Some (Some (MPing payload)) => ws_set_driver w (DWrite (MPong payload) (Continue "pong failed"))
  | Some (Some (MPong _)) => w
  | Some (Some MClose) => closing w "closed by peer"
  | Some (Some (MBinary _)) | Some (Some MFrame) => closing w "binary frames are not supported"
  | Some None => ws_set_driver w (DTerminal "WebSocket protocol error")
  | None => ws_set_driver w (DTerminal "connection ended")
  end.

(** The write under way ends. *)
Definition on_written (w : Ws) (ok : bool) : Ws :=
  match ws_driver w with
  | DWrite m after =>
    let w := if ok then ws_wrote w m else w in
    match after with
    | Continue failed => ws_set_driver w (if ok then DSelect else DTerminal failed)
    | Stop reason => ws_set_driver w (DTerminal reason)
    end
  | _ => w
  end.

(** [incoming.send(Closed(reason)).await]: it waits for room, and gives up when
    the receiver is gone; then the driver returns, dropping what was queued. *)
Definition on_terminal (w : Ws) : Ws :=
  match ws_driver w with
  | DTerminal reason =>
    let ended := ws_set_driver (ws_set_commands w [] (ws_accepted w)) DDone in
    if negb (ws_receiver w) then ended
    else if (length (ws_inbox w) <? INBOUND_QUEUE)%nat
    then ws_set_inbox ended (ws_inbox w ++ [InClosed reason]) (ws_received w)
    else w
  | _ => w
  end.

(** ** Histories *)

Inductive WEvent : Type :=
  | WSend (text : list byte)
  | WClose
  | WClone
  | WDropHandle
  | WReceive
  | WDropReceiver
  | WOverflow
  | WCommand
  | WMessage (m : option (option Message))
  | WWritten (ok : bool)
  | WTerminal.

(** A handle's calls need a handle, the driver's branches need it in [select!]. *)
Definition ws_step (w : Ws) (ev : WEvent) : Ws :=
  let handle (w' : Ws) := if (ws_handles w =? 0)%nat then w else w' in
  let selecting (w' : Ws) := match ws_driver w with DSelect => w' | _ => w end in
  match ev with
  | WSend text => handle (fst (send_text w text))
  | WClose => handle (fst (socket_close w))
  | WClone => handle (ws_set_handles w (S (ws_handles w)))
  | WDropHandle => ws_set_handles w (pred (ws_handles w))
  | WReceive =>
    match ws_inbox w with
    | m :: rest => ws_set_inbox w rest (ws_received w ++ [m])
    | [] => w
    end
  | WDropReceiver => ws_drop_receiver w
  | WOverflow => selecting (on_overflow w)
  | WCommand => selecting (on_command w)
  | WMessage m => selecting (on_message w m)
  | WWritten ok => on_written w ok
  | WTerminal => on_terminal w
  end.

Definition ws_run (w : Ws) (es : list WEvent) : Ws := foldl ws_step w es.

(** ** The URL names the peer *)

(** The one URL of a peer's socket. *)
Definition virtual_url (peer : NodeId) (path : list byte) : Url :=
  mkUrl (lit "ws") [] None (Some (NodeId_to_base32 peer)) None path None None.

Lemma not_is_Some {A} (o : option A) : ¬ is_Some o → o = None.
Proof. apply eq_None_not_Some. Qed.

Lemma validate_virtual_url_spec url peer :
  validate_virtual_url url peer = Ok tt ↔
  ∃ path, (path = lit "/events" ∨ path = lit "/drops") ∧ url = virtual_url peer path.
Proof.
  unfold validate_virtual_url, virtual_url. split.
  - intros E. split_if_in E. split_if_in E. split_if_in E. to_props.
    destruct url as [scheme user pass host port path query frag]. cbn [url_scheme url_username url_password url_host url_port
      url_path url_query url_fragment] in *. destruct host as [h|]; [|done].
    destruct (NodeId_from_base32 h) as [n|] eqn:Eh; [|done]. split_if_in E. subst.
    apply from_base32_canonical in Eh. subst. exists path. split; [|f_equal; try done; by apply not_is_Some].
    match goal with H : _ || _ = true |- _ => apply orb_prop in H as [H|H]; apply bool_decide_eq_true_1 in H end; auto.
  - intros (path & Hp & ->). cbn [url_scheme url_username url_password url_host url_port url_path url_query url_fragment].
    rewrite base32_roundtrip, (bool_decide_true (peer = peer)) by done. by destruct Hp as [-> | ->].
Qed.

(** A socket opens only on the virtual URL of the session's own peer. *)
Lemma websocket_open_peer url peer stream upgrade w :
  websocket_open url peer stream upgrade = Ok w →
  w = Ws_open ∧ ∃ path, (path = lit "/events" ∨ path = lit "/drops") ∧ url = virtual_url peer path.
Proof.
  unfold websocket_open. intros (u & Hv & E)%result_bind_Ok. destruct u. apply validate_virtual_url_spec in Hv.
  destruct stream, upgrade; try done. by injection E as <-.
Qed.

(** ** The driver *)

Fixpoint texts (l : list IncomingMessage) : list (list byte) :=
  match l with
  | [] => []
  | InText t :: rest => t :: texts rest
  | InClosed _ :: rest => texts rest
  end.

Fixpoint sent_texts (l : list Message) : list (list byte) :=
  match l with
  | [] => []
  | MText t :: rest => t :: sent_texts rest
  | _ :: rest => sent_texts rest
  end.

Fixpoint queued_texts (l : list Command) : list (list byte) :=
  match l with
  | [] => []
  | CText t :: rest => t :: queued_texts rest
  | CClose :: rest => queued_texts rest
  end.

Lemma texts_app l k : texts (l ++ k) = texts l ++ texts k.
Proof. induction l as [|[]]; cbn; congruence. Qed.
Lemma sent_texts_app l k : sent_texts (l ++ k) = sent_texts l ++ sent_texts k.
Proof. induction l as [|[]]; cbn; congruence. Qed.
Lemma queued_texts_app l k : queued_texts (l ++ k) = queued_texts l ++ queued_texts k.
Proof. induction l as [|[]]; cbn; congruence. Qed.

Definition is_text (m : IncomingMessage) : Prop := match m with InText _ => True | InClosed _ => False end.
Definition small (text : list byte) : Prop := Z.of_nat (length text) <= MAX_TEXT_BYTES.
Definition no_close (l : list Message) : Prop := MClose ∉ l.

(** What the application has been handed, and what waits for it. *)
Definition stream (w : Ws) : list IncomingMessage := ws_received w ++ ws_inbox w.

(** The text being written. *)
Definition in_flight (d : Driver) : list (list byte) :=
  match d with DWrite (MText t) _ => [t] | _ => [] end.

(** The driver has not decided to end. *)
Definition going (d : Driver) : bool :=
  match d with DSelect | DWrite _ (Continue _) => true | _ => false end.
(** The driver has not given up writing. *)
Definition writing (d : Driver) : bool := match d with DSelect | DWrite _ _ => true | _ => false end.

Record ws_ok (w : Ws) : Prop := {
  wo_commands : (length (ws_commands w) ≤ OUTBOUND_QUEUE)%nat;
  wo_inbox : (length (ws_inbox w) ≤ INBOUND_QUEUE)%nat;
  wo_accepted : Forall small (ws_accepted w);
  wo_texts : Forall small (texts (stream w));
  wo_dropped : ws_receiver w = false → ws_inbox w = [];
  wo_write m after : ws_driver w = DWrite m after → (m = MClose ↔ ∃ reason, after = Stop reason);
  wo_out : writing (ws_driver w) = true →
    ws_accepted w = sent_texts (ws_written w) ++ in_flight (ws_driver w) ++ queued_texts (ws_commands w);
  wo_out_prefix : sent_texts (ws_written w) `prefix_of` ws_accepted w;
  wo_close : writing (ws_driver w) = true → no_close (ws_written w);
  wo_close_last : no_close (ws_written w) ∨ ∃ l, no_close l ∧ ws_written w = l ++ [MClose];
  wo_in : going (ws_driver w) = true → ws_receiver w = true → texts (stream w) = ws_arrived w;
  wo_in_prefix : texts (stream w) `prefix_of` ws_arrived w;
  wo_terminal : if running w then Forall is_text (stream w)
                else (ws_receiver w = false ∧ Forall is_text (stream w)) ∨
                     ∃ l reason, Forall is_text l ∧ stream w = l ++ [InClosed reason];
}.

Ltac ws_cbn :=
  cbn [ws_commands ws_handles ws_overflow ws_unseen ws_inbox ws_receiver ws_driver ws_accepted ws_written ws_arrived
       ws_received ws_set_commands ws_set_handles ws_set_overflow ws_set_inbox ws_set_driver ws_wrote ws_arrive
       ws_drop_receiver closing going writing in_flight fst snd] in *.

Lemma open_ok : ws_ok Ws_open.
Proof.
  assert (no_close []) by apply not_elem_of_nil. split; try done; cbn; auto using prefix_nil; lia.
Qed.

Lemma try_command_ok w c :
  (∀ text, c = CText text → small text) → ws_ok w → ws_ok (fst (try_command w c)).
Proof.
  intros Hc Hok. pose proof Hok as []. unfold try_command. destruct (running w) eqn:Hr; cbn [negb]; [|done].
  destruct (Nat.leb_spec OUTBOUND_QUEUE (length (ws_commands w))); [split; unfold running in *; ws_cbn; try done; by rewrite Hr|].
  split; unfold running in *; ws_cbn; try done.
  - rewrite length_app. cbn [length]. lia.
  - destruct c; [|done]. apply Forall_app. split; [done|]. repeat constructor. by apply Hc.
  - intros Hw. rewrite wo_out0, queued_texts_app by done. destruct c; cbn [queued_texts]; by rewrite ?app_nil_r, <- ?app_assoc.
  - destruct c; [|done]. by apply prefix_app_r.
  - by rewrite Hr.
Qed.

Lemma closing_ok w reason : ws_driver w = DSelect → ws_ok w → ws_ok (closing w reason).
Proof.
  intros Hd []. rewrite Hd in *. unfold running in *. rewrite Hd in *.
  split; ws_cbn; try done; [|auto..]. intros m after [= <- <-]. split; eauto.
Qed.

(** A step from [select!] that writes [m] and goes on. *)
Lemma write_ok w m failed :
  ws_driver w = DSelect → (∀ t, m ≠ MText t) → m ≠ MClose → ws_ok w → ws_ok (ws_set_driver w (DWrite m (Continue failed))).
Proof.
  intros Hd Ht Hm []. unfold running in *. rewrite Hd in *. split; ws_cbn; try done; auto.
  - intros m' after [= <- <-]. split; [done|]. by intros [? ?].
  - intros _. rewrite wo_out0 by done. by destruct m; try done; specialize (Ht text).
Qed.

Lemma on_command_ok w : ws_driver w = DSelect → ws_ok w → ws_ok (on_command w).
Proof.
  intros Hd Hok. unfold on_command. destruct (ws_commands w) as [|[text|] rest] eqn:Hq.
  - split_if; [|done]. by apply closing_ok.
  - destruct Hok. unfold running in *. rewrite Hd, Hq in *. cbn [length] in *. split; ws_cbn; try done; auto; try lia.
    intros m after [= <- <-]. split; [done|]. by intros [? ?].
  - apply closing_ok; [done|]. destruct Hok. unfold running in *. rewrite Hd, Hq in *. cbn [length] in *.
    split; ws_cbn; try done; auto; try lia; rewrite ?Hd; try done. unfold running. ws_cbn. by rewrite Hd.
Qed.

Lemma on_message_ok w m : ws_driver w = DSelect → ws_ok w → ws_ok (on_message w m).
Proof.
  intros Hd Hok.
  assert (Hend : ∀ reason, ws_ok (ws_set_driver w (DTerminal reason))).
  { intros reason. destruct Hok. unfold running in *. rewrite Hd in *. split; ws_cbn; try done; auto. }
  destruct m as [[[text|data|payload|payload| |]|]|]; cbn [on_message]; auto using closing_ok.
  2:{ by apply write_ok. }
  assert (Hclose : ∀ reason, ws_ok (closing (ws_arrive w text) reason)).
  { intros reason. destruct Hok. unfold running in *. rewrite Hd in *. split; ws_cbn; try done; auto using prefix_app_r.
    intros m after [= <- <-]. split; eauto. }
  cbn zeta. destruct (Z.ltb_spec MAX_TEXT_BYTES (Z.of_nat (length text))) as [|Hs]; [done|].
  destruct (inbox_room (ws_arrive w text)) eqn:Hroom; [|done]. unfold inbox_room in Hroom. ws_cbn. to_props.
  destruct Hok. unfold running in *. rewrite Hd in *. unfold stream in *.
  split; unfold running, stream; ws_cbn; rewrite ?Hd; try done; auto; try (intros; congruence).
  - rewrite length_app. cbn [length]. lia.
  - rewrite app_assoc, texts_app. apply Forall_app. split; [done|]. by repeat constructor.
  - intros _ _. rewrite app_assoc, texts_app. by rewrite wo_in0.
  - rewrite app_assoc, texts_app, wo_in0 by done. done.
  - rewrite app_assoc. apply Forall_app. split; [done|]. by repeat constructor.
Qed.

Lemma on_overflow_ok w : ws_driver w = DSelect → ws_ok w → ws_ok (on_overflow w).
Proof.
  intros Hd Hok. unfold on_overflow. destruct (ws_unseen w).
  - assert (ws_ok (ws_set_overflow w (ws_overflow w) false)) by (destruct Hok; by split).
    cbn zeta. split_if; [by apply closing_ok | done].
  - split_if; [by apply closing_ok | done].
Qed.

Lemma on_written_ok w ok : ws_ok w → ws_ok (on_written w ok).
Proof.
  intros Hok. unfold on_written. destruct (ws_driver w) as [|m after| |] eqn:Hd; try done.
  destruct Hok. unfold running in *. rewrite Hd in *. specialize (wo_write0 _ _ eq_refl). ws_cbn.
  specialize (wo_out0 eq_refl). specialize (wo_close0 eq_refl).
  destruct after as [failed|reason].
  - assert (Hm : m ≠ MClose) by (intros E; apply wo_write0 in E as [? ?]; done). ws_cbn. specialize (wo_in0 eq_refl).
    destruct ok; split; unfold running; ws_cbn; try done; auto.
    + intros _. rewrite sent_texts_app, wo_out0. destruct m; cbn [sent_texts]; rewrite ?app_nil_r, <- ?app_assoc; done.
    + rewrite sent_texts_app, wo_out0. rewrite app_assoc. apply prefix_app_r. destruct m; done.
    + intros _. unfold no_close in *. set_solver.
    + left. unfold no_close in *. set_solver.
  - assert (Hm : m = MClose) by (apply wo_write0; eauto). subst m. ws_cbn.
    destruct ok; split; unfold running; ws_cbn; try done; auto.
    + by rewrite sent_texts_app, app_nil_r.
    + right. eauto.
Qed.

Lemma on_terminal_ok w : ws_ok w → ws_ok (on_terminal w).
Proof.
  intros Hok. unfold on_terminal. destruct (ws_driver w) as [| |reason|] eqn:Hd; try done.
  pose proof Hok as []. unfold running in *. rewrite Hd in *. cbn zeta. destruct (ws_receiver w) eqn:Hr; cbn [negb].
  - destruct (Nat.ltb_spec (length (ws_inbox w)) INBOUND_QUEUE); [|done]. unfold stream in *.
    split; unfold running, stream; ws_cbn; rewrite ?Hr; try done; auto.
    + apply Nat.le_0_l.
    + rewrite length_app. cbn [length]. lia.
    + rewrite app_assoc, texts_app, app_nil_r. done.
    + rewrite app_assoc, texts_app, app_nil_r. done.
    + right. exists (ws_received w ++ ws_inbox w), reason. by rewrite app_assoc.
  - split; unfold running; ws_cbn; rewrite ?Hr; try done; auto. apply Nat.le_0_l.
Qed.

Lemma receive_ok w : ws_ok w → ws_ok (ws_step w WReceive).
Proof.
  intros Hok. cbn [ws_step]. destruct (ws_inbox w) as [|m rest] eqn:Hq; [done|].
  assert (Hs : stream (ws_set_inbox w rest (ws_received w ++ [m])) = stream w).
  { unfold stream. ws_cbn. by rewrite Hq, <- app_assoc. }
  destruct Hok. rewrite Hq in *. cbn [length] in *. split; rewrite ?Hs; ws_cbn; try done; auto; [lia|].
  intros H. by apply wo_dropped0 in H.
Qed.

Lemma drop_receiver_ok w : ws_ok w → ws_ok (ws_drop_receiver w).
Proof.
  intros Hok. assert (Hs : stream (ws_drop_receiver w) `prefix_of` stream w).
  { unfold stream. ws_cbn. rewrite app_nil_r. by apply prefix_app_r. }
  destruct Hs as [k Hk]. destruct Hok. split; ws_cbn; try done; auto.
  - apply Nat.le_0_l.
  - rewrite Hk, texts_app in wo_texts0. by apply Forall_app in wo_texts0 as [? _].
  - rewrite Hk, texts_app in wo_in_prefix0. by eapply prefix_app_l.
  - unfold running in *. ws_cbn. destruct (ws_driver w); try (rewrite Hk in wo_terminal0; by apply Forall_app in wo_terminal0 as [? _]).
    destruct wo_terminal0 as [[_ H]|(l & reason & Hl & H)].
    + left. rewrite Hk in H. by apply Forall_app in H as [? _].
    + destruct k as [|x k _] using rev_ind; [right; rewrite app_nil_r in Hk; eauto using eq_trans|].
      left. split; [done|]. rewrite Hk, app_assoc in H. apply app_inj_tail in H as [<- _].
      by apply Forall_app in Hl as [? _].
Qed.

Lemma ws_step_ok w ev : ws_ok w → ws_ok (ws_step w ev).
Proof.
  intros Hok. destruct ev; cbn [ws_step]; auto using on_written_ok, on_terminal_ok, receive_ok, drop_receiver_ok.
  - split_if; [done|]. unfold send_text. destruct (Z.ltb_spec MAX_TEXT_BYTES (Z.of_nat (length text))); [done|].
    apply try_command_ok; [|done]. intros t [= <-]. done.
  - split_if; [done|]. by apply try_command_ok.
  - split_if; [done|]. destruct Hok. by split.
  - destruct Hok. by split.
  - by apply receive_ok.
  - destruct (ws_driver w) eqn:Hd; auto using on_overflow_ok.
  - destruct (ws_driver w) eqn:Hd; auto using on_command_ok.
  - destruct (ws_driver w) eqn:Hd; auto using on_message_ok.
Qed.

Lemma ws_run_ok es : ws_ok (ws_run Ws_open es).
Proof.
  induction es as [|ev es IH] using rev_ind; [apply open_ok|]. unfold ws_run in *. rewrite foldl_snoc. by apply ws_step_ok.
Qed.

(** Once the driver has decided to end, the write under way, one message read by
    the application and one turn of the driver report it. *)
Lemma stopping_reports w ok :
  ws_ok w → going (ws_driver w) = false → running w = true → ws_receiver w = true →
  ∃ l reason, stream (ws_run w [WWritten ok; WReceive; WTerminal]) = l ++ [InClosed reason] ∧
              ws_driver (ws_run w [WWritten ok; WReceive; WTerminal]) = DDone.
Proof.
  intros Hok Hg Hrun Hr. cbn [ws_run foldl]. set (w1 := ws_step w (WWritten ok)).
  assert (∃ reason, ws_driver w1 = DTerminal reason ∧ ws_receiver w1 = true) as (reason & Hd1 & Hr1).
  { subst w1. cbn [ws_step]. unfold on_written, running in *. destruct (ws_driver w) as [|m [|reason]|reason|] eqn:Hd; try done.
    - exists reason. by destruct ok.
    - exists reason. rewrite Hd. done. }
  assert (Hok1 : ws_ok w1) by by apply ws_step_ok. set (w2 := ws_step w1 WReceive).
  assert (ws_driver w2 = DTerminal reason ∧ ws_receiver w2 = true ∧ (length (ws_inbox w2) < INBOUND_QUEUE)%nat) as (Hd2 & Hr2 & Hq2).
  { subst w2. cbn [ws_step]. pose proof (wo_inbox _ Hok1). destruct (ws_inbox w1) eqn:Hq; ws_cbn; split_and!; try done;
      rewrite ?Hq; cbn [length] in *; unfold INBOUND_QUEUE in *; lia. }
  cbn [ws_step]. unfold on_terminal. rewrite Hd2, Hr2. cbn [negb]. rewrite (proj2 (Nat.ltb_lt _ _)) by done.
  exists (stream w2), reason. unfold stream. ws_cbn. by rewrite app_assoc.
Qed.

(** C32: What a WebSocket over a session delivers, whatever the interleaving of
    sends, reads, dropped handles, frames and write failures.  Queues hold at most
    64 entries and no text above 1 MiB is taken or delivered.  The application
    reads a prefix of the texts that arrived, in order, and all of them while the
    driver has not decided to end; the peer is sent a prefix of the texts the
    handle took, in order, and none is lost while the driver still writes.  A close
    frame is written at most once and last.  The application is told of the end
    exactly once, as the last message, when the driver returns, and only then;
    and a driver that has decided to end does return. *)
Theorem websocket_delivery es :
  let w := ws_run Ws_open es in
  ((length (ws_commands w) ≤ OUTBOUND_QUEUE)%nat ∧ (length (ws_inbox w) ≤ INBOUND_QUEUE)%nat ∧
   Forall small (ws_accepted w) ∧ Forall small (texts (stream w))) ∧
  (texts (stream w) `prefix_of` ws_arrived w ∧
   (going (ws_driver w) = true → ws_receiver w = true → texts (stream w) = ws_arrived w)) ∧
  (sent_texts (ws_written w) `prefix_of` ws_accepted w ∧
   (writing (ws_driver w) = true →
    ws_accepted w = sent_texts (ws_written w) ++ in_flight (ws_driver w) ++ queued_texts (ws_commands w))) ∧
  (no_close (ws_written w) ∨ ∃ l, no_close l ∧ ws_written w = l ++ [MClose]) ∧
  (running w = true → Forall is_text (stream w)) ∧
  (running w = false → ws_receiver w = true → ∃ l reason, Forall is_text l ∧ stream w = l ++ [InClosed reason]) ∧
  (running w = true → going (ws_driver w) = false → ws_receiver w = true →
   ∀ ok, running (ws_run w [WWritten ok; WReceive; WTerminal]) = false).
Proof.
  intros w. pose proof (ws_run_ok es : ws_ok w) as Hok. pose proof Hok as []. split_and!; try done.
  - intros Hr. by rewrite Hr in wo_terminal0.
  - intros Hr Hrec. rewrite Hr in wo_terminal0. destruct wo_terminal0 as [[? _]|H]; [congruence | done].
  - intros Hr Hg Hrec ok. destruct (stopping_reports w ok Hok Hg Hr Hrec) as (_ & _ & _ & H).
    unfold running. by rewrite H.
Qed.

(** A full queue ends the socket, and what was taken before is not all sent. *)
Example overflow_ends :
  let w := ws_run Ws_open (replicate 65 (WSend (lit "x")) ++ [WOverflow; WWritten true; WTerminal; WReceive]) in
  ws_received w = [InClosed "outbound queue overflow"] ∧ ws_written w = [MClose] ∧ length (ws_accepted w) = 64%nat.
Proof. by vm_compute. Qed.
