(* ===== verification/Engine.v ===== *)
(** * Engine: paired routes and their sessions ([link-engine/src/lib.rs])

    The engine over the endpoint: installed routes, the one cached session per
    route, pairing enrolment, file reservations, stop and wipe.  The engine's lock
    is held across a first dial, so a call that dials is in [en_lock] until the
    endpoint's events finish its flight; calls that need the lock do nothing
    meanwhile.  [stop]'s signal needs no lock and drops the dials under way, which
    is what [unless_stopped] does when it is next polled.  The exchange on a stream
    is hyper's: its response, with the exporter's secret, is an input. *)

From S2P Require Import Prelude Net Id Rendezvous Card Wire Tls Paths TagBook RelayClient Session Endpoint Blossom Http WebSocket.

Open Scope Z_scope.

(** ** State *)

Record RouteState : Type := mkRouteState {
  rt_node : NodeId;
  rt_serial : Z;
  rt_card : Card;
  rt_session : option Z;
}.

Record EngineConfig : Type := mkEngineConfig {
  eg_transport_seed : list byte;
  eg_relay_urls : list (list byte);
  eg_allow_direct : bool;
  eg_routes : list ERoute;
}.

Record PairingBundle : Type := mkPairingBundle {
  pb_route_id : list byte;
  pb_server_card : list byte;
  pb_pairing_secret : list byte;
  pb_expires_at : Z;
}.

(** The call that holds the lock across its dial. *)
Record Dialling : Type := mkDialling { dl_route : list byte; dl_flight : Z }.

(** An enrolment past its checks: its flight, then its provisional session. *)
Inductive PairPhase : Type := PDialling (flight : Z) | PEnrolling (session : Z).
Record Pairing : Type := mkPairing {
  pa_bundle : PairingBundle;
  pa_node : NodeId;
  pa_offered : Card;
  pa_registration : PairingRegistration;
  pa_frame : list byte;
  pa_phase : PairPhase;
}.

(** The flight an enrolment still waits for. *)
Definition dialling (p : Pairing) : option Z :=
  match pa_phase p with PDialling flight => Some flight | PEnrolling _ => None end.

Record Engine : Type := mkEngine {
  en_endpoint : Endpoint;
  (** sessions whose connection has a close reason *)
  en_closed : gset Z;
  en_stop : bool;
  en_routes : gmap (list byte) RouteState;
  en_stopped : bool;
  en_lock : option Dialling;
  en_pairings : gmap Z Pairing;
  en_next_pairing : Z;
  (** the semaphore of file requests, and the references to each guard *)
  en_permits : nat;
  en_guards : gmap Z nat;
  en_next_guard : Z;
}.

Definition en_set_endpoint (e : Engine) (ep : Endpoint) : Engine :=
  mkEngine ep (en_closed e) (en_stop e) (en_routes e) (en_stopped e) (en_lock e) (en_pairings e) (en_next_pairing e)
    (en_permits e) (en_guards e) (en_next_guard e).
Definition en_close (e : Engine) (sessions : gset Z) : Engine :=
  mkEngine (en_endpoint e) (sessions ∪ en_closed e) (en_stop e) (en_routes e) (en_stopped e) (en_lock e) (en_pairings e)
    (en_next_pairing e) (en_permits e) (en_guards e) (en_next_guard e).
Definition en_set_stop (e : Engine) : Engine :=
  mkEngine (en_endpoint e) (en_closed e) true (en_routes e) (en_stopped e) (en_lock e) (en_pairings e) (en_next_pairing e)
    (en_permits e) (en_guards e) (en_next_guard e).
Definition en_set_routes (e : Engine) (m : gmap (list byte) RouteState) : Engine :=
  mkEngine (en_endpoint e) (en_closed e) (en_stop e) m (en_stopped e) (en_lock e) (en_pairings e) (en_next_pairing e)
    (en_permits e) (en_guards e) (en_next_guard e).
Definition en_set_stopped (e : Engine) : Engine :=
  mkEngine (en_endpoint e) (en_closed e) (en_stop e) (en_routes e) true (en_lock e) (en_pairings e) (en_next_pairing e)
    (en_permits e) (en_guards e) (en_next_guard e).
Definition en_set_lock (e : Engine) (l : option Dialling) : Engine :=
  mkEngine (en_endpoint e) (en_closed e) (en_stop e) (en_routes e) (en_stopped e) l (en_pairings e) (en_next_pairing e)
    (en_permits e) (en_guards e) (en_next_guard e).
Definition en_set_pairings (e : Engine) (m : gmap Z Pairing) (next : Z) : Engine :=
  mkEngine (en_endpoint e) (en_closed e) (en_stop e) (en_routes e) (en_stopped e) (en_lock e) m next
    (en_permits e) (en_guards e) (en_next_guard e).
Definition en_set_guards (e : Engine) (permits : nat) (m : gmap Z nat) (next : Z) : Engine :=
  mkEngine (en_endpoint e) (en_closed e) (en_stop e) (en_routes e) (en_stopped e) (en_lock e) (en_pairings e)
    (en_next_pairing e) permits m next.

Definition transport (reason : FailReason) : EngineError :=
  EngTransport (match reason with
                | FrRelay => "relay" | FrRendezvous => "rendezvous" | FrIdentity => "identity"
                | FrTimeout => "timeout" | FrSuperseded => "superseded"
                end)%string.

(** [self.endpoint.rendezvous_book().expect("tag mode")]. *)
Definition with_book (e : Engine) (f : TagBook → TagBook) : exec Engine :=
  book ← expect (ep_book (en_endpoint e));
  Ret (en_set_endpoint e (ep_set_book (en_endpoint e) (Some (f book)))).

Definition close_session (e : Engine) (s : option Z) : Engine :=
  match s with Some s => en_close e {[s]} | None => e end.

(** ** Starting *)

Section engine.
Context `{C : Crypto, R : RdvCrypto, T : RawKeyTls}.

Fixpoint start_routes (l : list ERoute) (routes : gmap (list byte) RouteState) (paired : gmap NodeId (array 32)) :
    exec (result EngineError (gmap (list byte) RouteState * gmap NodeId (array 32))) :=
  match l with
  | [] => Ret (Ok (routes, paired))
  | route :: rest =>
    v ← verify_route route;
    match v with
    | Err e => Ret (Err e)
    | Ok (node, card) =>
      if bool_decide (is_Some (routes !! er_route_id route)) then Ret (Err (EngConfig "duplicate route id"))
      else match secret (er_paired_route_secret route) with
      | Err e => Ret (Err e)
      | Ok s =>
        start_routes rest (<[er_route_id route := mkRouteState node (er_card_serial route) card None]> routes)
          (<[node := s]> paired)
      end
    end
  end.

Definition start_config (browser : bool) (c : EngineConfig) (seed : array 32) (paired : gmap NodeId (array 32)) : EndpointConfig :=
  let d := EndpointConfig_new browser (TransportKey_from_seed seed) in
  mkEndpointConfig (ec_key d) (ec_serial_seed d) (RelaySpec_plain <$> eg_relay_urls c) (eg_allow_direct c) (ec_bind d)
    (ec_reflector d) 0 (ec_probe_delay d) (secs 60) (ec_rendezvous d) (Some paired).

(** [start]: the socket bound, whether the QUIC set-up was accepted, the clock and
    the nonce as [Endpoint_open] takes them. *)
Definition Engine_start (browser : bool) (c : EngineConfig) (udp : option SocketAddr) (setup : bool) (now : Z) (nonce : array 16) :
    exec (result EngineError Engine) :=
  match try_array 32 (eg_transport_seed c) with
  | None => Ret (Err (EngConfig "transport seed must be 32 bytes"))
  | Some seed =>
    r ← start_routes (eg_routes c) ∅ ∅;
    Ret (match r with
         | Err e => Err e
         | Ok (routes, paired) =>
           match Endpoint_open browser (start_config browser c seed paired) udp setup now nonce with
           | Err _ => Err (EngTransport "open")
           | Ok ep => Ok (mkEngine ep ∅ false routes false None ∅ 0 1 ∅ 0)
           end
         end)
  end.

(** ** The session of a route *)

Inductive Acquired : Type := Ready (session : Z) (node : NodeId) | Dials.

(** [!session.is_closed() && !matches!(session.path().status, Failed(_))]; [failed]
    is the session's report. *)
Definition usable (e : Engine) (failed : Z → bool) (s : Z) : bool := negb (bool_decide (s ∈ en_closed e)) && negb (failed s).

(** The first dial of a route, under the lock and [unless_stopped]. *)
Definition dial (e : Engine) (route_id : list byte) (route : RouteState) (driver : Z) : Engine * result EngineError Acquired :=
  if en_stop e then (e, Err EngStopped)
  else
    let '(ep, r) := connect_begin (en_endpoint e) (rt_card route) driver in
    let e := en_set_endpoint e ep in
    match r with
    | Err reason => (e, Err (transport reason))
    | Ok flight => (en_set_lock e (Some (mkDialling route_id flight)), Ok Dials)
    end.

(** The locked section of [open_socket], [request_json_reserved] and
    [delete_route] up to its dial.  [check] is the call's own check of the route,
    [keep] the filter on the cached session. *)
Definition acquire (e : Engine) (route_id : list byte) (check : RouteState → result EngineError unit) (keep : Z → bool)
    (driver : Z) : Engine * result EngineError Acquired :=
  if en_stopped e then (e, Err EngStopped)
  else match en_routes e !! route_id with
  | None => (e, Err (EngRoute "route is not installed"))
  | Some route =>
    match check route with
    | Err err => (e, Err err)
    | Ok _ =>
      match rt_session route with
      | Some s => if keep s then (e, Ok (Ready s (rt_node route))) else dial e route_id route driver
      | None => dial e route_id route driver
      end
    end
  end.

(** [open_socket]; the URL was parsed, or was not. *)
Definition open_socket (e : Engine) (url : option Url) (route_id : list byte) (failed : Z → bool) (driver : Z) :
    Engine * result EngineError Acquired :=
  match url with
  | None => (e, Err (EngSocket "url"))
  | Some url =>
    acquire e route_id
      (λ route, match validate_virtual_url url (rt_node route) with Ok _ => Ok tt | Err _ => Err (EngSocket "virtual url") end)
      (usable e failed) driver
  end.

(** A [DELETE] of a route under way: the session it has or dials, the path it asks for
    and the name of the operation in its refusal. *)
Record Deletion : Type := mkDeletion { dn_acquired : Acquired; dn_path : list byte; dn_operation : string }.

(** [delete_route] up to its dial: any cached session will do. *)
Definition delete_route (e : Engine) (route_id path : list byte) (operation : string) (driver : Z) :
    Engine * result EngineError Deletion :=
  let er := acquire e route_id (λ _, Ok tt) (λ _, true) driver in
  (er.1, a ← er.2; Ok (mkDeletion a path operation)).

Definition retire_route (e : Engine) (route_id : list byte) (driver : Z) : Engine * result EngineError Deletion :=
  delete_route e route_id (lit "/events/route") "route retirement" driver.
Definition finalize_route (e : Engine) (route_id : list byte) (driver : Z) : Engine * result EngineError Deletion :=
  delete_route e route_id (lit "/events/route/finalize") "route finalisation" driver.

(** ** File reservations *)

(** [FileRequestPermit::acquire]. *)
Definition reserve_file_request (e : Engine) : Engine * result EngineError Z :=
  if en_stop e then (e, Err EngStopped)
  else match en_permits e with
  | O => (e, Err (EngRoute "another file request is still active"))
  | S n => (en_set_guards e n (<[en_next_guard e := 1%nat]> (en_guards e)) (en_next_guard e + 1), Ok (en_next_guard e))
  end.

(** [Arc::clone] and [drop] of a guard; the last one returns the permit. *)
Definition clone_guard (e : Engine) (g : Z) : Engine :=
  match en_guards e !! g with
  | Some n => en_set_guards e (en_permits e) (<[g := S n]> (en_guards e)) (en_next_guard e)
  | None => e
  end.
Definition drop_guard (e : Engine) (g : Z) : Engine :=
  match en_guards e !! g with
  | Some (S (S n)) => en_set_guards e (en_permits e) (<[g := S n]> (en_guards e)) (en_next_guard e)
  | Some _ => en_set_guards e (S (en_permits e)) (delete g (en_guards e)) (en_next_guard e)
  | None => e
  end.

(** ** Requests *)

(** [request_json_reserved] up to its dial: the request is checked again, and a
    file request carries a permit of this engine. *)
Definition request_json_reserved `{X : Hex} (e : Engine) (request : JsonRequest) (permit : option Z) (failed : Z → bool) (driver : Z) :
    Engine * result EngineError (Method * HttpRoute * Acquired) :=
  match validate_http_request request with
  | Err err => (e, Err err)
  | Ok (method, route) =>
    if negb (match permit, is_file route with
             | Some g, true => bool_decide (is_Some (en_guards e !! g))
             | None, false => true
             | _, _ => false
             end)
    then (e, Err (EngRoute "file reservation does not match this engine and request"))
    else
      let '(e, r) := acquire e (jr_route_id request) (λ _, Ok tt) (usable e failed) driver in
      (e, a ← r; Ok (method, route, a))
  end.

(** [request_json]. *)
Definition request_json `{X : Hex} (e : Engine) (request : JsonRequest) (failed : Z → bool) (driver : Z) :
    Engine * result EngineError (Method * HttpRoute * Acquired) :=
  match validate_http_request request with
  | Err err => (e, Err err)
  | Ok (_, route) =>
    if is_file route then
      let '(e, r) := reserve_file_request e in
      match r with
      | Err err => (e, Err err)
      | Ok g =>
        let '(e, r) := request_json_reserved e request (Some g) failed driver in
        (match r with Err _ => drop_guard e g | Ok _ => e end, r)
      end
    else request_json_reserved e request None failed driver
  end.

(** The exchange of a request on its session: what is sent, and what the host
    gets of the response. *)
Definition exchange `{X : Hex} (request : JsonRequest) (method : Method) (route : HttpRoute) (node : NodeId)
    (response : Outgoing → result EngineError Response) : result EngineError (Z * list byte * bool) :=
  response ← response (outgoing_http_request request method route node);
  '(status, body) ← decode_http_response response route;
  Ok (status, body, is_witness_refusal route (rs_status response) (rs_headers response)).

(** The rest of [delete_route] on its session: what is sent, and what the caller gets
    of the response, a refusal without the status it ends with. *)
Definition delete_request (d : Deletion) (node : NodeId) : Outgoing :=
  mkOutgoing DELETE (dn_path d) [(lit "host", NodeId_to_base32 node)] [].
Definition delete_exchange (d : Deletion) (node : NodeId) (response : Outgoing → result EngineError Response) :
    result EngineError unit :=
  response ← response (delete_request d node);
  if negb (rs_status response =? 204) then Err (EngRoute ("server refused " ++ dn_operation d))
  else
    _ ← collect_bounded (rs_frames response) (Z.of_nat MAX_ROUTE_FRAME_BYTES) "route";
    Ok tt.

(** ** Pairing *)

(** [pair_route] before its first lock, at [now]. *)
Definition pair_check (b : PairingBundle) (now : Z) : exec (result EngineError (Z * array 16 * NodeId * Card)) :=
  if bool_decide (pb_route_id b = []) then Ret (Err (EngRoute "route id must not be empty"))
  else match pairing_lifetime (pb_expires_at b) now with
  | Err err => Ret (Err err)
  | Ok lifetime =>
    match pairing_secret (pb_pairing_secret b) with
    | Err err => Ret (Err err)
    | Ok raw =>
      match node_from_card_bytes (pb_server_card b) with
      | Err err => Ret (Err err)
      | Ok node =>
        v ← Card_verify (pb_server_card b) (VerifyContext_expecting (VerifyContext_new now) node);
        Ret (match v with
             | Err violation => Err (EngRoute (detail violation))
             | Ok offered => Ok (lifetime, raw, node, offered)
             end)
      end
    end
  end.

(** The inputs of an enrolment's start: clock reads, free route candidates, the
    interface addresses and the relay driver of the offered card. *)
Record PairIn : Type := mkPairIn {
  pi_now : Z;
  pi_register : Z;
  pi_candidates : list NodeId;
  pi_card : Z;
  pi_local : list IpAddr;
  pi_active : Z;
  pi_active2 : Z;
  pi_driver : Z;
}.

(** From the first lock to the dial; [None] while no candidate route is free. *)
Definition pair_begin (e : Engine) (b : PairingBundle) (i : PairIn) : option (exec (Engine * result EngineError Z)) :=
  match pair_check b (pi_now i) with
  | Panic => Some Panic
  | Ret (Err err) => Some (Ret (e, Err err))
  | Ret (Ok (lifetime, raw, node, offered)) =>
    if en_stopped e then Some (Ret (e, Err EngStopped))
    else if (match en_routes e !! pb_route_id b with
             | Some existing => negb (bool_decide (rt_node existing = node))
             | None => false
             end)
    then Some (Ret (e, Err (EngRoute "route id is already bound to another node")))
    else
      match register_pairing_secret (en_endpoint e) raw lifetime (pi_register i) (pi_candidates i) with
      | None => None
      | Some (Err _) => Some (Ret (e, Err (EngRoute "pairing registration")))
      | Some (Ok (ep, registration)) =>
        let '(ep, caller_card) := card ep (pi_card i) MAX_LIFETIME_SECONDS [] (pi_local i) in
        Some (
          frame ← route_frame (Card_as_bytes caller_card);
          let e := en_set_endpoint e ep in
          if en_stop e then Ret (en_set_endpoint e (expire_registration ep (pg_route registration)), Err EngStopped)
          else
            let '(ep, r) := connect_pairing_begin ep offered registration true (pi_active i) (pi_active2 i) (pi_driver i) in
            Ret (match r with
                 | Err reason =>
                   (en_set_endpoint e (expire_registration ep (pg_route registration)), Err (transport reason))
                 | Ok flight =>
                   let id := en_next_pairing e in
                   (en_set_pairings (en_set_endpoint e ep)
                      (<[id := mkPairing b node offered registration frame (PDialling flight)]> (en_pairings e)) (id + 1),
                    Ok id)
                 end))
      end
  end.

(** The box's answer on the provisional stream, at [verified_at]. *)
Definition enrol (p : Pairing) (psecret : option (array 32)) (response : result EngineError Response) (verified_at : Z) :
    exec (result EngineError (Card * array 32)) :=
  match psecret with
  | None => Ret (Err (EngRoute "route export"))
  | Some psecret =>
    match response with
    | Err err => Ret (Err err)
    | Ok response =>
      if negb (rs_status response =? 200) then Ret (Err (EngRoute "server refused route enrolment"))
      else match collect_bounded (rs_frames response) (Z.of_nat MAX_ROUTE_FRAME_BYTES) "route" with
      | Err err => Ret (Err err)
      | Ok answer =>
        c ← route_card answer;
        match c with
        | Err err => Ret (Err err)
        | Ok bytes =>
          v ← Card_verify bytes (VerifyContext_expecting (VerifyContext_new verified_at) (pa_node p));
          Ret (match v with
               | Err violation => Err (EngRoute (detail violation))
               | Ok answered =>
                 if card_serial answered <? card_serial (pa_offered p)
                 then Err (EngRoute "server returned an older card than the pairing bundle")
                 else Ok (answered, psecret)
               end)
        end
      end
    end
  end.

(** The second locked section. *)
Definition pair_install (e : Engine) (p : Pairing) (paired_card : Card) (psecret : array 32) (verified_at : Z) :
    exec (Engine * result EngineError ERoute) :=
  let id := pb_route_id (pa_bundle p) in
  if en_stopped e then Ret (e, Err EngStopped)
  else
    let prior := en_routes e !! id in
    if (match prior with Some existing => negb (bool_decide (rt_node existing = card_node_id paired_card)) | None => false end)
    then Ret (e, Err (EngRoute "route id is already bound to another node"))
    else if (match prior with Some existing => card_serial paired_card <? rt_serial existing | None => false end)
    then Ret (e, Err (EngRoute "server card serial moved backwards"))
    else
      e ← with_book e (λ b, upsert_paired b (card_node_id paired_card) psecret);
      let e := en_set_routes e (<[id := mkRouteState (card_node_id paired_card) (card_serial paired_card) paired_card None]> (en_routes e)) in
      Ret (close_session e (prior ≫= rt_session),
           Ok (mkERoute id (Card_as_bytes paired_card) (bytes_of psecret) (card_serial paired_card) verified_at)).

(** The end of an enrolment: its session is closed, the registration dropped, and
    the route installed. *)
Definition pair_finish (e : Engine) (id : Z) (psecret : option (array 32)) (response : result EngineError Response) (verified_at : Z) :
    exec (Engine * option (result EngineError ERoute)) :=
  match en_pairings e !! id with
  | Some p =>
    match pa_phase p with
    | PDialling _ => Ret (e, None)
    | PEnrolling session =>
      let e := en_set_pairings e (delete id (en_pairings e)) (en_next_pairing e) in
      let e := en_close e {[session]} in
      let dropped (e : Engine) := en_set_endpoint e (expire_registration (en_endpoint e) (pg_route (pa_registration p))) in
      r ← (if en_stop e then Ret (Err EngStopped) else enrol p psecret response verified_at);
      match r with
      | Err err => Ret (dropped e, Some (Err err))
      | Ok (c, s) => '(e, r) ← pair_install e p c s verified_at; Ret (dropped e, Some r)
      end
    end
  | None => Ret (e, None)
  end.

(** ** Route changes *)

Definition upsert_route (e : Engine) (route : ERoute) : exec (Engine * result EngineError unit) :=
  v ← verify_route route;
  match v with
  | Err err => Ret (e, Err err)
  | Ok (node, card) =>
    match secret (er_paired_route_secret route) with
    | Err err => Ret (e, Err err)
    | Ok psecret =>
      if en_stopped e then Ret (e, Err EngStopped)
      else
        let previous := en_routes e !! er_route_id route in
        if (match previous with Some existing => er_card_serial route <=? rt_serial existing | None => false end)
        then Ret (e, Err (EngRoute "live card serial must increase"))
        else
          e ← (match previous with
               | Some existing => with_book e (λ b, remove_paired b (rt_node existing))
               | None => Ret e
               end);
          e ← with_book e (λ b, upsert_paired b node psecret);
          let e := en_set_routes e (<[er_route_id route := mkRouteState node (er_card_serial route) card None]> (en_routes e)) in
          Ret (close_session e (previous ≫= rt_session), Ok tt)
    end
  end.

Definition remove_route (e : Engine) (route_id : list byte) : exec (Engine * result EngineError unit) :=
  if en_stopped e then Ret (e, Err EngStopped)
  else match en_routes e !! route_id with
  | None => Ret (e, Err (EngRoute "route is not installed"))
  | Some route =>
    let e := en_set_routes e (delete route_id (en_routes e)) in
    e ← with_book e (λ b, remove_paired b (rt_node route));
    Ret (close_session e (rt_session route), Ok tt)
  end.

(** The cached sessions. *)
Definition cached (m : gmap (list byte) RouteState) : list Z := omap rt_session (snd <$> map_to_list m).

Definition engine_reannounce (e : Engine) : Engine * result EngineError unit :=
  if en_stopped e then (e, Err EngStopped)
  else
    let again (live : gmap Z Live) (s : Z) :=
      alter (λ l, mkLive (lv_conn l) (lv_kind l) (reannounce (lv_sess l))) s live in
    let ep := en_endpoint e in
    (en_set_endpoint e (ep_set_live ep (foldl again (ep_live ep) (cached (en_routes e)))), Ok tt).

(** ** Stopping *)

(** [stop.send_replace(true)]: every dial under way gives way, with its future. *)
Definition stop_signal (e : Engine) : Engine :=
  let pairings := snd <$> map_to_list (en_pairings e) in
  let drops := (match en_lock e with Some d => [dl_flight d] | None => [] end) ++ omap dialling pairings in
  let expired := omap (λ p, dialling p ≫= λ _, Some (pg_route (pa_registration p))) pairings in
  let ep := foldl expire_registration (foldl connect_dropped (en_endpoint e) drops) expired in
  en_set_pairings (en_set_lock (en_set_endpoint (en_set_stop e) ep) None)
    (filter (λ kv, dialling kv.2 = None) (en_pairings e)) (en_next_pairing e).

(** The rest of [stop], once it has the lock: cached sessions are taken out and
    closed, then the endpoint and every connection with it. *)
Definition stop_locked (e : Engine) : Engine :=
  let sessions := list_to_set (cached (en_routes e)) in
  let routes := (λ r, mkRouteState (rt_node r) (rt_serial r) (rt_card r) None) <$> en_routes e in
  let e := en_close (en_set_routes (en_set_stopped e) routes) sessions in
  en_close e (dom (ep_live (en_endpoint e))).

(** The rest of [wipe] after [stop]. *)
Definition wipe_locked (e : Engine) : Engine :=
  let routes := en_routes e in
  let e := en_set_routes e ∅ in
  match ep_book (en_endpoint e) with
  | Some book =>
    en_set_endpoint e (ep_set_book (en_endpoint e)
      (Some (foldl (λ b r, remove_paired b (rt_node r)) book (snd <$> map_to_list routes))))
  | None => e
  end.

(** ** Progress of dials *)

Definition store_session (e : Engine) (route_id : list byte) (s : Z) : exec Engine :=
  route ← expect (en_routes e !! route_id);
  Ret (en_set_routes e (<[route_id := mkRouteState (rt_node route) (rt_serial route) (rt_card route) (Some s)]> (en_routes e))).

(** The dial of the lock's holder ended. *)
Definition dial_ended (e : Engine) (d : Dialling) (r : result FailReason Z) : exec Engine :=
  let e := en_set_lock e None in
  match r with
  | Ok s => store_session e (dl_route d) s
  | Err _ => Ret e
  end.

(** The dial of an enrolment ended: the provisional session, or the registration
    dropped with the error. *)
Definition pairing_ended (e : Engine) (id : Z) (p : Pairing) (r : result FailReason Z) : Engine :=
  match r with
  | Ok s =>
    en_set_pairings e
      (<[id := mkPairing (pa_bundle p) (pa_node p) (pa_offered p) (pa_registration p) (pa_frame p) (PEnrolling s)]> (en_pairings e))
      (en_next_pairing e)
  | Err _ =>
    en_set_endpoint (en_set_pairings e (delete id (en_pairings e)) (en_next_pairing e))
      (expire_registration (en_endpoint e) (pg_route (pa_registration p)))
  end.

(** Whose dial a flight is. *)
Definition waiting (e : Engine) (flight : Z) : list (Z * Pairing) :=
  filter (λ kv, dialling kv.2 = Some flight) (map_to_list (en_pairings e)).

Definition flight_ended (e : Engine) (flight : Z) (r : result FailReason Z) : exec Engine :=
  match en_lock e with
  | Some d => if bool_decide (dl_flight d = flight) then dial_ended e d r
              else Ret (match waiting e flight with (id, p) :: _ => pairing_ended e id p r | [] => e end)
  | None => Ret (match waiting e flight with (id, p) :: _ => pairing_ended e id p r | [] => e end)
  end.

Definition flight_ready (e : Engine) (flight : Z) (r : result FailReason (list byte)) : exec Engine :=
  let '(ep, out) := connect_ready (en_endpoint e) flight r in
  let e := en_set_endpoint e ep in
  match out with
  | Some reason => flight_ended e flight (Err reason)
  | None => Ret e
  end.

Definition flight_dialled (e : Engine) (flight : Z) (i : HsIn) (h : Handshake) : exec Engine :=
  let '(ep, out) := connect_handshake (en_endpoint e) flight i h in
  let e := en_set_endpoint e ep in
  match out with
  | Some r => flight_ended e flight r
  | None => Ret e
  end.

(** [rt::timeout] around the dial of a request. *)
Definition dial_timeout (e : Engine) : Engine :=
  match en_lock e with
  | Some d => en_set_lock (en_set_endpoint e (connect_dropped (en_endpoint e) (dl_flight d))) None
  | None => e
  end.

End engine.

(** ** Histories *)

(** Events of the endpoint that no call of the engine is waiting for. *)
Definition endpoint_event (ev : EEvent) : bool :=
  match ev with
  | EStream _ | ECleanup _ _ | EExpire _ | EPaths _ => true
  | EBook (BPrune _) | EBook (BTagForSend _ _ _) => true
  | _ => false
  end.

Inductive NEvent : Type :=
  | NSocket (url : option Url) (route_id : list byte) (failed : Z → bool) (driver : Z)
  | NRequest (request : JsonRequest) (failed : Z → bool) (driver : Z)
  | NReserve
  | NReserved (request : JsonRequest) (permit : option Z) (failed : Z → bool) (driver : Z)
  | NClone (g : Z)
  | NDrop (g : Z)
  | NDelete (finalize : bool) (route_id : list byte) (driver : Z)
  | NPair (b : PairingBundle) (i : PairIn)
  | NPaired (id : Z) (psecret : option (array 32)) (response : result EngineError Response) (verified_at : Z)
  | NUpsert (route : ERoute)
  | NRemove (route_id : list byte)
  | NReannounce
  | NStop
  | NStopLocked
  | NWipe
  | NReady (flight : Z) (r : result FailReason (list byte))
  | NDialled (flight : Z) (i : HsIn) (h : Handshake)
  | NTimeout
  | NClosed (session : Z)
  | NEnds (session : Z) (driven : bool)
  | NEndpoint (ev : EEvent).

Section histories.
Context `{C : Crypto, R : RdvCrypto, T : RawKeyTls, M : Mac, X : Hex, !HashIter SocketAddr Z}.

(** [NClosed] is a connection that ended, [NEnds] what its driver, if it still runs,
    does about it;
    the locked part of [stop] follows its signal, that of [wipe] follows [stop]. *)
Definition en_step (e : Engine) (ev : NEvent) : exec Engine :=
  let locked (r : exec Engine) : exec Engine := match en_lock e with Some _ => Ret e | None => r end in
  match ev with
  | NSocket url route_id failed driver => locked (Ret (fst (open_socket e url route_id failed driver)))
  | NRequest request failed driver => locked (Ret (fst (request_json e request failed driver)))
  | NReserve => Ret (fst (reserve_file_request e))
  | NReserved request permit failed driver => locked (Ret (fst (request_json_reserved e request permit failed driver)))
  | NClone g => Ret (clone_guard e g)
  | NDrop g => Ret (drop_guard e g)
  | NDelete finalize route_id driver =>
    locked (Ret (fst (if finalize then finalize_route e route_id driver else retire_route e route_id driver)))
  | NPair b i => locked (match pair_begin e b i with Some r => '(e, _) ← r; Ret e | None => Ret e end)
  | NPaired id psecret response verified_at => locked ('(e, _) ← pair_finish e id psecret response verified_at; Ret e)
  | NUpsert route => locked ('(e, _) ← upsert_route e route; Ret e)
  | NRemove route_id => locked ('(e, _) ← remove_route e route_id; Ret e)
  | NReannounce => locked (Ret (fst (engine_reannounce e)))
  | NStop => Ret (stop_signal e)
  | NStopLocked => if en_stop e then locked (Ret (stop_locked e)) else Ret e
  | NWipe => if en_stopped e then locked (Ret (wipe_locked e)) else Ret e
  | NReady flight r => flight_ready e flight r
  | NDialled flight i h => flight_dialled e flight i h
  | NTimeout => Ret (dial_timeout e)
  | NClosed session => Ret (en_close e {[session]})
  | NEnds session driven =>
    if bool_decide (session ∈ en_closed e)
    then Ret (en_set_endpoint e (session_ends (en_endpoint e) session driven)) else Ret e
  | NEndpoint ev => if endpoint_event ev then Ret (en_set_endpoint e (ep_step (en_endpoint e) ev)) else Ret e
  end.

Fixpoint en_run (e : Engine) (es : list NEvent) : exec Engine :=
  match es with
  | [] => Ret e
  | ev :: es => e ← en_step e ev; en_run e es
  end.

End histories.
