(* ===== verification/EngineInv.v ===== *)
(** * EngineInv: the invariant of the engine

    What every call of the engine and every event of its endpoint keeps: installed
    routes match their cards, cached sessions were established with their route's
    node, dials under way belong to the call that waits for them, and the book
    holds secrets of installed routes only.  It also follows that the engine's
    [expect]s never fail. *)

From S2P Require Import Prelude Net Id Rendezvous Card Wire Tls Paths TagBook RelayClient Session Endpoint Blossom Http WebSocket Engine.

Open Scope Z_scope.

(** ** Sessions that have been established *)

Definition next_session (ep : Endpoint) : Z := in_next_session (p_inner (ep_paths ep)).

(** A flight has the slot [s]. *)
Definition flying (ep : Endpoint) (s : Z) : Prop :=
  ∃ id f peer, ep_flights ep !! id = Some f ∧ flight_slot f = Some (peer, s).

Definition pinned (l : Live) : bool := match lv_kind l with Pinned => true | Provisional _ _ _ => false end.

Definition same_session (l l' : Live) : Prop := s_peer (lv_sess l') = s_peer (lv_sess l) ∧ pinned l' = pinned l.

(** Slots are never reused: what is new in [ep'] has a new slot or one that a
    flight of [ep] had. *)
Record grows (ep ep' : Endpoint) : Prop := {
  gr_next : next_session ep <= next_session ep';
  gr_flying s : flying ep' s → flying ep s ∨ next_session ep <= s;
  gr_live s l' : ep_live ep' !! s = Some l' →
    (∃ l, ep_live ep !! s = Some l ∧ same_session l l') ∨ flying ep s ∨ next_session ep <= s;
}.

#[global] Instance same_session_refl : Reflexive same_session.
Proof. by split. Qed.

#[global] Instance grows_refl : Reflexive grows.
Proof. intros ep. split; [lia | auto |]. intros s l H. left. exists l. by split. Qed.

#[global] Instance grows_trans : Transitive grows.
Proof.
  intros a b c [N1 F1 L1] [N2 F2 L2]. split; [lia | |].
  - intros s H. destruct (F2 s H) as [H'|H']; [by apply F1 | right; lia].
  - intros s l' H. destruct (L2 s l' H) as [(l & Hl & Hs & Hk)|[H'|H']]; [| |right; right; lia].
    + destruct (L1 s l Hl) as [(l0 & Hl0 & Hs0 & Hk0)|H']; [|auto]. left. exists l0. split; [done|].
      split; congruence.
    + destruct (F1 s H'); auto.
Qed.

Ltac ep_cbn :=
  cbn [ep_config ep_paths ep_serial ep_book ep_generation ep_flights ep_next_flight ep_live ep_set_paths ep_set_serial
       ep_set_book ep_next_generation ep_set_flights ep_set_live add_flight move_flight end_flight fst snd] in *.

(** Steps that keep the flights, the sessions and the next slot. *)
Lemma grows_same ep ep' :
  slots (ep_paths ep') = slots (ep_paths ep) → ep_flights ep' = ep_flights ep → ep_live ep' = ep_live ep → grows ep ep'.
Proof.
  intros Hs Hf Hl. unfold slots in Hs. injection Hs as _ Hn _. split; unfold next_session, flying; rewrite ?Hn, ?Hf, ?Hl; [done | auto |].
  intros s l H. left. exists l. by split.
Qed.

Lemma grows_end_flight ep id : grows ep (end_flight ep id).
Proof.
  split; [done | | intros s l H; left; exists l; by split].
  intros s (i & f & p & Hi & Hs). ep_cbn. apply lookup_delete_Some in Hi as [_ Hi]. left. by exists i, f, p.
Qed.

Lemma grows_add_flight ep f peer s :
  flight_slot f = Some (peer, s) → next_session ep <= s → grows ep (fst (add_flight ep f)).
Proof.
  intros Hf Hn. split; [done | | intros s' l H; left; exists l; by split].
  intros s' (i & g & p & Hi & Hs). ep_cbn. apply lookup_insert_Some in Hi as [[<- <-]|[_ Hi]]; [rewrite Hf in Hs; simplify_eq; auto|].
  left. by exists i, g, p.
Qed.

Lemma grows_add_free ep f : flight_slot f = None → grows ep (fst (add_flight ep f)).
Proof.
  intros Hf. split; [done | | intros s' l H; left; exists l; by split].
  intros s' (i & g & p & Hi & Hs). ep_cbn. apply lookup_insert_Some in Hi as [[<- <-]|[_ Hi]]; [congruence|]. left. by exists i, g, p.
Qed.

Lemma grows_release ep peer s : grows ep (release ep peer s).
Proof.
  split; [| auto | intros s' l H; left; exists l; by split]. unfold next_session, release, end_session.
  cbn [ep_set_paths ep_paths]. by split_if.
Qed.

Lemma grows_release_slot ep route slot : grows ep (release_slot ep route slot).
Proof. destruct slot; [apply grows_release | done]. Qed.

(** A session established on a slot that a flight had, or a new one. *)
Lemma grows_establish ep0 ep i peer s allow kind conn material :
  grows ep0 ep → flying ep0 s ∨ next_session ep0 <= s → grows ep0 (establish ep i peer s allow kind conn material).
Proof.
  intros [N F L] Hs. unfold establish.
  pose proof (session_start_slots (ep_paths ep) (hi_view i) (hi_now i) (hi_now i) peer allow s material) as E.
  destruct (session_start _ _ _ _ _ _ _ _) as [p ss]. cbn [fst] in E. unfold slots in E. injection E as _ En _.
  split; [| done |].
  - unfold next_session in *. cbn [ep_set_live ep_set_paths ep_paths]. rewrite En. done.
  - intros s' l' H. ep_cbn. apply lookup_insert_Some in H as [[<- <-]|[_ H]]; [destruct Hs; auto | by apply L].
Qed.

Section growing.
Context `{C : Crypto, R : RdvCrypto, T : RawKeyTls, M : Mac, !HashIter SocketAddr Z}.

(** A slot begun on [p] and put in a flight. *)
Lemma grows_begin ep p peer f g :
  slots p = slots (ep_paths ep) → (∀ p, slots (g p) = slots p) →
  (∀ session, flight_slot (f session) = Some (peer, session)) →
  grows ep (let '(p, session) := begin_session p peer in fst (add_flight (ep_set_paths ep (g p)) (f session))).
Proof.
  intros Hp Hg Hf. pose proof (begin_session_slots p peer) as Hb. pose proof (begin_session_id p peer) as Hi.
  destruct (begin_session p peer) as [p' s]. cbn [fst snd] in *. specialize (Hg p'). unfold slots in *.
  injection Hp as _ Hn _. injection Hb as _ Hb _. injection Hg as _ Hg _.
  split; [| | intros s' l H; left; exists l; by split].
  - unfold next_session. ep_cbn. lia.
  - intros s' (i & h & q & Hq & Hs). ep_cbn. apply lookup_insert_Some in Hq as [[<- <-]|[_ Hq]]; [|left; by exists i, h, q].
    rewrite Hf in Hs. injection Hs as _ <-. right. unfold next_session. lia.
Qed.

Lemma connect_begin_grows ep c driver : grows ep (fst (connect_begin ep c driver)).
Proof.
  unfold connect_begin. split_if; [done|]. split_if; [done|].
  pose proof (grows_begin ep (register_peer (ep_paths ep) (card_node_id c)) (card_node_id c)
    (λ s, FDial (card_node_id c) s None) (λ p, set_peer_relays p (card_node_id c) driver)) as H.
  destruct (begin_session _ _). by apply H.
Qed.

Lemma connect_pairing_begin_grows ep c reg belongs now now2 driver :
  grows ep (fst (connect_pairing_begin ep c reg belongs now now2 driver)).
Proof.
  unfold connect_pairing_begin. split_if; [done|]. destruct (ep_book ep) as [book|]; [|done]. split_if; [done|].
  destruct (registration_active _ _ _ _) as [b1 []]; cbn [negb]; [|by apply grows_same]. split_if; [by apply grows_same|].
  destruct (pairing_active _ _ _) as [b2 []]; cbn [negb]; [|by apply grows_same].
  set (e2 := ep_set_book _ (Some b2)). set (route := pg_route reg). set (peer := card_node_id c).
  pose proof (grows_begin e2 (register_peer (register_peer (ep_paths e2) route) peer) peer
    (λ s, FDial peer s (Some route)) (λ p, copy_relay_route (set_peer_relays p route driver) route peer)) as H.
  destruct (begin_session _ _) as [p session]. etrans; [|by apply H]. by apply grows_same.
Qed.

Lemma connect_ready_grows ep id r : grows ep (fst (connect_ready ep id r)).
Proof.
  unfold connect_ready. destruct (ep_flights ep !! id) as [[peer s pairing| |]|] eqn:Hf; try done. destruct r as [url|reason].
  - split; [done | | intros s' l H; left; exists l; by split].
    intros s' (i & g & q & Hq & Hs). ep_cbn. left. apply lookup_insert_Some in Hq as [[<- <-]|[_ Hq]]; [|by exists i, g, q].
    exists id, (FDial peer s pairing), q. done.
  - etrans; [apply grows_release | apply grows_end_flight].
Qed.

Lemma connect_dropped_grows ep id : grows ep (connect_dropped ep id).
Proof. unfold connect_dropped. destruct (ep_flights ep !! id) as [[]|]; try done; apply grows_end_flight. Qed.

Lemma connect_handshake_grows ep id i h : grows ep (fst (connect_handshake ep id i h)).
Proof.
  unfold connect_handshake. destruct (ep_flights ep !! id) as [[|peer s pairing|]|] eqn:Hf; try done.
  assert (Hfly : flying ep s) by (by exists id, (FShake peer s pairing), peer).
  assert (Hrel : grows ep (end_flight (release ep peer s) id)) by (etrans; [apply grows_release | apply grows_end_flight]).
  split_if; [apply grows_end_flight|]. split_if; [done|]. destruct h as [|conn secret material]; [done|]. split_if; [done|].
  destruct pairing as [route|]; [|apply grows_establish; [apply grows_end_flight | by left]].
  destruct (ep_book ep) as [book|]; [|done].
  destruct (promote_same (end_flight ep id) book route secret (hi_unix i)) as (Hp & Hfl & Hl & _).
  destruct (promote_pairing_route _ _ _ _ _) as [e' r]. cbn [fst] in *.
  assert (Hg : grows ep e') by (etrans; [apply (grows_end_flight _ id)|]; apply grows_same; congruence).
  destruct r; [by apply grows_establish; auto|]. etrans; [done | apply grows_release].
Qed.

Lemma session_ends_grows ep s driven : grows ep (session_ends ep s driven).
Proof.
  unfold session_ends. destruct (ep_live ep !! s) as [l|]; [|done].
  set (ep1 := if driven then _ else _). assert (grows ep ep1 ∧ ep_live ep1 = ep_live ep) as [Hg Hlv].
  { subst ep1. destruct driven; [|done]. split; [|done]. etrans; [|apply (grows_release _ (s_peer (lv_sess l)) s)].
    apply grows_same; [apply forget_slots|done|done]. }
  etrans; [exact Hg|]. clearbody ep1. split; [reflexivity | intros ? ?; by left |]. intros s' l' H. ep_cbn. apply lookup_delete_Some in H as [_ H]. left. exists l'. by split.
Qed.

Lemma stream_grows ep s : grows ep (fst (take_application_stream ep s)).
Proof.
  unfold take_application_stream. destruct (ep_live ep !! s) as [l|] eqn:Hl; [|done].
  destruct (lv_kind l) eqn:Hk; [done|]. split; [done | auto |]. intros s' l' H. ep_cbn. left.
  apply lookup_insert_Some in H as [[<- <-]|[_ H]]; [|exists l'; by split]. exists l. split; [done|].
  split; [done|]. unfold pinned. by rewrite Hk.
Qed.

Lemma endpoint_event_grows ep ev : endpoint_event ev = true → grows ep (ep_step ep ev).
Proof.
  destruct ev as [| | | | | | |s| |route g| | |route|op|op]; try done; intros H; cbn [ep_step]; try by apply grows_same.
  - apply stream_grows.
  - split_if; [|done]. apply grows_same; [by apply p_step_slots | done | done].
Qed.

Lemma register_grows ep raw lifetime now candidates ep' reg :
  register_pairing_secret ep raw lifetime now candidates = Some (Ok (ep', reg)) → grows ep ep'.
Proof.
  unfold register_pairing_secret. split_if; [done|]. destruct (ep_book ep); [|done].
  destruct (register_pairing _ _ _ _) as [[b r]|]; [|done]. cbn. intros [= <- _]. by apply grows_same.
Qed.

Lemma expire_grows ep route : grows ep (expire_registration ep route).
Proof. by apply grows_same. Qed.

Lemma foldl_grows {A} (f : Endpoint → A → Endpoint) l ep : (∀ ep a, grows ep (f ep a)) → grows ep (foldl f ep l).
Proof. intros Hf. revert ep. induction l as [|a l IH]; intros ep; [done|]. cbn [foldl]. etrans; [apply Hf | apply IH]. Qed.

End growing.

#[export] Hint Resolve connect_begin_grows connect_pairing_begin_grows connect_ready_grows connect_dropped_grows
  connect_handshake_grows session_ends_grows endpoint_event_grows expire_grows : link.

(** [s] was established with [node]: no flight has its slot, and while it is alive
    it is a session with that node, pinned or provisional as it began. *)
Record settled (ep : Endpoint) (s : Z) (node : NodeId) (kind : bool) : Prop := {
  se_next : s < next_session ep;
  se_flying : ¬ flying ep s;
  se_live l : ep_live ep !! s = Some l → s_peer (lv_sess l) = node ∧ pinned l = kind;
}.

Lemma settled_grows ep ep' s node kind : grows ep ep' → settled ep s node kind → settled ep' s node kind.
Proof.
  intros [N F L] [H1 H2 H3]. split; [lia | |].
  - intros H. apply F in H as [H|H]; [done | lia].
  - intros l' Hl'. apply L in Hl' as [(l & Hl & Hs & Hk)|[H|H]]; [|done|lia]. apply H3 in Hl as [? ?].
    split; congruence.
Qed.

(** ** Steps of the endpoint, as the engine sees them *)

Definition paired_of (ep : Endpoint) : option (gmap NodeId (array 32)) := tb_paired <$> ep_book ep.
Definition refinable (ep : Endpoint) : Prop := ∃ t, refines None ep t.

Section steps.
Context `{C : Crypto, T : RawKeyTls}.

(** A step that keeps the paired secrets, the identity of every session and every
    flight it does not touch. *)
Record stepped (touch : Z → Prop) (ep ep' : Endpoint) : Prop := {
  st_grows : grows ep ep';
  st_config : ep_config ep' = ep_config ep;
  st_paired : paired_of ep' = paired_of ep;
  st_lives : lives_ok ep → lives_ok ep';
  st_table : refinable ep → refinable ep';
  st_flights fl f : refinable ep → ep_flights ep !! fl = Some f → ¬ touch fl → ep_flights ep' !! fl = Some f;
}.

Lemma stepped_refl touch ep : stepped touch ep ep.
Proof. by split. Qed.

Lemma stepped_trans touch a b c : stepped touch a b → stepped touch b c → stepped touch a c.
Proof. intros [G1 C1 P1 I1 T1 F1] [G2 C2 P2 I2 T2 F2]. split; [by etrans | congruence | congruence | auto | auto | eauto]. Qed.

End steps.

Lemma sim_refinable t ep : simulates false t ep → refinable ep.
Proof. intros (ops & H & _). by exists (foldl t_step t ops). Qed.

Section stepping.
Context `{C : Crypto, R : RdvCrypto, T : RawKeyTls, M : Mac, !HashIter SocketAddr Z}.

(** Updates of the book that keep the paired secrets. *)
Lemma prune_paired b now : tb_paired (prune_expired b now) = tb_paired b.
Proof. unfold prune_expired. by repeat case_match. Qed.

Lemma pairing_active_paired b route now : tb_paired (fst (pairing_active b route now)) = tb_paired b.
Proof. apply prune_paired. Qed.

Lemma promote_paired b route s g now : tb_paired (fst (promote_pairing b route s g now)) = tb_paired b.
Proof. unfold promote_pairing. rewrite <- (prune_paired b now). by repeat case_match. Qed.

Lemma remove_pairing_paired b route : tb_paired (fst (remove_pairing b route)) = tb_paired b.
Proof. unfold remove_pairing. by repeat case_match. Qed.

Lemma remove_live_paired b route g : tb_paired (fst (remove_live_pairing b route g)) = tb_paired b.
Proof. unfold remove_live_pairing. by repeat case_match. Qed.

Lemma tag_for_send_paired b peer host now : tb_paired (fst (tag_for_send b peer host now)) = tb_paired b.
Proof.
  unfold tag_for_send. rewrite <- (prune_paired b now). generalize (prune_expired b now) as b'. intros b'. cbn zeta.
  destruct (bool_decide (tb_cache_host b' = host)); by repeat case_match.
Qed.

Lemma registration_active_paired b route at_ now : tb_paired (fst (registration_active b route at_ now)) = tb_paired b.
Proof. unfold registration_active. split_if; [apply pairing_active_paired | done]. Qed.

(** A step that keeps the flights, the sessions, the slots and the secrets. *)
Lemma stepped_same touch ep ep' :
  slots (ep_paths ep') = slots (ep_paths ep) → ep_flights ep' = ep_flights ep → ep_live ep' = ep_live ep →
  ep_next_flight ep' = ep_next_flight ep → paired_of ep' = paired_of ep → ep_config ep' = ep_config ep → stepped touch ep ep'.
Proof.
  intros Hs Hf Hl Hn Hp Hc. split; [by apply grows_same | done | done | by apply lives_same | |].
  - intros [t Ht]. exists t. by apply (refines_same _ ep).
  - intros fl f _ Hfl _. by rewrite Hf.
Qed.

Lemma fresh_flight ep fl f : refinable ep → ep_flights ep !! fl = Some f → fl ≠ ep_next_flight ep.
Proof. intros [t Ht] H ->. apply (rf_ids _ _ _ Ht) in H. lia. Qed.

Lemma connect_begin_stepped touch ep c driver : stepped touch ep (fst (connect_begin ep c driver)).
Proof.
  split; [apply connect_begin_grows | | | exact (ep_step_lives ep (EConnect c driver)) | |].
  - unfold connect_begin. split_if; [done|]. split_if; [done|]. by destruct (begin_session _ _).
  - unfold connect_begin. split_if; [done|]. split_if; [done|]. by destruct (begin_session _ _).
  - intros [t Ht]. by eapply sim_refinable, connect_begin_sim.
  - intros fl f Ht Hf _. unfold connect_begin. split_if; [done|]. split_if; [done|]. destruct (begin_session _ _). ep_cbn.
    rewrite lookup_insert_ne; [done|]. intros <-. by apply fresh_flight in Hf.
Qed.

Lemma connect_pairing_begin_stepped touch ep c reg belongs now now2 driver :
  stepped touch ep (fst (connect_pairing_begin ep c reg belongs now now2 driver)).
Proof.
  split; [apply connect_pairing_begin_grows | | | exact (ep_step_lives ep (EConnectPairing c reg belongs now now2 driver)) | intros [t Ht]; by eapply sim_refinable, connect_pairing_sim |].
  - unfold connect_pairing_begin. split_if; [done|]. destruct (ep_book ep) as [book|]; [|done]. split_if; [done|].
    destruct (registration_active _ _ _ _) as [b1 []]; cbn [negb]; [|done]. split_if; [done|].
    destruct (pairing_active _ _ _) as [b2 []]; cbn [negb]; [|done]. by destruct (begin_session _ _).
  - unfold connect_pairing_begin, paired_of. split_if; [done|]. destruct (ep_book ep) as [book|] eqn:Eb; [|cbn; by rewrite ?Eb].
    split_if; [cbn; by rewrite ?Eb|]. pose proof (registration_active_paired book (pg_route reg) (pg_expires_at reg) now) as Ha.
    destruct (registration_active _ _ _ _) as [b1 []]; cbn [negb fst] in *; [|ep_cbn; cbn; congruence].
    split_if; [ep_cbn; cbn; congruence|]. pose proof (pairing_active_paired b1 (pg_route reg) now2) as Hb.
    destruct (pairing_active _ _ _) as [b2 []]; cbn [negb fst] in *; [|ep_cbn; cbn; congruence].
    destruct (begin_session _ _). ep_cbn. cbn. congruence.
  - intros fl f Ht Hf _. unfold connect_pairing_begin. split_if; [done|]. destruct (ep_book ep) as [book|]; [|done]. split_if; [done|].
    destruct (registration_active _ _ _ _) as [b1 []]; cbn [negb]; [|done]. split_if; [done|].
    destruct (pairing_active _ _ _) as [b2 []]; cbn [negb]; [|done]. destruct (begin_session _ _). ep_cbn.
    rewrite lookup_insert_ne; [done|]. intros <-. by apply fresh_flight in Hf.
Qed.

Lemma connect_ready_stepped ep id r : stepped (eq id) ep (fst (connect_ready ep id r)).
Proof.
  split; [apply connect_ready_grows | | | exact (ep_step_lives ep (EReady id r)) | intros [t Ht]; by eapply sim_refinable, connect_ready_sim |].
  - unfold connect_ready. destruct (ep_flights ep !! id) as [[]|]; try done. by destruct r.
  - unfold connect_ready. destruct (ep_flights ep !! id) as [[]|]; try done. by destruct r.
  - intros fl f _ Hf Hne. unfold connect_ready. destruct (ep_flights ep !! id) as [[]|]; try done.
    destruct r; ep_cbn; [by rewrite lookup_insert_ne by congruence | by rewrite lookup_delete_ne by congruence].
Qed.

Lemma connect_dropped_stepped ep id : stepped (eq id) ep (connect_dropped ep id).
Proof.
  split; [apply connect_dropped_grows | | | exact (ep_step_lives ep (EDropped id)) | intros [t Ht]; by eapply sim_refinable, connect_dropped_sim |].
  - unfold connect_dropped. by destruct (ep_flights ep !! id) as [[]|].
  - unfold connect_dropped. by destruct (ep_flights ep !! id) as [[]|].
  - intros fl f _ Hf Hne. unfold connect_dropped. destruct (ep_flights ep !! id) as [[]|]; try done; ep_cbn;
      by rewrite lookup_delete_ne by congruence.
Qed.

Lemma establish_book ep i peer s allow kind conn material :
  ep_book (establish ep i peer s allow kind conn material) = ep_book ep ∧
  ep_flights (establish ep i peer s allow kind conn material) = ep_flights ep.
Proof. unfold establish. by destruct (session_start _ _ _ _ _ _ _ _). Qed.

Lemma promote_book ep book route s now :
  ep_book ep = Some book →
  paired_of (fst (promote_pairing_route ep book route s now)) = paired_of ep.
Proof.
  intros Hb. unfold promote_pairing_route, paired_of. destruct s as [s|]; [|by cbn; rewrite Hb].
  pose proof (promote_paired book route s (ep_generation ep) now) as Hp.
  destruct (promote_pairing _ _ _ _ _) as [b ok]. ep_cbn. rewrite Hb. cbn. congruence.
Qed.

Lemma connect_handshake_stepped ep id i h : stepped (eq id) ep (fst (connect_handshake ep id i h)).
Proof.
  split; [apply connect_handshake_grows | | | exact (ep_step_lives ep (EDialled id i h)) | intros [t Ht]; by eapply sim_refinable, connect_handshake_sim |].
  - unfold connect_handshake, establish, promote_pairing_route. by repeat (case_match; simplify_eq/=; try done).
  - unfold connect_handshake. destruct (ep_flights ep !! id) as [[|peer s pairing|]|]; try done.
    split_if; [done|]. split_if; [done|]. destruct h as [|conn secret material]; [done|]. split_if; [done|].
    unfold paired_of. destruct pairing as [route|]; cbn [fst].
    2:{ by destruct (establish_book (end_flight ep id) i peer s (ec_allow_direct (ep_config (end_flight ep id))) Pinned conn material) as [-> _]. }
    destruct (ep_book ep) as [book|] eqn:Hb; [|cbn; by rewrite ?Hb].
    pose proof (promote_book (end_flight ep id) book route secret (hi_unix i) Hb) as Hp. unfold paired_of in Hp. ep_cbn.
    rewrite Hb in Hp. destruct (promote_pairing_route _ _ _ _ _) as [e' r]. ep_cbn. destruct r as [g|]; [|done]. cbn [fst].
    by destruct (establish_book e' i peer s false (Provisional route g false) conn material) as [-> _].
  - intros fl f _ Hf Hne. unfold connect_handshake. destruct (ep_flights ep !! id) as [[|peer s pairing|]|]; try done.
    assert (Hd : ep_flights (end_flight ep id) !! fl = Some f) by (ep_cbn; by rewrite lookup_delete_ne by congruence).
    split_if; [done|]. split_if; [done|]. destruct h as [|conn secret material]; [done|]. split_if; [done|].
    destruct pairing as [route|]; cbn [fst].
    2:{ by destruct (establish_book (end_flight ep id) i peer s (ec_allow_direct (ep_config (end_flight ep id))) Pinned conn material) as [_ ->]. }
    destruct (ep_book ep) as [book|]; [|done].
    destruct (promote_same (end_flight ep id) book route secret (hi_unix i)) as (_ & Hp & _ & _).
    destruct (promote_pairing_route _ _ _ _ _) as [e' r]. cbn [fst] in Hp. destruct r as [g|]; cbn [fst].
    + destruct (establish_book e' i peer s false (Provisional route g false) conn material) as [_ ->]. by rewrite Hp.
    + unfold release. ep_cbn. by rewrite Hp.
Qed.

Lemma session_ends_stepped touch ep s driven : stepped touch ep (session_ends ep s driven).
Proof.
  split; [apply session_ends_grows | | | exact (ep_step_lives ep (EEnds s driven)) | intros [t Ht]; by eapply sim_refinable, session_ends_sim |].
  - unfold session_ends. by destruct (ep_live ep !! s), driven.
  - unfold session_ends. by destruct (ep_live ep !! s), driven.
  - intros fl f _ Hf _. unfold session_ends. by destruct (ep_live ep !! s), driven.
Qed.

Lemma endpoint_event_stepped touch ep ev : endpoint_event ev = true → stepped touch ep (ep_step ep ev).
Proof.
  intros H. split; [by apply endpoint_event_grows | | | apply ep_step_lives | intros [t Ht]; by eapply sim_refinable, ep_step_sim |].
  - destruct ev as [| | | | | | |s| |route g| | |route|op|op]; try done; cbn [ep_step].
    + unfold take_application_stream. by repeat case_match.
    + by split_if.
  - unfold paired_of. destruct ev as [| | | | | | |s| |route g| | |route|op|op]; try done; cbn [ep_step]; unfold pairing_cleanup, expire_registration; ep_cbn.
    + unfold take_application_stream. by repeat case_match.
    + destruct (ep_book ep); [|done]. cbn. by rewrite remove_live_paired.
    + destruct (ep_book ep); [|done]. cbn. by rewrite remove_pairing_paired.
    + destruct (ep_book ep); [|done]. destruct op; try done; cbn; by rewrite ?prune_paired, ?tag_for_send_paired.
    + by split_if.
  - intros fl f _ Hf _. destruct ev as [| | | | | | |s| |route g| | |route|op|op]; try done; cbn [ep_step].
    + unfold take_application_stream. by repeat case_match.
    + by split_if.
Qed.

Lemma expire_stepped touch ep route : stepped touch ep (expire_registration ep route).
Proof.
  apply stepped_same; try done. unfold paired_of, expire_registration. ep_cbn. destruct (ep_book ep); [|done].
  cbn. by rewrite remove_pairing_paired.
Qed.

Lemma register_stepped touch ep raw lifetime now candidates ep' reg :
  register_pairing_secret ep raw lifetime now candidates = Some (Ok (ep', reg)) → stepped touch ep ep'.
Proof.
  unfold register_pairing_secret. split_if; [done|]. destruct (ep_book ep) as [b|] eqn:Hb; [|done]. unfold register_pairing.
  destruct (fresh_route b candidates); [|done]. cbn. intros [= <- _]. apply stepped_same; try done. unfold paired_of. ep_cbn.
  by rewrite Hb.
Qed.

Lemma card_stepped touch ep now ttl extra local : stepped touch ep (fst (card ep now ttl extra local)).
Proof. by apply stepped_same. Qed.

Lemma foldl_stepped {A} touch (f : Endpoint → A → Endpoint) l ep :
  (∀ ep a, a ∈ l → stepped touch ep (f ep a)) → stepped touch ep (foldl f ep l).
Proof.
  revert ep. induction l as [|a l IH]; intros ep Hf; [apply stepped_refl|]. cbn [foldl].
  eapply stepped_trans; [apply Hf; left|]. apply IH. intros. apply Hf. by right.
Qed.

Lemma stepped_mono (t1 t2 : Z → Prop) ep ep' : (∀ fl, t1 fl → t2 fl) → stepped t1 ep ep' → stepped t2 ep ep'.
Proof. intros H []. split; auto. Qed.

End stepping.

(** ** The engine's invariant *)

(** A dial to [node] is under way on a slot. *)
Definition flight_with (ep : Endpoint) (fl : Z) (node : NodeId) (s : Z) (pairing : option NodeId) : Prop :=
  ep_flights ep !! fl = Some (FDial node s pairing) ∨ ep_flights ep !! fl = Some (FShake node s pairing).

(** An installed route: its card names its node at its serial, and its cached
    session was established with that node, pinned. *)
Record route_ok (ep : Endpoint) (id : list byte) (r : RouteState) : Prop := {
  ro_id : id ≠ [];
  ro_serial : 1 <= rt_serial r;
  ro_node : card_node_id (rt_card r) = rt_node r;
  ro_card : card_serial (rt_card r) = rt_serial r;
  ro_session s : rt_session r = Some s → settled ep s (rt_node r) true;
}.

(** An enrolment under way: its dial is to the node of the scanned card, on a
    pairing route; its session was established with that node, provisional. *)
Definition pairing_ok (ep : Endpoint) (p : Pairing) : Prop :=
  pb_route_id (pa_bundle p) ≠ [] ∧ pa_node p = card_node_id (pa_offered p) ∧
  match pa_phase p with
  | PDialling fl => ∃ s route, flight_with ep fl (pa_node p) s (Some route)
  | PEnrolling s => settled ep s (pa_node p) false
  end.

Section ok.
Context `{C : Crypto, T : RawKeyTls}.

Record en_ok (e : Engine) : Prop := {
  eo_book : ∃ m, paired_of (en_endpoint e) = Some m ∧
    ∀ n, is_Some (m !! n) → ∃ id r, en_routes e !! id = Some r ∧ rt_node r = n;
  eo_table : refinable (en_endpoint e);
  eo_lives : lives_ok (en_endpoint e);
  eo_relays : Forall relay_fits (ec_relays (ep_config (en_endpoint e)));
  eo_routes id r : en_routes e !! id = Some r → route_ok (en_endpoint e) id r;
  eo_lock d : en_lock e = Some d →
    ∃ r s, en_routes e !! dl_route d = Some r ∧ flight_with (en_endpoint e) (dl_flight d) (rt_node r) s None;
  eo_pairing id p : en_pairings e !! id = Some p → pairing_ok (en_endpoint e) p;
  eo_unique id id' p p' fl : en_pairings e !! id = Some p → en_pairings e !! id' = Some p' →
    dialling p = Some fl → dialling p' = Some fl → id = id';
  eo_stopped_stop : en_stopped e = true → en_stop e = true;
  eo_stop : en_stop e = true → en_lock e = None ∧ ∀ id p, en_pairings e !! id = Some p → dialling p = None;
  eo_stopped id r : en_stopped e = true → en_routes e !! id = Some r → rt_session r = None;
}.

End ok.

Ltac en_cbn :=
  cbn [en_endpoint en_closed en_stop en_routes en_stopped en_lock en_pairings en_next_pairing en_permits en_guards en_next_guard
       en_set_endpoint en_close en_set_stop en_set_routes en_set_stopped en_set_lock en_set_pairings en_set_guards fst snd] in *.

Section keeps.
Context `{C : Crypto, T : RawKeyTls}.

Lemma route_ok_grows ep ep' id r : grows ep ep' → route_ok ep id r → route_ok ep' id r.
Proof. intros Hg []. split; try done. intros s Hs. eauto using settled_grows. Qed.

Lemma flight_stepped touch ep ep' fl node s pairing :
  stepped touch ep ep' → refinable ep → ¬ touch fl → flight_with ep fl node s pairing → flight_with ep' fl node s pairing.
Proof. intros [] Hr Ht [H|H]; [left | right]; eauto. Qed.

Lemma dialling_phase p fl : dialling p = Some fl ↔ pa_phase p = PDialling fl.
Proof. unfold dialling. destruct (pa_phase p); naive_solver. Qed.

Lemma pairing_ok_stepped touch ep ep' p :
  stepped touch ep ep' → refinable ep → (∀ fl, dialling p = Some fl → ¬ touch fl) → pairing_ok ep p → pairing_ok ep' p.
Proof.
  intros Hs Hr Ht (H1 & H2 & H3). split; [done|]. split; [done|]. unfold dialling in Ht. destruct (pa_phase p) as [fl|s].
  - destruct H3 as (s & route & H3). exists s, route. eauto using flight_stepped.
  - eapply settled_grows; [apply Hs | done].
Qed.

(** A step of the endpoint that leaves the dials of the engine alone. *)
Lemma ok_endpoint touch e ep :
  en_ok e → stepped touch (en_endpoint e) ep → (∀ d, en_lock e = Some d → ¬ touch (dl_flight d)) →
  (∀ id p fl, en_pairings e !! id = Some p → dialling p = Some fl → ¬ touch fl) → en_ok (en_set_endpoint e ep).
Proof.
  intros [] Hs Hl Hp. split; en_cbn; try done.
  - destruct eo_book0 as (m & Hm & H). exists m. split; [|done]. by rewrite (st_paired _ _ _ Hs).
  - by apply (st_table _ _ _ Hs).
  - by apply (st_lives _ _ _ Hs).
  - by rewrite (st_config _ _ _ Hs).
  - intros id r H. eapply route_ok_grows; [apply Hs | auto].
  - intros d Hd. destruct (eo_lock0 d Hd) as (r & s & H1 & H2). exists r, s. eauto using flight_stepped.
  - intros id p H. eapply pairing_ok_stepped; eauto.
Qed.

Lemma ok_endpoint_free e ep : en_ok e → stepped (λ _, False) (en_endpoint e) ep → en_ok (en_set_endpoint e ep).
Proof. intros H Hs. eapply ok_endpoint; eauto. Qed.

(** Fields the invariant does not mention. *)
Lemma ok_same e e' :
  en_endpoint e' = en_endpoint e → en_routes e' = en_routes e → en_lock e' = en_lock e → en_pairings e' = en_pairings e →
  en_stop e' = en_stop e → en_stopped e' = en_stopped e → en_ok e → en_ok e'.
Proof. intros H1 H2 H3 H4 H5 H6 []. split; rewrite ?H1, ?H2, ?H3, ?H4, ?H5, ?H6; eauto. Qed.

Lemma ok_unlock e : en_ok e → en_ok (en_set_lock e None).
Proof. intros []. split; en_cbn; eauto; [done|]. intros H. split; [done | by apply eo_stop0]. Qed.

Lemma ok_close e l : en_ok e → en_ok (en_close e l).
Proof. by apply ok_same. Qed.

Lemma ok_close_session e s : en_ok e → en_ok (close_session e s).
Proof. destruct s; [apply ok_close | done]. Qed.

Lemma ok_forget_pairing e id : en_ok e → en_ok (en_set_pairings e (delete id (en_pairings e)) (en_next_pairing e)).
Proof.
  intros []. split; en_cbn; try done; eauto.
  - intros i p [_ H]%lookup_delete_Some. eauto.
  - intros i j p p' fl [_ H]%lookup_delete_Some [_ H']%lookup_delete_Some. eauto.
  - intros H. destruct (eo_stop0 H) as [? Hd]. split; [done|]. intros i p [_ Hp]%lookup_delete_Some. eauto.
Qed.

(** ** Routes installed and removed *)

(** The book a call of the engine changes is there. *)
Lemma with_book_ok e f :
  en_ok e → ∃ b, ep_book (en_endpoint e) = Some b ∧
    with_book e f = Ret (en_set_endpoint e (ep_set_book (en_endpoint e) (Some (f b)))).
Proof.
  intros Hok. destruct (eo_book _ Hok) as (m & Hm & _). unfold paired_of in Hm. unfold with_book.
  destruct (ep_book (en_endpoint e)) as [b|]; [|done]. by exists b.
Qed.

Lemma remove_paired_lookup b n : tb_paired (remove_paired b n) = delete n (tb_paired b).
Proof.
  unfold remove_paired. destruct (tb_paired b !! n) eqn:E; [done|]. by rewrite delete_id.
Qed.

Lemma set_book_grows ep b : grows ep (ep_set_book ep b).
Proof. by apply grows_same. Qed.

Lemma pairing_ok_book ep b p : pairing_ok ep p → pairing_ok (ep_set_book ep b) p.
Proof.
  intros (H1 & H2 & H3). split; [done|]. split; [done|]. destruct (pa_phase p); [exact H3|].
  eapply settled_grows; [apply set_book_grows | done].
Qed.

(** A route installed with its secret under the node of its card: the secrets are
    those of [m], and the routes keep their nodes but for [id]. *)
Lemma ok_install e b id r m :
  en_ok e → route_ok (en_endpoint e) id r → rt_session r = None →
  (∀ d, en_lock e = Some d → False) →
  tb_paired b = m → (∀ n, is_Some (m !! n) → n = rt_node r ∨ ∃ i r', i ≠ id ∧ en_routes e !! i = Some r' ∧ rt_node r' = n) →
  en_ok (en_set_routes (en_set_endpoint e (ep_set_book (en_endpoint e) (Some b))) (<[id := r]> (en_routes e))).
Proof.
  intros [] Hr Hn Hl Hb Hm. pose proof (set_book_grows (en_endpoint e) (Some b)) as Hg.
  split; en_cbn; eauto.
  - exists m. split; [unfold paired_of; ep_cbn; cbn; congruence|]. intros n [->|(i & r' & Hi & H & Hn')]%Hm.
    + exists id, r. by rewrite lookup_insert_eq.
    + exists i, r'. by rewrite lookup_insert_ne by congruence.
  - destruct eo_table0 as [t Ht]. exists t. by apply refines_book.
  - intros i r' [[<- <-]|[_ H]]%lookup_insert_Some; eauto using route_ok_grows.
  - intros d Hd. by apply Hl in Hd.
  - intros i p H. apply pairing_ok_book. eauto.
  - intros i r' Hst H. apply lookup_insert_Some in H as [[<- <-]|[_ H]]; eauto.
Qed.

Lemma ok_uninstall e b id m :
  en_ok e → (∀ d, en_lock e = Some d → False) → tb_paired b = m →
  (∀ n, is_Some (m !! n) → ∃ i r, i ≠ id ∧ en_routes e !! i = Some r ∧ rt_node r = n) →
  en_ok (en_set_routes (en_set_endpoint e (ep_set_book (en_endpoint e) (Some b))) (delete id (en_routes e))).
Proof.
  intros [] Hl Hb Hm. pose proof (set_book_grows (en_endpoint e) (Some b)) as Hg. split; en_cbn; eauto.
  - exists m. split; [unfold paired_of; ep_cbn; cbn; congruence|]. intros n (i & r & Hi & H & Hn)%Hm.
    exists i, r. by rewrite lookup_delete_ne by congruence.
  - destruct eo_table0 as [t Ht]. exists t. by apply refines_book.
  - intros i r' [_ H]%lookup_delete_Some. eauto using route_ok_grows.
  - intros d Hd. by apply Hl in Hd.
  - intros i p H. apply pairing_ok_book. eauto.
  - intros i r' Hst H. apply lookup_delete_Some in H as [_ H]. eauto.
Qed.

End keeps.

Section invariant.
Context `{C : Crypto, R : RdvCrypto, T : RawKeyTls, M : Mac, X : Hex, !HashIter SocketAddr Z}.

Lemma new_route_ok ep route node card :
  verify_route route = Ret (Ok (node, card)) →
  route_ok ep (er_route_id route) (mkRouteState node (er_card_serial route) card None).
Proof. intros (H1 & H2 & H3 & H4 & _)%verify_route_ok. by split. Qed.

Lemma upsert_route_ok e route :
  en_ok e → en_lock e = None → ∃ e' r, upsert_route e route = Ret (e', r) ∧ en_ok e'.
Proof.
  intros Hok Hlock. unfold upsert_route. destruct (verify_route_returns route) as [v Hv]. rewrite Hv. cbn [mbind exec_bind].
  destruct v as [[node card]|err]; [|eauto]. destruct (secret _) as [s|err]; [|eauto].
  split_if; [eauto|]. cbn zeta. split_if; [eauto|].
  set (id := er_route_id route). set (r := mkRouteState node (er_card_serial route) card None).
  assert (Hr : route_ok (en_endpoint e) id r) by by apply new_route_ok.
  destruct (eo_book _ Hok) as (m & Hm & Hdom). unfold paired_of in Hm.
  destruct (ep_book (en_endpoint e)) as [b|] eqn:Hb; [|done]. injection Hm as <-.
  destruct (en_routes e !! id) as [old|] eqn:Hold.
  - unfold with_book. rewrite Hb. cbn [expect mbind exec_bind]. en_cbn. ep_cbn. cbn [expect mbind exec_bind].
    eexists _, _. split; [done|]. apply ok_close_session.
    eapply (ok_same (en_set_routes (en_set_endpoint e (ep_set_book (en_endpoint e)
      (Some (upsert_paired (remove_paired b (rt_node old)) node s)))) (<[id := r]> (en_routes e)))); try done.
    eapply ok_install; try done; [intros d Hd; congruence|]. cbn. rewrite remove_paired_lookup.
    intros n Hn. destruct (decide (n = node)) as [->|Hne]; [by left|]. right.
    rewrite lookup_insert_ne in Hn by done. destruct Hn as [x Hn]. apply lookup_delete_Some in Hn as [Hno Hn].
    destruct (Hdom n) as (i & r' & Hi & Hn'); [eauto|]. exists i, r'. split; [|done]. intros ->. congruence.
  - cbn [mbind exec_bind]. unfold with_book. rewrite Hb. cbn [expect mbind exec_bind]. eexists _, _. split; [done|].
    apply ok_close_session.
    eapply (ok_same (en_set_routes (en_set_endpoint e (ep_set_book (en_endpoint e)
      (Some (upsert_paired b node s)))) (<[id := r]> (en_routes e)))); try done.
    eapply ok_install; try done; [intros d Hd; congruence|]. cbn.
    intros n Hn. destruct (decide (n = node)) as [->|Hne]; [by left|]. right.
    rewrite lookup_insert_ne in Hn by done. destruct (Hdom n) as (i & r' & Hi & Hn'); [done|].
    exists i, r'. split; [|done]. intros ->. congruence.
Qed.

Lemma remove_route_ok e id :
  en_ok e → en_lock e = None → ∃ e' r, remove_route e id = Ret (e', r) ∧ en_ok e'.
Proof.
  intros Hok Hlock. unfold remove_route. split_if; [eauto|]. destruct (en_routes e !! id) as [old|] eqn:Hold; [|eauto].
  destruct (eo_book _ Hok) as (m & Hm & Hdom). unfold paired_of in Hm. cbn zeta. unfold with_book. en_cbn.
  destruct (ep_book (en_endpoint e)) as [b|] eqn:Hb; [|done]. injection Hm as <-. cbn [expect mbind exec_bind].
  eexists _, _. split; [done|]. apply ok_close_session.
  eapply (ok_same (en_set_routes (en_set_endpoint e (ep_set_book (en_endpoint e)
      (Some (remove_paired b (rt_node old))))) (delete id (en_routes e)))); try done.
  eapply ok_uninstall; try done; [intros d Hd; congruence|]. rewrite remove_paired_lookup.
  intros n [x Hn]. apply lookup_delete_Some in Hn as [Hno Hn]. destruct (Hdom n) as (i & r & Hi & Hn'); [eauto|].
  exists i, r. split; [|done]. intros ->. congruence.
Qed.

(** ** Dials *)

(** [connect] takes a fresh flight to the node of the card. *)
Lemma connect_begin_flight ep c driver ep' fl :
  connect_begin ep c driver = (ep', Ok fl) → fl = ep_next_flight ep ∧ ∃ s, flight_with ep' fl (card_node_id c) s None.
Proof.
  unfold connect_begin. split_if; [done|]. split_if; [done|]. destruct (begin_session _ _) as [p s]. ep_cbn. intros [= <- <-].
  split; [done|]. exists s. left. ep_cbn. apply lookup_insert_eq.
Qed.

Lemma dial_ok e id r driver :
  en_ok e → en_lock e = None → en_stopped e = false → en_routes e !! id = Some r → en_ok (fst (dial e id r driver)).
Proof.
  intros Hok Hlock Hst Hr. unfold dial. destruct (en_stop e) eqn:Hstop; [done|].
  pose proof (connect_begin_stepped (λ _, False) (en_endpoint e) (rt_card r) driver) as Hs.
  destruct (connect_begin _ _ _) as [ep [fl|reason]] eqn:Hc; cbn [fst] in Hs; (cut (en_ok (en_set_endpoint e ep)); [|by apply ok_endpoint_free]).
  - intros []. split; en_cbn; eauto; [|congruence].
    intros d [= <-]. apply connect_begin_flight in Hc as (-> & s & Hf). exists r, s. cbn [dl_route dl_flight].
    split; [done|]. destruct (eo_routes _ Hok _ _ Hr) as []. by rewrite <- ro_node0.
  - done.
Qed.

Lemma acquire_ok e id check keep driver :
  en_ok e → en_lock e = None → en_ok (fst (acquire e id check keep driver)).
Proof.
  intros Hok Hlock. unfold acquire. destruct (en_stopped e) eqn:Hst; [done|].
  destruct (en_routes e !! id) as [r|] eqn:Hr; [|done]. destruct (check r); [|done].
  destruct (rt_session r) as [s|]; [|by apply dial_ok]. split_if; [done | by apply dial_ok].
Qed.

Lemma open_socket_ok e url id failed driver :
  en_ok e → en_lock e = None → en_ok (fst (open_socket e url id failed driver)).
Proof. intros. unfold open_socket. destruct url; [by apply acquire_ok | done]. Qed.

Lemma guards_step_ok e permits m next : en_ok e → en_ok (en_set_guards e permits m next).
Proof. by apply ok_same. Qed.

Lemma drop_guard_ok e g : en_ok e → en_ok (drop_guard e g).
Proof. intros. unfold drop_guard. destruct (en_guards e !! g) as [[|[|n]]|]; auto using guards_step_ok. Qed.

Lemma clone_guard_ok e g : en_ok e → en_ok (clone_guard e g).
Proof. intros. unfold clone_guard. destruct (en_guards e !! g); auto using guards_step_ok. Qed.

Lemma reserve_ok e : en_ok e → en_ok (fst (reserve_file_request e)).
Proof. intros. unfold reserve_file_request. split_if; [done|]. destruct (en_permits e); [done|]. by apply guards_step_ok. Qed.

Lemma request_reserved_ok e request permit failed driver :
  en_ok e → en_lock e = None → en_ok (fst (request_json_reserved e request permit failed driver)).
Proof.
  intros Hok Hlock. unfold request_json_reserved. destruct (validate_http_request request) as [[m r]|]; [|done].
  split_if; [done|]. pose proof (acquire_ok e (jr_route_id request) (λ _, Ok tt) (usable e failed) driver Hok Hlock).
  by destruct (acquire _ _ _ _ _).
Qed.

Lemma request_json_ok e request failed driver :
  en_ok e → en_lock e = None → en_ok (fst (request_json e request failed driver)).
Proof.
  intros Hok Hlock. unfold request_json. destruct (validate_http_request request) as [[m r]|]; [|done].
  destruct (is_file r); [|by apply request_reserved_ok].
  pose proof (reserve_ok e Hok) as Hr.
  assert (Hl : en_lock (fst (reserve_file_request e)) = None).
  { unfold reserve_file_request. split_if; [done|]. by destruct (en_permits e). }
  destruct (reserve_file_request e) as [e1 [g|err]]; [|done]. cbn [fst] in *.
  pose proof (request_reserved_ok e1 request (Some g) failed driver Hr Hl) as H.
  destruct (request_json_reserved _ _ _ _ _) as [e2 [a|err]]; cbn [fst] in *; [done | by apply drop_guard_ok].
Qed.

(** A dial that finishes settles its session. *)
Lemma handshake_settles ep fl node s pairing i h ep' s' :
  refinable ep → flight_with ep fl node s pairing → connect_handshake ep fl i h = (ep', Some (Ok s')) →
  settled ep' s' node (bool_decide (pairing = None)).
Proof.
  intros [t Ht] Hf E. assert (Hg := connect_handshake_grows ep fl i h). rewrite E in Hg. cbn [fst] in Hg.
  assert (Hshake : ep_flights ep !! fl = Some (FShake node s pairing)).
  { destruct Hf as [Hf|Hf]; [|done]. unfold connect_handshake in E. rewrite Hf in E. done. }
  assert (Hnext : s < next_session ep).
  { pose proof (rf_fresh _ _ _ Ht _ _ (rf_flight _ _ _ Ht _ _ _ _ Hshake eq_refl)). pose proof (rf_slots _ _ _ Ht) as Hs.
    unfold slots in Hs. injection Hs as _ Hn _. unfold next_session. lia. }
  assert (s' = s ∧ ep_flights ep' = delete fl (ep_flights ep) ∧
          ∀ l, ep_live ep' !! s = Some l → s_peer (lv_sess l) = node ∧ pinned l = bool_decide (pairing = None)) as (-> & Hfl & Hl).
  { unfold connect_handshake in E. rewrite Hshake in E. destruct (hi_config i); [|done]. destruct (hi_connect i); [|done].
    cbn [negb] in E. destruct h as [|conn secret material]; [done|]. destruct (finishes _ _); [|done]. cbn [negb] in E.
    destruct pairing as [route|].
    - destruct (ep_book ep) as [book|]; [|done].
      destruct (promote_same (end_flight ep fl) book route secret (hi_unix i)) as (_ & Hp & _ & _).
      destruct (promote_pairing_route _ _ _ _ _) as [e1 [g|]]; [|done]. injection E as <- <-. cbn [fst] in Hp.
      destruct (establish_book e1 i node s false (Provisional route g false) conn material) as [_ ->].
      split; [done|]. split; [done|]. unfold establish.
      pose proof (session_start_sess (ep_paths e1) (hi_view i) (hi_now i) (hi_now i) node false s material) as (Hpe & _).
      destruct (session_start _ _ _ _ _ _ _ _). ep_cbn. rewrite lookup_insert_eq. intros l [= <-]. by split.
    - injection E as <- <-.
      destruct (establish_book (end_flight ep fl) i node s (ec_allow_direct (ep_config ep)) Pinned conn material) as [_ ->].
      split; [done|]. split; [done|]. unfold establish.
      pose proof (session_start_sess (ep_paths (end_flight ep fl)) (hi_view i) (hi_now i) (hi_now i) node
        (ec_allow_direct (ep_config ep)) s material) as (Hpe & _).
      destruct (session_start _ _ _ _ _ _ _ _). ep_cbn. rewrite lookup_insert_eq. intros l [= <-]. by split. }
  split; [pose proof (gr_next _ _ Hg); lia | | done].
  intros (id & f & p & Hid & Hs). rewrite Hfl in Hid. apply lookup_delete_Some in Hid as [Hne Hid].
  by pose proof (rf_flights _ _ _ Ht _ _ _ _ _ _ _ Hshake Hid eq_refl Hs).
Qed.

(** The dial of the lock's holder, or of an enrolment, ended. *)
Lemma ok_store e id r s :
  en_ok e → en_lock e = None → en_stopped e = false → en_routes e !! id = Some r → settled (en_endpoint e) s (rt_node r) true →
  en_ok (en_set_routes e (<[id := mkRouteState (rt_node r) (rt_serial r) (rt_card r) (Some s)]> (en_routes e))).
Proof.
  intros [] Hl Hst Hr Hs. set (r' := mkRouteState _ _ _ _). split; en_cbn; eauto.
  - destruct eo_book0 as (m & Hm & H). exists m. split; [done|]. intros n (i & q & Hi & Hn)%H.
    destruct (decide (i = id)) as [->|Hne]; [|exists i, q; by rewrite lookup_insert_ne].
    exists id, r'. rewrite lookup_insert_eq. split; [done|]. simplify_eq. done.
  - intros i q [[<- <-]|[_ H]]%lookup_insert_Some; [|eauto]. destruct (eo_routes0 _ _ Hr). subst r'. split; try done.
    by intros ? [= <-].
  - congruence.
  - congruence.
Qed.

Lemma ok_enrolling e id p s :
  en_ok e → pb_route_id (pa_bundle p) ≠ [] → pa_node p = card_node_id (pa_offered p) → pa_phase p = PEnrolling s →
  settled (en_endpoint e) s (pa_node p) false →
  en_ok (en_set_pairings e (<[id := p]> (en_pairings e)) (en_next_pairing e)).
Proof.
  intros [] H1 H2 Hp Hs. assert (Hd : dialling p = None) by (unfold dialling; by rewrite Hp). split; en_cbn; eauto.
  - intros i q [[<- <-]|[_ H]]%lookup_insert_Some; [|eauto]. unfold pairing_ok. by rewrite Hp.
  - intros i j q q' fl [[<- <-]|[_ H]]%lookup_insert_Some [[<- <-]|[_ H']]%lookup_insert_Some; try congruence. eauto.
  - intros H. destruct (eo_stop0 H) as [? Hq]. split; [done|]. intros i q [[<- <-]|[_ H']]%lookup_insert_Some; eauto.
Qed.

Lemma flight_with_pairing ep fl node s pg node' s' pg' :
  flight_with ep fl node s pg → flight_with ep fl node' s' pg' → node = node' ∧ pg = pg'.
Proof. intros [H|H] [H'|H']; rewrite H in H'; naive_solver. Qed.

(** Two dials of the engine have two flights. *)
Lemma lock_not_pairing e d id p fl :
  en_ok e → en_lock e = Some d → en_pairings e !! id = Some p → dialling p = Some fl → dl_flight d ≠ fl.
Proof.
  intros Hok Hd Hp Hfl <-. destruct (eo_lock _ Hok _ Hd) as (r & s & _ & H1).
  destruct (eo_pairing _ Hok _ _ Hp) as (_ & _ & H2). apply dialling_phase in Hfl. rewrite Hfl in H2.
  destruct H2 as (s' & route & H2). by destruct (flight_with_pairing _ _ _ _ _ _ _ _ H1 H2).
Qed.

Lemma waiting_spec e fl :
  match waiting e fl with
  | (id, p) :: _ => en_pairings e !! id = Some p ∧ dialling p = Some fl
  | [] => ∀ id p, en_pairings e !! id = Some p → dialling p ≠ Some fl
  end.
Proof.
  unfold waiting. destruct (filter _ _) as [|[id p] l] eqn:E.
  - intros id p Hp Hd. assert ((id, p) ∈ ([] : list (Z * Pairing))) as H; [|by apply elem_of_nil in H].
    rewrite <- E. apply list_elem_of_filter. split; [done|]. by apply elem_of_map_to_list.
  - assert (H : (id, p) ∈ (id, p) :: l) by left. rewrite <- E in H. apply list_elem_of_filter in H as [H1 H2].
    split; [by apply elem_of_map_to_list | done].
Qed.

Lemma pairing_ended_ok e fl ep id p r :
  en_ok e → stepped (eq fl) (en_endpoint e) ep → en_pairings e !! id = Some p → dialling p = Some fl →
  (∀ s, r = Ok s → settled ep s (pa_node p) false) → en_ok (pairing_ended (en_set_endpoint e ep) id p r).
Proof.
  intros Hok Hs Hp Hfl Hr. destruct (eo_pairing _ Hok _ _ Hp) as (H1 & H2 & _).
  assert (Hok' : en_ok (en_set_endpoint (en_set_pairings e (delete id (en_pairings e)) (en_next_pairing e)) ep)).
  { eapply ok_endpoint; [by apply ok_forget_pairing | done | |]; en_cbn.
    - intros d Hd E. by destruct (lock_not_pairing e d id p fl Hok Hd Hp Hfl).
    - intros i q fl' [Hne Hq]%lookup_delete_Some Hfl' ->. by rewrite (eo_unique _ Hok _ _ _ _ _ Hp Hq Hfl Hfl') in Hne. }
  destruct r as [s|reason]; cbn [pairing_ended].
  - pose proof (ok_enrolling _ id (mkPairing (pa_bundle p) (pa_node p) (pa_offered p) (pa_registration p) (pa_frame p) (PEnrolling s))
      s Hok' H1 H2 eq_refl (Hr s eq_refl)) as H. en_cbn. by rewrite insert_delete_eq in H.
  - apply (ok_endpoint_free _ _ Hok'), expire_stepped.
Qed.

Lemma flight_ended_ok e fl ep r :
  en_ok e → stepped (eq fl) (en_endpoint e) ep →
  (∀ s node s0 pg, r = Ok s → flight_with (en_endpoint e) fl node s0 pg → settled ep s node (bool_decide (pg = None))) →
  ∃ e', flight_ended (en_set_endpoint e ep) fl r = Ret e' ∧ en_ok e'.
Proof.
  intros Hok Hs Hr.
  assert (Hwait : (∀ d, en_lock e = Some d → dl_flight d ≠ fl) →
    en_ok (match waiting (en_set_endpoint e ep) fl with (id, p) :: _ => pairing_ended (en_set_endpoint e ep) id p r
           | [] => en_set_endpoint e ep end)).
  { intros Hl. pose proof (waiting_spec (en_set_endpoint e ep) fl) as Hw. en_cbn.
    destruct (waiting _ _) as [|[id p] l].
    - eapply ok_endpoint; try done; [intros d Hd E; by apply (Hl d) | intros id p fl' Hp Hd ->; by eapply Hw].
    - destruct Hw as [Hp Hfl]. eapply pairing_ended_ok; try done. intros s ->.
      destruct (eo_pairing _ Hok _ _ Hp) as (_ & _ & H). pose proof Hfl as Hfl'. apply dialling_phase in Hfl'. rewrite Hfl' in H.
      destruct H as (s0 & route & H). by apply (Hr s _ _ _ eq_refl H). }
  unfold flight_ended. en_cbn. destruct (en_lock e) as [d|] eqn:Hd; [|eexists; split; [done|]; by apply Hwait].
  destruct (bool_decide_reflect (dl_flight d = fl)) as [<-|Hne].
  2:{ eexists. split; [done|]. apply Hwait. by intros ? [= <-]. }
  assert (Hok' : en_ok (en_set_endpoint (en_set_lock e None) ep)).
  { eapply ok_endpoint; [by apply ok_unlock | done | done |]; en_cbn. intros id p fl' Hp Hfl <-.
    by destruct (lock_not_pairing e d id p (dl_flight d) Hok Hd Hp Hfl). }
  unfold dial_ended. destruct r as [s|reason]; [|eexists; split; [done | exact Hok']].
  destruct (eo_lock _ Hok _ Hd) as (r & s0 & Hroute & Hf). unfold store_session. en_cbn. rewrite Hroute. cbn [expect mbind exec_bind].
  eexists. split; [done|]. apply (ok_store (en_set_endpoint (en_set_lock e None) ep)); try done; en_cbn.
  - destruct (en_stopped e) eqn:E; [|done]. apply (eo_stopped_stop _ Hok), (eo_stop _ Hok) in E as [E _]. congruence.
  - by apply (Hr s _ _ _ eq_refl Hf).
Qed.

Lemma connect_ready_moves ep fl r ep' :
  connect_ready ep fl r = (ep', None) →
  ∀ fl' node s pg, flight_with ep fl' node s pg → flight_with ep' fl' node s pg.
Proof.
  unfold connect_ready. destruct (ep_flights ep !! fl) as [[peer s pairing| |]|] eqn:Hf; try by intros [= <-].
  destruct r; [|done]. intros [= <-] fl' node s' pg H. unfold flight_with in *. ep_cbn.
  destruct (decide (fl' = fl)) as [->|Hne]; [|by rewrite !lookup_insert_ne by done].
  rewrite lookup_insert_eq. destruct H as [H|H]; rewrite Hf in H; simplify_eq. by right.
Qed.

Lemma flight_ready_ok e fl r : en_ok e → ∃ e', flight_ready e fl r = Ret e' ∧ en_ok e'.
Proof.
  intros Hok. unfold flight_ready. pose proof (connect_ready_stepped (en_endpoint e) fl r) as Hs.
  destruct (connect_ready _ _ _) as [ep [reason|]] eqn:Hc; cbn [fst] in Hs.
  - by apply flight_ended_ok.
  - eexists. split; [done|]. pose proof (connect_ready_moves _ _ _ _ Hc) as Hm. destruct Hok. split; en_cbn; eauto.
    + destruct eo_book0 as (m & Hm' & H). exists m. split; [|done]. by rewrite (st_paired _ _ _ Hs).
    + by apply (st_table _ _ _ Hs).
    + by apply (st_lives _ _ _ Hs).
    + by rewrite (st_config _ _ _ Hs).
    + intros id q H. eapply route_ok_grows; [apply Hs | auto].
    + intros d Hd. destruct (eo_lock0 d Hd) as (q & s & H1 & H2). eauto.
    + intros id p H. destruct (eo_pairing0 _ _ H) as (H1 & H2 & H3). split; [done|]. split; [done|].
      destruct (pa_phase p); [destruct H3 as (s & route & H3); eauto|]. eapply settled_grows; [apply Hs | done].
Qed.

Lemma connect_handshake_waits ep fl i h : snd (connect_handshake ep fl i h) = None → fst (connect_handshake ep fl i h) = ep.
Proof. unfold connect_handshake. by repeat (case_match; simplify_eq/=; try done). Qed.

Lemma flight_dialled_ok e fl i h : en_ok e → ∃ e', flight_dialled e fl i h = Ret e' ∧ en_ok e'.
Proof.
  intros Hok. unfold flight_dialled. pose proof (connect_handshake_stepped (en_endpoint e) fl i h) as Hs.
  pose proof (connect_handshake_waits (en_endpoint e) fl i h) as Hw.
  destruct (connect_handshake _ _ _ _) as [ep [r|]] eqn:Hc; cbn [fst snd] in *.
  - apply flight_ended_ok; try done. intros s node s0 pg -> Hf. eapply handshake_settles; try done. apply Hok.
  - rewrite (Hw eq_refl). eexists. split; [done|]. by eapply ok_same, Hok.
Qed.

Lemma dial_timeout_ok e : en_ok e → en_ok (dial_timeout e).
Proof.
  intros Hok. unfold dial_timeout. destruct (en_lock e) as [d|] eqn:Hd; [|done].
  cut (en_ok (en_set_endpoint (en_set_lock e None) (connect_dropped (en_endpoint e) (dl_flight d)))); [by apply ok_same|].
  eapply ok_endpoint; [by apply ok_unlock | apply connect_dropped_stepped | done |]; en_cbn.
  intros id p fl Hp Hfl <-. by destruct (lock_not_pairing e d id p (dl_flight d) Hok Hd Hp Hfl).
Qed.

Lemma stop_signal_ok e : en_ok e → en_ok (stop_signal e).
Proof.
  intros Hok. unfold stop_signal.
  set (ep := foldl expire_registration _ _).
  assert (Hs : stepped (λ _, True) (en_endpoint e) ep).
  { subst ep. eapply stepped_trans; [|apply foldl_stepped; intros; apply expire_stepped].
    apply foldl_stepped. intros. eapply stepped_mono; [|apply connect_dropped_stepped]. done. }
  pose proof Hok as []. split; en_cbn; eauto.
  - destruct eo_book0 as (m & Hm' & H). exists m. split; [|done]. by rewrite (st_paired _ _ _ Hs).
  - by apply (st_table _ _ _ Hs).
  - by apply (st_lives _ _ _ Hs).
  - by rewrite (st_config _ _ _ Hs).
  - intros id q H. eapply route_ok_grows; [apply Hs | auto].
  - done.
  - intros id p [Hp Hd]%map_lookup_filter_Some. eapply pairing_ok_stepped; eauto. intros fl Hfl. cbn in Hd. congruence.
  - intros i j p p' fl [Hp Hd]%map_lookup_filter_Some. cbn in Hd. congruence.
  - intros _. split; [done|]. by intros id p [Hp Hd]%map_lookup_filter_Some.
Qed.

Lemma stop_locked_ok e : en_ok e → en_stop e = true → en_ok (stop_locked e).
Proof.
  intros Hok Hst. unfold stop_locked. do 2 apply ok_close. destruct Hok. destruct (eo_stop0 Hst) as [Hl Hp]. split; en_cbn; eauto.
  - destruct eo_book0 as (m & Hm & H). exists m. split; [done|]. intros n (i & r & Hi & Hn)%H.
    exists i, (mkRouteState (rt_node r) (rt_serial r) (rt_card r) None). split; [|done]. by rewrite lookup_fmap, Hi.
  - intros id r Hr. rewrite lookup_fmap in Hr. destruct (en_routes e !! id) as [q|] eqn:Hq; [|done]. injection Hr as <-.
    destruct (eo_routes0 _ _ Hq). by split.
  - intros d Hd. congruence.
  - intros id r _ Hr. rewrite lookup_fmap in Hr. destruct (en_routes e !! id) as [q|]; [|done]. by injection Hr as <-.
Qed.

Lemma wipe_locked_paired e b :
  ep_book (en_endpoint e) = Some b → en_ok e → paired_of (en_endpoint (wipe_locked e)) = Some ∅.
Proof.
  intros Hb Hok. unfold wipe_locked. en_cbn. rewrite Hb. en_cbn. unfold paired_of. ep_cbn. cbn. f_equal.
  destruct (eo_book _ Hok) as (m & Hm & Hdom). unfold paired_of in Hm. rewrite Hb in Hm. injection Hm as <-.
  assert (Hin : ∀ n, is_Some (tb_paired b !! n) → n ∈ rt_node <$> (snd <$> map_to_list (en_routes e))).
  { intros n (i & r & Hi & <-)%Hdom. apply list_elem_of_fmap. exists r. split; [done|]. apply list_elem_of_fmap.
    exists (i, r). split; [done|]. by apply elem_of_map_to_list. }
  clear Hdom Hb. revert b Hin. generalize (snd <$> map_to_list (en_routes e)) as l. induction l as [|r l IH]; intros b Hin.
  - apply map_eq. intros n. cbn [foldl]. rewrite lookup_empty. apply eq_None_not_Some. intros H%Hin. by apply elem_of_nil in H.
  - cbn [foldl]. apply IH. intros n. rewrite remove_paired_lookup. intros [x [Hne Hx]%lookup_delete_Some].
    assert (n ∈ rt_node <$> r :: l) as H by (apply Hin; eauto). rewrite fmap_cons in H. by apply elem_of_cons in H as [->|H].
Qed.

Lemma wipe_locked_ok e : en_ok e → en_lock e = None → en_ok (wipe_locked e).
Proof.
  intros Hok Hl. destruct (with_book_ok e id Hok) as (b & Hb & _). pose proof (wipe_locked_paired e b Hb Hok) as Hp.
  unfold wipe_locked in *. en_cbn. rewrite Hb in *. en_cbn. pose proof Hok as [].
  split; en_cbn; eauto.
  - exists ∅. split; [done|]. intros n [x H]. by rewrite lookup_empty in H.
  - destruct eo_table0 as [t Ht]. exists t. by apply refines_book.
  - intros id r H. by rewrite lookup_empty in H.
  - intros d Hd. congruence.
  - intros i p H. apply pairing_ok_book. eauto.
  - intros id r _ H. by rewrite lookup_empty in H.
Qed.

(** ** Enrolment *)

Lemma encode_body_length n i e s hints :
  length (encode_body n i e s hints) = (62 + sum_list (Hint_encoded_len <$> hints))%nat.
Proof.
  unfold encode_body. rewrite !length_app, !to_be_length, concat_encode_length. unfold as_bytes. rewrite bytes_of_length. done.
Qed.

Lemma card_frame_fits ep now ttl local :
  Forall relay_fits (ec_relays (ep_config ep)) →
  (length (Card_as_bytes (snd (card ep now ttl [] local))) ≤ MAX_CARD_BYTES)%nat.
Proof.
  intros Hr. cbn [card snd Card_sign Card_as_bytes card_raw]. rewrite length_app, bytes_of_length, encode_body_length.
  destruct (card_hints_fit ep local [] Hr) as []; [constructor | vm_compute; lia | vm_compute; lia|].
  unfold MAX_CARD_BYTES, MIN_CARD_BYTES in *. lia.
Qed.

Local Ltac errs := eexists; split; [reflexivity | intros; discriminate].

Lemma pair_check_ok b now : ∃ r, pair_check b now = Ret r ∧
  ∀ lifetime raw node offered, r = Ok (lifetime, raw, node, offered) → pb_route_id b ≠ [] ∧ node = card_node_id offered.
Proof.
  unfold pair_check. destruct (bool_decide_reflect (pb_route_id b = [])) as [|Hid]; [by errs|].
  destruct (pairing_lifetime _ _); [|by errs]. destruct (pairing_secret _); [|by errs].
  destruct (node_from_card_bytes _) as [n|] eqn:Hn; [|by errs].
  destruct (Card_verify _ _) as [[c|v]|] eqn:Hv; cbn [mbind exec_bind].
  - eexists. split; [done|]. intros lifetime raw node offered [= -> -> -> ->]. split; [done|].
    apply verify_sound in Hv as [Hr (_ & _ & Hid' & _)]. rewrite Hid'. by apply (Hr 9 ltac:(lia)).
  - by errs.
  - destruct (verify_verdict (pb_server_card b) (VerifyContext_expecting (VerifyContext_new now) n)) as (r & Hr & _). congruence.
Qed.

Lemma connect_pairing_begin_flight ep c reg belongs now now2 driver ep' fl :
  connect_pairing_begin ep c reg belongs now now2 driver = (ep', Ok fl) →
  fl = ep_next_flight ep ∧ ∃ s route, flight_with ep' fl (card_node_id c) s (Some route).
Proof.
  unfold connect_pairing_begin. split_if; [done|]. destruct (ep_book ep) as [book|]; [|done]. split_if; [done|].
  destruct (registration_active _ _ _ _) as [b1 []]; cbn [negb]; [|done]. split_if; [done|].
  destruct (pairing_active _ _ _) as [b2 []]; cbn [negb]; [|done]. destruct (begin_session _ _) as [p s]. ep_cbn. intros [= <- <-].
  split; [done|]. exists s, (pg_route reg). left. ep_cbn. apply lookup_insert_eq.
Qed.

Lemma flight_old ep fl node s pg : refinable ep → flight_with ep fl node s pg → fl < ep_next_flight ep.
Proof. intros [t Ht] [H|H]; by apply (rf_ids _ _ _ Ht) in H. Qed.

Lemma ok_dialling e id p fl next :
  en_ok e → en_stop e = false → pb_route_id (pa_bundle p) ≠ [] → pa_node p = card_node_id (pa_offered p) →
  pa_phase p = PDialling fl → (∀ j q fl', en_pairings e !! j = Some q → dialling q = Some fl' → fl' ≠ fl) →
  (∃ s route, flight_with (en_endpoint e) fl (pa_node p) s (Some route)) →
  en_ok (en_set_pairings e (<[id := p]> (en_pairings e)) next).
Proof.
  intros [] Hst H1 H2 Hp Hnew Hf. assert (Hd : dialling p = Some fl) by (unfold dialling; by rewrite Hp). split; en_cbn; eauto.
  - intros i q [[<- <-]|[_ H]]%lookup_insert_Some; [|eauto]. unfold pairing_ok. by rewrite Hp.
  - intros i j q q' fl' [[<- <-]|[_ H]]%lookup_insert_Some [[<- <-]|[_ H']]%lookup_insert_Some E E'; try done; [| |eauto].
    + rewrite Hd in E. injection E as <-. by destruct (Hnew _ _ _ H' E').
    + rewrite Hd in E'. injection E' as <-. by destruct (Hnew _ _ _ H E).
  - congruence.
Qed.

Lemma pair_begin_ok e b i :
  en_ok e → en_lock e = None →
  match pair_begin e b i with
  | Some r => ∃ e' out, r = Ret (e', out) ∧ en_ok e'
  | None => True
  end.
Proof.
  intros Hok Hl. unfold pair_begin. destruct (pair_check_ok b (pi_now i)) as (r & -> & Hr).
  destruct r as [[[[lifetime raw] node] offered]|err]; [|eauto]. destruct (Hr _ _ _ _ eq_refl) as [Hid Hnode].
  split_if; [eauto|]. split_if; [eauto|].
  destruct (register_pairing_secret _ _ _ _ _) as [[[ep1 reg]|err]|] eqn:Hreg; [| eauto | done].
  apply (register_stepped (λ _, False)) in Hreg.
  pose proof (stepped_trans _ _ _ _ Hreg (card_stepped _ ep1 (pi_card i) MAX_LIFETIME_SECONDS [] (pi_local i))) as Hs.
  pose proof (card_frame_fits ep1 (pi_card i) MAX_LIFETIME_SECONDS (pi_local i)) as Hf.
  destruct (card ep1 _ _ _ _) as [ep2 caller] eqn:Hcard. cbn [fst snd] in *.
  assert (Hfit : (length (Card_as_bytes caller) ≤ MAX_CARD_BYTES)%nat).
  { apply Hf. rewrite (st_config _ _ _ Hreg). apply Hok. }
  unfold route_frame. rewrite (proj2 (Z.ltb_lt _ _)) by (unfold MAX_CARD_BYTES in Hfit; lia). cbn [mbind exec_bind].
  pose proof (ok_endpoint_free _ _ Hok Hs) as Hok2. en_cbn.
  destruct (en_stop e) eqn:Hstop.
  { eexists _, _. split; [done|]. eapply (ok_endpoint_free _ _ Hok2), expire_stepped. }
  pose proof (connect_pairing_begin_stepped (λ _, False) ep2 offered reg true (pi_active i) (pi_active2 i) (pi_driver i)) as Hs3.
  destruct (connect_pairing_begin _ _ _ _ _ _ _) as [ep3 [fl|reason]] eqn:Hc; cbn [fst] in Hs3.
  2:{ eexists _, _. split; [done|]. eapply (ok_endpoint_free _ _ Hok2), stepped_trans, expire_stepped. done. }
  eexists _, _. split; [done|]. apply connect_pairing_begin_flight in Hc as (-> & s & route & Hfl).
  apply (ok_dialling (en_set_endpoint e ep3) _ _ (ep_next_flight ep2)); try done; [by apply (ok_endpoint_free _ _ Hok2 Hs3) | | exists s, route; subst node; exact Hfl].
  intros j q fl' Hq Hfl' ->. destruct (eo_pairing _ Hok2 _ _ Hq) as (_ & _ & H). apply dialling_phase in Hfl'.
  rewrite Hfl' in H. destruct H as (s' & route' & H). apply flight_old in H; [en_cbn; lia | apply Hok2].
Qed.

Lemma enrol_ok p psecret response at_ : ∃ r, enrol p psecret response at_ = Ret r ∧
  ∀ c s, r = Ok (c, s) →
    psecret = Some s ∧ card_serial (pa_offered p) <= card_serial c ∧
    Card_verify (card_raw c) (VerifyContext_expecting (VerifyContext_new at_) (pa_node p)) = Ret (Ok c).
Proof.
  unfold enrol. destruct psecret as [s|]; [|by errs]. destruct response as [response|]; [|by errs]. split_if; [by errs|].
  destruct (collect_bounded _ _ _) as [answer|]; [|by errs].
  assert (∃ v, route_card answer = Ret v) as [v ->].
  { destruct answer as [|b0 [|b1 [|b2 [|b3 [|b4 [|b5 rest]]]]]]; [by eexists.. |]. rewrite route_card_prefix. eauto. }
  cbn [mbind exec_bind]. destruct v as [bytes|]; [|by errs].
  destruct (Card_verify _ _) as [[c|v]|] eqn:Hv; cbn [mbind exec_bind].
  - destruct (Z.ltb_spec (card_serial c) (card_serial (pa_offered p))); [by errs|]. eexists. split; [done|]. intros ? ? [= <- <-].
    split; [done|]. split; [done|]. pose proof (verify_sound _ _ _ Hv) as [_ (-> & _)]. done.
  - by errs.
  - destruct (verify_verdict bytes (VerifyContext_expecting (VerifyContext_new at_) (pa_node p))) as (r & Hr & _). congruence.
Qed.

Lemma verified_serial bytes ctx c :
  0 <= ctx_highest_seen_serial ctx → Card_verify bytes ctx = Ret (Ok c) → 1 <= card_serial c.
Proof.
  intros H0 [Hr (_ & _ & _ & _ & _ & ->)]%verify_sound. specialize (Hr 8 ltac:(lia)). cbn in Hr. lia.
Qed.

Lemma pair_install_ok e p c s at_ :
  en_ok e → en_lock e = None → pb_route_id (pa_bundle p) ≠ [] →
  Card_verify (card_raw c) (VerifyContext_expecting (VerifyContext_new at_) (pa_node p)) = Ret (Ok c) →
  ∃ e' r, pair_install e p c s at_ = Ret (e', r) ∧ en_ok e'.
Proof.
  intros Hok Hl Hid Hv. unfold pair_install. split_if; [eauto|]. cbn zeta. split_if; [eauto|]. split_if; [eauto|].
  destruct (with_book_ok e (λ b, upsert_paired b (card_node_id c) s) Hok) as (b & Hb & ->). cbn [mbind exec_bind].
  eexists _, _. split; [done|]. apply ok_close_session. set (id := pb_route_id (pa_bundle p)) in *.
  set (r := mkRouteState (card_node_id c) (card_serial c) c None).
  eapply (ok_same (en_set_routes (en_set_endpoint e (ep_set_book (en_endpoint e)
      (Some (upsert_paired b (card_node_id c) s)))) (<[id := r]> (en_routes e)))); try done.
  destruct (eo_book _ Hok) as (m & Hm & Hdom). unfold paired_of in Hm. rewrite Hb in Hm. injection Hm as <-.
  eapply ok_install; try done.
  - split; try done. eapply verified_serial, Hv. done.
  - intros d Hd. congruence.
  - cbn. intros n Hn. destruct (decide (n = card_node_id c)) as [->|Hne]; [by left|]. right.
    rewrite lookup_insert_ne in Hn by done. destruct (Hdom n Hn) as (i & r' & Hi & Hn'). exists i, r'. split; [|done].
    intros ->. rewrite Hi in *. to_props. congruence.
Qed.

Lemma pair_finish_ok e id psecret response at_ :
  en_ok e → en_lock e = None → ∃ e' r, pair_finish e id psecret response at_ = Ret (e', r) ∧ en_ok e'.
Proof.
  intros Hok Hl. unfold pair_finish. destruct (en_pairings e !! id) as [p|] eqn:Hp; [|eauto].
  destruct (pa_phase p) as [fl|session] eqn:Hph; [eauto|].
  set (e1 := en_close _ _). assert (Hok1 : en_ok e1) by (by apply ok_close, ok_forget_pairing).
  assert (Hdrop : ∀ e, en_ok e → en_ok (en_set_endpoint e (expire_registration (en_endpoint e) (pg_route (pa_registration p))))).
  { intros x Hx. apply (ok_endpoint_free _ _ Hx), expire_stepped. }
  cbn zeta. destruct (eo_pairing _ Hok _ _ Hp) as (Hid & _ & _).
  assert (∃ r, (if en_stop e1 then Ret (Err EngStopped) else enrol p psecret response at_) = Ret r ∧
    ∀ c s, r = Ok (c, s) → Card_verify (card_raw c) (VerifyContext_expecting (VerifyContext_new at_) (pa_node p)) = Ret (Ok c))
    as (r & -> & Hr).
  { split_if; [by errs|]. destruct (enrol_ok p psecret response at_) as (r & -> & Hr). exists r. split; [done|].
    intros c s H. by apply Hr in H as (_ & _ & H). }
  cbn [mbind exec_bind]. destruct r as [[c s]|err]; [|eauto].
  destruct (pair_install_ok e1 p c s at_ Hok1 Hl Hid (Hr _ _ eq_refl)) as (e2 & out & -> & Hok2).
  cbn [mbind exec_bind]. eauto.
Qed.

(** ** Every call *)

Definition again (l : Live) : Live := mkLive (lv_conn l) (lv_kind l) (reannounce (lv_sess l)).

Lemma reannounce_fields s :
  s_session_id (reannounce s) = s_session_id s ∧ s_peer (reannounce s) = s_peer s ∧
  s_allow_direct (reannounce s) = s_allow_direct s.
Proof. unfold reannounce, request_direct, control_send. by repeat case_match. Qed.

Lemma reannounce_peer s : s_peer (reannounce s) = s_peer s.
Proof. apply reannounce_fields. Qed.

Lemma again_stepped touch ep s : stepped touch ep (ep_set_live ep (alter again s (ep_live ep))).
Proof.
  split; [| done | done | | | done].
  - split; [done | auto |]. intros s' l' H. ep_cbn. left. apply lookup_alter_Some in H as [(<- & l & Hl & ->)|[_ H]]; [|exists l'; by split].
    exists l. split; [done|]. split; [apply reannounce_peer | done].
  - intros Hok s' l' H. ep_cbn. apply lookup_alter_Some in H as [(<- & l & Hl & ->)|[_ H]]; [|by apply Hok].
    apply Hok in Hl as (H1 & H2 & H3). unfold live_ok, again. cbn [lv_sess lv_conn lv_kind].
    destruct (reannounce_fields (lv_sess l)) as (-> & -> & ->). done.
  - intros [t Ht]. exists t. destruct (ep_live ep !! s) as [l|] eqn:Hl.
    + assert (alter again s (ep_live ep) = <[s := again l]> (ep_live ep)) as ->.
      { apply map_eq. intros j. destruct (decide (j = s)) as [->|]; [by rewrite lookup_alter_eq, Hl, lookup_insert_eq|].
        by rewrite lookup_alter_ne, lookup_insert_ne. }
      eapply refines_relive; try done. apply reannounce_peer.
    + eapply refines_same, Ht; try done. ep_cbn. by rewrite alter_id by (intros; congruence).
Qed.

Lemma engine_reannounce_ok e : en_ok e → en_ok (fst (engine_reannounce e)).
Proof.
  intros Hok. unfold engine_reannounce. split_if; [done|]. cbn [fst]. apply (ok_endpoint_free _ _ Hok).
  assert (H : ∀ l ep, stepped (λ _, False) ep (ep_set_live ep (foldl (λ m s, alter again s m) (ep_live ep) l))).
  { induction l as [|s l IH]; intros ep; [by apply stepped_same|]. cbn [foldl].
    eapply stepped_trans; [apply (again_stepped _ _ s)|]. pose proof (IH (ep_set_live ep (alter again s (ep_live ep)))) as H.
    ep_cbn. exact H. }
  apply H.
Qed.

Lemma locked_ok e (r : exec Engine) :
  (en_lock e = None → ∃ e', r = Ret e' ∧ en_ok e') → en_ok e →
  ∃ e', match en_lock e with Some _ => Ret e | None => r end = Ret e' ∧ en_ok e'.
Proof. intros Hr Hok. destruct (en_lock e); eauto. Qed.

Lemma en_step_ok e ev : en_ok e → ∃ e', en_step e ev = Ret e' ∧ en_ok e'.
Proof.
  intros Hok. destruct ev; cbn [en_step];
    first [apply locked_ok; [intros Hl | done]
          | by eauto using clone_guard_ok, drop_guard_ok, reserve_ok, stop_signal_ok, dial_timeout_ok, ok_close,
              flight_ready_ok, flight_dialled_ok
          | idtac].
  - eauto using open_socket_ok.
  - eauto using request_json_ok.
  - eauto using request_reserved_ok.
  - eexists. split; [done|]. destruct finalize; by apply acquire_ok.
  - pose proof (pair_begin_ok e b i Hok Hl) as H. destruct (pair_begin e b i) as [r|]; [|eauto].
    destruct H as (e' & out & -> & H). cbn. eauto.
  - destruct (pair_finish_ok e id psecret response verified_at Hok Hl) as (e' & out & -> & H). cbn. eauto.
  - destruct (upsert_route_ok e route Hok Hl) as (e' & out & -> & H). cbn. eauto.
  - destruct (remove_route_ok e route_id Hok Hl) as (e' & out & -> & H). cbn. eauto.
  - eauto using engine_reannounce_ok.
  - destruct (en_stop e) eqn:Hs; [|eauto]. apply locked_ok; [|done]. eauto using stop_locked_ok.
  - destruct (en_stopped e) eqn:Hs; [|eauto]. apply locked_ok; [|done]. eauto using wipe_locked_ok.
  - split_if; [|eauto]. eexists. split; [done|]. apply (ok_endpoint_free _ _ Hok), session_ends_stepped.
  - destruct (endpoint_event ev) eqn:He; [|eauto]. eexists. split; [done|].
    by apply (ok_endpoint_free _ _ Hok), endpoint_event_stepped.
Qed.

Lemma en_run_ok e es : en_ok e → ∃ e', en_run e es = Ret e' ∧ en_ok e'.
Proof.
  revert e. induction es as [|ev es IH]; intros e Hok; [eauto|]. cbn [en_run].
  destruct (en_step_ok e ev Hok) as (e1 & -> & Hok1). cbn [mbind exec_bind]. eauto.
Qed.

End invariant.
