(* ===== verification/Bindings.v ===== *)
(** * Bindings: the engine as Kotlin and a web page see it
    ([link-ffi/src/lib.rs], [link-web/src/web.rs])

    The browser binding converts JavaScript values and rejects what it cannot
    represent; the FFI binding turns the engine's futures into blocking calls on
    the engine's own runtime.  Both hand socket messages to a listener.  A
    JavaScript string is its UTF-8 text, an object its data properties; reading a
    property runs no code. *)

From Stdlib Require Floats.SpecFloat.
From S2P Require Import Prelude Net Id Rendezvous Card Wire Tls Relay Paths TagBook RelayClient Session Endpoint.
From S2P Require Import Blossom Http WebSocket Engine EngineInv.

Open Scope Z_scope.
Set Warnings "-register-all".

(** ** Socket listeners *)

Inductive ListenerCall : Type := OnOpen | OnText (text : list byte) | OnClosed (reason : string).

(** The task of [open_socket]: it returns on the first [Closed]. *)
Fixpoint listener_task (incoming : list IncomingMessage) : list ListenerCall :=
  match incoming with
  | [] => []
  | InText text :: rest => OnText text :: listener_task rest
  | InClosed reason :: _ => [OnClosed reason]
  end.

(** What the listener of an opened socket is called with, once the task received
    these messages. *)
Definition listener_calls (incoming : list IncomingMessage) : list ListenerCall := OnOpen :: listener_task incoming.

(** ** JavaScript values *)

Module Web.

(** [(1 << 53) - 1]. *)
Definition MAX_SAFE_INTEGER : Z := Z.shiftl 1 53 - 1.

Inductive JsValue : Type :=
  | JUndefined | JNull
  | JBool (b : bool)
  | JNumber (v : SpecFloat.spec_float)
  | JBigInt (z : Z)
  | JString (s : list byte)
  | JBytes (b : list byte)
  | JFunction (f : Z)
  | JArray (l : list JsValue)
  | JObject (fields : list (list byte * JsValue)).

Inductive WebError : Type := Invalid (name : list byte) | FromEngine (e : EngineError).

Fixpoint property (name : list byte) (fields : list (list byte * JsValue)) : JsValue :=
  match fields with
  | [] => JUndefined
  | (k, v) :: rest => if bool_decide (k = name) then v else property name rest
  end.

Definition field (object : JsValue) (name : list byte) : result WebError JsValue :=
  match object with
  | JObject fields => Ok (property name fields)
  | JArray _ | JBytes _ => Ok JUndefined
  | _ => Err (Invalid name)
  end.

Definition string (object : JsValue) (name : list byte) : result WebError (list byte) :=
  v ← field object name; match v with JString s => Ok s | _ => Err (Invalid name) end.

Definition bytes (object : JsValue) (name : list byte) : result WebError (list byte) :=
  v ← field object name; match v with JBytes b => Ok b | _ => Err (Invalid name) end.

(** The integer a number is, when it is finite and has no fraction. *)
Definition f64_integer (v : SpecFloat.spec_float) : option Z :=
  match v with
  | SpecFloat.S754_zero _ => Some 0
  | SpecFloat.S754_finite s m e =>
    let sign := if s then -1 else 1 in
    if 0 <=? e then Some (sign * (Zpos m * 2 ^ e))
    else if Zpos m mod 2 ^ (- e) =? 0 then Some (sign * (Zpos m / 2 ^ (- e))) else None
  | _ => None
  end.

Definition integer (object : JsValue) (name : list byte) : result WebError Z :=
  v ← field object name;
  match v with
  | JNumber f =>
    match f64_integer f with
    | Some z => if (0 <=? z) && (z <=? MAX_SAFE_INTEGER) then Ok z else Err (Invalid name)
    | None => Err (Invalid name)
    end
  | _ => Err (Invalid name)
  end.

Definition js_list (object : JsValue) (name : list byte) : result WebError (list JsValue) :=
  v ← field object name; match v with JArray l => Ok l | _ => Err (Invalid name) end.

Definition wide (object : JsValue) (name : list byte) : result WebError Z :=
  v ← field object name;
  match v with
  | JBigInt z => if (0 <=? z) && (z <=? u64_max) then Ok z else Err (Invalid name)
  | _ => integer object name
  end.

(** [Reflect::set] on a fresh object. *)
Definition set (object : list (list byte * JsValue)) (name : list byte) (value : JsValue) : list (list byte * JsValue) :=
  object ++ [(name, value)].

Definition route_in (value : JsValue) : result WebError ERoute :=
  route_id ← string value (lit "routeId");
  card ← bytes value (lit "card");
  card_serial ← wide value (lit "cardSerial");
  card_verified_at ← wide value (lit "cardVerifiedAt");
  paired_route_secret ← bytes value (lit "pairedRouteSecret");
  Ok (mkERoute route_id card paired_route_secret card_serial card_verified_at).

Definition route_out (route : ERoute) : JsValue :=
  let object := set [] (lit "routeId") (JString (er_route_id route)) in
  let object := set object (lit "card") (JBytes (er_card route)) in
  let object := set object (lit "pairedRouteSecret") (JBytes (er_paired_route_secret route)) in
  let object := set object (lit "cardSerial") (JBigInt (er_card_serial route)) in
  let object := set object (lit "cardVerifiedAt") (JBigInt (er_card_verified_at route)) in
  JObject object.

Definition bundle_in (value : JsValue) : result WebError PairingBundle :=
  route_id ← string value (lit "routeId");
  server_card ← bytes value (lit "serverCard");
  expires_at ← integer value (lit "expiresAt");
  pairing_secret ← bytes value (lit "pairingSecret");
  Ok (mkPairingBundle route_id server_card pairing_secret expires_at).

Definition callback (listener : JsValue) (name : list byte) : result WebError (option Z) :=
  v ← field listener name;
  match v with
  | JUndefined | JNull => Ok None
  | JFunction f => Ok (Some f)
  | _ => Err (Invalid name)
  end.

(** [collect] of results. *)
Fixpoint collect {A B} (f : A → result WebError B) (l : list A) : result WebError (list B) :=
  match l with
  | [] => Ok []
  | x :: rest => y ← f x; ys ← collect f rest; Ok (y :: ys)
  end.

Definition config_in (value : JsValue) : result WebError EngineConfig :=
  l ← js_list value (lit "routes");
  routes ← collect route_in l;
  l ← js_list value (lit "relayUrls");
  relay_urls ← collect (λ v, match v with JString s => Ok s | _ => Err (Invalid (lit "relayUrls")) end) l;
  transport_seed ← bytes value (lit "transportSeed");
  Ok (mkEngineConfig transport_seed relay_urls false routes).

(** ** The page's engine *)

(** [engine]: the shared engine and whether the binding still holds it;
    [shutdown]: whether its promise was made. *)
Record WebEngine : Type := mkWebEngine { we_engine : Engine; we_held : bool; we_shutdown : bool }.

Definition we_set (w : WebEngine) (e : Engine) : WebEngine := mkWebEngine e (we_held w) (we_shutdown w).

Section web.
Context `{C : Crypto, R : RdvCrypto, T : RawKeyTls, X : Hex}.

Definition from_engine {A} (r : result EngineError A) : result WebError A :=
  match r with Ok a => Ok a | Err e => Err (FromEngine e) end.

Definition WebEngine_start (config : JsValue) (setup : bool) (now : Z) (nonce : array 16) : exec (result WebError WebEngine) :=
  match config_in config with
  | Err e => Ret (Err e)
  | Ok c => r ← Engine_start true c None setup now nonce;
            Ret (match r with Ok e => Ok (mkWebEngine e true false) | Err e => Err (FromEngine e) end)
  end.

(** [run]: a call on the engine, refused once it was taken. *)
Definition run {A} (w : WebEngine) (call : Engine → exec (Engine * result EngineError A)) : exec (WebEngine * result WebError A) :=
  if we_held w then '(e, r) ← call (we_engine w); Ret (we_set w e, from_engine r)
  else Ret (w, Err (FromEngine EngStopped)).

Definition web_upsert_route (w : WebEngine) (route : JsValue) : exec (WebEngine * result WebError unit) :=
  match route_in route with
  | Err e => Ret (w, Err e)
  | Ok route => run w (λ e, upsert_route e route)
  end.

Definition web_remove_route (w : WebEngine) (route_id : list byte) : exec (WebEngine * result WebError unit) :=
  run w (λ e, remove_route e route_id).

(** The metadata is captured, the byte count checked and a file request reserved
    before the body is copied; [copied] is whether the page's buffer gave it.  A
    permit that is not handed on is dropped. *)
Definition capture_request (e : Engine) (request : JsValue) (copied : bool) :
    Engine * result WebError (JsonRequest * option Z) :=
  match (route_id ← string request (lit "routeId");
         method ← string request (lit "method");
         path ← string request (lit "path");
         authorization ← string request (lit "authorization");
         body ← bytes request (lit "body");
         Ok (mkJsonRequest route_id method path authorization [], body)) with
  | Err err => (e, Err err)
  | Ok (captured, body) =>
    match validate_http_request_length captured (Z.of_nat (length body)) with
    | Err err => (e, Err (FromEngine err))
    | Ok (_, route) =>
      let '(e, permit) := if is_file route
                          then let '(e, r) := reserve_file_request e in (e, g ← r; Ok (Some g))
                          else (e, Ok None) in
      match permit with
      | Err err => (e, Err (FromEngine err))
      | Ok permit =>
        if copied
        then (e, Ok (mkJsonRequest (jr_route_id captured) (jr_method captured) (jr_path captured) (jr_authorization captured) body, permit))
        else (match permit with Some g => drop_guard e g | None => e end, Err (Invalid (lit "body")))
      end
    end
  end.

Definition web_request (w : WebEngine) (request : JsValue) (copied : bool) (failed : Z → bool) (driver : Z) :
    WebEngine * result WebError (Method * HttpRoute * Acquired) :=
  if negb (we_held w) then (w, Err (FromEngine EngStopped))
  else
    let '(e, captured) := capture_request (we_engine w) request copied in
    match captured with
    | Err err => (we_set w e, Err err)
    | Ok (request, permit) =>
      let '(e, r) := request_json_reserved e request permit failed driver in
      (we_set w (match r, permit with Err _, Some g => drop_guard e g | _, _ => e end), from_engine r)
    end.

(** [stop]: the first call takes the engine and starts its wipe, which [true]
    says; a later one shares the promise. *)
Definition web_stop (w : WebEngine) : WebEngine * bool :=
  if we_shutdown w then (w, false) else (mkWebEngine (we_engine w) false true, we_held w).

End web.
End Web.

(** ** The blocking calls *)

Module Ffi.

(** Where a call comes from: no runtime, the engine's own (a socket callback), or
    another. *)
Inductive Caller : Type := Outside | OwnRuntime | OtherRuntime.

Inductive LinkError : Type :=
  | LConfig (message : string) | LRoute (message : string) | LTransport (message : string) | LSocket (message : string) | LStopped.

Definition LinkError_from (e : EngineError) : LinkError :=
  match e with
  | EngConfig m => LConfig m
  | EngRoute m => LRoute m
  | EngTransport m => LTransport m
  | EngSocket m => LSocket m
  | EngStopped => LStopped
  end.

(** The engine, and the stops that run in the background. *)
Record LinkEngine : Type := mkLinkEngine { le_core : Engine; le_stops : nat }.

Definition block_on {A} (caller : Caller) (run : unit → A) : result LinkError A :=
  match caller with
  | OwnRuntime => Err (LConfig "the engine cannot be called from its own runtime")
  | Outside | OtherRuntime => Ok (run tt)
  end.

Section ffi.
Context `{C : Crypto, R : RdvCrypto, T : RawKeyTls, M : Mac, X : Hex, !HashIter SocketAddr Z}.

(** A call: [self.block_on(core.call())??]. *)
Definition call {A} (l : LinkEngine) (caller : Caller) (f : Engine → exec (Engine * result EngineError A)) :
    exec (LinkEngine * result LinkError A) :=
  match block_on caller (λ _, f (le_core l)) with
  | Err err => Ret (l, Err err)
  | Ok run => '(e, r) ← run;
              Ret (mkLinkEngine e (le_stops l), match r with Ok a => Ok a | Err err => Err (LinkError_from err) end)
  end.

Definition ffi_remove_route (l : LinkEngine) (caller : Caller) (route_id : list byte) := call l caller (λ e, remove_route e route_id).
Definition ffi_reannounce (l : LinkEngine) (caller : Caller) := call l caller (λ e, Ret (engine_reannounce e)).

(** [stop]: waited for, or left to the background when it comes from a callback. *)
Definition ffi_stop (l : LinkEngine) (caller : Caller) : exec LinkEngine :=
  match block_on caller (λ _, en_run (le_core l) [NStop; NStopLocked]) with
  | Ok run => e ← run; Ret (mkLinkEngine e (le_stops l))
  | Err _ => Ret (mkLinkEngine (le_core l) (S (le_stops l)))
  end.

(** One stop of the background runs. *)
Definition background_stop (l : LinkEngine) : exec LinkEngine :=
  match le_stops l with
  | O => Ret l
  | S n => e ← en_run (le_core l) [NStop; NStopLocked]; Ret (mkLinkEngine e n)
  end.
End ffi.
End Ffi.

(** ** Listeners *)

Lemma listener_task_texts l : Forall is_text l → listener_task l = OnText <$> texts l.
Proof. induction 1 as [|m l Hm Hl IH]; [done|]. destruct m; [|done]. cbn. by rewrite IH. Qed.

Lemma listener_task_app l l' : Forall is_text l → listener_task (l ++ l') = (OnText <$> texts l) ++ listener_task l'.
Proof. induction 1 as [|m l Hm Hl IH]; [done|]. destruct m; [|done]. cbn. by rewrite IH. Qed.

Lemma texts_prefix l l' : l `prefix_of` l' → texts l `prefix_of` texts l'.
Proof.
  intros [k ->]. induction l as [|[t|r] l IH]; cbn; [apply prefix_nil | by apply prefix_cons | done].
Qed.

(** What the application has been handed is texts, then at most one end. *)
Lemma received_shape es :
  let w := ws_run Ws_open es in
  ∃ l, Forall is_text l ∧ texts l `prefix_of` ws_arrived w ∧ (ws_received w = l ∨ ∃ reason, ws_received w = l ++ [InClosed reason]).
Proof.
  intros w. pose proof (ws_run_ok es : ws_ok w) as Hok.
  assert (Hs : ∃ l reason, Forall is_text l ∧ (stream w = l ∨ stream w = l ++ [InClosed reason])).
  { pose proof (wo_terminal _ Hok) as Ht. destruct (running w); [by exists (stream w), ""%string; auto|].
    destruct Ht as [[_ Ht]|(l & reason & Ht & E)]; [by exists (stream w), ""%string; auto | by exists l, reason; auto]. }
  destruct Hs as (l & reason & Hl & Hs).
  assert (Ha : texts (ws_received w) `prefix_of` ws_arrived w).
  { etrans; [|apply Hok]. unfold stream. rewrite texts_app. by apply prefix_app_r. }
  assert (Hpart : ∀ k, ws_received w ++ k = l → ∃ l, Forall is_text l ∧ texts l `prefix_of` ws_arrived w ∧
                    (ws_received w = l ∨ ∃ reason, ws_received w = l ++ [InClosed reason])).
  { intros k E. exists (ws_received w). split; [|by auto]. rewrite <- E in Hl. by apply Forall_app in Hl as [? _]. }
  unfold stream in Hs. destruct Hs as [E|E]; [by eapply Hpart|].
  destruct (ws_inbox w) as [|m k _] using rev_ind.
  - rewrite app_nil_r in E. exists l. split; [done|]. split; [|eauto]. rewrite E, texts_app in Ha. cbn in Ha. by rewrite app_nil_r in Ha.
  - rewrite (assoc_L (++)) in E. apply app_inj_tail in E as [E _]. by eapply Hpart.
Qed.

(** A listener hears of the opening first, then of texts in the order they
    arrived, and of the end at most once and last. *)
Theorem listener_order es :
  let w := ws_run Ws_open es in
  ∃ ts tail, listener_calls (ws_received w) = OnOpen :: (OnText <$> ts) ++ tail ∧ ts `prefix_of` ws_arrived w ∧
    (tail = [] ∨ ∃ reason, tail = [OnClosed reason]).
Proof.
  intros w. destruct (received_shape es) as (l & Hl & Hp & Hr). fold w in Hp, Hr. unfold listener_calls. exists (texts l).
  destruct Hr as [->|[reason ->]].
  - exists []. rewrite app_nil_r, listener_task_texts by done. auto.
  - exists [OnClosed reason]. rewrite listener_task_app by done. eauto.
Qed.

(** ** The page *)

Section web_facts.
Import Web.
Context `{C : Crypto, R : RdvCrypto, T : RawKeyTls, X : Hex}.

(** The record a page is given reads back as it was, with serials and times of the
    full width. *)
Theorem route_record_roundtrip r :
  0 <= er_card_serial r <= u64_max → 0 <= er_card_verified_at r <= u64_max → route_in (route_out r) = Ok r.
Proof.
  intros H1 H2. destruct r as [id card psecret serial at_]. cbn [er_card_serial er_card_verified_at] in *.
  assert (Hw : ∀ z, 0 <= z <= u64_max → (0 <=? z) && (z <=? u64_max) = true)
    by (intros z Hz; apply andb_true_iff; split; apply Z.leb_le; lia).
  set (o := route_out _).
  assert (F1 : field o (lit "routeId") = Ok (JString id)) by reflexivity.
  assert (F2 : field o (lit "card") = Ok (JBytes card)) by reflexivity.
  assert (F3 : field o (lit "cardSerial") = Ok (JBigInt serial)) by reflexivity.
  assert (F4 : field o (lit "cardVerifiedAt") = Ok (JBigInt at_)) by reflexivity.
  assert (F5 : field o (lit "pairedRouteSecret") = Ok (JBytes psecret)) by reflexivity.
  unfold route_in, string, bytes, wide. rewrite F1, F2, F3, F4, F5. cbn -[u64_max Z.leb]. by rewrite !Hw.
Qed.

(** A width a number cannot carry exactly is refused, one it can is taken. *)
Example safe_integers :
  let o (z : Z) := JObject [(lit "n", JNumber (f64_of_Z z))] in
  integer (o MAX_SAFE_INTEGER) (lit "n") = Ok MAX_SAFE_INTEGER ∧ integer (o (MAX_SAFE_INTEGER + 1)) (lit "n") = Err (Invalid (lit "n")) ∧
  integer (JObject [(lit "n", JNumber (SpecFloat.S754_finite false 3 (-1)))]) (lit "n") = Err (Invalid (lit "n")).
Proof. split_and!; vm_compute; reflexivity. Qed.

Lemma validate_body_free id m p a b b' n :
  validate_http_request_length (mkJsonRequest id m p a b) n = validate_http_request_length (mkJsonRequest id m p a b') n.
Proof. done. Qed.

(** A request from a page does what the engine's own [request_json] does with the
    same fields: the checks made before the body is copied decide the same, and a
    file request holds one reservation throughout. *)
Theorem web_request_is_request_json w id m p a b failed driver :
  we_held w = true →
  let '(e, r) := request_json (we_engine w) (mkJsonRequest id m p a b) failed driver in
  web_request w (JObject [(lit "routeId", JString id); (lit "method", JString m); (lit "path", JString p);
                          (lit "authorization", JString a); (lit "body", JBytes b)]) true failed driver =
  (we_set w e, from_engine r).
Proof.
  intros Hh. destruct (request_json _ _ _ _) as [e r] eqn:E. set (o := JObject _).
  assert (F1 : field o (lit "routeId") = Ok (JString id)) by reflexivity.
  assert (F2 : field o (lit "method") = Ok (JString m)) by reflexivity.
  assert (F3 : field o (lit "path") = Ok (JString p)) by reflexivity.
  assert (F4 : field o (lit "authorization") = Ok (JString a)) by reflexivity.
  assert (F5 : field o (lit "body") = Ok (JBytes b)) by reflexivity.
  unfold web_request, capture_request, string, bytes. rewrite F1, F2, F3, F4, F5, Hh.
  cbn -[validate_http_request_length reserve_file_request request_json_reserved].
  rewrite (validate_body_free id m p a [] b). unfold request_json, validate_http_request in E. cbn [jr_body] in E.
  destruct (validate_http_request_length _ _) as [[m' r']|err] eqn:Hv; [|by injection E as <- <-].
  destruct (is_file r').
  - destruct (reserve_file_request (we_engine w)) as [e1 [g|err]]; cbn -[request_json_reserved]; [|by injection E as <- <-].
    destruct (request_json_reserved e1 _ _ _ _) as [e2 r2]. injection E as <- <-. by destruct r2.
  - cbn -[request_json_reserved]. rewrite E. by destruct r.
Qed.

(** Once stopped, the page's engine refuses every call without touching the engine,
    and stopping again starts nothing. *)
Theorem web_stopped_refuses w route id request copied failed driver :
  let '(w', started) := web_stop w in
  (we_shutdown w = false → started = we_held w ∧ we_held w' = false) ∧
  (we_held w' = false →
   (∃ err, web_upsert_route w' route = Ret (w', Err err)) ∧
   web_remove_route w' id = Ret (w', Err (FromEngine EngStopped)) ∧
   web_request w' request copied failed driver = (w', Err (FromEngine EngStopped))) ∧
  web_stop w' = (w', false).
Proof.
  unfold web_stop. destruct (we_shutdown w) eqn:Hs; cbn; rewrite ?Hs.
  all: split; [done|]; split; [|done]; intros Hh.
  all: unfold web_upsert_route, web_remove_route, web_request, run; rewrite ?Hh; cbn.
  all: destruct (route_in route); split_and!; eauto.
Qed.
End web_facts.

(** ** Blocking calls *)

Section ffi_facts.
Import Ffi.
Context `{C : Crypto, R : RdvCrypto, T : RawKeyTls, M : Mac, X : Hex, !HashIter SocketAddr Z}.

(** A call from a socket callback is refused and changes nothing; a stop from one
    is not lost: the background stop does what a waiting one would have done. *)
Theorem callback_calls l {A} (f : Engine → exec (Engine * result EngineError A)) :
  (∃ message, call l OwnRuntime f = Ret (l, Err (LConfig message))) ∧
  (l' ← ffi_stop l OwnRuntime; background_stop l') = ffi_stop l Outside ∧
  call l OtherRuntime f = call l Outside f.
Proof. split_and!; [by eexists | | done]. cbn. unfold background_stop. by destruct l. Qed.
End ffi_facts.
