(* ===== verification/EngineStore.v ===== *)
(** * EngineStore: routes, the host's records and stopping

    The engine against the records a host persists from its answers: which calls
    change the routes and how, restarting from the records, serials, stop and wipe,
    file reservations, and a request from the allowlist to its answer. *)

From S2P Require Import Prelude Net Id Rendezvous Card Wire Tls Paths TagBook RelayClient Session Endpoint Blossom Http WebSocket Engine EngineInv.

Open Scope Z_scope.

Section store.
Context `{C : Crypto, R : RdvCrypto, T : RawKeyTls, M : Mac, X : Hex, !HashIter SocketAddr Z}.

(** ** Calls that leave the routes and their secrets alone *)

Definition route_key (r : RouteState) : NodeId * Z * Card := (rt_node r, rt_serial r, rt_card r).

Record quiet (e e' : Engine) : Prop := {
  qu_paired : paired_of (en_endpoint e') = paired_of (en_endpoint e);
  qu_routes id : route_key <$> en_routes e' !! id = route_key <$> en_routes e !! id;
}.

Lemma quiet_refl e : quiet e e.
Proof. by split. Qed.

Lemma quiet_trans a b c : quiet a b → quiet b c → quiet a c.
Proof. intros [P1 R1] [P2 R2]. split; [congruence|]. intros id. by rewrite R2. Qed.

Lemma quiet_endpoint touch e e' : stepped touch (en_endpoint e) (en_endpoint e') → en_routes e' = en_routes e → quiet e e'.
Proof. intros Hs Hr. split; [apply Hs | by rewrite Hr]. Qed.

Lemma dial_quiet e id r driver : quiet e (fst (dial e id r driver)).
Proof.
  unfold dial. split_if; [apply quiet_refl|].
  pose proof (connect_begin_stepped (λ _, False) (en_endpoint e) (rt_card r) driver) as Hs.
  destruct (connect_begin _ _ _) as [ep [fl|reason]]; by apply (quiet_endpoint (λ _, False)).
Qed.

Lemma acquire_quiet e id check keep driver : quiet e (fst (acquire e id check keep driver)).
Proof.
  unfold acquire. split_if; [apply quiet_refl|]. destruct (en_routes e !! id); [|apply quiet_refl].
  destruct (check _); [|apply quiet_refl]. destruct (rt_session _); [|apply dial_quiet].
  split_if; [apply quiet_refl | apply dial_quiet].
Qed.

Lemma reserve_quiet e : quiet e (fst (reserve_file_request e)).
Proof. unfold reserve_file_request. split_if; [apply quiet_refl|]. by destruct (en_permits e). Qed.

Lemma drop_guard_quiet e g : quiet e (drop_guard e g).
Proof. unfold drop_guard. by destruct (en_guards e !! g) as [[|[|n]]|]. Qed.

Lemma request_reserved_quiet e request permit failed driver :
  quiet e (fst (request_json_reserved e request permit failed driver)).
Proof.
  unfold request_json_reserved. destruct (validate_http_request request) as [[m r]|]; [|apply quiet_refl].
  split_if; [apply quiet_refl|]. pose proof (acquire_quiet e (jr_route_id request) (λ _, Ok tt) (usable e failed) driver).
  by destruct (acquire _ _ _ _ _).
Qed.

Lemma request_quiet e request failed driver : quiet e (fst (request_json e request failed driver)).
Proof.
  unfold request_json. destruct (validate_http_request request) as [[m r]|]; [|apply quiet_refl].
  destruct (is_file r); [|apply request_reserved_quiet]. pose proof (reserve_quiet e) as H1.
  destruct (reserve_file_request e) as [e1 [g|err]]; [|done]. cbn [fst] in H1.
  pose proof (request_reserved_quiet e1 request (Some g) failed driver) as H2.
  destruct (request_json_reserved _ _ _ _ _) as [e2 [a|err]]; cbn [fst] in *; [by eapply quiet_trans|].
  eapply quiet_trans; [done|]. eapply quiet_trans; [done | apply drop_guard_quiet].
Qed.

Lemma pair_begin_quiet e b i e' out : pair_begin e b i = Some (Ret (e', out)) → quiet e e'.
Proof.
  unfold pair_begin. destruct (pair_check b (pi_now i)) as [[[[[lifetime raw] node] offered]|]|]; [| |done].
  2:{ intros [= <- _]. apply quiet_refl. }
  split_if; [intros [= <- _]; apply quiet_refl|]. split_if; [intros [= <- _]; apply quiet_refl|].
  destruct (register_pairing_secret _ _ _ _ _) as [[[ep1 reg]|err]|] eqn:Hreg; [| |done].
  2:{ intros [= <- _]. apply quiet_refl. }
  apply (register_stepped (λ _, False)) in Hreg.
  pose proof (stepped_trans _ _ _ _ Hreg (card_stepped _ ep1 (pi_card i) MAX_LIFETIME_SECONDS [] (pi_local i))) as Hs.
  destruct (card ep1 _ _ _ _) as [ep2 caller]. cbn [fst] in Hs. intros [= E].
  destruct (route_frame _) as [frame|]; [|done]. cbn [mbind exec_bind] in E. en_cbn.
  destruct (en_stop e); [injection E as <- _; eapply quiet_endpoint; [eapply stepped_trans; [done | apply expire_stepped] | done]|].
  pose proof (connect_pairing_begin_stepped (λ _, False) ep2 offered reg true (pi_active i) (pi_active2 i) (pi_driver i)) as Hs3.
  pose proof (stepped_trans _ _ _ _ Hs Hs3) as Hs4. cbn [fst] in *.
  destruct (connect_pairing_begin _ _ _ _ _ _ _) as [ep3 [fl|reason]]; injection E as <- _; cbn [fst] in *.
  - by eapply quiet_endpoint.
  - eapply quiet_endpoint; [eapply stepped_trans; [done | apply expire_stepped] | done].
Qed.

Lemma flight_ended_quiet e fl r e' : flight_ended e fl r = Ret e' → quiet e e'.
Proof.
  assert (Hp : ∀ id p, quiet e (pairing_ended e id p r)).
  { intros id p. destruct r; [by split|]. eapply (quiet_endpoint (λ _, False)); [apply expire_stepped | done]. }
  assert (Hw : quiet e (match waiting e fl with (id, p) :: _ => pairing_ended e id p r | [] => e end))
    by (destruct (waiting e fl) as [|[id p] l]; [apply quiet_refl | apply Hp]).
  unfold flight_ended. destruct (en_lock e) as [d|]; [|by intros [= <-]].
  split_if; [|by intros [= <-]]. unfold dial_ended. destruct r as [s|]; [|intros [= <-]; by split].
  unfold store_session. en_cbn. destruct (en_routes e !! dl_route d) as [q|] eqn:Hq; [|done]. cbn [expect mbind exec_bind].
  intros [= <-]. split; [done|]. intros id. en_cbn. destruct (decide (id = dl_route d)) as [->|Hne].
  - by rewrite lookup_insert_eq, Hq.
  - by rewrite lookup_insert_ne.
Qed.

Lemma flight_ready_quiet e fl r e' : flight_ready e fl r = Ret e' → quiet e e'.
Proof.
  unfold flight_ready. pose proof (connect_ready_stepped (en_endpoint e) fl r) as Hs.
  destruct (connect_ready _ _ _) as [ep [reason|]]; cbn [fst] in Hs.
  - intros H%flight_ended_quiet. eapply quiet_trans, H. by eapply quiet_endpoint.
  - intros [= <-]. by eapply quiet_endpoint.
Qed.

Lemma flight_dialled_quiet e fl i h e' : flight_dialled e fl i h = Ret e' → quiet e e'.
Proof.
  unfold flight_dialled. pose proof (connect_handshake_stepped (en_endpoint e) fl i h) as Hs.
  destruct (connect_handshake _ _ _ _) as [ep [r|]]; cbn [fst] in Hs.
  - intros H%flight_ended_quiet. eapply quiet_trans, H. by eapply quiet_endpoint.
  - intros [= <-]. by eapply quiet_endpoint.
Qed.

Lemma stop_signal_quiet e : quiet e (stop_signal e).
Proof.
  eapply (quiet_endpoint (λ _, True)); [|done]. unfold stop_signal. en_cbn.
  eapply stepped_trans; [|apply foldl_stepped; intros; apply expire_stepped].
  apply foldl_stepped. intros. eapply stepped_mono; [|apply connect_dropped_stepped]. done.
Qed.

Lemma stop_locked_quiet e : quiet e (stop_locked e).
Proof.
  split; [done|]. intros id. unfold stop_locked. en_cbn. rewrite lookup_fmap. by destruct (en_routes e !! id).
Qed.

Lemma engine_reannounce_quiet e : quiet e (fst (engine_reannounce e)).
Proof. unfold engine_reannounce. by split_if. Qed.

(** ** The host's store

    What a host has persisted of the engine's answers: the records it passed to
    [upsert_route] with success and those [pair_route] returned, less the routes
    it removed, and nothing after a wipe. *)

Definition host_step (store : gmap (list byte) ERoute) (e : Engine) (ev : NEvent) : gmap (list byte) ERoute :=
  match en_lock e with
  | Some _ => store
  | None =>
    match ev with
    | NUpsert route => match upsert_route e route with Ret (_, Ok _) => <[er_route_id route := route]> store | _ => store end
    | NRemove id => match remove_route e id with Ret (_, Ok _) => delete id store | _ => store end
    | NPaired id psecret response at_ =>
      match pair_finish e id psecret response at_ with
      | Ret (_, Some (Ok route)) => <[er_route_id route := route]> store
      | _ => store
      end
    | NWipe => if en_stopped e then ∅ else store
    | _ => store
    end
  end.

Fixpoint host_run (store : gmap (list byte) ERoute) (e : Engine) (es : list NEvent) : gmap (list byte) ERoute :=
  match es with
  | [] => store
  | ev :: es => match en_step e ev with Ret e' => host_run (host_step store e ev) e' es | Panic => store end
  end.

(** A stored record is the one a route was installed from, and would be accepted
    again. *)
Definition mirrors_route (er : ERoute) (id : list byte) (r : RouteState) : Prop :=
  er_route_id er = id ∧ verify_route er = Ret (Ok (rt_node r, rt_card r)) ∧ er_card_serial er = rt_serial r ∧
  length (er_paired_route_secret er) = 32%nat.

(** No two routes are with one node. *)
Definition distinct_nodes (routes : gmap (list byte) RouteState) : Prop :=
  ∀ i j r r', routes !! i = Some r → routes !! j = Some r' → rt_node r = rt_node r' → i = j.

(** The table and the secrets of the book against the store: each secret is a
    stored route's; where nodes are distinct, each stored route's secret is there. *)
Record mirrors (exact : bool) (routes : gmap (list byte) RouteState) (m : gmap NodeId (array 32))
    (store : gmap (list byte) ERoute) : Prop := {
  mi_route id r : routes !! id = Some r → ∃ er, store !! id = Some er ∧ mirrors_route er id r;
  mi_store id er : store !! id = Some er → is_Some (routes !! id);
  mi_sound n s : m !! n = Some s →
    ∃ id r er, routes !! id = Some r ∧ store !! id = Some er ∧ rt_node r = n ∧ er_paired_route_secret er = bytes_of s;
  mi_distinct : exact = true → distinct_nodes routes;
  mi_complete id r er : exact = true → routes !! id = Some r → store !! id = Some er →
    ∃ s, m !! rt_node r = Some s ∧ er_paired_route_secret er = bytes_of s;
}.

Lemma mirrors_install exact routes m store id r er s m' :
  mirrors exact routes m store → mirrors_route er id r → er_paired_route_secret er = bytes_of s → m' !! rt_node r = Some s →
  (∀ n, n ≠ rt_node r → (∀ old, routes !! id = Some old → rt_node old ≠ n) → m' !! n = m !! n) →
  (∀ old, routes !! id = Some old → rt_node old ≠ rt_node r → m' !! rt_node old = None) →
  (exact = true → distinct_nodes (<[id := r]> routes)) →
  mirrors exact (<[id := r]> routes) m' (<[id := er]> store).
Proof.
  intros [] Hr Hsec Hm Hsame Hold Hdis. split.
  - intros i q [[<- <-]|[Hne H]]%lookup_insert_Some; [exists er; by rewrite lookup_insert_eq|].
    destruct (mi_route0 _ _ H) as (x & Hx & Hq). exists x. by rewrite lookup_insert_ne.
  - intros i x [[<- _]|[Hne H]]%lookup_insert_Some; [by rewrite lookup_insert_eq|]. rewrite lookup_insert_ne by done. eauto.
  - intros n x Hn. destruct (decide (n = rt_node r)) as [->|Hne].
    { exists id, r, er. rewrite !lookup_insert_eq. split_and!; try done. congruence. }
    assert (Hno : ∀ old, routes !! id = Some old → rt_node old ≠ n).
    { intros old Ho <-. rewrite (Hold _ Ho Hne) in Hn. done. }
    rewrite Hsame in Hn by done. destruct (mi_sound0 _ _ Hn) as (i & q & y & Hi & Hy & Hq & Hs). exists i, q, y.
    assert (i ≠ id) by (intros ->; by destruct (Hno q)). by rewrite !lookup_insert_ne.
  - done.
  - intros i q x He [[<- <-]|[Hne H]]%lookup_insert_Some Hx.
    { rewrite lookup_insert_eq in Hx. injection Hx as <-. eauto. }
    rewrite lookup_insert_ne in Hx by done. destruct (mi_complete0 _ _ _ He H Hx) as (y & Hy & Hs). exists y. split; [|done].
    rewrite Hsame; [done | |].
    + intros E. apply Hne, (Hdis He id i r q); [by rewrite lookup_insert_eq | by rewrite lookup_insert_ne | done].
    + intros old Ho E. destruct Hne. by apply (mi_distinct0 He id i old q).
Qed.

Lemma mirrors_remove exact routes m store id old :
  mirrors exact routes m store → routes !! id = Some old →
  mirrors exact (delete id routes) (delete (rt_node old) m) (delete id store).
Proof.
  intros [] Ho. split.
  - intros i q [Hne H]%lookup_delete_Some. rewrite lookup_delete_ne by done. eauto.
  - intros i x [Hne H]%lookup_delete_Some. rewrite lookup_delete_ne by done. eauto.
  - intros n s [Hne H]%lookup_delete_Some. destruct (mi_sound0 _ _ H) as (i & q & y & Hi & Hy & Hq & Hs). exists i, q, y.
    assert (i ≠ id) by (intros ->; congruence). by rewrite !lookup_delete_ne.
  - intros He i j q q' [_ H]%lookup_delete_Some [_ H']%lookup_delete_Some. by apply mi_distinct0.
  - intros i q x He [Hne H]%lookup_delete_Some [_ Hx]%lookup_delete_Some. rewrite lookup_delete_ne; [eauto|].
    intros E. destruct Hne. by apply (mi_distinct0 He id i old q).
Qed.

Lemma mirrors_quiet exact e e' m store :
  quiet e e' → mirrors exact (en_routes e) m store → mirrors exact (en_routes e') m store.
Proof.
  intros [_ Hr].
  assert (Hback : ∀ id r', en_routes e' !! id = Some r' → ∃ r, en_routes e !! id = Some r ∧ route_key r = route_key r').
  { intros id r' H. specialize (Hr id). rewrite H in Hr. destruct (en_routes e !! id) as [r|]; [|done]. injection Hr as Hk.
    exists r. split; [done|]. unfold route_key in *. congruence. }
  assert (Hfwd : ∀ id r, en_routes e !! id = Some r → ∃ r', en_routes e' !! id = Some r' ∧ route_key r = route_key r').
  { intros id r H. specialize (Hr id). rewrite H in Hr. destruct (en_routes e' !! id) as [r'|]; [|done]. injection Hr as Hk.
    exists r'. split; [done|]. unfold route_key in *. congruence. }
  unfold route_key in *. intros []. split.
  - intros id r' (r & H & [= E1 E2 E3])%Hback. destruct (mi_route0 _ _ H) as (er & He & Hm). exists er. split; [done|].
    unfold mirrors_route in *. congruence.
  - intros id er H. apply mi_store0 in H as [r (r' & H & _)%Hfwd]. eauto.
  - intros n s H. destruct (mi_sound0 _ _ H) as (id & r & er & (r' & H1 & [= E1 E2 E3])%Hfwd & H2 & H3 & H4).
    exists id, r', er. split_and!; try done. congruence.
  - intros He i j r r' (q & H & [= E1 E2 E3])%Hback (q' & H' & [= E1' E2' E3'])%Hback E. apply (mi_distinct0 He i j q q' H H'). congruence.
  - intros id r' er He (r & H & [= E1 E2 E3])%Hback Hx. destruct (mi_complete0 _ _ _ He H Hx) as (s & Hs & ?). exists s. split; [|done]. congruence.
Qed.

(** What the three calls that change routes do. *)
Lemma upsert_route_spec e route e' out :
  en_ok e → upsert_route e route = Ret (e', out) →
  match out with
  | Err _ => e' = e
  | Ok _ => ∃ node card s b,
      verify_route route = Ret (Ok (node, card)) ∧ secret (er_paired_route_secret route) = Ok s ∧ en_stopped e = false ∧
      (∀ old, en_routes e !! er_route_id route = Some old → rt_serial old < er_card_serial route) ∧
      en_routes e' = <[er_route_id route := mkRouteState node (er_card_serial route) card None]> (en_routes e) ∧
      ep_book (en_endpoint e) = Some b ∧
      paired_of (en_endpoint e') =
        Some (<[node := s]> (match en_routes e !! er_route_id route with
                             | Some old => delete (rt_node old) (tb_paired b)
                             | None => tb_paired b
                             end))
  end.
Proof.
  intros Hok. unfold upsert_route. destruct (verify_route_returns route) as [v Hv]. rewrite Hv. cbn [mbind exec_bind].
  destruct v as [[node card]|err]; [|by intros [= <- <-]]. destruct (secret _) as [s|err]; [|by intros [= <- <-]].
  destruct (en_stopped e) eqn:Hst; [by intros [= <- <-]|]. cbn zeta. split_if; [by intros [= <- <-]|].
  destruct (with_book_ok e id Hok) as (b & Hb & _). unfold with_book. rewrite Hb.
  assert (Hser : ∀ old, en_routes e !! er_route_id route = Some old → rt_serial old < er_card_serial route).
  { intros old Ho. rewrite Ho in G. to_props. lia. }
  destruct (en_routes e !! er_route_id route) as [old|] eqn:Ho.
  - cbn [expect mbind exec_bind]. en_cbn. ep_cbn. cbn [expect mbind exec_bind]. intros [= <- <-]. exists node, card, s, b.
    split_and!; try done; destruct (rt_session old) eqn:Hs; cbn [mbind option_bind close_session]; rewrite ?Hs; try done;
      unfold paired_of; en_cbn; ep_cbn; cbn; rewrite ?Hs; cbn; by rewrite ?remove_paired_lookup.
  - cbn [mbind exec_bind]. rewrite Hb. cbn [expect mbind exec_bind]. intros [= <- <-]. exists node, card, s, b. done.
Qed.

Lemma remove_route_spec e id e' out :
  en_ok e → remove_route e id = Ret (e', out) →
  match out with
  | Err _ => e' = e
  | Ok _ => ∃ old b, en_routes e !! id = Some old ∧ en_stopped e = false ∧ en_routes e' = delete id (en_routes e) ∧
      ep_book (en_endpoint e) = Some b ∧ paired_of (en_endpoint e') = Some (delete (rt_node old) (tb_paired b))
  end.
Proof.
  intros Hok. unfold remove_route. destruct (en_stopped e); [by intros [= <- <-]|].
  destruct (en_routes e !! id) as [old|]; [|by intros [= <- <-]].
  destruct (with_book_ok e Datatypes.id Hok) as (b & Hb & _). cbn zeta. unfold with_book. en_cbn. rewrite Hb. cbn [expect mbind exec_bind].
  intros [= <- <-]. exists old, b. split_and!; try done; destruct (rt_session old); try done;
    unfold paired_of; en_cbn; ep_cbn; cbn; by rewrite remove_paired_lookup.
Qed.

Lemma pair_finish_spec e id psecret response at_ e' out :
  en_ok e → pair_finish e id psecret response at_ = Ret (e', out) →
  match out with
  | Some (Ok route) => ∃ p c s b,
      en_pairings e !! id = Some p ∧ psecret = Some s ∧ en_stopped e = false ∧
      (∀ old, en_routes e !! er_route_id route = Some old → rt_node old = card_node_id c ∧ rt_serial old <= card_serial c) ∧
      route = mkERoute (pb_route_id (pa_bundle p)) (card_raw c) (bytes_of s) (card_serial c) at_ ∧
      verify_route route = Ret (Ok (card_node_id c, c)) ∧
      card_node_id c = pa_node p ∧ card_serial (pa_offered p) <= card_serial c ∧
      en_routes e' = <[er_route_id route := mkRouteState (card_node_id c) (card_serial c) c None]> (en_routes e) ∧
      ep_book (en_endpoint e) = Some b ∧
      paired_of (en_endpoint e') = Some (<[card_node_id c := s]> (tb_paired b))
  | _ => quiet e e'
  end.
Proof.
  intros Hok. unfold pair_finish. destruct (en_pairings e !! id) as [p|] eqn:Hp; [|intros [= <- <-]; apply quiet_refl].
  destruct (pa_phase p) as [fl|session] eqn:Hph; [intros [= <- <-]; apply quiet_refl|].
  set (e1 := en_close _ _). cbn zeta.
  assert (Hok1 : en_ok e1) by (by apply ok_close, ok_forget_pairing). destruct (eo_pairing _ Hok _ _ Hp) as (Hid & _ & _).
  assert (Hdrop : ∀ x, quiet e x → quiet e (en_set_endpoint x (expire_registration (en_endpoint x) (pg_route (pa_registration p))))).
  { intros x Hx. eapply quiet_trans; [done|]. eapply (quiet_endpoint (λ _, False)); [apply expire_stepped | done]. }
  assert (Hq1 : quiet e e1) by by split.
  destruct (en_stop e1); [cbn [mbind exec_bind]; intros [= <- <-]; exact (Hdrop e1 Hq1)|].
  destruct (enrol_ok p psecret response at_) as (r & -> & Hr). cbn [mbind exec_bind].
  destruct r as [[c s]|err]; [|intros [= <- <-]; exact (Hdrop e1 Hq1)].
  destruct (Hr _ _ eq_refl) as (-> & Hser & Hv). unfold pair_install.
  destruct (en_stopped e1) eqn:Hst; [cbn [mbind exec_bind]; intros [= <- <-]; exact (Hdrop e1 Hq1)|].
  cbn zeta. split_if; [cbn [mbind exec_bind]; intros [= <- <-]; exact (Hdrop e1 Hq1)|].
  split_if; [cbn [mbind exec_bind]; intros [= <- <-]; exact (Hdrop e1 Hq1)|].
  destruct (with_book_ok e1 (λ b, upsert_paired b (card_node_id c) s) Hok1) as (b & Hb & ->). cbn [mbind exec_bind].
  intros [= <- <-]. exists p, c, s, b. subst e1. en_cbn.
  assert (Hn : card_node_id c = pa_node p).
  { apply verify_sound in Hv as [Hrl (_ & _ & Hcn & _)]. rewrite Hcn. symmetry. by apply (Hrl 9 ltac:(lia)). }
  split_and!; try done.
  - intros old Ho. cbn [er_route_id] in Ho. rewrite Ho in *. to_props. split; [done | lia].
  - rewrite Hn. by eapply (verified_card_restarts _ _ _ _ _ at_ 0).
  - destruct (_ ≫= rt_session); done.
  - unfold paired_of. destruct (_ ≫= rt_session); en_cbn; unfold expire_registration; ep_cbn; cbn; by rewrite remove_pairing_paired.
Qed.

Lemma secret_length bytes s : secret bytes = Ok s → length bytes = 32%nat ∧ bytes = bytes_of s.
Proof.
  unfold secret. destruct (try_array 32 bytes) as [a|] eqn:E; [|done]. intros [= ->]. apply try_array_Some in E as ->.
  split; [apply bytes_of_length | done].
Qed.

Lemma step_quiet e ev e' :
  en_step e ev = Ret e' → match ev with NUpsert _ | NRemove _ | NPaired _ _ _ _ | NWipe => True | _ => quiet e e' end.
Proof.
  assert (Hlk : ∀ r : exec Engine, (r = Ret e' → quiet e e') → match en_lock e with Some _ => Ret e | None => r end = Ret e' → quiet e e').
  { intros r Hr. destruct (en_lock e); [intros [= <-]; apply quiet_refl | done]. }
  destruct ev; cbn [en_step]; try done; try apply Hlk; try (intros [= <-]).
  - unfold open_socket. destruct url; [apply acquire_quiet | apply quiet_refl].
  - apply request_quiet.
  - apply reserve_quiet.
  - apply request_reserved_quiet.
  - unfold clone_guard. by destruct (en_guards e !! g).
  - apply drop_guard_quiet.
  - destruct finalize; apply acquire_quiet.
  - destruct (pair_begin e b i) as [[[e1 out]|]|] eqn:Hb; [| done | by intros [= <-]].
    cbn. intros [= <-]. by eapply pair_begin_quiet.
  - apply engine_reannounce_quiet.
  - apply stop_signal_quiet.
  - split_if; [|intros [= <-]; apply quiet_refl]. apply Hlk. intros [= <-]. apply stop_locked_quiet.
  - apply flight_ready_quiet.
  - apply flight_dialled_quiet.
  - unfold dial_timeout. destruct (en_lock e); [|apply quiet_refl]. eapply quiet_endpoint; [apply connect_dropped_stepped | done].
  - by split.
  - split_if; intros [= <-]; [|apply quiet_refl]. eapply (quiet_endpoint (λ _, False)); [apply session_ends_stepped | done].
  - split_if; intros [= <-]; [|apply quiet_refl]. eapply (quiet_endpoint (λ _, False)); [by apply endpoint_event_stepped | done].
Qed.

Lemma mirrors_empty exact : mirrors exact ∅ ∅ ∅.
Proof. split; intros; simplify_map_eq. intros i j r r' H. by rewrite lookup_empty in H. Qed.

Lemma host_step_mirrors exact e ev e' m store :
  en_ok e → en_step e ev = Ret e' → paired_of (en_endpoint e) = Some m → mirrors exact (en_routes e) m store →
  (exact = true → distinct_nodes (en_routes e')) →
  ∃ m', paired_of (en_endpoint e') = Some m' ∧ mirrors exact (en_routes e') m' (host_step store e ev).
Proof.
  intros Hok Hstep Hm Hmi Hdis. pose proof (step_quiet _ _ _ Hstep) as Hq.
  assert (Hquiet : quiet e e' → ∃ m', paired_of (en_endpoint e') = Some m' ∧ mirrors exact (en_routes e') m' store).
  { intros H. exists m. split; [by rewrite (qu_paired _ _ H) | by eapply mirrors_quiet]. }
  unfold host_step. destruct (en_lock e) as [d|] eqn:Hl.
  { apply Hquiet. destruct ev; try exact Hq; cbn [en_step] in Hstep; rewrite Hl in Hstep; try (injection Hstep as <-; apply quiet_refl).
    destruct (en_stopped e); injection Hstep as <-; apply quiet_refl. }
  destruct ev; try (by apply Hquiet); cbn [en_step] in Hstep; rewrite Hl in Hstep.
  - destruct (pair_finish e id psecret response verified_at) as [[e1 out]|] eqn:Hp; [|done]. injection Hstep as <-.
    apply pair_finish_spec in Hp; [|done]. destruct out as [[route|err]|]; [| by apply Hquiet | by apply Hquiet].
    destruct Hp as (p & c & s & b & _ & _ & _ & Hold & -> & Hv & _ & _ & Hr & Hb & Hpa). cbn [er_route_id] in *.
    rewrite Hpa, Hr in *. eexists. split; [done|]. unfold paired_of in Hm. rewrite Hb in Hm. injection Hm as <-.
    eapply mirrors_install; try done.
    + split; [done|]. split; [done|]. split; [done|]. apply bytes_of_length.
    + apply lookup_insert_eq.
    + intros n Hne _. by rewrite lookup_insert_ne.
    + intros old Ho Hne. apply Hold in Ho as [? _]. done.
  - destruct (upsert_route e route) as [[e1 out]|] eqn:Hu; [|done]. injection Hstep as <-.
    apply upsert_route_spec in Hu; [|done]. destruct out as [u|err]; [|subst; apply Hquiet, quiet_refl].
    destruct Hu as (node & card & s & b & Hv & Hs & _ & _ & Hr & Hb & Hpa). apply secret_length in Hs as [Hlen Hs].
    rewrite Hpa, Hr in *. eexists. split; [done|]. unfold paired_of in Hm. rewrite Hb in Hm. injection Hm as <-.
    eapply mirrors_install; try done.
    + apply lookup_insert_eq.
    + intros n Hne Hno. rewrite lookup_insert_ne by done. destruct (en_routes e !! er_route_id route) as [old|]; [|done].
      rewrite lookup_delete_ne; [done|]. by apply Hno.
    + intros old Ho Hne. rewrite Ho. rewrite lookup_insert_ne by done. apply lookup_delete_eq.
  - destruct (remove_route e route_id) as [[e1 out]|] eqn:Hu; [|done]. injection Hstep as <-.
    apply remove_route_spec in Hu; [|done]. destruct out as [u|err]; [|subst; apply Hquiet, quiet_refl].
    destruct Hu as (old & b & Ho & _ & Hr & Hb & Hpa). rewrite Hpa, Hr. eexists. split; [done|].
    unfold paired_of in Hm. rewrite Hb in Hm. injection Hm as <-. by apply mirrors_remove.
  - destruct (en_stopped e); [|injection Hstep as <-; apply Hquiet, quiet_refl]. injection Hstep as <-.
    destruct (with_book_ok e id Hok) as (b & Hb & _). rewrite (wipe_locked_paired e b Hb Hok). eexists. split; [done|].
    unfold wipe_locked. en_cbn. rewrite Hb. en_cbn. apply mirrors_empty.
Qed.

(** Every engine along a history. *)
Definition always (P : Engine → Prop) (e : Engine) (es : list NEvent) : Prop :=
  ∀ n e', en_run e (take n es) = Ret e' → P e'.

Lemma host_run_mirrors exact e es m store :
  en_ok e → paired_of (en_endpoint e) = Some m → mirrors exact (en_routes e) m store →
  (exact = true → always (λ e, distinct_nodes (en_routes e)) e es) →
  ∃ e' m', en_run e es = Ret e' ∧ en_ok e' ∧ paired_of (en_endpoint e') = Some m' ∧
    mirrors exact (en_routes e') m' (host_run store e es).
Proof.
  revert e m store. induction es as [|ev es IH]; intros e m store Hok Hm Hmi Hdis; [by exists e, m|].
  cbn [en_run host_run]. destruct (en_step_ok e ev Hok) as (e1 & Hs & Hok1). rewrite Hs. cbn [mbind exec_bind].
  destruct (host_step_mirrors exact e ev e1 m store) as (m1 & Hm1 & Hmi1); try done.
  { intros He. apply (Hdis He 1%nat). cbn [take en_run]. by rewrite Hs. }
  apply (IH _ m1); try done. intros He n e' Hr. apply (Hdis He (S n)). cbn [take en_run]. by rewrite Hs.
Qed.

(** ** Starting *)

Definition store_of (l : list ERoute) (store : gmap (list byte) ERoute) : gmap (list byte) ERoute :=
  foldl (λ st er, <[er_route_id er := er]> st) store l.

Lemma start_routes_returns l routes m : ∃ r, start_routes l routes m = Ret r.
Proof.
  revert routes m. induction l as [|er l IH]; intros routes m; cbn [start_routes]; [eauto|].
  destruct (verify_route_returns er) as [v ->]. cbn [mbind exec_bind]. destruct v as [[node card]|]; [|eauto].
  split_if; [eauto|]. destruct (secret _); [apply IH | eauto].
Qed.

Lemma start_routes_sub l routes m routes' m' : start_routes l routes m = Ret (Ok (routes', m')) → routes ⊆ routes'.
Proof.
  revert routes m. induction l as [|er l IH]; intros routes m; cbn [start_routes]; [by intros [= <- _]|].
  destruct (verify_route er) as [[[node card]|]|]; cbn [mbind exec_bind]; try done.
  destruct (bool_decide_reflect (is_Some (routes !! er_route_id er))) as [|Hnew]; [done|]. apply eq_None_not_Some in Hnew.
  destruct (secret _) as [s|]; [|done]. intros H%IH. etrans; [by apply insert_subseteq | done].
Qed.

Lemma start_routes_mirrors exact l routes m store routes' m' :
  start_routes l routes m = Ret (Ok (routes', m')) → mirrors exact routes m store →
  (∀ id r, routes !! id = Some r → rt_session r = None) → (exact = true → distinct_nodes routes') →
  routes ⊆ routes' ∧ mirrors exact routes' m' (store_of l store) ∧ ∀ id r, routes' !! id = Some r → rt_session r = None.
Proof.
  revert routes m store. induction l as [|er l IH]; intros routes m store; cbn [start_routes store_of foldl].
  { by intros [= <- <-]. }
  destruct (verify_route_returns er) as [v Hv]. rewrite Hv. cbn [mbind exec_bind]. destruct v as [[node card]|]; [|done].
  destruct (bool_decide_reflect (is_Some (routes !! er_route_id er))) as [|Hnew]; [done|]. apply eq_None_not_Some in Hnew.
  destruct (secret _) as [s|] eqn:Hs; [|done]. apply secret_length in Hs as [Hlen Hs]. intros Hst Hmi Hno Hdis.
  set (r := mkRouteState node (er_card_serial er) card None) in *.
  assert (Hsub : <[er_route_id er := r]> routes ⊆ routes') by by eapply start_routes_sub.
  destruct (IH _ _ (<[er_route_id er := er]> store) Hst) as (_ & H1 & H2).
  - eapply mirrors_install; try done; [apply lookup_insert_eq | | |].
    + intros n Hne _. by rewrite lookup_insert_ne.
    + intros old Ho. congruence.
    + intros He i j q q' Hi Hj. apply (Hdis He i j q q'); by eapply lookup_weaken.
  - intros i q [[<- <-]|[_ H]]%lookup_insert_Some; [done | eauto].
  - done.
  - split; [|done]. etrans; [by apply insert_subseteq|]. done.
Qed.

Lemma open_fields browser c udp setup now nonce ep :
  Endpoint_open browser c udp setup now nonce = Ok ep → ep_book ep = open_book c ∧ ep_config ep = ec_take_material c.
Proof.
  unfold Endpoint_open. split_if; [done|]. intros (p & _ & E)%result_bind_Ok. destruct setup; [|done]. by injection E as <-.
Qed.

(** The engine's relay URLs leave room for a card. *)
Definition urls_fit (c : EngineConfig) : Prop := Forall (λ url, (1 ≤ length url ≤ MAX_SAFE_HINT)%nat) (eg_relay_urls c).

Lemma Engine_start_ok exact browser c udp setup now nonce e :
  urls_fit c → Engine_start browser c udp setup now nonce = Ret (Ok e) → (exact = true → distinct_nodes (en_routes e)) →
  en_ok e ∧ ∃ m, paired_of (en_endpoint e) = Some m ∧ mirrors exact (en_routes e) m (store_of (eg_routes c) ∅).
Proof.
  intros Hu. unfold Engine_start. destruct (try_array 32 _) as [seed|]; [|done].
  destruct (start_routes_returns (eg_routes c) ∅ ∅) as [r Hr]. rewrite Hr. cbn [mbind exec_bind].
  destruct r as [[routes paired]|]; [|done].
  destruct (Endpoint_open _ _ _ _ _ _) as [ep|] eqn:Ho; [|done]. intros [= <-] Hdis. en_cbn.
  destruct (start_routes_mirrors exact _ _ _ _ _ _ Hr (mirrors_empty exact)) as (_ & Hmi & Hno); [intros id q H; by rewrite lookup_empty in H | done|].
  pose proof (open_idle _ _ _ _ _ _ _ Ho) as Hidle. apply open_fields in Ho as [Hb Hc].
  assert (Hp : paired_of ep = Some paired) by (unfold paired_of; by rewrite Hb).
  split; [|eauto]. split; en_cbn; try done; eauto.
  - exists paired. split; [done|]. intros n [s (id & q & er & Hq & _ & Hn & _)%(mi_sound _ _ _ _ Hmi)]. eauto.
  - exists Table_empty. by apply idle_refines.
  - destruct Hidle as (_ & _ & Hl). unfold lives_ok. rewrite Hl. apply map_Forall_empty.
  - rewrite Hc. cbn. rewrite Forall_fmap. exact Hu.
  - intros id q Hq. destruct (mi_route _ _ _ _ Hmi _ _ Hq) as (er & _ & <- & Hv & Hs & _).
    apply verify_route_ok in Hv as (H1 & H2 & H3 & H4 & _). split; try done; [lia | congruence |].
    intros s Hse. rewrite (Hno _ _ Hq) in Hse. done.
Qed.

(** ** Stopping and file reservations *)

Definition gate (e : Engine) : nat * gmap Z nat * Z := (en_permits e, en_guards e, en_next_guard e).

(** What no call but a reservation's changes, and that a stop is for good. *)
Record calm (e e' : Engine) : Prop := {
  ca_gate : gate e' = gate e;
  ca_stopped : en_stopped e = true → en_stopped e' = true;
}.

Lemma calm_refl e : calm e e.
Proof. by split. Qed.

Lemma acquire_calm e id check keep driver : calm e (fst (acquire e id check keep driver)).
Proof.
  assert (Hd : ∀ r, calm e (fst (dial e id r driver))).
  { intros r. unfold dial. split_if; [done|]. by destruct (connect_begin _ _ _) as [ep [fl|]]. }
  unfold acquire. split_if; [done|]. destruct (en_routes e !! id); [|done]. destruct (check _); [|done].
  destruct (rt_session _); [|done]. by split_if.
Qed.

Lemma pair_begin_calm e b i e' out : pair_begin e b i = Some (Ret (e', out)) → calm e e'.
Proof.
  unfold pair_begin. destruct (pair_check b (pi_now i)) as [[[[[lifetime raw] node] offered]|]|]; [| |done].
  2:{ by intros [= <- _]. }
  split_if; [by intros [= <- _]|]. split_if; [by intros [= <- _]|].
  destruct (register_pairing_secret _ _ _ _ _) as [[[ep1 reg]|err]|]; [| |done]. 2:{ by intros [= <- _]. }
  destruct (card ep1 _ _ _ _) as [ep2 caller]. intros [= E].
  destruct (route_frame _) as [frame|]; [|done]. cbn [mbind exec_bind] in E. en_cbn. destruct (en_stop e); [by injection E as <- _|].
  destruct (connect_pairing_begin _ _ _ _ _ _ _) as [ep3 [fl|reason]]; by injection E as <- _.
Qed.

Lemma close_session_calm e s : calm e (close_session e s).
Proof. by destruct s. Qed.

Lemma calm_trans a b c : calm a b → calm b c → calm a c.
Proof. intros [G1 S1] [G2 S2]. split; [congruence | auto]. Qed.

Lemma with_book_calm e f e' : with_book e f = Ret e' → calm e e'.
Proof. unfold with_book. destruct (ep_book _); [|done]. by intros [= <-]. Qed.

Lemma pair_finish_calm e id psecret response at_ e' out : pair_finish e id psecret response at_ = Ret (e', out) → calm e e'.
Proof.
  unfold pair_finish. destruct (en_pairings e !! id) as [p|]; [|by intros [= <- _]].
  destruct (pa_phase p) as [fl|session]; [by intros [= <- _]|]. set (e1 := en_close _ _). cbn zeta.
  destruct (if en_stop e1 then _ else _) as [[[c s]|]|]; cbn [mbind exec_bind]; [| by intros [= <- _] | done].
  unfold pair_install. split_if; [by intros [= <- _]|]. cbn zeta. split_if; [by intros [= <- _]|]. split_if; [by intros [= <- _]|].
  destruct (with_book _ _) as [e2|] eqn:Hb; [|done]. cbn [mbind exec_bind]. intros [= <- _]. apply with_book_calm in Hb.
  assert (H : calm e e2) by (by eapply calm_trans; [|exact Hb]). destruct (_ ≫= rt_session); destruct H; by split.
Qed.

Lemma upsert_route_calm e route e' out : upsert_route e route = Ret (e', out) → calm e e'.
Proof.
  unfold upsert_route. destruct (verify_route route) as [[[node card]|]|]; cbn [mbind exec_bind]; [| by intros [= <- _] | done].
  destruct (secret _) as [s|]; [|by intros [= <- _]]. split_if; [by intros [= <- _]|]. cbn zeta. split_if; [by intros [= <- _]|].
  destruct (en_routes e !! er_route_id route) as [old|] eqn:Ho; cbn [mbind exec_bind].
  - destruct (with_book e _) as [e1|] eqn:H1; [|done]. cbn [mbind exec_bind]. pose proof (with_book_calm _ _ _ H1) as Hc.
    destruct (with_book e1 _) as [e2|] eqn:H2; [|done]. cbn [mbind exec_bind]. intros [= <- _].
    eapply calm_trans; [exact Hc|]. eapply calm_trans; [by eapply with_book_calm|].
    eapply calm_trans; [|apply close_session_calm]. done.
  - destruct (with_book e _) as [e2|] eqn:H2; [|done]. cbn [mbind exec_bind]. intros [= <- _].
    eapply calm_trans; [by eapply with_book_calm|]. done.
Qed.

Lemma remove_route_calm e id e' out : remove_route e id = Ret (e', out) → calm e e'.
Proof.
  unfold remove_route. split_if; [by intros [= <- _]|]. destruct (en_routes e !! id) as [r|]; [|by intros [= <- _]]. cbn zeta.
  destruct (with_book _ _) as [e1|] eqn:H1; [|done]. cbn [mbind exec_bind]. intros [= <- _]. apply with_book_calm in H1.
  eapply calm_trans; [|apply close_session_calm]. eapply calm_trans; [|exact H1]. done.
Qed.

Lemma flight_ended_calm e fl r e' : flight_ended e fl r = Ret e' → calm e e'.
Proof.
  assert (Hw : calm e (match waiting e fl with (id, p) :: _ => pairing_ended e id p r | [] => e end))
    by (destruct (waiting e fl) as [|[id p] l]; [done | by destruct r]).
  unfold flight_ended. destruct (en_lock e) as [d|]; [|by intros [= <-]].
  split_if; [|by intros [= <-]]. unfold dial_ended. destruct r as [s|]; [|by intros [= <-]].
  unfold store_session. destruct (en_routes _ !! _); [|done]. by intros [= <-].
Qed.

Definition touches_gate (ev : NEvent) : bool :=
  match ev with NReserve | NClone _ | NDrop _ | NRequest _ _ _ => true | _ => false end.

Lemma step_calm e ev e' : touches_gate ev = false → en_step e ev = Ret e' → calm e e'.
Proof.
  assert (Hlk : ∀ r : exec Engine, (r = Ret e' → calm e e') → match en_lock e with Some _ => Ret e | None => r end = Ret e' → calm e e').
  { intros r Hr. destruct (en_lock e); [by intros [= <-] | done]. }
  intros Ht. destruct ev; try discriminate Ht; cbn [en_step]; try apply Hlk; try (intros [= <-]); try done.
  - unfold open_socket. destruct url; [apply acquire_calm | done].
  - unfold request_json_reserved. destruct (validate_http_request request) as [[m r]|]; [|done].
    split_if; [done|]. pose proof (acquire_calm e (jr_route_id request) (λ _, Ok tt) (usable e failed) driver). by destruct (acquire _ _ _ _ _).
  - destruct finalize; apply acquire_calm.
  - destruct (pair_begin e b i) as [[[e1 out]|]|] eqn:Hb; [| done | by intros [= <-]].
    cbn. intros [= <-]. by eapply pair_begin_calm.
  - destruct (pair_finish _ _ _ _ _) as [[e1 out]|] eqn:Hb; [|done]. cbn. intros [= <-]. by eapply pair_finish_calm.
  - destruct (upsert_route _ _) as [[e1 out]|] eqn:Hb; [|done]. cbn. intros [= <-]. by eapply upsert_route_calm.
  - destruct (remove_route _ _) as [[e1 out]|] eqn:Hb; [|done]. cbn. intros [= <-]. by eapply remove_route_calm.
  - unfold engine_reannounce. by split_if.
  - split_if; [|by intros [= <-]]. apply Hlk. by intros [= <-].
  - split_if; [|by intros [= <-]]. apply Hlk. intros [= <-]. unfold wipe_locked. en_cbn. by destruct (ep_book _).
  - unfold flight_ready. destruct (connect_ready _ _ _) as [ep [reason|]]; [|by intros [= <-]].
    intros H%flight_ended_calm. by eapply calm_trans; [|exact H].
  - unfold flight_dialled. destruct (connect_handshake _ _ _ _) as [ep [r|]]; [|by intros [= <-]].
    intros H%flight_ended_calm. by eapply calm_trans; [|exact H].
  - unfold dial_timeout. by destruct (en_lock e).
  - split_if; by intros [= <-].
  - split_if; by intros [= <-].
Qed.

(** ** A gate for one file request *)

Record gate_ok (e : Engine) : Prop := {
  ga_count : (en_permits e + size (en_guards e) = 1)%nat;
  ga_refs g n : en_guards e !! g = Some n → (1 ≤ n)%nat;
  ga_fresh g n : en_guards e !! g = Some n → g < en_next_guard e;
}.

Lemma gate_same e e' : gate e' = gate e → gate_ok e → gate_ok e'.
Proof. unfold gate. intros [= H1 H2 H3] []. split; rewrite ?H1, ?H2, ?H3; eauto. Qed.

Lemma reserve_gate e : gate_ok e → gate_ok (fst (reserve_file_request e)).
Proof.
  intros Hok. pose proof Hok as []. unfold reserve_file_request. split_if; [done|]. destruct (en_permits e) as [|k] eqn:Hp; [done|]. en_cbn.
  assert (Hnew : en_guards e !! en_next_guard e = None).
  { destruct (en_guards e !! en_next_guard e) eqn:E; [|done]. apply ga_fresh0 in E. lia. }
  split; en_cbn.
  - rewrite map_size_insert_None by done. lia.
  - intros g n [[<- <-]|[_ H]]%lookup_insert_Some; [lia | eauto].
  - intros g n [[<- <-]|[_ H]]%lookup_insert_Some; [lia|]. apply ga_fresh0 in H. lia.
Qed.

Lemma clone_gate e g : gate_ok e → gate_ok (clone_guard e g).
Proof.
  intros Hok. pose proof Hok as []. unfold clone_guard. destruct (en_guards e !! g) as [n|] eqn:Hg; [|done]. split; en_cbn.
  - by rewrite map_size_insert_Some by (rewrite Hg; eauto).
  - intros h k [[<- <-]|[_ H]]%lookup_insert_Some; [lia | eauto].
  - intros h k [[<- <-]|[_ H]]%lookup_insert_Some; eauto.
Qed.

Lemma drop_gate e g : gate_ok e → gate_ok (drop_guard e g).
Proof.
  intros Hok. pose proof Hok as []. unfold drop_guard.
  assert (Hlast : ∀ n, en_guards e !! g = Some n →
            gate_ok (en_set_guards e (S (en_permits e)) (delete g (en_guards e)) (en_next_guard e))).
  { intros n Hg. split; en_cbn.
    - rewrite map_size_delete_Some by (rewrite Hg; eauto).
      destruct (size (en_guards e)) eqn:Hz; [|lia]. apply map_size_empty_inv in Hz. by rewrite Hz, lookup_empty in Hg.
    - intros h k [_ H]%lookup_delete_Some. eauto.
    - intros h k [_ H]%lookup_delete_Some. eauto. }
  destruct (en_guards e !! g) as [[|[|n]]|] eqn:Hg; [by eapply Hlast | by eapply Hlast | | done]. split; en_cbn.
  - by rewrite map_size_insert_Some by (rewrite Hg; eauto).
  - intros h k [[<- <-]|[_ H]]%lookup_insert_Some; [lia | eauto].
  - intros h k [[<- <-]|[_ H]]%lookup_insert_Some; eauto.
Qed.

Lemma request_gate e request failed driver : gate_ok e → gate_ok (fst (request_json e request failed driver)).
Proof.
  intros Hok.
  assert (Hres : ∀ e request permit, gate_ok e → gate_ok (fst (request_json_reserved e request permit failed driver))).
  { intros x q permit Hx. unfold request_json_reserved. destruct (validate_http_request q) as [[m r]|]; [|done]. split_if; [done|].
    pose proof (ca_gate _ _ (acquire_calm x (jr_route_id q) (λ _, Ok tt) (usable x failed) driver)) as Hg.
    destruct (acquire _ _ _ _ _) as [y a]. by eapply gate_same. }
  unfold request_json. destruct (validate_http_request request) as [[m r]|]; [|done]. destruct (is_file r); [|by apply Hres].
  pose proof (reserve_gate e Hok) as H1. destruct (reserve_file_request e) as [e1 [g|err]]; [|done]. cbn [fst] in H1.
  pose proof (Hres e1 request (Some g) H1) as H2.
  destruct (request_json_reserved _ _ _ _ _) as [e2 [a|err]]; cbn [fst] in *; [done | by apply drop_gate].
Qed.

Lemma step_gate e ev e' : gate_ok e → en_step e ev = Ret e' → gate_ok e'.
Proof.
  intros Hok Hs. destruct (touches_gate ev) eqn:Ht; [|by eapply gate_same; [apply (ca_gate _ _ (step_calm _ _ _ Ht Hs))|]].
  destruct ev; try discriminate Ht; cbn [en_step] in Hs.
  - destruct (en_lock e); injection Hs as <-; [done | by apply request_gate].
  - injection Hs as <-. by apply reserve_gate.
  - injection Hs as <-. by apply clone_gate.
  - injection Hs as <-. by apply drop_gate.
Qed.

(** ** Histories of a started engine *)

Lemma run_invariant (P : Engine → Prop) e es e' :
  (∀ e ev e', P e → en_step e ev = Ret e' → P e') → P e → en_run e es = Ret e' → P e'.
Proof.
  intros Hs. revert e. induction es as [|ev es IH]; intros e He; cbn [en_run]; [by intros [= <-]|].
  destruct (en_step e ev) as [e1|] eqn:E; [|done]. cbn [mbind exec_bind]. intros. eauto.
Qed.

(** The session and the verifier of a call on a route. *)
Lemma acquire_on_route e id check keep driver e' a :
  en_ok e → acquire e id check keep driver = (e', Ok a) →
  ∃ r, en_routes e !! id = Some r ∧ check r = Ok tt ∧ card_node_id (rt_card r) = rt_node r ∧
    match a with
    | Ready s node => e' = e ∧ node = rt_node r ∧ keep s = true ∧ settled (en_endpoint e) s node true
    | Dials => ∃ fl s, en_lock e' = Some (mkDialling id fl) ∧ flight_with (en_endpoint e') fl (rt_node r) s None
    end.
Proof.
  intros Hok. unfold acquire. split_if; [done|]. destruct (en_routes e !! id) as [r|] eqn:Hr; [|done].
  destruct (check r) as [[]|] eqn:Hc; [|done]. destruct (eo_routes _ Hok _ _ Hr) as [_ _ Hnode _ Hsess].
  assert (Hd : dial e id r driver = (e', Ok a) →
    a = Dials ∧ ∃ fl s, en_lock e' = Some (mkDialling id fl) ∧ flight_with (en_endpoint e') fl (rt_node r) s None).
  { unfold dial. split_if; [done|]. destruct (connect_begin _ _ _) as [ep [fl|reason]] eqn:Hb; [|done]. intros [= <- <-].
    split; [done|]. apply connect_begin_flight in Hb as (-> & s & Hf). rewrite Hnode in Hf. by exists (ep_next_flight (en_endpoint e)), s. }
  destruct (rt_session r) as [s|] eqn:Hs; [destruct (keep s) eqn:Hk|].
  - intros [= <- <-]. exists r. split_and!; try done. by apply Hsess.
  - intros (-> & ?)%Hd. exists r. done.
  - intros (-> & ?)%Hd. exists r. done.
Qed.

(** ** Records determine the engine's routes *)

Lemma mirrors_keys x y r1 r2 m1 m2 store :
  mirrors x r1 m1 store → mirrors y r2 m2 store → ∀ id, route_key <$> r1 !! id = route_key <$> r2 !! id.
Proof.
  intros H1 H2 id. destruct (r1 !! id) as [a|] eqn:Ha, (r2 !! id) as [b|] eqn:Hb; [| | |done].
  - destruct (mi_route _ _ _ _ H1 _ _ Ha) as (er & He & _ & V1 & S1 & _).
    destruct (mi_route _ _ _ _ H2 _ _ Hb) as (er' & He' & _ & V2 & S2 & _). simplify_eq. cbn. unfold route_key. congruence.
  - destruct (mi_route _ _ _ _ H1 _ _ Ha) as (er & He & _). apply (mi_store _ _ _ _ H2) in He as [? ?]. congruence.
  - destruct (mi_route _ _ _ _ H2 _ _ Hb) as (er & He & _). apply (mi_store _ _ _ _ H1) in He as [? ?]. congruence.
Qed.

Lemma distinct_keys r1 r2 :
  (∀ id, route_key <$> r1 !! id = route_key <$> r2 !! id) → distinct_nodes r1 → distinct_nodes r2.
Proof.
  intros Hk Hd i j a b Ha Hb E. pose proof (Hk i) as Hi. pose proof (Hk j) as Hj. rewrite Ha in Hi. rewrite Hb in Hj.
  destruct (r1 !! i) as [a'|] eqn:Ha'; [|done]. destruct (r1 !! j) as [b'|] eqn:Hb'; [|done]. injection Hi as Hi. injection Hj as Hj.
  apply (Hd i j a' b' Ha' Hb'). unfold route_key in *. congruence.
Qed.

Lemma mirrors_secrets r1 r2 m1 m2 store : mirrors true r1 m1 store → mirrors true r2 m2 store → m1 ⊆ m2.
Proof.
  intros H1 H2. apply map_subseteq_spec. intros n s Hn.
  destruct (mi_sound _ _ _ _ H1 _ _ Hn) as (id & r & er & Hr & He & <- & Hs).
  pose proof (mirrors_keys _ _ _ _ _ _ _ H1 H2 id) as Hk. rewrite Hr in Hk.
  destruct (r2 !! id) as [r'|] eqn:Hr'; [|done]. injection Hk as Hk.
  destruct (mi_complete _ _ _ _ H2 _ _ _ eq_refl Hr' He) as (s' & Hm & Hs'). unfold route_key in Hk.
  assert (s' = s) as -> by (apply bytes_of_inj; congruence). congruence.
Qed.

(** Records of distinct ids, each acceptable, start. *)
Lemma start_routes_total l routes m :
  Forall (λ er, (∃ v, verify_route er = Ret (Ok v)) ∧ length (er_paired_route_secret er) = 32%nat) l →
  NoDup (er_route_id <$> l) → (∀ er, er ∈ l → routes !! er_route_id er = None) →
  ∃ routes' m', start_routes l routes m = Ret (Ok (routes', m')).
Proof.
  intros HF. revert routes m. induction HF as [|er l [[[node card] Hv] Hlen] HF IH]; intros routes m Hnd Hnew; cbn [start_routes]; [eauto|].
  rewrite fmap_cons in Hnd. apply NoDup_cons in Hnd as [Hin Hnd]. rewrite Hv. cbn [mbind exec_bind].
  rewrite bool_decide_false by (rewrite Hnew by left; by intros [? ?]).
  unfold secret. destruct (try_array_is_Some (n := 32) _ Hlen) as (s & -> & _). cbn [ok_or]. apply IH; [done|].
  intros x Hx. rewrite lookup_insert_ne; [apply Hnew; by right|]. intros E. apply Hin. rewrite E. by apply list_elem_of_fmap_2.
Qed.

(** What a list of records with distinct ids is as a store. *)
Lemma store_of_lookup l store id :
  NoDup (er_route_id <$> l) →
  store_of l store !! id = match list_find (λ er, er_route_id er = id) l with Some (_, er) => Some er | None => store !! id end.
Proof.
  revert store. induction l as [|er l IH]; intros store Hnd; cbn [store_of foldl]; [done|]. rewrite fmap_cons in Hnd.
  apply NoDup_cons in Hnd as [Hin Hnd]. unfold store_of in IH. rewrite IH by done. cbn [list_find].
  destruct (decide (er_route_id er = id)) as [<-|Hne].
  - destruct (list_find _ l) as [[k x]|] eqn:E; [|by rewrite lookup_insert_eq]. apply list_find_Some in E as (Hk & Hx & _).
    destruct Hin. rewrite <- Hx. apply list_elem_of_fmap_2. by eapply list_elem_of_lookup_2.
  - destruct (list_find _ l) as [[k x]|]; [done|]. cbn. by rewrite lookup_insert_ne.
Qed.

Lemma records_listed store l :
  l ≡ₚ (map_to_list store).*2 → (∀ id er, store !! id = Some er → er_route_id er = id) →
  NoDup (er_route_id <$> l) ∧ store_of l ∅ = store ∧ ∀ er, er ∈ l → ∃ id, store !! id = Some er.
Proof.
  intros Hl Hid.
  assert (Hall : ∀ er, er ∈ l ↔ store !! er_route_id er = Some er).
  { intros er. rewrite Hl, list_elem_of_fmap. split.
    - intros ([id x] & -> & H%elem_of_map_to_list). cbn. by rewrite (Hid _ _ H).
    - intros H. exists (er_route_id er, er). split; [done|]. by apply elem_of_map_to_list. }
  assert (Hnd : NoDup (er_route_id <$> l)).
  { rewrite Hl, <- list_fmap_compose.
    assert (er_route_id ∘ snd <$> map_to_list store = fst <$> map_to_list store) as ->; [|apply NoDup_fst_map_to_list].
    apply list_fmap_ext. intros i [id er] H. cbn. eapply Hid, elem_of_map_to_list, list_elem_of_lookup_2, H. }
  split; [done|]. split; [|intros er H%Hall; eauto].
  apply map_eq. intros id. rewrite store_of_lookup by done. destruct (list_find _ l) as [[k er]|] eqn:E.
  - apply list_find_Some in E as (Hk & <- & _). symmetry. apply Hall. by eapply list_elem_of_lookup_2.
  - rewrite lookup_empty. symmetry. apply eq_None_not_Some. intros [er He]. apply list_find_None in E.
    rewrite Forall_forall in E. apply (E er); [|by apply Hid]. apply Hall. by rewrite (Hid _ _ He).
Qed.

Lemma open_native cfg seed paired a now nonce :
  ∃ ep, Endpoint_open false (start_config false cfg seed paired) (Some a) true now nonce = Ok ep.
Proof.
  unfold Endpoint_open. rewrite bool_decide_false by done. cbn [mbind result_bind negb].
  eexists. reflexivity.
Qed.

(** ** Serials *)

Lemma step_serials e ev e' id r r' :
  en_ok e → en_step e ev = Ret e' → en_routes e !! id = Some r → en_routes e' !! id = Some r' →
  rt_serial r <= rt_serial r' ∧ (rt_node r' ≠ rt_node r → rt_serial r < rt_serial r').
Proof.
  intros Hok Hs Hr Hr'. pose proof (step_quiet _ _ _ Hs) as Hq.
  assert (Hquiet : quiet e e' → rt_serial r <= rt_serial r' ∧ (rt_node r' ≠ rt_node r → rt_serial r < rt_serial r')).
  { intros H. pose proof (qu_routes _ _ H id) as Hk. rewrite Hr, Hr' in Hk. injection Hk as E1 E2 _. split; [lia | done]. }
  destruct ev; try (by apply Hquiet); cbn [en_step] in Hs.
  - destruct (en_lock e); [injection Hs as <-; apply Hquiet, quiet_refl|].
    destruct (pair_finish _ _ _ _ _) as [[e1 out]|] eqn:Hp; [|done]. injection Hs as <-.
    apply pair_finish_spec in Hp; [|done]. destruct out as [[route|err]|]; [| by apply Hquiet | by apply Hquiet].
    destruct Hp as (p & c & s & b & _ & _ & _ & Hold & _ & _ & _ & _ & Hro & _). rewrite Hro in Hr'.
    apply lookup_insert_Some in Hr' as [[<- <-]|[_ Hr']]; [apply Hold in Hr as [-> ?]; done|]. simplify_eq. split; [lia | done].
  - destruct (en_lock e); [injection Hs as <-; apply Hquiet, quiet_refl|].
    destruct (upsert_route _ _) as [[e1 out]|] eqn:Hp; [|done]. injection Hs as <-.
    apply upsert_route_spec in Hp; [|done]. destruct out; [|subst; apply Hquiet, quiet_refl].
    destruct Hp as (node & card & s & b & _ & _ & _ & Hold & Hro & _). rewrite Hro in Hr'.
    apply lookup_insert_Some in Hr' as [[<- <-]|[_ Hr']]; [apply Hold in Hr; cbn; split; [lia | done]|]. simplify_eq. split; [lia | done].
  - destruct (en_lock e); [injection Hs as <-; apply Hquiet, quiet_refl|].
    destruct (remove_route _ _) as [[e1 out]|] eqn:Hp; [|done]. injection Hs as <-.
    apply remove_route_spec in Hp; [|done]. destruct out; [|subst; apply Hquiet, quiet_refl].
    destruct Hp as (old & b & _ & _ & Hro & _). rewrite Hro in Hr'. apply lookup_delete_Some in Hr' as [_ Hr']. simplify_eq. split; [lia | done].
  - destruct (en_stopped e); [|injection Hs as <-; apply Hquiet, quiet_refl].
    destruct (en_lock e); [injection Hs as <-; apply Hquiet, quiet_refl|]. injection Hs as <-. unfold wipe_locked in Hr'. en_cbn.
    destruct (ep_book _); en_cbn; by rewrite lookup_empty in Hr'.
Qed.

Lemma run_serials e es e' id r r' :
  en_ok e → en_run e es = Ret e' → always (λ e, is_Some (en_routes e !! id)) e es →
  en_routes e !! id = Some r → en_routes e' !! id = Some r' →
  rt_serial r <= rt_serial r' ∧ (rt_node r' ≠ rt_node r → rt_serial r < rt_serial r').
Proof.
  revert e r. induction es as [|ev es IH]; intros e r Hok; cbn [en_run].
  { intros [= <-] _ H1 H2. simplify_eq. split; [lia | done]. }
  destruct (en_step_ok e ev Hok) as (e1 & Hs & Hok1). rewrite Hs. cbn [mbind exec_bind]. intros Hr Hal H1 H2.
  destruct (Hal 1%nat e1) as [r1 Hr1]; [cbn [take en_run]; by rewrite Hs|].
  destruct (step_serials _ _ _ _ _ _ Hok Hs H1 Hr1) as [Ha Hb].
  destruct (IH e1 r1 Hok1 Hr) as [Hc Hd]; try done.
  { intros n x Hx. apply (Hal (S n)). cbn [take en_run]. by rewrite Hs. }
  split; [lia|]. intros Hne. destruct (decide (rt_node r1 = rt_node r)) as [E|E]; [|specialize (Hb E); lia].
  rewrite <- E in Hne. specialize (Hd Hne). lia.
Qed.

(** ** After a wipe *)

Lemma request_stopped e request failed driver : en_stopped e = true → en_stopped (fst (request_json e request failed driver)) = true.
Proof.
  intros Hst. assert (Hres : ∀ x permit, en_stopped x = true → en_stopped (fst (request_json_reserved x request permit failed driver)) = true).
  { intros x permit Hx. unfold request_json_reserved. destruct (validate_http_request request) as [[m r]|]; [|done]. split_if; [done|].
    unfold acquire. by rewrite Hx. }
  unfold request_json. destruct (validate_http_request request) as [[m r]|]; [|done]. destruct (is_file r); [|by apply Hres].
  destruct (reserve_file_request e) as [e1 [g|err]] eqn:He; unfold reserve_file_request in He;
    (destruct (en_stop e); [by simplify_eq|]; destruct (en_permits e); simplify_eq; try done).
  specialize (Hres (en_set_guards e n (<[en_next_guard e:=1%nat]> (en_guards e)) (en_next_guard e + 1)) (Some (en_next_guard e)) Hst).
  destruct (request_json_reserved _ _ _ _ _) as [e2 [a|err]]; cbn [fst] in *; [done|].
  unfold drop_guard. by destruct (en_guards e2 !! _) as [[|[|]]|].
Qed.

Definition wiped (e : Engine) : Prop := en_ok e ∧ en_stopped e = true ∧ en_routes e = ∅ ∧ paired_of (en_endpoint e) = Some ∅.

Lemma quiet_wiped e e' : wiped e → en_ok e' → quiet e e' → en_stopped e' = true → wiped e'.
Proof.
  intros (_ & _ & Hr & Hp) Hok [Qp Qr] Hs. split; [done|]. split; [done|]. split; [|congruence]. apply map_eq. intros id. specialize (Qr id).
  rewrite Hr, lookup_empty in Qr. rewrite lookup_empty. by destruct (en_routes e' !! id).
Qed.

Lemma wiped_wipe e : en_ok e → en_stopped e = true → wiped (wipe_locked e).
Proof.
  intros Hok Hst. assert (Hl : en_lock e = None) by (apply (eo_stop _ Hok), (eo_stopped_stop _ Hok), Hst).
  destruct (with_book_ok e id Hok) as (b & Hb & _).
  split; [by apply wipe_locked_ok|]. split; [|split; [|by eapply wipe_locked_paired]];
    unfold wipe_locked; en_cbn; by rewrite Hb.
Qed.

Lemma step_wiped e ev e' : wiped e → en_step e ev = Ret e' → wiped e'.
Proof.
  intros Hw Hs. pose proof Hw as (Hok & Hst & Hr & Hp). destruct (en_step_ok e ev Hok) as (e1 & Hs1 & Hok1).
  assert (e1 = e') as -> by congruence. pose proof (step_quiet _ _ _ Hs) as Hq.
  assert (Hst' : en_stopped e' = true).
  { destruct (touches_gate ev) eqn:Ht; [|by apply (ca_stopped _ _ (step_calm _ _ _ Ht Hs))].
    destruct ev; try discriminate Ht; cbn [en_step] in Hs.
    - destruct (en_lock e); injection Hs as <-; [done | by apply request_stopped].
    - injection Hs as <-. unfold reserve_file_request. split_if; [done|]. by destruct (en_permits e).
    - injection Hs as <-. unfold clone_guard. by destruct (en_guards e !! g).
    - injection Hs as <-. unfold drop_guard. by destruct (en_guards e !! g) as [[|[|]]|]. }
  assert (Hquiet : quiet e e' → wiped e') by (intros; by eapply quiet_wiped).
  destruct ev; try (by apply Hquiet); cbn [en_step] in Hs.
  - destruct (en_lock e); [injection Hs as <-; done|]. destruct (pair_finish _ _ _ _ _) as [[e2 out]|] eqn:Hf; [|done]. injection Hs as <-.
    apply pair_finish_spec in Hf; [|done]. destruct out as [[route|err]|]; [| by apply Hquiet | by apply Hquiet].
    destruct Hf as (? & ? & ? & ? & _ & _ & Hno & _). congruence.
  - destruct (en_lock e); [injection Hs as <-; done|]. destruct (upsert_route _ _) as [[e2 out]|] eqn:Hf; [|done]. injection Hs as <-.
    apply upsert_route_spec in Hf; [|done]. destruct out; [|by subst]. destruct Hf as (? & ? & ? & ? & _ & _ & Hno & _). congruence.
  - destruct (en_lock e); [injection Hs as <-; done|]. destruct (remove_route _ _) as [[e2 out]|] eqn:Hf; [|done]. injection Hs as <-.
    apply remove_route_spec in Hf; [|done]. destruct out; [|by subst]. destruct Hf as (? & ? & _ & Hno & _). congruence.
  - rewrite Hst in Hs. destruct (en_lock e) eqn:Hl; [injection Hs as <-; done|]. injection Hs as <-. apply (wiped_wipe e); done.
Qed.

Context {L : HexLaws X}.

Section started.
Variables (browser : bool) (c : EngineConfig) (udp : option SocketAddr) (setup : bool) (now : Z) (nonce : array 16) (e0 : Engine).
Hypothesis Hfit : urls_fit c.
Hypothesis Hstart : Engine_start browser c udp setup now nonce = Ret (Ok e0).

Lemma started_ok : en_ok e0.
Proof. eapply (Engine_start_ok false); try done. Qed.

Lemma started_run_ok es e : en_run e0 es = Ret e → en_ok e.
Proof. intros H. destruct (en_run_ok e0 es started_ok) as (e' & H' & Hok). congruence. Qed.

Lemma started_gate : gate_ok e0.
Proof.
  revert Hstart. unfold Engine_start. destruct (try_array 32 _); [|done].
  destruct (start_routes_returns (eg_routes c) ∅ ∅) as [r ->]. cbn [mbind exec_bind]. destruct r as [[routes paired]|]; [|done].
  destruct (Endpoint_open _ _ _ _ _ _); [|done]. intros [= <-]. split; en_cbn; [done | |]; intros g n H; by rewrite lookup_empty in H.
Qed.

Lemma started_mirrors es e m :
  always (λ e, distinct_nodes (en_routes e)) e0 es → en_run e0 es = Ret e → paired_of (en_endpoint e) = Some m →
  mirrors true (en_routes e) m (host_run (store_of (eg_routes c) ∅) e0 es).
Proof.
  intros Hd Hr Hm. destruct (Engine_start_ok true _ _ _ _ _ _ _ Hfit Hstart) as (Hok & m0 & Hm0 & Hmi0); [intros _; by apply (Hd 0%nat)|].
  destruct (host_run_mirrors true e0 es m0 _ Hok Hm0 Hmi0) as (e1 & m1 & Hr1 & _ & Hm1 & Hmi1); [done|]. assert (e1 = e) as -> by congruence. assert (m1 = m) as -> by congruence. done.
Qed.

(** C22: An engine that was started with relay URLs of 1 to 245 bytes never fails an
    [expect] (with longer ones the card it signs for an enrolment can outgrow its bound,
    and it does), and a route leads to the node it was paired with.  Whatever calls,
    dials, closes and enrolments it has been through, every installed route has a card
    that names its node at its serial, and its cached session, while the endpoint has
    it, is a pinned session whose peer presented that node's key and signed the
    handshake with it. *)
Theorem route_sessions_pinned es :
  ∃ e, en_run e0 es = Ret e ∧ ∀ id r, en_routes e !! id = Some r →
    id ≠ [] ∧ 1 <= rt_serial r ∧ card_node_id (rt_card r) = rt_node r ∧ card_serial (rt_card r) = rt_serial r ∧
    ∀ s l, rt_session r = Some s → ep_live (en_endpoint e) !! s = Some l →
      s_peer (lv_sess l) = rt_node r ∧ lv_kind l = Pinned ∧ authenticated (rt_node r) (lv_conn l).
Proof.
  destruct (en_run_ok e0 es started_ok) as (e & Hr & Hok). exists e. split; [done|]. intros id r Hid.
  destruct (eo_routes _ Hok _ _ Hid) as [? ? ? ? Hsess]. split_and!; try done. intros s l Hs Hl.
  destruct (se_live _ _ _ _ (Hsess _ Hs) _ Hl) as [Hp Hk]. apply (eo_lives _ Hok) in Hl as (_ & Ha & _).
  split; [done|]. split; [unfold pinned in Hk; by destruct (lv_kind l) | congruence].
Qed.

(** C6: A request, end to end.  On any engine in use, a request that is not
    refused was admitted by the allowlist, with one live file reservation exactly
    when it is a file operation; it goes on with a usable session established with
    its route's own node, or with a dial whose TLS verifier is pinned to that node;
    what is sent names that node as host; and whatever answer the host gets is
    within the bound of the admitted route, with the content the route promises.  The
    engine was started with relay URLs of 1 to 245 bytes. *)
Theorem request_end_to_end es e request permit failed driver e' m route a
  (Hrun : en_run e0 es = Ret e)
  (Hreq : request_json_reserved e request permit failed driver = (e', Ok (m, route, a))) :
  admitted m (jr_path request) route ∧
  (is_file route = true ↔ ∃ g, permit = Some g ∧ is_Some (en_guards e !! g)) ∧
  ∃ r, en_routes e !! jr_route_id request = Some r ∧
    match a with
    | Ready s node => node = rt_node r ∧ usable e failed s = true ∧ settled (en_endpoint e) s (rt_node r) true
    | Dials => ∃ fl s, en_lock e' = Some (mkDialling (jr_route_id request) fl) ∧
        flight_with (en_endpoint e') fl (rt_node r) s None
    end ∧
    ∀ response status body refused, exchange request m route (rt_node r) response = Ok (status, body, refused) →
      ∃ answer, response (outgoing_http_request request m route (rt_node r)) = Ok answer ∧
        head (og_headers (outgoing_http_request request m route (rt_node r))) = Some (lit "host", NodeId_to_base32 (rt_node r)) ∧
        status = rs_status answer ∧ Z.of_nat (length body) <= hr_max_response_bytes route ∧ delivered answer route body.
Proof.
  pose proof (started_run_ok _ _ Hrun) as Hok. unfold request_json_reserved in Hreq.
  destruct (validate_http_request request) as [[m' r']|] eqn:Hv; [|done]. apply validate_spec in Hv as (_ & _ & Had & _).
  destruct (negb _) eqn:Hperm in Hreq; [done|]. apply negb_false_iff in Hperm.
  destruct (acquire _ _ _ _ _) as [e1 [a'|]] eqn:Ha; [|done]. injection Hreq as <- <- <- <-. split; [done|].
  split.
  { destruct permit as [g|], (is_file r'); try done; [apply bool_decide_eq_true_1 in Hperm; naive_solver|]. naive_solver. }
  apply acquire_on_route in Ha as (r & Hr & _ & _ & Ha); [|done]. exists r. split; [done|]. split.
  { destruct a'; [|done]. by destruct Ha as (_ & -> & ? & ?). }
  intros response status body refused. unfold exchange.
  destruct (response _) as [answer|] eqn:Hresp; [|done]. cbn [mbind result_bind].
  destruct (decode_http_response answer r') as [[st b]|] eqn:Hd; [|done]. intros [= <- <- _].
  eapply decode_ok in Hd as (-> & _ & Hb & Hdel); [|done]. by exists answer.
Qed.

(** C7: The engine implements the host's records.  A host that keeps the records
    it installs with success and those pairing returns, and drops what it removes,
    has at every time exactly the engine's routes: same ids, nodes, serials and
    cards, each record acceptable again; every secret of the rendezvous book is the
    secret of such a record, and as long as no two installed routes are with one
    node, the book has the secret of every record.  The engine was started with relay
    URLs of 1 to 245 bytes. *)
Theorem host_records_agree es :
  let store := host_run (store_of (eg_routes c) ∅) e0 es in
  ∃ e m, en_run e0 es = Ret e ∧ paired_of (en_endpoint e) = Some m ∧ mirrors false (en_routes e) m store ∧
    (always (λ e, distinct_nodes (en_routes e)) e0 es → mirrors true (en_routes e) m store).
Proof.
  intros store. destruct (Engine_start_ok false _ _ _ _ _ _ _ Hfit Hstart) as (Hok & m0 & Hm0 & Hmi0); [done|].
  destruct (host_run_mirrors false e0 es m0 _ Hok Hm0 Hmi0) as (e & m & Hr & _ & Hm & Hmi); [done|].
  exists e, m. split_and!; try done. intros Hd. by apply (started_mirrors es e m).
Qed.

(** C30: Restarting from the records restores the routes.  While no two routes were
    ever installed for one node, an engine started from the host's records, in any
    order, is accepted and has the routes, serials, cards and secrets the running
    engine had; only the cached sessions are gone.  Both were started with relay URLs of
    1 to 245 bytes. *)
Theorem restart_restores es e l seed urls allow a now' nonce'
  (Hd : always (λ e, distinct_nodes (en_routes e)) e0 es) (Hrun : en_run e0 es = Ret e)
  (Hl : l ≡ₚ (map_to_list (host_run (store_of (eg_routes c) ∅) e0 es)).*2)
  (Hseed : length seed = 32%nat) (Hurls : urls_fit (mkEngineConfig seed urls allow l)) :
  ∃ e2, Engine_start false (mkEngineConfig seed urls allow l) (Some a) true now' nonce' = Ret (Ok e2) ∧
    (∀ id, en_routes e2 !! id = (λ r, mkRouteState (rt_node r) (rt_serial r) (rt_card r) None) <$> en_routes e !! id) ∧
    paired_of (en_endpoint e2) = paired_of (en_endpoint e).
Proof.
  pose proof (started_run_ok _ _ Hrun) as Hok. destruct (eo_book _ Hok) as (m & Hm & _).
  pose proof (started_mirrors es e m Hd Hrun Hm) as Hmi. set (store := host_run _ _ _) in *.
  assert (Hid : ∀ id er, store !! id = Some er → er_route_id er = id ∧ (∃ v, verify_route er = Ret (Ok v)) ∧
                  length (er_paired_route_secret er) = 32%nat).
  { intros id er He. destruct (mi_store _ _ _ _ Hmi _ _ He) as [r Hr]. destruct (mi_route _ _ _ _ Hmi _ _ Hr) as (er' & He' & H1 & H2 & _ & H3).
    simplify_eq. eauto. }
  destruct (records_listed store l Hl) as (Hnd & Hst & Hall); [intros; by apply Hid|].
  destruct (start_routes_total l ∅ ∅) as (routes & paired & Hr); [| done | intros; apply lookup_empty |].
  { apply Forall_forall. intros er (id & He)%Hall. by apply Hid in He as (_ & ? & ?). }
  unfold Engine_start. cbn [eg_transport_seed eg_routes]. destruct (try_array_is_Some (n := 32) _ Hseed) as (s & -> & _).
  rewrite Hr. cbn [mbind exec_bind]. destruct (open_native (mkEngineConfig seed urls allow l) s paired a now' nonce') as (ep & Ho).
  rewrite Ho. eexists. split; [done|]. en_cbn. apply open_fields in Ho as [Hb _].
  assert (Hk : ∀ id, route_key <$> routes !! id = route_key <$> en_routes e !! id).
  { destruct (start_routes_mirrors false _ _ _ ∅ _ _ Hr (mirrors_empty false)) as (_ & H & _);
      [intros id q H; by rewrite lookup_empty in H | done|]. rewrite Hst in H. by eapply mirrors_keys. }
  destruct (start_routes_mirrors true _ _ _ ∅ _ _ Hr (mirrors_empty true)) as (_ & H & Hno);
    [intros id q H; by rewrite lookup_empty in H | intros _; eapply distinct_keys, (mi_distinct _ _ _ _ Hmi eq_refl); done |].
  rewrite Hst in H. split.
  - intros id. specialize (Hk id). destruct (routes !! id) as [q|] eqn:Hq, (en_routes e !! id) as [q'|]; try done.
    injection Hk as Hk. cbn. f_equal. pose proof (Hno _ _ Hq) as Hses. destruct q. unfold route_key in Hk. cbn in *. congruence.
  - rewrite Hm. unfold paired_of. rewrite Hb. cbn. f_equal. apply (anti_symm (⊆)); by eapply mirrors_secrets.
Qed.

(** C31: A route never goes back.  As long as a route stays installed, its card
    serial does not fall, whatever is upserted or paired again in between; and the
    node it leads to changes only together with a higher serial.  The engine was started
    with relay URLs of 1 to 245 bytes. *)
Theorem route_serials_rise es1 e1 es2 e2 id r1 r2
  (H1 : en_run e0 es1 = Ret e1) (H2 : en_run e1 es2 = Ret e2)
  (Hstays : always (λ e, is_Some (en_routes e !! id)) e1 es2)
  (Hr1 : en_routes e1 !! id = Some r1) (Hr2 : en_routes e2 !! id = Some r2) :
  rt_serial r1 <= rt_serial r2 ∧ (rt_node r2 ≠ rt_node r1 → rt_serial r1 < rt_serial r2).
Proof. eapply run_serials; eauto. by eapply started_run_ok. Qed.

(** C23: A wipe is final.  Once an engine that was stopped is wiped, no later call
    or event, however interleaved, brings back a route or a paired secret: the
    route table and the secrets of the book stay empty, every call that gets as far as
    looking for its route, and every removal, answers that the engine is stopped, and no
    upsert succeeds.  The engine was started with relay URLs of 1 to 245 bytes. *)
Theorem wipe_is_final es e es' e'
  (Hrun : en_run e0 es = Ret e) (Hst : en_stopped e = true) (Hafter : en_run (wipe_locked e) es' = Ret e') :
  en_routes e' = ∅ ∧ paired_of (en_endpoint e') = Some ∅ ∧
  (∀ id check keep driver, snd (acquire e' id check keep driver) = Err EngStopped) ∧
  (∀ id, remove_route e' id = Ret (e', Err EngStopped)) ∧
  (∀ route e2 out, upsert_route e' route = Ret (e2, out) → out ≠ Ok tt).
Proof.
  pose proof (started_run_ok _ _ Hrun) as Hok. pose proof (wiped_wipe e Hok Hst) as Hw.
  apply (run_invariant wiped) in Hafter as (Hok' & Hs & Hr & Hp); [| intros; by eapply step_wiped | done].
  split_and!; try done.
  - intros. unfold acquire. by rewrite Hs.
  - intros. unfold remove_route. by rewrite Hs.
  - intros route e2 out Hu ->. apply upsert_route_spec in Hu as (? & ? & ? & ? & _ & _ & Hno & _); [congruence | done].
Qed.

(** One file request at a time.  At every time the free permit and the
    reservations held add up to one, so that a file body is reserved for at most one
    request, also while a cancelled request's driver has not let go; a reservation
    succeeds exactly when none is held and the engine is not stopping. *)
Theorem one_file_request es e (Hrun : en_run e0 es = Ret e) :
  (en_permits e + size (en_guards e) = 1)%nat ∧
  ((∃ e' g, reserve_file_request e = (e', Ok g) ∧ en_guards e' = {[g := 1%nat]}) ↔ en_stop e = false ∧ en_guards e = ∅).
Proof.
  pose proof started_gate as Hg. apply (run_invariant gate_ok) in Hrun as []; [| intros; by eapply step_gate | done].
  split; [done|]. unfold reserve_file_request. split.
  - intros (e' & g & H & _). destruct (en_stop e); [done|]. split; [done|]. destruct (en_permits e) as [|n]; [done|].
    apply map_size_empty_inv. lia.
  - intros [-> He]. rewrite He, map_size_empty in *. destruct (en_permits e) as [|n]; [lia|].
    eexists _, _. split; [done|]. en_cbn. by rewrite insert_empty.
Qed.

End started.

End store.

(** ** A concrete engine *)

#[local] Existing Instances toy_crypto toy_rdv toy_mac toy_tls ascii_hex ascii_hex_laws.
#[local] Instance engine_order : HashIter SocketAddr Z := map_order SocketAddr Z.

Lemma distinct_decide routes : NoDup (rt_node ∘ snd <$> map_to_list routes) → distinct_nodes routes.
Proof.
  intros Hnd i j r r' Hi Hj E. apply elem_of_map_to_list in Hi, Hj.
  apply list_elem_of_lookup_1 in Hi as [k Hi], Hj as [k' Hj].
  assert (k = k') as ->; [|congruence].
  eapply NoDup_lookup; [done | |]; rewrite list_lookup_fmap; [by rewrite Hi|]. rewrite Hj. cbn. by rewrite E.
Qed.

Definition box_id : list byte := lit "box".
Definition box_record (serial : Z) (psecret : string) : ERoute :=
  mkERoute box_id (Card_as_bytes (Card_sign demo_peer_key 5 500 serial [Hint_relay (lit "wss://relay.example")]))
    (bytes_of (pad_array 32 (lit psecret))) serial 10.

Definition demo_engine_config : EngineConfig :=
  mkEngineConfig (bytes_of (pad_array 32 (lit "phone seed"))) [lit "wss://relay.example"] true [box_record 3 "first"].

Lemma demo_urls_fit : urls_fit demo_engine_config.
Proof. repeat constructor; vm_compute; lia. Qed.

Definition engine_or (r : exec (result EngineError Engine)) : Engine :=
  match r with Ret (Ok e) => e | _ => mkEngine demo_endpoint ∅ false ∅ false None ∅ 0 1 ∅ 0 end.
Definition demo_start : exec (result EngineError Engine) :=
  Engine_start false demo_engine_config (Some demo_udp) true 7 (pad_array 16 []).
Definition demo_engine : Engine := engine_or demo_start.

Lemma engine_or_spec r : (match r with Ret (Ok _) => true | _ => false end) = true → r = Ret (Ok (engine_or r)).
Proof. by destruct r as [[|]|]. Qed.

Lemma demo_started : Engine_start false demo_engine_config (Some demo_udp) true 7 (pad_array 16 []) = Ret (Ok demo_engine).
Proof. apply engine_or_spec. vm_compute. reflexivity. Qed.

#[local] Instance Ret_inj {A} : Inj (=) (=) (@Ret A).
Proof. congruence. Qed.

Definition run_or (e : Engine) (es : list NEvent) : Engine := match en_run e es with Ret e => e | Panic => e end.

Lemma run_or_spec e es : (match en_run e es with Ret _ => true | Panic => false end) = true → en_run e es = Ret (run_or e es).
Proof. unfold run_or. by destruct (en_run e es). Qed.

(** A request dials the box and its session is cached. *)
Definition demo_request : JsonRequest :=
  mkJsonRequest box_id (lit "POST") (lit "/vmls/v1/fetch") (lit "Nostr YQ==") (lit "{}").
Definition demo_dial : list NEvent :=
  [ NRequest demo_request (λ _, false) 0; NReady 0 (Ok (lit "wss://relay.example")); NDialled 0 (demo_in true) demo_done ].
Definition demo_dialled : Engine := run_or demo_engine demo_dial.

Lemma demo_dialled_run : en_run demo_engine demo_dial = Ret demo_dialled.
Proof. apply run_or_spec. vm_compute. reflexivity. Qed.

Definition box_route (e : Engine) : RouteState :=
  default (mkRouteState demo_peer 0 demo_card None) (en_routes e !! box_id).

Lemma box_route_spec e : (match en_routes e !! box_id with Some _ => true | None => false end) = true →
  en_routes e !! box_id = Some (box_route e).
Proof. unfold box_route. by destruct (en_routes e !! box_id). Qed.

Lemma demo_box :
  en_routes demo_dialled !! box_id = Some (box_route demo_dialled) ∧ rt_session (box_route demo_dialled) = Some 0 ∧
  rt_node (box_route demo_dialled) = demo_peer.
Proof.
  split; [apply box_route_spec; vm_compute; reflexivity|]. split; [vm_compute; reflexivity|].
  apply (bool_decide_eq_true_1 (rt_node (box_route demo_dialled) = demo_peer)). vm_compute. reflexivity.
Qed.

Lemma route_sessions_pinned_witness :
  rt_session (box_route demo_dialled) = Some 0 ∧
  ∀ l, ep_live (en_endpoint demo_dialled) !! 0 = Some l → s_peer (lv_sess l) = demo_peer ∧ authenticated demo_peer (lv_conn l).
Proof.
  destruct (route_sessions_pinned _ _ _ _ _ _ _ demo_urls_fit demo_started demo_dial) as (e & Hr & H).
  assert (e = demo_dialled) as -> by (pose proof demo_dialled_run; congruence).
  destruct demo_box as (Hb & Hs & Hn).
  split; [exact Hs|]. intros l Hl. destruct (H _ _ Hb) as (_ & _ & _ & _ & Hlive). destruct (Hlive _ _ Hs Hl) as (H1 & _ & H2).
  rewrite Hn in H1, H2. split; assumption.
Defined.

(** The next request goes on with the cached session. *)
Lemma demo_reuse :
  ∃ e' route node, request_json_reserved demo_dialled demo_request None (λ _, false) 0 = (e', Ok (POST, route, Ready 0 node)).
Proof.
  assert (H : (match snd (request_json_reserved demo_dialled demo_request None (λ _, false) 0) with
               | Ok (POST, _, Ready 0 _) => true | _ => false end) = true) by (vm_compute; reflexivity).
  destruct (request_json_reserved _ _ _ _ _) as [e' [[[[] route] [[] node|]]|]]; try discriminate H. eauto.
Qed.

Lemma request_end_to_end_witness :
  ∃ route, admitted POST (lit "/vmls/v1/fetch") route ∧ settled (en_endpoint demo_dialled) 0 demo_peer true.
Proof.
  destruct demo_reuse as (e' & route & node & Hreq).
  destruct (request_end_to_end _ _ _ _ _ _ _ demo_urls_fit demo_started demo_dial demo_dialled demo_request None (λ _, false) 0 _ _ _ _
    demo_dialled_run Hreq) as (H1 & _ & r & Hr & (_ & _ & Hs) & _).
  destruct demo_box as (Hb & _ & Hn). exists route. split; [exact H1|].
  assert (E : box_route demo_dialled = r) by exact (inj Some _ _ (eq_trans (eq_sym Hb) Hr)). rewrite <- E, Hn in Hs. exact Hs.
Defined.

(** The box's record is replaced by one of a higher serial. *)
Definition demo_upsert : list NEvent := [NUpsert (box_record 4 "second")].
Definition demo_upserted : Engine := run_or demo_engine demo_upsert.

Lemma demo_upserted_run : en_run demo_engine demo_upsert = Ret demo_upserted.
Proof. apply run_or_spec. vm_compute. reflexivity. Qed.

Lemma demo_always (P : Engine → Prop) : P demo_engine → P demo_upserted → always P demo_engine demo_upsert.
Proof.
  intros H0 H1 n e. destruct n as [|n].
  - change (take 0 demo_upsert) with ([] : list NEvent). cbn [en_run]. intros E. rewrite <- (inj Ret _ _ E). exact H0.
  - replace (take (S n) demo_upsert) with demo_upsert by (by destruct n). rewrite demo_upserted_run. intros E. rewrite <- (inj Ret _ _ E). exact H1.
Qed.

Lemma demo_distinct : always (λ e, distinct_nodes (en_routes e)) demo_engine demo_upsert.
Proof.
  apply demo_always; apply distinct_decide.
  - apply (bool_decide_eq_true_1 (NoDup (rt_node ∘ snd <$> map_to_list (en_routes demo_engine)))). vm_compute. reflexivity.
  - apply (bool_decide_eq_true_1 (NoDup (rt_node ∘ snd <$> map_to_list (en_routes demo_upserted)))). vm_compute. reflexivity.
Qed.

Definition demo_records : gmap (list byte) ERoute := host_run (store_of (eg_routes demo_engine_config) ∅) demo_engine demo_upsert.

Lemma host_records_agree_witness : ∃ m, paired_of (en_endpoint demo_upserted) = Some m ∧ mirrors true (en_routes demo_upserted) m demo_records.
Proof.
  destruct (host_records_agree _ _ _ _ _ _ _ demo_urls_fit demo_started demo_upsert) as (e & m & Hr & Hm & _ & H).
  assert (e = demo_upserted) as -> by (pose proof demo_upserted_run; congruence).
  exists m. split; [exact Hm | exact (H demo_distinct)].
Defined.

Lemma restart_restores_witness :
  ∃ e2, Engine_start false (mkEngineConfig (eg_transport_seed demo_engine_config) [] false ((map_to_list demo_records).*2))
          (Some demo_udp) true 99 (pad_array 16 []) = Ret (Ok e2) ∧
        paired_of (en_endpoint e2) = paired_of (en_endpoint demo_upserted).
Proof.
  destruct (restart_restores _ _ _ _ _ _ _ demo_urls_fit demo_started demo_upsert demo_upserted ((map_to_list demo_records).*2)
    (eg_transport_seed demo_engine_config) [] false demo_udp 99 (pad_array 16 []) demo_distinct demo_upserted_run
    (reflexivity _) (bytes_of_length _) (Forall_nil_2 _)) as (e2 & H1 & _ & H2).
  exists e2. split; [exact H1 | exact H2].
Defined.

Lemma demo_box_upserted :
  en_routes demo_engine !! box_id = Some (box_route demo_engine) ∧ en_routes demo_upserted !! box_id = Some (box_route demo_upserted).
Proof. split; apply box_route_spec; vm_compute; reflexivity. Qed.

Lemma route_serials_rise_witness : rt_serial (box_route demo_engine) <= rt_serial (box_route demo_upserted).
Proof.
  destruct demo_box_upserted as [H0 H1].
  assert (Ha : always (λ e, is_Some (en_routes e !! box_id)) demo_engine demo_upsert) by (apply demo_always; eauto).
  exact (proj1 (route_serials_rise _ _ _ _ _ _ _ demo_urls_fit demo_started [] demo_engine demo_upsert demo_upserted box_id _ _
    eq_refl demo_upserted_run Ha H0 H1)).
Defined.

Definition demo_stop : list NEvent := [NStop; NStopLocked].
Definition demo_stopped : Engine := run_or demo_engine demo_stop.

Lemma demo_stopped_run : en_run demo_engine demo_stop = Ret demo_stopped ∧ en_stopped demo_stopped = true.
Proof. split; [apply run_or_spec|]; vm_compute; reflexivity. Qed.

Definition demo_late : Engine := run_or (wipe_locked demo_stopped) demo_upsert.
Lemma demo_late_run : en_run (wipe_locked demo_stopped) demo_upsert = Ret demo_late.
Proof. apply run_or_spec. vm_compute. reflexivity. Qed.

Lemma wipe_is_final_witness : en_routes demo_late = ∅ ∧ paired_of (en_endpoint demo_late) = Some ∅.
Proof.
  destruct (wipe_is_final _ _ _ _ _ _ _ demo_urls_fit demo_started demo_stop demo_stopped demo_upsert demo_late
    (proj1 demo_stopped_run) (proj2 demo_stopped_run) demo_late_run) as (H1 & H2 & _).
  split; [exact H1 | exact H2].
Defined.

Lemma one_file_request_witness : (en_permits demo_engine + size (en_guards demo_engine) = 1)%nat.
Proof. exact (proj1 (one_file_request _ _ _ _ _ _ _ demo_started [] demo_engine eq_refl)). Defined.

(** ** Two routes with one node

    Removing one of two routes to a node takes the secret of both. *)
Definition twin_record : ERoute :=
  mkERoute (lit "twin") (er_card (box_record 3 "first")) (bytes_of (pad_array 32 (lit "twin"))) 3 10.

Definition demo_twins : Engine := run_or demo_engine [NUpsert twin_record; NRemove (lit "twin")].

Lemma twin_loses_secret : is_Some (en_routes demo_twins !! box_id) ∧ paired_of (en_endpoint demo_twins) = Some ∅.
Proof.
  split; [apply (bool_decide_eq_true_1 (is_Some (en_routes demo_twins !! box_id)))|]; vm_compute; reflexivity.
Qed.

(** A cached session that has closed is used again by [delete_route], where a
    request dials. *)
Definition demo_closed : Engine := run_or demo_dialled [NClosed 0].

Lemma delete_reuses_closed :
  bool_decide (0 ∈ en_closed demo_closed) = true ∧
  (match snd (retire_route demo_closed box_id 0) with Ok (mkDeletion (Ready s _) _ _) => Some s | _ => None end) = Some 0 ∧
  (match snd (request_json_reserved demo_closed demo_request None (λ _, false) 0) with Ok (_, _, Dials) => true | _ => false end) = true.
Proof. split_and!; vm_compute; reflexivity. Qed.

(** A request that times out while it dials leaves its slot taken. *)
Lemma timeout_strands_slot :
  let e := run_or demo_engine [NRequest demo_request (λ _, false) 0; NTimeout] in
  in_sessions (p_inner (ep_paths (en_endpoint e))) !! demo_peer = Some 0 ∧ ep_flights (en_endpoint e) = ∅ ∧
  ep_live (en_endpoint e) = ∅.
Proof. split_and!; vm_compute; reflexivity. Qed.
