(* ===== verification/RelayServer.v ===== *)
(** * RelayServer: the relay process ([link-relay/src/lib.rs], [main.rs])

    [start], [RelayHandle], the certificate the relay presents, what the binary
    prints, and [shutdown] as steps of the process: the accept loop, the
    reflector's loop and every session watch one stop flag.  The sessions are the
    transition system of [Relay]. *)

From S2P Require Import Prelude Net Id Rendezvous Wire Tls Relay TagBook RelayClient RelayTls.

Open Scope Z_scope.

(** [rcgen]: a self-signed leaf for some names, and its key, both DER; [None] is
    an error.  [tls_accepts] is whether rustls takes the pair. *)
Class Rcgen : Type := {
  rcgen_self_signed : list (list byte) → option (list byte * list byte);
  tls_accepts : list byte → list byte → bool;
}.

Record TlsMaterial : Type := mkTlsMaterial { tm_cert_der : list byte; tm_key_der : list byte }.

(** The whole of [RelayConfig]: the addresses, the certificate, and the part the
    sessions read. *)
Record ServerConfig : Type := mkServerConfig {
  sc_ws_bind : SocketAddr;
  sc_udp_bind : SocketAddr;
  sc_tls : option TlsMaterial;
  sc_relay : RelayConfig;
}.

Definition loopback_any : SocketAddr := mkSocketAddr (V4 (pad_array 4 [Byte.x7f; Byte.x00; Byte.x00; Byte.x01])) 0.
Definition ServerConfig_default : ServerConfig := mkServerConfig loopback_any loopback_any None RelayConfig_default.

Record RelayHandle : Type := mkHandle {
  rh_ws_addr : SocketAddr;
  rh_udp_addr : SocketAddr;
  rh_tls_fingerprint : option (list byte);
}.

Inductive StartError : Type := CertificateFailed | WsBindFailed | UdpBindFailed | AcceptorFailed.

Definition hex_lower (bytes : list byte) : list byte := hex_text bytes.

(** [RelayHandle::url]. *)
Definition handle_url (h : RelayHandle) (host : list byte) : list byte :=
  let scheme := if bool_decide (is_Some (rh_tls_fingerprint h)) then lit "wss" else lit "ws" in
  scheme ++ lit "://" ++ host ++ lit ":" ++ print_num (sa_port (rh_ws_addr h)) ++ lit "/link".

Section server.
Context `{C : Crypto, G : Rcgen}.

Definition self_signed (hosts : list (list byte)) : result StartError TlsMaterial :=
  let names := if bool_decide (hosts = []) then [lit "localhost"] else hosts in
  match rcgen_self_signed names with
  | Some (cert, key) => Ok (mkTlsMaterial cert key)
  | None => Err CertificateFailed
  end.

Definition fingerprint (t : TlsMaterial) : list byte := hex_lower (bytes_of (sha256 (tm_cert_der t))).

Definition build_acceptor (t : TlsMaterial) : result StartError unit :=
  if tls_accepts (tm_cert_der t) (tm_key_der t) then Ok tt else Err AcceptorFailed.

(** [start]: [ws] and [udp] are the addresses the sockets bound, if they did. *)
Definition start (config : ServerConfig) (ws udp : option SocketAddr) : result StartError RelayHandle :=
  ws_addr ← ok_or WsBindFailed ws;
  udp_addr ← ok_or UdpBindFailed udp;
  _ ← match sc_tls config with Some material => build_acceptor material | None => Ok tt end;
  Ok (mkHandle ws_addr udp_addr (fingerprint <$> sc_tls config)).

(** ** The binary *)

Record Args : Type := mkArgs {
  ar_ws_bind : SocketAddr;
  ar_udp_bind : SocketAddr;
  ar_hosts : list (list byte);
  ar_insecure_ws : bool;
  ar_bytes_per_second : Z;
  ar_max_sessions : nat;
  ar_sessions_per_source : nat;
  ar_reflector_per_second : f64;
}.

Definition args_config (a : Args) : result StartError ServerConfig :=
  tls ← (if ar_insecure_ws a then Ok None else t ← self_signed (ar_hosts a); Ok (Some t));
  Ok (mkServerConfig (ar_ws_bind a) (ar_udp_bind a) tls
        (mkRelayConfig (ar_hosts a) (ar_bytes_per_second a) (ar_max_sessions a) (ar_sessions_per_source a)
           (ar_reflector_per_second a))).

(** The three lines printed: the URL, the reflector, the fingerprint if any. *)
Record Printed : Type := mkPrinted {
  pt_relay_url : list byte;
  pt_reflector : SocketAddr;
  pt_tls_sha256 : option (list byte);
}.

Definition relay_main (a : Args) (ws udp : option SocketAddr) :
    result StartError (ServerConfig * RelayHandle * Printed) :=
  config ← args_config a;
  handle ← start config ws udp;
  let host := default (lit "127.0.0.1") (head (ar_hosts a)) in
  Ok (config, handle, mkPrinted (handle_url handle host) (rh_udp_addr handle) (rh_tls_fingerprint handle)).

End server.

(** ** The running process *)

(** [sv_accepting] and [sv_reflecting] are whether the two loops still run. *)
Record Server : Type := mkServer {
  sv_stop : bool;
  sv_accepting : bool;
  sv_reflecting : bool;
  sv_limiter : SourceLimiter;
  sv_relay : Relay;
}.

Definition sv_set_relay (s : Server) (r : Relay) : Server :=
  mkServer (sv_stop s) (sv_accepting s) (sv_reflecting s) (sv_limiter s) r.

Definition Server_start (config : ServerConfig) : Server :=
  mkServer false true true (SourceLimiter_new (cfg_reflector_per_second (sc_relay config))) Relay_init.

Definition shutdown (s : Server) : Server :=
  mkServer true (sv_accepting s) (sv_reflecting s) (sv_limiter s) (sv_relay s).

Inductive SLabel : Type :=
  | SShutdown
  | SAcceptStop
  | SRefused (ip : IpAddr)
  | SReflectStop
  | SDatagram (from : SocketAddr) (sent : option (list byte))
  | SSession (l : Label).

(** What a label of the sessions needs of the process: a connection needs the
    accept loop, and the stop branch of a session the stop flag. *)
Definition sv_allows (s : Server) (l : Label) : bool :=
  match l with
  | LAccept _ _ => sv_accepting s
  | LEvent _ EvStop => sv_stop s
  | _ => true
  end.

Section process.
Context `{C : Crypto}.
Context (config : ServerConfig).

(** A [select!] takes either branch that is ready, so a loop may still serve
    after the flag is set and before it sees it. *)
Inductive sv_step : Server → SLabel → Server → Prop :=
  | sv_shutdown s : sv_step s SShutdown (shutdown s)
  | sv_accept_stop s :
      sv_stop s = true → sv_accepting s = true →
      sv_step s SAcceptStop (mkServer (sv_stop s) false (sv_reflecting s) (sv_limiter s) (sv_relay s))
  | sv_refused s ip :
      sv_accepting s = true → accept (sc_relay config) (r_reg (sv_relay s)) ip = None →
      sv_step s (SRefused ip) s
  | sv_reflect_stop s :
      sv_stop s = true → sv_reflecting s = true →
      sv_step s SReflectStop (mkServer (sv_stop s) (sv_accepting s) false (sv_limiter s) (sv_relay s))
  | sv_datagram s datagram from now0 now sent limiter :
      sv_reflecting s = true → reflector_step (sv_limiter s) datagram from now0 now = Ret (sent, limiter) →
      sv_step s (SDatagram from sent) (mkServer (sv_stop s) (sv_accepting s) (sv_reflecting s) limiter (sv_relay s))
  | sv_session s l r' :
      sv_allows s l = true → step (sc_relay config) (sv_relay s) l r' →
      sv_step s (SSession l) (sv_set_relay s r').

Inductive sv_reach : list SLabel → Server → Prop :=
  | sv_reach_start : sv_reach [] (Server_start config)
  | sv_reach_step tr s l s' : sv_reach tr s → sv_step s l s' → sv_reach (tr ++ [l]) s'.

(** The steps of the sessions. *)
Definition session_label (l : SLabel) : option Label := match l with SSession l => Some l | _ => None end.
Definition sessions_of (tr : list SLabel) : list Label := omap session_label tr.

(** The process refines the relay: it takes the relay's steps and no others. *)
Lemma sv_reach_relay tr s : sv_reach tr s → reach (sc_relay config) (sessions_of tr) (sv_relay s).
Proof.
  induction 1 as [|tr s l s' _ IH St]; [constructor|]. unfold sessions_of in *. rewrite omap_app.
  destruct St; cbn; rewrite ?app_nil_r; try exact IH. by eapply reach_step.
Qed.

(** Once its loop has ended, the process accepts nothing, whatever follows. *)
Lemma sv_stopped_step s l s' :
  sv_step s l s' → sv_accepting s = false →
  sv_accepting s' = false ∧ (∀ k ip, l ≠ SSession (LAccept k ip)) ∧ dom (r_conns (sv_relay s')) ⊆ dom (r_conns (sv_relay s)).
Proof.
  intros St Ha. destruct St as [| | | | |s l r' Hal St]; cbn in *; try (by split_and!); try congruence.
  split; [done|]. split; [intros k ip [= ->]; cbn in Hal; congruence|].
  destruct St; cbn in *; try congruence; intros j Hj; rewrite ?dom_insert, ?dom_delete in Hj;
    match goal with E : r_conns _ !! _ = Some _ |- _ => apply elem_of_dom_2 in E end; set_solver.
Qed.

(** Replay steps that close connections on a process told to stop. *)
Lemma sv_closing tr s tr' r' :
  sv_reach tr s → sv_stop s = true → closing (sc_relay config) (sv_relay s) tr' r' →
  sv_reach (tr ++ (SSession <$> tr')) (sv_set_relay s r').
Proof.
  intros H Hs Hc. remember (sv_relay s) as r eqn:Er. revert tr s H Hs Er.
  induction Hc as [r|r l r1 tr' r2 St Hl _ IH]; intros tr s H Hs ->.
  - rewrite app_nil_r. by destruct s.
  - cbn [fmap list_fmap]. change (SSession l :: (SSession <$> tr')) with ([SSession l] ++ (SSession <$> tr')).
    rewrite app_assoc. apply (IH (tr ++ [SSession l]) (sv_set_relay s r1)); [|done..].
    eapply sv_reach_step; [done|]. apply sv_session; [|done].
    destruct l as [k ip| |k []| | |]; try done. by destruct (Hl k ip).
Qed.

(** Nothing can happen any more, but for another shutdown. *)
Definition quiescent (s : Server) : Prop := ∀ l s', sv_step s l s' → l = SShutdown ∧ s' = s.

Lemma empty_quiescent s :
  sv_stop s = true → sv_accepting s = false → sv_reflecting s = false → r_conns (sv_relay s) = ∅ → quiescent s.
Proof.
  intros H1 H2 H3 H4 l s' St. destruct St as [s| | | | |s l r' Hal St]; try congruence.
  - split; [done|]. unfold shutdown. destruct s. cbn in *. by subst.
  - destruct St; cbn in Hal; rewrite ?H4, ?lookup_empty in *; congruence.
Qed.

(** C16: the relay stops.  Whatever the process has done, after [shutdown] it
    can run to a state in which both loops have ended, no connection, session,
    tag, counter or queue is left, and nothing can happen any more; and from
    the moment the accept loop has seen the flag no connection is accepted. *)
Theorem shutdown_drains tr s (H : sv_reach tr s) :
  (∃ tr' s', sv_reach (tr ++ SShutdown :: tr') s' ∧ quiescent s' ∧ sv_accepting s' = false ∧ sv_reflecting s' = false ∧
     r_conns (sv_relay s') = ∅ ∧ r_reg (sv_relay s') = Registry_default ∧ r_chans (sv_relay s') = ∅) ∧
  (sv_accepting s = false → ∀ l s', sv_step s l s' →
     sv_accepting s' = false ∧ dom (r_conns (sv_relay s')) ⊆ dom (r_conns (sv_relay s))).
Proof.
  split; [|intros Ha l s' St; by destruct (sv_stopped_step _ _ _ St Ha) as (? & _ & ?)].
  assert (H1 : sv_reach (tr ++ [SShutdown]) (shutdown s)) by (eapply sv_reach_step; [done|constructor]).
  destruct (drain_all _ _ _ (sv_reach_relay _ _ H1)) as (tr' & r' & Hc & Er).
  pose proof (sv_closing _ _ _ _ H1 eq_refl Hc) as H2. set (s2 := sv_set_relay (shutdown s) r') in *.
  assert (H3 : ∃ tr3 s3, sv_reach ((tr ++ [SShutdown]) ++ tr3) s3 ∧ sv_stop s3 = true ∧ sv_accepting s3 = false ∧
                 sv_reflecting s3 = sv_reflecting s2 ∧ sv_relay s3 = r').
  { destruct (sv_accepting s2) eqn:Ha; [|by eexists _, s2].
    eexists ((SSession <$> tr') ++ [SAcceptStop]), _. rewrite app_assoc. split; [eapply sv_reach_step; [exact H2|by apply sv_accept_stop]|done]. }
  destruct H3 as (tr3 & s3 & H3 & Hs & Ha & _ & Hr).
  assert (H4 : ∃ tr4 s4, sv_reach ((tr ++ [SShutdown]) ++ tr4) s4 ∧ sv_stop s4 = true ∧ sv_accepting s4 = false ∧
                 sv_reflecting s4 = false ∧ sv_relay s4 = r').
  { destruct (sv_reflecting s3) eqn:Hf; [|by eexists _, s3].
    eexists (tr3 ++ [SReflectStop]), _. rewrite app_assoc. split; [eapply sv_reach_step; [exact H3|by apply sv_reflect_stop]|by split_and!]. }
  destruct H4 as (tr4 & s4 & H4 & Hs4 & Ha4 & Hf4 & Hr4). exists tr4, s4. rewrite <- app_assoc in H4.
  destruct (no_conns_empty _ _ _ (reach_inv _ _ _ (sv_reach_relay _ _ H4))) as (E1 & E2 & E3 & E4 & E5); [by rewrite Hr4|].
  split; [done|]. split; [by apply empty_quiescent; rewrite ?Hr4|]. split_and!; [done..|by rewrite Hr4| |done].
  destruct (r_reg (sv_relay s4)); cbn in *; by subst.
Qed.

End process.

(** ** What the relay prints is what a node dials *)

Section dial.
Context `{C : Crypto, G : Rcgen, T : RelayTlsLib, R : RdvCrypto, !CryptoLaws C}.
Context `{!HashIter NodeId RendezvousPeer, !HashIter NodeId PairingRoute, !HashIter NodeId (array 32)}.

(** The spec a node is given: the printed URL, pinned to the printed fingerprint
    where there is one. *)
Definition printed_spec (p : Printed) : RelaySpec := mkRelaySpec (pt_relay_url p) (pt_tls_sha256 p) false.

(** A host as the configuration documents it: lower case, and one a URL can name. *)
Record host_ok (host : list byte) : Prop := {
  ho_canonical : canonical_host host = true;
  ho_lower : to_ascii_lowercase <$> host = host;
  ho_chars : forallb url_char host = true;
  ho_slash : ch "/" ∉ host;
}.

(** A fingerprint has no upper case letters. *)
Lemma fingerprint_lower (t : TlsMaterial) : to_ascii_lowercase <$> fingerprint t = fingerprint t.
Proof.
  unfold fingerprint, hex_lower. generalize (bytes_of (sha256 (tm_cert_der t))) as l.
  induction l as [|b l IH]; [done|]. unfold hex_text in *. rewrite bind_cons, fmap_app, IH. f_equal. by destruct b.
Qed.

(** What [relay_main] prints, in terms of its configuration. *)
Lemma relay_main_inv a ws udp config handle p :
  relay_main a ws udp = Ok (config, handle, p) →
  ∃ addr, ws = Some addr ∧ cfg_hosts (sc_relay config) = ar_hosts a ∧
    pt_tls_sha256 p = fingerprint <$> sc_tls config ∧ (ar_insecure_ws a = true ↔ sc_tls config = None) ∧
    pt_relay_url p = (if bool_decide (is_Some (sc_tls config)) then lit "wss" else lit "ws") ++ lit "://" ++
      default (lit "127.0.0.1") (head (ar_hosts a)) ++ lit ":" ++ print_num (sa_port addr) ++ lit "/link".
Proof.
  intros (config' & Hc & (handle' & Hs & E)%result_bind_Ok)%result_bind_Ok.
  assert (Hc' : sc_relay config' = mkRelayConfig (ar_hosts a) (ar_bytes_per_second a) (ar_max_sessions a) (ar_sessions_per_source a)
                  (ar_reflector_per_second a) ∧ (ar_insecure_ws a = true ↔ sc_tls config' = None)).
  { unfold args_config in Hc. apply result_bind_Ok in Hc as (tls & Ht & [= <-]). split; [done|]. cbn [sc_tls].
    destruct (ar_insecure_ws a); [by injection Ht as <-|]. apply result_bind_Ok in Ht as (t & _ & [= <-]). done. }
  apply result_bind_Ok in Hs as (addr & Ha & (u & _ & (x & _ & [= <-])%result_bind_Ok)%result_bind_Ok).
  destruct ws as [ws|]; [|done]. injection Ha as ->. injection E as <- _ <-. exists addr.
  destruct Hc' as [-> Ht]. split; [done|]. split; [done|]. split; [done|]. split; [done|]. cbn [pt_relay_url]. unfold handle_url.
  cbn [rh_tls_fingerprint rh_ws_addr]. f_equal. by destruct (sc_tls config').
Qed.

(** What the relay prints is what a node dials.  Given the printed URL and
    fingerprint, a node parses the relay's scheme, its first host, its port and
    the link path out of the URL; over TLS it accepts exactly certificates with
    the digest of the one the relay presents, that one included; and the answer
    it signs to the relay's challenge is accepted, registering it under its own
    node ID. *)
Theorem printed_relay_dials a ws udp config handle p host rest key r n challenge reg chans sid
  (Hm : relay_main a ws udp = Ok (config, handle, p))
  (Hh : ar_hosts a = host :: rest) (Hok : host_ok host) (Hp : ∀ addr, ws = Some addr → u16 (sa_port addr))
  (Hk : TransportKey_wf key) (Hr : r_book r = None)
  (Hn : n = mkDial true (Some (Challenge challenge)) (dl_unix n) true (dl_reply n) (dl_pumped n)) :
  let spec := printed_spec p in
  (∃ addr, ws = Some addr ∧ RelaySpec_parts spec =
     Some (mkUrlParts (negb (ar_insecure_ws a)) host (sa_port addr) (lit "/link"))) ∧
  (∀ material leaf, sc_tls config = Some material →
     ∃ b, relay_accepts spec host leaf = Ret b ∧ (b = true ↔ sha256 leaf = sha256 (tm_cert_der material))) ∧
  ∃ frame reg' chans', (connect key spec r n).1.2 = [PFrame frame] ∧
    first_frame (sc_relay config) reg chans sid challenge (MBinary (Frame_encode frame)) =
      (reg', chans', Some (Identity (tk_node_id key))) ∧ reg_sessions reg' !! tk_node_id key = Some sid.
Proof.
  destruct (relay_main_inv _ _ _ _ _ _ Hm) as (addr & -> & Hc & Ht & Hi & Hu). rewrite Hh in Hu. cbn [head default] in Hu.
  assert (Hparts : RelaySpec_parts (printed_spec p) = Some (mkUrlParts (negb (ar_insecure_ws a)) host (sa_port addr) (lit "/link"))).
  { unfold printed_spec. rewrite Hu. destruct Hok.
    rewrite <- (print_url_parts (negb (ar_insecure_ws a)) host (sa_port addr) (lit "/link") (pt_tls_sha256 p) false) by eauto.
    do 3 f_equal. destruct (ar_insecure_ws a), (sc_tls config); cbn; try done; exfalso; naive_solver. }
  cbv zeta. split; [by exists addr|]. split.
  - intros material leaf Em. rewrite Em in Ht. unfold relay_accepts, connector, printed_spec. cbn [spec_cert_sha256 spec_insecure_tls].
    rewrite Ht. cbn. rewrite fingerprint_lower. eexists. split; [done|].
    destruct (bool_decide_reflect (hex_text (bytes_of (sha256 leaf)) = fingerprint material)) as [E|E]; cbn.
    + split; [|done]. intros _. by apply (inj bytes_of), hex_text_inj.
    + split; [done|]. intros E'. destruct E. unfold fingerprint, hex_lower. by rewrite E'.
  - unfold connect, RelaySpec_host. rewrite Hparts, Hn, Hr. cbn.
    eexists _, _, _. split; [done|]. unfold first_frame, decode_binary. rewrite decode_encode by done. cbn [run_opt].
    rewrite Hc, Hh. cbn [existsb]. rewrite relay_auth_roundtrip by done. cbn. split; [done|]. apply lookup_insert_eq.
Qed.

End dial.

(** ** A concrete relay *)

#[local] Existing Instances toy_crypto toy_rdv toy_crypto_laws.

Definition toy_rcgen : Rcgen := {|
  rcgen_self_signed names := Some (lit "leaf for " ++ concat names, lit "key");
  tls_accepts _ _ := true;
|}.
Definition toy_relay_tls : RelayTlsLib := {|
  webpki_accepts _ _ := false;
  tls12_verify _ _ _ := true;
  tls13_verify _ _ _ := true;
  provider_schemes := [];
|}.

#[local] Existing Instances toy_rcgen toy_relay_tls.
#[local] Instance rs_peers_order : HashIter NodeId RendezvousPeer := map_order _ _.
#[local] Instance rs_pairing_order : HashIter NodeId PairingRoute := map_order _ _.
#[local] Instance rs_paired_order : HashIter NodeId (array 32) := map_order _ _.

Definition rs_host : list byte := lit "relay.example".
Definition rs_args : Args := mkArgs loopback_any loopback_any [rs_host] false 0 1024 16 (f64_of_Z 20).
Definition rs_bound : SocketAddr := mkSocketAddr (sa_ip loopback_any) 8443.
Definition rs_key : TransportKey := TransportKey_from_seed (pad_array 32 (lit "node")).

Lemma rs_host_ok : host_ok rs_host.
Proof. by split; vm_compute; [..|intros H; repeat (apply elem_of_cons in H as [H|H]; [done|]); apply elem_of_nil in H]. Qed.

Definition rs_run : Run :=
  mkRun (mkDriver 0 [] [] true Connecting [] None RelayActivity_default false) None [] 0 BACKOFF_MIN None Dialling.

Lemma printed_relay_dials_witness :
  ∃ config handle p frame reg' chans',
    relay_main rs_args (Some rs_bound) (Some rs_bound) = Ok (config, handle, p) ∧
    RelaySpec_parts (printed_spec p) = Some (mkUrlParts true rs_host 8443 (lit "/link")) ∧
    first_frame (sc_relay config) Registry_default ∅ 1 (pad_array 32 []) (MBinary (Frame_encode frame)) =
      (reg', chans', Some (Identity (tk_node_id rs_key))).
Proof.
  destruct (relay_main rs_args (Some rs_bound) (Some rs_bound)) as [[[config handle] p]|] eqn:E; [|discriminate E].
  exists config, handle, p.
  destruct (printed_relay_dials rs_args (Some rs_bound) (Some rs_bound) config handle p rs_host [] rs_key rs_run
    (mkDial true (Some (Challenge (pad_array 32 []))) 0 true None 0) (pad_array 32 []) Registry_default ∅ 1 E eq_refl rs_host_ok)
    as ((addr & [= <-] & H1) & _ & frame & reg' & chans' & _ & H2 & _).
  - intros addr [= <-]. clear. unfold u16. cbn. lia.
  - reflexivity.
  - reflexivity.
  - reflexivity.
  - exists frame, reg', chans'. exact (conj eq_refl (conj H1 H2)).
Defined.

Definition rs_config : ServerConfig := mkServerConfig loopback_any loopback_any None RelayConfig_default.

(** A process with one connection that has not spoken yet. *)
Lemma rs_accepted : ∃ s, sv_reach rs_config [SSession (LAccept 0 (sa_ip rs_bound))] s.
Proof.
  destruct (accept (sc_relay rs_config) (r_reg Relay_init) (sa_ip rs_bound)) as [reg'|] eqn:E; [|discriminate E].
  eexists. eapply (sv_reach_step rs_config []); [constructor|].
  apply sv_session; [done|]. by apply (step_accept _ _ 0 _ (pad_array 32 []) reg').
Qed.

Lemma shutdown_drains_witness :
  ∃ tr s, sv_reach rs_config tr s ∧ SSession (LAccept 0 (sa_ip rs_bound)) ∈ tr ∧ quiescent rs_config s.
Proof.
  destruct rs_accepted as [s Hs]. destruct (shutdown_drains rs_config _ _ Hs) as [(tr' & s' & H & Hq & _) _].
  exists ([SSession (LAccept 0 (sa_ip rs_bound))] ++ SShutdown :: tr'), s'.
  split; [exact H|]. split; [by left|exact Hq].
Defined.
