(* ===== verification/RelayTyping.v ===== *)
(** * RelayTyping: what a relay session is sent ([link-relay/src/lib.rs])

    A session speaks one of two languages: it is named by a node and receives
    [Recv] frames, or by tags and receives [RecvTag] frames.  The registry keeps
    the two apart only by how targets are looked up, and a target is offered its
    frame after the lock was released.  Here every frame that is queued, or still
    on its way to a queue, is typed by the mode of the session it is for, and the
    typing is kept by every step.  A type may also say which datagrams of which
    source a node may be given; it is then kept as long as the frames that sessions
    send respect it. *)

From S2P Require Import Prelude Net Id Rendezvous Card Wire Relay Paths TagBook RelayClient.

Open Scope Z_scope.

Inductive Lang : Type := ByNode (n : NodeId) | ByTag.
Definition lang (m : Mode) : Lang := match m with Identity n => ByNode n | Tags _ => ByTag end.

(** Which datagram of which source a node may be given. *)
Abbreviation Policy := (NodeId → NodeId → list byte → Prop).
Definition anything : Policy := λ _ _ _, True.

(** A frame the relay may write to a session of that language. *)
Definition frame_for (may : Policy) (k : Lang) (f : Frame) : Prop :=
  Frame_wf f ∧
  match f, k with
  | Recv source datagram, ByNode n => may source n datagram
  | RecvTag _ _, ByTag | Pong _, _ | Close _, _ => True
  | _, _ => False
  end.

Lemma superseded_for may k : frame_for may k superseded.
Proof. split; [|by destruct k]. unfold superseded, CLOSE_REASON_SUPERSEDED. cbn. unfold u16. lia. Qed.

(** ** What a registration does to the queues *)

(** Every queue there is now was there before, with only notices added. *)
Definition noticed (chans chans' : Chans) : Prop :=
  ∀ c q', chans' !! c = Some q' → ∃ q, chans !! c = Some q ∧ ∀ f, f ∈ q' → f ∈ q ∨ f = superseded.

#[export] Instance noticed_preorder : PreOrder noticed.
Proof.
  split; [intros x c q H; eauto|]. intros x y z H1 H2 c q H. apply H2 in H as (q1 & H & Hf1).
  apply H1 in H as (q2 & H & Hf2). exists q2. split; [done|]. intros f Hf. apply Hf1 in Hf as [Hf| ->]; [by apply Hf2 | by right].
Qed.

Lemma try_send_lookup chans c f chans' d q' :
  try_send chans c f = Some chans' → chans' !! d = Some q' →
  ∃ q, chans !! d = Some q ∧ ∀ g, g ∈ q' → g ∈ q ∨ (g = f ∧ d = c).
Proof.
  unfold try_send. destruct (chans !! c) as [q|] eqn:E; [|done]. split_if; [|done]. intros [= <-].
  rewrite lookup_insert_Some. intros [[<- <-]|[_ H]]; [|by eauto]. exists q. split; [done|]. set_solver.
Qed.

Lemma notice chans c : noticed chans (try_send_ignore chans c superseded).
Proof.
  intros d q'. unfold try_send_ignore. destruct (try_send _ _ _) as [chans'|] eqn:E; cbn; [|by eauto]. intros H.
  destruct (try_send_lookup _ _ _ _ _ _ E H) as (q & Hq & Hf). exists q. split; [done|]. intros g Hg. apply Hf in Hg. naive_solver.
Qed.

Lemma evict_noticed fuel es chans : noticed chans (evict fuel es chans).2.
Proof.
  revert es chans. induction fuel as [|fuel IH]; intros es chans; [reflexivity|]. cbn [evict]. destruct (TAG_ENDS <? length es)%nat; [|reflexivity].
  destruct (oldest es) as [[i m]|]; [|reflexivity]. destruct (es !! i) as [[m' c]|]; [|reflexivity]. etrans; [apply (notice _ c)|apply IH].
Qed.

Lemma register_tags_noticed reg chans id tx current next reg' chans' :
  register_tags reg chans id tx current next = (reg', chans') → noticed chans chans'.
Proof.
  unfold register_tags. destruct (foldl (register_tag id tx) _ _) as [tags1 chans1] eqn:E. intros [= _ <-]. revert E.
  generalize (foldl (unregister_tag id) (reg_tags reg) current). intros tags. revert tags chans.
  induction next as [|t next IH]; cbn; intros tags chans E; [injection E as _ <-; done|].
  destruct (existsb _ _); [by eapply IH|]. destruct (evict _ _ _) as [es' chans2] eqn:Ev. etrans; [|by eapply IH].
  change chans2 with (es', chans2).2. rewrite <- Ev. apply evict_noticed.
Qed.

(** ** The typing *)

(** A target cloned under the lock whose frame was not offered yet. *)
Definition inflight (r : Relay) (c : chan) (f : Frame) : Prop :=
  ∃ k ip s, r_conns r !! k = Some (mkConn ip (Running s)) ∧ (c, f) ∈ s_out s.

Record typed (may : Policy) (r : Relay) : Prop := {
  ty_queue k id m q : serves (r_conns r) k id m → r_chans r !! id = Some q → Forall (frame_for may (lang m)) q;
  ty_known c f : inflight r c f → c < r_next r;
  ty_out c f k m : inflight r c f → serves (r_conns r) k c m → frame_for may (lang m) f;
}.

Section typing.
Context `{C : Crypto, R : RdvCrypto, !HashIter NodeId RendezvousPeer, !HashIter NodeId PairingRoute, !HashIter NodeId (array 32)}.
Context (cfg : RelayConfig) (may : Policy).

(** What a step may do: sessions keep their language, a new one takes the next
    number; queues lose frames, or gain notices and what was on its way to them;
    what is newly on its way is typed. *)
Record step_typed (r r' : Relay) : Prop := {
  st_next : r_next r <= r_next r';
  st_serves k id m : serves (r_conns r') k id m →
    (∃ k0 m0, serves (r_conns r) k0 id m0 ∧ lang m0 = lang m) ∨ id = r_next r ∧ r_next r < r_next r';
  st_chans c q' : r_chans r' !! c = Some q' → ∀ f, f ∈ q' →
    (∃ q, r_chans r !! c = Some q ∧ f ∈ q) ∨ f = superseded ∨ inflight r c f;
  st_out c f : inflight r' c f →
    inflight r c f ∨ c < r_next r ∧ ∀ k m, serves (r_conns r) k c m → frame_for may (lang m) f;
}.

Lemma typed_step tr r r' : relay_inv cfg tr r → typed may r → step_typed r r' → typed may r'.
Proof.
  intros Hinv [Hq Hk Ho] [Hn Hs Hc Hi]. pose proof (inv_sess _ _ _ Hinv) as Hse.
  assert (Hnew : ∀ k m, ¬ serves (r_conns r) k (r_next r) m)
    by (intros k m H; apply (inv_fresh _ _ _ _ _ _ Hse) in H; lia).
  assert (Hout : ∀ c f, inflight r' c f → c < r_next r ∧ ∀ k m, serves (r_conns r) k c m → frame_for may (lang m) f)
    by (intros c f [H|H]%Hi; [eauto | done]).
  split.
  - intros k id m q Hse' Hq'. apply Forall_forall. intros f Hf.
    destruct (Hs _ _ _ Hse') as [(k0 & m0 & H0 & <-)|[-> _]].
    + destruct (Hc _ _ Hq' _ Hf) as [(q0 & Hq0 & Hf0)|[->|H]]; [|apply superseded_for|by eauto].
      by apply (proj1 (Forall_forall _ _) (Hq _ _ _ _ H0 Hq0)).
    + destruct (Hc _ _ Hq' _ Hf) as [(q0 & Hq0 & Hf0)|[->|H]]; [|apply superseded_for|].
      * destruct (proj1 (inv_chans _ _ _ _ _ _ Hse (r_next r))) as (k0 & m0 & H0); [by apply elem_of_dom_2 in Hq0 | by apply Hnew in H0].
      * apply Hk in H. lia.
  - intros c f [H _]%Hout. lia.
  - intros c f k m [Hlt Hf]%Hout Hse'. destruct (Hs _ _ _ Hse') as [(k0 & m0 & H0 & <-)|[-> _]]; [by eauto | lia].
Qed.

(** *** The steps *)

(** A step of connection [k]: the others are untouched. *)
Lemma inflight_insert r reg chans next k ip p c f :
  inflight (mkRelay reg chans next (<[k := mkConn ip p]> (r_conns r))) c f →
  inflight r c f ∨ ∃ s, p = Running s ∧ (c, f) ∈ s_out s.
Proof.
  intros (k' & ip' & s & H & Hin). cbn in H. rewrite lookup_insert_Some in H. destruct H as [[<- [= <- ->]]|[_ H]]; [right; eauto|].
  left. by exists k', ip', s.
Qed.

Lemma inflight_at r k ip s c f : r_conns r !! k = Some (mkConn ip (Running s)) → (c, f) ∈ s_out s → inflight r c f.
Proof. intros H Hin. by exists k, ip, s. Qed.

(** Where the step keeps the sessions of [k], or drops them, the rest is about
    queues and targets. *)
Lemma step_typed_at r reg chans next k ip p :
  r_next r <= next →
  (∀ id m, active p = Some (id, m) → (∃ m0, serves (r_conns r) k id m0 ∧ lang m0 = lang m) ∨ id = r_next r ∧ r_next r < next) →
  (∀ c q', chans !! c = Some q' → ∀ f, f ∈ q' → (∃ q, r_chans r !! c = Some q ∧ f ∈ q) ∨ f = superseded ∨ inflight r c f) →
  (∀ s c f, p = Running s → (c, f) ∈ s_out s →
     inflight r c f ∨ c < r_next r ∧ ∀ k' m, serves (r_conns r) k' c m → frame_for may (lang m) f) →
  step_typed r (mkRelay reg chans next (<[k := mkConn ip p]> (r_conns r))).
Proof.
  intros Hn Ha Hc Ho. split; cbn; [done| |done|].
  - intros k' id m [[-> H]|[_ H]]%serves_insert; [|left; eauto]. destruct (Ha _ _ H) as [(m0 & ? & ?)|?]; [left; eauto | by right].
  - intros c f H. apply inflight_insert in H as [H|(s & -> & H)]; [by left|by eapply Ho].
Qed.

(** The frames a session puts on their way are of the language of their target. *)
Lemma target_sessions tr r n c :
  relay_inv cfg tr r → reg_sessions (r_reg r) !! n = Some c →
  c < r_next r ∧ ∀ k' m, serves (r_conns r) k' c m → lang m = ByNode n.
Proof.
  intros Hinv Hc. pose proof (inv_sess _ _ _ Hinv) as Hs. destruct (inv_sessions _ _ _ _ _ _ Hs _ _ Hc) as (k1 & H1).
  split; [by eapply inv_fresh|]. intros k' m H. pose proof (inv_unique _ _ _ _ _ _ Hs _ _ _ _ _ H1 H) as <-.
  by destruct (serves_fun _ _ _ _ _ _ H1 H) as [_ <-].
Qed.

Lemma target_tags tr r id t c :
  relay_inv cfg tr r → c ∈ tag_targets (r_reg r) id t →
  c < r_next r ∧ ∀ k' m, serves (r_conns r) k' c m → lang m = ByTag.
Proof.
  intros Hinv Hc. pose proof (inv_sess _ _ _ Hinv) as Hs. unfold tag_targets in Hc.
  destruct (reg_tags (r_reg r) !! t) as [es|] eqn:Et; [|by apply elem_of_nil in Hc].
  apply list_elem_of_fmap in Hc as ([i c'] & -> & He). apply list_elem_of_filter in He as [_ He]. cbn.
  assert (c' = i) as -> by (by apply (proj1 (Forall_forall _ _) (ends_chan _ (inv_tags _ _ _ _ _ _ Hs _ _ Et))) in He).
  destruct (inv_holders _ _ _ _ _ _ Hs t i) as (k1 & ts & H1 & _); [exists es; split; [done|]; by apply (list_elem_of_fmap_2 fst) in He|].
  split; [by eapply inv_fresh|]. intros k' m H. pose proof (inv_unique _ _ _ _ _ _ Hs _ _ _ _ _ H1 H) as <-.
  by destruct (serves_fun _ _ _ _ _ _ H1 H) as [_ <-].
Qed.

(** A turn: the queues shrink or gain notices, and every frame newly on its way is
    of the language of whoever has its target. *)
Definition turn_typed (r : Relay) (t : Turn) : Prop :=
  (∀ c q', t_chans t !! c = Some q' → ∀ f, f ∈ q' → (∃ q, r_chans r !! c = Some q ∧ f ∈ q) ∨ f = superseded) ∧
  (∀ c f, (c, f) ∈ s_out (t_session t) → c < r_next r ∧ ∀ k m, serves (r_conns r) k c m → frame_for may (lang m) f).

Lemma turn_still r s sent e : s_out s = [] → turn_typed r (mkTurn s (r_reg r) (r_chans r) sent e).
Proof. intros Ho. split; cbn; [eauto|]. rewrite Ho. set_solver. Qed.

Lemma on_frame_typed tr r s f now io_ok :
  relay_inv cfg tr r → Frame_wf f → s_out s = [] →
  (∀ n dst dg, s_mode s = Identity n → f = Send dst dg → may n dst dg) →
  turn_typed r (on_frame s (r_reg r) (r_chans r) f now io_ok).
Proof.
  intros Hinv Hw Ho Hmay. destruct f; cbn [on_frame]; try (by apply turn_still).
  - unfold on_send. destruct (s_mode s) as [n|ts] eqn:Em; [|by apply turn_still].
    destruct (ByteBudget_allow _ _ _) as [[] b]; cbn [negb]; [|by apply turn_still].
    destruct (reg_sessions (r_reg r) !! destination) as [c|] eqn:E; [|by apply turn_still].
    split; cbn; [eauto|]. intros c' f [= -> ->]%list_elem_of_singleton.
    destruct (target_sessions _ _ _ _ Hinv E) as [Hlt Hl]. split; [done|]. intros k m Hk. rewrite (Hl _ _ Hk).
    split; [done|]. by apply Hmay.
  - unfold on_register. destruct (s_mode s) as [n|ts]; [by apply turn_still|].
    destruct (register_tags _ _ _ _ _ _) as [reg' chans'] eqn:E. split; cbn; [|rewrite Ho; set_solver].
    intros c q' Hq f Hf. apply register_tags_noticed in E. destruct (E _ _ Hq) as (q & Hq0 & Hn).
    destruct (Hn _ Hf) as [Hf0| ->]; eauto.
  - unfold on_send_tag. destruct (s_mode s) as [n|ts]; [by apply turn_still|].
    destruct (ByteBudget_allow _ _ _) as [[] b]; cbn [negb]; [|by apply turn_still].
    case_bool_decide; [by apply turn_still|].
    split; cbn; [eauto|]. intros c' f (c & [= -> ->] & Hc)%list_elem_of_fmap.
    destruct (target_tags _ _ _ _ _ Hinv Hc) as [Hlt Hl]. split; [done|]. intros k m Hk. by rewrite (Hl _ _ Hk).
  - unfold send_or_fail. destruct io_ok; by apply turn_still.
Qed.

(** What an event asks for is allowed. *)
Definition event_allowed (s : Session) (ev : Event) : Prop :=
  ∀ n bytes now io_ok dst dg, s_mode s = Identity n → ev = EvIncoming (Some (Ok (MBinary bytes))) now io_ok →
    decode_binary (MBinary bytes) = Some (Send dst dg) → may n dst dg.

Lemma on_event_typed tr r s ev t :
  relay_inv cfg tr r → s_out s = [] → event_allowed s ev → on_event s (r_reg r) (r_chans r) ev = Some t → turn_typed r t.
Proof.
  intros Hinv Ho Hmay. destruct ev as [|now|io_ok|inc now io_ok]; cbn [on_event].
  - intros [= <-]. by apply turn_still.
  - intros [= <-]. split_if; by apply turn_still.
  - unfold on_outbound. destruct (r_chans r !! s_id s) as [[|f q]|] eqn:E; [done| |intros [= <-]; by apply turn_still].
    intros [= <-]. assert (H : ∀ sent e, turn_typed r (mkTurn (add_frame_out s) (r_reg r) (<[s_id s := q]> (r_chans r)) sent e)).
    { intros sent e. split; cbn; [|rewrite Ho; set_solver]. intros c q'. rewrite lookup_insert_Some.
      intros [[<- <-]|[_ Hq]] g Hg; left; [|by eauto]. exists (f :: q). split; [done|]. set_solver. }
    destruct io_ok; apply H.
  - intros [= <-]. unfold on_incoming. destruct inc as [[[bytes|p|p| |]|]|]; try (by apply turn_still).
    + destruct (decode_binary _) as [f|] eqn:E; [|by apply turn_still]. pose proof E as Hd. apply decode_binary_wf in E.
      eapply on_frame_typed; [done..|]. intros n dst dg Hm ->. by eapply Hmay.
    + unfold send_or_fail. destruct io_ok; by apply turn_still.
Qed.

(** The language of a session does not change in a turn. *)
Lemma on_event_lang s reg chans ev t :
  s_out s = [] → on_event s reg chans ev = Some t →
  s_id (t_session t) = s_id s ∧ lang (s_mode (t_session t)) = lang (s_mode s).
Proof.
  intros Ho H. destruct (on_event_turn _ _ _ _ _ Ho H) as [(_ & Hi & Hm & _)|(cur & next & Hm & _ & Hi & Hm' & _)].
  - by rewrite Hi, Hm.
  - by rewrite Hi, Hm, Hm'.
Qed.

Definition step_allowed (r : Relay) (l : Label) : Prop :=
  ∀ k ip s ev, l = LEvent k ev → r_conns r !! k = Some (mkConn ip (Running s)) → event_allowed s ev.

Lemma relay_step_typed tr r l r' : relay_inv cfg tr r → step_allowed r l → step cfg r l r' → step_typed r r'.
Proof.
  intros Hinv Hmay St. destruct St as [r k ip ch reg' Hk Ha|r k ip ch Hk|r k ip ch f reg' chans' Hk Hf
    |r k ip ch f reg' chans' m now io Hk Hf|r k ip s ev t Hk Ho Hev|r k ip s s' chans' Hk Hd
    |r k ip id m reg' chans' Hk Hcl|r k ip reg' Hk Hl].
  - apply step_typed_at; [done|done|eauto|done].
  - apply step_typed_at; [done|done|eauto|done].
  - apply first_frame_refused in Hf as [-> ->]. apply step_typed_at; [lia|done| |done].
    intros c q' [Hne Hq]%lookup_delete_Some f' Hf'. rewrite lookup_insert_ne in Hq by done. eauto.
  - apply step_typed_at; [lia| | |].
    + intros id m' H. right. destruct io; cbn in H; injection H as <- _; lia.
    + intros c q' Hq f' Hf'. assert (Hn : noticed (<[r_next r := []]> (r_chans r)) chans').
      { unfold first_frame in Hf. destruct (decode_binary f) as [[]|]; try done.
        - destruct (existsb _ _); [|done]. injection Hf as _ <- _. destruct (reg_sessions (r_reg r) !! node_id); [apply notice|reflexivity].
        - case_bool_decide; [done|]. destruct (register_tags _ _ _ _ _ _) as [reg1 chans1] eqn:E. injection Hf as _ <- _.
          by eapply register_tags_noticed. }
      destruct (Hn _ _ Hq) as (q & Hq0 & Hf0). destruct (Hf0 _ Hf') as [Hf1| ->]; [|by eauto].
      rewrite lookup_insert_Some in Hq0. destruct Hq0 as [[_ <-]|[_ Hq0]]; [by apply elem_of_nil in Hf1 | eauto].
    + intros s c g Hs. destruct io; [injection Hs as <-; cbn; set_solver | done].
  - destruct (on_event_typed _ _ _ _ _ Hinv Ho (Hmay _ _ _ _ eq_refl Hk) Hev) as [Hq Hout]. destruct (on_event_lang _ _ _ _ _ Ho Hev) as [Hi Hm].
    apply step_typed_at; [done| | |].
    + intros id m H. left. exists (s_mode s). rewrite (serves_at _ _ _ _ _ Hk). unfold phase_after in H.
      destruct (t_end t); cbn in H; injection H as <- <-; cbn; by rewrite Hi.
    + intros c q' H f Hf. destruct (Hq _ _ H _ Hf); eauto.
    + intros s' c f Hp Hf. right. unfold phase_after in Hp. destruct (t_end t); [done|]. injection Hp as <-. by apply Hout.
  - unfold deliver in Hd. destruct (s_out s) as [|[c f] rest] eqn:Eo; [done|].
    assert (Hin : ∀ c' f', (c', f') ∈ (c, f) :: rest → inflight r c' f')
      by (intros c' f' H; eapply inflight_at; [exact Hk | by rewrite Eo]).
    destruct (try_send (r_chans r) c f) as [chans1|] eqn:Et; injection Hd as <- <-.
    + apply step_typed_at; [done| | |].
      * intros id m H. left. exists (s_mode s). rewrite (serves_at _ _ _ _ _ Hk). cbn in *. by injection H as <- <-.
      * intros c' q' Hq g Hg. destruct (try_send_lookup _ _ _ _ _ _ Et Hq) as (q & Hq0 & Hf0).
        destruct (Hf0 _ Hg) as [Hg0|[-> ->]]; [by eauto|]. right. right. apply Hin. by left.
      * intros s0 c' f' [= <-] H. left. apply Hin. by right.
    + apply step_typed_at; [done| |by eauto|].
      * intros id m H. left. exists (s_mode s). rewrite (serves_at _ _ _ _ _ Hk). cbn in *. by injection H as <- <-.
      * intros s0 c' f' [= <-] H. left. apply Hin. by right.
  - apply step_typed_at; [done|done| |done]. intros c q' [_ Hq]%lookup_delete_Some f Hf. unfold cleanup in Hcl.
    destruct m as [n|cur]; [injection Hcl as _ <-; eauto|]. apply register_tags_noticed in Hcl.
    destruct (Hcl _ _ Hq) as (q & Hq0 & Hf0). destruct (Hf0 _ Hf) as [Hf1| ->]; eauto.
  - split; cbn; [done| | |].
    + intros k' id m (c & Hc & Ha). apply lookup_delete_Some in Hc as [_ Hc]. left. exists k', m. split; [by exists c | done].
    + eauto.
    + intros c f (k' & ip' & s & H & Hin). cbn in H. apply lookup_delete_Some in H as [_ H]. left. by eapply inflight_at.
Qed.

Lemma init_typed : typed may Relay_init.
Proof.
  split; cbn.
  - intros k id m q (c & Hc & _). by rewrite lookup_empty in Hc.
  - intros c f (k & ip & s & H & _). cbn in H. by rewrite lookup_empty in H.
  - intros c f k m (k' & ip & s & H & _). cbn in H. by rewrite lookup_empty in H.
Qed.

Lemma allowed_typed tr r l r' : reach cfg tr r → step_allowed r l → typed may r → step cfg r l r' → typed may r'.
Proof.
  intros Hr Ha Ht St. pose proof (reach_inv _ _ _ Hr) as Hinv. eapply typed_step; [done|done|]. by eapply relay_step_typed.
Qed.

(** What a turn writes: the head of its own queue, an answer to a ping, or a close. *)
Lemma on_event_sent s reg chans ev t f :
  on_event s reg chans ev = Some t → SFrame f ∈ t_sent t →
  (∃ q, chans !! s_id s = Some (f :: q)) ∨ (∃ opaque, f = Pong opaque) ∨ f = Close 0 ∨ f = Close CLOSE_REASON_MALFORMED.
Proof.
  assert (Hone : ∀ g, SFrame f ∈ [SFrame g] → f = g) by (intros g H; apply list_elem_of_singleton in H; congruence).
  destruct ev as [|now|io_ok|inc now io_ok]; cbn [on_event].
  - intros [= <-] H%Hone. tauto.
  - intros [= <-]. split_if; cbn; [intros H%Hone; tauto | set_solver].
  - unfold on_outbound. destruct (chans !! s_id s) as [[|g q]|] eqn:E; [done| |intros [= <-]; cbn; set_solver].
    intros [= <-]. destruct io_ok; cbn; [intros ->%Hone; eauto | set_solver].
  - intros [= <-]. unfold on_incoming, refuse, send_or_fail, go_on. destruct inc as [[[bytes|p|p| |]|]|]; cbn -[decode_binary on_frame]; try set_solver.
    + destruct (decode_binary _) as [g|]; cbn -[on_frame]; [|intros H%Hone; tauto].
      destruct g; cbn -[on_send on_send_tag on_register]; unfold refuse, send_or_fail, go_on; cbn; try (intros H%Hone; tauto); try set_solver.
      * unfold on_send. destruct (s_mode _); [|cbn; intros H%Hone; tauto].
        destruct (ByteBudget_allow _ _ _) as [[] b]; cbn; [destruct (_ !! _); cbn|]; set_solver.
      * unfold on_register. destruct (s_mode _); [cbn; intros H%Hone; tauto|]. destruct (register_tags _ _ _ _ _ _). cbn. set_solver.
      * unfold on_send_tag. destruct (s_mode _); [cbn; intros H%Hone; tauto|].
        destruct (ByteBudget_allow _ _ _) as [[] b]; cbn; [case_bool_decide; cbn|]; set_solver.
      * destruct io_ok; cbn; [intros ->%Hone; eauto | set_solver].
    + destruct io_ok; cbn; [|set_solver]. intros H%list_elem_of_singleton. done.
Qed.

(** The frame a turn writes is typed by its session. *)
Lemma turn_writes_typed r k ip s ev t f :
  typed may r → r_conns r !! k = Some (mkConn ip (Running s)) →
  on_event s (r_reg r) (r_chans r) ev = Some t → SFrame f ∈ t_sent t → frame_for may (lang (s_mode s)) f.
Proof.
  intros Ht Hk He Hf. destruct (on_event_sent _ _ _ _ _ _ He Hf) as [[q Hq]|[[o ->]|[->| ->]]].
  - assert (Hs : serves (r_conns r) k (s_id s) (s_mode s)) by (by exists (mkConn ip (Running s))).
    pose proof (ty_queue _ _ Ht _ _ _ _ Hs Hq) as Hall. by apply Forall_cons in Hall as [? _].
  - split; [done|]. by destruct (s_mode s).
  - split; [|by destruct (s_mode s)]. cbn. unfold u16. lia.
  - split; [|by destruct (s_mode s)]. unfold CLOSE_REASON_MALFORMED. cbn. unfold u16. lia.
Qed.

End typing.

Lemma typed_mono (may may' : Policy) r : (∀ a b d, may a b d → may' a b d) → typed may r → typed may' r.
Proof.
  intros H. assert (Hf : ∀ k f, frame_for may k f → frame_for may' k f).
  { intros k f [Hw Hk]. split; [done|]. destruct f, k; auto. }
  intros [Hq Hk Ho]. split; [|done|].
  - intros k id m q Hs Hc. eapply Forall_impl; [by eapply Hq|]. auto.
  - intros c f k m Hi Hs. apply Hf. by eapply Ho.
Qed.

Section language.
Context `{C : Crypto, R : RdvCrypto, !HashIter NodeId RendezvousPeer, !HashIter NodeId PairingRoute, !HashIter NodeId (array 32)}.
Context (cfg : RelayConfig).

Lemma reach_typed tr r : reach cfg tr r → typed anything r.
Proof.
  induction 1 as [|tr r l r' Hr IH St]; [apply init_typed|]. eapply allowed_typed; [done|by intros ??????|done|done].
Qed.

(** A client whose session is of the other kind of the frame, or that gets a frame
    of no kind at all, gives the relay up; one that is spoken to in its own language
    goes on. *)
Lemma client_takes (c : Run) p now io_ok k f :
  frame_for anything k f → (k = ByTag ↔ is_Some (r_book c)) →
  pt_end (pump_message c p (Some (Ok (WsBinary (Frame_encode f)))) now io_ok) = None ∨ ∃ reason, f = Close reason.
Proof.
  intros [Hw Hk] Hb. cbn [pump_message]. rewrite decode_encode by done. cbn [run_opt].
  destruct f; try (by destruct k); try (right; eauto; fail); left.
  - destruct k; [|done]. destruct (r_book c) as [b|] eqn:E; [|done].
    assert (ByNode n = ByTag) by (apply Hb; eauto). done.
  - destruct k; [done|]. destruct (r_book c) as [b|] eqn:E; [|destruct (proj1 Hb eq_refl); done].
    destruct (resolve _ _ _ _) as [b' [w|]]; done.
  - done.
Qed.

(** C13: A relay speaks to each session in the language the session chose.  On every
    history of a relay, whatever a session's turn writes is a well-formed frame that
    decodes to itself, a [Recv] only on a node session and a [RecvTag] only on a tag
    session, however registrations changed while the frame was on its way; so a
    client of that kind never gives the relay up over a frame, only over a close. *)
Theorem relay_speaks_its_language tr r k ip s ev t f
  (H : reach cfg tr r) (Hk : r_conns r !! k = Some (mkConn ip (Running s))) (Ho : s_out s = [])
  (He : on_event s (r_reg r) (r_chans r) ev = Some t) (Hf : SFrame f ∈ t_sent t) :
  frame_for anything (lang (s_mode s)) f ∧ Frame_decode (Frame_encode f) = Ret (Some f) ∧
  ∀ (client : Run) p now io_ok, (lang (s_mode s) = ByTag ↔ is_Some (r_book client)) →
    pt_end (pump_message client p (Some (Ok (WsBinary (Frame_encode f)))) now io_ok) = None ∨ ∃ reason, f = Close reason.
Proof.
  assert (Hc : frame_for anything (lang (s_mode s)) f) by (eapply turn_writes_typed; [by eapply reach_typed|done..]).
  split; [done|]. split; [apply decode_encode, Hc|]. intros client p now io_ok Hb. by eapply client_takes.
Qed.

End language.

(** ** A concrete turn *)

#[local] Existing Instances toy_crypto toy_rdv.
#[local] Instance ty_peers_order : HashIter NodeId RendezvousPeer := map_order _ _.
#[local] Instance ty_pairing_order : HashIter NodeId PairingRoute := map_order _ _.
#[local] Instance ty_paired_order : HashIter NodeId (array 32) := map_order _ _.

(** A tag session that has registered. *)
Lemma ty_reach :
  ∃ r s, reach RelayConfig_default ex_trace r ∧ r_conns r !! 0%nat = Some (mkConn ex_ip (Running s)) ∧ s_out s = [] ∧ s_mode s = Tags [ex_tag].
Proof.
  eexists _, _. split; [|split; [|split]].
  - eapply (reach_step _ [LAccept 0 ex_ip]); [eapply (reach_step _ []); [constructor|]|].
    + apply (step_accept _ _ 0%nat ex_ip ex_challenge); [reflexivity|reflexivity].
    + eapply (step_first_ok _ _ 0%nat ex_ip ex_challenge ex_register _ _ (Tags [ex_tag]) 0 true); [reflexivity|].
      unfold first_frame, ex_register, decode_binary. rewrite decode_encode by (vm_compute; lia). reflexivity.
  - cbn [r_conns]. rewrite lookup_insert_eq. reflexivity.
  - reflexivity.
  - reflexivity.
Qed.

Definition ex_ping : Message := MBinary (Frame_encode (Ping (pad_array 8 (lit "ping")))).

Lemma relay_speaks_its_language_witness :
  ∃ r s t, reach RelayConfig_default ex_trace r ∧ on_event s (r_reg r) (r_chans r) (EvIncoming (Some (Ok ex_ping)) 5 true) = Some t ∧
    SFrame (Pong (pad_array 8 (lit "ping"))) ∈ t_sent t ∧ frame_for anything ByTag (Pong (pad_array 8 (lit "ping"))).
Proof.
  destruct ty_reach as (r & s & Hr & Hk & Ho & Hm).
  set (t := on_incoming s (r_reg r) (r_chans r) (Some (Ok ex_ping)) 5 true).
  assert (Hf : SFrame (Pong (pad_array 8 (lit "ping"))) ∈ t_sent t).
  { unfold t, on_incoming, ex_ping, decode_binary. rewrite decode_encode by done. cbn. by left. }
  exists r, s, t. split; [exact Hr|]. split; [reflexivity|]. split; [exact Hf|].
  pose proof (relay_speaks_its_language RelayConfig_default ex_trace r 0%nat ex_ip s (EvIncoming (Some (Ok ex_ping)) 5 true) t _ Hr Hk Ho eq_refl Hf) as [H _].
  rewrite Hm in H. exact H.
Defined.
