(* ===== verification/Network.v ===== *)
(** * Network: nodes, a relay and everyone else
      ([link-endpoint/src/path_socket.rs], [link-endpoint/src/relay_client.rs],
      [link-relay/src/lib.rs])

    The relayed transport as one system.  A node is a path socket and a relay driver
    that proves the node's identity; a wire is what each end of its connection has
    written and the other has not read yet; the relay is the transition system of
    [Relay].  Connections without a wire belong to outsiders.  They may send the relay
    anything, a signature of a node's key only where the node made it; and they run
    relays of their own, which nodes that list them dial, which choose what the nodes
    sign there, may welcome them, take what they write and send them anything.  Every
    step is one of the parts', so a run is any interleaving of them, with connections
    lost and made again at any time.  A name the relay answers for is one no outsider
    answers under; an attempt there may fail before it opens.  Each node has one driver;
    the other drivers of its pool are on other relays. *)

From S2P Require Import Prelude Net Id Rendezvous Card Wire Relay Paths TagBook RelayClient RelayTyping.

Open Scope Z_scope.

(** ** Parts *)

(** [nd_ops] is the history of the path socket, [nd_conn] the connection to the relay,
    [None] while the driver is down or at a relay of an outsider.  [nd_sent] is what was
    handed to the driver, by destination, and [nd_foreign] the datagrams, with the source
    named, that came from an outsider's relay. *)
Record Node : Type := mkNode {
  nd_key : TransportKey;
  nd_relays : list RelaySpec;
  nd_udp : option SocketAddr;
  nd_reflector : option SocketAddr;
  nd_ops : list POp;
  nd_run : Run;
  nd_conn : option nat;
  nd_sent : list (NodeId * list byte);
  nd_foreign : list (NodeId * list byte);
}.

Record Wire : Type := mkWire {
  w_owner : NodeId;
  w_up : list Message;
  w_down : list WsMessage;
}.

(** [sy_issued] is every challenge the relay issued, with the owner of the wire;
    [sy_signed] every host and challenge a node signed. *)
Record System : Type := mkSystem {
  sy_relay : Relay;
  sy_nodes : gmap NodeId Node;
  sy_wires : gmap nat Wire;
  sy_issued : list (array 32 * option NodeId);
  sy_signed : list (NodeId * list byte * array 32);
}.

Definition nd_set_ops (nd : Node) (ops : list POp) : Node :=
  mkNode (nd_key nd) (nd_relays nd) (nd_udp nd) (nd_reflector nd) ops (nd_run nd) (nd_conn nd) (nd_sent nd) (nd_foreign nd).
Definition nd_set_run (nd : Node) (r : Run) (conn : option nat) : Node :=
  mkNode (nd_key nd) (nd_relays nd) (nd_udp nd) (nd_reflector nd) (nd_ops nd) r conn (nd_sent nd) (nd_foreign nd).
Definition nd_log (nd : Node) (peer : NodeId) (datagram : list byte) : Node :=
  mkNode (nd_key nd) (nd_relays nd) (nd_udp nd) (nd_reflector nd) (nd_ops nd) (nd_run nd) (nd_conn nd)
    (nd_sent nd ++ [(peer, datagram)]) (nd_foreign nd).
Definition nd_hear (nd : Node) (l : list (NodeId * list byte)) : Node :=
  mkNode (nd_key nd) (nd_relays nd) (nd_udp nd) (nd_reflector nd) (nd_ops nd) (nd_run nd) (nd_conn nd) (nd_sent nd)
    (nd_foreign nd ++ l).

Definition sy_set_node (s : System) (n : NodeId) (nd : Node) : System :=
  mkSystem (sy_relay s) (<[n := nd]> (sy_nodes s)) (sy_wires s) (sy_issued s) (sy_signed s).
Definition sy_set_wire (s : System) (k : nat) (w : Wire) : System :=
  mkSystem (sy_relay s) (sy_nodes s) (<[k := w]> (sy_wires s)) (sy_issued s) (sy_signed s).
Definition sy_set_relay (s : System) (r : Relay) : System :=
  mkSystem r (sy_nodes s) (sy_wires s) (sy_issued s) (sy_signed s).
Definition sy_sign (s : System) (l : list (NodeId * list byte * array 32)) : System :=
  mkSystem (sy_relay s) (sy_nodes s) (sy_wires s) (sy_issued s) (sy_signed s ++ l).

(** [assemble]: the path socket with its relay driver spawned, in tag mode when there
    is a book. *)
Definition assemble (key : TransportKey) (udp : option SocketAddr) (relays : list RelaySpec) (book : option TagBook)
    (reflector : option SocketAddr) (id : Z) : Node :=
  mkNode key relays udp reflector [] (run_start id relays book) None [] [].

(** [build]: [bound] is the address of the UDP socket, [None] when it could not be
    bound. *)
Definition build (key : TransportKey) (bound : option SocketAddr) (relays : list RelaySpec) (book : option TagBook)
    (reflector : option SocketAddr) (id : Z) : option Node :=
  udp ← bound; Some (assemble key (Some udp) relays book reflector id).

Definition build_relay_only (key : TransportKey) (relays : list RelaySpec) (book : option TagBook) (id : Z) : Node :=
  assemble key None relays book None id.

(** What the other end of a WebSocket reads of what one end writes. *)
Definition at_relay (m : PumpSent) : Message :=
  match m with PFrame f => MBinary (Frame_encode f) | PPong p => MPong p end.
Definition at_node (m : Sent) : WsMessage :=
  match m with SFrame f => WsBinary (Frame_encode f) | SPong _ => WsPong end.

Definition w_write_up (w : Wire) (ms : list PumpSent) : Wire := mkWire (w_owner w) (w_up w ++ (at_relay <$> ms)) (w_down w).
Definition w_write_down (w : Wire) (ms : list Sent) : Wire := mkWire (w_owner w) (w_up w) (w_down w ++ (at_node <$> ms)).

(** The turns a driver takes by itself, and being told to close. *)
Definition own_turn (e : DEvent) : bool :=
  match e with
  | DPing _ _ _ | DRefresh _ _ _ _ | DChanged _ _ _ _ _ | DOutbound _ _ | DClose | DStopped => true
  | _ => false
  end.

Section network.
Context `{C : Crypto, M : Mac, R : RdvCrypto}.
Context `{!HashIter NodeId RendezvousPeer, !HashIter NodeId PairingRoute, !HashIter NodeId (array 32), !HashIter SocketAddr Z}.
Context (cfg : RelayConfig).

Definition nd_paths (nd : Node) : Paths := p_run (nd_key nd) (nd_udp nd) (nd_reflector nd) (nd_ops nd).

(** The path socket's [try_send] over the driver's: quinn's datagram for the peer of
    a synthetic address, on its relay unless a direct path is proved. *)
Definition node_send (nd : Node) (dest : SocketAddr) (datagram : list byte) (now now_unix : Z) (udp : UdpAnswer) : Node :=
  match peer_for_synthetic (nd_paths nd) dest with
  | None => nd
  | Some peer =>
    let r := nd_run nd in
    let '(d, b, outcome) := driver_try_send (r_driver r) (r_book r) peer datagram now_unix in
    match (path_try_send (nd_paths nd) None dest datagram now (λ id, id =? d_id d) (d_id d) udp outcome).1.2 with
    | Some (RRelay _ _) => nd_log (nd_set_run nd (r_set_book (r_set_driver r d) b) (nd_conn nd)) peer datagram
    | _ => nd
    end
  end.

(** A turn of the driver; a session that ended leaves its connection. *)
Definition node_turn (nd : Node) (e : DEvent) : Node * list PumpSent :=
  let '(r, o) := d_step (nd_key nd) (nd_relays nd) (nd_run nd) e in
  (nd_set_run nd r (match r_phase r with Pumping _ => nd_conn nd | _ => None end), o_sent o).

(** An attempt over connection [conn] of the relay, or at an outsider's. *)
Definition node_pass (nd : Node) (conn : option nat) (n : Dial) (now elapsed_now : Z) : Node * list PumpSent :=
  let '(r, o) := d_step (nd_key nd) (nd_relays nd) (nd_run nd) (DPass n now elapsed_now) in
  (nd_set_run nd r (match r_phase r with Pumping _ => conn | _ => None end), o_sent o).

(** The relay-inbound task of the path socket. *)
Definition node_take (nd : Node) : Node :=
  match r_inbound (nd_run nd) with
  | (source, datagram, driver) :: _ =>
    let nd := nd_set_run nd (d_step (nd_key nd) (nd_relays nd) (nd_run nd) DTake).1 (nd_conn nd) in
    nd_set_ops nd (nd_ops nd ++ [ORelay source datagram driver])
  | [] => nd
  end.

(** What the pump hands on of a message, in identity mode. *)
Definition hears (nd : Node) (e : DEvent) : list (NodeId * list byte) :=
  match r_phase (nd_run nd), e with
  | Pumping _, DMessage (Some (Ok (WsBinary bytes))) _ _ _ =>
    match run_opt (Frame_decode bytes) with Some (Recv source datagram) => [(source, datagram)] | _ => [] end
  | _, _ => []
  end.

(** What an attempt signs, if it is challenged: the host dialled and the challenge. *)
Definition signs (nd : Node) (d : Dial) : list (NodeId * list byte * array 32) :=
  match dl_opened d, r_book (nd_run nd), dialled (nd_relays nd) (nd_run nd), dl_first d with
  | true, None, Some spec, Some (Challenge c) =>
    match RelaySpec_host spec with Some host => [(tk_node_id (nd_key nd), host, c)] | None => [] end
  | _, _, _, _ => []
  end.

(** Signatures are not forged: what an outsider says first and verifies for a node was
    signed by it. *)
Definition unforged (s : System) (challenge : array 32) (m : Message) : Prop :=
  ∀ n signature host, decode_binary m = Some (Auth n signature) → n ∈ dom (sy_nodes s) → host ∈ cfg_hosts cfg →
    verify_relay_auth n host challenge signature = true → (n, host, challenge) ∈ sy_signed s.

(** The relay draws a fresh challenge per connection, and a node that dials over its
    wire is given one the relay issued to it.  [net_elsewhere] is an attempt that does
    not reach the relay: it does not open, or it opens at a relay of an outsider, under a
    name this relay does not answer for, which challenges, welcomes or refuses as it
    likes.  [net_away] is a turn of a driver without a connection to the relay: down, or
    on a session with an outsider's relay, which is sent what the driver writes and may
    send the driver any message. *)
Inductive net_step : System → System → Prop :=
  | net_send s n nd dest datagram now now_unix udp :
      sy_nodes s !! n = Some nd →
      net_step s (sy_set_node s n (node_send nd dest datagram now now_unix udp))
  | net_path s n nd op :
      sy_nodes s !! n = Some nd → (∀ source datagram driver, op ≠ ORelay source datagram driver) →
      net_step s (sy_set_node s n (nd_set_ops nd (nd_ops nd ++ [op])))
  | net_take s n nd :
      sy_nodes s !! n = Some nd →
      net_step s (sy_set_node s n (node_take nd))
  | net_pass s n nd k w d now elapsed_now nd' out :
      sy_nodes s !! n = Some nd → r_phase (nd_run nd) = Dialling → sy_wires s !! k = Some w → w_owner w = n →
      (∀ c, dl_first d = Some (Challenge c) → (c, Some n) ∈ sy_issued s) →
      node_pass nd (Some k) d now elapsed_now = (nd', out) →
      net_step s (sy_sign (sy_set_wire (sy_set_node s n nd') k (w_write_up w out)) (signs nd d))
  | net_elsewhere s n nd d now elapsed_now nd' out :
      sy_nodes s !! n = Some nd → r_phase (nd_run nd) = Dialling →
      (dl_opened d = true → ∀ spec host, dialled (nd_relays nd) (nd_run nd) = Some spec → RelaySpec_host spec = Some host →
         host ∉ cfg_hosts cfg) →
      node_pass nd None d now elapsed_now = (nd', out) →
      net_step s (sy_sign (sy_set_node s n nd') (signs nd d))
  | net_away s n nd e nd' out :
      sy_nodes s !! n = Some nd → nd_conn nd = None →
      own_turn e = true ∨ (∃ m now_unix send_ok now, e = DMessage m now_unix send_ok now) →
      node_turn nd e = (nd', out) →
      net_step s (sy_set_node s n (nd_hear nd' (hears nd e)))
  | net_turn s n nd k w e nd' out :
      sy_nodes s !! n = Some nd → nd_conn nd = Some k → sy_wires s !! k = Some w → w_owner w = n → own_turn e = true →
      node_turn nd e = (nd', out) →
      net_step s (sy_set_wire (sy_set_node s n nd') k (w_write_up w out))
  | net_read s n nd k w m rest now_unix send_ok now nd' out :
      sy_nodes s !! n = Some nd → nd_conn nd = Some k → sy_wires s !! k = Some w → w_owner w = n → w_down w = m :: rest →
      node_turn nd (DMessage (Some (Ok m)) now_unix send_ok now) = (nd', out) →
      net_step s (sy_set_wire (sy_set_node s n nd') k (w_write_up (mkWire n (w_up w) rest) out))
  | net_lost s n nd e now_unix now :
      sy_nodes s !! n = Some nd → e = None ∨ e = Some (Err tt) →
      net_step s (sy_set_node s n (node_turn nd (DMessage e now_unix true now)).1)
  | net_accept s k ip c r owner :
      step cfg (sy_relay s) (LAccept k ip) r → r_conns r !! k = Some (mkConn ip (Pending c)) → c ∉ (sy_issued s).*1 →
      (∀ n, owner = Some n → n ∈ dom (sy_nodes s)) →
      net_step s (mkSystem r (sy_nodes s)
        (match owner with Some n => <[k := mkWire n [] []]> (sy_wires s) | None => delete k (sy_wires s) end)
        ((c, owner) :: sy_issued s) (sy_signed s))
  | net_first s k challenge m rest w r :
      sy_wires s !! k = Some w → w_up w = m :: rest → step cfg (sy_relay s) (LFirst k challenge (Some m)) r →
      net_step s (sy_set_wire (sy_set_relay s r) k (mkWire (w_owner w) rest (w_down w)))
  | net_first_outsider s k challenge m r :
      sy_wires s !! k = None → unforged s challenge m → step cfg (sy_relay s) (LFirst k challenge (Some m)) r →
      net_step s (sy_set_relay s r)
  | net_incoming s k ip se m rest w now io_ok t r :
      sy_wires s !! k = Some w → w_up w = m :: rest →
      r_conns (sy_relay s) !! k = Some (mkConn ip (Running se)) →
      on_event se (r_reg (sy_relay s)) (r_chans (sy_relay s)) (EvIncoming (Some (Ok m)) now io_ok) = Some t →
      step cfg (sy_relay s) (LEvent k (EvIncoming (Some (Ok m)) now io_ok)) r →
      net_step s (sy_set_wire (sy_set_relay s r) k (w_write_down (mkWire (w_owner w) rest (w_down w)) (t_sent t)))
  | net_event s k ip se ev w t r :
      sy_wires s !! k = Some w → (∀ m now io_ok, ev ≠ EvIncoming (Some (Ok m)) now io_ok) →
      r_conns (sy_relay s) !! k = Some (mkConn ip (Running se)) →
      on_event se (r_reg (sy_relay s)) (r_chans (sy_relay s)) ev = Some t →
      step cfg (sy_relay s) (LEvent k ev) r →
      net_step s (sy_set_wire (sy_set_relay s r) k (w_write_down w (t_sent t)))
  | net_event_outsider s k ev r :
      sy_wires s !! k = None → step cfg (sy_relay s) (LEvent k ev) r →
      net_step s (sy_set_relay s r)
  | net_relay s l r :
      step cfg (sy_relay s) l r →
      match l with LFirst _ _ None | LDeliver _ | LCleanup _ | LLeave _ => True | _ => False end →
      net_step s (sy_set_relay s r).

(** Nodes that have not connected yet. *)
Definition fresh_node (n : NodeId) (nd : Node) : Prop :=
  tk_node_id (nd_key nd) = n ∧ nd_conn nd = None ∧ nd_sent nd = [] ∧ nd_foreign nd = [] ∧
  (∃ id, nd_run nd = run_start id (nd_relays nd) None) ∧
  ∀ source datagram driver, ORelay source datagram driver ∉ nd_ops nd.

Lemma assemble_fresh key udp relays reflector id ops :
  (∀ source datagram driver, ORelay source datagram driver ∉ ops) →
  fresh_node (tk_node_id key) (nd_set_ops (assemble key udp relays None reflector id) ops).
Proof. intros H. split_and!; [done..|by exists id|done]. Qed.

Definition net_init (s : System) : Prop :=
  sy_relay s = Relay_init ∧ sy_wires s = ∅ ∧ sy_issued s = [] ∧ sy_signed s = [] ∧ map_Forall fresh_node (sy_nodes s).

Definition net_reach (s : System) : Prop := ∃ s0, net_init s0 ∧ rtc net_step s0 s.

(** ** What a driver in identity mode writes, queues and hands on *)

Lemma connect_identity key spec r n r' sent ok :
  r_book r = None → connect key spec r n = (r', sent, ok) →
  r' = r ∧ ∀ f, PFrame f ∈ sent → ∃ signature, f = Auth (tk_node_id key) signature.
Proof.
  intros Hb. unfold connect. rewrite Hb. intros E. repeat case_match; simplify_eq; (split; [done|]); intros f Hf; set_solver.
Qed.

(** What a turn leaves in the queue was there before, and what it writes was queued,
    answers a challenge with the driver's own identity, or is a ping; the driver
    stays in identity mode. *)
Definition identity_turn (key : TransportKey) (r r' : Run) (sent : list PumpSent) : Prop :=
  r_book r' = None ∧
  (∀ f, f ∈ d_queue (r_driver r') → f ∈ d_queue (r_driver r)) ∧
  (∀ f, PFrame f ∈ sent →
     f ∈ d_queue (r_driver r) ∨ (∃ signature, f = Auth (tk_node_id key) signature) ∨ ∃ nonce, f = Ping nonce).

Lemma identity_turn_refl key r : r_book r = None → identity_turn key r r [].
Proof. intros Hb. split_and!; [done..|set_solver]. Qed.

Lemma session_ended_identity key r0 r e now sent :
  identity_turn key r0 r sent →
  identity_turn key r0 (session_ended r e now sent).1 (o_sent (session_ended r e now sent).2).
Proof.
  intros (Hb & Hq & Hs). unfold session_ended. rewrite Hb.
  destruct e; (split_and!; [done| |done]); intros f; cbn; rewrite set_status_queue; apply Hq.
Qed.

Lemma after_turn_identity key r t now :
  identity_turn key r (pt_run t) (pt_sent t) →
  identity_turn key r (after_turn t now).1 (o_sent (after_turn t now).2).
Proof. intros H. unfold after_turn. destruct (pt_end t); [|done]. by apply session_ended_identity. Qed.

Lemma loop_pass_identity key relays r n now enow :
  r_book r = None →
  identity_turn key r (loop_pass key relays r n now enow).1 (o_sent (loop_pass key relays r n now enow).2).
Proof.
  intros Hb. unfold loop_pass. rewrite Hb. cbn [fmap option_fmap option_map default].
  destruct (dialled relays r) as [spec|]; [|by apply identity_turn_refl].
  destruct (connect key spec r n) as [[r' sent] ok] eqn:E. destruct (connect_identity _ _ _ _ _ _ _ Hb E) as [-> Hs].
  destruct ok; (split_and!; [done| |intros f Hf; right; left; by apply Hs]); intros f; cbn; rewrite set_status_queue; [set_solver|done].
Qed.

Lemma pump_message_identity key r p m now ok :
  r_book r = None → identity_turn key r (pt_run (pump_message r p m now ok)) (pt_sent (pump_message r p m now ok)).
Proof.
  intros Hb. pose proof (identity_turn_refl key r Hb) as H0. unfold pump_message. rewrite Hb.
  assert (Hd : ∀ src dg, identity_turn key r (r_deliver r src dg) []).
  { intros. unfold r_deliver. by destruct (_ <? _)%nat. }
  repeat case_match; cbn; try done. split_and!; [done..|set_solver].
Qed.

Lemma d_step_identity key relays r e :
  r_book r = None → (∀ dst dg now, e ≠ DSend dst dg now) →
  identity_turn key r (d_step key relays r e).1 (o_sent (d_step key relays r e).2).
Proof.
  intros Hb He. pose proof (identity_turn_refl key r Hb) as H0. destruct e; cbn [d_step].
  - destruct (r_phase r); try done. by apply loop_pass_identity.
  - destruct (r_phase r); try done. apply after_turn_identity. unfold pump_ping. destruct send_ok; [|done].
    cbn. split_and!; [done..|]. intros f [= ->]%list_elem_of_singleton. eauto.
  - destruct (r_phase r); try done. unfold pump_refresh. rewrite Hb. by apply after_turn_identity.
  - destruct (r_phase r); try done. unfold pump_changed. rewrite Hb. by apply after_turn_identity.
  - destruct (r_phase r); try done. apply after_turn_identity. unfold pump_outbound, outbound_take.
    destruct (d_queue (r_driver r)) as [|f q] eqn:Eq; [done|]. unfold outbound_written. destruct send_ok; cbn.
    + split_and!; [by destruct f| |]; rewrite Eq; [intros g Hg; right; by destruct f|].
      intros g [= ->]%list_elem_of_singleton. left. by left.
    + split_and!; [done| |set_solver]. rewrite Eq. set_solver.
  - destruct (r_phase r); try done. apply after_turn_identity. by apply pump_message_identity.
  - by destruct (He destination datagram now_unix).
  - rewrite Hb. split_and!; [done..|set_solver].
  - done.
  - done.
  - destruct (r_phase r); try done; (destruct (d_stop _); [|done]); (split_and!; [done| |set_solver]); intros f; cbn; by rewrite set_status_queue.
Qed.

Lemma try_send_identity d peer datagram now_unix d' b outcome :
  driver_try_send d None peer datagram now_unix = (d', b, outcome) →
  b = None ∧ ∀ f, f ∈ d_queue d' → f ∈ d_queue d ∨ f = Send peer datagram.
Proof.
  unfold driver_try_send, finish_send, queue_send. intros E. repeat case_match; simplify_eq; (split; [done|]); set_solver.
Qed.

(** ** Frames on the wire *)

Lemma read_frame bytes g : run_opt (Frame_decode bytes) = Some g → Frame_wf g ∧ bytes = Frame_encode g.
Proof.
  unfold run_opt. destruct (Frame_decode bytes) as [o|] eqn:E; [|done]. intros ->. by apply encode_decode.
Qed.

Lemma read_known f g :
  Frame_wf f → decode_binary (MBinary (Frame_encode f)) = Some g → g = f.
Proof. intros Hw. unfold decode_binary. rewrite decode_encode by done. by intros [= <-]. Qed.

(** Also a datagram the relay will not take is read as itself or not at all. *)
Lemma read_send dst dg g : decode_binary (MBinary (Frame_encode (Send dst dg))) = Some g → g = Send dst dg.
Proof.
  intros [_ H]%read_frame. destruct g; cbn in H; unfold one, routed, routed_tag in H; try discriminate H.
  injection H as H. apply app_inj_1 in H as [Hd ->]; [|by rewrite !as_bytes_length].
  f_equal. unfold as_bytes in Hd. apply (inj bytes_of) in Hd. destruct dst, destination. cbn in Hd. by subst.
Qed.

(** ** The invariant *)

(** What a node may be given of another: nothing the other did not send to it. *)
Definition allowed (nodes : gmap NodeId Node) : Policy := λ source dest datagram,
  ∀ nd, nodes !! source = Some nd → (dest, datagram) ∈ nd_sent nd.

(** What reached a node under a name came from there, or from an outsider's relay. *)
Definition accounted (nodes : gmap NodeId Node) (n : NodeId) (nd : Node) (source : NodeId) (datagram : list byte) : Prop :=
  allowed nodes source n datagram ∨ (source, datagram) ∈ nd_foreign nd.

(** Every relay the node lists is at a name this relay answers for. *)
Definition here_only (nd : Node) : Prop :=
  ∀ spec host, spec ∈ nd_relays nd → RelaySpec_host spec = Some host → host ∈ cfg_hosts cfg.

Record node_ok (nodes : gmap NodeId Node) (n : NodeId) (nd : Node) : Prop := {
  no_key : tk_node_id (nd_key nd) = n;
  no_book : r_book (nd_run nd) = None;
  no_queue f : f ∈ d_queue (r_driver (nd_run nd)) → ∃ dst dg, f = Send dst dg ∧ (dst, dg) ∈ nd_sent nd;
  no_inbound source dg drv : (source, dg, drv) ∈ r_inbound (nd_run nd) → accounted nodes n nd source dg;
  no_ops source dg drv : ORelay source dg drv ∈ nd_ops nd → accounted nodes n nd source dg;
  no_here : here_only nd → nd_foreign nd = [] ∧ ∀ p, r_phase (nd_run nd) = Pumping p → nd_conn nd ≠ None;
}.

Definition up_ok (nodes : gmap NodeId Node) (n : NodeId) (m : Message) : Prop :=
  (∀ dst dg, decode_binary m = Some (Send dst dg) → allowed nodes n dst dg) ∧
  (∀ a signature, decode_binary m = Some (Auth a signature) → a = n).

Definition down_ok (nodes : gmap NodeId Node) (n : NodeId) (m : WsMessage) : Prop :=
  ∀ bytes source dg, m = WsBinary bytes → run_opt (Frame_decode bytes) = Some (Recv source dg) → allowed nodes source n dg.

Record wire_ok (nodes : gmap NodeId Node) (w : Wire) : Prop := {
  wo_owner : w_owner w ∈ dom nodes;
  wo_up m : m ∈ w_up w → up_ok nodes (w_owner w) m;
  wo_down m : m ∈ w_down w → down_ok nodes (w_owner w) m;
}.

(** A session speaks for the owner of its wire, an outsider's for no node. *)
Definition conn_ok (nodes : gmap NodeId Node) (wires : gmap nat Wire) (k : nat) (a : NodeId) : Prop :=
  match wires !! k with Some w => w_owner w = a | None => a ∉ dom nodes end.

Record net_ok (s : System) : Prop := {
  nk_reach : ∃ tr, reach cfg tr (sy_relay s);
  nk_typed : typed (allowed (sy_nodes s)) (sy_relay s);
  nk_nodes n nd : sy_nodes s !! n = Some nd → node_ok (sy_nodes s) n nd;
  nk_wires k w : sy_wires s !! k = Some w → wire_ok (sy_nodes s) w;
  nk_conns k id a : serves (r_conns (sy_relay s)) k id (Identity a) → conn_ok (sy_nodes s) (sy_wires s) k a;
  nk_pending k ip c : r_conns (sy_relay s) !! k = Some (mkConn ip (Pending c)) → (c, w_owner <$> sy_wires s !! k) ∈ sy_issued s;
  nk_signed n host c : (n, host, c) ∈ sy_signed s → host ∈ cfg_hosts cfg → (c, Some n) ∈ sy_issued s;
  nk_fresh c o o' : (c, o) ∈ sy_issued s → (c, o') ∈ sy_issued s → o = o';
}.

Section grow.
Context (nodes : gmap NodeId Node) (n : NodeId) (nd nd' : Node).
Context (Hnd : nodes !! n = Some nd) (Hsent : ∀ x, x ∈ nd_sent nd → x ∈ nd_sent nd').

Lemma allowed_grow a b d : allowed nodes a b d → allowed (<[n := nd']> nodes) a b d.
Proof.
  intros H x. rewrite lookup_insert_Some. intros [[<- <-]|[_ Hx]]; [|by apply H]. apply Hsent. by apply H.
Qed.

Lemma accounted_grow m x x' source dg :
  (∀ y, y ∈ nd_foreign x → y ∈ nd_foreign x') → accounted nodes m x source dg → accounted (<[n := nd']> nodes) m x' source dg.
Proof. intros Hf [H|H]; [left; by apply allowed_grow|right; by apply Hf]. Qed.

Lemma dom_grow : dom (<[n := nd']> nodes) = dom nodes.
Proof. rewrite dom_insert_L. apply elem_of_dom_2 in Hnd. set_solver. Qed.

Lemma node_ok_grow m x : node_ok nodes m x → node_ok (<[n := nd']> nodes) m x.
Proof. intros []. split; auto; intros; eapply accounted_grow; eauto. Qed.

Lemma wire_ok_grow w : wire_ok nodes w → wire_ok (<[n := nd']> nodes) w.
Proof.
  intros [Ho Hu Hd]. split; [by rewrite dom_grow| |].
  - intros m Hm. destruct (Hu m Hm) as [H1 H2]. split; [|done]. intros. apply allowed_grow. eauto.
  - intros m Hm bytes source dg -> E. apply allowed_grow. by eapply Hd.
Qed.

End grow.

(** A step of one node that keeps its wires as they are. *)
Lemma set_node_ok s n nd nd' :
  net_ok s → sy_nodes s !! n = Some nd → (∀ x, x ∈ nd_sent nd → x ∈ nd_sent nd') →
  node_ok (<[n := nd']> (sy_nodes s)) n nd' → net_ok (sy_set_node s n nd').
Proof.
  intros [Hr Ht Hn Hw Hc Hp Hg Hf] Hnd Hsent Hok. split; cbn; [done| | | | |done..].
  - eapply typed_mono; [|exact Ht]. intros a b d. by apply (allowed_grow _ _ nd).
  - intros m x. rewrite lookup_insert_Some. intros [[<- <-]|[_ Hx]]; [done|]. by eapply node_ok_grow; eauto.
  - intros k w Hk. eapply wire_ok_grow; eauto.
  - intros k id a Hs. specialize (Hc _ _ _ Hs). unfold conn_ok in *. destruct (sy_wires s !! k); [done|].
    by rewrite (dom_grow _ _ nd).
Qed.

(** A step that writes to, or reads from, a wire. *)
Lemma set_wire_ok s k w w' :
  net_ok s → sy_wires s !! k = Some w → w_owner w' = w_owner w → wire_ok (sy_nodes s) w' → net_ok (sy_set_wire s k w').
Proof.
  intros [Hr Ht Hn Hw Hc Hp Hg Hf] Hk Ho Hok. split; cbn; try done.
  - intros j x. rewrite lookup_insert_Some. intros [[<- <-]|[_ Hx]]; [done|]. by eapply Hw.
  - intros j id a Hs. specialize (Hc _ _ _ Hs). unfold conn_ok in *. destruct (decide (j = k)) as [->|].
    + rewrite lookup_insert_eq. rewrite Hk in Hc. congruence.
    + by rewrite lookup_insert_ne.
  - intros j ip c Hj. specialize (Hp _ _ _ Hj). destruct (decide (j = k)) as [->|]; [|by rewrite lookup_insert_ne].
    rewrite lookup_insert_eq. rewrite Hk in Hp. cbn in *. by rewrite Ho.
Qed.

(** Signing what was challenged. *)
Lemma sy_sign_ok s l :
  net_ok s → (∀ n host c, (n, host, c) ∈ l → host ∈ cfg_hosts cfg → (c, Some n) ∈ sy_issued s) → net_ok (sy_sign s l).
Proof.
  intros [Hr Ht Hn Hw Hc Hp Hg Hf] Hl. split; cbn; try done. intros n host c [H|H]%elem_of_app; [by apply Hg|by apply Hl].
Qed.

Lemma signs_elem nd d n host c :
  (n, host, c) ∈ signs nd d →
  n = tk_node_id (nd_key nd) ∧ dl_first d = Some (Challenge c) ∧
  dl_opened d = true ∧ ∃ spec, dialled (nd_relays nd) (nd_run nd) = Some spec ∧ RelaySpec_host spec = Some host.
Proof. unfold signs. repeat case_match; simplify_eq; set_solver. Qed.

(** *** Steps of a node *)

(** What a driver hands on in a turn it was handed before, or reads now. *)
Lemma inbound_identity key relays r e source dg drv :
  r_book r = None → (source, dg, drv) ∈ r_inbound (d_step key relays r e).1 →
  (source, dg, drv) ∈ r_inbound r ∨
  ∃ p bytes now_unix ok now, r_phase r = Pumping p ∧ e = DMessage (Some (Ok (WsBinary bytes))) now_unix ok now ∧
    run_opt (Frame_decode bytes) = Some (Recv source dg).
Proof.
  intros Hb Hin. destruct (inbound_attribution key relays r e) as [E|[[_ E]|(p & bytes & nu & ok & now & who & d & -> & Hph & _ & E & Hd)]];
    cbn zeta in E; rewrite E in Hin.
  - by left.
  - left. rewrite <- (take_drop 1 (r_inbound r)). apply elem_of_app. by right.
  - rewrite Hb in Hd. apply elem_of_app in Hin as [?|[= -> -> ->]%list_elem_of_singleton]; [by left|]. right. eauto 10.
Qed.

(** Only a pass opens a session, where the connection was opened under a name. *)
Lemma turn_phase key relays r e p :
  (∀ n now enow, e ≠ DPass n now enow) → r_phase (d_step key relays r e).1 = Pumping p → ∃ p', r_phase r = Pumping p'.
Proof.
  intros He. destruct (r_phase r) as [|p'|] eqn:Ep; [|by eexists|]; destruct e; cbn [d_step]; rewrite ?Ep; cbn; try congruence;
    try (by edestruct He); try (destruct (driver_try_send _ _ _ _ _) as [[]]; cbn; congruence).
  destruct (d_stop _); cbn; congruence.
Qed.

Lemma pass_opens key relays r n now enow p :
  r_phase r = Dialling → r_phase (d_step key relays r (DPass n now enow)).1 = Pumping p →
  dl_opened n = true ∧ ∃ spec host, dialled relays r = Some spec ∧ RelaySpec_host spec = Some host.
Proof.
  intros Hp. cbn [d_step]. rewrite Hp. unfold loop_pass, connect. destruct (default _ _); [done|].
  destruct (dialled relays r) as [spec|]; [|cbn; congruence]. destruct (RelaySpec_host spec) as [host|] eqn:Eh; [|done].
  destruct (dl_opened n); [|done]. eauto.
Qed.

(** Without a connection, a pass or a turn that leaves the driver on a session is at an
    outsider's relay. *)
Lemma turn_here (nd : Node) (e : DEvent) p :
  (here_only nd → nd_foreign nd = [] ∧ ∀ p, r_phase (nd_run nd) = Pumping p → nd_conn nd ≠ None) →
  (∀ n now enow, e ≠ DPass n now enow) →
  r_phase (d_step (nd_key nd) (nd_relays nd) (nd_run nd) e).1 = Pumping p → here_only nd → nd_conn nd ≠ None.
Proof. intros Hh He [p' Hp]%turn_phase Ho; [|done]. destruct (Hh Ho) as [_ H]. by eapply H. Qed.

Lemma elsewhere_away (nd : Node) d now enow p :
  r_phase (nd_run nd) = Dialling →
  (dl_opened d = true → ∀ spec host, dialled (nd_relays nd) (nd_run nd) = Some spec → RelaySpec_host spec = Some host →
     host ∉ cfg_hosts cfg) →
  r_phase (d_step (nd_key nd) (nd_relays nd) (nd_run nd) (DPass d now enow)).1 = Pumping p → ~ here_only nd.
Proof.
  intros Hp Hout (Hop & spec & host & Hd & Hh)%pass_opens Ho; [|done]. apply (Hout Hop _ _ Hd Hh), (Ho spec); [|done].
  by eapply list_elem_of_lookup_2.
Qed.

Section driver_step.
Context (s : System) (n : NodeId) (nd : Node) (e : DEvent) (conn : option nat).
Context (Hs : net_ok s) (Hnd : sy_nodes s !! n = Some nd).
Context (He : ∀ dst dg now, e ≠ DSend dst dg now).
Context (Hread : ∀ bytes now_unix ok now source dg, e = DMessage (Some (Ok (WsBinary bytes))) now_unix ok now →
  run_opt (Frame_decode bytes) = Some (Recv source dg) → (∃ p, r_phase (nd_run nd) = Pumping p) → accounted (sy_nodes s) n nd source dg).
Context (Hconn : ∀ p, r_phase (d_step (nd_key nd) (nd_relays nd) (nd_run nd) e).1 = Pumping p → here_only nd → conn ≠ None).

Let nd' := nd_set_run nd (d_step (nd_key nd) (nd_relays nd) (nd_run nd) e).1 conn.

Lemma driver_node_ok : net_ok (sy_set_node s n nd').
Proof.
  pose proof (nk_nodes _ Hs _ _ Hnd) as [Hk Hb Hq Hi Ho Hh].
  destruct (d_step_identity (nd_key nd) (nd_relays nd) (nd_run nd) e Hb He) as (Hb' & Hq' & _).
  assert (Hg : ∀ a d, accounted (sy_nodes s) n nd a d → accounted (<[n := nd']> (sy_nodes s)) n nd' a d)
    by (intros a d; by apply (accounted_grow _ _ nd)).
  apply (set_node_ok _ _ nd); [done..|]. split; cbn; [done|done| | | |].
  - intros f Hf%Hq'. by apply Hq.
  - intros source dg drv Hin. apply Hg.
    destruct (inbound_identity _ _ _ _ _ _ _ Hb Hin) as [?|(p & bytes & nu & ok & now & Hp & He' & Hd)]; [by eapply Hi|]. eauto.
  - intros source dg drv Hin. apply Hg. by eapply Ho.
  - intros Ho'. destruct (Hh Ho') as [Hf _]. split; [done|]. intros p Hp. by eapply Hconn.
Qed.

(** What it writes goes on its own wire. *)
Lemma driver_wire_ok w :
  wire_ok (sy_nodes s) w → w_owner w = n →
  wire_ok (<[n := nd']> (sy_nodes s)) (w_write_up w (o_sent (d_step (nd_key nd) (nd_relays nd) (nd_run nd) e).2)).
Proof.
  intros Hw Ho. pose proof (nk_nodes _ Hs _ _ Hnd) as [Hk Hb Hq Hi _ _].
  destruct (d_step_identity (nd_key nd) (nd_relays nd) (nd_run nd) e Hb He) as (_ & _ & Hsent).
  apply (wire_ok_grow _ n nd nd') in Hw as [Hw1 Hw2 Hw3]; [|done|done]. split; cbn; [done| |done].
  intros m [Hm|Hm]%elem_of_app; [by apply Hw2|]. apply list_elem_of_fmap in Hm as ([f|pl] & -> & Hm); [|done]. cbn.
  destruct (Hsent _ Hm) as [Hf|[[sg ->]|[nonce ->]]].
  - destruct (Hq _ Hf) as (dst & dg & -> & Hin). split; [|by intros a sg ?%read_send].
    intros dst' dg' [= -> ->]%read_send x. rewrite Ho, lookup_insert_eq. by intros [= <-].
  - split; [by intros dst dg ?%read_known|]. intros a sg' [= -> ->]%read_known; [|done]. by rewrite Ho.
  - split; [by intros dst dg ?%read_known | by intros a sg ?%read_known].
Qed.

Lemma driver_step_ok k w :
  sy_wires s !! k = Some w → w_owner w = n →
  net_ok (sy_set_wire (sy_set_node s n nd') k (w_write_up w (o_sent (d_step (nd_key nd) (nd_relays nd) (nd_run nd) e).2))).
Proof.
  intros Hk Ho. apply (set_wire_ok _ _ w); [apply driver_node_ok|done|done|]. apply driver_wire_ok; [|done]. by eapply nk_wires.
Qed.

End driver_step.

Lemma net_elsewhere_ok s n nd d now enow nd' out :
  net_ok s → sy_nodes s !! n = Some nd → r_phase (nd_run nd) = Dialling →
  (dl_opened d = true → ∀ spec host, dialled (nd_relays nd) (nd_run nd) = Some spec → RelaySpec_host spec = Some host →
     host ∉ cfg_hosts cfg) →
  node_pass nd None d now enow = (nd', out) → net_ok (sy_sign (sy_set_node s n nd') (signs nd d)).
Proof.
  intros Hs Hnd Hph Hhost E. unfold node_pass in E. pose proof (driver_node_ok s n nd (DPass d now enow)) as Hst.
  pose proof (λ p, elsewhere_away nd d now enow p Hph Hhost) as Hel. destruct (d_step _ _ _ _) as [r o]. injection E as <- <-.
  apply sy_sign_ok; [apply Hst; try done; intros p Hp Ho; by destruct (Hel p Hp Ho)|].
  intros n' host c (_ & _ & Hop & spec & Hd & Hh)%signs_elem Hin. by destruct (Hhost Hop _ _ Hd Hh).
Qed.

(** What an outsider's relay sends a node is noted. *)
Lemma hear_ok s n nd l :
  net_ok s → sy_nodes s !! n = Some nd → (here_only nd → l = []) → net_ok (sy_set_node s n (nd_hear nd l)).
Proof.
  intros Hs Hnd Hl. pose proof (nk_nodes _ Hs _ _ Hnd) as [Hk Hb Hq Hi Ho Hh].
  assert (Hg : ∀ a d, accounted (sy_nodes s) n nd a d → accounted (<[n := nd_hear nd l]> (sy_nodes s)) n (nd_hear nd l) a d).
  { intros a d. apply (accounted_grow _ _ nd); [done|done|]. cbn. set_solver. }
  apply (set_node_ok _ _ nd); [done..|]. split; cbn; [done|done|done|eauto|eauto|].
  intros Ho'. destruct (Hh Ho') as [-> H]. by rewrite (Hl Ho').
Qed.

Lemma net_away_ok s n nd e nd' out :
  net_ok s → sy_nodes s !! n = Some nd → nd_conn nd = None →
  own_turn e = true ∨ (∃ m now_unix send_ok now, e = DMessage m now_unix send_ok now) →
  node_turn nd e = (nd', out) → net_ok (sy_set_node s n (nd_hear nd' (hears nd e))).
Proof.
  intros Hs Hnd Hc He E. pose proof (no_here _ _ _ (nk_nodes _ Hs _ _ Hnd)) as Hh. set (nd1 := nd_hear nd (hears nd e)).
  assert (H1 : net_ok (sy_set_node s n nd1)).
  { apply hear_ok; [done|done|]. intros Ho. destruct (Hh Ho) as [_ H]. unfold hears.
    destruct (r_phase (nd_run nd)) as [|p|] eqn:Ep; [done| |done]. by destruct (H p). }
  unfold node_turn in E. pose proof (driver_node_ok (sy_set_node s n nd1) n nd1 e) as Hst.
  change (d_step (nd_key nd1) (nd_relays nd1) (nd_run nd1) e) with (d_step (nd_key nd) (nd_relays nd) (nd_run nd) e) in Hst.
  pose proof (turn_here nd e) as Hth. destruct (d_step _ _ _ _) as [r o]. injection E as <- _.
  specialize (Hst (match r_phase r with Pumping _ => nd_conn nd | _ => None end) H1). unfold sy_set_node in Hst |- *. cbn [sy_nodes] in Hst.
  rewrite insert_insert_eq in Hst. apply Hst.
  - apply lookup_insert_eq.
  - destruct He as [He|(? & ? & ? & ? & ->)]; [by intros ??? ->|done].
  - intros bytes nu ok now source dg -> Hd [p Hp]. right. cbn. apply elem_of_app. right. unfold hears. cbn in Hp. rewrite Hp, Hd. by left.
  - intros p Hp Ho. cbn [fst] in Hp. rewrite Hp. eapply Hth; [done| |done|done]. destruct He as [He|(? & ? & ? & ? & ->)]; [by intros ??? ->|done].
Qed.

Lemma node_send_ok s n nd dest dg now now_unix udp :
  net_ok s → sy_nodes s !! n = Some nd → net_ok (sy_set_node s n (node_send nd dest dg now now_unix udp)).
Proof.
  intros Hs Hnd. assert (Hsame : net_ok (sy_set_node s n nd)).
  { unfold sy_set_node. rewrite insert_id by done. by destruct s. }
  unfold node_send. destruct (peer_for_synthetic _ _) as [peer|]; [|done].
  pose proof (nk_nodes _ Hs _ _ Hnd) as [Hk Hb Hq Hi Ho Hh]. rewrite Hb.
  destruct (driver_try_send _ _ _ _ _) as [[d b] outcome] eqn:E. destruct (try_send_identity _ _ _ _ _ _ _ E) as [-> Hf].
  destruct (path_try_send _ _ _ _ _ _ _ _ _).1.2 as [[a|dr pe]|]; [done| |done].
  apply (set_node_ok _ _ nd); [done|done|cbn; set_solver|].
  set (nd' := nd_log _ peer dg). split; cbn; [done|done| | | |exact Hh].
  - intros f [H| ->]%Hf; [|exists peer, dg; split; [done|]; set_solver].
    destruct (Hq _ H) as (dst & dg' & -> & Hin). exists dst, dg'. split; [done|]. set_solver.
  - intros source dg' drv Hin. apply (accounted_grow _ n nd nd' Hnd ltac:(cbn; set_solver) n nd); [done|]. by eapply Hi.
  - intros source dg' drv Hin. apply (accounted_grow _ n nd nd' Hnd ltac:(cbn; set_solver) n nd); [done|]. by eapply Ho.
Qed.

Lemma nd_ops_ok s n nd r ops :
  net_ok s → sy_nodes s !! n = Some nd → r_book r = None → r_phase r = r_phase (nd_run nd) →
  (∀ f, f ∈ d_queue (r_driver r) → f ∈ d_queue (r_driver (nd_run nd))) →
  (∀ x, x ∈ r_inbound r → x ∈ r_inbound (nd_run nd)) →
  (∀ source dg drv, ORelay source dg drv ∈ ops → ORelay source dg drv ∈ nd_ops nd ∨ (source, dg, drv) ∈ r_inbound (nd_run nd)) →
  net_ok (sy_set_node s n (nd_set_ops (nd_set_run nd r (nd_conn nd)) ops)).
Proof.
  intros Hs Hnd Hb Hp Hq Hi Ho. pose proof (nk_nodes _ Hs _ _ Hnd) as [Hk _ Hq' Hi' Ho' Hh].
  apply (set_node_ok _ _ nd); [done..|]. split; cbn; [done|done|by auto| | |].
  - intros source dg drv Hin. eapply (accounted_grow _ _ nd); [done..|]. eauto.
  - intros source dg drv Hin. eapply (accounted_grow _ _ nd); [done..|]. destruct (Ho _ _ _ Hin); eauto.
  - by rewrite Hp.
Qed.

(** *** Steps of the relay *)

(** Only a first frame gives a connection an identity. *)
Lemma step_identity r l r' k id a :
  step cfg r l r' → serves (r_conns r') k id (Identity a) →
  serves (r_conns r) k id (Identity a) ∨
  ∃ challenge m signature, l = LFirst k challenge (Some m) ∧ decode_binary m = Some (Auth a signature) ∧
    existsb (λ host, verify_relay_auth a host challenge signature) (cfg_hosts cfg) = true.
Proof.
  intros St. destruct St as [r j ip ch reg' Hk Ha|r j ip ch Hk|r j ip ch f reg' chans' Hk Hf
    |r j ip ch f reg' chans' m now io Hk Hf|r j ip s ev t Hk Ho Hev|r j ip s s' chans' Hk Hd
    |r j ip i m reg' chans' Hk Hcl|r j ip reg' Hk Hl]; cbn [r_conns].
  - intros [[_ H]|[_ H]]%serves_insert; [done|by left].
  - intros [[_ H]|[_ H]]%serves_insert; [done|by left].
  - intros [[_ H]|[_ H]]%serves_insert; [done|by left].
  - intros [[-> H]|[_ H]]%serves_insert; [|by left]. right.
    assert (m = Identity a) as -> by (destruct io; cbn in H; by injection H).
    unfold first_frame in Hf. destruct (decode_binary f) as [[]|] eqn:Ed; try done.
    + destruct (existsb _ _) eqn:Ex; [|done]. injection Hf as _ _ <-. eauto 10.
    + case_bool_decide; [done|]. by destruct (register_tags _ _ _ _ _ _).
  - intros [[-> H]|[_ H]]%serves_insert; [|by left]. left. rewrite (serves_at _ _ _ _ _ Hk). cbn.
    destruct (on_event_turn _ _ _ _ _ Ho Hev) as [(_ & Hi & Hm & _)|(cur & next & Hm & _ & Hi & Hm' & _)];
      unfold phase_after in H; destruct (t_end t); cbn in H; congruence.
  - intros [[-> H]|[_ H]]%serves_insert; [|by left]. left. rewrite (serves_at _ _ _ _ _ Hk). cbn in *.
    unfold deliver in Hd. destruct (s_out s) as [|[c f] rest]; [done|].
    by destruct (try_send (r_chans r) c f); injection Hd as <- <-.
  - intros [[_ H]|[_ H]]%serves_insert; [done|by left].
  - intros (c & Hc & Ha). apply lookup_delete_Some in Hc as [_ Hc]. left. by exists c.
Qed.

Lemma first_pending r k c m r' : step cfg r (LFirst k c m) r' → ∃ ip, r_conns r !! k = Some (mkConn ip (Pending c)).
Proof. inversion 1; eauto. Qed.

(** Only an accept leaves a connection pending. *)
Lemma step_pending r l r' k ip c :
  step cfg r l r' → (∀ k' ip', l ≠ LAccept k' ip') → r_conns r' !! k = Some (mkConn ip (Pending c)) →
  r_conns r !! k = Some (mkConn ip (Pending c)).
Proof.
  intros St Hl. destruct St as [| | |r j ip' ch f reg' chans' m now io| r j ip' s ev t| | |]; cbn [r_conns]; try (by edestruct Hl);
    try (intros [[_ E]|[_ E]]%lookup_insert_Some; by simplify_eq); [..|by intros [_ E]%lookup_delete_Some].
  - intros [[_ E]|[_ E]]%lookup_insert_Some; [by destruct io|done].
  - intros [[_ E]|[_ E]]%lookup_insert_Some; [|done]. unfold phase_after in E. by destruct (t_end t).
Qed.

(** A step of the relay that speaks for nobody new, or for whom it may. *)
Lemma set_relay_ok s l r :
  net_ok s → step cfg (sy_relay s) l r → (∀ k ip, l ≠ LAccept k ip) → step_allowed (allowed (sy_nodes s)) (sy_relay s) l →
  (∀ k challenge m a signature, l = LFirst k challenge (Some m) → decode_binary m = Some (Auth a signature) →
     existsb (λ host, verify_relay_auth a host challenge signature) (cfg_hosts cfg) = true →
     conn_ok (sy_nodes s) (sy_wires s) k a) →
  net_ok (sy_set_relay s r).
Proof.
  intros [[tr Hr] Ht Hn Hw Hc Hp Hg Hfr] St Hl Ha Hf. split; cbn; try done.
  - exists (tr ++ [l]). by eapply reach_step.
  - by eapply allowed_typed.
  - intros k id a H. destruct (step_identity _ _ _ _ _ _ St H) as [H'|(ch & m & sg & -> & Hd & Hv)]; [by eapply Hc|]. by eapply Hf.
  - intros k ip c H. eapply Hp. by eapply step_pending.
Qed.

(** What the relay writes to a node's session. *)
Lemma relay_writes s k ip se ev t w :
  net_ok s → sy_wires s !! k = Some w → r_conns (sy_relay s) !! k = Some (mkConn ip (Running se)) →
  on_event se (r_reg (sy_relay s)) (r_chans (sy_relay s)) ev = Some t →
  ∀ m, m ∈ at_node <$> t_sent t → down_ok (sy_nodes s) (w_owner w) m.
Proof.
  intros Hs Hk Hc He m Hm bytes source dg -> Hd. apply list_elem_of_fmap in Hm as ([f|pl] & E & Hm); [|done].
  injection E as ->. pose proof (turn_writes_typed _ _ _ _ _ _ _ _ (nk_typed _ Hs) Hc He Hm) as [Hw Hf].
  rewrite decode_encode in Hd by done. injection Hd as ->. destruct (lang (s_mode se)) as [a|] eqn:El; [|done].
  assert (Hsv : serves (r_conns (sy_relay s)) k (s_id se) (Identity a)).
  { exists (mkConn ip (Running se)). split; [done|]. cbn. destruct (s_mode se); [|done]. by injection El as ->. }
  pose proof (nk_conns _ Hs _ _ _ Hsv) as Ho. unfold conn_ok in Ho. rewrite Hk in Ho. by rewrite Ho.
Qed.

Lemma message_allowed s k w m rest now io_ok :
  net_ok s → sy_wires s !! k = Some w → w_up w = m :: rest →
  step_allowed (allowed (sy_nodes s)) (sy_relay s) (LEvent k (EvIncoming (Some (Ok m)) now io_ok)).
Proof.
  intros Hs Hk Hu k' ip se ev [= <- <-] Hc n bytes now' io' dst dg Hm [= -> _ _] Hd.
  assert (Hsv : serves (r_conns (sy_relay s)) k (s_id se) (Identity n)) by (exists (mkConn ip (Running se)); by rewrite <- Hm).
  pose proof (nk_conns _ Hs _ _ _ Hsv) as Ho. unfold conn_ok in Ho. rewrite Hk in Ho. subst n.
  destruct (wo_up _ _ (nk_wires _ Hs _ _ Hk) (MBinary bytes)) as [H _]; [rewrite Hu; by left|]. by apply H.
Qed.

Lemma outsider_allowed s k ev :
  net_ok s → sy_wires s !! k = None → step_allowed (allowed (sy_nodes s)) (sy_relay s) (LEvent k ev).
Proof.
  intros Hs Hk k' ip se ev' [= <- <-] Hc n bytes now' io' dst dg Hm -> Hd nd Hn.
  assert (Hsv : serves (r_conns (sy_relay s)) k (s_id se) (Identity n)) by (exists (mkConn ip (Running se)); by rewrite <- Hm).
  pose proof (nk_conns _ Hs _ _ _ Hsv) as Ho. unfold conn_ok in Ho. rewrite Hk in Ho. destruct Ho. by eapply elem_of_dom_2.
Qed.

(** A wire from which the relay read, and to which it wrote. *)
Lemma wire_read s w up down :
  wire_ok (sy_nodes s) w → (∀ m, m ∈ up → m ∈ w_up w) →
  (∀ m, m ∈ down → m ∈ w_down w ∨ down_ok (sy_nodes s) (w_owner w) m) → wire_ok (sy_nodes s) (mkWire (w_owner w) up down).
Proof.
  intros [H1 H2 H3] Hu Hd. split; cbn; [done|auto|]. intros m Hm. destruct (Hd _ Hm); auto.
Qed.

Lemma net_accept_ok s k ip c r owner :
  net_ok s → step cfg (sy_relay s) (LAccept k ip) r → r_conns r !! k = Some (mkConn ip (Pending c)) → c ∉ (sy_issued s).*1 →
  (∀ n, owner = Some n → n ∈ dom (sy_nodes s)) →
  net_ok (mkSystem r (sy_nodes s)
    (match owner with Some n => <[k := mkWire n [] []]> (sy_wires s) | None => delete k (sy_wires s) end)
    ((c, owner) :: sy_issued s) (sy_signed s)).
Proof.
  intros [[tr Hr] Ht Hn Hw Hc Hp Hg Hf] St Hk Hc0 Ho.
  assert (Hid : ∀ j id a, serves (r_conns r) j id (Identity a) → j ≠ k ∧ serves (r_conns (sy_relay s)) j id (Identity a)).
  { intros j id a. inversion St; subst. cbn. by intros [[_ ?]|[? H]]%serves_insert. }
  assert (Hpend : ∀ j ip' c', r_conns r !! j = Some (mkConn ip' (Pending c')) → j ≠ k → r_conns (sy_relay s) !! j = Some (mkConn ip' (Pending c'))).
  { intros j ip' c'. inversion St; subst. cbn. by intros [[-> _]|[_ H]]%lookup_insert_Some ?. }
  assert (Hnew : ∀ o, (c, o) ∉ sy_issued s) by (intros o H; apply Hc0, list_elem_of_fmap; by exists (c, o)).
  set (wires := match owner with Some n => _ | None => _ end).
  assert (Hwk : w_owner <$> wires !! k = owner) by (subst wires; destruct owner; [by rewrite lookup_insert_eq|by rewrite lookup_delete_eq]).
  assert (Hwj : ∀ j, j ≠ k → wires !! j = sy_wires s !! j)
    by (intros j Hj; subst wires; destruct owner; [by rewrite lookup_insert_ne|by rewrite lookup_delete_ne]).
  split; cbn; [..|].
  - exists (tr ++ [LAccept k ip]). by eapply reach_step.
  - by apply (allowed_typed cfg _ tr (sy_relay s) (LAccept k ip)).
  - done.
  - intros j w. destruct (decide (j = k)) as [->|Hj]; [|rewrite Hwj by done; apply Hw].
    subst wires. destruct owner as [n|]; [|by rewrite lookup_delete_eq]. rewrite lookup_insert_eq. intros [= <-].
    split; [by apply Ho|set_solver..].
  - intros j id a [Hj H]%Hid. specialize (Hc _ _ _ H). unfold conn_ok in *. by rewrite Hwj.
  - intros j ip' c' H. destruct (decide (j = k)) as [->|Hj].
    + rewrite Hwk. rewrite Hk in H. simplify_eq. by left.
    + rewrite Hwj by done. right. by eapply Hp, Hpend.
  - intros n host c' H Hh. right. by eapply Hg.
  - intros c' o o' [E|H]%elem_of_cons [E'|H']%elem_of_cons; simplify_eq; [done|by apply Hnew in H'|by apply Hnew in H|by eapply Hf].
Qed.

(** *** Every step *)

Lemma node_take_ok s n nd : net_ok s → sy_nodes s !! n = Some nd → net_ok (sy_set_node s n (node_take nd)).
Proof.
  intros Hs Hnd. unfold node_take. pose proof (nk_nodes _ Hs _ _ Hnd) as Hn.
  destruct (r_inbound (nd_run nd)) as [|[[source dg] drv] q] eqn:Eq.
  { unfold sy_set_node. rewrite insert_id by done. by destruct s. }
  apply nd_ops_ok; [done|done|apply Hn|done|done| |].
  - intros x. cbn. rewrite Eq. cbn. rewrite drop_0. set_solver.
  - intros source' dg' drv' [H|[= -> -> ->]%list_elem_of_singleton]%elem_of_app; [by left|]. right. rewrite Eq. by left.
Qed.

Lemma net_read_ok s n nd k w m rest nu ok now nd' out :
  net_ok s → sy_nodes s !! n = Some nd → sy_wires s !! k = Some w → w_owner w = n → w_down w = m :: rest →
  node_turn nd (DMessage (Some (Ok m)) nu ok now) = (nd', out) →
  net_ok (sy_set_wire (sy_set_node s n nd') k (w_write_up (mkWire n (w_up w) rest) out)).
Proof.
  intros Hs Hnd Hk Ho Hdn E. unfold node_turn in E. set (e := DMessage _ _ _ _) in *.
  assert (Hw0 : net_ok (sy_set_wire s k (mkWire n (w_up w) rest))).
  { apply (set_wire_ok _ _ w); [done..|]. rewrite <- Ho. apply wire_read; [exact (nk_wires _ Hs _ _ Hk)|done|]. rewrite Hdn. set_solver. }
  pose proof (driver_step_ok (sy_set_wire s k (mkWire n (w_up w) rest)) n nd e) as Hst.
  pose proof (turn_here nd e) as Hth. pose proof (no_here _ _ _ (nk_nodes _ Hs _ _ Hnd)) as Hh.
  destruct (d_step _ _ _ _) as [r o]. injection E as <- <-. cbn in Hst.
  pose proof (Hst (match r_phase r with Pumping _ => nd_conn nd | _ => None end) Hw0 Hnd) as Hst'.
  unfold sy_set_wire, sy_set_node in *. cbn in *.
  rewrite <- (insert_insert_eq (sy_wires s) k _ (mkWire n (w_up w) rest)). apply Hst'; try done.
  - intros bytes nu' ok' now' source dg [= -> _ _ _] Hd _. left. rewrite <- Ho.
    eapply (wo_down _ _ (nk_wires _ Hs _ _ Hk)); [|done|done]. rewrite Hdn. by left.
  - intros p Hp. rewrite Hp. by eapply Hth.
  - by rewrite lookup_insert_eq.
Qed.

(** Nobody else has a signature for the challenge of an outsider's connection. *)
Lemma net_outsider_ok s k ch m r :
  net_ok s → sy_wires s !! k = None → unforged s ch m → step cfg (sy_relay s) (LFirst k ch (Some m)) r → net_ok (sy_set_relay s r).
Proof.
  intros Hs Hk Hun St. eapply set_relay_ok; [done|done|done|done|].
  intros k' ch' m' a sg [= <- <- <-] Hd Hv. unfold conn_ok. rewrite Hk. intros Hin.
  apply existsb_exists in Hv as (host & Hh%list_elem_of_In & Hv). pose proof (nk_signed _ Hs _ _ _ (Hun _ _ _ Hd Hin Hh Hv) Hh) as Hi.
  destruct (first_pending _ _ _ _ _ St) as [ip Hpe]. apply (nk_pending _ Hs) in Hpe. rewrite Hk in Hpe.
  by pose proof (nk_fresh _ Hs _ _ _ Hi Hpe).
Qed.

(** A turn of a node's session at the relay. *)
Lemma net_session_ok s k ip se ev t r w up :
  net_ok s → sy_wires s !! k = Some w → (∀ m, m ∈ up → m ∈ w_up w) → r_conns (sy_relay s) !! k = Some (mkConn ip (Running se)) →
  on_event se (r_reg (sy_relay s)) (r_chans (sy_relay s)) ev = Some t → net_ok (sy_set_relay s r) →
  net_ok (sy_set_wire (sy_set_relay s r) k (w_write_down (mkWire (w_owner w) up (w_down w)) (t_sent t))).
Proof.
  intros Hs Hk Hup Hc He Hst. apply (set_wire_ok _ _ w); [done..|].
  apply (wire_read (sy_set_relay s r) w); [exact (nk_wires _ Hs _ _ Hk)|done|].
  intros m' [?|Hm]%elem_of_app; [by left|right]. exact (relay_writes s k ip se _ t w Hs Hk Hc He m' Hm).
Qed.

Lemma net_step_ok s s' : net_ok s → net_step s s' → net_ok s'.
Proof.
  intros Hs St. destruct St as [s n nd dest dg now nu udp Hnd|s n nd op Hnd Hop|s n nd Hnd|s n nd k w d now enow nd' out Hnd Hph Hk Ho Hch E
    |s n nd d now enow nd' out Hnd Hph Hhost E|s n nd e nd' out Hnd Hc He E
    |s n nd k w e nd' out Hnd Hc Hk Ho Ht E|s n nd k w m rest nu ok now nd' out Hnd Hc Hk Ho Hdn E|s n nd e nu now Hnd He
    |s k ip c r owner St Hpe Hfr Ho|s k ch m rest w r Hk Hu St|s k ch m r Hk Hun St|s k ip se m rest w now io t r Hk Hu Hc He St
    |s k ip se ev w t r Hk Hne Hc He St|s k ev r Hk St|s l r St Hl].
  - by apply node_send_ok.
  - pose proof (nk_nodes _ Hs _ _ Hnd) as Hn. apply (nd_ops_ok s n nd (nd_run nd)); [done|done|apply Hn|done|done|done|].
    intros source dg drv [H|H%list_elem_of_singleton]%elem_of_app; [by left|]. by destruct (Hop source dg drv).
  - by apply node_take_ok.
  - unfold node_pass in E. pose proof (driver_step_ok s n nd (DPass d now enow)) as Hst.
    pose proof (no_key _ _ _ (nk_nodes _ Hs _ _ Hnd)) as Hid. destruct (d_step _ _ _ _) as [r o]. injection E as <- <-.
    apply sy_sign_ok; [apply Hst; try done; intros p Hp _; cbn [fst] in Hp; by rewrite Hp|].
    intros n' host c (-> & Hd & _)%signs_elem _. rewrite Hid. by apply Hch.
  - by eapply net_elsewhere_ok.
  - by eapply net_away_ok.
  - unfold node_turn in E. pose proof (driver_step_ok s n nd e) as Hst. pose proof (turn_here nd e) as Hth.
    pose proof (no_here _ _ _ (nk_nodes _ Hs _ _ Hnd)) as Hh. destruct (d_step _ _ _ _) as [r o]. injection E as <- <-.
    apply Hst; try done; [by intros dst dg nw -> | by intros bytes nu ok nw source dg -> |].
    intros p Hp. cbn [fst] in Hp. rewrite Hp. eapply Hth; [done| |done]. by intros ??? ->.
  - by eapply net_read_ok.
  - unfold node_turn. pose proof (driver_node_ok s n nd (DMessage e nu true now)) as Hst. pose proof (turn_here nd (DMessage e nu true now)) as Hth.
    pose proof (no_here _ _ _ (nk_nodes _ Hs _ _ Hnd)) as Hh. destruct (d_step _ _ _ _) as [r o]. cbn. apply Hst; try done.
    + intros bytes nu' ok nw source dg [= ->]. by destruct He.
    + intros p Hp. cbn [fst] in Hp. rewrite Hp. by eapply Hth.
  - by apply net_accept_ok with ip.
  - assert (Hst : net_ok (sy_set_relay s r)).
    { eapply set_relay_ok; [done|done|done|done|]. intros k' ch' m' a sg [= <- <- <-] Hd _. unfold conn_ok. rewrite Hk.
      destruct (wo_up _ _ (nk_wires _ Hs _ _ Hk) m) as [_ H]; [rewrite Hu; by left|]. symmetry. by eapply H. }
    apply (set_wire_ok _ _ w); [done..|]. apply wire_read; [exact (nk_wires _ Hs _ _ Hk)|rewrite Hu; set_solver|set_solver].
  - by eapply net_outsider_ok.
  - eapply net_session_ok; [done|done|rewrite Hu; set_solver|done|done|].
    eapply set_relay_ok; [done|done|done|by eapply message_allowed|done].
  - assert (Hst : net_ok (sy_set_relay s r)).
    { eapply set_relay_ok; [done|done|done| |done]. intros k' ip' se' ev' [= <- <-] _ n bytes now io dst dg _ ->. by destruct (Hne (MBinary bytes) now io). }
    pose proof (net_session_ok s k ip se ev t r w (w_up w) Hs Hk (λ m H, H) Hc He Hst) as H. by destruct w.
  - eapply set_relay_ok; [done|done|done|by eapply outsider_allowed|done].
  - eapply set_relay_ok; [done|done|by intros k ip ->| |]; [intros k' ip' se' ev' ->; done | intros k ch m a sg ->; done].
Qed.

Lemma net_reach_ok s : net_reach s → net_ok s.
Proof.
  intros (s0 & (Hr & Hw & Hi & Hg & Hn) & Hrtc). assert (H0 : net_ok s0).
  { split.
    - exists []. rewrite Hr. constructor.
    - rewrite Hr. apply init_typed.
    - intros n nd Hnd. destruct (Hn _ _ Hnd) as (Hk & _ & Hs & Hfo & [id Hrun] & Hops).
      split; [done|by rewrite Hrun; destruct (nd_relays nd)| | | |split; [done|by rewrite Hrun; destruct (nd_relays nd)]].
      + intros f. rewrite Hrun. destruct (nd_relays nd); cbn; [rewrite set_status_queue|]; cbn; set_solver.
      + intros source dg drv. rewrite Hrun. destruct (nd_relays nd); cbn; set_solver.
      + intros source dg drv H. by apply Hops in H.
    - rewrite Hw. intros k w. by rewrite lookup_empty.
    - intros k id a (c & Hc & _). rewrite Hr in Hc. cbn in Hc. by rewrite lookup_empty in Hc.
    - intros k ip c. rewrite Hr. cbn. by rewrite lookup_empty.
    - rewrite Hg. set_solver.
    - rewrite Hi. set_solver. }
  clear Hr Hw Hi Hg Hn. induction Hrtc as [|x y z Hxy _ IH]; [done|]. apply IH. by eapply net_step_ok.
Qed.

(** ** What quinn is given *)

Lemma send_ping_inbound p peer addr i : p_inbound (fst (send_ping p peer addr i)) = p_inbound p.
Proof. unfold send_ping. destruct (p_udp p); cbn; [|done]. by destruct (pr_probe_key _) as [[]|]. Qed.

Lemma ping_all_inbound p peer targets rnd n sent : p_inbound (fst (ping_all p peer targets rnd n sent)) = p_inbound p.
Proof.
  revert p n sent. induction targets as [|a targets IH]; intros p n sent; simpl; [done|].
  pose proof (send_ping_inbound p peer a (rnd n)) as E. destruct (send_ping _ _ _ _) as [p' ok]. by rewrite IH.
Qed.

(** Without UDP nothing is probed, so nothing arrives directly. *)
Lemma direct_inbound_none p d src i :
  p_udp p = false → in_by_direct (p_inner p) = ∅ → p_inbound (direct_inbound p d src i) = p_inbound p.
Proof.
  intros Hu Hd. unfold direct_inbound, handle_probe. rewrite Hu, Hd. cbn. repeat case_match; simplify_eq; try done.
Qed.

Lemma poll_recv_rest q bufs x : x ∈ (poll_recv q bufs).2 → x ∈ q.
Proof.
  revert q. induction bufs as [|b bufs IH]; intros q; [by destruct q|]. destruct q as [|[from data] q]; [done|]. cbn.
  pose proof (IH q) as Hq. destruct (poll_recv q bufs) as [filled q']. cbn in *. intros H%Hq. by right.
Qed.

(** Everything a relay-only path socket holds for quinn came from its relay driver. *)
Lemma relay_only_inbound key refl ops from dg :
  (from, dg) ∈ p_inbound (p_run key None refl ops) →
  ∃ source drv, from = NodeId_synthetic_addr source ∧ ORelay source dg drv ∈ ops.
Proof.
  induction ops as [|op ops IH] using rev_ind; [set_solver|]. rewrite p_run_snoc.
  pose proof (relay_only_never_direct key refl ops) as Hro. cbn zeta in Hro. destruct Hro as (_ & _ & _ & _ & Hd & _).
  assert (Hu : p_udp (p_run key None refl ops) = false) by apply p_run_udp.
  set (p := p_run key None refl ops) in *.
  assert (Hold : (from, dg) ∈ p_inbound p → ∃ source drv, from = NodeId_synthetic_addr source ∧ ORelay source dg drv ∈ ops ++ [op]).
  { intros (source & drv & ? & ?)%IH. exists source, drv. split; [done|]. set_solver. }
  destruct op; cbn [p_step]; try exact Hold.
  - unfold drop_direct. by case_bool_decide.
  - unfold end_session. by case_bool_decide.
  - unfold unregister_probe_key. by case_match.
  - unfold send_probes. rewrite ping_all_inbound. exact Hold.
  - unfold requery_reflector, query_reflector. repeat case_match; done.
  - unfold query_reflector. by case_match.
  - rewrite direct_inbound_none by done. exact Hold.
  - unfold relay_inbound, deliver_inbound. destruct (_ <? _)%nat; [|exact Hold]. cbn.
    intros [H|[= -> ->]%list_elem_of_singleton]%elem_of_app; [by apply Hold|]. exists source, driver. split; [done|]. set_solver.
  - cbn. intros H%poll_recv_rest. by apply Hold.
Qed.

(** C10: no datagram is put into a node's mouth.  Whatever nodes, relay and outsiders
    do, in every interleaving, with connections lost and made again, and with outsiders
    who run relays of their own, collect signatures there and present them to this one:
    a session of the relay that speaks for a node is on a connection of that node, and a
    datagram the relay driver of a node hands to its path socket under the name of
    another node was handed by that node to its own driver for exactly this node, byte
    for byte, or it came from a relay of an outsider that this node lists, dials and is
    welcomed by.  A node without UDP is given nothing else, so what quinn reads there
    from the synthetic address of a node was sent by a node of that address or came from
    such a relay.  A node that lists only relays at names this relay answers for is
    never given anything by an outsider's.  Signatures are not forged, the relay's
    challenges do not repeat, nodes are in identity mode with one relay driver each, and
    under a name this relay answers for nobody else does. *)
Theorem relayed_datagrams_are_sent s n nd :
  net_reach s → sy_nodes s !! n = Some nd →
  (∀ k id, serves (r_conns (sy_relay s)) k id (Identity n) → w_owner <$> sy_wires s !! k = Some n) ∧
  (∀ source datagram driver, ORelay source datagram driver ∈ nd_ops nd →
     (∀ sender, sy_nodes s !! source = Some sender → (n, datagram) ∈ nd_sent sender) ∨ (source, datagram) ∈ nd_foreign nd) ∧
  (nd_udp nd = None → ∀ from datagram, (from, datagram) ∈ p_inbound (nd_paths nd) →
     ∃ source, from = NodeId_synthetic_addr source ∧
       ((∀ sender, sy_nodes s !! source = Some sender → (n, datagram) ∈ nd_sent sender) ∨ (source, datagram) ∈ nd_foreign nd)) ∧
  ((∀ spec host, spec ∈ nd_relays nd → RelaySpec_host spec = Some host → host ∈ cfg_hosts cfg) → nd_foreign nd = []).
Proof.
  intros Hs%net_reach_ok Hn. pose proof (nk_nodes _ Hs _ _ Hn) as Hok. split_and!.
  - intros k id H. pose proof (nk_conns _ Hs _ _ _ H) as Hc. unfold conn_ok in Hc. destruct (sy_wires s !! k); cbn; [by rewrite Hc|].
    destruct Hc. by eapply elem_of_dom_2.
  - intros source datagram driver Hin. by eapply no_ops.
  - intros Hu from datagram. unfold nd_paths. rewrite Hu. intros (source & drv & -> & Hin)%relay_only_inbound.
    exists source. split; [done|]. by eapply no_ops.
  - intros H. by destruct (no_here _ _ _ Hok H).
Qed.

(** ** A datagram's way *)

(** A node whose relay session is up and idle: [k] is its connection, [se] the
    relay's side of it. *)
Record idle_node (s : System) (n : NodeId) (nd : Node) (k : nat) (ip : IpAddr) (se : Session) : Prop := {
  id_node : sy_nodes s !! n = Some nd;
  id_conn : nd_conn nd = Some k;
  id_pump : ∃ p, r_phase (nd_run nd) = Pumping p;
  id_driver : let d := r_driver (nd_run nd) in d_stop d = false ∧ d_receiving d = true ∧ d_queue d = [];
  id_inbound : r_inbound (nd_run nd) = [] ∧ p_inbound (nd_paths nd) = [];
  id_wire : sy_wires s !! k = Some (mkWire n [] []);
  id_session : r_conns (sy_relay s) !! k = Some (mkConn ip (Running se)) ∧ s_out se = [];
  id_chan : r_chans (sy_relay s) !! (s_id se : chan) = Some [];
}.

Lemma idle_apart s a na ka ipa sa b nb kb ipb sb : idle_node s a na ka ipa sa → idle_node s b nb kb ipb sb → a ≠ b → ka ≠ kb.
Proof. intros Ha Hb Hne ->. pose proof (id_wire _ _ _ _ _ _ Ha) as H. rewrite (id_wire _ _ _ _ _ _ Hb) in H. by simplify_eq. Qed.

Lemma node_send_queues nd dest peer dg now now_unix udp :
  r_book (nd_run nd) = None → (length dg ≤ MAX_DATAGRAM)%nat →
  (let d := r_driver (nd_run nd) in d_stop d = false ∧ d_receiving d = true ∧ d_queue d = []) →
  peer_for_synthetic (nd_paths nd) dest = Some peer → proven_direct (nd_paths nd) peer = None →
  node_send nd dest dg now now_unix udp =
    nd_log (nd_set_run nd (r_set_book (r_set_driver (nd_run nd) (d_set_queue (r_driver (nd_run nd)) [Send peer dg])) None) (nd_conn nd)) peer dg.
Proof.
  intros Hb Hl (Hs & Hr & Hq) Hp Hd. unfold node_send. rewrite Hp. cbn zeta. unfold driver_try_send, finish_send, queue_send.
  rewrite Hs, Hb, Hr, Hq. cbn -[path_try_send nd_paths]. unfold path_try_send.
  destruct (Nat.ltb_spec MAX_DATAGRAM (length dg)); [lia|]. by rewrite Hp, Hd.
Qed.

Lemma outbound_writes key relays r p f now :
  r_phase r = Pumping p → d_queue (r_driver r) = [f] → o_sent (d_step key relays r (DOutbound true now)).2 = [PFrame f].
Proof. intros Hp Hq. cbn [d_step]. rewrite Hp. unfold pump_outbound, outbound_take. by rewrite Hq. Qed.

Lemma message_delivers key relays r p source dg now_unix now :
  r_phase r = Pumping p → r_book r = None → r_inbound r = [] → datagram_ok dg →
  (d_step key relays r (DMessage (Some (Ok (WsBinary (Frame_encode (Recv source dg))))) now_unix true now)) =
    (r_set_inbound r [(source, dg, d_id (r_driver r))], quiet).
Proof.
  intros Hp Hb Hi Hd. cbn [d_step]. rewrite Hp. unfold pump_message. rewrite decode_encode by done. cbn [run_opt]. rewrite Hb.
  unfold r_deliver. rewrite Hi. done.
Qed.

Lemma take_hands_on nd source dg drv :
  r_inbound (nd_run nd) = [(source, dg, drv)] → p_inbound (nd_paths nd) = [] →
  p_inbound (nd_paths (node_take nd)) = [(NodeId_synthetic_addr source, dg)].
Proof.
  intros Hi Hp. unfold node_take. rewrite Hi. unfold nd_paths in *. cbn [nd_set_ops nd_set_run nd_key nd_udp nd_reflector nd_ops].
  rewrite p_run_snoc. cbn [p_step]. unfold relay_inbound, deliver_inbound. cbn. by rewrite Hp.
Qed.

(** A frame that is queued reaches the wire of its node. *)
Lemma writing_leg s a na ka p f :
  sy_nodes s !! a = Some na → nd_conn na = Some ka → r_phase (nd_run na) = Pumping p → d_queue (r_driver (nd_run na)) = [f] →
  sy_wires s !! ka = Some (mkWire a [] []) →
  ∃ s', rtc net_step s s' ∧ sy_relay s' = sy_relay s ∧ (∀ n, n ≠ a → sy_nodes s' !! n = sy_nodes s !! n) ∧
    sy_wires s' = <[ka := mkWire a [MBinary (Frame_encode f)] []]> (sy_wires s).
Proof.
  intros Hn Hc Hp Hq Hw. pose proof (outbound_writes (nd_key na) (nd_relays na) (nd_run na) p f 0 Hp Hq) as Hout.
  destruct (node_turn na (DOutbound true 0)) as [na2 out] eqn:Et.
  assert (Hout2 : out = [PFrame f]).
  { unfold node_turn in Et. destruct (d_step _ _ _ _) as [r o]. cbn in Hout. by simplify_eq. }
  exists (sy_set_wire (sy_set_node s a na2) ka (w_write_up (mkWire a [] []) out)). split_and!.
  - apply rtc_once. by apply (net_turn _ a na ka _ (DOutbound true 0)).
  - done.
  - intros n Hne. cbn. by rewrite lookup_insert_ne.
  - by rewrite Hout2.
Qed.

(** A frame the relay reads and answers with one for another session is queued for
    that session and written there. *)
Lemma relay_leg s a b ka kb ip ip' sa sb s1 fin fout ev_now :
  let r := sy_relay s in
  let ev := EvIncoming (Some (Ok (MBinary (Frame_encode fin)))) ev_now true in
  r_conns r !! ka = Some (mkConn ip (Running sa)) → s_out sa = [] →
  r_conns r !! kb = Some (mkConn ip' (Running sb)) → s_out sb = [] → ka ≠ kb →
  r_chans r !! (s_id sb : chan) = Some [] →
  on_event sa (r_reg r) (r_chans r) ev = Some (go_on s1 (r_reg r) (r_chans r)) → s_out s1 = [(s_id sb, fout)] →
  (∃ source dg, fout = Recv source dg) ∨ (∃ tag dg, fout = RecvTag tag dg) →
  sy_wires s !! ka = Some (mkWire a [MBinary (Frame_encode fin)] []) → sy_wires s !! kb = Some (mkWire b [] []) →
  ∃ s', rtc net_step s s' ∧ sy_nodes s' = sy_nodes s ∧ sy_wires s' !! kb = Some (mkWire b [] [WsBinary (Frame_encode fout)]).
Proof.
  cbn zeta. set (r := sy_relay s). set (ev := EvIncoming _ _ _). intros Ha Hoa Hb Hob Hne Hch He Ho1 Hfo Hwa Hwb.
  set (r1 := mkRelay (r_reg r) (r_chans r) (r_next r) (<[ka := mkConn ip (Running s1)]> (r_conns r))).
  set (chans2 := <[s_id sb := [fout]]> (r_chans r)).
  assert (Hd : deliver s1 (r_chans r1) = Some (set_out s1 [], chans2)) by (unfold deliver, try_send; rewrite Ho1; cbn; by rewrite Hch).
  set (r2 := mkRelay (r_reg r) chans2 (r_next r) (<[ka := mkConn ip (Running (set_out s1 []))]> (r_conns r1))).
  assert (Hb2 : r_conns r2 !! kb = Some (mkConn ip' (Running sb))) by (cbn; by rewrite !lookup_insert_ne).
  assert (He3 : ∃ s3, on_event sb (r_reg r2) (r_chans r2) (EvOutbound true) = Some (mkTurn s3 (r_reg r) (<[s_id sb := []]> chans2) [SFrame fout] None)).
  { cbn [on_event]. unfold on_outbound. cbn [r_chans r2]. unfold chans2 at 1. rewrite lookup_insert_eq.
    destruct Hfo as [(source & dg & ->)|(tag & dg & ->)]; by eexists. }
  destruct He3 as [s3 He3]. set (t3 := mkTurn _ _ _ _ _) in He3.
  eexists. split; [|split].
  - eapply rtc_l; [exact (net_incoming s ka ip sa _ [] _ ev_now true _ r1 Hwa eq_refl Ha He (step_event _ r ka ip sa ev _ Ha Hoa He))|].
    eapply rtc_l; [eapply (net_relay _ (LDeliver ka) r2); [|done]|].
    { apply (step_deliver _ r1 ka ip s1 (set_out s1 []) chans2); [cbn; by rewrite lookup_insert_eq | done]. }
    apply rtc_once. eapply (net_event _ kb ip' sb (EvOutbound true) (mkWire b [] []) t3); try done; [cbn; by rewrite lookup_insert_ne|].
    exact (step_event _ r2 kb ip' sb _ t3 Hb2 Hob He3).
  - done.
  - cbn. by rewrite lookup_insert_eq.
Qed.

(** A message its driver takes for a datagram is handed to the path socket, which
    holds it for quinn. *)
Lemma receiving_leg s who b nb kb p bytes r1 dg now :
  sy_nodes s !! b = Some nb → nd_conn nb = Some kb → r_phase r1 = Pumping p →
  d_step (nd_key nb) (nd_relays nb) (nd_run nb) (DMessage (Some (Ok (WsBinary bytes))) now true 0) = (r1, quiet) →
  r_inbound r1 = [(who, dg, d_id (r_driver (nd_run nb)))] → p_inbound (nd_paths nb) = [] →
  sy_wires s !! kb = Some (mkWire b [] [WsBinary bytes]) →
  ∃ s' nb', rtc net_step s s' ∧ sy_nodes s' !! b = Some nb' ∧ p_inbound (nd_paths nb') = [(NodeId_synthetic_addr who, dg)] ∧
    nd_udp nb' = nd_udp nb ∧ nd_relays nb' = nd_relays nb.
Proof.
  intros Hn Hc Hp Hm Hi Hpi Hw.
  assert (Et : node_turn nb (DMessage (Some (Ok (WsBinary bytes))) now true 0) = (nd_set_run nb r1 (Some kb), [])).
  { unfold node_turn. rewrite Hm. cbn [o_sent quiet]. by rewrite Hp, Hc. }
  set (nb1 := nd_set_run nb r1 (Some kb)) in *. eexists _, (node_take nb1). split_and!.
  - eapply rtc_l; [exact (net_read s b nb kb _ _ [] now true 0 _ _ Hn Hc Hw eq_refl eq_refl Et)|].
    apply rtc_once. apply (net_take _ b nb1). cbn. by rewrite lookup_insert_eq.
  - cbn. by rewrite lookup_insert_eq.
  - by eapply take_hands_on.
  - unfold node_take. by destruct (r_inbound _) as [|[[]]].
  - unfold node_take. by destruct (r_inbound _) as [|[[]]].
Qed.

Lemma send_forwarded sa a reg chans b sid dg now :
  s_mode sa = Identity a → s_out sa = [] → reg_sessions reg !! b = Some (sid : chan) → datagram_ok dg →
  (ByteBudget_allow (s_budget sa) (Z.of_nat (length dg)) now).1 = true →
  ∃ s1, on_event sa reg chans (EvIncoming (Some (Ok (MBinary (Frame_encode (Send b dg))))) now true) = Some (go_on s1 reg chans) ∧
    s_out s1 = [(sid, Recv a dg)].
Proof.
  intros Hm Ho Hreg Hdg Hall. destruct (ByteBudget_allow _ _ _) as [okb bud] eqn:Eb. cbn in Hall. subst okb.
  exists (set_out (set_budget (add_bytes_in (add_frame_in sa) (Z.of_nat (length dg))) bud) [(sid, Recv a dg)]). split; [|done].
  cbn [on_event on_incoming]. unfold decode_binary. rewrite decode_encode by done. cbn [run_opt on_frame].
  unfold on_send. cbn [s_mode add_frame_in add_bytes_in s_budget]. rewrite Hm. rewrite Eb. cbn [negb]. by rewrite Hreg.
Qed.

(** Idle nodes of a reachable system can exchange a datagram. *)
Lemma idle_nodes_exchange s a na ka ipa sa b nb kb ipb sb dest dg now :
  net_reach s → idle_node s a na ka ipa sa → idle_node s b nb kb ipb sb → a ≠ b → s_mode sa = Identity a →
  reg_sessions (r_reg (sy_relay s)) !! b = Some (s_id sb : chan) →
  (ByteBudget_allow (s_budget sa) (Z.of_nat (length dg)) now).1 = true → datagram_ok dg →
  peer_for_synthetic (nd_paths na) dest = Some b → proven_direct (nd_paths na) b = None →
  ∃ s' nb', rtc net_step s s' ∧ sy_nodes s' !! b = Some nb' ∧ p_inbound (nd_paths nb') = [(NodeId_synthetic_addr a, dg)] ∧
    nd_udp nb' = nd_udp nb ∧ nd_relays nb' = nd_relays nb.
Proof.
  intros Hs%net_reach_ok Ha Hb Hne Hma Hreg Hall Hdg Hpeer Hdirect.
  pose proof (no_book _ _ _ (nk_nodes _ Hs _ _ (id_node _ _ _ _ _ _ Ha))) as Hba.
  pose proof (no_book _ _ _ (nk_nodes _ Hs _ _ (id_node _ _ _ _ _ _ Hb))) as Hbb.
  pose proof (idle_apart _ _ _ _ _ _ _ _ _ _ _ Ha Hb Hne) as Hk.
  destruct Ha as [Hna Hca [pa Hpa] Hda _ Hwa [Hsa Hoa] _]. destruct Hb as [Hnb Hcb [pb Hpb] _ [Hib Hpib] Hwb [Hsb Hob] Hchb].
  pose proof (node_send_queues na dest b dg now 0 UdpOk Hba (proj2 Hdg) Hda Hpeer Hdirect) as Hsend.
  set (na1 := node_send na dest dg now 0 UdpOk) in *.
  destruct (writing_leg (sy_set_node s a na1) a na1 ka pa (Send b dg)) as (s1 & H1 & Hr1 & Hn1 & Hw1);
    [apply lookup_insert_eq|by rewrite Hsend..|done|].
  destruct (send_forwarded sa a (r_reg (sy_relay s)) (r_chans (sy_relay s)) b (s_id sb) dg now) as (sa1 & He & Ho1); try done.
  destruct (relay_leg s1 a b ka kb ipa ipb sa sb sa1 (Send b dg) (Recv a dg) now) as (s2 & H2 & Hn2 & Hw2);
    [rewrite ?Hr1; eauto..| by rewrite Hw1, lookup_insert_eq | by rewrite Hw1, lookup_insert_ne|].
  pose proof (message_delivers (nd_key nb) (nd_relays nb) (nd_run nb) pb a dg 0 0 Hpb Hbb Hib Hdg) as Hmsg.
  destruct (receiving_leg s2 a b nb kb pb (Frame_encode (Recv a dg)) (r_set_inbound (nd_run nb) [(a, dg, d_id (r_driver (nd_run nb)))]) dg 0)
    as (s3 & nb' & H3 & ?); try done.
  - rewrite Hn2, Hn1 by done. cbn. by rewrite lookup_insert_ne.
  - exists s3, nb'. split; [|done]. eapply rtc_l; [exact (net_send s a na dest dg now 0 UdpOk Hna)|].
    etrans; [exact H1|]. by etrans.
Qed.

(** ** From nothing to a datagram *)

(** The system once node [n] has come up on connection [k]. *)
Definition joined (s : System) (n : NodeId) (nd : Node) (k : nat) (ip : IpAddr) (reg : Registry) (spec : RelaySpec)
    (challenge : array 32) : System :=
  let r := sy_relay s in
  mkSystem
    (mkRelay (mkRegistry (<[n := r_next r]> (reg_sessions reg)) (reg_tags reg) (reg_live reg) (reg_by_source reg))
       (<[r_next r := []]> (r_chans r)) (r_next r + 1)
       (<[k := mkConn ip (Running (new_session cfg (r_next r) (Identity n) 0))]> (r_conns r)))
    (<[n := nd_set_run nd (attempt_up (nd_run nd) spec 0 []).1 (Some k)]> (sy_nodes s))
    (<[k := mkWire n [] []]> (sy_wires s))
    ((challenge, Some n) :: sy_issued s)
    (sy_signed s ++ match RelaySpec_host spec with Some host => [(tk_node_id (nd_key nd), host, challenge)] | None => [] end).

(** A node that dials, is challenged, signs and is welcomed has its session. *)
Lemma node_joins {L : CryptoLaws C} s n nd k ip reg spec host challenge :
  challenge ∉ (sy_issued s).*1 → sy_nodes s !! n = Some nd → tk_node_id (nd_key nd) = n → TransportKey_wf (nd_key nd) →
  r_phase (nd_run nd) = Dialling → r_book (nd_run nd) = None →
  dialled (nd_relays nd) (nd_run nd) = Some spec → RelaySpec_host spec = Some host → host ∈ cfg_hosts cfg →
  r_conns (sy_relay s) !! k = None → accept cfg (r_reg (sy_relay s)) ip = Some reg → reg_sessions reg !! n = None →
  rtc net_step s (joined s n nd k ip reg spec challenge).
Proof.
  intros Hch Hn Hid Hwf Hph Hb Hdl Hho Hin Hk Hacc Hreg. set (r := sy_relay s) in *.
  set (sig := sign_relay_auth (nd_key nd) host challenge).
  set (dial := mkDial true (Some (Challenge challenge)) 0 true (Some (Welcome (pad_array 16 []))) 0).
  set (nd' := nd_set_run nd (attempt_up (nd_run nd) spec 0 []).1 (Some k)).
  assert (Hpass : node_pass nd (Some k) dial 0 0 = (nd', [PFrame (Auth n sig)])).
  { unfold node_pass. cbn [d_step]. rewrite Hph. unfold loop_pass, connect. rewrite Hb, Hdl, Hho. cbn. by rewrite Hid. }
  set (m := MBinary (Frame_encode (Auth n sig))).
  set (r1 := mkRelay reg (r_chans r) (r_next r) (<[k := mkConn ip (Pending challenge)]> (r_conns r))).
  set (r2 := mkRelay (mkRegistry (<[n := r_next r]> (reg_sessions reg)) (reg_tags reg) (reg_live reg) (reg_by_source reg))
       (<[r_next r := []]> (r_chans r)) (r_next r + 1)
       (<[k := mkConn ip (Running (new_session cfg (r_next r) (Identity n) 0))]> (r_conns r1))).
  assert (Hfirst : step cfg r1 (LFirst k challenge (Some m)) r2).
  { apply (step_first_ok cfg r1 k ip challenge m _ _ (Identity n) 0 true); [cbn; by rewrite lookup_insert_eq|].
    unfold first_frame, m, decode_binary. rewrite decode_encode by done. cbn [run_opt].
    rewrite (proj2 (existsb_exists _ _)); [cbn [r_reg r1]; by rewrite Hreg|]. exists host. split; [by apply list_elem_of_In|].
    rewrite <-Hid. by apply relay_auth_roundtrip. }
  eapply rtc_l; [apply (net_accept s k ip challenge r1 (Some n)); [by apply step_accept|apply lookup_insert_eq|done|]|].
  { intros ? [= <-]. apply elem_of_dom. by eexists. }
  eapply rtc_l; [eapply (net_pass _ n nd k (mkWire n [] []) dial 0 0); [done|done|cbn; by rewrite lookup_insert_eq|done| |exact Hpass]|].
  { intros ? [= <-]. by left. }
  eapply rtc_l; [eapply (net_first _ k challenge m []); [cbn; by rewrite lookup_insert_eq|done|exact Hfirst]|].
  unfold joined, sy_sign, sy_set_wire, sy_set_node, sy_set_relay, signs, r2, r1. rewrite Hb, Hdl, Hho.
  cbn. rewrite !insert_insert_eq. apply rtc_refl.
Qed.

(** A node that joined is idle. *)
Lemma joined_idle s n nd k ip reg spec challenge :
  d_stop (r_driver (nd_run nd)) = false → d_receiving (r_driver (nd_run nd)) = true → r_inbound (nd_run nd) = [] →
  p_inbound (nd_paths nd) = [] →
  idle_node (joined s n nd k ip reg spec challenge) n (nd_set_run nd (attempt_up (nd_run nd) spec 0 []).1 (Some k)) k ip
    (new_session cfg (r_next (sy_relay s)) (Identity n) 0).
Proof.
  intros Hs Hr Hi Hp. split; try done; try (cbn; by rewrite lookup_insert_eq); [by eexists|].
  cbn. by rewrite set_status_stop, set_status_receiving, set_status_queue.
Qed.

(** Who is idle stays idle when another node joins on a connection of its own. *)
Lemma joined_keeps s m md ma ip' se n nd k ip reg spec challenge :
  idle_node s m md ma ip' se → m ≠ n → ma ≠ k → s_id se ≠ r_next (sy_relay s) →
  idle_node (joined s n nd k ip reg spec challenge) m md ma ip' se.
Proof.
  intros [] Hn Hk Hid. split; cbn; try done; by rewrite lookup_insert_ne.
Qed.

Lemma set_node_keeps s m md ma ip se n nd : idle_node s m md ma ip se → m ≠ n → idle_node (sy_set_node s n nd) m md ma ip se.
Proof. intros [] Hn. split; cbn; try done. by rewrite lookup_insert_ne. Qed.

(** The registry with one more session from [ip]. *)
Definition one_more (reg : Registry) (ip : IpAddr) : Registry :=
  mkRegistry (reg_sessions reg) (reg_tags reg) (S (reg_live reg)) (<[ip := S (default 0%nat (reg_by_source reg !! ip))]> (reg_by_source reg)).

Lemma accept_room reg ip :
  (reg_live reg < cfg_max_sessions cfg)%nat →
  (cfg_max_sessions_per_source cfg = 0 ∨ default 0 (reg_by_source reg !! ip) < cfg_max_sessions_per_source cfg)%nat →
  accept cfg reg ip = Some (one_more reg ip).
Proof.
  intros Hl Hs. unfold accept. destruct (Nat.leb_spec (cfg_max_sessions cfg) (reg_live reg)); [lia|].
  destruct (Nat.ltb_spec 0 (cfg_max_sessions_per_source cfg)); [|done]. cbn [andb].
  destruct (Nat.leb_spec (cfg_max_sessions_per_source cfg) (default 0%nat (reg_by_source reg !! ip))); [lia|done].
Qed.

(** An attempt that does not open moves the driver on to its next relay. *)
Definition unopened : Dial := mkDial false None 0 false None 0.
Definition next_relay (r : Run) : Run := (attempt_failed r 0 0 []).1.

Lemma attempts_fail s n nd j :
  sy_nodes s !! n = Some nd → nd_conn nd = None → r_phase (nd_run nd) = Dialling → nd_relays nd ≠ [] →
  default false (book_is_empty <$> r_book (nd_run nd)) = false →
  rtc net_step s (sy_set_node s n (nd_set_run nd (Nat.iter j next_relay (nd_run nd)) None)).
Proof.
  intros Hn Hc Hp Hne Hb. induction j as [|j IH].
  { cbn. rewrite <-Hc. destruct nd. unfold nd_set_run, sy_set_node. cbn. rewrite insert_id by done. by destruct s. }
  eapply rtc_r; [exact IH|]. set (r := Nat.iter j next_relay (nd_run nd)) in *.
  assert (Hr : r_phase r = Dialling ∧ r_book r = r_book (nd_run nd)) by (subst r; clear -Hp; induction j as [|j [_ IH]]; [done|by split]).
  destruct Hr as [Hpr Hbr]. change (Nat.iter (S j) _ _) with (next_relay r). set (nd1 := nd_set_run nd r None).
  assert (Hd : is_Some (dialled (nd_relays nd) r)).
  { apply lookup_lt_is_Some_2, Nat.mod_upper_bound. by destruct (nd_relays nd). }
  destruct Hd as [spec Hd]. assert (E : node_pass nd1 None unopened 0 0 = (nd_set_run nd1 (next_relay r) None, [])).
  { unfold node_pass. cbn [d_step nd_run nd1 nd_set_run nd_key nd_relays]. rewrite Hpr. unfold loop_pass, connect.
    rewrite Hbr, Hb, Hd. by destruct (RelaySpec_host spec). }
  pose proof (net_elsewhere (sy_set_node s n nd1) n nd1 unopened 0 0 _ _ (lookup_insert_eq _ _ _) Hpr ltac:(done) E) as St.
  unfold sy_sign, sy_set_node in *. cbn in St. rewrite insert_insert_eq, app_nil_r in St. exact St.
Qed.

(** What failed attempts leave as it was. *)
Lemma next_relay_same r j :
  let r' := Nat.iter j next_relay r in
  r_phase r = Dialling →
  r_phase r' = Dialling ∧ r_book r' = r_book r ∧ r_inbound r' = r_inbound r ∧ r_index r' = (j + r_index r)%nat ∧
  d_stop (r_driver r') = d_stop (r_driver r) ∧ d_receiving (r_driver r') = d_receiving (r_driver r) ∧
  d_queue (r_driver r') = d_queue (r_driver r) ∧ d_memo (r_driver r') = d_memo (r_driver r).
Proof.
  cbn zeta. intros Hp. induction j as [|j (H1 & H2 & H3 & H4 & H5 & H6 & H7 & H8)]; [done|].
  cbn [Nat.iter nat_rect]. set (r' := Nat.iter j next_relay r) in *. cbn.
  rewrite set_status_stop, set_status_receiving, set_status_queue, set_status_memo. split_and!; try done. by f_equal.
Qed.

(** A driver that has not connected yet reaches each relay of its list. *)
Lemma start_reaches id relays book i spec :
  relays !! i = Some spec →
  let r := Nat.iter i next_relay (run_start id relays book) in
  r_phase r = Dialling ∧ r_book r = book ∧ r_inbound r = [] ∧ dialled relays r = Some spec ∧
  d_stop (r_driver r) = false ∧ d_receiving (r_driver r) = true ∧ d_queue (r_driver r) = [] ∧ d_memo (r_driver r) = None.
Proof.
  intros Hi. cbn zeta. pose proof (lookup_lt_Some _ _ _ Hi) as Hl. destruct relays as [|x relays]; [done|].
  destruct (next_relay_same (run_start id (x :: relays) book) i eq_refl) as (H1 & H2 & H3 & H4 & H5 & H6 & H7 & H8).
  split_and!; try done. unfold dialled. rewrite H4. cbn [r_index run_start]. rewrite Nat.add_0_r, Nat.mod_small by done. done.
Qed.

(** A node that lists a relay at a name the relay answers for. *)
Definition may_join (nd : Node) : Prop :=
  TransportKey_wf (nd_key nd) ∧ ∃ spec host, spec ∈ nd_relays nd ∧ RelaySpec_host spec = Some host ∧ host ∈ cfg_hosts cfg.

(** Such a node that has not connected yet comes up there, after an attempt at each of
    the relays it lists before that one. *)
Lemma fresh_joins {L : CryptoLaws C} s n nd k ip reg challenge :
  challenge ∉ (sy_issued s).*1 → fresh_node n nd → may_join nd → sy_nodes s !! n = Some nd →
  r_conns (sy_relay s) !! k = None → accept cfg (r_reg (sy_relay s)) ip = Some reg → reg_sessions reg !! n = None →
  p_inbound (nd_paths nd) = [] →
  ∃ spec r, let nd1 := nd_set_run nd r None in let s1 := joined (sy_set_node s n nd1) n nd1 k ip reg spec challenge in
    rtc net_step s s1 ∧
    idle_node s1 n (nd_set_run nd (attempt_up r spec 0 []).1 (Some k)) k ip (new_session cfg (r_next (sy_relay s)) (Identity n) 0).
Proof.
  intros Hch (Hid & Hc & _ & _ & [id Hrun] & _) (Hwf & spec & host & [i Hi]%list_elem_of_lookup_1 & Hho & Hin) Hn Hk Hacc Hreg Hp.
  destruct (start_reaches id (nd_relays nd) None i spec Hi) as (H1 & H2 & H3 & H4 & H5 & H6 & H7 & _). rewrite <-Hrun in *.
  set (r := Nat.iter i next_relay (nd_run nd)) in *. exists spec, r. cbn zeta. set (nd1 := nd_set_run nd r None). split.
  - etrans; [apply (attempts_fail s n nd i)|apply (node_joins (sy_set_node s n nd1) _ nd1 _ _ _ _ host challenge)]; try done.
    + rewrite Hrun. by destruct (nd_relays nd).
    + by destruct (nd_relays nd).
    + rewrite Hrun. by destruct (nd_relays nd).
    + apply lookup_insert_eq.
  - exact (joined_idle (sy_set_node s n nd1) n nd1 k ip reg spec challenge H5 H6 H3 Hp).
Qed.

(** Two nodes that join one after the other are both idle. *)
Lemma two_join {L : CryptoLaws C} s a na b nb :
  net_init s → sy_nodes s !! a = Some na → sy_nodes s !! b = Some nb → a ≠ b → may_join na → may_join nb →
  (2 ≤ cfg_max_sessions cfg)%nat → (cfg_max_sessions_per_source cfg = 0 ∨ 2 ≤ cfg_max_sessions_per_source cfg)%nat →
  p_inbound (nd_paths na) = [] → p_inbound (nd_paths nb) = [] →
  ∃ s' ra rb ip, rtc net_step s s' ∧
    idle_node s' a (nd_set_run na ra (Some 0%nat)) 0 ip (new_session cfg 1 (Identity a) 0) ∧
    idle_node s' b (nd_set_run nb rb (Some 1%nat)) 1 ip (new_session cfg 2 (Identity b) 0) ∧
    reg_sessions (r_reg (sy_relay s')) !! b = Some (2 : chan).
Proof.
  intros Hinit Ha Hb Hne Hja Hjb Hmax Hper Hpa Hpb. pose proof Hinit as (Hr & _ & Hi & _ & Hfresh).
  set (ip := V4 (pad_array 4 [])).
  destruct (fresh_joins s a na 0 ip (one_more (r_reg (sy_relay s)) ip) (pad_array 32 []) ltac:(rewrite Hi; set_solver) (Hfresh _ _ Ha) Hja Ha) as (speca & ra & H1 & Hi1);
    [by rewrite Hr|rewrite Hr; apply accept_room; cbn; rewrite ?lookup_empty; cbn; lia|by rewrite Hr|done|].
  cbn zeta in H1, Hi1. set (s1 := joined _ _ _ _ _ _ _ _) in *.
  assert (Hc2 : pad_array 32 [Byte.x01] ∉ (sy_issued s1).*1).
  { cbn. rewrite Hi. intros [E|E]%elem_of_cons; [|set_solver]. apply (f_equal bytes_of) in E. discriminate E. }
  assert (Hb1 : sy_nodes s1 !! b = Some nb) by (cbn; by rewrite !lookup_insert_ne).
  destruct (fresh_joins s1 b nb 1 ip (one_more (r_reg (sy_relay s1)) ip) (pad_array 32 [Byte.x01]) Hc2 (Hfresh _ _ Hb) Hjb Hb1) as (specb & rb & H2 & Hi2);
    [cbn; by rewrite Hr| |cbn; rewrite lookup_insert_ne by done; by rewrite Hr|done|].
  { apply accept_room; cbn; rewrite ?lookup_insert_eq, Hr; cbn; rewrite ?lookup_empty; cbn; lia. }
  cbn zeta in H2, Hi2. set (s2 := joined (sy_set_node s1 _ _) _ _ _ _ _ _ _) in *.
  assert (Hi1' : idle_node s2 a _ 0 ip _) by (eapply joined_keeps; [apply set_node_keeps; [exact Hi1|done]|done|done|cbn; lia]).
  assert (E1 : r_next (sy_relay s) = 1) by (by rewrite Hr).
  assert (E2 : r_next (sy_relay s1) = 2) by (change (r_next (sy_relay s) + 1 = 2); by rewrite E1).
  rewrite E1 in Hi1'. rewrite E2 in Hi2. eexists s2, _, _, ip. split; [by etrans|]. split; [exact Hi1'|]. split; [exact Hi2|].
  rewrite <-E2. apply lookup_insert_eq.
Qed.


End network.

(** ** Two concrete nodes *)

#[local] Existing Instances toy_crypto toy_rdv toy_mac toy_crypto_laws.
#[local] Instance nw_peers_order : HashIter NodeId RendezvousPeer := map_order _ _.
#[local] Instance nw_pairing_order : HashIter NodeId PairingRoute := map_order _ _.
#[local] Instance nw_paired_order : HashIter NodeId (array 32) := map_order _ _.
#[local] Instance nw_direct_order : HashIter SocketAddr Z := map_order _ _.

Definition nw_spec : RelaySpec := mkRelaySpec (lit "wss://127.0.0.1:443") None false.
Definition nw_away : RelaySpec := mkRelaySpec (lit "wss://relay.example") None false.
Definition nw_node (seed : list byte) (relays : list RelaySpec) (ops : list POp) : Node :=
  nd_set_ops (build_relay_only (TransportKey_from_seed (pad_array 32 seed)) relays None 0) ops.
Definition nw_a : NodeId := mkNodeId (pad_array 32 (lit "alice")).
Definition nw_b : NodeId := mkNodeId (pad_array 32 (lit "bob")).
Definition nw_alice : Node := nw_node (lit "alice") [nw_away; nw_spec] [ORegisterPeer nw_b].
Definition nw_bob : Node := nw_node (lit "bob") [nw_spec] [].
Definition nw_start : System := mkSystem Relay_init (<[nw_a := nw_alice]> (<[nw_b := nw_bob]> ∅)) ∅ [] [].

Lemma nw_ne : nw_a ≠ nw_b.
Proof. intros H. apply (f_equal as_bytes) in H. discriminate H. Qed.

Lemma nw_init : net_init nw_start.
Proof.
  do 4 (split; [done|]). intros n nd H. cbn in H.
  apply lookup_insert_Some in H as [[<- <-]|[_ [[<- <-]|[_ H]]%lookup_insert_Some]]; [..|by rewrite lookup_empty in H].
  all: apply assemble_fresh; intros ???; set_solver.
Qed.

Lemma nw_host : RelaySpec_host nw_spec = Some (lit "127.0.0.1").
Proof. vm_compute. reflexivity. Qed.

Lemma nw_answered host : Some host = Some (lit "127.0.0.1") → host ∈ cfg_hosts RelayConfig_default.
Proof. intros E. assert (host = lit "127.0.0.1") as -> by congruence. left. Qed.

Lemma nw_may_join seed relays ops : nw_spec ∈ relays → may_join RelayConfig_default (nw_node seed relays ops).
Proof. intros H. split; [done|]. exists nw_spec, (lit "127.0.0.1"). split; [done|]. split; [exact nw_host|by left]. Qed.

Lemma nw_talked :
  ∃ s nb, net_reach RelayConfig_default s ∧ sy_nodes s !! nw_b = Some nb ∧
    p_inbound (nd_paths nb) = [(NodeId_synthetic_addr nw_a, lit "hello")] ∧ nd_udp nb = None ∧ nd_relays nb = [nw_spec].
Proof.
  pose proof nw_ne as Hne. destruct (two_join RelayConfig_default nw_start nw_a nw_alice nw_b nw_bob nw_init) as (s2 & ra & rb & ip & H2 & Hia & Hib & Hreg);
    [cbn; by rewrite lookup_insert_eq|cbn; by rewrite lookup_insert_ne, lookup_insert_eq|done|apply nw_may_join; set_solver..|cbn; lia|cbn; lia|done|done|].
  assert (Hr2 : net_reach RelayConfig_default s2) by (exists nw_start; split; [exact nw_init|done]).
  destruct (idle_nodes_exchange RelayConfig_default s2 _ _ _ _ _ _ _ _ _ _ (NodeId_synthetic_addr nw_b) (lit "hello") 0 Hr2 Hia Hib Hne eq_refl)
    as (s3 & nb' & H3 & Hn3 & Hp3 & Hu); try done; [vm_compute; lia|].
  exists s3, nb'. split; [|done]. exists nw_start. split; [exact nw_init|]. by etrans.
Qed.

Lemma relayed_datagrams_are_sent_witness :
  ∃ s nb source, net_reach RelayConfig_default s ∧ sy_nodes s !! nw_b = Some nb ∧
    p_inbound (nd_paths nb) = [(NodeId_synthetic_addr source, lit "hello")] ∧
    ∀ sender, sy_nodes s !! source = Some sender → (nw_b, lit "hello") ∈ nd_sent sender.
Proof.
  destruct nw_talked as (s & nb & Hr & Hn & Hp & Hu & Hre).
  destruct (relayed_datagrams_are_sent RelayConfig_default s nw_b nb Hr Hn) as (_ & _ & H & Hhere).
  assert (Hnone : nd_foreign nb = []).
  { apply Hhere. intros spec host. rewrite Hre. intros ->%list_elem_of_singleton. rewrite nw_host. intros E. apply nw_answered. by symmetry. }
  destruct (H Hu (NodeId_synthetic_addr nw_a) (lit "hello")) as (source & Hs & [Hall|Hbad]); [rewrite Hp; left| |rewrite Hnone in Hbad; by apply not_elem_of_nil in Hbad].
  exists s, nb, source. split; [exact Hr|]. split; [exact Hn|]. split; [rewrite Hp, Hs; reflexivity|]. exact Hall.
Defined.

