(* ===== verification/TagNetwork.v ===== *)
(** * TagNetwork: two nodes that meet by tag
      ([link-endpoint/src/relay_client.rs], [link-endpoint/src/rendezvous_book.rs],
      [link-relay/src/lib.rs])

    The system of [Network] with drivers in tag mode: nodes that hold material for
    each other in their tag books and show the relay nothing but tags. *)

From S2P Require Import Prelude Net Id Rendezvous Card Wire Relay Paths TagBook RelayClient RelayTyping Sends Network.

Open Scope Z_scope.

(** ** Registering for the first time *)

(** Sessions that register no more than a tag's two ends put nobody out. *)
Lemma register_fresh sid tx next tags chans :
  (∀ t, (length (default [] (tags !! t)) ≤ 1)%nat) → (∀ t e, e ∈ default [] (tags !! t) → e.1 ≠ sid) →
  ∃ tags', foldl (register_tag sid tx) (tags, chans) next = (tags', chans) ∧
    ∀ t, default [] (tags' !! t) = default [] (tags !! t) ++ if bool_decide (t ∈ next) then [(sid, tx)] else [].
Proof.
  intros Hlen Hno. induction next as [|x next IH] using rev_ind.
  { exists tags. split; [done|]. intros t. rewrite app_nil_r. done. }
  destruct IH as (tags1 & E & Ht). rewrite foldl_app, E. cbn [foldl register_tag].
  destruct (decide (x ∈ next)) as [Hx|Hx].
  - rewrite (Ht x), bool_decide_true by done.
    assert (Hex : existsb (λ e, e.1 =? sid) (default [] (tags !! x) ++ [(sid, tx)]) = true).
    { rewrite existsb_app. cbn. by rewrite Z.eqb_refl, orb_true_r. }
    rewrite Hex. eexists. split; [done|]. intros t. rewrite lookup_insert. case_decide as D; [subst t|].
    + cbn. rewrite bool_decide_true by set_solver. done.
    + rewrite (Ht t). by rewrite (bool_decide_ext (t ∈ next ++ [x]) (t ∈ next)) by set_solver.
  - rewrite (Ht x), bool_decide_false, app_nil_r by done.
    assert (Hex : existsb (λ e, e.1 =? sid) (default [] (tags !! x)) = false).
    { apply not_true_is_false. intros (e & He%list_elem_of_In & E0)%existsb_exists. apply (Hno x e He). by apply Z.eqb_eq. }
    rewrite Hex. assert (Hev : evict (length (default [] (tags !! x) ++ [(sid, tx)])) (default [] (tags !! x) ++ [(sid, tx)]) chans =
      (default [] (tags !! x) ++ [(sid, tx)], chans)).
    { specialize (Hlen x). destruct (default [] (tags !! x)) as [|e [|]]; [done|done|cbn in Hlen; lia]. }
    rewrite Hev. eexists. split; [done|]. intros t. rewrite lookup_insert. case_decide as D; [subst t|].
    + cbn. by rewrite bool_decide_true by set_solver.
    + rewrite (Ht t). by rewrite (bool_decide_ext (t ∈ next ++ [x]) (t ∈ next)) by set_solver.
Qed.

(** The other end of a tag, and only it. *)
Lemma other_end (reg : Registry) (tags : gmap Tag (list (Z * chan))) (sid sid' : Z) (t : Tag) (mine theirs : list Tag) :
  sid ≠ sid' → t ∈ theirs →
  (∀ t, default [] (tags !! t) = (if bool_decide (t ∈ mine) then [(sid, sid)] else []) ++ if bool_decide (t ∈ theirs) then [(sid', sid')] else []) →
  reg_tags reg = tags → tag_targets reg sid t = [sid'].
Proof.
  intros Hne Ht H E. unfold tag_targets. rewrite E. specialize (H t). rewrite (bool_decide_true (t ∈ theirs)) in H by done.
  destruct (tags !! t) as [es|]; cbn in H; [|by destruct (bool_decide _)]. subst es.
  rewrite filter_app. cbn. rewrite (decide_True (P := sid' ≠ sid)) by done. rewrite fmap_app. cbn.
  destruct (bool_decide (t ∈ mine)); cbn; [|done]. by rewrite (decide_False (P := sid ≠ sid)) by naive_solver.
Qed.

(** ** Books that were pruned *)

Lemma prune_fix b now :
  (∀ k r, tb_pairing b !! k = Some r → route_expires now r = false ∧ route_kept r = true) → prune_expired b now = b.
Proof.
  intros H. unfold prune_expired.
  assert (E1 : filter (λ kr, route_expires now kr.2 = true) (tb_pairing b) = ∅).
  { apply map_eq. intros k. rewrite map_lookup_filter, lookup_empty. destruct (tb_pairing b !! k) as [r|] eqn:Er; [|done].
    destruct (H _ _ Er) as [He _]. cbn. by rewrite option_guard_False by (rewrite He; done). }
  assert (E2 : filter (λ kr, route_kept kr.2 = true) (expire_route now <$> tb_pairing b) = tb_pairing b).
  { apply map_eq. intros k. rewrite map_lookup_filter, lookup_fmap. destruct (tb_pairing b !! k) as [r|] eqn:Er; [|done].
    destruct (H _ _ Er) as [He Hk]. cbn. rewrite expire_route_id by done. by rewrite option_guard_True. }
  rewrite E1, E2, bool_decide_true, Nat.eqb_refl by done. by destruct b.
Qed.

Lemma prune_twice b now : prune_expired (prune_expired b now) now = prune_expired b now.
Proof.
  apply prune_fix. intros k r. rewrite prune_lookup. destruct (tb_pairing b !! k) as [r0|]; [|done]. cbn.
  destruct (route_kept _) eqn:Ek; [|done]. intros [= <-]. split; [|done].
  unfold expire_route, route_expires. destruct (pr_admission r0) as [x|] eqn:Ea; [|by rewrite Ea].
  destruct (es_expires_at x <=? now) eqn:El; [done|]. by rewrite Ea.
Qed.

(** What a pruned book holds, the book held. *)
Lemma prune_held b now peer m : holds_material (prune_expired b now) peer m → holds_material b peer m.
Proof.
  assert (E : tb_peers (prune_expired b now) = tb_peers b ∧ tb_paired (prune_expired b now) = tb_paired b)
    by (unfold prune_expired; by destruct (_ || _)). destruct E as [E1 E2].
  intros [p x H|p r s H Hs|p s H]; [rewrite E1 in H; by constructor| |rewrite E2 in H; by constructor].
  rewrite prune_lookup in H. destruct (tb_pairing b !! p) as [r0|] eqn:Er; [|done]. cbn in H.
  destruct (route_kept _); [|done]. injection H as <-. apply (holds_pairing _ _ r0); [done|].
  unfold expire_route in Hs. destruct (pr_admission r0) as [x|] eqn:Ea; [|done].
  destruct (es_expires_at x <=? now); [|done]. unfold route_secrets in *. rewrite Ea. cbn in *. set_solver.
Qed.

Section by_tag.
Context `{C : Crypto, M : Mac, R : RdvCrypto}.
Context `{I1 : !HashIter NodeId RendezvousPeer, I2 : !HashIter NodeId PairingRoute, I3 : !HashIter NodeId (array 32), !HashIter SocketAddr Z}.
Context {L1 : HashIterLaws _ _ I1} {L2 : HashIterLaws _ _ I2} {L3 : HashIterLaws _ _ I3}.
Context (cfg : RelayConfig).

(** What is sent under is held. *)
Lemma send_material_held b peer m : send_material b peer = Some m → holds_material b peer m.
Proof.
  unfold send_material. destruct (tb_pairing b !! peer ≫= pairing_material) as [m'|] eqn:Epm.
  - intros [= ->]. apply bind_Some in Epm as (r & Hr & Hm). unfold pairing_material in Hm.
    destruct (pr_admission r) as [x|] eqn:Ea; [injection Hm as <-|apply fmap_Some in Hm as (l & Hl & ->)];
      (eapply holds_pairing; [done|]); unfold route_secrets; rewrite ?Ea, ?Hl; cbn; set_solver.
  - destruct (tb_paired b !! peer) eqn:Ep; [intros [= <-]; by constructor|]. intros (x & Hx & ->)%fmap_Some. by constructor.
Qed.

Lemma held_not_empty b peer m : holds_material b peer m → book_is_empty b = false.
Proof.
  intros H. unfold book_is_empty. rewrite !andb_false_iff, !bool_decide_eq_false.
  destruct H as [? ? E|? ? ? E|? ? E]; [left; left|left; right|right]; intros E0; rewrite E0 in E; by rewrite lookup_empty in E.
Qed.

Lemma held_registers b peer m host now :
  u64 now → holds_material (prune_expired b now) peer m → derive_material m host (epoch_index now) ∈ (registration b host now).2.
Proof.
  intros Hn H. apply registration_elem. exists peer, m, (epoch_index now). split_and!; [done| |done].
  apply epoch_skew; [done|done|]. rewrite Z.sub_diag. unfold EPOCH_SECONDS. done.
Qed.

(** ** Coming up *)

(** The driver once it has registered. *)
Definition up_by_tag (r : Run) (b : TagBook) (spec : RelaySpec) (now : Z) : Run :=
  (attempt_up (r_count count_registration (r_set_book r (Some b))) spec now []).1.

(** The system once node [n] has registered its tags over connection [k]. *)
Definition tag_joined (s : System) (n : NodeId) (nd : Node) (k : nat) (ip : IpAddr) (reg : Registry) (spec : RelaySpec)
    (challenge : array 32) (b : TagBook) (tags : list Tag) (tagmap : gmap Tag (list (Z * chan))) (now : Z) : System :=
  let r := sy_relay s in
  mkSystem
    (mkRelay (mkRegistry (reg_sessions reg) tagmap (reg_live reg) (reg_by_source reg))
       (<[r_next r := []]> (r_chans r)) (r_next r + 1)
       (<[k := mkConn ip (Running (new_session cfg (r_next r) (Tags tags) 0))]> (r_conns r)))
    (<[n := nd_set_run nd (up_by_tag (nd_run nd) b spec now) (Some k)]> (sy_nodes s))
    (<[k := mkWire n [] []]> (sy_wires s))
    ((challenge, Some n) :: sy_issued s) (sy_signed s).

Lemma tag_node_joins s n nd k ip reg spec host challenge b tags tagmap now :
  challenge ∉ (sy_issued s).*1 → sy_nodes s !! n = Some nd → r_phase (nd_run nd) = Dialling →
  r_book (nd_run nd) = Some b → book_is_empty b = false →
  (registration b host now).2 = tags → tags ≠ [] → (length tags ≤ MAX_TAGS_PER_REGISTER)%nat →
  dialled (nd_relays nd) (nd_run nd) = Some spec → RelaySpec_host spec = Some host →
  r_conns (sy_relay s) !! k = None → accept cfg (r_reg (sy_relay s)) ip = Some reg →
  foldl (register_tag (r_next (sy_relay s)) (r_next (sy_relay s))) (reg_tags reg, <[r_next (sy_relay s) := []]> (r_chans (sy_relay s))) tags
    = (tagmap, <[r_next (sy_relay s) := []]> (r_chans (sy_relay s))) →
  rtc (net_step cfg) s (tag_joined s n nd k ip reg spec challenge (prune_expired b now) tags tagmap now).
Proof.
  intros Hch Hn Hph Hb Hemp Htags Hne Hlen Hdl Hho Hk Hacc Hreg. set (r := sy_relay s) in *.
  set (dial := mkDial true (Some (Challenge challenge)) now true (Some (Welcome (pad_array 16 []))) now).
  set (nd' := nd_set_run nd (up_by_tag (nd_run nd) (prune_expired b now) spec now) (Some k)).
  assert (Ereg : registration b host now = (prune_expired b now, tags)) by (by rewrite <-Htags).
  assert (Hpass : node_pass nd (Some k) dial 0 0 = (nd', [PFrame (Register tags)])).
  { unfold node_pass. cbn [d_step]. rewrite Hph. unfold loop_pass, connect. rewrite Hb, Hdl, Hho. cbn [default fmap option_fmap option_map].
    rewrite Hemp. cbn [dl_opened dial negb dl_first dl_unix]. rewrite Ereg. by rewrite bool_decide_false. }
  set (m := MBinary (Frame_encode (Register tags))).
  set (r1 := mkRelay reg (r_chans r) (r_next r) (<[k := mkConn ip (Pending challenge)]> (r_conns r))).
  set (r2 := mkRelay (mkRegistry (reg_sessions reg) tagmap (reg_live reg) (reg_by_source reg)) (<[r_next r := []]> (r_chans r)) (r_next r + 1)
       (<[k := mkConn ip (Running (new_session cfg (r_next r) (Tags tags) 0))]> (r_conns r1))).
  assert (Hfirst : step cfg r1 (LFirst k challenge (Some m)) r2).
  { apply (step_first_ok cfg r1 k ip challenge m _ _ (Tags tags) 0 true); [cbn; by rewrite lookup_insert_eq|].
    unfold first_frame, m, decode_binary. rewrite decode_encode by done. cbn [run_opt]. rewrite bool_decide_false by done.
    unfold register_tags. cbn [foldl r_reg r1 r_chans r_next]. by rewrite Hreg. }
  eapply rtc_l; [apply (net_accept cfg s k ip challenge r1 (Some n)); [by apply step_accept|apply lookup_insert_eq|done|]|].
  { intros ? [= <-]. apply elem_of_dom. by eexists. }
  eapply rtc_l; [eapply (net_pass cfg _ n nd k (mkWire n [] []) dial 0 0); [done|done|cbn; by rewrite lookup_insert_eq|done| |exact Hpass]|].
  { intros ? [= <-]. by left. }
  eapply rtc_l; [eapply (net_first cfg _ k challenge m []); [cbn; by rewrite lookup_insert_eq|done|exact Hfirst]|].
  unfold tag_joined, sy_sign, sy_set_wire, sy_set_node, sy_set_relay, signs, r2, r1. rewrite Hb.
  cbn. rewrite !insert_insert_eq, app_nil_r. apply rtc_refl.
Qed.

Lemma tag_joined_idle s n nd k ip reg spec challenge b tags tagmap now :
  d_stop (r_driver (nd_run nd)) = false → d_receiving (r_driver (nd_run nd)) = true → r_inbound (nd_run nd) = [] →
  p_inbound (nd_paths nd) = [] →
  idle_node (tag_joined s n nd k ip reg spec challenge b tags tagmap now) n (nd_set_run nd (up_by_tag (nd_run nd) b spec now) (Some k)) k ip
    (new_session cfg (r_next (sy_relay s)) (Tags tags) 0).
Proof.
  intros Hs Hr Hi Hp. split; try done; try (cbn; by rewrite lookup_insert_eq); [by eexists|].
  cbn. by rewrite set_status_stop, set_status_receiving, set_status_queue.
Qed.

Lemma tag_joined_keeps s m md ma ip' se n nd k ip reg spec challenge b tags tagmap now :
  idle_node s m md ma ip' se → m ≠ n → ma ≠ k → s_id se ≠ r_next (sy_relay s) →
  idle_node (tag_joined s n nd k ip reg spec challenge b tags tagmap now) m md ma ip' se.
Proof. intros [] Hn Hk Hid. split; cbn; try done; by rewrite lookup_insert_ne. Qed.

(** ** A datagram's way, by tag *)

Lemma tag_send_queues nd dest peer dg now now_unix udp b b' d' host tag :
  r_book (nd_run nd) = Some b → (length dg ≤ MAX_DATAGRAM)%nat →
  (let d := r_driver (nd_run nd) in d_stop d = false ∧ d_receiving d = true ∧ d_queue d = []) →
  current_host (r_driver (nd_run nd)) = (d', Some host) → tag_for_send b peer host now_unix = (b', Some tag) →
  peer_for_synthetic (nd_paths nd) dest = Some peer → proven_direct (nd_paths nd) peer = None →
  let nd1 := node_send nd dest dg now now_unix udp in
  nd_conn nd1 = nd_conn nd ∧ r_phase (nd_run nd1) = r_phase (nd_run nd) ∧ d_queue (r_driver (nd_run nd1)) = [SendTag tag dg].
Proof.
  intros Hb Hl (Hs & Hr & Hq) Hh Ht Hp Hd. cbn zeta. unfold node_send. rewrite Hp. cbn zeta. unfold driver_try_send.
  rewrite Hs, Hb, Hh, Ht. unfold finish_send, queue_send.
  assert (Hd' : d_receiving d' = true ∧ d_queue d' = []) by (by destruct (current_host_driver _ _ _ Hh) as [->|[m ->]]).
  destruct Hd' as [-> ->]. cbn -[path_try_send nd_paths]. unfold path_try_send.
  destruct (Nat.ltb_spec MAX_DATAGRAM (length dg)); [lia|]. by rewrite Hp, Hd.
Qed.

Lemma tag_forwarded sa tags reg chans sid tag dg now :
  s_mode sa = Tags tags → s_out sa = [] → tag_targets reg (s_id sa) tag = [sid : chan] → datagram_ok dg →
  (ByteBudget_allow (s_budget sa) (Z.of_nat (length dg)) now).1 = true →
  ∃ s1, on_event sa reg chans (EvIncoming (Some (Ok (MBinary (Frame_encode (SendTag tag dg))))) now true) = Some (go_on s1 reg chans) ∧
    s_out s1 = [(sid, RecvTag tag dg)].
Proof.
  intros Hm Ho Htg Hdg Hall. destruct (ByteBudget_allow _ _ _) as [okb bud] eqn:Eb. cbn in Hall. subst okb.
  exists (set_out (set_budget (add_bytes_in (add_frame_in sa) (Z.of_nat (length dg))) bud) [(sid, RecvTag tag dg)]). split; [|done].
  cbn [on_event on_incoming]. unfold decode_binary. rewrite decode_encode by done. cbn [run_opt on_frame].
  unfold on_send_tag. cbn [s_mode add_frame_in add_bytes_in s_budget s_id set_budget]. rewrite Hm. rewrite Eb. cbn [negb].
  cbn [s_id set_budget add_bytes_in add_frame_in]. rewrite Htg. by rewrite bool_decide_false.
Qed.

Lemma tag_message_delivers key relays r p b tag who dg now_unix now :
  r_phase r = Pumping p → r_book r = Some b → r_inbound r = [] → datagram_ok dg →
  (resolve b tag (pp_host p) now_unix).2 = Some who →
  ∃ r1, d_step key relays r (DMessage (Some (Ok (WsBinary (Frame_encode (RecvTag tag dg))))) now_unix true now) = (r1, quiet) ∧
    r_phase r1 = Pumping p ∧ r_inbound r1 = [(who, dg, d_id (r_driver r))].
Proof.
  intros Hp Hb Hi Hd Hw. cbn [d_step]. rewrite Hp. unfold pump_message. rewrite decode_encode by done. cbn [run_opt]. rewrite Hb.
  destruct (resolve b tag (pp_host p) now_unix) as [b' w]. cbn in Hw. subst w. unfold r_deliver. cbn -[INBOUND_CAPACITY]. rewrite Hi.
  eexists. split; [done|]. by split.
Qed.

(** Idle nodes whose tags are registered exchange a datagram. *)
Lemma tag_nodes_exchange s a na ka ipa sa b nb kb ipb sb tags ba ba' da bb pb host tag who dest dg now now' bnow :
  idle_node s a na ka ipa sa → idle_node s b nb kb ipb sb → a ≠ b →
  s_mode sa = Tags tags → r_book (nd_run na) = Some ba → current_host (r_driver (nd_run na)) = (da, Some host) →
  tag_for_send ba b host now = (ba', Some tag) → tag_targets (r_reg (sy_relay s)) (s_id sa) tag = [s_id sb : chan] →
  r_book (nd_run nb) = Some bb → r_phase (nd_run nb) = Pumping pb → pp_host pb = host → (resolve bb tag host now').2 = Some who →
  (ByteBudget_allow (s_budget sa) (Z.of_nat (length dg)) bnow).1 = true → datagram_ok dg →
  peer_for_synthetic (nd_paths na) dest = Some b → proven_direct (nd_paths na) b = None →
  ∃ s' nb', rtc (net_step cfg) s s' ∧ sy_nodes s' !! b = Some nb' ∧ p_inbound (nd_paths nb') = [(NodeId_synthetic_addr who, dg)].
Proof.
  intros Ha Hb Hne Hma Hba Hcur Htag Htgt Hbb Hpb Hhost Hres Hall Hdg Hpeer Hdirect.
  pose proof (idle_apart _ _ _ _ _ _ _ _ _ _ _ Ha Hb Hne) as Hk.
  destruct Ha as [Hna Hca [pa Hpa] Hda _ Hwa [Hsa Hoa] _]. destruct Hb as [Hnb Hcb _ _ [Hib Hpib] Hwb [Hsb Hob] Hchb].
  destruct (tag_send_queues na dest b dg 0 now UdpOk ba ba' da host tag Hba (proj2 Hdg) Hda Hcur Htag Hpeer Hdirect) as (Hc1 & Hp1 & Hq1).
  set (na1 := node_send na dest dg 0 now UdpOk) in *.
  destruct (writing_leg cfg (sy_set_node s a na1) a na1 ka pa (SendTag tag dg)) as (s1 & H1 & Hr1 & Hn1 & Hw1);
    [apply lookup_insert_eq|congruence|congruence|done|done|].
  destruct (tag_forwarded sa tags (r_reg (sy_relay s)) (r_chans (sy_relay s)) (s_id sb) tag dg bnow) as (sa1 & He & Ho1); try done.
  destruct (relay_leg cfg s1 a b ka kb ipa ipb sa sb sa1 (SendTag tag dg) (RecvTag tag dg) bnow) as (s2 & H2 & Hn2 & Hw2);
    [rewrite ?Hr1; eauto..| by rewrite Hw1, lookup_insert_eq | by rewrite Hw1, lookup_insert_ne|].
  rewrite <-Hhost in Hres.
  destruct (tag_message_delivers (nd_key nb) (nd_relays nb) (nd_run nb) pb bb tag who dg now' 0 Hpb Hbb Hib Hdg Hres) as (r1 & Hmsg & Hph & Hin).
  destruct (receiving_leg cfg s2 who b nb kb pb (Frame_encode (RecvTag tag dg)) r1 dg now') as (s3 & nb' & H3 & Hn3 & Hp3 & _); try done.
  - rewrite Hn2, Hn1 by done. cbn. by rewrite lookup_insert_ne.
  - exists s3, nb'. split; [|done]. eapply rtc_l; [exact (net_send cfg s a na dest dg 0 now UdpOk Hna)|].
    etrans; [exact H1|]. by etrans.
Qed.

(** A node in tag mode that has not connected yet: it lists a relay of the name [host],
    and what its book registers there at [now] fits one [Register] frame, which is all
    the relay decodes. *)
Record tag_fresh (host : list byte) (now : Z) (nd : Node) (b : TagBook) : Prop := {
  tf_relay : ∃ spec, spec ∈ nd_relays nd ∧ RelaySpec_host spec = Some host;
  tf_run : ∃ id, nd_run nd = run_start id (nd_relays nd) (Some b);
  tf_conn : nd_conn nd = None;
  tf_cache : cache_ok b;
  tf_fits : (length (registration b host now).2 ≤ MAX_TAGS_PER_REGISTER)%nat;
  tf_quiet : p_inbound (nd_paths nd) = [];
}.

Lemma tag_fresh_joins s n nd b peer m k ip reg host challenge now :
  u64 now → tag_fresh host now nd b → holds_material (prune_expired b now) peer m →
  challenge ∉ (sy_issued s).*1 → sy_nodes s !! n = Some nd →
  r_conns (sy_relay s) !! k = None → accept cfg (r_reg (sy_relay s)) ip = Some reg →
  (∀ t, (length (default [] (reg_tags reg !! t)) ≤ 1)%nat) → (∀ t e, e ∈ default [] (reg_tags reg !! t) → e.1 ≠ r_next (sy_relay s)) →
  ∃ spec r tagmap, let tags := (registration b host now).2 in
    let nd1 := nd_set_run nd r None in
    let s' := tag_joined (sy_set_node s n nd1) n nd1 k ip reg spec challenge (prune_expired b now) tags tagmap now in
    let nd' := nd_set_run nd (up_by_tag r (prune_expired b now) spec now) (Some k) in
    rtc (net_step cfg) s s' ∧ idle_node s' n nd' k ip (new_session cfg (r_next (sy_relay s)) (Tags tags) 0) ∧
    (∀ t, default [] (tagmap !! t) = default [] (reg_tags reg !! t) ++ if bool_decide (t ∈ tags) then [(r_next (sy_relay s), r_next (sy_relay s))] else []) ∧
    r_book (nd_run nd') = Some (prune_expired b now) ∧ (∃ p, r_phase (nd_run nd') = Pumping p ∧ pp_host p = host) ∧
    ∃ d', current_host (r_driver (nd_run nd')) = (d', Some host).
Proof.
  intros Hnow [(spec & [i Hi]%list_elem_of_lookup_1 & Hho) [id Hrun] Hc _ Hfits Hq] Hheld Hch Hn Hk Hacc Hlen Hno.
  destruct (start_reaches id (nd_relays nd) (Some b) i spec Hi) as (H1 & H2 & H3 & H4 & H5 & H6 & H7 & H8). rewrite <-Hrun in *.
  set (r := Nat.iter i next_relay (nd_run nd)) in *. exists spec, r. set (tags := (registration b host now).2) in *.
  destruct (register_fresh (r_next (sy_relay s)) (r_next (sy_relay s)) tags (reg_tags reg) (<[r_next (sy_relay s) := []]> (r_chans (sy_relay s))) Hlen Hno)
    as (tagmap & Hreg & Hmap).
  pose proof (held_registers b peer m host now Hnow Hheld) as Hin. fold tags in Hin.
  assert (Hne : tags ≠ []) by (intros E; rewrite E in Hin; set_solver).
  assert (Hfull : book_is_empty b = false) by (by eapply held_not_empty, prune_held).
  assert (Hrel : nd_relays nd ≠ []) by (by destruct (nd_relays nd)).
  assert (Hst : r_phase (nd_run nd) = Dialling ∧ r_book (nd_run nd) = Some b) by (rewrite Hrun; by destruct (nd_relays nd)).
  destruct Hst as [Hst1 Hst2]. exists tagmap. cbn zeta. set (nd1 := nd_set_run nd r None). split_and!; [| |exact Hmap|done|..].
  - etrans; [apply (attempts_fail cfg s n nd i); try done; by rewrite Hst2|].
    apply (tag_node_joins (sy_set_node s n nd1) n nd1 _ _ _ _ host); try done. apply lookup_insert_eq.
  - exact (tag_joined_idle (sy_set_node s n nd1) n nd1 k ip reg spec challenge _ tags tagmap now H5 H6 H3 Hq).
  - eexists. split; [done|]. cbn. by rewrite Hho.
  - unfold current_host, up_by_tag, attempt_up. cbn [nd_set_run nd_run r_driver fst].
    rewrite set_status_status, set_status_memo. cbn [d_memo d_set_queue r_driver r_count r_set_book r_set_driver d_set_activity].
    rewrite H8. change (RelaySpec_host (RelaySpec_plain (spec_url spec))) with (RelaySpec_host spec). rewrite Hho. by eexists.
Qed.

(** Two nodes that register one after the other are both idle, and the other end of
    every tag the second registered is its session. *)
Lemma two_join_by_tag s a na ba b nb bb m m' host now now' :
  sy_relay s = Relay_init → sy_issued s = [] → sy_nodes s !! a = Some na → sy_nodes s !! b = Some nb → a ≠ b →
  tag_fresh host now na ba → tag_fresh host now' nb bb → u64 now → u64 now' →
  holds_material (prune_expired ba now) b m → holds_material (prune_expired bb now') a m' →
  (2 ≤ cfg_max_sessions cfg)%nat → (cfg_max_sessions_per_source cfg = 0 ∨ 2 ≤ cfg_max_sessions_per_source cfg)%nat →
  ∃ s' ra rb ip tags tags' da pb, rtc (net_step cfg) s s' ∧
    idle_node s' a (nd_set_run na ra (Some 0%nat)) 0 ip (new_session cfg 1 (Tags tags) 0) ∧
    idle_node s' b (nd_set_run nb rb (Some 1%nat)) 1 ip (new_session cfg 2 (Tags tags') 0) ∧
    (∀ t, t ∈ (registration bb host now').2 → tag_targets (r_reg (sy_relay s')) 1 t = [2]) ∧
    r_book ra = Some (prune_expired ba now) ∧ current_host (r_driver ra) = (da, Some host) ∧
    r_book rb = Some (prune_expired bb now') ∧ r_phase rb = Pumping pb ∧ pp_host pb = host.
Proof.
  intros Hr Hi Ha Hb Hne Hfa Hfb Hnow Hnow' Hma Hmb Hmax Hper. set (ip := V4 (pad_array 4 [])).
  destruct (tag_fresh_joins s a na ba b m 0 ip (one_more (r_reg (sy_relay s)) ip) host (pad_array 32 []) now)
    as (speca & r0a & map1 & H1 & Hia & Hm1 & Hbka & _ & [da Hcur]); try done;
    [rewrite Hi; set_solver|by rewrite Hr|rewrite Hr; apply accept_room; cbn; rewrite ?lookup_empty; cbn; lia
    |intros t; rewrite Hr; cbn; rewrite lookup_empty; cbn; lia|intros t e; rewrite Hr; cbn; rewrite lookup_empty; cbn; set_solver|].
  set (tagsa := (registration ba host now).2) in *. cbn zeta in H1, Hia. set (s1 := tag_joined _ _ _ _ _ _ _ _ _ _ _ _) in *.
  assert (E1 : r_next (sy_relay s) = 1) by (by rewrite Hr).
  assert (E2 : r_next (sy_relay s1) = 2) by (change (r_next (sy_relay s) + 1 = 2); by rewrite E1).
  assert (Hm1' : ∀ t, default [] (map1 !! t) = if bool_decide (t ∈ tagsa) then [(1, 1)] else []).
  { intros t. rewrite Hm1, E1, Hr. cbn. by rewrite lookup_empty. }
  rewrite E1 in Hia.
  destruct (tag_fresh_joins s1 b nb bb a m' 1 ip (one_more (r_reg (sy_relay s1)) ip) host (pad_array 32 [Byte.x01]) now')
    as (specb & r0b & map2 & H2 & Hib & Hm2 & Hbkb & [pb [Hphb Hhostb]] & _); try done.
  { cbn. rewrite Hi. intros [E|E]%elem_of_cons; [|set_solver]. apply (f_equal bytes_of) in E. discriminate E. }
  { cbn. by rewrite !lookup_insert_ne. }
  { cbn. by rewrite Hr. }
  { apply accept_room; cbn; rewrite ?lookup_insert_eq, Hr; cbn; rewrite ?lookup_empty; cbn; lia. }
  { intros t. cbn. rewrite Hm1'. case_bool_decide; cbn; lia. }
  { intros t e. rewrite E2. cbn. rewrite Hm1'. case_bool_decide; [intros ->%list_elem_of_singleton|]; set_solver. }
  set (tagsb := (registration bb host now').2) in *. cbn zeta in H2, Hib. set (s2 := tag_joined (sy_set_node s1 _ _) _ _ _ _ _ _ _ _ _ _ _) in *. rewrite E2 in Hib.
  assert (Hia2 : idle_node s2 a _ 0 ip _) by (eapply tag_joined_keeps; [apply set_node_keeps; [exact Hia|done]|done|done|cbn; lia]).
  eexists s2, _, _, ip, tagsa, tagsb, da, pb. split_and!; [by etrans|exact Hia2|exact Hib| |done..].
  intros t Ht. apply (other_end _ map2 1 2 _ tagsa tagsb); [done|done|intros t'; rewrite Hm2, E2; cbn; by rewrite Hm1'|done].
Qed.

(** C12: two nodes that hold material for each other meet on a relay that learns
    neither's name.  Both drivers are in tag mode, with a send cache that holds nothing
    stale, and have not connected yet, and both list a relay of the same name, anywhere
    in their lists; the material the one sends under, unexpired, is held by the other;
    the clocks of the two ends, in the [u64] range, are within an hour of each other;
    the tags each registers are at most 256, which is what one frame carries (some 85
    peers); nothing is registered at the relay yet, its caps admit two sessions and its
    byte budget of one second the datagram; the one has the other registered with no
    direct path proved, and nothing waits for quinn at either.  Then there is a run in
    which both register their tags, quinn at the one sends a datagram of 1 to 1350 bytes
    to the other's synthetic address, the relay forwards it under a tag, and quinn at
    the other end is given exactly these bytes, from the synthetic address of a peer
    whose material in its book gives that tag. *)
Theorem paired_nodes_talk_by_tag s a na ba b nb bb m host dest dg now now' :
  sy_relay s = Relay_init → sy_issued s = [] → sy_nodes s !! a = Some na → sy_nodes s !! b = Some nb → a ≠ b →
  tag_fresh host now na ba → tag_fresh host now' nb bb →
  u64 now → u64 now' → Z.abs (now - now') <= EPOCH_SECONDS →
  send_material (prune_expired ba now) b = Some m → holds_material (prune_expired bb now') a m →
  (2 ≤ cfg_max_sessions cfg)%nat → (cfg_max_sessions_per_source cfg = 0 ∨ 2 ≤ cfg_max_sessions_per_source cfg)%nat →
  (ByteBudget_allow (ByteBudget_new (cfg_bytes_per_second cfg) 0) (Z.of_nat (length dg)) 0).1 = true → datagram_ok dg →
  peer_for_synthetic (nd_paths na) dest = Some b → proven_direct (nd_paths na) b = None →
  ∃ s' nb' who m' e, rtc (net_step cfg) s s' ∧ sy_nodes s' !! b = Some nb' ∧
    p_inbound (nd_paths nb') = [(NodeId_synthetic_addr who, dg)] ∧
    holds_material (prune_expired bb now') who m' ∧ e ∈ window now' ∧ derive_material m' host e = derive_material m host (epoch_index now).
Proof.
  intros Hr Hi Ha Hb Hne Hfa Hfb Hnow Hnow' Hskew Hsend Hheld Hmax Hper Hall Hdg Hpeer Hdirect.
  destruct (two_join_by_tag s a na ba b nb bb m m host now now') as (s2 & ra & rb & ip & tags & tags' & da & pb & H2 & Hia & Hib & Htgt & Hba & Hcur & Hbb & Hph & Hhost);
    try done; [by apply send_material_held|].
  set (tag := derive_material m host (epoch_index now)).
  assert (Htag : (tag_for_send (prune_expired ba now) b host now).2 = Some tag).
  { rewrite tag_for_send_derived by apply prune_ok, Hfa. by rewrite prune_twice, derive_for_send_material, Hsend. }
  destruct (tag_for_send (prune_expired ba now) b host now) as [ba' t0] eqn:Etag. cbn in Htag. subst t0.
  assert (Hres : is_Some (resolve (prune_expired bb now') tag host now').2).
  { apply (resolve_complete _ tag host now' a m (epoch_index now)); [by rewrite prune_twice|by apply epoch_skew|done]. }
  destruct Hres as [who Hres]. destruct (resolve_sound _ _ _ _ _ Hres) as (m' & e & Hm' & He & Hd). rewrite prune_twice in Hm'.
  destruct (tag_nodes_exchange s2 a _ 0 ip _ b _ 1 ip _ tags (prune_expired ba now) ba' da (prune_expired bb now') pb host tag who dest dg now now' 0 Hia Hib Hne)
    as (s3 & nb' & H3 & Hn3 & Hp3); try done.
  - apply Htgt, registration_elem. exists a, m, (epoch_index now). split_and!; [done|by apply epoch_skew|done].
  - exists s3, nb', who, m', e. split_and!; try done. by etrans.
Qed.

End by_tag.

(** ** Two concrete nodes *)

#[local] Existing Instances toy_crypto toy_rdv toy_mac map_order_laws.
#[local] Instance tw_peers_order : HashIter NodeId RendezvousPeer := map_order _ _.
#[local] Instance tw_pairing_order : HashIter NodeId PairingRoute := map_order _ _.
#[local] Instance tw_paired_order : HashIter NodeId (array 32) := map_order _ _.
#[local] Instance tw_direct_order : HashIter SocketAddr Z := map_order _ _.

Definition tw_node (seed : list byte) (b : TagBook) (ops : list POp) : Node :=
  nd_set_ops (build_relay_only (TransportKey_from_seed (pad_array 32 seed)) [nw_away; nw_spec] (Some b) 0) ops.
Definition tw_alice : Node := tw_node (lit "alice") ex_alice [ORegisterPeer (ex_id 2)].
Definition tw_bob : Node := tw_node (lit "bob") ex_bob [].
Definition tw_start : System := mkSystem Relay_init (<[ex_id 1 := tw_alice]> (<[ex_id 2 := tw_bob]> ∅)) ∅ [] [].

Lemma tw_ne : ex_id 1 ≠ ex_id 2.
Proof. intros H. apply (f_equal as_bytes) in H. discriminate H. Qed.

Lemma tw_fresh seed b ops now :
  cache_ok b → (length (registration b (lit "127.0.0.1") now).2 <=? MAX_TAGS_PER_REGISTER)%nat = true →
  p_inbound (nd_paths (tw_node seed b ops)) = [] → tag_fresh (lit "127.0.0.1") now (tw_node seed b ops) b.
Proof.
  intros Hc Hl Hi. split; [|by exists 0|done|done|by apply Nat.leb_le|done].
  exists nw_spec. split; [right; left|exact nw_host].
Qed.

Lemma paired_nodes_talk_by_tag_witness :
  ∃ s nb who m' e, rtc (net_step RelayConfig_default) tw_start s ∧ sy_nodes s !! ex_id 2 = Some nb ∧
    p_inbound (nd_paths nb) = [(NodeId_synthetic_addr who, lit "hello")] ∧
    holds_material (prune_expired ex_bob 10800) who m' ∧ e ∈ window 10800 ∧
    derive_material m' (lit "127.0.0.1") e = derive_material (RPaired ex_secret) (lit "127.0.0.1") (epoch_index 7300).
Proof.
  apply (paired_nodes_talk_by_tag RelayConfig_default tw_start (ex_id 1) tw_alice ex_alice (ex_id 2) tw_bob ex_bob (RPaired ex_secret)
    (lit "127.0.0.1") (NodeId_synthetic_addr (ex_id 2)) (lit "hello") 7300 10800).
  - reflexivity.
  - reflexivity.
  - cbn. apply lookup_insert_eq.
  - cbn. rewrite lookup_insert_ne by exact tw_ne. apply lookup_insert_eq.
  - exact tw_ne.
  - apply tw_fresh; [apply bump_ok|reflexivity|reflexivity].
  - apply tw_fresh; [apply bump_ok|reflexivity|reflexivity].
  - split; vm_compute; congruence.
  - split; vm_compute; congruence.
  - vm_compute. congruence.
  - reflexivity.
  - apply holds_paired. reflexivity.
  - cbn. lia.
  - cbn. lia.
  - reflexivity.
  - vm_compute. lia.
  - reflexivity.
  - reflexivity.
Defined.
