(* ===== verification/Runtime.v ===== *)
(** * Runtime: timers, the clock and the native relay socket
      ([link-endpoint/src/rt.rs], [relay_socket/native.rs])

    The browser build keeps its own timers over [setTimeout], which takes whole
    milliseconds and fires at once above [2^31 - 1] of them; the native build maps
    onto tokio.  Times are in nanoseconds.  The native relay socket is the order
    of its dial and the URL it requests. *)

From S2P Require Import Prelude Net Id Rendezvous Tls Wire Relay RelayClient RelayTls.

Open Scope Z_scope.

(** ** The clock *)

(** [unix_now]: [wall] is the wall clock's distance from the epoch, negative
    before 1970. *)
Definition unix_now (wall : Z) : Z := if wall <? 0 then 0 else wall / 10 ^ 9.

(** ** Browser timers *)

Definition MAX_TIMER : Z := secs (20 * 24 * 60 * 60).

(** The largest delay [setTimeout] honours, in milliseconds. *)
Definition SET_TIMEOUT_MAX : Z := 2 ^ 31 - 1.

(** [Duration::MAX]. *)
Definition DURATION_MAX : Z := u64_max * 10 ^ 9 + 999999999.

(** [u128::div_ceil]. *)
Definition div_ceil (a b : Z) : Z := if a mod b =? 0 then a / b else a / b + 1.

(** The milliseconds [delay] gives the page, [as u32]. *)
Definition delay (duration : Z) : Z := div_ceil (Z.min duration MAX_TIMER) 1000000 mod 2 ^ 32.

(** The timers [sleep] waits for, one after the other. *)
Fixpoint sleep (fuel : nat) (left : Z) : option (list Z) :=
  match fuel with
  | O => None
  | S fuel' =>
    if MAX_TIMER <? left then rest ← sleep fuel' (left - MAX_TIMER); Some (delay MAX_TIMER :: rest)
    else Some [delay left]
  end.

(** [timeout]: at each poll, what the future says and whether the sleep is over.
    The future is polled first. *)
Fixpoint timeout {A} (polls : list (option A * bool)) : option (result unit A) :=
  match polls with
  | [] => None
  | (Some output, _) :: _ => Some (Ok output)
  | (None, true) :: _ => Some (Err tt)
  | (None, false) :: rest => timeout rest
  end.

(** A timer is the time it fires at. *)
Definition arm (now duration : Z) : Z := now + millis (delay duration).

(** quinn's [new_timer] and [reset]. *)
Definition timer_reset (now deadline : Z) : Z := arm now (duration_since deadline now).
Definition timer_poll (fires now : Z) : bool := fires <=? now.

Record Interval : Type := mkInterval { iv_period : Z; iv_timer : Z }.

Definition interval (now period : Z) : exec Interval :=
  if period =? 0 then Panic else Ret (mkInterval (Z.min period MAX_TIMER) (arm now 0)).

(** One poll of [tick]; a poll that is pending, or dropped, changes nothing. *)
Definition tick (i : Interval) (now : Z) : Interval * bool :=
  if timer_poll (iv_timer i) now then (mkInterval (iv_period i) (arm now (iv_period i)), true) else (i, false).

(** The times at which a run of polls completes a tick. *)
Fixpoint ticks (i : Interval) (polls : list Z) : list Z :=
  match polls with
  | [] => []
  | now :: rest => let '(i, ready) := tick i now in (if ready then [now] else []) ++ ticks i rest
  end.

(** ** The native relay socket *)

(** [RelaySocket::open] against the network: whether TCP connects in time to a
    host and port, whether rustls takes the host as a server name, the leaf the
    relay presents if the handshake gets that far, and whether the WebSocket
    handshake for a URL succeeds.  The URL requested. *)
Section native.
Context `{C : Crypto, T : RelayTlsLib}.

Definition native_open (spec : RelaySpec) (tcp : list byte → Z → bool) (server_name : list byte → bool)
    (leaf : option (list byte)) (ws : list byte → bool) : exec (option (list byte)) :=
  match RelaySpec_parts spec with
  | None => Ret None
  | Some p =>
    if negb (tcp (u_host p) (u_port p)) then Ret None
    else
      transport ← (if u_tls p
                   then if negb (server_name (u_host p)) then Ret false
                        else match leaf with
                             | Some leaf => relay_accepts spec (u_host p) leaf
                             | None => Ret false
                             end
                   else Ret true);
      let request := print_url (u_tls p) (u_host p) (u_port p) (u_path p) in
      Ret (if transport && ws request then Some request else None)
  end.

End native.

(** [send_ready], [send_retry]: a native socket is always ready, so the retry
    never completes. *)
Definition native_send_ready : bool := true.

(** [send] and [pong]: the message handed to tungstenite. *)
Definition native_send (bytes : list byte) : Message := MBinary bytes.
Definition native_pong (payload : list byte) : Message := MPong payload.

(** [next]. *)
Definition native_next (message : option (result unit Message)) : option (result unit WsMessage) :=
  match message with
  | None => None
  | Some (Err e) => Some (Err e)
  | Some (Ok m) =>
    Some (Ok (match m with
              | MBinary bytes => WsBinary bytes
              | MPing payload => WsPing payload
              | MPong _ => WsPong
              | _ => WsOther
              end))
  end.

(** ** What the timers promise *)

Section timers.

Lemma div_ceil_bounds a b : 0 < b → (div_ceil a b - 1) * b < a <= div_ceil a b * b.
Proof.
  intros Hb. unfold div_ceil. pose proof (Z.div_mod a b ltac:(lia)). pose proof (Z.mod_pos_bound a b Hb).
  destruct (Z.eqb_spec (a mod b) 0); nia.
Qed.

(** One timer waits its duration rounded up to a millisecond, or [MAX_TIMER] for
    a longer one, and is a delay the page honours. *)
Lemma delay_bounds d :
  0 <= d → 0 <= delay d <= SET_TIMEOUT_MAX ∧ Z.min d MAX_TIMER <= millis (delay d) < Z.min d MAX_TIMER + millis 1.
Proof.
  intros Hd. unfold delay. pose proof (div_ceil_bounds (Z.min d MAX_TIMER) 1000000 ltac:(lia)) as Hb.
  set (q := div_ceil _ _) in *. unfold MAX_TIMER, secs, SET_TIMEOUT_MAX, millis in *.
  rewrite Z.mod_small by lia. lia.
Qed.

Lemma delay_max : millis (delay MAX_TIMER) = MAX_TIMER.
Proof. reflexivity. Qed.

(** The chain of [sleep]: it ends, and waits the duration rounded up once. *)
Lemma sleep_chain fuel d :
  0 <= d → d < Z.of_nat fuel * MAX_TIMER →
  ∃ l, sleep fuel d = Some l ∧ Forall (λ ms, 0 <= ms <= SET_TIMEOUT_MAX) l ∧
    d <= millis (foldr Z.add 0 l) < d + millis 1.
Proof.
  revert d. induction fuel as [|fuel IH]; intros d Hd Hf; [lia|]. cbn [sleep].
  destruct (Z.ltb_spec MAX_TIMER d).
  - destruct (IH (d - MAX_TIMER)) as (l & -> & Hl & Hs); [lia|lia|]. cbn [mbind option_bind].
    exists (delay MAX_TIMER :: l). split; [done|]. split; [constructor; [|done]; by apply delay_bounds|].
    cbn [foldr]. pose proof delay_max. unfold millis in *. lia.
  - exists [delay d]. destruct (delay_bounds d Hd) as [Hr Hw]. split; [done|]. split; [by constructor|].
    cbn [foldr]. rewrite Z.add_0_r. lia.
Qed.

(** A browser [sleep] ends for every duration up to [Duration::MAX], as a
    chain of timers none of which is beyond what a page honours, and waits at
    least its duration and less than a millisecond more; a [timeout] whose future
    is ready when the deadline is seen still yields the future's output. *)
Theorem web_sleep_waits duration (Hd : 0 <= duration <= DURATION_MAX) :
  (∃ chain, sleep (Z.to_nat (duration / MAX_TIMER + 1)) duration = Some chain ∧
     Forall (λ ms, 0 <= ms <= SET_TIMEOUT_MAX) chain ∧
     duration <= millis (foldr Z.add 0 chain) < duration + millis 1) ∧
  ∀ (A : Type) (early : nat) (output : A) over rest,
    timeout (replicate early (None, false) ++ (Some output, over) :: rest) = Some (Ok output).
Proof.
  split.
  - apply sleep_chain; [lia|]. pose proof (Z.div_mod duration MAX_TIMER ltac:(done)).
    pose proof (Z.mod_pos_bound duration MAX_TIMER ltac:(done)).
    assert (0 <= duration / MAX_TIMER) by (apply Z.div_pos; [lia|done]). rewrite Z2Nat.id by lia. lia.
  - intros A early output over rest. by induction early.
Qed.

(** A quinn timer fires no earlier than its deadline, or [MAX_TIMER] from now,
    and within a millisecond of the deadline. *)
Lemma timer_reset_bounds now deadline :
  let fires := timer_reset now deadline in
  Z.min deadline (now + MAX_TIMER) <= fires < Z.max deadline now + millis 1.
Proof.
  cbn zeta. unfold timer_reset, arm, duration_since.
  destruct (delay_bounds (Z.max 0 (deadline - now)) ltac:(lia)) as [_ Hw]. unfold millis, MAX_TIMER, secs in *. lia.
Qed.

(** ** Intervals *)

(** The first tick of a run of polls is at or after the time the timer fires, and
    at the first poll that is: a pending tick that is dropped postpones nothing. *)
Lemma ticks_head i polls a :
  ticks i polls !! 0%nat = Some a → iv_timer i <= a ∧ ∃ n, list_find (λ t, iv_timer i <= t) polls = Some (n, a).
Proof.
  induction polls as [|now polls IH]; [done|]. cbn [ticks]. unfold tick, timer_poll.
  destruct (Z.leb_spec (iv_timer i) now) as [Hle|Hlt]; cbn [app].
  - intros [= <-]. split; [done|]. exists 0%nat. cbn. by rewrite decide_True.
  - intros Hk. destruct (IH Hk) as (Ha & n & E). split; [done|]. exists (S n). cbn. rewrite decide_False by lia. by rewrite E.
Qed.

(** Consecutive ticks are at least a period apart. *)
Lemma ticks_paced i polls a b k :
  0 < iv_period i <= MAX_TIMER → ticks i polls !! k = Some a → ticks i polls !! S k = Some b → a + iv_period i <= b.
Proof.
  revert i k. induction polls as [|now polls IH]; intros i k Hp; [done|]. cbn [ticks]. unfold tick.
  destruct (timer_poll (iv_timer i) now) eqn:E; cbn [app]; [|by apply IH].
  destruct k as [|k]; cbn [lookup list_lookup].
  - intros [= <-] Hb. assert (Hge : arm now (iv_period i) <= b) by (apply (ticks_head _ _ _ Hb)).
    unfold arm in Hge. destruct (delay_bounds (iv_period i) ltac:(lia)) as [_ Hw]. unfold millis in *. lia.
  - by apply (IH (mkInterval (iv_period i) (arm now (iv_period i))) k).
Qed.

Lemma interval_first now period polls i :
  interval now period = Ret i → ticks i (now :: polls) !! 0%nat = Some now.
Proof.
  unfold interval. destruct (Z.eqb_spec period 0); [done|]. intros [= <-]. cbn [ticks]. unfold tick, timer_poll, arm.
  cbn [iv_timer iv_period]. replace (now + millis (delay 0) <=? now) with true; [done|].
  symmetry. apply Z.leb_le. change (millis (delay 0)) with 0. lia.
Qed.

End timers.

(** ** The URL both builds dial *)

Section urls.
Context `{C : Crypto, T : RelayTlsLib}.

Lemma native_request spec tcp server_name leaf ws url :
  native_open spec tcp server_name leaf ws = Ret (Some url) →
  ∃ p, RelaySpec_parts spec = Some p ∧ url = print_url (u_tls p) (u_host p) (u_port p) (u_path p) ∧
    (u_tls p = true → ∃ l, leaf = Some l ∧ relay_accepts spec (u_host p) l = Ret true).
Proof.
  unfold native_open. destruct (RelaySpec_parts spec) as [p|] eqn:Ep; [|done]. destruct (tcp _ _); [|done]. cbn [negb].
  intros (b & Ht & E)%exec_bind_Ret. destruct b; [|done]. destruct (ws _); [|done]. injection E as <-. exists p. split; [done|]. split; [done|].
  intros Et. rewrite Et in Ht. destruct (server_name _); [|done]. cbn in Ht. destruct leaf as [l|]; [|done]. by exists l.
Qed.

(** Native and browser builds reach the same relay.  Whatever the network
    does, a native dial that opens requests a URL with the scheme, host, port and
    path of the configured one, over a certificate the relay's rule accepts; and
    where a browser may open the relay at all, the two builds request the same
    URL, byte for byte. *)
Theorem builds_dial_same_url spec tcp server_name leaf ws url
  (Ho : native_open spec tcp server_name leaf ws = Ret (Some url)) :
  (∃ p, RelaySpec_parts spec = Some p ∧
     RelaySpec_parts (mkRelaySpec url (spec_cert_sha256 spec) (spec_insecure_tls spec)) = Some p ∧
     (u_tls p = true → ∃ l, leaf = Some l ∧ relay_accepts spec (u_host p) l = Ret true)) ∧
  ∀ browser, RelaySpec_browser_url spec = Some browser → browser = url.
Proof.
  destruct (native_request _ _ _ _ _ _ Ho) as (p & Ep & -> & Ht). split.
  - exists p. split; [done|]. split; [|done]. apply parts_spec in Ep as (Hp & Hc & Hl & Hh & Hpath & Hs & Hd).
    rewrite print_url_parts by done. by destruct p.
  - intros browser. unfold RelaySpec_browser_url. destruct (bool_decide _); [done|]. destruct (spec_insecure_tls spec); [done|].
    rewrite Ep. cbn [mbind option_bind]. destruct (u_tls p); [|done]. intros E%(inj Some). by rewrite <- E.
Qed.

End urls.

(** A bracketed IPv6 relay is canonical, and its host goes to the resolver with
    its brackets, which is no IPv6 literal. *)
Lemma bracketed_host_unresolvable :
  RelaySpec_host (RelaySpec_plain (lit "wss://[::1]:8443/link")) = Some (lit "[::1]") ∧
  parse_ipv6 (lit "[::1]") = None ∧ is_Some (parse_ipv6 (lit "::1")).
Proof. split; [vm_compute; reflexivity|]. split; [vm_compute; reflexivity|]. by eexists. Qed.

(** ** Witnesses *)

#[local] Existing Instances toy_crypto.
#[local] Instance rt_tls : RelayTlsLib :=
  {| webpki_accepts _ _ := true; tls12_verify _ _ _ := true; tls13_verify _ _ _ := true; provider_schemes := [] |}.

Lemma web_sleep_waits_witness :
  ∃ chain, sleep (Z.to_nat (secs 5000000 / MAX_TIMER + 1)) (secs 5000000) = Some chain ∧
    secs 5000000 <= millis (foldr Z.add 0 chain) < secs 5000000 + millis 1.
Proof.
  destruct (web_sleep_waits (secs 5000000)) as [(chain & H1 & _ & H2) _].
  - unfold DURATION_MAX, secs, u64_max. lia.
  - exists chain. exact (conj H1 H2).
Defined.

Definition rt_spec : RelaySpec := RelaySpec_plain (lit "wss://Relay.Example/link").

Lemma rt_opens :
  native_open rt_spec (λ _ _, true) (λ _, true) (Some (lit "leaf")) (λ _, true) =
    Ret (Some (lit "wss://relay.example:443/link")).
Proof. vm_compute. reflexivity. Qed.

Lemma builds_dial_same_url_witness :
  RelaySpec_browser_url rt_spec = Some (lit "wss://relay.example:443/link").
Proof.
  destruct (builds_dial_same_url _ _ _ _ _ _ rt_opens) as [_ H].
  destruct (RelaySpec_browser_url rt_spec) as [b|] eqn:E; [|discriminate E]. f_equal. by apply H.
Defined.
