(* ===== verification/Backpressure.v ===== *)
(** * Backpressure: a sender waiting for a relay queue
      ([link-endpoint/src/path_socket.rs], [link-endpoint/src/relay_client.rs])

    quinn asks a poller whether it may send; the path socket refuses a datagram when
    the queue of its relay driver is full, and the driver tasks wake the waiting
    pollers as they drain.  Three parties share the queues and one set of wakers, so
    this is a machine over their interleavings: every atomic access of a poller, a
    send and a turn of a driver is a step of its own. *)

From S2P Require Import Prelude Net Id Rendezvous Card Wire Paths TagBook RelayClient.

Open Scope Z_scope.

(** Where a poller is in [poll_writable]: not being polled, or answered ready;
    past a first look that found no room, with the waker of this poll; registered,
    about to look again; or pending on the driver the second look was at. *)
Inductive PollState : Type :=
  | PIdle
  | PReady
  | PChecked (waker : Z)
  | PRegistered
  | PPending (driver : Z).

Record Pressure : Type := mkPressure {
  np_runs : gmap Z Run;
  np_ready : WriteReadiness;
  np_blocked : option Z;
  np_pollers : gmap Z PollState;
}.

Definition np_set_run (n : Pressure) (id : Z) (r : Run) : Pressure :=
  mkPressure (<[id := r]> (np_runs n)) (np_ready n) (np_blocked n) (np_pollers n).
Definition np_set_ready (n : Pressure) (w : WriteReadiness) : Pressure :=
  mkPressure (np_runs n) w (np_blocked n) (np_pollers n).
Definition np_set_blocked (n : Pressure) (b : option Z) : Pressure :=
  mkPressure (np_runs n) (np_ready n) b (np_pollers n).
Definition np_set_poller (n : Pressure) (p : Z) (s : PollState) : Pressure :=
  mkPressure (np_runs n) (np_ready n) (np_blocked n) (<[p := s]> (np_pollers n)).

Definition Pressure_start : Pressure := mkPressure ∅ (mkReadiness [] 0) None ∅.

(** [has_capacity] of the poller. *)
Definition room (n : Pressure) : bool :=
  has_capacity (np_blocked n) (λ id, (λ r, driver_has_capacity (r_driver r)) <$> np_runs n !! id).

(** [UdpPoller::poll_writable] up to its first look; [udp] is what the UDP socket
    says, [None] without one. *)
Definition poll_begin (n : Pressure) (p waker : Z) (udp : option (option bool)) : Pressure :=
  match udp with
  | Some None => np_set_poller n p PIdle
  | Some (Some false) => np_set_poller n p PReady
  | Some (Some true) | None => np_set_poller n p (if room n then PReady else PChecked waker)
  end.

(** The second look. *)
Definition poll_recheck (n : Pressure) (p : Z) : Pressure :=
  np_set_poller n p (if room n then PReady else match np_blocked n with Some d => PPending d | None => PReady end).

Section machine.
Context `{C : Crypto, R : RdvCrypto}.
Context `{!HashIter NodeId RendezvousPeer, !HashIter NodeId PairingRoute, !HashIter NodeId (array 32)}.
Context (key : TransportKey) (relays : Z → list RelaySpec).

Inductive BEvent : Type :=
  | BSpawn (id : Z) (book : option TagBook)
  | BDriver (id : Z) (ev : DEvent)
  | BSend (id : Z) (destination : NodeId) (datagram : list byte) (now_unix : Z)
  | BCreate
  | BPoll (p waker : Z) (udp : option (option bool))
  | BRegister (p : Z)
  | BRecheck (p : Z)
  | BDrop (p : Z).

(** A turn of a driver task, with its [wake_all]. *)
Definition driver_turn (n : Pressure) (id : Z) (ev : DEvent) : Pressure :=
  match np_runs n !! id with
  | Some r =>
    let '(r, out) := d_step key (relays id) r ev in
    let n := np_set_run n id r in
    if o_wake out then np_set_ready n (WriteReadiness_wake_all (np_ready n)).1 else n
  | None => n
  end.

(** The relayed branch of [try_send]. *)
Definition relay_send (n : Pressure) (id : Z) (destination : NodeId) (datagram : list byte) (now_unix : Z) : Pressure :=
  match np_runs n !! id with
  | Some r =>
    let '(d, b, outcome) := driver_try_send (r_driver r) (r_book r) destination datagram now_unix in
    np_set_blocked (np_set_run n id (r_set_book (r_set_driver r d) b)) (match outcome with WouldBlock => Some id | _ => None end)
  | None => n
  end.

Definition np_step (n : Pressure) (ev : BEvent) : Pressure :=
  match ev with
  | BSpawn id book => match np_runs n !! id with Some _ => n | None => np_set_run n id (run_start id (relays id) book) end
  | BDriver id ev => driver_turn n id ev
  | BSend id destination datagram now_unix => relay_send n id destination datagram now_unix
  | BCreate => let '(w, p) := WriteReadiness_new_id (np_ready n) in np_set_poller (np_set_ready n w) p PIdle
  | BPoll p waker udp =>
    match np_pollers n !! p with
    | Some (PIdle | PReady | PPending _) => poll_begin n p waker udp
    | _ => n
    end
  | BRegister p =>
    match np_pollers n !! p with
    | Some (PChecked waker) => np_set_poller (np_set_ready n (WriteReadiness_register (np_ready n) p waker)) p PRegistered
    | _ => n
    end
  | BRecheck p => match np_pollers n !! p with Some PRegistered => poll_recheck n p | _ => n end
  | BDrop p =>
    mkPressure (np_runs n) (WriteReadiness_unregister (np_ready n) p) (np_blocked n) (delete p (np_pollers n))
  end.

Definition np_run (es : list BEvent) : Pressure := foldl np_step Pressure_start es.

(** A poller that answered pending and whose waker nobody took since. *)
Definition asleep (n : Pressure) (p d : Z) : Prop :=
  np_pollers n !! p = Some (PPending d) ∧ p ∈ (wr_wakers (np_ready n)).*1.

(** ** Turns that do not wake *)

(** A driver that is not woken for keeps its receiver, and its queue does not
    shrink, or is still more than half full. *)
Definition kept (r r' : Run) : Prop :=
  d_receiving (r_driver r') = d_receiving (r_driver r) ∧
  ((length (d_queue (r_driver r)) ≤ length (d_queue (r_driver r')))%nat ∨ (MAX_QUEUED_FRAMES / 2 < length (d_queue (r_driver r')))%nat).

Lemma kept_same r r' :
  d_receiving (r_driver r') = d_receiving (r_driver r) → d_queue (r_driver r') = d_queue (r_driver r) → kept r r'.
Proof. intros H1 H2. split; [done|]. rewrite H2. by left. Qed.

Lemma set_status_fields d s : d_receiving (set_status d s) = d_receiving d ∧ d_queue (set_status d s) = d_queue d.
Proof. unfold set_status. by case_bool_decide. Qed.

Lemma kept_status r r' s : r_driver r' = set_status (r_driver r) s → kept r r'.
Proof. intros E. destruct (set_status_fields (r_driver r) s). apply kept_same; by rewrite E. Qed.

Lemma try_send_kept r dst dg now d b o :
  driver_try_send (r_driver r) (r_book r) dst dg now = (d, b, o) → kept r (r_set_book (r_set_driver r d) b).
Proof.
  assert (Hf : ∀ d0 f d1 o1, d_receiving d0 = d_receiving (r_driver r) → d_queue d0 = d_queue (r_driver r) → finish_send d0 f = (d1, o1) →
    d_receiving d1 = d_receiving (r_driver r) ∧ (length (d_queue (r_driver r)) ≤ length (d_queue d1))%nat).
  { intros d0 f d1 o1 H1 H2. unfold finish_send, queue_send. destruct (d_receiving d0) eqn:Er; cbn [negb].
    - destruct (_ <? _)%nat; intros [= <- <-]; cbn; rewrite ?length_app, ?H2; split; (done || lia || congruence).
    - intros [= <- <-]. rewrite H2. split; [congruence | done]. }
  assert (Hh : ∀ d1 h, current_host (r_driver r) = (d1, h) → d_receiving d1 = d_receiving (r_driver r) ∧ d_queue d1 = d_queue (r_driver r)).
  { unfold current_host. intros d1 h. repeat case_match; intros [= <- <-]; done. }
  unfold driver_try_send. destruct (d_stop (r_driver r)); [intros [= <- <- <-]; by apply kept_same|].
  destruct (r_book r) as [tb|].
  - destruct (current_host (r_driver r)) as [d1 [h|]] eqn:Ec; destruct (Hh _ _ eq_refl) as [E1 E2]; [|intros [= <- <- <-]; by apply kept_same].
    destruct (tag_for_send tb dst h now) as [tb' [t|]]; [|intros [= <- <- <-]; by apply kept_same].
    destruct (finish_send d1 _) as [d2 o2] eqn:Ef. intros [= <- <- <-]. destruct (Hf _ _ _ _ E1 E2 Ef) as [? ?]. split; [done | by left].
  - destruct (finish_send _ _) as [d2 o2] eqn:Ef. intros [= <- <- <-]. destruct (Hf _ _ _ _ eq_refl eq_refl Ef) as [? ?]. split; [done | by left].
Qed.

(** The end of a session wakes, whatever ended it. *)
Lemma after_turn_kept r t now r' out :
  (pt_end t = None → pt_wake t = false → kept r (pt_run t)) → after_turn t now = (r', out) → o_wake out = false → kept r r'.
Proof.
  intros H. unfold after_turn. destruct (pt_end t) as [e|]; [|intros [= <- <-]; cbn; auto].
  unfold session_ended. destruct e, (r_book (pt_run t)); intros [= <- <-]; done.
Qed.

Lemma pump_register_kept r p b e nu ok : kept r (pt_run (pump_register r p b e nu ok)).
Proof. unfold pump_register. destruct (registration _ _ _) as [b' tags]. destruct ok; by apply kept_same. Qed.

(** The hysteresis: not waking means more than half of the queue is left. *)
Lemma half_full k : (MAX_QUEUED_FRAMES / 2 <=? MAX_QUEUED_FRAMES - k)%nat = false → (MAX_QUEUED_FRAMES / 2 < k)%nat.
Proof. intros H%Nat.leb_gt. change (MAX_QUEUED_FRAMES / 2)%nat with 32%nat in *. change MAX_QUEUED_FRAMES with 64%nat in H. lia. Qed.

Lemma d_step_kept rs r ev r' out : d_step key rs r ev = (r', out) → o_wake out = false → kept r r'.
Proof.
  intros E Hw. pose proof (kept_same r r eq_refl eq_refl) as Hrefl.
  destruct ev; cbn [d_step] in E; destruct (r_phase r) eqn:Hp; try (by injection E as <- <-).
  - unfold loop_pass in E. destruct (default _ _); [unfold idle_pass in E; injection E as <- <-; by eapply kept_status|].
    destruct (dialled rs r) as [spec|]; [|by injection E as <- <-]. destruct (connect key spec r n) as [[r1 sent] [u|]] eqn:Ec.
    { unfold attempt_up in E. by injection E as <- <-. }
    assert (Hd : d_receiving (r_driver r1) = d_receiving (r_driver r) ∧ d_queue (r_driver r1) = d_queue (r_driver r)).
    { unfold connect in Ec. repeat case_match; by injection Ec as <- <-. }
    unfold attempt_failed in E. injection E as <- <-. destruct (set_status_fields (r_driver r1) (if RECONNECT_DEADLINE <? duration_since elapsed_now (default now (r_down_since r1)) then Failed else Reconnecting)) as [H1 H2].
    apply kept_same; cbn; [rewrite H1 | rewrite H2]; apply Hd.
  - eapply after_turn_kept; [|exact E|exact Hw]. intros _ _. unfold pump_ping. by destruct send_ok.
  - eapply after_turn_kept; [|exact E|exact Hw]. intros _ _. unfold pump_refresh. destruct (r_book r); [|done].
    destruct (_ || _); [apply pump_register_kept | done].
  - eapply after_turn_kept; [|exact E|exact Hw]. intros _ _. unfold pump_changed. destruct (r_book r); [|done].
    destruct (negb ok); [done | apply pump_register_kept].
  - eapply after_turn_kept; [|exact E|exact Hw]. unfold pump_outbound, outbound_take. destruct (d_queue (r_driver r)) as [|f q] eqn:Eq; [done|]. unfold outbound_written.
    destruct (negb send_ok); [done|]. cbn [pt_wake pt_run]. intros _ Hq%half_full. split; [by destruct f|]. right. by destruct f.
  - eapply after_turn_kept; [|exact E|exact Hw]. intros Hend _. unfold pump_message in *. 
    repeat case_match; try done; unfold r_deliver; cbn; try (case_match; by apply kept_same).
  - destruct (driver_try_send _ _ _ _ _) as [[d b] o] eqn:Et. injection E as <- <-. by eapply try_send_kept.
  - destruct (driver_try_send _ _ _ _ _) as [[d b] o] eqn:Et. injection E as <- <-. by eapply try_send_kept.
  - destruct (driver_try_send _ _ _ _ _) as [[d b] o] eqn:Et. injection E as <- <-. by eapply try_send_kept.
  - destruct (d_stop (r_driver r)); by injection E as <- <-.
  - destruct (d_stop (r_driver r)); by injection E as <- <-.
Qed.

(** ** Nobody sleeps through a drain *)

(** A driver somebody may wait for: its queue is more than half full, or it is one of
    [w], whose write is under way and who look at their queue when it is done. *)
Definition busy (w : gset Z) (n : Pressure) (d : Z) : Prop :=
  ∃ r, np_runs n !! d = Some r ∧ d_receiving (r_driver r) = true ∧
    (d ∈ w ∨ (MAX_QUEUED_FRAMES / 2 < length (d_queue (r_driver r)))%nat).

Record np_ok (w : gset Z) (n : Pressure) : Prop := {
  no_fresh p : is_Some (np_pollers n !! p) → p < wr_next (np_ready n);
  no_full p d : asleep n p d → busy w n d;
}.

Lemma replace_waker_ids l id w l' : replace_waker l id w = Some l' → l'.*1 = l.*1.
Proof.
  revert l'. induction l as [|[i v] l IH]; intros l'; [done|]. cbn. destruct (Z.eqb_spec i id) as [->|]; [by intros [= <-]|].
  destruct (replace_waker l id w) as [l1|]; [|done]. intros [= <-]. cbn. f_equal. by apply IH.
Qed.

Lemma register_ids w p v q : q ∈ (wr_wakers (WriteReadiness_register w p v)).*1 → q = p ∨ q ∈ (wr_wakers w).*1.
Proof.
  unfold WriteReadiness_register. cbn [wr_wakers]. destruct (replace_waker _ _ _) as [l|] eqn:E.
  - rewrite (replace_waker_ids _ _ _ _ E). by right.
  - rewrite fmap_app. cbn. set_solver.
Qed.

(** A step that leaves the driver no emptier keeps its sleepers where they may be. *)
Lemma full_kept r r' : kept r r' → d_receiving (r_driver r) = true → (MAX_QUEUED_FRAMES / 2 < length (d_queue (r_driver r)))%nat →
  d_receiving (r_driver r') = true ∧ (MAX_QUEUED_FRAMES / 2 < length (d_queue (r_driver r')))%nat.
Proof. intros [E Hk] Hr Hq. split; [congruence | lia]. Qed.

Lemma set_run_ok w n id r r' : np_ok w n → np_runs n !! id = Some r → kept r r' → np_ok w (np_set_run n id r').
Proof.
  intros [H1 H2] Hr Hk. split; cbn; [done|]. intros p d Ha. destruct (H2 p d Ha) as (r0 & Hr0 & Hrec & Hq). unfold busy. cbn.
  destruct (decide (id = d)) as [<-|Hne]; [|exists r0; by rewrite lookup_insert_ne].
  assert (r0 = r) as -> by congruence. exists r'. rewrite lookup_insert_eq. split; [done|].
  destruct Hq as [Hq|Hq]; [split; [by rewrite (proj1 Hk)|by left]|]. destruct (full_kept _ _ Hk Hrec Hq). auto.
Qed.

Lemma poller_ok w n p s :
  np_ok w n → p < wr_next (np_ready n) → (∀ d, s = PPending d → busy w n d) → np_ok w (np_set_poller n p s).
Proof.
  intros [H1 H2] Hp Hs. split; cbn.
  - intros q Hq. destruct (decide (q = p)) as [->|Hne]; [done|]. rewrite lookup_insert_ne in Hq by done. by apply H1.
  - intros q d [Hq Hin]. cbn in Hq, Hin. rewrite lookup_insert_Some in Hq. destruct Hq as [[<- ->]|[_ Hq]]; [by apply Hs|]. by apply (H2 q d).
Qed.

Lemma ready_ok g n w :
  np_ok g n → wr_next (np_ready n) <= wr_next w → (∀ q, q ∈ (wr_wakers w).*1 → q ∈ (wr_wakers (np_ready n)).*1) → np_ok g (np_set_ready n w).
Proof.
  intros [H1 H2] Hn Hw. split; cbn; [intros p Hp; apply H1 in Hp; lia|]. intros p d [Hp Hin]. cbn in Hp, Hin. apply (H2 p d). split; [done | by apply Hw].
Qed.

(** The second look found the queue full. *)
Lemma no_room w n d : room n = false → np_blocked n = Some d → busy w n d.
Proof.
  unfold room, has_capacity. intros H Hb. rewrite Hb in H. destruct (np_runs n !! d) as [r|] eqn:Er; cbn in H; [|done].
  unfold driver_has_capacity in H. apply orb_false_iff in H as [Hr Hq]. apply negb_false_iff in Hr. apply Nat.ltb_ge in Hq.
  exists r. split; [done|]. split; [done|]. right. change (MAX_QUEUED_FRAMES / 2)%nat with 32%nat. change MAX_QUEUED_FRAMES with 64%nat in Hq. lia.
Qed.

(** Nobody is asleep once everybody was woken. *)
Lemma woken_ok w w' n id r :
  np_ok w n → np_ok w' (np_set_ready (np_set_run n id r) (WriteReadiness_wake_all (np_ready (np_set_run n id r))).1).
Proof. intros [H1 H2]. split; cbn; [done|]. intros p d [_ Hin]. cbn in Hin. by apply elem_of_nil in Hin. Qed.

Lemma np_step_ok w n ev : np_ok w n → np_ok w (np_step n ev).
Proof.
  intros Hok. pose proof Hok as [H1 H2]. destruct ev as [id book|id ev|id dst dg now| |p waker udp|p|p|p]; cbn [np_step].
  - destruct (np_runs n !! id) as [r|] eqn:E; [done|]. split; cbn; [done|]. intros p d Ha. destruct (H2 p d Ha) as (r & Hr & ?).
    exists r. cbn. rewrite lookup_insert_ne by congruence. done.
  - unfold driver_turn. destruct (np_runs n !! id) as [r|] eqn:E; [|done]. destruct (d_step key (relays id) r ev) as [r' out] eqn:Es.
    destruct (o_wake out) eqn:Hw; [|by eapply set_run_ok, d_step_kept].
    by eapply woken_ok.
  - unfold relay_send. destruct (np_runs n !! id) as [r|] eqn:E; [|done].
    destruct (driver_try_send _ _ _ _ _) as [[d b] o] eqn:Et. apply try_send_kept in Et.
    destruct (set_run_ok _ _ _ _ _ Hok E Et) as [G1 G2]. by split.
  - apply poller_ok; [|cbn; lia|done]. apply ready_ok; [done|cbn; lia|done].
  - destruct (np_pollers n !! p) as [s|] eqn:Ep; [|done]. assert (Hp : p < wr_next (np_ready n)) by (apply H1; eauto).
    assert (Hb : np_ok w (poll_begin n p waker udp)).
    { unfold poll_begin. destruct udp as [[[]|]|]; try destruct (room n); apply poller_ok; done. }
    by destruct s.
  - destruct (np_pollers n !! p) as [[]|] eqn:Ep; try done. assert (Hp : p < wr_next (np_ready n)) by (apply H1; eauto).
    split; cbn.
    + intros q Hq. destruct (decide (q = p)) as [->|Hne]; [done|]. rewrite lookup_insert_ne in Hq by done. by apply H1.
    + intros q d [Hq Hin]. cbn in Hq, Hin. rewrite lookup_insert_Some in Hq. destruct Hq as [[_ Hq]|[Hne Hq]]; [done|].
      apply (H2 q d). split; [done|]. apply register_ids in Hin as [->|Hin]; [done|done].
  - destruct (np_pollers n !! p) as [[]|] eqn:Ep; try done. assert (Hp : p < wr_next (np_ready n)) by (apply H1; eauto).
    unfold poll_recheck. destruct (room n) eqn:Er; [by apply poller_ok|]. destruct (np_blocked n) as [d|] eqn:Eb; [|by apply poller_ok].
    apply poller_ok; [done|done|]. intros d' [= <-]. by apply no_room.
  - split; cbn; [intros q Hq; apply H1; destruct Hq as [s Hq]; apply lookup_delete_Some in Hq as [_ Hq]; eauto|].
    intros q d [Hq Hin]. cbn in Hq, Hin. apply lookup_delete_Some in Hq as [Hne Hq]. apply (H2 q d). split; [done|].
    apply list_elem_of_fmap in Hin as (x & -> & Hx). apply list_elem_of_filter in Hx as [_ Hx]. by apply (list_elem_of_fmap_2 fst).
Qed.

Lemma np_run_ok es : np_ok ∅ (np_run es).
Proof.
  unfold np_run. assert (H : ∀ n, np_ok ∅ n → np_ok ∅ (foldl np_step n es)).
  { induction es as [|ev es IH]; intros n Hn; [done|]. cbn. by apply IH, np_step_ok. }
  apply H. split; cbn; [intros p [? Hp]; by rewrite lookup_empty in Hp|]. intros p d [Hp _]. cbn in Hp. by rewrite lookup_empty in Hp.
Qed.

(** A pump that goes on writing reaches the half of its queue and wakes. *)
Lemma drain_wakes k : ∀ n d r pp now,
  np_runs n !! d = Some r → r_phase r = Pumping pp → length (d_queue (r_driver r)) = (MAX_QUEUED_FRAMES / 2 + S k)%nat →
  wr_wakers (np_ready (foldl np_step n (replicate (S k) (BDriver d (DOutbound true now))))) = [].
Proof.
  induction k as [|k IH]; intros n d r pp now Hr Hp Hq.
  all: destruct (d_queue (r_driver r)) as [|f q] eqn:Eq; [done|]; cbn [length] in Hq.
  all: assert (Es : d_step key (relays d) r (DOutbound true now) =
      (match f with SendTag _ _ => r_count count_sent (r_set_driver r (d_set_queue (r_driver r) q)) | _ => r_set_driver r (d_set_queue (r_driver r) q) end,
       mkOut [PFrame f] (MAX_QUEUED_FRAMES / 2 <=? MAX_QUEUED_FRAMES - length q)%nat 0))
    by (cbn [d_step]; rewrite Hp; unfold pump_outbound, outbound_take; rewrite Eq; by destruct f).
  - cbn [replicate foldl np_step]. unfold driver_turn. rewrite Hr, Es. cbn [o_wake].
    assert (E : (MAX_QUEUED_FRAMES / 2 <=? MAX_QUEUED_FRAMES - length q)%nat = true).
    { apply Nat.leb_le. change (MAX_QUEUED_FRAMES / 2)%nat with 32%nat in *. change MAX_QUEUED_FRAMES with 64%nat. lia. }
    by rewrite E.
  - change (replicate (S (S k)) (BDriver d (DOutbound true now))) with (BDriver d (DOutbound true now) :: replicate (S k) (BDriver d (DOutbound true now))).
    cbn [foldl]. set (n' := np_step n _).
    assert (Hn : ∃ r', np_runs n' !! d = Some r' ∧ r_phase r' = Pumping pp ∧ d_queue (r_driver r') = q).
    { unfold n'. cbn [np_step]. unfold driver_turn. rewrite Hr, Es. eexists.
      split; [destruct (o_wake _); cbn [np_set_ready np_set_run np_runs]; apply lookup_insert_eq|]. by destruct f. }
    destruct Hn as (r' & Hr' & Hp' & Hq'). eapply IH; [done|done|]. rewrite Hq'. lia.
Qed.

(** C15: No sender sleeps through a drain.  In every interleaving of sends, polls and
    driver turns, a poller that answered pending and was not woken since waits for a
    driver whose queue is more than half full; the pump of that driver, as it writes
    on, wakes it when half of the queue is left, and every other way for the queue to
    empty (a new session, the end of the task) wakes it too. *)
Theorem no_lost_wakeup es p d (Ha : asleep (np_run es) p d) :
  ∃ r, np_runs (np_run es) !! d = Some r ∧ d_receiving (r_driver r) = true ∧
    (MAX_QUEUED_FRAMES / 2 < length (d_queue (r_driver r)))%nat ∧
    (∀ pp now, r_phase r = Pumping pp →
     ∃ k, ¬ asleep (foldl np_step (np_run es) (replicate k (BDriver d (DOutbound true now)))) p d) ∧
    (∀ ev r' out, d_step key (relays d) r ev = (r', out) →
     d_receiving (r_driver r') = false ∨ d_queue (r_driver r') = [] → ¬ asleep (np_step (np_run es) (BDriver d ev)) p d).
Proof.
  destruct (no_full _ _ (np_run_ok es) _ _ Ha) as (r & Hr & Hrec & [Hq|Hq]); [set_solver|]. exists r. split_and!; try done.
  - intros pp now Hp. exists (S (length (d_queue (r_driver r)) - MAX_QUEUED_FRAMES / 2 - 1)). intros [_ Hin].
    rewrite (drain_wakes _ _ _ _ pp) in Hin by (done || lia). by apply elem_of_nil in Hin.
  - intros ev r' out Es Hgone [_ Hin]. cbn [np_step] in Hin. unfold driver_turn in Hin. rewrite Hr, Es in Hin.
    destruct (o_wake out) eqn:Hw; [by apply elem_of_nil in Hin|].
    destruct (full_kept _ _ (d_step_kept _ _ _ _ _ Es Hw) Hrec Hq) as [H1 H2].
    destruct Hgone as [E|E]; [congruence|]. rewrite E in H2. cbn in H2. lia.
Qed.

(** ** While a write waits *)

(** The machine with the [outbound] branch in its two halves: what waits in [ga_writing]
    is the frame a driver's task has taken from its queue and is writing. *)
Record Gaps : Type := mkGaps { ga_pressure : Pressure; ga_writing : gmap Z Frame }.

Inductive GEvent : Type :=
  | GTake (d : Z)
  | GWritten (d : Z) (send_ok : bool) (now : Z)
  | GOther (ev : BEvent).

(** What needs the task itself, which a write under way suspends. *)
Definition needs_task (ev : DEvent) : bool :=
  match ev with
  | DSend _ _ _ | DBook _ | DTake | DClose | DStopped => false
  | _ => true
  end.

Definition suspended (g : Gaps) (ev : BEvent) : bool :=
  match ev with BDriver d ev => needs_task ev && bool_decide (is_Some (ga_writing g !! d)) | _ => false end.

(** A task that is stopped drops the write it was waiting for. *)
Definition abandoned (n : Pressure) (ev : BEvent) (writing : gmap Z Frame) : gmap Z Frame :=
  match ev with
  | BDriver d DStopped =>
    match np_runs n !! d with
    | Some r =>
      match r_phase r with
      | Pumping _ => if d_stop (r_driver r) then delete d writing else writing
      | _ => writing
      end
    | None => writing
    end
  | _ => writing
  end.

Definition gap_step (g : Gaps) (ev : GEvent) : Gaps :=
  let n := ga_pressure g in
  match ev with
  | GTake d =>
    match ga_writing g !! d, np_runs n !! d with
    | None, Some r =>
      match r_phase r, outbound_take r with
      | Pumping _, Some (frame, r') => mkGaps (np_set_run n d r') (<[d := frame]> (ga_writing g))
      | _, _ => g
      end
    | _, _ => g
    end
  | GWritten d ok now =>
    match ga_writing g !! d, np_runs n !! d with
    | Some frame, Some r =>
      let '(r, out) := after_turn (outbound_written r frame ok) now in
      let n' := np_set_run n d r in
      mkGaps (if o_wake out then np_set_ready n' (WriteReadiness_wake_all (np_ready n')).1 else n') (delete d (ga_writing g))
    | _, _ => g
    end
  | GOther ev => if suspended g ev then g else mkGaps (np_step n ev) (abandoned n ev (ga_writing g))
  end.

Definition gap_run (es : list GEvent) : Gaps := foldl gap_step (mkGaps Pressure_start ∅) es.

Definition ga_ok (g : Gaps) : Prop := np_ok (dom (ga_writing g)) (ga_pressure g).

Lemma abandoned_ok n ev w : np_ok (dom w) (np_step n ev) → np_ok (dom (abandoned n ev w)) (np_step n ev).
Proof.
  intros H. destruct ev as [|d []| | | | | |]; try done. cbn [abandoned].
  destruct (np_runs n !! d) as [r|] eqn:Er; [|done]. destruct (r_phase r) eqn:Ep; try done.
  destruct (d_stop (r_driver r)) eqn:Es; [|done]. revert H. cbn [np_step]. unfold driver_turn. rewrite Er. cbn [d_step]. rewrite Ep, Es.
  cbn [o_wake]. intros [H1 _]. split; [done|]. intros q d' [_ Hin]. cbn in Hin. by apply elem_of_nil in Hin.
Qed.

(** A frame taken: the queue may be half empty now, but the task will look. *)
Lemma take_ok g d : ga_ok g → ga_ok (gap_step g (GTake d)).
Proof.
  intros H. cbn [gap_step]. destruct (ga_writing g !! d) eqn:Ew; [done|]. destruct (np_runs (ga_pressure g) !! d) as [r|] eqn:Er; [|done].
  destruct (r_phase r); try done. unfold outbound_take. destruct (d_queue (r_driver r)) as [|f q] eqn:Eq; [done|].
  destruct H as [H1 H2]. split; cbn; [done|]. intros q' d' Ha. destruct (H2 q' d' Ha) as (r0 & Hr0 & Hrec & Hq). unfold busy. cbn.
  destruct (decide (d = d')) as [<-|Hne].
  - assert (r0 = r) as -> by congruence. eexists. rewrite lookup_insert_eq. split; [done|]. split; [done|]. set_solver.
  - exists r0. rewrite lookup_insert_ne by done. set_solver.
Qed.

(** The look at the queue when the write is done, whatever was queued meanwhile. *)
Lemma written_looks r f ok now r' out :
  after_turn (outbound_written r f ok) now = (r', out) → o_wake out = false →
  d_receiving (r_driver r') = d_receiving (r_driver r) ∧ (MAX_QUEUED_FRAMES / 2 < length (d_queue (r_driver r')))%nat.
Proof.
  unfold after_turn, outbound_written. destruct ok; cbn [negb].
  - cbn [pt_end pt_run pt_sent pt_wake]. intros [= <- <-]. cbn [o_wake]. intros Hq%half_full. by destruct f.
  - cbn [pump_end pt_end pt_run pt_sent]. unfold session_ended. destruct (r_book r); intros [= <- <-]; done.
Qed.

Lemma written_ok g d ok now : ga_ok g → ga_ok (gap_step g (GWritten d ok now)).
Proof.
  intros H. cbn [gap_step]. destruct (ga_writing g !! d) as [f|] eqn:Ew; [|done].
  destruct (np_runs (ga_pressure g) !! d) as [r|] eqn:Er; [|done].
  destruct (after_turn (outbound_written r f ok) now) as [r' out] eqn:Et. unfold ga_ok. cbn [ga_pressure ga_writing].
  destruct (o_wake out) eqn:Hw; [by eapply woken_ok|]. destruct (written_looks _ _ _ _ _ _ Et Hw) as [Hrec' Hq'].
  destruct H as [H1 H2]. split; cbn; [done|]. intros p d' Ha. destruct (H2 p d' Ha) as (r0 & Hr0 & Hrec & Hq). unfold busy. cbn.
  destruct (decide (d = d')) as [<-|Hne].
  - assert (r0 = r) as -> by congruence. exists r'. rewrite lookup_insert_eq, Hrec'. auto.
  - exists r0. rewrite lookup_insert_ne by done. set_solver.
Qed.

Lemma gap_run_ok es : ga_ok (gap_run es).
Proof.
  unfold gap_run. assert (H : ga_ok (mkGaps Pressure_start ∅)).
  { split; cbn; [intros p [? Hp]; by rewrite lookup_empty in Hp|]. intros p d [Hp _]. cbn in Hp. by rewrite lookup_empty in Hp. }
  revert H. generalize (mkGaps Pressure_start ∅). induction es as [|[d|d ok now|ev] es IH]; intros g H; [done|..]; cbn [foldl]; apply IH.
  - by apply take_ok.
  - by apply written_ok.
  - cbn [gap_step]. destruct (suspended g ev); [done|]. apply abandoned_ok. by apply np_step_ok.
Qed.

(** With nothing in between, the two halves are one turn of the pump. *)
Lemma gapless_write n w d r pp f r' ok now :
  w !! d = None → np_runs n !! d = Some r → r_phase r = Pumping pp → outbound_take r = Some (f, r') →
  gap_step (gap_step (mkGaps n w) (GTake d)) (GWritten d ok now) = mkGaps (np_step n (BDriver d (DOutbound ok now))) w.
Proof.
  intros Hw Hr Hp Ht. cbn [gap_step ga_writing ga_pressure]. rewrite Hw, Hr, Hp, Ht. cbn [ga_writing ga_pressure np_set_run np_runs].
  rewrite !lookup_insert_eq. cbn [np_step]. unfold driver_turn. rewrite Hr. cbn [d_step]. rewrite Hp. unfold pump_outbound. rewrite Ht.
  destruct (after_turn (outbound_written r' f ok) now) as [r2 out]. rewrite delete_insert_id by done. unfold np_set_run. cbn.
  by rewrite insert_insert_eq.
Qed.

(** C27: No sender is forgotten over a write that waits.  Between taking a frame from
    its queue and looking at what is left of it, the pump waits for its socket, and
    sends, polls, edits of the book, other drivers and the stop of the task fall
    anywhere in that gap.  A poller that answered pending and was not woken since waits
    for a driver whose queue is more than half full or whose write is under way; and
    the end of that write, good or bad, wakes it or leaves it waiting for a queue that
    is more than half full at that moment. *)
Theorem write_gap_keeps_wakeups es p d (Ha : asleep (ga_pressure (gap_run es)) p d) :
  busy (dom (ga_writing (gap_run es))) (ga_pressure (gap_run es)) d ∧
  ∀ ok now, d ∈ dom (ga_writing (gap_run es)) →
    let n' := ga_pressure (gap_step (gap_run es) (GWritten d ok now)) in
    ¬ asleep n' p d ∨ ∃ r, np_runs n' !! d = Some r ∧ (MAX_QUEUED_FRAMES / 2 < length (d_queue (r_driver r)))%nat.
Proof.
  pose proof (gap_run_ok es) as H. split; [by apply H in Ha|]. intros ok now [f Hw]%elem_of_dom n'.
  destruct (no_full _ _ H _ _ Ha) as (r & Hr & _). subst n'. cbn [gap_step]. rewrite Hw, Hr.
  destruct (after_turn (outbound_written r f ok) now) as [r' out] eqn:Et. cbn [ga_pressure].
  destruct (o_wake out) eqn:Ho; [left; intros [_ Hin]; cbn in Hin; by apply elem_of_nil in Hin|].
  right. exists r'. cbn. rewrite lookup_insert_eq. split; [done|]. by apply (written_looks _ _ _ _ _ _ Et Ho).
Qed.

(** A session that is lost with a full queue wakes its sender, who looks, finds the
    queue as full as it was, and waits again, though nothing takes from the queue
    until a relay is up, and though a send would now be dropped, not refused. *)
Lemma lost_relay_keeps_blocking r pp p waker waker' nu ok now next :
  r_phase r = Pumping pp → d_receiving (r_driver r) = true → length (d_queue (r_driver r)) = MAX_QUEUED_FRAMES →
  let n := mkPressure {[0 := r]} (mkReadiness [(p, waker)] next) (Some 0) {[p := PPending 0]} in
  let lost := np_step n (BDriver 0 (DMessage None nu ok now)) in
  let again := foldl np_step lost [BPoll p waker' None; BRegister p; BRecheck p] in
  (∃ r', np_runs lost !! 0 = Some r' ∧ d_status (r_driver r') = Reconnecting ∧ r_phase r' = Dialling) ∧
  ¬ asleep lost p 0 ∧ asleep again p 0 ∧
  ∀ dst dg now_unix, np_blocked (np_step again (BSend 0 dst dg now_unix)) = None.
Proof.
  intros Hp Hrec Hq n lost again.
  set (r1 := mkRun (set_status (r_driver r) Reconnecting) (r_book r) (r_inbound r) (S (r_index r)) (r_backoff r) (Some now) Dialling).
  destruct (set_status_fields (r_driver r) Reconnecting) as [E1 E2].
  assert (Hst : d_status (set_status (r_driver r) Reconnecting) = Reconnecting) by (unfold set_status; by case_bool_decide).
  assert (Hl : lost = mkPressure (<[0 := r1]> {[0 := r]}) (mkReadiness [] next) (Some 0) {[p := PPending 0]}).
  { unfold lost, n. cbn [np_step]. unfold driver_turn. cbn [np_runs]. rewrite lookup_singleton_eq. cbn [d_step]. rewrite Hp. cbn. by destruct (r_book r). }
  assert (Hroom : ∀ w s, room (mkPressure (<[0 := r1]> {[0 := r]}) w (Some 0) s) = false).
  { intros w s. unfold room, has_capacity. cbn [np_blocked np_runs]. rewrite lookup_insert_eq. cbn -[MAX_QUEUED_FRAMES Nat.ltb].
    unfold driver_has_capacity. rewrite E1, E2, Hrec, Hq. by rewrite Nat.ltb_irrefl. }
  assert (Hag : again = mkPressure (<[0 := r1]> {[0 := r]}) (mkReadiness [(p, waker')] next) (Some 0)
                   (<[p := PPending 0]> (<[p := PRegistered]> (<[p := PChecked waker']> {[p := PPending 0]})))).
  { unfold again. rewrite Hl. cbn [foldl np_step np_pollers]. rewrite lookup_singleton_eq. unfold poll_begin. rewrite Hroom.
    cbn [np_set_poller np_pollers]. rewrite lookup_insert_eq. cbn [np_pollers np_set_poller np_set_ready]. rewrite lookup_insert_eq.
    unfold poll_recheck, np_set_poller, np_set_ready. cbn [np_runs np_ready np_blocked np_pollers]. rewrite Hroom. done. }
  split_and!.
  - exists r1. rewrite Hl. cbn [np_runs]. rewrite lookup_insert_eq. by split_and!.
  - rewrite Hl. intros [_ Hin]. cbn in Hin. by apply elem_of_nil in Hin.
  - rewrite Hag. split; cbn; [by rewrite lookup_insert_eq | by left].
  - intros dst dg now_unix. rewrite Hag. cbn [np_step]. unfold relay_send. cbn [np_runs]. rewrite lookup_insert_eq.
    destruct (driver_try_send _ _ _ _ _) as [[d b] o] eqn:Et. cbn. destruct o; try done. exfalso. unfold driver_try_send in Et. cbn in Et.
    destruct (d_stop _); [done|]. unfold current_host, finish_send in Et. rewrite Hst in Et.
    destruct (r_book r); [done|]. destruct (queue_send _ _); done.
Qed.
End machine.

(** ** A sender that waits *)

#[local] Existing Instances toy_crypto toy_rdv.
#[local] Instance bp_peers_order : HashIter NodeId RendezvousPeer := map_order _ _.
#[local] Instance bp_pairing_order : HashIter NodeId PairingRoute := map_order _ _.
#[local] Instance bp_paired_order : HashIter NodeId (array 32) := map_order _ _.

Definition bp_key : TransportKey := TransportKey_from_seed (pad_array 32 (lit "sender")).
Definition bp_relays (id : Z) : list RelaySpec := [RelaySpec_plain (lit "wss://relay.example")].
Definition bp_dial : Dial :=
  mkDial true (Some (Challenge (pad_array 32 (lit "challenge")))) 0 true (Some (Welcome (pad_array 16 (lit "relay")))) 0.

(** The relay comes up, sixty-four datagrams fill its queue, the next is refused. *)
Definition bp_events : list BEvent :=
  [BSpawn 0 None; BDriver 0 (DPass bp_dial 0 0)] ++ replicate 65 (BSend 0 (tk_node_id bp_key) (lit "datagram") 0) ++
  [BCreate; BPoll 0 7 None; BRegister 0; BRecheck 0].

Lemma bp_asleep : asleep (np_run bp_key bp_relays bp_events) 0 0.
Proof.
  split; [vm_compute; reflexivity|].
  assert (E : wr_wakers (np_ready (np_run bp_key bp_relays bp_events)) = [(0, 7)]) by (vm_compute; reflexivity).
  rewrite E. by left.
Qed.

Lemma no_lost_wakeup_witness :
  ∃ r, np_runs (np_run bp_key bp_relays bp_events) !! 0 = Some r ∧ (MAX_QUEUED_FRAMES / 2 < length (d_queue (r_driver r)))%nat.
Proof.
  destruct (no_lost_wakeup bp_key bp_relays bp_events 0 0 bp_asleep) as (r & Hr & _ & Hq & _). exists r. exact (conj Hr Hq).
Defined.

(** The same, with the pump in the middle of a write. *)
Definition bp_gap : list GEvent := (GOther <$> bp_events) ++ [GTake 0; GOther (BSend 0 (tk_node_id bp_key) (lit "late") 0)].

Lemma bp_gap_asleep :
  asleep (ga_pressure (gap_run bp_key bp_relays bp_gap)) 0 0 ∧ 0 ∈ dom (ga_writing (gap_run bp_key bp_relays bp_gap)).
Proof.
  split; [split; [vm_compute; reflexivity|]|].
  - assert (E : wr_wakers (np_ready (ga_pressure (gap_run bp_key bp_relays bp_gap))) = [(0, 7)]) by (vm_compute; reflexivity).
    rewrite E. by left.
  - apply elem_of_dom. eexists. vm_compute. reflexivity.
Qed.

Lemma write_gap_keeps_wakeups_witness :
  let n' := ga_pressure (gap_step bp_key bp_relays (gap_run bp_key bp_relays bp_gap) (GWritten 0 true 0)) in
  ¬ asleep n' 0 0 ∨ ∃ r, np_runs n' !! 0 = Some r ∧ (MAX_QUEUED_FRAMES / 2 < length (d_queue (r_driver r)))%nat.
Proof.
  exact (proj2 (write_gap_keeps_wakeups bp_key bp_relays bp_gap 0 0 (proj1 bp_gap_asleep)) true 0 (proj2 bp_gap_asleep)).
Defined.
