(* ===== verification/BlobNode.v ===== *)
(** * BlobNode: fetching from nodes and serving sessions
      ([link-blossom/src/client.rs], [link-blossom/src/server.rs])

    A fetch by [fsl] URL from the name of a node to a body: the card of the node,
    a session dialled for this blob, the exchange, and what becomes of the session.
    On the other side, the accept loop and the streams of a session.  The endpoint's
    [connect] and [accept] are inputs. *)

From S2P Require Import Prelude Net Id Rendezvous Card Wire Paths TagBook RelayClient Session Blossom.

Open Scope Z_scope.

(** ** Cards by node *)

Abbreviation MapCardResolver := (gmap NodeId Card).

Definition mcr_insert (m : MapCardResolver) (card : Card) : MapCardResolver := <[card_node_id card := card]> m.
Definition mcr_resolve (m : MapCardResolver) (node : NodeId) : option Card := m !! node.

(** ** Fetching *)

(** The session of a fetch when it returns: none was dialled, the body holds it, or
    it was dropped without being closed. *)
Inductive Held : Type := HNone | HBody (session : Z) | HLeft (session : Z).

Section fetch.
Context `{X : Hex}.

(** [fetch_over_link]; [opens] is whether a stream could be opened and the request
    written, [answer] what comes back on it. *)
Definition fetch_over_link (resolve : NodeId → option Card) (connect : Card → result FailReason Z) (opens : bool)
    (scheme : list byte) (host : option (list byte)) (path : list byte) (status : PathStatus) (answer : array 32 → list byte) :
    exec (result FetchError FetchedBlob * Held) :=
  match parse_fsl_source scheme host path with
  | Err e => Ret (Err e, HNone)
  | Ok (node, sha256) =>
    match resolve node with
    | None => Ret (Err Unreachable, HNone)
    | Some card =>
      match connect card with
      | Err _ => Ret (Err Unreachable, HNone)
      | Ok session =>
        if negb opens then Ret (Err Unreachable, HLeft session)
        else
          r ← fetch_dialled status (answer sha256);
          Ret (r, match r with Ok _ => HBody session | Err _ => HLeft session end)
      end
    end
  end.

(** A body dropped before its end: whether its session is left open. *)
Definition body_leaves (b : Body) : bool := match bd_session b with Owned (Some _) => true | _ => false end.

(** ** Serving *)

(** [serve]: the sessions handed to a task, and why the loop stopped, if it did. *)
Fixpoint serve (accepts : list (result FailReason Z)) : list Z * option FailReason :=
  match accepts with
  | [] => ([], None)
  | Ok session :: rest => let '(served, stop) := serve rest in (session :: served, stop)
  | Err FrIdentity :: rest => serve rest
  | Err reason :: _ => ([], Some reason)
  end.

(** [serve_session]: what each accepted stream is answered; [None] is the end of the
    session. *)
Fixpoint serve_session (source : list byte → option BlobBytes) (streams : list (option (list byte))) : exec (list Written) :=
  match streams with
  | [] | None :: _ => Ret []
  | Some input :: rest => w ← serve_stream [] input source; ws ← serve_session source rest; Ret (w :: ws)
  end.

(** ** Properties *)

(** A map of cards only answers for the node of the card. *)
Lemma resolver_names_node cards n c : mcr_resolve (foldl mcr_insert ∅ cards) n = Some c → card_node_id c = n ∧ c ∈ cards.
Proof.
  unfold mcr_resolve. induction cards as [|c' cards IH] using rev_ind; [intros H; cbn [foldl] in H; by rewrite lookup_empty in H|].
  rewrite foldl_app. cbn. unfold mcr_insert at 1. rewrite lookup_insert_Some. set_solver.
Qed.

(** The last card of a node is the one that is used. *)
Lemma resolver_last m c : mcr_resolve (mcr_insert m c) (card_node_id c) = Some c.
Proof. apply lookup_insert_eq. Qed.

(** A fetch that returns a body dialled the node its URL names, with a card of that
    node, and asked it for the digest its URL names. *)
Lemma fetch_dials_named_node cards connect opens scheme host path status answer blob held :
  fetch_over_link (mcr_resolve (foldl mcr_insert ∅ cards)) connect opens scheme host path status answer = Ret (Ok blob, held) →
  ∃ node sha256 card session, parse_fsl_source scheme host path = Ok (node, sha256) ∧ card ∈ cards ∧ card_node_id card = node ∧
    connect card = Ok session ∧ held = HBody session ∧ fetch_dialled status (answer sha256) = Ret (Ok blob).
Proof.
  unfold fetch_over_link. destruct (parse_fsl_source scheme host path) as [[node sha]|e]; [|done].
  destruct (mcr_resolve _ node) as [card|] eqn:Er; [|done]. apply resolver_names_node in Er as [Hn Hc].
  destruct (connect card) as [s|] eqn:Ec; [|done]. destruct opens; cbn [negb]; [|done].
  destruct (fetch_dialled status (answer sha)) as [[b|e]|] eqn:Ef; cbn; [|done|done]. intros [= <- <-].
  exists node, sha, card, s. by split_and!.
Qed.

(** A session dialled for a blob the node does not have, or that failed to answer, is
    dropped and not closed; so is that of a body dropped before its end.  The tasks
    of the session keep its connection, and its keep-alives keep that open. *)
Lemma failed_fetch_leaves_session resolve connect scheme host path status answer node sha256 card session :
  parse_fsl_source scheme host path = Ok (node, sha256) → resolve node = Some card → connect card = Ok session →
  answer sha256 = ResponseHeader_encode RespNotFound →
  fetch_over_link resolve connect true scheme host path status answer = Ret (Err (UnusableStatus 404), HLeft session) ∧
  ∀ recv size, body_leaves (link_body recv (Owned (Some tt)) size) = true.
Proof. intros E1 E2 E3 E4. unfold fetch_over_link. rewrite E1, E2, E3, E4. by destruct status. Qed.

(** Peers that fail the identity check do not stop the loop. *)
Lemma serve_tolerates accepts :
  (∀ reason, Err reason ∈ accepts → reason = FrIdentity) →
  serve accepts = (omap (λ a, match a with Ok s => Some s | Err _ => None end) accepts, None).
Proof.
  induction accepts as [|[s|reason] accepts IH]; intros H; [done| |]; cbn.
  - rewrite IH; [done|]. intros r Hr. apply H. by right.
  - rewrite (H reason) by (by left). apply IH. intros r Hr. apply H. by right.
Qed.

(** The loop returns only with an error that is not an identity failure, after
    serving every session accepted before it. *)
Lemma serve_stops accepts served reason :
  serve accepts = (served, Some reason) →
  reason ≠ FrIdentity ∧ ∃ before rest, accepts = before ++ Err reason :: rest ∧
    served = omap (λ a, match a with Ok s => Some s | Err _ => None end) before.
Proof.
  revert served. induction accepts as [|[s|r] accepts IH]; intros served; cbn; [done| |].
  - destruct (serve accepts) as [l stop]. intros [= <- ->]. destruct (IH l eq_refl) as (Hn & b & k & -> & ->).
    split; [done|]. exists (Ok s :: b), k. done.
  - assert (Hcut : ([] : list Z, Some r) = (served, Some reason) → r ≠ FrIdentity →
      reason ≠ FrIdentity ∧ ∃ before rest, Err r :: accepts = before ++ Err reason :: rest ∧
        served = omap (λ a, match a with Ok s => Some s | Err _ => None end) before).
    { intros [= <- <-] Hr. split; [done|]. by exists [], accepts. }
    destruct r; try (intros H; by apply Hcut). intros H. destruct (IH _ H) as (Hn & b & k & -> & ->). split; [done|].
    exists (Err FrIdentity :: b), k. done.
Qed.

(** Each stream of a session is answered by itself: with the requests of [shas], the
    answers are those of the source, in order. *)
Lemma serve_session_answers source shas :
  serve_session source ((λ sha, Some (wr_bytes (blob_request sha))) <$> shas) =
  Ret ((λ sha, match source (hex_encode (bytes_of sha)) with
               | Some blob => send_blob blob
               | None => mkWritten (ResponseHeader_encode RespNotFound) Finished
               end) <$> shas).
Proof.
  induction shas as [|sha shas IH]; [done|]. cbn [fmap list_fmap serve_session].
  assert (E : serve_stream [] (wr_bytes (blob_request sha)) source =
    Ret (match source (hex_encode (bytes_of sha)) with
         | Some blob => send_blob blob
         | None => mkWritten (ResponseHeader_encode RespNotFound) Finished
         end)) by (by rewrite (serve_stream_request [] _ source sha)).
  rewrite E, exec_bind_Ret_l, IH. done.
Qed.

End fetch.
