(* ===== verification/Spike.v ===== *)
(** * Spike: the command line tool ([link-spike/src/main.rs])

    [keygen], [card], [serve] and [send].  The command line arrives parsed, the
    clock and the random seed are inputs, and what a command prints is a value.
    A QUIC stream is its bytes in order: [send] and [serve] are composed by
    giving each side what the other wrote. *)

From S2P Require Import Prelude Net Id Rendezvous Card RelayClient Session Endpoint Blossom.

Open Scope Z_scope.

Definition SPIKE_CHUNK : Z := 64 * 1024.

(** Arithmetic on [usize] and [u64]: out of range it panics in a checked build
    and wraps in a release build. *)
Definition arith (checks : bool) (z : Z) : exec Z :=
  if (0 <=? z) && (z <=? u64_max) then Ret z else if checks then Panic else Ret (z mod 2 ^ 64).

(** The [base64] crate's standard engine. *)
Class Base64 : Type := {
  b64_encode : list byte → list byte;
  b64_decode : list byte → option (list byte);
}.

Definition B64_ALPHABET : list byte := lit "ABCDEFGHIJKLMNOPQRSTUVWXYZabcdefghijklmnopqrstuvwxyz0123456789+/".
Definition b64_char (b : byte) : bool := bool_decide (b ∈ B64_ALPHABET ++ lit "=").

Class Base64Laws (B : Base64) : Prop := {
  b64_decode_encode l : b64_decode (b64_encode l) = Some l;
  b64_encode_chars l : forallb b64_char (b64_encode l) = true;
  (** The first character carries the high six bits of the first byte. *)
  b64_encode_head b l : head (b64_encode (b :: l)) = B64_ALPHABET !! Z.to_nat (byte_to_Z b / 4);
}.

(** [hex::decode] accepts hexadecimal digits only. *)
Class HexStrict (X : Hex) : Prop := {
  hex_decode_digits s l : hex_decode s = Some l → forallb is_ascii_hexdigit s = true;
}.

(** ** Text *)

(** The characters of Unicode's [White_Space] property, in UTF-8. *)
Definition WHITE_SPACE : list (list byte) :=
  (λ l : list Z, byte_of_Z <$> l) <$>
  [[0x09]; [0x0a]; [0x0b]; [0x0c]; [0x0d]; [0x20]; [0xc2; 0x85]; [0xc2; 0xa0]; [0xe1; 0x9a; 0x80];
   [0xe2; 0x80; 0x80]; [0xe2; 0x80; 0x81]; [0xe2; 0x80; 0x82]; [0xe2; 0x80; 0x83]; [0xe2; 0x80; 0x84];
   [0xe2; 0x80; 0x85]; [0xe2; 0x80; 0x86]; [0xe2; 0x80; 0x87]; [0xe2; 0x80; 0x88]; [0xe2; 0x80; 0x89];
   [0xe2; 0x80; 0x8a]; [0xe2; 0x80; 0xa8]; [0xe2; 0x80; 0xa9]; [0xe2; 0x80; 0xaf]; [0xe2; 0x81; 0x9f];
   [0xe3; 0x80; 0x80]].

(** Strip words of [ws] off the front; each turn takes at least a byte. *)
Fixpoint strip_front (fuel : nat) (ws : list (list byte)) (s : list byte) : list byte :=
  match fuel with
  | O => s
  | S fuel' =>
    match list_find (λ w, take (length w) s = w) ws with
    | Some (_, w) => strip_front fuel' ws (drop (length w) s)
    | None => s
    end
  end.

(** [str::trim]. *)
Definition str_trim (s : list byte) : list byte :=
  let s := strip_front (length s) WHITE_SPACE s in
  rev (strip_front (length s) (@rev byte <$> WHITE_SPACE) (rev s)).

(** [str::parse::<u16>]: one leading plus sign, then digits. *)
Definition parse_port (s : list byte) : option Z :=
  let d := match s with
           | b :: c :: r => if bool_decide (b = ch "+") then c :: r else s
           | _ => s
           end in
  if forallb is_ascii_digit d then parse_u16 d else None.

(** ** Keys *)

Inductive SpikeError : Type :=
  | KeyMissing | KeyUnreadable | SeedNotHex | SeedLength
  | WriteFailed | PermissionsFailed
  | OnionShape | OnionHost | OnionPort | TooManyHints
  | SelfVerify (v : RuleViolation)
  | CardText | CardRefused (v : RuleViolation)
  | StreamClosed | ReplyShort | DigestMismatch.

Record KeyArgs : Type := mkKeyArgs { ka_file : option (list byte); ka_hex : option (list byte) }.

(** A file and its permission bits; [umask] applies to the ones a program creates. *)
Record File : Type := mkFile { fl_bytes : list byte; fl_mode : Z }.
Abbreviation Files := (gmap (list byte) File).

(** Permission bits for the user, the group and the others. *)
Definition mode (u g o : Z) : Z := 64 * u + 8 * g + o.

(** [std::fs::write]: the mode of an existing file is kept. *)
Definition fs_write (umask : Z) (fs : Files) (path data : list byte) : Files :=
  <[path := mkFile data (match fs !! path with
                         | Some f => fl_mode f
                         | None => Z.land (mode 6 6 6) (Z.lnot umask)
                         end)]> fs.

Definition fs_chmod (fs : Files) (path : list byte) (bits : Z) : Files :=
  alter (λ f, mkFile (fl_bytes f) bits) path fs.

(** [std::fs::read_to_string]. *)
Definition read_to_string (fs : Files) (path : list byte) : option (list byte) :=
  f ← fs !! path; from_utf8 (fl_bytes f).

Inductive Line : Type :=
  | SeedHex (text : list byte)
  | NodeHex (text : list byte)
  | NodeBase32 (text : list byte)
  | Synthetic (addr : SocketAddr)
  | ExpiresAt (at_ : Z)
  | Serial (serial : Z)
  | CardHex (text : list byte)
  | CardB64 (text : list byte).

Section spike.
Context `{C : Crypto, R : RdvCrypto, X : Hex, B : Base64}.

Definition KeyArgs_load (fs : Files) (a : KeyArgs) : result SpikeError TransportKey :=
  text ← match ka_file a, ka_hex a with
         | Some path, _ => ok_or KeyUnreadable (read_to_string fs path)
         | None, Some hex_text => Ok hex_text
         | None, None => Err KeyMissing
         end;
  raw ← ok_or SeedNotHex (hex_decode (str_trim text));
  seed ← ok_or SeedLength (try_array 32 raw);
  Ok (TransportKey_from_seed seed).

Definition node_lines (key : TransportKey) : list Line :=
  [NodeHex (hex_encode (as_bytes (tk_node_id key)));
   NodeBase32 (NodeId_to_base32 (tk_node_id key));
   Synthetic (NodeId_synthetic_addr (tk_node_id key))].

(** [keygen] with the random seed it drew; the files as they are after each of
    its steps, and the lines it prints.  [writes] and [chmods] are whether the two
    file operations succeed. *)
Definition keygen (seed : array 32) (out : option (list byte)) (umask : Z) (writes chmods : bool) (fs : Files) :
    list Files * result SpikeError (list Line) :=
  let key := TransportKey_from_seed seed in
  let text := hex_encode (bytes_of (tk_seed key)) in
  match out with
  | Some path =>
    if negb writes then ([fs], Err WriteFailed)
    else
      let written := fs_write umask fs path (text ++ [Byte.x0a]) in
      if negb chmods then ([written], Err PermissionsFailed)
      else ([written; fs_chmod written path (mode 6 0 0)], Ok (node_lines key))
  | None => ([fs], Ok (SeedHex text :: node_lines key))
  end.

(** ** Relays *)

Record RelayArgs : Type := mkRelayArgs {
  ra_relays : list (list byte);
  ra_certs : list (list byte);
  ra_insecure : bool;
}.

Definition RelayArgs_specs (a : RelayArgs) : list RelaySpec :=
  imap (λ index url, mkRelaySpec url (ra_certs a !! index) (ra_insecure a)) (ra_relays a).

(** ** Cards *)

Record CardArgs : Type := mkCardArgs {
  ca_key : KeyArgs;
  ca_relay : RelayArgs;
  ca_ttl : Z;
  ca_udp : list SocketAddr;
  ca_onion : list (list byte);
  ca_serial : option Z;
}.

Definition onion_hint (entry : list byte) : result SpikeError Hint :=
  hp ← ok_or OnionShape (rsplit_once (ch ":") entry);
  let '(host, port) := hp in
  if negb (length host =? 56)%nat then Err OnionHost
  else port ← ok_or OnionPort (parse_port port); Ok (Hint_onion host port).

Fixpoint push_onions (entries : list (list byte)) (hints : list Hint) : result SpikeError (list Hint) :=
  match entries with
  | [] => Ok hints
  | entry :: rest => h ← onion_hint entry; push_onions rest (hints ++ [h])
  end.

Definition card_args_hints (a : CardArgs) : result SpikeError (list Hint) :=
  hints ← push_onions (ca_onion a) ((Hint_relay <$> ra_relays (ca_relay a)) ++ (Hint_udp <$> ca_udp a));
  if negb (length hints <=? MAX_HINTS)%nat then Err TooManyHints else Ok hints.

(** [card]: the card it signs, and the lines it prints once the card has passed
    the verifier. *)
Definition spike_card (checks : bool) (fs : Files) (a : CardArgs) (now : Z) :
    exec (result SpikeError (Card * list Line)) :=
  match KeyArgs_load fs (ca_key a) with
  | Err e => Ret (Err e)
  | Ok key =>
    match card_args_hints a with
    | Err e => Ret (Err e)
    | Ok hints =>
      let ttl := Z.min (Z.max 1 (ca_ttl a)) MAX_LIFETIME_SECONDS in
      expires ← arith checks (now + ttl);
      let card := Card_sign key now expires (default now (ca_serial a)) hints in
      v ← Card_verify (Card_as_bytes card) (VerifyContext_expecting (VerifyContext_new now) (tk_node_id key));
      Ret (match v with
           | Err e => Err (SelfVerify e)
           | Ok _ =>
             Ok (card, [NodeBase32 (NodeId_to_base32 (card_node_id card)); ExpiresAt (card_expires_at card);
                        Serial (card_serial card); CardHex (hex_encode (Card_as_bytes card));
                        CardB64 (b64_encode (Card_as_bytes card))])
           end)
    end
  end.

Definition parse_card (text : list byte) (now : Z) : exec (result SpikeError Card) :=
  let text := str_trim text in
  match (match hex_decode text with
         | Some bytes => Some bytes
         | None => b64_decode text
         end) with
  | None => Ret (Err CardText)
  | Some bytes =>
    v ← Card_verify bytes (VerifyContext_new now);
    Ret (match v with Ok c => Ok c | Err e => Err (CardRefused e) end)
  end.

(** ** Endpoint configuration of [serve] and [send] *)

Record NetArgs : Type := mkNetArgs {
  na_relay : RelayArgs;
  na_no_direct : bool;
  na_reflector : option SocketAddr;
  na_bind : SocketAddr;
}.

(** [settle] is [None] in [serve], which leaves [probe_delay] alone. *)
Definition spike_config (key : TransportKey) (n : NetArgs) (settle : option Z) : EndpointConfig :=
  let d := EndpointConfig_new false key in
  mkEndpointConfig (ec_key d) (ec_serial_seed d) (RelayArgs_specs (na_relay n)) (negb (na_no_direct n)) (na_bind n)
    (na_reflector n) (ec_net_poll d) (match settle with Some s => secs s | None => ec_probe_delay d end)
    (ec_rendezvous_timeout d) (ec_rendezvous d) (ec_paired_routes d).

(** ** The payload *)

Definition u64_shl (a k : Z) : Z := Z.shiftl a k mod 2 ^ 64.
Definition to_le8 (x : Z) : list byte := rev (to_be 8 x).
Definition SEED : Z := 0x5eed000000000001.

Definition xorshift (x : Z) : Z :=
  let x := Z.lxor x (u64_shl x 13) in
  let x := Z.lxor x (Z.shiftr x 7) in
  Z.lxor x (u64_shl x 17).

(** [fill] of a buffer of [n] bytes: [chunks_mut(8)], each from the next state. *)
Fixpoint fill_chunks (fuel : nat) (state : Z) (n : nat) : Z * list byte :=
  match fuel, n with
  | S fuel', S _ =>
    let x := xorshift state in
    let '(state, rest) := fill_chunks fuel' x (n - 8) in
    (state, take n (to_le8 x) ++ rest)
  | _, _ => (state, [])
  end.
Definition fill (state : Z) (n : nat) : Z * list byte := fill_chunks n state n.

(** The loop of [send]: state, bytes hashed and bytes written. *)
Fixpoint source_loop (fuel : nat) (total written state : Z) (hashed out : list byte) :
    option (list byte * list byte) :=
  match fuel with
  | O => None
  | S fuel' =>
    if written <? total then
      let len := Z.min SPIKE_CHUNK (total - written) in
      let '(state, buf) := fill state (Z.to_nat len) in
      source_loop fuel' total (written + len) state (hashed ++ buf) (out ++ buf)
    else Some (hashed, out)
  end.

(** [send] on its stream: what it writes and the digest it keeps. *)
Definition send_stream (checks : bool) (mib : Z) : exec (option (Written * array 32)) :=
  m ← arith checks (mib * 1024);
  total ← arith checks (m * 1024);
  Ret (r ← source_loop (S (Z.to_nat (total / SPIKE_CHUNK + 1))) total 0 SEED [] (to_be 8 total);
       let '(hashed, out) := r in Some (mkWritten out Finished, sha256 hashed)).

(** The end of [send]: the digest read back decides. *)
Definition send_verdict (sent : array 32) (reply : list byte) : result SpikeError unit :=
  match read_exact 32 reply with
  | None => Err ReplyShort
  | Some (echoed, _) => if bool_decide (echoed = bytes_of sent) then Ok tt else Err DigestMismatch
  end.

(** ** Serving *)

Record Sink : Type := mkSink { sn_read : Z; sn_hashed : list byte; sn_written : list byte; sn_recv : list byte }.

(** The loop of [serve_stream], and whether it ran to its end. *)
Fixpoint sink_loop (fuel : nat) (echo : bool) (total : Z) (s : Sink) : option (bool * Sink) :=
  match fuel with
  | O => None
  | S fuel' =>
    if sn_read s <? total then
      let len := Z.min SPIKE_CHUNK (total - sn_read s) in
      match read_exact (Z.to_nat len) (sn_recv s) with
      | None => Some (false, s)
      | Some (buf, recv) =>
        sink_loop fuel' echo total
          (mkSink (sn_read s + len) (sn_hashed s ++ buf) (if echo then sn_written s ++ buf else sn_written s) recv)
      end
    else Some (true, s)
  end.

(** [serve_stream] on the bytes its peer wrote: the result, and what it wrote. *)
Definition spike_serve_stream (echo : bool) (input : list byte) : option (result SpikeError Z * Written) :=
  match read_exact 8 input with
  | None => Some (Err StreamClosed, mkWritten [] Dropped)
  | Some (header, recv) =>
    let total := from_be header in
    r ← sink_loop (S (length recv)) echo total (mkSink 0 [] [] recv);
    Some (match r with
          | (true, s) => (Ok (sn_read s), mkWritten (sn_written s ++ bytes_of (sha256 (sn_hashed s))) Finished)
          | (false, s) => (Err StreamClosed, mkWritten (sn_written s) Dropped)
          end)
  end.

(** The task of one session: streams until one fails.  [None] is a session
    whose [accept_stream] fails. *)
Fixpoint session_task (echo : bool) (streams : list (option (list byte))) : option (list (result SpikeError Z * Written)) :=
  match streams with
  | Some input :: rest =>
    r ← spike_serve_stream echo input;
    match r.1 with
    | Ok _ => l ← session_task echo rest; Some (r :: l)
    | Err _ => Some [r]
    end
  | _ => Some []
  end.

Inductive ServeEnd : Type := ServeDone | ServeFailed | ServeWaiting.

(** The accept loop of [serve]: sessions served, and why it stopped. *)
Fixpoint serve_accepts (sessions served : Z) (accepts : list bool) : Z * ServeEnd :=
  match accepts with
  | [] => (served, ServeWaiting)
  | false :: _ => (served, ServeFailed)
  | true :: rest =>
    let served := served + 1 in
    if negb (sessions =? 0) && (sessions <=? served) then (served, ServeDone)
    else serve_accepts sessions served rest
  end.

(** [watch_path] over the statuses it sees: the reports printed, and whether it
    returned. *)
Fixpoint watch_path (last : option PathStatus) (seen : list PathStatus) : list PathStatus * bool :=
  match seen with
  | [] => ([], false)
  | status :: rest =>
    if bool_decide (last = Some status) then watch_path last rest
    else match status with
         | PFailed _ => ([status], true)
         | _ => let '(l, r) := watch_path (Some status) rest in (status :: l, r)
         end
  end.

End spike.

(** ** The payload is one stream of words *)

Section payload.

(** Byte [i] of the stream from [state]: byte [i mod 8], least significant
    first, of the state after [i / 8 + 1] steps. *)
Definition word_byte (state : Z) (i : nat) : byte := to_le8 (Nat.iter (S (i / 8)) xorshift state) !!! (i mod 8)%nat.
Definition words (state : Z) (n : nat) : list byte := word_byte state <$> seq 0 n.

Lemma to_le8_length x : length (to_le8 x) = 8%nat.
Proof. unfold to_le8. by rewrite length_rev, to_be_length. Qed.

Lemma words_length state n : length (words state n) = n.
Proof. unfold words. by rewrite length_fmap, length_seq. Qed.

Lemma iter_add {A} (f : A → A) n m x : Nat.iter (n + m) f x = Nat.iter n f (Nat.iter m f x).
Proof. induction n as [|n IH]; [done|]. change (f (Nat.iter (n + m) f x) = f (Nat.iter n f (Nat.iter m f x))). by rewrite IH. Qed.

Lemma word_byte_shift state k i : word_byte state (8 * k + i) = word_byte (Nat.iter k xorshift state) i.
Proof.
  unfold word_byte. rewrite <- iter_add.
  replace ((8 * k + i) mod 8)%nat with (i mod 8)%nat
    by (rewrite (Nat.add_comm (8 * k)), Nat.mul_comm, Nat.Div0.mod_add; done).
  do 3 f_equal. rewrite (Nat.add_comm (8 * k)), Nat.mul_comm, Nat.div_add by lia. lia.
Qed.

Lemma words_app state k n : words state (8 * k + n) = words state (8 * k) ++ words (Nat.iter k xorshift state) n.
Proof.
  unfold words. rewrite seq_app, fmap_app. f_equal. rewrite Nat.add_0_l.
  replace (seq (8 * k) n) with (Nat.add (8 * k) <$> seq 0 n) by (rewrite fmap_add_seq; f_equal; lia).
  rewrite <- list_fmap_compose. apply list_fmap_ext. intros j y _. cbn. apply word_byte_shift.
Qed.

Lemma words_head state n : (n ≤ 8)%nat → words state n = take n (to_le8 (xorshift state)).
Proof.
  intros Hn. apply list_eq_same_length with n; [by rewrite length_take, to_le8_length, Nat.min_l|apply words_length|].
  intros i x y Hi. unfold words. rewrite list_lookup_fmap, lookup_seq_lt by done.
  rewrite lookup_take_lt by done. cbn. intros [= <-] Hy. unfold word_byte.
  rewrite Nat.div_small, Nat.mod_small by lia. cbn. by apply list_lookup_total_correct.
Qed.

(** The word at the end of a buffer may be cut short. *)
Lemma fill_chunks_words fuel state n :
  (n ≤ fuel)%nat → fill_chunks fuel state n = (Nat.iter ((n + 7) / 8) xorshift state, words state n).
Proof.
  revert state n. induction fuel as [|fuel IH]; intros state n Hn.
  - assert (n = 0%nat) as -> by lia. done.
  - destruct n as [|n]; [done|]. cbn [fill_chunks]. rewrite IH by lia. set (m := S n) in *.
    destruct (decide (m ≤ 8)%nat).
    + replace (m - 8)%nat with 0%nat by lia. replace ((m + 7) / 8)%nat with 1%nat
        by (apply Nat.div_unique with (m - 1)%nat; lia).
      cbn [words seq fmap list_fmap]. rewrite app_nil_r, words_head by lia. done.
    + replace (words state m) with (words state (8 * 1 + (m - 8))) by (f_equal; lia).
      rewrite words_app, (words_head state (8 * 1)), (take_ge _ m) by (rewrite ?to_le8_length; lia).
      rewrite take_ge by (rewrite to_le8_length; lia). f_equal.
      replace (m + 7)%nat with ((m - 8 + 7) + 1 * 8)%nat by lia. rewrite Nat.div_add by lia.
      by rewrite iter_add.
Qed.

Lemma fill_words state n : fill state n = (Nat.iter ((n + 7) / 8) xorshift state, words state n).
Proof. by apply fill_chunks_words. Qed.

(** The chunk size is a whole number of words, so the loop's chunks join up. *)
Lemma source_loop_words fuel total written state hashed out :
  0 <= written <= total → 0 <= Z.of_nat fuel - 1 → total - written <= (Z.of_nat fuel - 1) * SPIKE_CHUNK →
  source_loop fuel total written state hashed out =
    Some (hashed ++ words state (Z.to_nat (total - written)), out ++ words state (Z.to_nat (total - written))).
Proof.
  revert written state hashed out. induction fuel as [|fuel IH]; intros written state hashed out Hw H0 Hf; [lia|].
  cbn [source_loop]. destruct (Z.ltb_spec written total).
  - rewrite fill_words. set (len := Z.min SPIKE_CHUNK (total - written)).
    assert (Hlen : 0 < len <= total - written) by (unfold len, SPIKE_CHUNK; lia).
    destruct (decide (total - written <= SPIKE_CHUNK)) as [Hc|Hc].
    + assert (len = total - written) as -> by (unfold len; lia).
      rewrite IH by (unfold SPIKE_CHUNK in *; lia).
      replace (total - (written + (total - written))) with 0 by lia.
      by rewrite !app_nil_r.
    + assert (len = SPIKE_CHUNK) as -> by (unfold len; lia).
      rewrite IH by (unfold SPIKE_CHUNK in *; lia).
      replace (Z.to_nat (total - written)) with (8 * Z.to_nat 8192 + Z.to_nat (total - (written + SPIKE_CHUNK)))%nat
        by (unfold SPIKE_CHUNK in *; lia).
      rewrite words_app. replace (Z.to_nat SPIKE_CHUNK) with (8 * Z.to_nat 8192)%nat by (unfold SPIKE_CHUNK; lia).
      replace ((8 * Z.to_nat 8192 + 7) / 8)%nat with (Z.to_nat 8192) by (apply Nat.div_unique with 7%nat; lia).
      by rewrite !app_assoc.
  - replace (total - written) with 0 by lia. by rewrite !app_nil_r.
Qed.

End payload.

(** ** The generator's state *)

Section generator.

(** The state is a [u64] that is never zero, so the payload never degenerates. *)
Definition state_ok (x : Z) : Prop := u64 x ∧ x ≠ 0.

Lemma u64_bits x : u64 x ↔ 0 <= x ∧ ∀ n, 64 <= n → Z.testbit x n = false.
Proof.
  split.
  - intros [H0 H]. split; [done|]. intros n Hn. rewrite <- (Z.mod_small x (2 ^ 64)) by done.
    apply Z.mod_pow2_bits_high. lia.
  - intros [H0 H]. split; [done|]. destruct (Z.eq_dec x 0) as [->|]; [lia|].
    apply Z.log2_lt_pow2; [lia|]. destruct (Z.lt_ge_cases (Z.log2 x) 64) as [|Hl]; [done|].
    pose proof (Z.bit_log2 x ltac:(lia)) as Hb. by rewrite H in Hb.
Qed.

Lemma u64_lxor x y : u64 x → u64 y → u64 (Z.lxor x y).
Proof.
  rewrite !u64_bits. intros [Hx Bx] [Hy By]. split; [by apply Z.lxor_nonneg|].
  intros n Hn. by rewrite Z.lxor_spec, Bx, By.
Qed.

Lemma u64_shl_range a k : u64 (u64_shl a k).
Proof. apply Z.mod_pos_bound. lia. Qed.

Lemma u64_shr_range a k : u64 a → 0 <= k → u64 (Z.shiftr a k).
Proof.
  intros [H0 H] Hk. split; [by apply Z.shiftr_nonneg|]. rewrite Z.shiftr_div_pow2 by done.
  apply Z.le_lt_trans with a; [|done]. apply Z.div_le_upper_bound; [lia|]. nia.
Qed.

(** [x ^ (x << k)] and [x ^ (x >> k)] are zero at zero only. *)
Lemma xor_shl_zero x k : u64 x → 0 < k → Z.lxor x (u64_shl x k) = 0 → x = 0.
Proof.
  intros Hx Hk E. apply Z.lxor_eq in E. apply u64_bits in Hx as [H0 Hb].
  assert (H : ∀ n, 0 <= n → Z.testbit x n = false); [|apply Z.bits_inj'; intros; rewrite H, Z.bits_0; done].
  intros n. induction (Z.lt_wf 0 n) as [n _ IH] using Acc_ind. intros Hn.
  destruct (Z.lt_ge_cases n 64) as [Hlt|]; [|by apply Hb]. rewrite E. unfold u64_shl.
  rewrite Z.mod_pow2_bits_low by lia. rewrite Z.shiftl_spec by lia.
  destruct (Z.lt_ge_cases n k); [by apply Z.testbit_neg_r; lia|]. apply IH; lia.
Qed.

Lemma xor_shr_zero x k : u64 x → 0 < k → Z.lxor x (Z.shiftr x k) = 0 → x = 0.
Proof.
  intros [H0 _] Hk E. apply Z.lxor_eq in E. rewrite Z.shiftr_div_pow2 in E by lia.
  destruct (Z.eq_dec x 0); [done|]. assert (2 ^ k > 1) by (pose proof (Z.pow_gt_1 2 k); lia).
  pose proof (Z.div_lt x (2 ^ k) ltac:(lia) ltac:(lia)). lia.
Qed.

Lemma xorshift_ok x : state_ok x → state_ok (xorshift x).
Proof.
  intros [Hx Hz]. unfold xorshift. set (a := Z.lxor x (u64_shl x 13)).
  assert (Ha : u64 a) by (apply u64_lxor; [done|apply u64_shl_range]).
  assert (Za : a ≠ 0) by (intros E; apply Hz; by apply (xor_shl_zero x 13)).
  set (b := Z.lxor a (Z.shiftr a 7)).
  assert (Hb : u64 b) by (apply u64_lxor; [done|by apply u64_shr_range]).
  assert (Zb : b ≠ 0) by (intros E; apply Za; by apply (xor_shr_zero a 7)).
  split; [apply u64_lxor; [done|apply u64_shl_range]|]. intros E. apply Zb. by apply (xor_shl_zero b 17).
Qed.

Lemma state_always_ok n x : state_ok x → state_ok (Nat.iter n xorshift x).
Proof. intros H. induction n as [|n IH]; [done|]. by apply xorshift_ok. Qed.

End generator.

(** ** A transfer *)

Section transfer.
Context `{C : Crypto}.

Lemma arith_ok checks z : u64 z → arith checks z = Ret z.
Proof.
  intros [H0 H]. unfold arith, u64_max. rewrite (proj2 (Z.leb_le 0 z)), (proj2 (Z.leb_le z _)) by lia. done.
Qed.

(** [serve_stream]'s loop takes the announced bytes, or fails with fewer. *)
Lemma sink_loop_spec fuel echo total s :
  0 <= sn_read s <= total → (length (sn_recv s) < fuel)%nat →
  let n := Z.to_nat (total - sn_read s) in
  if (n <=? length (sn_recv s))%nat then
    sink_loop fuel echo total s =
      Some (true, mkSink total (sn_hashed s ++ take n (sn_recv s))
                    (if echo then sn_written s ++ take n (sn_recv s) else sn_written s) (drop n (sn_recv s)))
  else ∃ s', sink_loop fuel echo total s = Some (false, s').
Proof.
  revert s. induction fuel as [|fuel IH]; intros [read hashed written recv] Hr Hf; [lia|].
  cbn [sn_read sn_hashed sn_written sn_recv] in *. cbn [sink_loop sn_read sn_hashed sn_written sn_recv].
  destruct (Z.ltb_spec read total).
  - set (len := Z.min SPIKE_CHUNK (total - read)).
    assert (Hlen : 0 < len <= total - read) by (unfold len, SPIKE_CHUNK; lia). clearbody len.
    unfold read_exact. destruct (Nat.leb_spec (Z.to_nat len) (length recv)) as [Hle|Hgt].
    + specialize (IH (mkSink (read + len) (hashed ++ take (Z.to_nat len) recv)
        (if echo then written ++ take (Z.to_nat len) recv else written) (drop (Z.to_nat len) recv))).
      cbn [sn_read sn_hashed sn_written sn_recv] in IH. specialize (IH ltac:(lia)).
      rewrite length_drop in IH. specialize (IH ltac:(lia)). cbv zeta in *.
      replace (Z.to_nat (total - read)) with (Z.to_nat len + Z.to_nat (total - (read + len)))%nat by lia.
      set (m := Z.to_nat (total - (read + len))) in *.
      destruct (Nat.leb_spec m (length recv - Z.to_nat len)), (Nat.leb_spec (Z.to_nat len + m) (length recv));
        try lia; [|exact IH].
      rewrite IH. rewrite <- (take_take_drop recv), <- drop_drop. destruct echo; by rewrite <- ?app_assoc.
    + destruct (Nat.leb_spec (Z.to_nat (total - read)) (length recv)); [lia|]. by eexists.
  - replace (total - read) with 0 by lia. cbn. rewrite app_nil_r. replace total with read by lia.
    destruct echo; by rewrite ?app_nil_r.
Qed.

(** Whatever arrives, [serve_stream] ends; it accepts exactly a header and the
    bytes it announces, answering with their digest, after them when echoing. *)
Lemma serve_stream_spec echo input :
  ∃ r w, spike_serve_stream echo input = Some (r, w) ∧
    let total := from_be (take 8 input) in
    let body := take (Z.to_nat total) (drop 8 input) in
    if (8 <=? length input)%nat && (Z.to_nat total <=? length (drop 8 input))%nat then
      r = Ok total ∧ w = mkWritten ((if echo then body else []) ++ bytes_of (sha256 body)) Finished
    else r = Err StreamClosed ∧ wr_end w = Dropped.
Proof.
  unfold spike_serve_stream, read_exact. destruct (Nat.leb_spec 8 (length input)); [|by do 2 eexists].
  set (total := from_be (take 8 input)). set (recv := drop 8 input).
  pose proof (from_be_range (take 8 input)) as Ht. fold total in Ht.
  pose proof (sink_loop_spec (S (length recv)) echo total (mkSink 0 [] [] recv)) as Hs.
  cbn [sn_read sn_hashed sn_written sn_recv] in Hs. specialize (Hs ltac:(lia) ltac:(lia)). cbv zeta in *.
  rewrite Z.sub_0_r in Hs. destruct (Nat.leb_spec (Z.to_nat total) (length recv)).
  - rewrite Hs. do 2 eexists. split; [done|]. cbn. by destruct echo.
  - destruct Hs as [s' ->]. by do 2 eexists.
Qed.

(** What [send] writes: the length and the payload, whose digest it keeps. *)
Lemma send_stream_spec checks mib :
  0 <= mib < 2 ^ 44 →
  let total := mib * 1024 * 1024 in
  send_stream checks mib = Ret (Some (mkWritten (to_be 8 total ++ words SEED (Z.to_nat total)) Finished,
                                      sha256 (words SEED (Z.to_nat total)))).
Proof.
  intros Hm total. unfold send_stream.
  rewrite arith_ok by (unfold u64; lia). cbn [mbind exec_bind].
  rewrite arith_ok by (unfold u64; lia). cbn [mbind exec_bind]. fold total.
  pose proof (Z.div_mod total SPIKE_CHUNK ltac:(done)) as Hd.
  pose proof (Z.mod_pos_bound total SPIKE_CHUNK ltac:(done)) as Hb.
  assert (0 <= total / SPIKE_CHUNK) by (apply Z.div_pos; [unfold total; lia|done]).
  rewrite source_loop_words; [|unfold total; lia|lia|].
  - by rewrite Z.sub_0_r.
  - rewrite Nat2Z.inj_succ, Z2Nat.id by lia. lia.
Qed.

Lemma transfer_payload mib :
  0 <= mib < 2 ^ 44 →
  let total := mib * 1024 * 1024 in
  let input := to_be 8 total ++ words SEED (Z.to_nat total) in
  (8 ≤ length input)%nat ∧ from_be (take 8 input) = total ∧ drop 8 input = words SEED (Z.to_nat total).
Proof.
  intros Hm total input. unfold input. split_and!.
  - rewrite length_app, to_be_length. lia.
  - rewrite take_app_le, take_ge by (rewrite to_be_length; lia). apply from_to_be_64. unfold u64, total; lia.
  - rewrite drop_app_ge, to_be_length, drop_0 by (rewrite to_be_length; lia). done.
Qed.

(** The reply of a serving node to [send], with and without [--echo]. *)
Lemma transfer_reply echo mib :
  0 <= mib < 2 ^ 44 →
  let total := mib * 1024 * 1024 in
  let payload := words SEED (Z.to_nat total) in
  spike_serve_stream echo (to_be 8 total ++ payload) =
    Some (Ok total, mkWritten ((if echo then payload else []) ++ bytes_of (sha256 payload)) Finished).
Proof.
  intros Hm total payload. destruct (transfer_payload mib Hm) as (Hl & Hh & Hd). cbv zeta in Hl, Hh, Hd.
  fold total in Hl, Hh, Hd. fold payload in Hl, Hh, Hd.
  destruct (serve_stream_spec echo (to_be 8 total ++ payload)) as (r & w & -> & Hs). cbv zeta in Hs.
  rewrite Hh, Hd in Hs. rewrite (proj2 (Nat.leb_le _ _) Hl) in Hs.
  unfold payload in Hs at 1. rewrite words_length, Nat.leb_refl in Hs. cbn [andb] in Hs.
  rewrite take_ge in Hs by (unfold payload; rewrite words_length; done). by destruct Hs as [-> ->].
Qed.

Lemma verdict_digest sent rest : send_verdict sent (bytes_of sent ++ rest) = Ok tt.
Proof.
  unfold send_verdict, read_exact. rewrite length_app, bytes_of_length, (proj2 (Nat.leb_le _ _)) by lia.
  rewrite take_app_le, take_ge by (rewrite bytes_of_length; lia). by rewrite bool_decide_true.
Qed.

(** A transfer completes.  For every size whose byte count fits a [u64],
    [send] writes the length and then the payload, which is one stream of
    xorshift words whatever the chunking, over states that never reach zero; the
    serving side takes exactly those bytes and finishes; and the digest it
    returns is the one [send] kept, so [send] succeeds. *)
Theorem spike_transfer checks mib (Hm : 0 <= mib < 2 ^ 44) :
  let total := mib * 1024 * 1024 in
  let payload := words SEED (Z.to_nat total) in
  (∀ i, state_ok (Nat.iter i xorshift SEED)) ∧ length payload = Z.to_nat total ∧
  ∃ w sent reply,
    send_stream checks mib = Ret (Some (w, sent)) ∧ w = mkWritten (to_be 8 total ++ payload) Finished ∧
    spike_serve_stream false (wr_bytes w) = Some (Ok total, reply) ∧ wr_end reply = Finished ∧
    send_verdict sent (wr_bytes reply) = Ok tt.
Proof.
  intros total payload. split; [intros i; apply state_always_ok; by repeat split|].
  split; [apply words_length|]. do 3 eexists. split; [by apply send_stream_spec|]. split; [done|].
  cbn [wr_bytes]. split; [by apply transfer_reply|]. split; [done|]. cbn [wr_bytes app].
  rewrite <- (app_nil_r (bytes_of _)). apply verdict_digest.
Qed.

(** With [--echo] the reply opens with the payload, which [send] takes for the
    digest: a transfer of any size succeeds only if the payload's digest is its
    own first 32 bytes. *)
Lemma echo_transfer_mismatch mib :
  1 <= mib < 2 ^ 44 →
  let total := mib * 1024 * 1024 in
  let payload := words SEED (Z.to_nat total) in
  ∃ reply, spike_serve_stream true (to_be 8 total ++ payload) = Some (Ok total, reply) ∧
    send_verdict (sha256 payload) (wr_bytes reply) =
      if bool_decide (take 32 payload = bytes_of (sha256 payload)) then Ok tt else Err DigestMismatch.
Proof.
  intros Hm total payload. eexists. split; [apply transfer_reply; lia|]. cbn [wr_bytes].
  unfold send_verdict, read_exact. fold total. fold payload.
  assert (Hl : (32 ≤ length payload)%nat) by (unfold payload; rewrite words_length; unfold total; lia).
  rewrite length_app, (proj2 (Nat.leb_le _ _)) by lia. by rewrite take_app_le.
Qed.

End transfer.

(** ** Keys and cards *)

Section text.

Definition graphic_head (s : list byte) : Prop := ∀ b, head s = Some b → is_ascii_graphic b = true.

(** No white space character starts, or ends, with a graphic byte. *)
Definition edge_blank (w : list byte) : bool :=
  match head w with Some b => negb (is_ascii_graphic b) | None => false end.

Lemma white_edges : Forall (λ w, edge_blank w = true) WHITE_SPACE ∧ Forall (λ w, edge_blank w = true) (@rev byte <$> WHITE_SPACE).
Proof. split; repeat constructor. Qed.

Lemma strip_front_stop fuel ws s : Forall (λ w, edge_blank w = true) ws → graphic_head s → strip_front fuel ws s = s.
Proof.
  intros Hw Hs. destruct fuel as [|fuel]; [done|]. cbn.
  destruct (list_find _ ws) as [[i w]|] eqn:E; [|done]. apply list_find_Some in E as (Hi & E & _). exfalso.
  rewrite Forall_lookup in Hw. specialize (Hw _ _ Hi). unfold edge_blank in Hw.
  destruct w as [|b w]; [done|]. cbn in Hw, E. destruct s as [|c s]; [done|]. injection E as -> _.
  by rewrite (Hs b eq_refl) in Hw.
Qed.

Lemma graphic_head_all s : forallb is_ascii_graphic s = true → graphic_head s.
Proof. destruct s as [|c s]; intros H b [= <-]. cbn in H. by destruct (is_ascii_graphic c). Qed.

Lemma forallb_rev (f : byte → bool) s : forallb f (rev s) = forallb f s.
Proof. induction s as [|b s IH]; [done|]. cbn [rev forallb]. rewrite forallb_app, IH. cbn [forallb]. by rewrite andb_true_r, andb_comm. Qed.

Lemma str_trim_graphic s : forallb is_ascii_graphic s = true → str_trim s = s.
Proof.
  intros H. unfold str_trim. rewrite (strip_front_stop _ WHITE_SPACE); [|apply white_edges|by apply graphic_head_all].
  rewrite strip_front_stop; [apply rev_involutive|apply white_edges|apply graphic_head_all; by rewrite forallb_rev].
Qed.

(** The newline a text file ends in is trimmed. *)
Lemma str_trim_line s : forallb is_ascii_graphic s = true → s ≠ [] → str_trim (s ++ [Byte.x0a]) = s.
Proof.
  intros H Hn. unfold str_trim. rewrite (strip_front_stop (length _) WHITE_SPACE); [|apply white_edges|].
  2: { destruct s as [|c s]; [done|]. intros b [= <-]. by apply (graphic_head_all (c :: s)). }
  rewrite rev_app_distr, length_app, Nat.add_1_r. cbn [rev app strip_front].
  assert (E : list_find (λ w, take (length w) (Byte.x0a :: rev s) = w) (@rev byte <$> WHITE_SPACE) = Some (1%nat, [Byte.x0a])).
  { apply list_find_Some. split_and!; [done..|]. intros [|[|j]] y Hy Hj; [|lia..]. by injection Hy as <-. }
  rewrite E. cbn [length drop]. rewrite drop_0.
  rewrite strip_front_stop; [apply rev_involutive|apply white_edges|apply graphic_head_all; by rewrite forallb_rev].
Qed.

Lemma lower_hex_graphic b : lower_hex b = true → is_ascii_graphic b = true.
Proof. by destruct b. Qed.

Lemma b64_char_graphic b : b64_char b = true → is_ascii_graphic b = true.
Proof. by destruct b. Qed.

Lemma forallb_weaken (f g : byte → bool) s : (∀ b, f b = true → g b = true) → forallb f s = true → forallb g s = true.
Proof. rewrite !forallb_forall. auto. Qed.

End text.

Section commands.
Context `{C : Crypto, R : RdvCrypto, X : Hex, B : Base64, !HexLaws X, !HexStrict X, !Base64Laws B}.

Lemma hex_trim l : str_trim (hex_encode l) = hex_encode l.
Proof. apply str_trim_graphic, (forallb_weaken lower_hex); [apply lower_hex_graphic|apply hex_encode_lower]. Qed.

Lemma b64_trim l : str_trim (b64_encode l) = b64_encode l.
Proof. apply str_trim_graphic, (forallb_weaken b64_char); [apply b64_char_graphic|apply b64_encode_chars]. Qed.

Lemma ascii_utf8 l : forallb (in_range 0 0x7f) l = true → from_utf8 l = Some l.
Proof.
  intros H. unfold from_utf8. assert (utf8_valid l = true) as ->; [|done].
  induction l as [|b l IH]; [done|]. cbn [forallb] in H. apply andb_prop in H as [Hb H]. cbn [utf8_valid]. rewrite Hb. by apply IH.
Qed.

(** A key round trips through its file.  After [keygen --out path]
    succeeds, every command given that key file loads the key that was minted,
    whose node ID is the one [keygen] printed; so does [--key-hex] with the seed
    that [keygen] prints when no path is given. *)
Theorem keygen_load seed path umask fs states lines :
  (keygen seed (Some path) umask true true fs = (states, Ok lines) →
   ∃ after, last states = Some after ∧ fl_mode <$> after !! path = Some (mode 6 0 0) ∧
     KeyArgs_load after (mkKeyArgs (Some path) None) = Ok (TransportKey_from_seed seed) ∧
     NodeHex (hex_encode (as_bytes (tk_node_id (TransportKey_from_seed seed)))) ∈ lines) ∧
  (keygen seed None umask true true fs = (states, Ok lines) →
   ∃ text, SeedHex text ∈ lines ∧ KeyArgs_load fs (mkKeyArgs None (Some text)) = Ok (TransportKey_from_seed seed)).
Proof.
  split; unfold keygen; cbn [negb]; intros [= <- <-].
  - eexists. split; [done|]. unfold fs_chmod, fs_write. rewrite lookup_alter_eq, lookup_insert_eq. split; [done|].
    split; [|by left]. unfold KeyArgs_load. cbn [ka_file ka_hex]. unfold read_to_string.
    rewrite lookup_alter_eq, lookup_insert_eq. cbn [fmap option_fmap option_map mbind option_bind fl_bytes].
    rewrite ascii_utf8.
    2: { rewrite forallb_app. apply andb_true_intro. split; [|done].
         apply (forallb_weaken lower_hex); [by intros []|apply hex_encode_lower]. }
    cbn [ok_or mbind result_bind]. rewrite str_trim_line, hex_decode_encode.
    + cbn. by rewrite try_array_bytes.
    + apply (forallb_weaken lower_hex); [apply lower_hex_graphic|apply hex_encode_lower].
    + intros E%(f_equal length). rewrite hex_encode_length, bytes_of_length in E. done.
  - eexists. split; [by left|]. unfold KeyArgs_load. cbn [ka_file ka_hex mbind result_bind].
    rewrite hex_trim, hex_decode_encode. cbn. by rewrite try_array_bytes.
Qed.

(** With the usual umask the seed is readable by group and others between the
    two file operations of [keygen]. *)
Lemma keygen_window seed path fs :
  fs !! path = None →
  ∃ before after lines, keygen seed (Some path) (mode 0 2 2) true true fs = ([before; after], Ok lines) ∧
    before !! path = Some (mkFile (hex_encode (bytes_of seed) ++ [Byte.x0a]) (mode 6 4 4)).
Proof.
  intros H. unfold keygen. cbn [negb]. do 3 eexists. split; [done|]. unfold fs_write. by rewrite lookup_insert_eq, H.
Qed.

(** [Card_verify] at a later time, with no expectation of the node. *)
Lemma verify_later bytes now later n c :
  Card_verify bytes (VerifyContext_expecting (VerifyContext_new now) n) = Ret (Ok c) →
  now <= later < card_expires_at c →
  Card_verify bytes (VerifyContext_new later) = Ret (Ok c).
Proof.
  intros (Hr & Hd)%verify_sound Hl.
  destruct (verify_complete bytes (VerifyContext_new later)) as (c' & -> & Hd').
  - intros r Hr'. pose proof (Hr r Hr') as H. destruct Hd as (_ & _ & _ & _ & He & _).
    destruct (decide (r = 5)) as [->|]; [|destruct (decide (r = 6)) as [->|]; [|destruct (decide (r = 9)) as [->|]]].
    + cbn in H |- *. unfold sat_add64 in *. lia.
    + cbn in H |- *. lia.
    + cbn in H |- *. done.
    + unfold rule_holds in *. destruct r as [|p|p]; try done. do 4 (destruct p as [p|p|]; try done).
  - do 2 f_equal. destruct Hd as (H1 & H2 & H3 & H4 & H5 & H6), Hd' as (K1 & K2 & K3 & K4 & K5 & K6).
    pose proof (hints_of_unique _ _ _ H2 K2). destruct c as [n1 i1 e1 s1 h1 r1], c' as [n2 i2 e2 s2 h2 r2].
    cbn [card_raw card_hints card_node_id card_issued_at card_expires_at card_serial] in *. by subst.
Qed.

Lemma parse_text text bytes now :
  (hex_decode (str_trim text) = Some bytes ∨ hex_decode (str_trim text) = None ∧ b64_decode (str_trim text) = Some bytes) →
  parse_card text now =
    (v ← Card_verify bytes (VerifyContext_new now); Ret (match v with Ok c => Ok c | Err e => Err (CardRefused e) end)).
Proof. intros [E|[E1 E2]]; unfold parse_card; [by rewrite E|by rewrite E1, E2]. Qed.

(** A card's base64 starts with a letter that is no hexadecimal digit. *)
Lemma card_b64_not_hex bytes : head bytes = Some (ch "F") → hex_decode (b64_encode bytes) = None.
Proof.
  destruct bytes as [|b bytes]; [done|]. intros [= ->]. pose proof (b64_encode_head (ch "F") bytes) as Hh.
  destruct (hex_decode _) eqn:E; [|done]. apply hex_decode_digits in E.
  destruct (b64_encode (ch "F" :: bytes)) as [|c s]; [done|]. cbn in Hh. injection Hh as ->. done.
Qed.

(** The fields of a card body can be read back off it. *)
Lemma hints_concat_inj hs ks x y :
  length hs = length ks → Forall (λ h, Z.of_nat (length (h_value h)) < 2 ^ 16) hs →
  Forall (λ h, Z.of_nat (length (h_value h)) < 2 ^ 16) ks →
  concat (Hint_encode <$> hs) ++ x = concat (Hint_encode <$> ks) ++ y → hs = ks.
Proof.
  revert ks. induction hs as [|h hs IH]; intros [|k ks] Hl Hh Hk E; try done. f_equal.
  all: apply Forall_cons in Hh as [Hh Hhs], Hk as [Hk Hks].
  all: cbn [fmap list_fmap concat] in E; rewrite <- !app_assoc in E; apply Hint_encode_app in E as [-> E]; try done.
  apply IH; [by injection Hl|done..].
Qed.

Lemma encode_body_inj n i e s hs x n' i' e' s' hs' x' :
  u64 i → u64 e → u64 s → u64 i' → u64 e' → u64 s' → (length hs ≤ 16)%nat → (length hs' ≤ 16)%nat →
  Forall (λ h, Z.of_nat (length (h_value h)) < 2 ^ 16) hs → Forall (λ h, Z.of_nat (length (h_value h)) < 2 ^ 16) hs' →
  encode_body n i e s hs ++ x = encode_body n' i' e' s' hs' ++ x' →
  n = n' ∧ i = i' ∧ e = e' ∧ s = s' ∧ hs = hs'.
Proof.
  intros Hi He Hs Hi' He' Hs' Hl Hl' Hh Hh'. unfold encode_body. rewrite <- !app_assoc. intros E.
  do 2 (apply app_inj_1 in E as [_ E]; [|done]).
  apply app_inj_1 in E as [En%as_bytes_inj E]; [|by rewrite !as_bytes_length].
  apply app_inj_1 in E as [Ei%(f_equal from_be) E]; [|by rewrite !to_be_length].
  apply app_inj_1 in E as [Ee%(f_equal from_be) E]; [|by rewrite !to_be_length].
  apply app_inj_1 in E as [Es%(f_equal from_be) E]; [|by rewrite !to_be_length].
  rewrite !from_to_be_64 in Ei, Ee, Es by done.
  apply app_inj_1 in E as [Ec E]; [|done]. injection Ec as Ec%(f_equal byte_to_Z). rewrite !byte_to_Z_small in Ec by lia.
  apply hints_concat_inj in E; [done|lia|done..].
Qed.

Lemma hints_small hints n i e s (sig : array 64) :
  (length (encode_body n i e s hints ++ bytes_of sig) ≤ MAX_CARD_BYTES)%nat →
  Forall (λ h, Z.of_nat (length (h_value h)) < 2 ^ 16) hints.
Proof.
  unfold encode_body. rewrite !length_app, concat_encode_length. unfold MAX_CARD_BYTES. intros H.
  assert (Hs : (sum_list (Hint_encoded_len <$> hints) ≤ 4096)%nat) by lia. clear H. revert Hs.
  induction hints as [|h hints IH]; intros Hs; constructor; cbn in Hs.
  - lia.
  - apply IH. lia.
Qed.

Lemma arith_range checks z y : arith checks z = Ret y → u64 y.
Proof.
  unfold arith, u64_max. destruct (_ && _) eqn:G; [intros [= <-]; to_props; unfold u64; lia|].
  destruct checks; [done|]. intros [= <-]. apply Z.mod_pos_bound. lia.
Qed.

(** A freshly signed card that verifies is the card the verifier returns. *)
Lemma self_verified key now expires serial hints ctx c :
  u64 now → u64 expires → u64 serial → (length hints ≤ MAX_HINTS)%nat →
  Card_verify (Card_as_bytes (Card_sign key now expires serial hints)) ctx = Ret (Ok c) →
  c = Card_sign key now expires serial hints.
Proof.
  intros Hn He Hs Hm (Hr & Hd)%verify_sound. pose proof (decodes_to_bytes _ _ _ Hr Hd) as E.
  pose proof (Hr 1 ltac:(lia)) as [_ Hl]. destruct Hd as (Hraw & Hh & Hd1 & Hd2 & Hd3 & Hd4).
  pose proof (Hr 1 ltac:(lia)) as [Hl' _]. unfold MIN_CARD_BYTES in Hl'.
  assert (F : ∀ a, (a ≤ 118)%nat → u64 (from_be (field a 8 (Card_as_bytes (Card_sign key now expires serial hints)))))
    by (intros a Ha; apply from_be_u64, field_length; lia).
  unfold Card_as_bytes at 1 in E. unfold Card_sign at 1 in E. cbn [card_raw] in E.
  apply encode_body_inj in E as (En & Ei & Ee & Es & Eh); try done.
  - destruct c as [n1 i1 e1 s1 h1 r1]. unfold Card_sign.
    cbn [card_raw card_hints card_node_id card_issued_at card_expires_at card_serial] in *. f_equal; [by symmetry..|exact Hraw].
  - rewrite Hd2. apply F. lia.
  - rewrite Hd3. apply F. lia.
  - rewrite Hd4. apply F. lia.
  - apply (ho_max _ _ Hh).
  - apply (hints_small _ _ _ _ _ _ Hl).
  - eapply Forall_impl; [apply (ho_ok _ _ Hh)|]. by intros h [].
Qed.

(** What [card] prints has passed the verifier for its own node and time. *)
Lemma spike_card_inv checks fs a now card lines :
  u64 now → (∀ s, ca_serial a = Some s → u64 s) → spike_card checks fs a now = Ret (Ok (card, lines)) →
  ∃ key, KeyArgs_load fs (ca_key a) = Ok key ∧ card_node_id card = tk_node_id key ∧
    CardHex (hex_encode (Card_as_bytes card)) ∈ lines ∧ CardB64 (b64_encode (Card_as_bytes card)) ∈ lines ∧
    Card_verify (Card_as_bytes card) (VerifyContext_expecting (VerifyContext_new now) (tk_node_id key)) = Ret (Ok card).
Proof.
  intros Hn Hs. unfold spike_card. destruct (KeyArgs_load _ _) as [key|]; [|done].
  destruct (card_args_hints a) as [hints|] eqn:Eh; [|done]. intros (e & He & (v & Hv & E)%exec_bind_Ret)%exec_bind_Ret.
  destruct v as [c|]; [|done]. injection E as <- <-. exists key. split; [done|]. split; [done|].
  split; [set_solver|]. split; [set_solver|]. rewrite Hv. do 2 f_equal. eapply self_verified; [done|..|done].
  - by eapply arith_range.
  - destruct (ca_serial a) eqn:Ea; cbn; [by apply Hs|done].
  - unfold card_args_hints in Eh. apply result_bind_Ok in Eh as (hs & _ & Eh). split_if_in Eh.
    injection Eh as <-. to_props. done.
Qed.

(** What [card] prints, [send] reads.  Any card the command prints, in
    hexadecimal or in base64, parses at every later time before it expires to
    the very card that was signed: its base64 is never taken for hexadecimal,
    and a card that would be refused is not printed. *)
Theorem printed_card_parses checks fs a now card lines later
  (Hn : u64 now) (Hs : ∀ s, ca_serial a = Some s → u64 s)
  (Hc : spike_card checks fs a now = Ret (Ok (card, lines))) (Hl : now <= later < card_expires_at card) :
  ∃ hex b64, CardHex hex ∈ lines ∧ CardB64 b64 ∈ lines ∧
    parse_card hex later = Ret (Ok card) ∧ parse_card b64 later = Ret (Ok card).
Proof.
  destruct (spike_card_inv _ _ _ _ _ _ Hn Hs Hc) as (key & _ & _ & Hh & Hb & Hv).
  do 2 eexists. split; [done|]. split; [done|]. pose proof (verify_later _ _ later _ _ Hv Hl) as Hv'. split.
  - rewrite (parse_text _ (Card_as_bytes card)) by (left; by rewrite hex_trim, hex_decode_encode). by rewrite Hv'.
  - rewrite (parse_text _ (Card_as_bytes card)); [by rewrite Hv'|]. right. rewrite b64_trim.
    split; [|apply b64_decode_encode]. apply card_b64_not_hex.
    apply verify_sound in Hv as (Hr & _). destruct (Hr 2 ltac:(lia)) as [Hm _].
    unfold field in Hm. rewrite drop_0 in Hm. destruct (Card_as_bytes card) as [|b l]; [done|]. by injection Hm as -> _.
Qed.

End commands.

(** ** The loops of [serve] *)

Section loops.
Context `{C : Crypto}.

(** Relay [i] is pinned by certificate [i], or by none. *)
Lemma specs_lookup a i :
  RelayArgs_specs a !! i = (λ url, mkRelaySpec url (ra_certs a !! i) (ra_insecure a)) <$> ra_relays a !! i.
Proof. unfold RelayArgs_specs. by rewrite list_lookup_imap. Qed.

(** A session's task always ends: with its session, or at the first stream that
    fails. *)
Lemma session_task_total echo streams : ∃ l, session_task echo streams = Some l ∧ (length l ≤ length streams)%nat.
Proof.
  induction streams as [|[input|] streams (l & IH & Hl)]; cbn [session_task]; [by exists []| |by exists []; cbn; split; [done|lia]].
  destruct (serve_stream_spec echo input) as (r & w & -> & _). cbn. destruct r; rewrite ?IH.
  all: eexists; split; [done|]; cbn; lia.
Qed.

(** [--sessions n] stops after [n] sessions, and zero never stops. *)
Lemma serve_accepts_limit sessions served n rest :
  0 <= served → served + Z.of_nat (S n) = sessions →
  serve_accepts sessions served (replicate (S n) true ++ rest) = (sessions, ServeDone).
Proof.
  revert served. induction n as [|n IH]; intros served H0 Hn.
  - cbn. rewrite (proj2 (Z.eqb_neq sessions 0)), (proj2 (Z.leb_le sessions _)) by lia. cbn. f_equal. lia.
  - cbn [replicate app serve_accepts]. rewrite (proj2 (Z.leb_gt sessions _)), andb_false_r by lia. apply IH; lia.
Qed.

Lemma serve_accepts_forever served accepts : snd (serve_accepts 0 served accepts) ≠ ServeDone.
Proof. revert served. induction accepts as [|[] accepts IH]; intros served; [done| |done]. cbn. apply IH. Qed.

(** The reports of [watch_path] never repeat a status, and a failure is the last. *)
Lemma watch_path_changes last seen l r :
  watch_path last seen = (l, r) →
  (∀ i s, (from_option (λ x, [x]) [] last ++ l) !! i = Some s →
     (from_option (λ x, [x]) [] last ++ l) !! S i ≠ Some s) ∧
  (∀ i reason, l !! i = Some (PFailed reason) → r = true ∧ S i = length l).
Proof.
  revert last l r. induction seen as [|s seen IH]; intros last l r; cbn [watch_path].
  - intros [= <- <-]. split; [|by intros i ?; rewrite lookup_nil]. rewrite app_nil_r.
    intros i x. by destruct last, i as [|[|i]].
  - case_bool_decide as G; [apply IH|]. intros E.
    assert (H : ∃ l', l = s :: l' ∧ ((∃ reason, s = PFailed reason ∧ l' = [] ∧ r = true) ∨
      (∀ reason, s ≠ PFailed reason) ∧ watch_path (Some s) seen = (l', r))).
    { destruct s; try (destruct (watch_path (Some _) seen) as [l' r'] eqn:E'); injection E as <- <-; eexists;
        (split; [done|]); first [right; done | left; by eexists]. }
    destruct H as (l' & -> & H). split.
    + assert (Ht : ∀ i x, (s :: l') !! i = Some x → (s :: l') !! S i ≠ Some x).
      { destruct H as [(reason & _ & -> & _)|[_ H]]; [|apply (IH _ _ _ H)].
        by intros [|[|i]] x. }
      intros [|i] x Hx; destruct last as [y|]; cbn in Hx |- *; try apply Ht; try done.
      intros [= ->]. apply G. exact Hx.
    + intros [|i] reason Hi; cbn in Hi.
      * injection Hi as ->. destruct H as [(? & _ & -> & ->)|[H _]]; [done|by destruct (H reason)].
      * destruct H as [(? & _ & -> & ->)|[_ H]]; [by destruct i|].
        destruct (IH _ _ _ H) as [_ Hf]. destruct (Hf _ _ Hi) as [-> Hl]. split; [done|]. cbn. by rewrite Hl.
Qed.

End loops.

(** ** Concrete runs *)

#[local] Existing Instances toy_crypto toy_rdv toy_crypto_laws ascii_hex ascii_hex_laws.

(** A lawful stand-in for base64: the first character as the engine spells it,
    then the bytes in hexadecimal. *)
Definition toy_b64 : Base64 := {|
  b64_encode l := match l with [] => [] | b :: _ => (B64_ALPHABET !!! Z.to_nat (byte_to_Z b / 4)) :: hex_encode l end;
  b64_decode s := match s with [] => Some [] | _ :: s' => hex_decode s' end;
|}.

Lemma toy_b64_laws : Base64Laws toy_b64.
Proof.
  split; cbn [b64_encode b64_decode toy_b64].
  - intros [|b l]; [done|]. apply hex_decode_encode.
  - intros [|b l]; [done|]. cbn [forallb]. apply andb_true_intro. split; [by destruct b|].
    apply (forallb_weaken lower_hex); [by intros []|apply hex_encode_lower].
  - intros b l. cbn. by destruct b.
Qed.

Lemma hex_pairs_digits n s l : (length s ≤ n)%nat → hex_pairs s = Some l → forallb is_ascii_hexdigit s = true.
Proof.
  revert s l. induction n as [|n IH]; intros [|a [|b s]] l Hn; cbn [hex_pairs]; cbn in Hn; try done; try lia.
  destruct (Blossom.hex_value a) eqn:Ea; [|done]. destruct (Blossom.hex_value b) eqn:Eb; [|done].
  destruct (hex_pairs s) eqn:Es; [|done]. intros _. cbn [forallb]. rewrite (IH s l0) by (done || lia).
  assert (H : ∀ c v, Blossom.hex_value c = Some v → is_ascii_hexdigit c = true) by (by intros []).
  by rewrite (H _ _ Ea), (H _ _ Eb).
Qed.

Lemma ascii_hex_strict : HexStrict ascii_hex.
Proof. split. intros s l. by apply (hex_pairs_digits (length s)). Qed.

#[local] Existing Instances toy_b64 toy_b64_laws ascii_hex_strict.

Definition spike_seed : array 32 := pad_array 32 (lit "seed").
Definition spike_args : CardArgs :=
  mkCardArgs (mkKeyArgs None (Some (hex_encode (bytes_of spike_seed))))
    (mkRelayArgs [lit "wss://relay.example"] [] false) 600 []
    [replicate 56 (ch "a") ++ lit ":80"] (Some 7).

Definition prints_until (expires : Z) (r : exec (result SpikeError (Card * list Line))) : bool :=
  match r with Ret (Ok (card, lines)) => (card_expires_at card =? expires) && (length lines =? 5)%nat | _ => false end.

Lemma prints_until_spec expires r :
  prints_until expires r = true → ∃ card lines, r = Ret (Ok (card, lines)) ∧ card_expires_at card = expires.
Proof. destruct r as [[[card lines]|]|]; [|done..]. cbn. intros [H%Z.eqb_eq _]%andb_true_iff. by exists card, lines. Qed.

(** [card] with a relay and an onion hint signs and prints. *)
Lemma spike_card_runs : prints_until 1600 (spike_card true ∅ spike_args 1000) = true.
Proof. vm_compute. reflexivity. Qed.

Lemma printed_card_parses_witness :
  ∃ card hex b64, parse_card hex 1200 = Ret (Ok card) ∧ parse_card b64 1200 = Ret (Ok card).
Proof.
  destruct (prints_until_spec _ _ spike_card_runs) as (card & lines & E & He).
  destruct (printed_card_parses true ∅ spike_args 1000 card lines 1200) as (hex & b64 & _ & _ & H1 & H2).
  - clear E. unfold u64. lia.
  - clear E. intros s [= <-]. unfold u64. lia.
  - exact E.
  - rewrite He. lia.
  - exists card, hex, b64. exact (conj H1 H2).
Defined.

Lemma keygen_load_witness :
  ∃ fs, KeyArgs_load fs (mkKeyArgs (Some (lit "key")) None) = Ok (TransportKey_from_seed spike_seed).
Proof.
  edestruct (keygen_load spike_seed (lit "key") (mode 0 2 2) ∅) as [H _].
  destruct (H eq_refl) as (after & _ & _ & E & _). exists after. exact E.
Defined.

Lemma spike_transfer_witness :
  ∃ w sent reply, send_stream true 8 = Ret (Some (w, sent)) ∧
    spike_serve_stream false (wr_bytes w) = Some (Ok 8388608, reply) ∧ send_verdict sent (wr_bytes reply) = Ok tt.
Proof.
  destruct (spike_transfer true 8) as (_ & _ & w & sent & reply & H1 & _ & H2 & _ & H3); [lia|].
  exists w, sent, reply. exact (conj H1 (conj H2 H3)).
Defined.
