(* ===== verification/Connections.v ===== *)
(** * Connections: two nodes meeting ([link-core/src/tls.rs],
      [link-endpoint/src/endpoint.rs])

    The TLS and QUIC configurations a dialling and an accepting endpoint build,
    and the handshake between two of them: each side presents the raw key of its
    identity and judges the other's.  With it, the accept loop of ordinary
    sessions, the lifetime of a pairing session, and closing an endpoint.  rustls
    and quinn are parameters: signing a transcript, and taking a configuration. *)

From S2P Require Import Prelude Net Id Rendezvous Card Wire Tls Paths TagBook RelayClient Session Endpoint.

Open Scope Z_scope.

Definition STREAM_RECEIVE_WINDOW : Z := Z.shiftl 1 20.
Definition CONNECTION_RECEIVE_WINDOW : Z := Z.shiftl 4 20.
Definition PAIRED_ROUTE_EXPORT_LABEL : list byte := lit "EXPORTER-FSL-paired-route-v1".

(** rustls's signer: whether it takes a PKCS#8 key, and what it signs with it; and
    quinn's check of a configuration. *)
Class TlsSigner : Type := {
  any_supported_type : list byte → bool;
  raw_sign : list byte → list byte → Dss;
  quic_takes : bool;
}.

(** An Ed25519 key in PKCS#8 is supported, and signs under that scheme what
    verifies under its public key; quinn takes a TLS 1.3 configuration. *)
Class TlsSignerLaws `{C : Crypto} (T : RawKeyTls) (G : TlsSigner) : Prop := {
  signer_supported key : any_supported_type (TransportKey_pkcs8_der key) = true;
  signer_scheme key m : dss_scheme (raw_sign (TransportKey_pkcs8_der key) m) = ED25519;
  signer_verifies key m : TransportKey_wf key →
    raw_verify m (NodeId_spki_der (tk_node_id key)) (raw_sign (TransportKey_pkcs8_der key) m) = true;
  quic_takes_tls13 : quic_takes = true;
}.

(** [CertifiedKey]. *)
Record Identity : Type := mkIdentity { ci_chain : list (list byte); ci_key : list byte }.

(** The parts of [ClientConfig] and [ServerConfig] this code sets; TLS 1.3 is the
    one version of both. *)
Record TlsConfig : Type := mkTlsConfig { tc_identity : Identity; tc_verifier : Verifier; tc_alpn : list (list byte) }.

(** [quinn::TransportConfig], the fields set; times in nanoseconds. *)
Record TransportConfig : Type := mkTransportConfig {
  qt_initial_mtu : Z;
  qt_min_mtu : Z;
  qt_mtu_discovery : bool;
  qt_max_bidi : Z;
  qt_max_uni : Z;
  qt_stream_window : Z;
  qt_receive_window : Z;
  qt_send_window : Z;
  qt_keep_alive : Z;
  qt_idle_timeout : Z;
}.

Definition transport_config_with (max_bidi_streams idle_timeout : Z) : TransportConfig :=
  mkTransportConfig MAX_MTU MAX_MTU false max_bidi_streams 0 STREAM_RECEIVE_WINDOW CONNECTION_RECEIVE_WINDOW
    CONNECTION_RECEIVE_WINDOW (secs 3) idle_timeout.
Definition transport_config : TransportConfig := transport_config_with 16 (secs 30).
Definition pairing_transport_config : TransportConfig := transport_config_with 2 (secs 30).

Record QuicConfig : Type := mkQuicConfig { qc_tls : TlsConfig; qc_transport : TransportConfig }.

Section configs.
Context `{C : Crypto, T : RawKeyTls, G : TlsSigner}.

Definition node_identity (key : TransportKey) : option Identity :=
  let pkcs8 := TransportKey_pkcs8_der key in
  if any_supported_type pkcs8 then Some (mkIdentity [NodeId_spki_der (tk_node_id key)] pkcs8) else None.

Definition tls_client_config (identity : Identity) (expected_server : NodeId) (alpn : list byte) : TlsConfig :=
  mkTlsConfig identity (PinnedServer expected_server) [alpn].

Definition tls_server_config (identity : Identity) (verifier : Verifier) (alpn : list byte) : TlsConfig :=
  mkTlsConfig identity verifier [alpn].

(** [Endpoint::client_config] and [server_config]. *)
Definition client_config (identity : Identity) (expected_server : NodeId) (alpn : list byte) (pairing : bool) :
    result FailReason QuicConfig :=
  let crypto := tls_client_config identity expected_server alpn in
  if negb quic_takes then Err FrIdentity
  else Ok (mkQuicConfig crypto (if pairing then pairing_transport_config else transport_config)).

Definition server_config (identity : Identity) (expected_client : option NodeId) : result FailReason QuicConfig :=
  let verifier := match expected_client with Some peer => PinnedClient peer | None => ProvisionalClient end in
  let pairing := bool_decide (expected_client = None) in
  let alpn := if pairing then PAIRING_ALPN else ALPN in
  let crypto := tls_server_config identity verifier alpn in
  if negb quic_takes then Err FrIdentity
  else Ok (mkQuicConfig crypto (if pairing then pairing_transport_config else transport_config)).

(** The default server configuration, bound before any peer is known. *)
Definition default_server_config (identity : Identity) : TlsConfig := tls_server_config identity RefusingClient ALPN.

(** What a side of a handshake presents for a transcript. *)
Definition presents (c : TlsConfig) (transcript : list byte) : Presented :=
  mkPresented (ci_chain (tc_identity c)) transcript (raw_sign (ci_key (tc_identity c)) transcript).

(** A handshake between two configurations: a protocol in common, and each side's
    verifier finishes on what the other presents. *)
Definition meet (client server : TlsConfig) (to_client to_server : list byte) : bool :=
  existsb (λ p, bool_decide (p ∈ tc_alpn server)) (tc_alpn client) &&
  finishes (tc_verifier client) (presents server to_client) &&
  finishes (tc_verifier server) (presents client to_server).

End configs.

(** ** Pairing sessions and the accept loop *)

(** [paired_route_secret]: [export] is the TLS exporter of the connection. *)
Definition paired_route_secret (export : list byte → list byte → option (array 32)) : result PairingError (array 32) :=
  ok_or RouteExport (export PAIRED_ROUTE_EXPORT_LABEL []).

(** The two tasks of [PairingSession::new]: when the connection is closed for its
    lifetime at the latest, and when the live route goes once it was closed at
    [closed], by this side ([local]) or not. *)
Definition pairing_deadline (opened : Z) : Z := opened + MAX_PAIRING_SESSION_LIFETIME.
Definition live_route_removed (closed : Z) (locally : bool) : Z :=
  if locally then closed + MAX_PAIRING_SESSION_LIFETIME else closed.

(** [accept]: the results of [accept_any] one after the other; the pairing
    sessions closed on the way, and the answer, [None] while it still waits. *)
Fixpoint accept (arrivals : list (result FailReason (Kind * Z))) : list Z * option (result FailReason Z) :=
  match arrivals with
  | [] => ([], None)
  | Err reason :: _ => ([], Some (Err reason))
  | Ok (Pinned, session) :: _ => ([], Some (Ok session))
  | Ok (Provisional _ _ _, session) :: rest => let '(closed, r) := accept rest in (session :: closed, r)
  end.

(** [close], which its caller may drop at either wait: what was done. *)
Inductive CloseStep : Type := QuicClosed | QuicIdle | RelaysClosed | RelaysGone.
Inductive CloseDropped : Type := AtIdle | AtRelays | NotDropped.

Definition endpoint_close (dropped : CloseDropped) : list CloseStep :=
  match dropped with
  | AtIdle => [QuicClosed; RelaysClosed]
  | AtRelays => [QuicClosed; QuicIdle; RelaysClosed]
  | NotDropped => [QuicClosed; QuicIdle; RelaysClosed; RelaysGone]
  end.

(** ** Facts *)

(** Ordinary sessions are the ones returned, and every pairing session before one
    is closed. *)
Lemma accept_ordinary arrivals closed r :
  accept arrivals = (closed, r) →
  (∀ s, r = Some (Ok s) → Ok (Pinned, s) ∈ arrivals) ∧
  ∀ s, s ∈ closed → ∃ route generation used, Ok (Provisional route generation used, s) ∈ arrivals.
Proof.
  revert closed r. induction arrivals as [|[[kind s]|reason] arrivals IH]; intros closed r; cbn [accept].
  - intros [= <- <-]. split; [done|]. intros s Hs. by apply elem_of_nil in Hs.
  - destruct kind as [|route generation used].
    + intros [= <- <-]. split; [intros s' [= <-]; by left|]. intros s' Hs. by apply elem_of_nil in Hs.
    + destruct (accept arrivals) as [closed' r'] eqn:E. intros [= <- <-]. destruct (IH _ _ eq_refl) as [H1 H2]. split.
      * intros s' Hs. right. auto.
      * intros s' [->|Hs]%elem_of_cons; [do 3 eexists; by left|].
        destruct (H2 _ Hs) as (? & ? & ? & ?). do 3 eexists. by right.
  - intros [= <- <-]. split; [done|]. intros s Hs. by apply elem_of_nil in Hs.
Qed.

(** The relays are told to close however the close ends. *)
Lemma close_stops_relays dropped : RelaysClosed ∈ endpoint_close dropped.
Proof. destruct dropped; cbn; set_solver. Qed.

(** A pairing connection is gone a minute after it opened, and its route a minute
    later at most. *)
Lemma pairing_route_bound opened closed locally :
  closed <= pairing_deadline opened → live_route_removed closed locally <= opened + secs 120.
Proof. unfold live_route_removed, pairing_deadline, MAX_PAIRING_SESSION_LIFETIME, secs. destruct locally; lia. Qed.

Section meeting.
Context `{C : Crypto, T : RawKeyTls, G : TlsSigner, L : !TlsSignerLaws T G}.

Lemma node_identity_ok key : node_identity key = Some (mkIdentity [NodeId_spki_der (tk_node_id key)] (TransportKey_pkcs8_der key)).
Proof. unfold node_identity. by rewrite signer_supported. Qed.

(** What an honest side presents is its own key, signed with it. *)
Lemma presents_authentic key v alpn m n :
  TransportKey_wf key →
  authenticated n (presents (mkTlsConfig (mkIdentity [NodeId_spki_der (tk_node_id key)] (TransportKey_pkcs8_der key)) v alpn) m)
  ↔ n = tk_node_id key.
Proof.
  intros Hk. unfold authenticated, presents. cbn [ps_chain ps_message ps_dss tc_identity ci_chain ci_key head]. split.
  - intros (E%(inj Some) & _ & _). by apply app_inv_head, (inj as_bytes) in E.
  - intros ->. split; [done|]. split; [apply signer_scheme|by apply signer_verifies].
Qed.

Lemma finishes_honest key v w alpn m :
  TransportKey_wf key →
  finishes v (presents (mkTlsConfig (mkIdentity [NodeId_spki_der (tk_node_id key)] (TransportKey_pkcs8_der key)) w alpn) m) = true ↔
  verifier_allows v (tk_node_id key).
Proof.
  intros Hk. rewrite finishes_spec. split.
  - intros (n & Hn & Ha). apply presents_authentic in Ha as ->; done.
  - intros Hv. exists (tk_node_id key). split; [done|]. by apply presents_authentic.
Qed.

Lemma alpns_differ : ALPN ≠ PAIRING_ALPN.
Proof. done. Qed.

(** Who meets whom.  Between two endpoints with their own keys, the
    configurations are always built, and the handshake of a dial and an accept
    finishes exactly when the dial names the accepting node, the accepting side
    expects the dialling node, and both are ordinary; or when the dial names the
    accepting node and both are pairing.  Against the default configuration no
    handshake finishes. *)
Theorem honest_nodes_meet ka kb expected_server (pairing : bool) (expected_client : option NodeId) to_client to_server
  (Ha : TransportKey_wf ka) (Hb : TransportKey_wf kb) :
  ∃ ia ib client server,
    node_identity ka = Some ia ∧ node_identity kb = Some ib ∧
    client_config ia expected_server (if pairing then PAIRING_ALPN else ALPN) pairing = Ok client ∧
    server_config ib expected_client = Ok server ∧
    qt_max_bidi (qc_transport server) = match expected_client with Some _ => 16 | None => 2 end ∧
    (meet (qc_tls client) (qc_tls server) to_client to_server = true ↔
       expected_server = tk_node_id kb ∧
       match expected_client with Some a => pairing = false ∧ a = tk_node_id ka | None => pairing = true end) ∧
    meet (qc_tls client) (default_server_config ib) to_client to_server = false.
Proof.
  do 4 eexists. split; [apply node_identity_ok|]. split; [apply node_identity_ok|].
  unfold client_config, server_config. rewrite quic_takes_tls13. cbn [negb]. split; [done|]. split; [done|].
  cbn [qc_tls qc_transport]. split; [by destruct expected_client|]. unfold tls_client_config, tls_server_config, default_server_config. split.
  - unfold meet. cbn [tc_alpn tc_verifier]. rewrite !andb_true_iff, !finishes_honest by done.
    cbn [existsb verifier_allows]. rewrite orb_false_r, bool_decide_eq_true, list_elem_of_singleton.
    generalize alpns_differ. generalize ALPN PAIRING_ALPN. intros x y Hd. destruct expected_client as [a|]; cbn [verifier_allows];
      [rewrite bool_decide_false by done|rewrite bool_decide_true by done]; destruct pairing; naive_solver.
  - unfold meet, tls_server_config. cbn [tc_verifier]. apply not_true_iff_false.
    rewrite !andb_true_iff, !finishes_honest by done. by intros [_ []].
Qed.

End meeting.

(** ** A dial and an accept, end to end *)

Section dial_accept.
Context `{C : Crypto, R : RdvCrypto, T : RawKeyTls, G : TlsSigner, L : !TlsSignerLaws T G}.

(** An established session of either side, as the endpoint keeps it. *)
Definition in_session (e : Endpoint) (session : Z) (peer : NodeId) : Prop :=
  ∃ l, ep_live e !! session = Some l ∧ lv_kind l = Pinned ∧ s_peer (lv_sess l) = peer ∧ authenticated peer (lv_conn l).

Lemma establish_in_session e i peer session allow conn material :
  authenticated peer conn → in_session (establish e i peer session allow Pinned conn material) session peer.
Proof.
  intros Ha. unfold establish. destruct (session_start _ _ _ _ _ _ _ _) as [p s] eqn:E. cbn.
  exists (mkLive conn Pinned s). cbn. rewrite lookup_insert_eq. split_and!; [done..| |done].
  pose proof (session_start_sess (ep_paths e) (hi_view i) (hi_now i) (hi_now i) peer allow session material) as Hs.
  rewrite E in Hs. cbn in Hs. by apply Hs.
Qed.

(** The three steps of a dial that meets its peer. *)
Lemma dial_establishes a c driver url conn secret material i :
  card_node_id c ≠ ep_node_id a → (∀ book, ep_book a = Some book → contains book (card_node_id c) = true) →
  hi_config i = true → hi_connect i = true → authenticated (card_node_id c) conn →
  ∃ a1 a2 a3 id session,
    connect_begin a c driver = (a1, Ok id) ∧ connect_ready a1 id (Ok url) = (a2, None) ∧
    connect_handshake a2 id i (HsDone conn secret material) = (a3, Some (Ok session)) ∧
    in_session a3 session (card_node_id c).
Proof.
  intros Hne Hbook Hc Hn Ha. set (peer := card_node_id c) in *.
  assert (Hfin : finishes (PinnedServer peer) conn = true) by (apply finishes_spec; by exists peer).
  unfold connect_begin. fold peer. rewrite bool_decide_false by done.
  assert ((match ep_book a with Some book => negb (contains book peer) | None => false end) = false) as ->
    by (destruct (ep_book a) as [book|]; [by rewrite (Hbook book)|done]).
  destruct (begin_session (register_peer (ep_paths a) peer) peer) as [p session]. cbn.
  do 4 eexists. exists session. split; [done|]. unfold connect_ready. cbn. rewrite lookup_insert_eq.
  split; [done|]. unfold connect_handshake. cbn. rewrite lookup_insert_eq, Hc, Hn, Hfin. cbn.
  split; [done|]. by apply establish_in_session.
Qed.

(** The two steps of an accept that meets its dialler. *)
Lemma accept_establishes b peer remote now conn secret material i :
  peer_for_synthetic (ep_paths b) remote = Some peer →
  (∀ book, ep_book b = Some book → snd (pairing_active book peer now) = false) → authenticated peer conn →
  ∃ b1 b2 id session,
    accept_incoming b remote now true true = (b1, None) ∧
    accept_handshake b1 id i (HsDone conn secret material) = (b2, Some (Ok session)) ∧
    in_session b2 session peer.
Proof.
  intros Hp Hb Ha. unfold accept_incoming. rewrite Hp.
  assert (Hbp : ∃ book, (match ep_book b with
    | Some book => let '(b, active) := pairing_active book peer now in (Some b, active) | None => (None, false) end) = (book, false)).
  { destruct (ep_book b) as [book|]; [|by eexists]. specialize (Hb book eq_refl).
    destruct (pairing_active book peer now) as [b' active]. cbn in Hb. rewrite Hb. by eexists. }
  destruct Hbp as [book ->]. cbn -[begin_session].
  destruct (begin_session (ep_paths b) peer) as [p session]. cbn. do 2 eexists. exists (ep_next_flight b), session.
  split; [done|]. unfold accept_handshake. cbn -[finishes]. rewrite lookup_insert_eq. cbn [accept_verifier].
  assert (finishes (PinnedClient peer) conn = true) as -> by (apply finishes_spec; by exists peer).
  cbn [negb]. rewrite (presented_authenticated _ _ Ha), bool_decide_true by done. cbn [negb].
  split; [done|]. by apply establish_in_session.
Qed.

(** C9: two honest nodes connect, in identity mode or in tag mode.  When the dialling
    endpoint may dial the card's node (its book, if it has one, holds that node), the
    accepting one knows the dialler's address and has no pairing admission open under
    the dialler's id at that moment (which would make it expect a pairing handshake),
    each holds its own key, and nothing goes wrong at the level of the configurations
    and the connect call, the configurations both build meet, and both endpoints end up
    with an ordinary session whose peer is the other node, authenticated by its key. *)
Theorem honest_nodes_connect a b c driver url remote now to_client to_server i j sa ma sb mb ia ib client server
  (Hka : TransportKey_wf (ec_key (ep_config a))) (Hkb : TransportKey_wf (ec_key (ep_config b)))
  (Hc : card_node_id c = ep_node_id b) (Hne : ep_node_id b ≠ ep_node_id a)
  (Hbook : ∀ book, ep_book a = Some book → contains book (ep_node_id b) = true)
  (Hp : peer_for_synthetic (ep_paths b) remote = Some (ep_node_id a))
  (Hbb : ∀ book, ep_book b = Some book → snd (pairing_active book (ep_node_id a) now) = false)
  (Hia : node_identity (ec_key (ep_config a)) = Some ia) (Hib : node_identity (ec_key (ep_config b)) = Some ib)
  (Hcl : client_config ia (card_node_id c) ALPN false = Ok client)
  (Hsv : server_config ib (Some (ep_node_id a)) = Ok server)
  (Hi : hi_config i = true ∧ hi_connect i = true) :
  meet (qc_tls client) (qc_tls server) to_client to_server = true ∧
  (∃ a1 a2 a3 id s,
     connect_begin a c driver = (a1, Ok id) ∧ connect_ready a1 id (Ok url) = (a2, None) ∧
     connect_handshake a2 id i (HsDone (presents (qc_tls server) to_client) sa ma) = (a3, Some (Ok s)) ∧
     in_session a3 s (ep_node_id b)) ∧
  ∃ b1 b2 id s,
    accept_incoming b remote now true true = (b1, None) ∧
    accept_handshake b1 id j (HsDone (presents (qc_tls client) to_server) sb mb) = (b2, Some (Ok s)) ∧
    in_session b2 s (ep_node_id a).
Proof.
  rewrite node_identity_ok in Hia, Hib. injection Hia as <-. injection Hib as <-.
  unfold client_config, server_config in *. rewrite quic_takes_tls13 in *. cbn [negb] in *.
  injection Hcl as <-. injection Hsv as <-. cbn [qc_tls]. unfold tls_client_config, tls_server_config. split; [|split].
  - unfold meet. cbn [tc_alpn tc_verifier]. rewrite !andb_true_iff, !finishes_honest by done.
    cbn [verifier_allows]. by rewrite Hc.
  - rewrite <- Hc in *. apply dial_establishes; try done; [apply Hi..|]. rewrite Hc. by apply presents_authentic.
  - apply accept_establishes; [done..|]. by apply presents_authentic.
Qed.

End dial_accept.

(** ** Two concrete nodes *)

#[local] Existing Instances toy_crypto toy_rdv toy_crypto_laws.

(** A signer that binds the transcript to the key. *)
Definition bound_tls : RawKeyTls := {| raw_verify m spki dss := bool_decide (dss_sig dss = drop 12 spki ++ m) |}.
Definition bound_signer : TlsSigner := {|
  any_supported_type _ := true;
  raw_sign pkcs8 m := mkDss ED25519 (drop 16 pkcs8 ++ m);
  quic_takes := true;
|}.

#[local] Existing Instances bound_tls bound_signer.

Lemma bound_signer_laws : TlsSignerLaws bound_tls bound_signer.
Proof.
  split; [done..| |done]. intros key m Hk. cbn [raw_verify bound_tls raw_sign bound_signer dss_sig]. apply bool_decide_true.
  unfold NodeId_spki_der, TransportKey_pkcs8_der. rewrite !drop_app_length'; [|done..]. by rewrite Hk.
Qed.

#[local] Existing Instance bound_signer_laws.

(** The accepting node, in tag mode, paired with the dialler. *)
Definition node_b : Endpoint :=
  mkEndpoint (mkEndpointConfig demo_peer_key None [] true (mkSocketAddr (V4 (pad_array 4 [])) 0) None 0 0 (secs 30) None None)
    (register_peer (Paths_assemble demo_peer_key (Some demo_udp) None) (tk_node_id demo_key)) 7
    (Some (TagBook_with_paired ∅ {[tk_node_id demo_key := pad_array 32 (lit "paired")]})) 1 ∅ 0 ∅.

Lemma honest_nodes_meet_witness :
  ∃ ia client server, node_identity demo_key = Some ia ∧
    meet (qc_tls client) (qc_tls server) (lit "server transcript") (lit "client transcript") = true.
Proof.
  destruct (honest_nodes_meet demo_key demo_peer_key demo_peer false (Some (tk_node_id demo_key))
    (lit "server transcript") (lit "client transcript")) as (ia & ib & client & server & Hia & _ & _ & _ & _ & Hm & _);
    [reflexivity|reflexivity|].
  exists ia, client, server. split; [exact Hia|]. apply Hm. split; [reflexivity|]. split; reflexivity.
Defined.

Lemma honest_nodes_connect_witness :
  ∃ a3 s, in_session a3 s demo_peer.
Proof.
  destruct (node_identity demo_key) as [ia|] eqn:Eia; [|discriminate Eia].
  destruct (node_identity demo_peer_key) as [ib|] eqn:Eib; [|discriminate Eib].
  destruct (client_config ia demo_peer ALPN false) as [client|] eqn:Ecl; [|discriminate Ecl].
  destruct (server_config ib (Some (tk_node_id demo_key))) as [server|] eqn:Esv; [|discriminate Esv].
  destruct (honest_nodes_connect demo_endpoint node_b demo_card 0 (lit "wss://relay.example") (NodeId_synthetic_addr (tk_node_id demo_key)) 9
    (lit "to client") (lit "to server") (demo_in true) (demo_in true) None None None None ia ib client server)
    as (_ & (a1 & a2 & a3 & id & s & _ & _ & _ & H) & _).
  - reflexivity.
  - reflexivity.
  - reflexivity.
  - vm_compute. discriminate.
  - intros book Hb. discriminate Hb.
  - vm_compute. reflexivity.
  - intros book Hb. injection Hb as <-. vm_compute. reflexivity.
  - exact Eia.
  - exact Eib.
  - exact Ecl.
  - exact Esv.
  - split; reflexivity.
  - exists a3, s. exact H.
Defined.
