(* ===== verification/Streams.v ===== *)
(** * Streams: the streams of a session ([link-endpoint/src/session.rs],
      [link-endpoint/src/endpoint.rs])

    A session carries streams in both directions; this is one of them.  One end
    opens: the control stream before the session reaches the application, then
    what the application opens.  The other end's [accept_loop] routes what arrives:
    the first to its control reader, the rest through a bounded queue to
    [accept_stream].  QUIC hands streams over in the order of their identifiers,
    once any of their data or that of a later stream has arrived, and lends the
    opener a bounded number of them. *)

From S2P Require Import Prelude Net Id Rendezvous Card Wire Paths TagBook RelayClient Session Endpoint.

Open Scope Z_scope.

Definition STREAM_QUEUE : nat := 16.

(** Who opened a stream: [Session::start], or a call of [open_stream]. *)
Inductive Opened : Type := OControl | OApp (token : Z).

(** The direction of the connection: the streams opened in the order of their
    identifiers, how many of them the far end knows of, how many it accepted, how
    many are over, and whether the connection is. *)
Record Direction : Type := mkDirection {
  di_opened : list Opened;
  di_seen : nat;
  di_taken : nat;
  di_done : nat;
  di_lost : bool;
}.

(** The far end: the locals of [accept_loop] ([ac_hold] is the stream its
    [tx.send] waits with), the queue, whether the [Session] still holds its
    receiver, and what the control reader and the application were given. *)
Record Acceptor : Type := mkAcceptor {
  ac_control_seen : bool;
  ac_controls : list Opened;
  ac_queue : list Opened;
  ac_hold : option Opened;
  ac_running : bool;
  ac_held : bool;
  ac_given : list Opened;
}.

Record Streams : Type := mkStreams { sm_max : nat; sm_dir : Direction; sm_acc : Acceptor }.

Definition di_open (d : Direction) (o : Opened) : Direction :=
  mkDirection (di_opened d ++ [o]) (di_seen d) (di_taken d) (di_done d) (di_lost d).

(** [open_bi]: fails on a lost connection, waits for a stream to be over while the
    transport's [max_bidi] are open. *)
Definition open_bi (max : nat) (d : Direction) (o : Opened) : option (Direction * result unit unit) :=
  if di_lost d then Some (d, Err tt)
  else if (length (di_opened d) - di_done d <? max)%nat then Some (di_open d o, Ok tt) else None.

(** [Session::start]: the control stream is opened before the tasks are spawned. *)
Definition session_streams (max : nat) : Streams :=
  let d := mkDirection [] 0 0 0 false in
  let d := match open_bi max d OControl with Some (d, _) => d | None => d end in
  mkStreams max d (mkAcceptor false [] [] None true true []).

Definition sm_set (s : Streams) (d : Direction) (a : Acceptor) : Streams := mkStreams (sm_max s) d a.

(** [tx.send(stream)]: an error once the receiver is gone, else it waits for room. *)
Definition ac_offer (a : Acceptor) (o : Opened) : Acceptor :=
  if negb (ac_held a) then mkAcceptor (ac_control_seen a) (ac_controls a) (ac_queue a) None false (ac_held a) (ac_given a)
  else if (length (ac_queue a) <? STREAM_QUEUE)%nat
  then mkAcceptor (ac_control_seen a) (ac_controls a) (ac_queue a ++ [o]) None (ac_running a) (ac_held a) (ac_given a)
  else mkAcceptor (ac_control_seen a) (ac_controls a) (ac_queue a) (Some o) (ac_running a) (ac_held a) (ac_given a).

(** One turn of [accept_loop] with what [accept_bi] gave. *)
Definition accept_turn (a : Acceptor) (accepted : result unit Opened) : Acceptor :=
  match accepted with
  | Ok o =>
    if negb (ac_control_seen a)
    then mkAcceptor true (ac_controls a ++ [o]) (ac_queue a) (ac_hold a) (ac_running a) (ac_held a) (ac_given a)
    else ac_offer a o
  | Err _ => mkAcceptor (ac_control_seen a) (ac_controls a) (ac_queue a) (ac_hold a) false (ac_held a) (ac_given a)
  end.

(** [accept_bi]: the next stream there is, before the error of a lost connection. *)
Definition accept_bi (d : Direction) : option (Direction * result unit Opened) :=
  if (di_taken d <? di_seen d)%nat then
    match di_opened d !! di_taken d with
    | Some o => Some (mkDirection (di_opened d) (di_seen d) (S (di_taken d)) (di_done d) (di_lost d), Ok o)
    | None => None
    end
  else if di_lost d then Some (d, Err tt) else None.

(** [open_stream]. *)
Definition open_stream (s : Streams) (token : Z) : option (Streams * result unit unit) :=
  '(d, r) ← open_bi (sm_max s) (sm_dir s) (OApp token); Some (sm_set s d (sm_acc s), r).

(** [accept_stream]: [None] while it waits, an error once the loop is over and the
    queue empty. *)
Definition accept_stream (s : Streams) : option (Streams * result unit Opened) :=
  let a := sm_acc s in
  match ac_queue a with
  | o :: q =>
    Some (sm_set s (sm_dir s) (mkAcceptor (ac_control_seen a) (ac_controls a) q (ac_hold a) (ac_running a) (ac_held a) (ac_given a ++ [o])), Ok o)
  | [] => if ac_running a then None else Some (s, Err tt)
  end.

(** What happens to a direction.  [SArrives i] is data of the stream of index [i],
    [SAccepts] a turn of the loop, [SRoom] its [send] woken by room in the queue. *)
Inductive SEvent : Type :=
  | SOpens (token : Z) | SArrives (i : nat) | SOver | SLost
  | SAccepts | SRoom | STakes | SDropped.

Definition sm_step (s : Streams) (ev : SEvent) : Streams :=
  let d := sm_dir s in
  let a := sm_acc s in
  match ev with
  | SOpens token => match open_stream s token with Some (s, _) => s | None => s end
  | SArrives i =>
    if (i <? length (di_opened d))%nat && negb (di_lost d)
    then sm_set s (mkDirection (di_opened d) (Nat.max (di_seen d) (S i)) (di_taken d) (di_done d) (di_lost d)) a else s
  | SOver =>
    if (di_done d <? length (di_opened d))%nat
    then sm_set s (mkDirection (di_opened d) (di_seen d) (di_taken d) (S (di_done d)) (di_lost d)) a else s
  | SLost => sm_set s (mkDirection (di_opened d) (di_seen d) (di_taken d) (di_done d) true) a
  | SAccepts =>
    if ac_running a && bool_decide (ac_hold a = None)
    then match accept_bi d with Some (d, r) => sm_set s d (accept_turn a r) | None => s end else s
  | SRoom => match ac_hold a with Some o => sm_set s d (ac_offer a o) | None => s end
  | STakes => if ac_held a then match accept_stream s with Some (s, _) => s | None => s end else s
  | SDropped => sm_set s d (mkAcceptor (ac_control_seen a) (ac_controls a) (ac_queue a) (ac_hold a) (ac_running a) false (ac_given a))
  end.

Definition sm_run : Streams → list SEvent → Streams := foldl sm_step.

(** ** The one stream of a pairing session *)

(** [application_stream_used.swap(true)]. *)
Definition take_application_stream (used : bool) : bool * result unit unit :=
  (true, if used then Err tt else Ok tt).

Fixpoint pairing_streams (used : bool) (calls : nat) : list (result unit unit) :=
  match calls with
  | O => []
  | S n => let '(used, r) := take_application_stream used in r :: pairing_streams used n
  end.

(** ** The control writer *)

(** [control_initiator]: the candidates it sends first, then the requests it takes
    with the candidates of that moment, until the requests or the connection end or
    a write fails; [writes] says which writes succeed.  What is on the stream. *)
Fixpoint control_loop (requests : list Control) (writes : list bool) : list byte :=
  match requests, writes with
  | m :: requests, true :: writes => control_wire m ++ control_loop requests writes
  | _, _ => []
  end.
Definition control_initiator (allow_direct : bool) (first : list SocketAddr) (requests : list Control) (writes : list bool) : list byte :=
  control_loop (Candidates (if allow_direct then first else []) :: requests) writes.

(** ** The order of streams *)

(** The loop took every stream in turn: the first for control, the others on their
    way to the application or with it. *)
Definition on_the_way (a : Acceptor) : list Opened := ac_given a ++ ac_queue a ++ option_list (ac_hold a).

Record sm_ok (s : Streams) : Prop := {
  so_opened : ∃ tokens, di_opened (sm_dir s) = OControl :: (OApp <$> tokens);
  so_seen : (di_seen (sm_dir s) ≤ length (di_opened (sm_dir s)))%nat;
  so_taken : (di_taken (sm_dir s) ≤ di_seen (sm_dir s))%nat;
  so_done : (di_done (sm_dir s) ≤ length (di_opened (sm_dir s)))%nat;
  so_credit : (length (di_opened (sm_dir s)) - di_done (sm_dir s) ≤ sm_max s)%nat;
  so_control : ac_controls (sm_acc s) = take (di_taken (sm_dir s)) [OControl];
  so_first : ac_control_seen (sm_acc s) = bool_decide (0 < di_taken (sm_dir s))%nat;
  so_app : ∃ dropped, on_the_way (sm_acc s) ++ dropped = take (di_taken (sm_dir s) - 1) (tail (di_opened (sm_dir s))) ∧
    (dropped ≠ [] → ac_held (sm_acc s) = false ∧ ac_running (sm_acc s) = false);
  so_queue : (length (ac_queue (sm_acc s)) ≤ STREAM_QUEUE)%nat;
  so_wait : ac_running (sm_acc s) = false → ac_held (sm_acc s) = true → ac_hold (sm_acc s) = None ∧
    di_lost (sm_dir s) = true ∧ di_taken (sm_dir s) = di_seen (sm_dir s);
}.

Ltac sm_cbn :=
  cbn [sm_max sm_dir sm_acc sm_set di_opened di_seen di_taken di_done di_lost di_open ac_control_seen ac_controls ac_queue ac_hold
       ac_running ac_held ac_given fst snd] in *.

Lemma session_streams_ok max : (0 < max)%nat → sm_ok (session_streams max).
Proof.
  intros Hm. unfold session_streams, open_bi. cbn [di_lost di_opened length di_done]. rewrite (proj2 (Nat.ltb_lt _ _)) by lia.
  split; sm_cbn; try (cbn; lia); try done; [by exists [] | by exists []].
Qed.

(** The next stream of an open direction, in terms of the application's. *)
Lemma next_app l n (o : Opened) :
  l !! n = Some o → (0 < n)%nat → take (S n - 1) (tail l) = take (n - 1) (tail l) ++ [o].
Proof.
  intros H Hn. destruct l as [|x l]; [done|]. destruct n as [|n]; [lia|]. cbn in *. rewrite Nat.sub_0_r. by apply take_S_r.
Qed.

Lemma offer_ok s o d' :
  sm_ok s → ac_hold (sm_acc s) = None → ac_running (sm_acc s) = true → ac_control_seen (sm_acc s) = true →
  accept_bi (sm_dir s) = Some (d', Ok o) → sm_ok (sm_set s d' (ac_offer (sm_acc s) o)).
Proof.
  intros Hok Hh Hr Hc Ha. unfold accept_bi in Ha. destruct (_ <? _)%nat eqn:Hlt in Ha; [|by destruct (di_lost _)].
  apply Nat.ltb_lt in Hlt. destruct (di_opened _ !! _) as [o'|] eqn:E; [|done]. injection Ha as <- ->.
  destruct Hok as [[tokens Ho] H2 H3 H4 H5 H6 H7 [dropped [H8 H9]] H10 H11].
  assert (Hpos : (0 < di_taken (sm_dir s))%nat) by (rewrite Hc in H7; symmetry in H7; by apply bool_decide_eq_true in H7).
  assert (dropped = []) as -> by (destruct dropped; [done|]; destruct H9; congruence).
  unfold on_the_way in *. rewrite Hh in H8. cbn in H8. rewrite !app_nil_r in H8.
  pose proof (next_app _ _ _ E Hpos) as Hn.
  assert (Hcl : ac_controls (sm_acc s) = take (S (di_taken (sm_dir s))) [OControl])
    by (rewrite H6; destruct (di_taken (sm_dir s)) as [|[|n]]; [lia|done|done]).
  unfold ac_offer. destruct (ac_held (sm_acc s)) eqn:Hheld; cbn [negb].
  2:{ split; sm_cbn; try lia; try done; try (by exists tokens); try (by rewrite Hc, bool_decide_true by lia).
      exists [o]. rewrite Hn, <- H8. unfold on_the_way. sm_cbn. cbn [option_list]. by rewrite app_nil_r. }
  destruct (Nat.ltb_spec (length (ac_queue (sm_acc s))) STREAM_QUEUE) as [Hq|Hq].
  all: split; sm_cbn; try lia; try done; try (by exists tokens); try (by rewrite Hc, bool_decide_true by lia);
    try (rewrite length_app; cbn; lia); try (intros; congruence).
  all: exists []; rewrite Hn, <- H8; unfold on_the_way; sm_cbn; cbn [option_list]; by rewrite ?app_nil_r, ?(assoc_L (++)).
Qed.

Lemma room_ok s o : sm_ok s → ac_hold (sm_acc s) = Some o → sm_ok (sm_set s (sm_dir s) (ac_offer (sm_acc s) o)).
Proof.
  intros [[tokens Ho] H2 H3 H4 H5 H6 H7 [dropped [H8 H9]] H10 H11] Hh. unfold on_the_way in *. rewrite Hh in H8. cbn in H8.
  unfold ac_offer. destruct (ac_held (sm_acc s)) eqn:Hheld; cbn [negb].
  2:{ split; sm_cbn; try done; [by exists tokens|]. exists (o :: dropped). unfold on_the_way. cbn -[take tail].
      rewrite <- H8, app_nil_r, <- !(assoc_L (++)). done. }
  assert (dropped = []) as -> by (destruct dropped; [done|]; destruct H9; congruence).
  assert (Hr : ac_running (sm_acc s) = true) by (destruct (ac_running (sm_acc s)); [done|]; destruct H11; congruence).
  destruct (Nat.ltb_spec (length (ac_queue (sm_acc s))) STREAM_QUEUE) as [Hq|Hq].
  all: split; sm_cbn; try done; try (by exists tokens); try (rewrite length_app; cbn; lia); try (intros; congruence).
  all: exists []; unfold on_the_way; cbn -[take tail]; rewrite <- H8, ?app_nil_r; done.
Qed.

Lemma sm_step_ok s ev : sm_ok s → sm_ok (sm_step s ev).
Proof.
  intros Hok. pose proof Hok as [[tokens Ho] H2 H3 H4 H5 H6 H7 [dropped [H8 H9]] H10 H11]. destruct ev as [token|i| | | | | |]; cbn -[accept_bi accept_stream open_stream Nat.ltb Nat.max andb].
  - unfold open_stream, open_bi. destruct (di_lost (sm_dir s)) eqn:El; [by destruct s|].
    destruct (Nat.ltb_spec (length (di_opened (sm_dir s)) - di_done (sm_dir s)) (sm_max s)) as [Hl|Hl]; [|done]. cbn.
    split; sm_cbn; rewrite ?length_app; cbn -[take tail]; try lia; try done.
    + exists (tokens ++ [token]). rewrite Ho, fmap_app. done.
    + exists dropped. split; [|done]. rewrite H8, Ho. cbn. rewrite take_app_le; [done|]. rewrite Ho in H2. cbn in H2. rewrite length_fmap in *. lia.
    + intros Hr Hh. destruct (H11 Hr Hh) as (_ & Hx & _). congruence.
  - destruct (Nat.ltb_spec i (length (di_opened (sm_dir s)))) as [Hi|Hi]; [|done]. destruct (di_lost (sm_dir s)) eqn:El; [done|].
    cbn [andb negb]. split; sm_cbn; try lia; try done; [by exists tokens | by exists dropped |]. intros Hr Hh. destruct (H11 Hr Hh) as (_ & Hl & _). congruence.
  - destruct (Nat.ltb_spec (di_done (sm_dir s)) (length (di_opened (sm_dir s)))) as [Hi|Hi]; [|done].
    split; sm_cbn; try lia; try done; try (by exists tokens); try (by exists dropped).
  - split; sm_cbn; try done; try (by exists tokens); try (by exists dropped). intros Hr Hh. by destruct (H11 Hr Hh) as (? & _ & ?).
  - destruct (ac_running (sm_acc s)) eqn:Hr; [|done]. destruct (bool_decide_reflect (ac_hold (sm_acc s) = None)) as [Hh|Hh]; [|done]. cbn [andb].
    destruct (accept_bi (sm_dir s)) as [[d' [o|[]]]|] eqn:Ea; [| |done].
    + cbn [accept_turn]. destruct (ac_control_seen (sm_acc s)) eqn:Hc; cbn [negb]; [by apply offer_ok|].
      assert (Ht : di_taken (sm_dir s) = 0%nat) by (symmetry in H7; apply bool_decide_eq_false in H7; lia).
      unfold accept_bi in Ea. destruct (_ <? _)%nat eqn:Hlt in Ea; [|by destruct (di_lost _)]. apply Nat.ltb_lt in Hlt.
      destruct (di_opened _ !! _) as [o'|] eqn:E in Ea; [|done]. injection Ea as <- ->. rewrite Ht, Ho in E. cbn in E. injection E as <-.
      unfold on_the_way in *. rewrite Ht in *.
      split; sm_cbn; try lia; try done; try (by exists tokens); try (by rewrite H6); try (intros; congruence). exists dropped. by rewrite Hr.
    + unfold accept_bi in Ea. destruct (_ <? _)%nat eqn:Hlt in Ea; [by destruct (_ !! _)|]. apply Nat.ltb_ge in Hlt.
      destruct (di_lost (sm_dir s)) eqn:El; [|done]. injection Ea as <-. cbn [accept_turn].
      split; sm_cbn; try done; [by exists tokens| |].
      * exists dropped. split; [done|]. intros Hne. apply H9 in Hne as [? ?]. done.
      * intros _ _. split; [done|]. split; [done | lia].
  - destruct (ac_hold (sm_acc s)) as [o|] eqn:Hh; [by apply room_ok | done].
  - destruct (ac_held (sm_acc s)) eqn:Hheld; [|done]. unfold accept_stream. destruct (ac_queue (sm_acc s)) as [|o q] eqn:Eq; [by destruct (ac_running _)|].
    split; sm_cbn; try done; try (by exists tokens); try (cbn in H10; lia).
    + exists dropped. split; [|by rewrite Hheld]. rewrite <- H8. unfold on_the_way. cbn. rewrite Eq. by rewrite <- !(assoc_L (++)).
    + intros Hr _. by apply H11.
  - split; sm_cbn; try done; [by exists tokens|]. exists dropped. split; [done|]. intros Hne. by apply H9 in Hne as [_ ?].
Qed.

Lemma sm_run_ok s es : sm_ok s → sm_ok (sm_run s es).
Proof. revert s. induction es as [|ev es IH]; intros s H; [done|]. cbn. by apply IH, sm_step_ok. Qed.

(** *** Nothing that arrived is withheld *)

(** What is left to do until everything seen is with the application. *)
Definition undelivered (s : Streams) : nat :=
  3 * (di_seen (sm_dir s) - di_taken (sm_dir s)) + 2 * length (option_list (ac_hold (sm_acc s))) + length (ac_queue (sm_acc s)).

Lemma streams_progress s :
  sm_ok s → ac_held (sm_acc s) = true →
  ac_given (sm_acc s) = take (di_seen (sm_dir s) - 1) (tail (di_opened (sm_dir s))) ∨
  ∃ ev, (undelivered (sm_step s ev) < undelivered s)%nat ∧ ac_held (sm_acc (sm_step s ev)) = true ∧
    di_seen (sm_dir (sm_step s ev)) = di_seen (sm_dir s) ∧ di_opened (sm_dir (sm_step s ev)) = di_opened (sm_dir s).
Proof.
  intros [_ H2 H3 _ _ _ _ [dropped [H8 H9]] _ H11] Hh. unfold undelivered.
  destruct (ac_queue (sm_acc s)) as [|o q] eqn:Eq.
  2:{ right. exists STakes. cbn -[Nat.mul]. rewrite Hh. unfold accept_stream. rewrite Eq. sm_cbn. rewrite ?Eq. split_and!; [cbn; lia | done..]. }
  destruct (ac_hold (sm_acc s)) as [o|] eqn:Eh.
  { right. exists SRoom. cbn -[Nat.mul]. rewrite Eh. unfold ac_offer. rewrite Hh, Eq. sm_cbn. split_and!; [cbn; lia | done..]. }
  destruct (decide (di_taken (sm_dir s) = di_seen (sm_dir s))) as [E|E].
  { left. rewrite <- E, <- H8. unfold on_the_way. rewrite Eq, Eh. cbn. rewrite app_nil_r.
    destruct dropped; [by rewrite app_nil_r|]. destruct H9; congruence. }
  right. exists SAccepts. destruct (ac_running (sm_acc s)) eqn:Er; [|destruct H11 as (_ & _ & ?); done].
  cbn -[Nat.mul accept_bi]. rewrite Er, Eh. cbn -[Nat.mul accept_bi]. unfold accept_bi. rewrite (proj2 (Nat.ltb_lt _ _)) by lia.
  destruct (lookup_lt_is_Some_2 (di_opened (sm_dir s)) (di_taken (sm_dir s))) as [o ->]; [lia|]. cbn [accept_turn].
  destruct (ac_control_seen (sm_acc s)); cbn [negb]; [|sm_cbn; rewrite ?Eq, ?Eh; split_and!; [cbn; lia | done..]].
  unfold ac_offer. rewrite Hh, Eq. sm_cbn. split_and!; [cbn; lia | done..].
Qed.

Lemma streams_drain n : ∀ s, (undelivered s < n)%nat → sm_ok s → ac_held (sm_acc s) = true →
  ∃ es, ac_given (sm_acc (sm_run s es)) = take (di_seen (sm_dir s) - 1) (tail (di_opened (sm_dir s))).
Proof.
  induction n as [|n IH]; intros s Hn Hok Hh; [lia|].
  destruct (streams_progress s Hok Hh) as [E|(ev & Hlt & Hh' & <- & <-)]; [by exists []|].
  destruct (IH (sm_step s ev)) as [es E]; [lia | by apply sm_step_ok | done | by exists (ev :: es)].
Qed.

(** C14: Streams arrive where they belong.  On every history of a session's direction
    the control stream is the first of all and is the one stream the far end's
    control reader ever gets; what the far application is given, and what waits for
    it, are the streams this side's application opened, in the order it opened
    them; the queue and the streams open at once stay within their bounds; and while
    the far session is held, every application stream that QUIC has announced can
    still be delivered. *)
Theorem streams_in_order max es (Hm : (0 < max)%nat) :
  let s := sm_run (session_streams max) es in
  ∃ tokens, di_opened (sm_dir s) = OControl :: (OApp <$> tokens) ∧
    ac_controls (sm_acc s) `prefix_of` [OControl] ∧
    ac_given (sm_acc s) ++ ac_queue (sm_acc s) `prefix_of` OApp <$> tokens ∧
    (length (ac_queue (sm_acc s)) ≤ STREAM_QUEUE)%nat ∧
    (length (di_opened (sm_dir s)) - di_done (sm_dir s) ≤ max)%nat ∧
    (ac_held (sm_acc s) = true →
     ∃ es', ac_given (sm_acc (sm_run s es')) = OApp <$> take (di_seen (sm_dir s) - 1) tokens).
Proof.
  intros s. pose proof (sm_run_ok _ es (session_streams_ok _ Hm) : sm_ok s) as Hok.
  pose proof Hok as [[tokens Ho] _ _ _ Hc Hk _ [dropped [Ha _]] Hq _]. exists tokens.
  assert (Hmax : sm_max s = max).
  { unfold s. assert (H : ∀ es s, sm_max (sm_run s es) = sm_max s); [|by rewrite H].
    clear. induction es as [|ev es IH]; intros s; [done|]. cbn. rewrite IH. destruct ev; cbn -[accept_bi accept_stream open_stream Nat.ltb Nat.max andb]; repeat case_match; try done.
    - unfold open_stream in *. destruct (open_bi _ _ _) as [[]|]; [|done]. cbn in *. by simplify_eq.
    - unfold accept_stream in *. repeat case_match; by simplify_eq. }
  split_and!; [done|rewrite Hk; apply prefix_take| |done|by rewrite <- Hmax|].
  - trans (take (di_taken (sm_dir s) - 1) (OApp <$> tokens)); [|apply prefix_take]. rewrite Ho in Ha. cbn [tail] in Ha. rewrite <- Ha.
    unfold on_the_way. rewrite <- !(assoc_L (++)). apply prefix_app. by apply prefix_app_r.
  - intros Hh. destruct (streams_drain _ s (Nat.lt_succ_diag_r _) Hok Hh) as [es' E]. exists es'. rewrite E, Ho. cbn [tail]. by rewrite fmap_take.
Qed.

(** A pairing session gives out one application stream, whatever is asked. *)
Lemma pairing_one_stream n : pairing_streams false (S n) = Ok tt :: replicate n (Err tt).
Proof. cbn. f_equal. induction n as [|n IH]; [done|]. cbn. by f_equal. Qed.

(** What one end's control writer has written, the other end's reader has acted on,
    message for message; with direct paths declined the first says so. *)
Lemma control_writer_read allow_direct first requests writes :
  Forall sendable (Candidates first :: requests) →
  ∃ n, control_acceptor (control_initiator allow_direct first requests writes) =
    Ret (control_received <$> take n (Candidates (if allow_direct then first else []) :: requests), true).
Proof.
  intros Hs. assert (Hs' : Forall sendable (Candidates (if allow_direct then first else []) :: requests)).
  { apply Forall_cons in Hs as [Hf Hr]. constructor; [|done]. destruct allow_direct; [done|]. split; [cbn; lia | constructor]. }
  unfold control_initiator. revert Hs'. generalize (Candidates (if allow_direct then first else []) :: requests). intros ms Hms.
  assert (H : ∃ n, control_loop ms writes = mbind control_wire (take n ms)).
  { clear Hs. revert writes. induction Hms as [|m ms Hm Hms IH]; intros writes; [by exists 0%nat; destruct writes|].
    destruct writes as [|[] writes]; [by exists 0%nat| |by exists 0%nat]. destruct (IH writes) as [n E]. exists (S n). cbn. by rewrite E. }
  destruct H as [n ->]. exists n. apply control_stream_roundtrip. by apply Forall_take.
Qed.

Lemma streams_in_order_witness :
  let s := sm_run (session_streams 16) [SOpens 7; SOpens 8; SArrives 2; SAccepts; SAccepts; STakes] in
  ac_given (sm_acc s) = [OApp 7] ∧ ∃ es', ac_given (sm_acc (sm_run s es')) = [OApp 7; OApp 8].
Proof.
  intros s. split; [vm_compute; reflexivity|].
  destruct (streams_in_order 16 [SOpens 7; SOpens 8; SArrives 2; SAccepts; SAccepts; STakes]) as (tokens & Ho & _ & _ & _ & _ & H); [lia|].
  destruct H as [es' E]; [vm_compute; reflexivity|]. exists es'. fold s in Ho, E. rewrite E.
  assert (Hs : di_opened (sm_dir s) = [OControl; OApp 7; OApp 8]) by (vm_compute; reflexivity). rewrite Hs in Ho.
  destruct tokens as [|a [|b [|]]]; cbn in Ho; try discriminate Ho. injection Ho as <- <-. vm_compute. reflexivity.
Defined.
