(* ===== verification/Requests.v ===== *)
(** * Requests: one request against the clock ([link-engine/src/lib.rs])

    [request_json_reserved] from the lock to the answer as a timeline: the wait for
    the engine lock, the first dial under [rt::timeout], the rest of the budget for
    the exchange, and the phase label of a timeout.  Also [unless_stopped], the
    driver of a file stream that keeps the reservation, and what the host is told
    of the path.  Times are in nanoseconds; what the network takes is an input. *)

From S2P Require Import Prelude Net Id Rendezvous Card Wire Tls Paths TagBook RelayClient Session Endpoint.
From S2P Require Import Blossom Http WebSocket Engine.

Open Scope Z_scope.

(** [HTTP_REQUEST_TIMEOUT]. *)
Definition HTTP_REQUEST_TIMEOUT : Z := secs 30.

(** ** The path the host sees *)

Definition octet (l : list byte) (i : nat) : Z := byte_to_Z (l !!! i).

(** [SocketAddr]'s [Display]. *)
Definition SocketAddr_fmt (a : SocketAddr) : list byte :=
  match sa_ip a with
  | V4 o => let l := bytes_of o in
            print_ipv4 (octet l 0) (octet l 1) (octet l 2) (octet l 3) ++ [ch ":"] ++ print_num (sa_port a)
  | V6 o => let l := bytes_of o in
            [ch "["] ++ print_ipv6 ((λ i, from_be [l !!! (2 * i)%nat; l !!! (2 * i + 1)%nat]) <$> seq 0 8) ++
            lit "]:" ++ print_num (sa_port a)
  end.

Record PathInfo : Type := mkPathInfo {
  pf_status : list byte;
  pf_relay : option (list byte);
  pf_direct : option (list byte);
  pf_cause : Cause;
}.

(** [path]. *)
Definition path_info (report : PathReport) : PathInfo :=
  mkPathInfo (outcome (rp_status report)) (rp_relay report) (SocketAddr_fmt <$> rp_direct report) (rp_cause report).

Record JsonResponse : Type := mkJsonResponse {
  js_status : Z;
  js_body : list byte;
  js_witness_refused : bool;
  js_path : PathInfo;
}.

(** ** Stopping *)

(** [unless_stopped]: at each poll, whether the engine stopped, and what the work
    says.  The stop is polled first. *)
Fixpoint unless_stopped {A} (polls : list (bool * option (result EngineError A))) : option (result EngineError A) :=
  match polls with
  | [] => None
  | (true, _) :: _ => Some (Err EngStopped)
  | (false, Some r) :: _ => Some r
  | (false, None) :: rest => unless_stopped rest
  end.

(** ** The file stream's driver *)

(** The task of [file_http_sender]: [fd_close] is whether the caller still holds
    the close half, [fd_guard] whether the task holds the reservation, [fd_settled]
    whether it said it is done. *)
Record FileDriver : Type := mkFileDriver { fd_close : bool; fd_guard : bool; fd_settled : bool }.

Definition FileDriver_spawn : FileDriver := mkFileDriver true true false.

Inductive DriverWake : Type := ConnectionEnded | CloseDropped | EngineStopped.

(** The [select!], then [drop(guard)] and [settled.send(())]. *)
Definition driver_wakes (d : FileDriver) (w : DriverWake) : option FileDriver :=
  if fd_settled d then None
  else match w with
  | CloseDropped => if fd_close d then None else Some (mkFileDriver (fd_close d) false true)
  | _ => Some (mkFileDriver (fd_close d) false true)
  end.

(** [FileConnection::finish], and the drop of a [FileConnection]: the close half
    goes. *)
Definition connection_close (d : FileDriver) : FileDriver := mkFileDriver false (fd_guard d) (fd_settled d).

(** [self.done.await]: pending until the driver settled. *)
Definition finish_poll (d : FileDriver) : option (result EngineError unit) :=
  if fd_settled d then Some (Ok tt) else None.

(** ** The timeline *)

(** What the request meets: when it called, when it got the lock, how long its
    dial would take ([None] reuses the cached session) and with what result, and
    how long the three phases of the exchange take, each with its result. *)
Record Timing (A : Type) : Type := mkTiming {
  tg_started : Z;
  tg_locked : Z;
  tg_dial : option (Z * result EngineError unit);
  tg_setup : Z * result EngineError unit;
  tg_head : Z * result EngineError unit;
  tg_body : Z * result EngineError A;
}.
Arguments mkTiming {A}.
Arguments tg_started {A}. Arguments tg_locked {A}. Arguments tg_dial {A}.
Arguments tg_setup {A}. Arguments tg_head {A}. Arguments tg_body {A}.

Definition timed_out (label : string) : EngineError := EngTransport ("request timed out " ++ label)%string.

(** [rt::timeout(timeout, connect)] from [now]: when it ends, and how. *)
Definition dial_phase (timeout now : Z) (dial : option (Z * result EngineError unit)) : Z * result EngineError unit :=
  match dial with
  | None => (now, Ok tt)
  | Some (takes, r) =>
    if takes <=? timeout then (now + takes, r) else (now + timeout, Err (timed_out "during connection"))
  end.

(** [timeout.checked_sub(elapsed).filter(nonzero)]. *)
Definition remaining_budget (timeout elapsed : Z) : option Z :=
  let budget := timeout - elapsed in if budget <=? 0 then None else Some budget.

(** The exchange from [now] with [budget] to go: the phase reached labels a timeout. *)
Definition exchange_phases {A} (budget now : Z) (t : Timing A) : Z * result EngineError A :=
  if budget <? (tg_setup t).1 then (now + budget, Err (timed_out "during HTTP stream setup"))
  else match (tg_setup t).2 with
  | Err e => (now + (tg_setup t).1, Err e)
  | Ok _ =>
    let spent := (tg_setup t).1 + (tg_head t).1 in
    if budget <? spent then (now + budget, Err (timed_out "waiting for response headers"))
    else match (tg_head t).2 with
    | Err e => (now + spent, Err e)
    | Ok _ =>
      let spent := spent + (tg_body t).1 in
      if budget <? spent then (now + budget, Err (timed_out "reading response body"))
      else (now + spent, (tg_body t).2)
    end
  end.

(** [request_json_reserved] after its checks: when it returns, and what. *)
Definition request_timeline {A} (timeout : Z) (t : Timing A) : Z * result EngineError A :=
  let '(now, dialled) := dial_phase timeout (tg_locked t) (tg_dial t) in
  match dialled with
  | Err e => (now, Err e)
  | Ok _ =>
    match remaining_budget timeout (now - tg_started t) with
    | None => (now, Err (timed_out "during connection"))
    | Some budget => exchange_phases budget now t
    end
  end.

(** ** What the deadline covers *)

Section deadline.
Context {A : Type}.

(** Inputs are durations, and the lock comes after the call. *)
Record timing_ok (t : Timing A) : Prop := {
  to_lock : tg_started t <= tg_locked t;
  to_dial : ∀ d r, tg_dial t = Some (d, r) → 0 <= d;
  to_setup : 0 <= (tg_setup t).1;
  to_head : 0 <= (tg_head t).1;
  to_body : 0 <= (tg_body t).1;
}.

Lemma dial_phase_bounds timeout now d e r :
  0 <= timeout → (∀ d' r', d = Some (d', r') → 0 <= d') → dial_phase timeout now d = (e, r) → now <= e <= now + timeout.
Proof.
  intros Ht Hd. unfold dial_phase. destruct d as [[takes res]|]; [|intros [= <- <-]; lia].
  pose proof (Hd _ _ eq_refl). destruct (Z.leb_spec takes timeout); intros [= <- <-]; lia.
Qed.

Lemma exchange_phases_bounds budget now t e r :
  timing_ok t → 0 < budget → exchange_phases budget now t = (e, r) → now <= e <= now + budget.
Proof.
  intros [] Hl. unfold exchange_phases.
  repeat (match goal with |- context [if budget <? ?x then _ else _] => destruct (Z.ltb_spec budget x) | |- context [match ?m with _ => _ end] => destruct m end);
    intros [= <- _]; lia.
Qed.

(** C37: one deadline for the whole request.  A request that answers does so
    within its timeout of the call, dial, set-up, head and body together; every
    request returns within the timeout of getting the engine lock, so within the
    timeout of the call when nobody else holds it; and a request that got the lock
    too late is refused before it uses a stream. *)
Theorem request_deadline timeout (t : Timing A) e r (Ht : 0 <= timeout) (Hok : timing_ok t)
  (Hr : request_timeline timeout t = (e, r)) :
  e <= tg_locked t + timeout ∧
  (∀ a, r = Ok a → e <= tg_started t + timeout ∧ (tg_body t).2 = Ok a) ∧
  (tg_started t + timeout <= tg_locked t → ∃ err, r = Err err ∧ (tg_dial t = None → e = tg_locked t)).
Proof.
  pose proof (to_lock _ Hok) as Hl. unfold request_timeline in Hr.
  destruct (dial_phase timeout (tg_locked t) (tg_dial t)) as [now d] eqn:Ed.
  pose proof (dial_phase_bounds _ _ _ _ _ Ht (to_dial _ Hok) Ed) as Hd.
  destruct d as [[]|err].
  2:{ injection Hr as <- <-. split; [lia|]. split; [done|]. intros _. exists err. split; [done|]. intros E. by rewrite E in Ed. }
  unfold remaining_budget in Hr. destruct (Z.leb_spec (timeout - (now - tg_started t)) 0).
  - injection Hr as <- <-. split; [lia|]. split; [done|]. intros _. eexists. split; [done|].
    intros E. rewrite E in Ed. by injection Ed as <-.
  - pose proof (exchange_phases_bounds _ _ _ _ _ Hok H Hr). split; [lia|]. split; [|intros; exfalso; lia].
    intros a ->. split; [lia|]. unfold exchange_phases in Hr.
    repeat (match type of Hr with context [if ?l <? ?x then _ else _] => destruct (Z.ltb_spec l x) | context [match (tg_setup t).2 with _ => _ end] => destruct (tg_setup t).2 | context [match (tg_head t).2 with _ => _ end] => destruct (tg_head t).2 end); congruence.
Qed.

(** A stop that came no later than the work ends it. *)
Lemma unless_stopped_first (before : nat) r rest :
  unless_stopped (A := A) (replicate before (false, None) ++ (true, r) :: rest) = Some (Err EngStopped).
Proof. by induction before. Qed.

End deadline.

(** With the lock held by another dial, a request is answered later than its
    deadline: here a refusal at 59 seconds for a deadline of 30. *)
Lemma lock_wait_is_not_covered :
  request_timeline HTTP_REQUEST_TIMEOUT
    (mkTiming 0 (secs 29) (Some (secs 40, Ok tt)) (0, Ok tt) (0, Ok tt) (0, Ok tt)) =
  (secs 59, Err (timed_out "during connection")).
Proof. reflexivity. Qed.

(** ** The reservation of a file request *)

(** The driver gives the reservation back exactly when it settles, each of the
    three wakes settles it, and once its caller has let go it can always settle; so
    [finish] returns, and never with an error. *)
Lemma driver_settles d :
  fd_guard d = negb (fd_settled d) →
  (∀ w d', driver_wakes d w = Some d' → fd_guard d' = false ∧ fd_settled d' = true ∧ finish_poll d' = Some (Ok tt)) ∧
  (fd_settled d = false → ∃ d', driver_wakes (connection_close d) CloseDropped = Some d') ∧
  (∀ r, finish_poll d = Some r → r = Ok tt ∧ fd_guard d = false).
Proof.
  destruct d as [c g s]. cbn. intros ->. split_and!.
  - intros [] d'; unfold driver_wakes; cbn; destruct s, c; intros [= <-]; done.
  - intros ->. by eexists.
  - intros r. unfold finish_poll. cbn. by destruct s; intros [= <-].
Qed.

(** ** A concrete request *)

Lemma request_deadline_witness :
  ∃ e, request_timeline (secs 30) (mkTiming 0 (secs 1) (Some (secs 4, Ok tt)) (secs 1, Ok tt) (secs 2, Ok tt) (secs 3, Ok tt)) = (e, Ok tt) ∧
    e <= secs 30.
Proof.
  set (t := mkTiming _ _ _ _ _ _).
  destruct (request_deadline (secs 30) t (secs 11) (Ok tt)) as (_ & H & _).
  - unfold secs. lia.
  - split; cbn; unfold secs; try lia. intros d r [= <- _]. lia.
  - reflexivity.
  - exists (secs 11). split; [reflexivity|]. destruct (H tt eq_refl) as [H' _]. exact H'.
Defined.
