(* ===== verification/HostRecords.v ===== *)
(** * HostRecords: what crosses to a host ([link-ffi/src/lib.rs],
      [link-web/src/web.rs], [link-engine/src/lib.rs])

    The records Kotlin hands in and gets back, with their conversions; the same
    data as a page sees it; the rest of the two bindings' calls; and what the
    [Debug] form of each record shows.  A formatted record is the tree its fields
    make, before punctuation. *)

From S2P Require Import Prelude Net Id Rendezvous Card Wire Tls Relay Paths TagBook RelayClient Session Endpoint.
From S2P Require Import Blossom Http WebSocket Engine EngineInv Bindings Requests.

Open Scope Z_scope.
Set Warnings "-register-all".

(** ** Path reports *)

Definition RoundCause_text (c : RoundCause) : list byte :=
  match c with
  | SettleDelay => lit "settle delay elapsed"
  | PunchFromPeer => lit "punch-now from peer"
  | RequestedHere => lit "requested here"
  | CooldownElapsed => lit "cooldown elapsed"
  end.

(** The texts [drive] gives its transitions; [ended] is quinn's text of the error
    that ended a connection. *)
Definition Cause_text (ended : list byte) (c : Cause) : list byte :=
  match c with
  | CConnect => lit "connect"
  | CHandshakeOk => lit "QUIC handshake over relay ok"
  | CSupersededBySession => lit "superseded by a newer session from the same node"
  | CIdleTimeout => lit "QUIC idle timeout"
  | CConnectionEnded => lit "connection ended: " ++ ended
  | CRelaySlotTaken => lit "relay node-ID slot taken by a newer process"
  | CNoRelay => lit "no relay within 60 s"
  | CRelayLost => lit "relay session lost"
  | CNewWelcome ms => lit "new relay welcome after " ++ print_num ms ++ lit " ms"
  | CDeclined => lit "owner declined direct paths"
  | CNoCandidates => lit "peer offered no candidates"
  | CPongProved addr => lit "signed pong proved " ++ SocketAddr_fmt addr
  | CCandidates n why => print_num (Z.of_nat n) ++ lit " peer candidates, " ++ RoundCause_text why
  | CDirectFailed => lit "direct_failed: all probes timed out"
  | CDirectLost => lit "direct_lost: proof older than 15 s and re-probe failed"
  end.

(** [Serialize for PathReport], read at [now]: the fields of the object in order. *)
Inductive Json : Type := JsonNull | JsonNumber (z : Z) | JsonText (s : list byte).

Definition json_option (o : option (list byte)) : Json := match o with Some s => JsonText s | None => JsonNull end.

Definition PathReport_serialize (ended : list byte) (r : PathReport) (now : Z) : list (list byte * Json) :=
  [(lit "status", JsonText (outcome (rp_status r)));
   (lit "relay", json_option (rp_relay r));
   (lit "direct", json_option (SocketAddr_fmt <$> rp_direct r));
   (lit "since_ms", JsonNumber ((duration_since now (rp_since r) / 1000000) mod 2 ^ 64));
   (lit "cause", JsonText (Cause_text ended (rp_cause r)))].

(** ** Kotlin's records *)

Record LinkRoute : Type := mkLinkRoute {
  lr_route_id : list byte;
  lr_card : list byte;
  lr_paired_route_secret : list byte;
  lr_card_serial : Z;
  lr_card_verified_at : Z;
}.

Record LinkConfig : Type := mkLinkConfig {
  lc_transport_seed : list byte;
  lc_relay_urls : list (list byte);
  lc_allow_direct : bool;
  lc_routes : list LinkRoute;
}.

Record LinkPairingBundle : Type := mkLinkPairingBundle {
  lb_route_id : list byte;
  lb_server_card : list byte;
  lb_pairing_secret : list byte;
  lb_expires_at : Z;
}.

Record LinkPath : Type := mkLinkPath {
  lp_status : list byte;
  lp_relay : option (list byte);
  lp_direct : option (list byte);
  lp_cause : list byte;
}.

Record LinkHttpRequest : Type := mkLinkHttpRequest {
  lq_route_id : list byte;
  lq_method : list byte;
  lq_path : list byte;
  lq_authorization : list byte;
  lq_body : list byte;
}.

Record LinkHttpResponse : Type := mkLinkHttpResponse {
  lh_status : Z;
  lh_body : list byte;
  lh_witness_refused : bool;
  lh_path : LinkPath;
}.

Definition Route_from (r : LinkRoute) : ERoute :=
  mkERoute (lr_route_id r) (lr_card r) (lr_paired_route_secret r) (lr_card_serial r) (lr_card_verified_at r).
Definition LinkRoute_from (r : ERoute) : LinkRoute :=
  mkLinkRoute (er_route_id r) (er_card r) (er_paired_route_secret r) (er_card_serial r) (er_card_verified_at r).
Definition JsonRequest_from (r : LinkHttpRequest) : JsonRequest :=
  mkJsonRequest (lq_route_id r) (lq_method r) (lq_path r) (lq_authorization r) (lq_body r).
Definition LinkPath_from (ended : list byte) (p : PathInfo) : LinkPath :=
  mkLinkPath (pf_status p) (pf_relay p) (pf_direct p) (Cause_text ended (pf_cause p)).
Definition LinkHttpResponse_from (ended : list byte) (r : JsonResponse) : LinkHttpResponse :=
  mkLinkHttpResponse (js_status r) (js_body r) (js_witness_refused r) (LinkPath_from ended (js_path r)).
Definition bundle_from (b : LinkPairingBundle) : PairingBundle :=
  mkPairingBundle (lb_route_id b) (lb_server_card b) (lb_pairing_secret b) (lb_expires_at b).
Definition config_from (c : LinkConfig) : EngineConfig :=
  mkEngineConfig (lc_transport_seed c) (lc_relay_urls c) (lc_allow_direct c) (Route_from <$> lc_routes c).

(** ** Kotlin's calls *)

Section kotlin.
Import Ffi.
Context `{C : Crypto, R : RdvCrypto, T : RawKeyTls, M : Mac, X : Hex, !HashIter SocketAddr Z}.

(** [start]: [runtime] is whether a runtime could be made; a caller inside another
    runtime is served from a helper thread. *)
Definition ffi_start (runtime : bool) (caller : Caller) (config : LinkConfig) (udp : option SocketAddr) (setup : bool)
    (now : Z) (nonce : array 16) : exec (result LinkError LinkEngine) :=
  let config := config_from config in
  if negb runtime then Ret (Err (LTransport "runtime"))
  else
    core ← (match caller with
            | Outside => Engine_start false config udp setup now nonce
            | OwnRuntime | OtherRuntime => Engine_start false config udp setup now nonce
            end);
    Ret (match core with Ok e => Ok (mkLinkEngine e 0) | Err err => Err (LinkError_from err) end).

(** [pair_route] up to its dial, and its end. *)
Definition ffi_pair_begin (l : LinkEngine) (caller : Caller) (b : LinkPairingBundle) (i : PairIn) :
    option (exec (LinkEngine * result LinkError Z)) :=
  match caller with
  | OwnRuntime => Some (call l caller (λ e, Ret (e, Ok 0)))
  | _ => r ← pair_begin (le_core l) (bundle_from b) i; Some (call l caller (λ _, r))
  end.
Definition ffi_pair_finish (l : LinkEngine) (id : Z) (psecret : option (array 32)) (response : result EngineError Response)
    (verified_at : Z) : exec (LinkEngine * option (result LinkError LinkRoute)) :=
  '(e, r) ← pair_finish (le_core l) id psecret response verified_at;
  Ret (mkLinkEngine e (le_stops l),
       match r with
       | Some (Ok route) => Some (Ok (LinkRoute_from route))
       | Some (Err err) => Some (Err (LinkError_from err))
       | None => None
       end).

Definition ffi_upsert_route (l : LinkEngine) (caller : Caller) (route : LinkRoute) :=
  call l caller (λ e, upsert_route e (Route_from route)).

(** [request_json_with_timeout] up to the session it uses, and what it makes of the
    engine's answer. *)
Definition ffi_request_json (l : LinkEngine) (caller : Caller) (request : LinkHttpRequest) (failed : Z → bool) (driver : Z) :=
  call l caller (λ e, Ret (request_json e (JsonRequest_from request) failed driver)).
Definition ffi_response (ended : list byte) (r : result EngineError JsonResponse) : result LinkError LinkHttpResponse :=
  match r with Ok r => Ok (LinkHttpResponse_from ended r) | Err err => Err (LinkError_from err) end.

(** [retire_route] and [finalize_route] up to their dial. *)
Definition ffi_retire_route (l : LinkEngine) (caller : Caller) (route_id : list byte) (driver : Z) :=
  call l caller (λ e, Ret (retire_route e route_id driver)).
Definition ffi_finalize_route (l : LinkEngine) (caller : Caller) (route_id : list byte) (driver : Z) :=
  call l caller (λ e, Ret (finalize_route e route_id driver)).

Definition ffi_open_socket (l : LinkEngine) (caller : Caller) (url : option Url) (route_id : list byte) (failed : Z → bool) (driver : Z) :=
  call l caller (λ e, Ret (open_socket e url route_id failed driver)).

(** [Drop]: whether it waits for the tasks of the runtime. *)
Definition drop_waits (caller : Caller) : bool := match caller with Outside => true | OwnRuntime | OtherRuntime => false end.

(** [LinkSocket]. *)
Definition ffi_send_text (w : Ws) (text : list byte) : Ws * result LinkError unit :=
  let '(w, r) := send_text w text in (w, match r with Ok _ => Ok tt | Err _ => Err (LSocket "socket") end).
Definition ffi_disconnect (w : Ws) : Ws * result LinkError unit :=
  let '(w, r) := socket_close w in (w, match r with Ok _ => Ok tt | Err _ => Err (LSocket "socket") end).
Definition ffi_path (ended : list byte) (report : PathReport) : LinkPath := LinkPath_from ended (path_info report).

End kotlin.

(** ** The page's calls *)

Section page.
Import Web.
Context `{C : Crypto, R : RdvCrypto, T : RawKeyTls, M : Mac, X : Hex, !HashIter SocketAddr Z}.

Definition js_option (o : option (list byte)) : JsValue := match o with Some s => JString s | None => JNull end.

Definition path_out (ended : list byte) (path : PathInfo) : JsValue :=
  let object := set [] (lit "status") (JString (pf_status path)) in
  let object := set object (lit "relay") (js_option (pf_relay path)) in
  let object := set object (lit "direct") (js_option (pf_direct path)) in
  let object := set object (lit "cause") (JString (Cause_text ended (pf_cause path))) in
  JObject object.

(** The object a request resolves with. *)
Definition response_out (ended : list byte) (r : JsonResponse) : JsValue :=
  let object := set [] (lit "status") (JNumber (f64_of_Z (js_status r))) in
  let object := set object (lit "body") (JBytes (js_body r)) in
  let object := set object (lit "witnessRefused") (JBool (js_witness_refused r)) in
  let object := set object (lit "path") (path_out ended (js_path r)) in
  JObject object.

(** The end of [request]: what its promise settles with. *)
Definition web_response (ended : list byte) (r : result EngineError JsonResponse) : result WebError JsValue :=
  match r with Ok r => Ok (response_out ended r) | Err err => Err (FromEngine err) end.

(** [engine]. *)
Definition web_engine (w : WebEngine) : result WebError Engine :=
  if we_held w then Ok (we_engine w) else Err (FromEngine EngStopped).

(** [pair_route]: the bundle is read first, then the engine is asked for. *)
Definition web_pair_begin (w : WebEngine) (bundle : JsValue) (i : PairIn) : option (exec (WebEngine * result WebError Z)) :=
  match bundle_in bundle with
  | Err e => Some (Ret (w, Err e))
  | Ok b => if we_held w then r ← pair_begin (we_engine w) b i; Some (run w (λ _, r)) else Some (Ret (w, Err (FromEngine EngStopped)))
  end.
Definition web_pair_finish (w : WebEngine) (id : Z) (psecret : option (array 32)) (response : result EngineError Response)
    (verified_at : Z) : exec (WebEngine * option (result WebError JsValue)) :=
  '(e, r) ← pair_finish (we_engine w) id psecret response verified_at;
  Ret (we_set w e,
       match r with
       | Some (Ok route) => Some (Ok (route_out route))
       | Some (Err err) => Some (Err (FromEngine err))
       | None => None
       end).

Definition web_retire_route (w : WebEngine) (route_id : list byte) (driver : Z) :=
  run w (λ e, Ret (retire_route e route_id driver)).
Definition web_finalize_route (w : WebEngine) (route_id : list byte) (driver : Z) :=
  run w (λ e, Ret (finalize_route e route_id driver)).

(** [open_socket]: the listener's callbacks are read before the engine is asked. *)
Record Callbacks : Type := mkCallbacks { cb_open : option Z; cb_text : option Z; cb_closed : option Z }.
Definition callbacks_in (listener : JsValue) : result WebError Callbacks :=
  on_open ← callback listener (lit "onOpen");
  on_text ← callback listener (lit "onText");
  on_closed ← callback listener (lit "onClosed");
  Ok (mkCallbacks on_open on_text on_closed).

Definition web_open_socket (w : WebEngine) (url : option Url) (route_id : list byte) (listener : JsValue) (failed : Z → bool)
    (driver : Z) : exec (WebEngine * result WebError (Callbacks * Acquired)) :=
  match callbacks_in listener with
  | Err e => Ret (w, Err e)
  | Ok cb => '(w, r) ← run w (λ e, Ret (open_socket e url route_id failed driver)); Ret (w, a ← r; Ok (cb, a))
  end.

(** The calls a page's functions get: what it did not give is skipped. *)
Definition page_call (cb : Callbacks) (c : ListenerCall) : option (Z * ListenerCall) :=
  match c with
  | OnOpen => f ← cb_open cb; Some (f, c)
  | OnText _ => f ← cb_text cb; Some (f, c)
  | OnClosed _ => f ← cb_closed cb; Some (f, c)
  end.
Definition page_calls (cb : Callbacks) (incoming : list IncomingMessage) : list (Z * ListenerCall) :=
  omap (page_call cb) (listener_calls incoming).

(** [WebSocketHandle]; the error is text only. *)
Definition web_send_text (w : Ws) (text : list byte) : Ws * result unit unit :=
  let '(w, r) := send_text w text in (w, match r with Ok _ => Ok tt | Err _ => Err tt end).
Definition web_disconnect (w : Ws) : Ws * result unit unit :=
  let '(w, r) := socket_close w in (w, match r with Ok _ => Ok tt | Err _ => Err tt end).

End page.

(** ** Request bodies from a page

    A page hands in a view of memory it still holds; it can override the view's
    properties, not its internal extent. *)

Inductive Backing : Type :=
  | FixedBuffer (bytes : list byte)
  | SharedBuffer (bytes : list byte)
  | ResizableBuffer (bytes : list byte)
  | DetachedBuffer.

Record TypedArray : Type := mkTypedArray {
  ta_name : list byte;
  ta_backing : Backing;
  ta_offset : nat;
  ta_length : nat;
  (** what the page's own properties say of the length *)
  ta_claimed : option Z;
}.

(** [stableRequestBody]: a fresh view of the same extent; [None] throws. *)
Definition stable_request_body (v : TypedArray) : option TypedArray :=
  if negb (bool_decide (ta_name v = lit "Uint8Array")) then None
  else match ta_backing v with
  | FixedBuffer _ => Some (mkTypedArray (ta_name v) (ta_backing v) (ta_offset v) (ta_length v) None)
  | SharedBuffer _ | ResizableBuffer _ | DetachedBuffer => None
  end.

(** [copyRequestBody]: a copy of what the view shows now, unless its buffer was
    detached since. *)
Definition copy_request_body (v : TypedArray) : option (list byte) :=
  match ta_backing v with
  | FixedBuffer bytes | SharedBuffer bytes | ResizableBuffer bytes => Some (take (ta_length v) (drop (ta_offset v) bytes))
  | DetachedBuffer => None
  end.

(** ** Debug *)

(** What a [Formatter] is given: text in quotes, text as it is, numbers, sequences
    and structures with named fields. *)
Inductive Dbg : Type :=
  | DQuoted (s : list byte)
  | DPlain (s : list byte)
  | DNumber (z : Z)
  | DBool (b : bool)
  | DOption (o : option Dbg)
  | DList (l : list Dbg)
  | DStruct (name : list byte) (fields : list (list byte * Dbg)).

Definition d_bytes (l : list byte) : Dbg := DList ((λ b, DNumber (byte_to_Z b)) <$> l).
Definition d_count (l : list byte) : Dbg := DPlain (print_num (Z.of_nat (length l)) ++ lit " bytes").
Definition redacted : Dbg := DQuoted (lit "[redacted]").

Section debug.
Context `{C : Crypto}.

Definition NodeId_debug (n : NodeId) : Dbg := DPlain (lit "NodeId(" ++ NodeId_to_base32 n ++ lit ")").
Definition TransportKey_debug (k : TransportKey) : Dbg := DPlain (lit "TransportKey(" ++ NodeId_to_base32 (tk_node_id k) ++ lit ")").
Definition Tag_debug (t : Tag) : Dbg := DPlain (lit "Tag(redacted)").
Definition PairingRegistration_debug (r : PairingRegistration) : Dbg :=
  DStruct (lit "PairingRegistration") [(lit "route", DQuoted (lit "redacted")); (lit "expires_at", DNumber (pg_expires_at r))].
Definition BlobBytes_debug (b : BlobBytes) : Dbg :=
  DStruct (lit "BlobBytes") [(lit "size", DNumber (bb_size b)); (lit "content_type", DOption (DQuoted <$> bb_content_type b))].

(** The engine's records, and Kotlin's under their own names. *)
Definition route_debug (name : list byte) (r : ERoute) : Dbg :=
  DStruct name [(lit "route_id", DQuoted (er_route_id r)); (lit "card", d_count (er_card r)); (lit "paired_route_secret", redacted);
                (lit "card_serial", DNumber (er_card_serial r)); (lit "card_verified_at", DNumber (er_card_verified_at r))].
Definition Route_debug : ERoute → Dbg := route_debug (lit "Route").
Definition LinkRoute_debug (r : LinkRoute) : Dbg := route_debug (lit "LinkRoute") (Route_from r).

Definition bundle_debug (name : list byte) (b : PairingBundle) : Dbg :=
  DStruct name [(lit "route_id", DQuoted (pb_route_id b)); (lit "server_card", d_count (pb_server_card b)); (lit "pairing_secret", redacted);
                (lit "expires_at", DNumber (pb_expires_at b))].
Definition PairingBundle_debug : PairingBundle → Dbg := bundle_debug (lit "PairingBundle").
Definition LinkPairingBundle_debug (b : LinkPairingBundle) : Dbg := bundle_debug (lit "LinkPairingBundle") (bundle_from b).

Definition request_debug (name : list byte) (r : JsonRequest) : Dbg :=
  DStruct name [(lit "route_id", redacted); (lit "method", DQuoted (jr_method r)); (lit "path", redacted); (lit "authorization", redacted);
                (lit "body", d_count (jr_body r))].
Definition JsonRequest_debug : JsonRequest → Dbg := request_debug (lit "JsonRequest").
Definition LinkHttpRequest_debug (r : LinkHttpRequest) : Dbg := request_debug (lit "LinkHttpRequest") (JsonRequest_from r).

(** [derive(Debug)] on a path. *)
Definition path_debug (name : list byte) (p : LinkPath) : Dbg :=
  DStruct name [(lit "status", DQuoted (lp_status p)); (lit "relay", DOption (DQuoted <$> lp_relay p));
                (lit "direct", DOption (DQuoted <$> lp_direct p)); (lit "cause", DQuoted (lp_cause p))].
Definition response_debug (name path : list byte) (r : LinkHttpResponse) : Dbg :=
  DStruct name [(lit "status", DNumber (lh_status r)); (lit "body", d_count (lh_body r)); (lit "witness_refused", DBool (lh_witness_refused r));
                (lit "path", path_debug path (lh_path r))].
Definition JsonResponse_debug (ended : list byte) (r : JsonResponse) : Dbg :=
  response_debug (lit "JsonResponse") (lit "PathInfo") (LinkHttpResponse_from ended r).
Definition LinkHttpResponse_debug : LinkHttpResponse → Dbg := response_debug (lit "LinkHttpResponse") (lit "LinkPath").

(** [derive(Debug)] on [LinkConfig]. *)
Definition LinkConfig_debug (c : LinkConfig) : Dbg :=
  DStruct (lit "LinkConfig")
    [(lit "transport_seed", d_bytes (lc_transport_seed c)); (lit "relay_urls", DList (DQuoted <$> lc_relay_urls c));
     (lit "allow_direct", DBool (lc_allow_direct c)); (lit "routes", DList (LinkRoute_debug <$> lc_routes c))].

(** A record that redacts shows nothing that depends on its secrets: two that
    differ only there are formatted alike. *)
Lemma debug_hides_secrets :
  (∀ r s, LinkRoute_debug r = LinkRoute_debug (mkLinkRoute (lr_route_id r) (lr_card r) s (lr_card_serial r) (lr_card_verified_at r))) ∧
  (∀ b s, LinkPairingBundle_debug b = LinkPairingBundle_debug (mkLinkPairingBundle (lb_route_id b) (lb_server_card b) s (lb_expires_at b))) ∧
  (∀ r id path auth, LinkHttpRequest_debug r = LinkHttpRequest_debug (mkLinkHttpRequest id (lq_method r) path auth (lq_body r))) ∧
  (∀ k k', tk_node_id k = tk_node_id k' → TransportKey_debug k = TransportKey_debug k') ∧
  (∀ t t', Tag_debug t = Tag_debug t').
Proof. split_and!; try done. intros k k' E. unfold TransportKey_debug. by rewrite E. Qed.

(** The configuration does not: its formatted form determines the transport seed. *)
Lemma config_debug_reveals_seed c c' : LinkConfig_debug c = LinkConfig_debug c' → lc_transport_seed c = lc_transport_seed c'.
Proof.
  intros E. assert (H : d_bytes (lc_transport_seed c) = d_bytes (lc_transport_seed c')) by (unfold LinkConfig_debug in E; congruence).
  clear E. unfold d_bytes in H. injection H as H. revert H. generalize (lc_transport_seed c), (lc_transport_seed c').
  induction l as [|b l IH]; intros [|b' l'] H; try done. cbn in H. injection H as Hb Hl. f_equal; [|by apply IH].
  by apply byte_to_Z_inj.
Qed.

End debug.

(** ** Two hosts, one engine *)

(** What each host reads of an error: the page the text of the [JsError], Kotlin the
    text of its exception. *)
Definition EngineError_display (e : EngineError) : string :=
  match e with
  | EngConfig m => ("configuration: " ++ m)%string
  | EngRoute m => ("route: " ++ m)%string
  | EngTransport m => ("transport: " ++ m)%string
  | EngSocket m => ("socket: " ++ m)%string
  | EngStopped => "the engine is stopped"%string
  end.
Definition LinkError_display (e : Ffi.LinkError) : string :=
  match e with
  | Ffi.LConfig m => ("configuration: " ++ m)%string
  | Ffi.LRoute m => ("route: " ++ m)%string
  | Ffi.LTransport m => ("transport: " ++ m)%string
  | Ffi.LSocket m => ("socket: " ++ m)%string
  | Ffi.LStopped => "the engine is stopped"%string
  end.

Section hosts.
Import Web Ffi.
Context `{C : Crypto, R : RdvCrypto, T : RawKeyTls, M : Mac, X : Hex, !HashIter SocketAddr Z}.

(** The same answer in each host's terms: values that stand for each other, or an error
    with the same text. *)
Definition answers {A B} (P : A → B → Prop) (x : result WebError A) (y : result LinkError B) : Prop :=
  match x, y with
  | Ok a, Ok b => P a b
  | Err (FromEngine e), Err e' => LinkError_display e' = EngineError_display e
  | _, _ => False
  end.
Definition same_call {A B} (P : A → B → Prop) (x : exec (WebEngine * result WebError A)) (y : exec (LinkEngine * result LinkError B)) : Prop :=
  match x, y with
  | Ret (w, r), Ret (l, r') => we_held w = true ∧ we_engine w = le_core l ∧ answers P r r'
  | Panic, Panic => True
  | _, _ => False
  end.

Lemma LinkError_text e : LinkError_display (LinkError_from e) = EngineError_display e.
Proof. by destruct e. Qed.

Lemma run_call {A} (P : A → A → Prop) w l caller (f : Engine → exec (Engine * result EngineError A)) :
  (∀ a, P a a) → we_held w = true → we_engine w = le_core l → caller ≠ OwnRuntime → same_call P (Web.run w f) (call l caller f).
Proof.
  intros HP Hh He Hc. unfold Web.run, call, block_on. rewrite Hh, He. destruct caller; [|done|];
    destruct (f (le_core l)) as [[e [a|err]]|]; cbn; auto using LinkError_text.
Qed.

(** The objects a page makes of the data of Kotlin's records, property by property;
    [expires] is the number it writes. *)
Definition page_route (r : LinkRoute) : JsValue :=
  JObject [(lit "routeId", JString (lr_route_id r)); (lit "card", JBytes (lr_card r));
           (lit "pairedRouteSecret", JBytes (lr_paired_route_secret r)); (lit "cardSerial", JBigInt (lr_card_serial r));
           (lit "cardVerifiedAt", JBigInt (lr_card_verified_at r))].
Definition page_config (c : LinkConfig) : JsValue :=
  JObject [(lit "transportSeed", JBytes (lc_transport_seed c)); (lit "relayUrls", JArray (JString <$> lc_relay_urls c));
           (lit "routes", JArray (page_route <$> lc_routes c))].
Definition page_request (r : LinkHttpRequest) : JsValue :=
  JObject [(lit "routeId", JString (lq_route_id r)); (lit "method", JString (lq_method r)); (lit "path", JString (lq_path r));
           (lit "authorization", JString (lq_authorization r)); (lit "body", JBytes (lq_body r))].
Definition page_bundle (b : LinkPairingBundle) (expires : SpecFloat.spec_float) : JsValue :=
  JObject [(lit "routeId", JString (lb_route_id b)); (lit "serverCard", JBytes (lb_server_card b));
           (lit "pairingSecret", JBytes (lb_pairing_secret b)); (lit "expiresAt", JNumber expires)].

(** What a page reads of an object it is given, against the record Kotlin gets. *)
Definition shows_route (v : JsValue) (r : LinkRoute) : Prop :=
  string v (lit "routeId") = Ok (lr_route_id r) ∧ bytes v (lit "card") = Ok (lr_card r) ∧
  bytes v (lit "pairedRouteSecret") = Ok (lr_paired_route_secret r) ∧
  field v (lit "cardSerial") = Ok (JBigInt (lr_card_serial r)) ∧
  field v (lit "cardVerifiedAt") = Ok (JBigInt (lr_card_verified_at r)).
Definition shows_path (v : JsValue) (p : LinkPath) : Prop :=
  string v (lit "status") = Ok (lp_status p) ∧ field v (lit "relay") = Ok (js_option (lp_relay p)) ∧
  field v (lit "direct") = Ok (js_option (lp_direct p)) ∧ string v (lit "cause") = Ok (lp_cause p).
Definition shows_response (v : JsValue) (r : LinkHttpResponse) : Prop :=
  field v (lit "status") = Ok (JNumber (f64_of_Z (lh_status r))) ∧ bytes v (lit "body") = Ok (lh_body r) ∧
  field v (lit "witnessRefused") = Ok (JBool (lh_witness_refused r)) ∧
  ∃ path, field v (lit "path") = Ok path ∧ shows_path path (lh_path r).

(** A record whose two numbers are [u64]. *)
Definition LinkRoute_wf (r : LinkRoute) : Prop :=
  0 <= lr_card_serial r <= u64_max ∧ 0 <= lr_card_verified_at r <= u64_max.

Lemma page_route_in r : LinkRoute_wf r → route_in (page_route r) = Ok (Route_from r).
Proof. intros [H1 H2]. exact (route_record_roundtrip (Route_from r) H1 H2). Qed.

Lemma collect_ok {A B D} (f : A → result WebError B) (g : D → A) (h : D → B) l :
  Forall (λ x, f (g x) = Ok (h x)) l → collect f (g <$> l) = Ok (h <$> l).
Proof. induction 1 as [|x l Hx _ IH]; [done|]. cbn [fmap list_fmap collect]. rewrite Hx. cbn [mbind result_bind]. by rewrite IH. Qed.

Lemma page_config_in c :
  Forall LinkRoute_wf (lc_routes c) →
  config_in (page_config c) = Ok (config_from (mkLinkConfig (lc_transport_seed c) (lc_relay_urls c) false (lc_routes c))).
Proof.
  intros Hr. set (o := page_config c).
  assert (F1 : js_list o (lit "routes") = Ok (page_route <$> lc_routes c)) by reflexivity.
  assert (F2 : js_list o (lit "relayUrls") = Ok (JString <$> lc_relay_urls c)) by reflexivity.
  assert (F3 : bytes o (lit "transportSeed") = Ok (lc_transport_seed c)) by reflexivity.
  unfold config_in. rewrite F1. cbn [mbind result_bind]. rewrite (collect_ok _ _ Route_from), F2.
  - cbn [mbind result_bind]. rewrite (collect_ok _ _ id), F3 by (by apply Forall_true). by rewrite list_fmap_id.
  - eapply Forall_impl; [exact Hr|]. by apply page_route_in.
Qed.

Lemma page_bundle_in b f :
  f64_integer f = Some (lb_expires_at b) → 0 <= lb_expires_at b <= MAX_SAFE_INTEGER → bundle_in (page_bundle b f) = Ok (bundle_from b).
Proof.
  intros Hf Hr. set (o := page_bundle b f).
  assert (F1 : field o (lit "routeId") = Ok (JString (lb_route_id b))) by reflexivity.
  assert (F2 : field o (lit "serverCard") = Ok (JBytes (lb_server_card b))) by reflexivity.
  assert (F3 : field o (lit "expiresAt") = Ok (JNumber f)) by reflexivity.
  assert (F4 : field o (lit "pairingSecret") = Ok (JBytes (lb_pairing_secret b))) by reflexivity.
  unfold bundle_in, string, bytes, integer. rewrite F1, F2, F3, F4. cbn -[MAX_SAFE_INTEGER Z.leb f64_integer]. rewrite Hf.
  rewrite (proj2 (Z.leb_le _ _)), (proj2 (Z.leb_le _ _)) by lia. done.
Qed.

Lemma deletion_agrees w l caller id path operation driver :
  we_held w = true → we_engine w = le_core l → caller ≠ OwnRuntime →
  same_call (λ d d', d = d' ∧ dn_path d = path)
    (Web.run w (λ e, Ret (delete_route e id path operation driver))) (call l caller (λ e, Ret (delete_route e id path operation driver))).
Proof.
  intros Hh He Hc. pose proof (run_call eq w l caller (λ e, Ret (delete_route e id path operation driver)) (λ _, eq_refl) Hh He Hc) as H.
  unfold Web.run in *. rewrite Hh in *. unfold delete_route in *.
  destruct (acquire (we_engine w) id _ _ driver) as [e [a|err]]; cbn in *; destruct (call _ _ _) as [[l' [d|err']]|]; try done.
  destruct H as (? & ? & <-). done.
Qed.

Lemma pair_begin_agrees w l caller b f i :
  we_held w = true → we_engine w = le_core l → caller ≠ OwnRuntime →
  f64_integer f = Some (lb_expires_at b) → 0 <= lb_expires_at b <= MAX_SAFE_INTEGER →
  match web_pair_begin w (page_bundle b f) i, ffi_pair_begin l caller b i with
  | Some x, Some y => same_call eq x y
  | None, None => True
  | _, _ => False
  end.
Proof.
  intros Hh He Hc Hf Hr. unfold web_pair_begin. rewrite page_bundle_in, Hh, He by done.
  assert (E : ffi_pair_begin l caller b i = r ← pair_begin (le_core l) (bundle_from b) i; Some (call l caller (λ _, r))) by (by destruct caller).
  rewrite E. destruct (pair_begin _ _ _) as [r|]; cbn -[call]; [|done]. by apply run_call.
Qed.

(** The end of an enrolment, as each host is told of it. *)
Definition same_enrolment (x : exec (WebEngine * option (result WebError JsValue)))
    (y : exec (LinkEngine * option (result LinkError LinkRoute))) : Prop :=
  match x, y with
  | Ret (w', Some r), Ret (l', Some r') => we_engine w' = le_core l' ∧ answers shows_route r r'
  | Ret (w', None), Ret (l', None) => we_engine w' = le_core l'
  | Panic, Panic => True
  | _, _ => False
  end.

Lemma pair_finish_agrees w l id psecret response at_ :
  we_engine w = le_core l → same_enrolment (web_pair_finish w id psecret response at_) (ffi_pair_finish l id psecret response at_).
Proof.
  intros He. unfold web_pair_finish, ffi_pair_finish. rewrite He.
  destruct (pair_finish _ _ _ _ _) as [[e [[route|err]|]]|]; cbn; auto using LinkError_text.
  split; [done|]. by split_and!.
Qed.

Lemma request_agrees w l caller r failed driver :
  we_held w = true → we_engine w = le_core l → caller ≠ OwnRuntime →
  same_call eq (Ret (web_request w (page_request r) true failed driver)) (ffi_request_json l caller r failed driver).
Proof.
  intros Hh He Hc.
  pose proof (web_request_is_request_json w (lq_route_id r) (lq_method r) (lq_path r) (lq_authorization r) (lq_body r) failed driver Hh) as H.
  pose proof (run_call eq w l caller (λ e, Ret (request_json e (JsonRequest_from r) failed driver)) (λ _, eq_refl) Hh He Hc) as Hr.
  unfold ffi_request_json. unfold Web.run in Hr. rewrite Hh in Hr. cbn [exec_bind] in Hr. unfold JsonRequest_from in *.
  destruct (request_json (we_engine w) _ failed driver) as [e r0]. unfold page_request. rewrite H. exact Hr.
Qed.

Lemma response_agrees ended r : answers shows_response (web_response ended r) (ffi_response ended r).
Proof. destruct r as [r|err]; cbn; [|apply LinkError_text]. split_and!; try done. eexists. split; [reflexivity|]. by split_and!. Qed.

Lemma socket_agrees w l caller url id listener cb failed driver :
  we_held w = true → we_engine w = le_core l → caller ≠ OwnRuntime → callbacks_in listener = Ok cb →
  same_call (λ x a, x = (cb, a)) (web_open_socket w url id listener failed driver) (ffi_open_socket l caller url id failed driver).
Proof.
  intros Hh He Hc Hl. unfold web_open_socket. rewrite Hl.
  pose proof (run_call eq w l caller (λ e, Ret (open_socket e url id failed driver)) (λ _, eq_refl) Hh He Hc) as H.
  unfold ffi_open_socket. destruct (Web.run _ _) as [[w' [a|err]]|], (call _ _ _) as [[l' [a'|err']]|]; cbn in *; try done.
  destruct H as (? & ? & ->). done.
Qed.

(** C18: A page and Kotlin drive the same engine alike.  The data a page writes into
    objects, property by property, is the data Kotlin writes into records, field by
    field, and what either is given back reads the same: route records, requests (whose
    body could be copied out of the page) and their responses with the path that carried them, pairing bundles (with an expiry a
    number carries exactly, up to 2^53 - 1), the record of an enrolment, and errors,
    whose texts are equal.  Given the same engine, not yet stopped by the page, and a
    caller on any thread but the engine's own, a call through one binding leaves the
    engine as the same call through the other does: installing, retiring (which asks the
    server for another path and names another operation than finalising does),
    finalising and removing a route, requests, enrolments and sockets.  A page's
    configuration is Kotlin's with direct paths declined. *)
Theorem bindings_agree w l caller (Hh : we_held w = true) (He : we_engine w = le_core l) (Hc : caller ≠ OwnRuntime) :
  (∀ c, Forall LinkRoute_wf (lc_routes c) →
     config_in (page_config c) = Ok (config_from (mkLinkConfig (lc_transport_seed c) (lc_relay_urls c) false (lc_routes c)))) ∧
  (∀ r, LinkRoute_wf r → same_call eq (web_upsert_route w (page_route r)) (ffi_upsert_route l caller r)) ∧
  (∀ id, same_call eq (web_remove_route w id) (ffi_remove_route l caller id)) ∧
  (∀ r failed driver, same_call eq (Ret (web_request w (page_request r) true failed driver)) (ffi_request_json l caller r failed driver)) ∧
  (∀ ended r, answers shows_response (web_response ended r) (ffi_response ended r)) ∧
  (∀ id driver, same_call (λ d d', d = d' ∧ dn_path d = lit "/events/route")
     (web_retire_route w id driver) (ffi_retire_route l caller id driver)) ∧
  (∀ id driver, same_call (λ d d', d = d' ∧ dn_path d = lit "/events/route/finalize")
     (web_finalize_route w id driver) (ffi_finalize_route l caller id driver)) ∧
  (∀ b f i, f64_integer f = Some (lb_expires_at b) → 0 <= lb_expires_at b <= MAX_SAFE_INTEGER →
     match web_pair_begin w (page_bundle b f) i, ffi_pair_begin l caller b i with
     | Some x, Some y => same_call eq x y
     | None, None => True
     | _, _ => False
     end) ∧
  (∀ id psecret response at_, same_enrolment (web_pair_finish w id psecret response at_) (ffi_pair_finish l id psecret response at_)) ∧
  (∀ url id listener cb failed driver, callbacks_in listener = Ok cb →
     same_call (λ x a, x = (cb, a)) (web_open_socket w url id listener failed driver) (ffi_open_socket l caller url id failed driver)).
Proof.
  split_and!; intros *.
  - apply page_config_in.
  - intros Hr. unfold web_upsert_route. rewrite page_route_in by done. by apply run_call.
  - by apply run_call.
  - by apply request_agrees.
  - apply response_agrees.
  - by apply deletion_agrees.
  - by apply deletion_agrees.
  - by apply pair_begin_agrees.
  - by apply pair_finish_agrees.
  - by apply socket_agrees.
Qed.

End hosts.

(** ** What hosts are told *)

(** A word of the outcome is one status. *)
Lemma outcome_inj s s' : outcome s = outcome s' → s = s'.
Proof. intros E. destruct s as [| | | | | |[]], s' as [| | | | | |[]]; try reflexivity; vm_compute in E; discriminate E. Qed.

(** A page that gives every callback is called as Kotlin's listener is. *)
Lemma page_calls_all fo ft fc incoming :
  (page_calls (mkCallbacks (Some fo) (Some ft) (Some fc)) incoming).*2 = listener_calls incoming.
Proof.
  unfold page_calls, listener_calls. cbn. f_equal. induction incoming as [|[t|r] rest IH]; [done| |done]. cbn. by f_equal.
Qed.

(** The body taken is what the extent of the view shows, whatever the page's own
    properties claim, and its length is the one that was checked and reserved for. *)
Lemma body_of_extent v w bytes :
  stable_request_body v = Some w → ta_backing v = FixedBuffer bytes → (ta_offset v + ta_length v ≤ length bytes)%nat →
  ∃ body, copy_request_body w = Some body ∧ body = take (ta_length v) (drop (ta_offset v) bytes) ∧ length body = ta_length v ∧
    ∀ claimed, stable_request_body (mkTypedArray (ta_name v) (ta_backing v) (ta_offset v) (ta_length v) claimed) = Some w.
Proof.
  unfold stable_request_body. intros E Hb Hl. destruct (negb (bool_decide (ta_name v = lit "Uint8Array"))) eqn:G; [done|]. rewrite Hb in E. injection E as <-.
  cbn [copy_request_body ta_backing ta_offset ta_length]. eexists. split; [done|]. split; [done|].
  split; [rewrite length_take, length_drop; lia|]. intros claimed. cbn [ta_name ta_backing ta_offset ta_length]. by rewrite G, Hb.
Qed.

(** A drop on a thread of any runtime does not wait, so a last reference dropped by a
    task of the engine's own runtime does not wait for that task. *)
Lemma drop_in_runtime caller : caller ≠ Ffi.Outside → drop_waits caller = false.
Proof. by destruct caller. Qed.

(** ** A concrete engine *)

#[local] Existing Instances toy_crypto toy_rdv toy_mac toy_tls ascii_hex.
#[local] Instance host_order : HashIter SocketAddr Z := map_order SocketAddr Z.

Definition host_engine : Engine := mkEngine demo_endpoint ∅ false ∅ false None ∅ 0 1 ∅ 0.

Definition host_route : LinkRoute := mkLinkRoute (lit "box") (lit "card") (replicate 32 Byte.x07) 3 4.

Lemma bindings_agree_witness :
  let w := Web.mkWebEngine host_engine true false in
  let l := Ffi.mkLinkEngine host_engine 0 in
  same_call eq (Web.web_upsert_route w (page_route host_route)) (ffi_upsert_route l Ffi.OtherRuntime host_route) ∧
  same_call eq (Web.web_remove_route w (lit "box")) (Ffi.ffi_remove_route l Ffi.OtherRuntime (lit "box")) ∧
  Ffi.ffi_remove_route l Ffi.OtherRuntime (lit "box") = Ret (l, Err (Ffi.LRoute "route is not installed")).
Proof.
  intros w l. destruct (bindings_agree w l Ffi.OtherRuntime eq_refl eq_refl ltac:(discriminate)) as (_ & Hu & Hr & _).
  split; [apply Hu; split; unfold host_route, u64_max; cbn; lia|]. split; [exact (Hr (lit "box"))|reflexivity].
Defined.
