(* ===== verification/RelayPool.v ===== *)
(** * RelayPool: the drivers of an endpoint and their end
      ([link-endpoint/src/relay_client.rs], [relay_socket.rs])

    The pool, the task of every driver it started, the sockets that task opened
    and any number of callers in [RelayClient::closed], interleaved.  A driver's
    handle, the tag book and the inbound queue are shared, so a turn of a task
    reads and writes the pool's copy.  The turns are those of [RelayClient], the
    count of sockets that of [RelaySocket]. *)

From S2P Require Import Prelude Net Id Rendezvous Card Wire Paths TagBook RelayClient RelaySocket.

Open Scope Z_scope.

(** ** State *)

(** What [spawn_driver] spawns: the locals of [driver], then the wait for its
    sockets and the word that it finished. *)
Record Task : Type := mkTask {
  tk_relays : list RelaySpec;
  tk_index : nat;
  tk_backoff : Z;
  tk_down_since : option Z;
  tk_phase : RunPhase;
  tk_sockets : Shutdown;
  tk_finished : bool;
}.

Definition Task_spawned (relays : list RelaySpec) : Task :=
  mkTask relays 0 BACKOFF_MIN None Dialling Shutdown_default false.

(** A caller of [closed]: before its [close], before the snapshot, at the wait
    for the first of the drivers left, past them all. *)
Inductive Closer : Type := CloseFirst | CloseSnapshot | CloseWait (drivers : list Z) | CloseDone.

Record Pool : Type := mkPool {
  pl_client : RelayClient;
  pl_book : option TagBook;
  pl_inbound : list (NodeId * list byte * Z);
  pl_tasks : gmap Z Task;
  pl_closers : list Closer;
}.

Definition pl_set_client (p : Pool) (c : RelayClient) : Pool :=
  mkPool c (pl_book p) (pl_inbound p) (pl_tasks p) (pl_closers p).
Definition pl_set_task (p : Pool) (i : Z) (t : Task) : Pool :=
  mkPool (pl_client p) (pl_book p) (pl_inbound p) (<[i := t]> (pl_tasks p)) (pl_closers p).
Definition pl_set_closer (p : Pool) (k : nat) (c : Closer) : Pool :=
  mkPool (pl_client p) (pl_book p) (pl_inbound p) (pl_tasks p) (<[k := c]> (pl_closers p)).

Definition tk_set_sockets (t : Task) (s : Shutdown) : Task :=
  mkTask (tk_relays t) (tk_index t) (tk_backoff t) (tk_down_since t) (tk_phase t) s (tk_finished t).
Definition tk_finish (t : Task) : Task :=
  mkTask (tk_relays t) (tk_index t) (tk_backoff t) (tk_down_since t) (tk_phase t) (tk_sockets t) true.

Definition rc_set_driver (c : RelayClient) (i : Z) (d : Driver) : RelayClient :=
  mkRelayClient (rc_home c) (rc_next_id c) (rc_extra c) (<[i := d]> (rc_by_id c)).

(** [relay_client::spawn]. *)
Definition Pool_spawn (relays : list RelaySpec) (book : option TagBook) : Pool :=
  mkPool (RelayClient_spawn relays) book [] {[0 := Task_spawned relays]} [].

(** ** Steps *)

(** The locals of a task with what it shares. *)
Definition task_run (p : Pool) (d : Driver) (t : Task) : Run :=
  mkRun d (pl_book p) (pl_inbound p) (tk_index t) (tk_backoff t) (tk_down_since t) (tk_phase t).

(** Dropping the work drops every socket it still holds. *)
Definition drop_sockets (s : Shutdown) : Shutdown := sd_run s (BDrop <$> elements (dom (sd_guards s))).

Section pool.
Context `{C : Crypto, R : RdvCrypto}.
Context `{!HashIter NodeId RendezvousPeer, !HashIter NodeId PairingRoute, !HashIter NodeId (array 32)}.
Context `{D : !HashIter Z Driver, !HashIterLaws Z Driver D}.

(** A turn of the task, or of the endpoint on what it shares.  [driver] over no
    relay fails at once. *)
Definition task_turn (key : TransportKey) (relays : list RelaySpec) (r : Run) (e : DEvent) : Run :=
  match relays, e, r_phase r with
  | [], DPass _ _ _, Dialling =>
    r_set_phase (r_set_driver r (d_set_receiving (set_status (r_driver r) RelayClient.Failed) false)) Returned
  | _, _, _ => (d_step key relays r e).1
  end.

Inductive PoolEvent : Type :=
  | VFor (relays : list RelaySpec)
  | VTurn (i : Z) (e : DEvent)
  | VSocket (i : Z) (e : BEvent)
  | VFinish (i : Z)
  | VClose
  | VCall
  | VCloser (k : nat).

Definition pl_turn (key : TransportKey) (p : Pool) (i : Z) (e : DEvent) : Pool :=
  match rc_by_id (pl_client p) !! i, pl_tasks p !! i with
  | Some d, Some t =>
    let r := task_turn key (tk_relays t) (task_run p d t) e in
    let sockets :=
      match tk_phase t, r_phase r with
      | Returned, _ => tk_sockets t
      | _, Returned => drop_sockets (tk_sockets t)
      | _, _ => tk_sockets t
      end in
    mkPool (rc_set_driver (pl_client p) i (r_driver r)) (r_book r) (r_inbound r)
      (<[i := mkTask (tk_relays t) (r_index r) (r_backoff r) (r_down_since r) (r_phase r) sockets (tk_finished t)]>
         (pl_tasks p))
      (pl_closers p)
  | _, _ => p
  end.

(** A socket is opened and dropped by the work; the page closes one, and the task
    that holds its guard ends, at any time. *)
Definition pl_socket (p : Pool) (i : Z) (e : BEvent) : Pool :=
  match pl_tasks p !! i with
  | Some t =>
    match e, tk_phase t with
    | (BOpened | BDrop _), Returned => p
    | _, _ => pl_set_task p i (tk_set_sockets t (sd_step (tk_sockets t) e))
    end
  | None => p
  end.

(** The end of the spawned task: [sockets.wait()] and [finished_tx]. *)
Definition pl_finish (p : Pool) (i : Z) : Pool :=
  match pl_tasks p !! i with
  | Some t =>
    match tk_phase t with
    | Returned => if sd_wait (tk_sockets t) then pl_set_task p i (tk_finish t) else p
    | _ => p
    end
  | None => p
  end.

(** [closed], up to its next wait. *)
Definition pl_closer (p : Pool) (k : nat) : Pool :=
  match pl_closers p !! k with
  | Some CloseFirst => pl_set_closer (pl_set_client p (RelayClient_close (pl_client p))) k CloseSnapshot
  | Some CloseSnapshot => pl_set_closer p k (CloseWait (hash_iter (rc_by_id (pl_client p))).*1)
  | Some (CloseWait []) => pl_set_closer p k CloseDone
  | Some (CloseWait (i :: rest)) =>
    if default false (tk_finished <$> pl_tasks p !! i) then pl_set_closer p k (CloseWait rest) else p
  | _ => p
  end.

(** [driver_for], with the task of a driver it starts. *)
Definition pl_for (p : Pool) (relays : list RelaySpec) : Pool :=
  let '(c, i) := driver_for (pl_client p) relays in
  let p' := pl_set_client p c in
  match rc_by_id (pl_client p) !! i with
  | None => pl_set_task p' i (Task_spawned relays)
  | Some _ => p'
  end.

Definition pl_step (key : TransportKey) (p : Pool) (e : PoolEvent) : Pool :=
  match e with
  | VFor relays => pl_for p relays
  | VTurn _ DClose => p
  | VTurn i e => pl_turn key p i e
  | VSocket i e => pl_socket p i e
  | VFinish i => pl_finish p i
  | VClose => pl_set_client p (RelayClient_close (pl_client p))
  | VCall => mkPool (pl_client p) (pl_book p) (pl_inbound p) (pl_tasks p) (pl_closers p ++ [CloseFirst])
  | VCloser k => pl_closer p k
  end.

Definition pl_run (key : TransportKey) (p : Pool) (es : list PoolEvent) : Pool := foldl (pl_step key) p es.

(** ** A turn and the handle *)

(** What no turn changes of a handle. *)
Definition same_handle (d d' : Driver) : Prop := d_id d' = d_id d ∧ d_urls d' = d_urls d ∧ d_stop d' = d_stop d.

Lemma same_handle_refl d : same_handle d d.
Proof. done. Qed.

Lemma same_handle_status d d' s : same_handle d d' → same_handle d (set_status d' s).
Proof. intros H. unfold set_status. by case_bool_decide. Qed.

(** The task returns only by giving up its queue, and having returned never runs
    again. *)
Record turn_kept (r r' : Run) : Prop := {
  tn_handle : same_handle (r_driver r) (r_driver r');
  tn_returned : r_phase r = Returned → r_phase r' = Returned;
  tn_receiving : r_phase r = Returned → d_receiving (r_driver r') = d_receiving (r_driver r);
  tn_gave_up : r_phase r ≠ Returned → r_phase r' = Returned → d_receiving (r_driver r') = false;
}.

Lemma turn_kept_refl r : turn_kept r r.
Proof. split; done. Qed.

Lemma connect_kept key spec r n r' sent ok :
  connect key spec r n = (r', sent, ok) → same_handle (r_driver r) (r_driver r') ∧ r_phase r' = r_phase r.
Proof.
  unfold connect. intros H. repeat case_match; simplify_eq; done.
Qed.

Lemma loop_pass_kept key relays r n now enow :
  same_handle (r_driver r) (r_driver (loop_pass key relays r n now enow).1) ∧
  (r_phase r ≠ Returned → r_phase (loop_pass key relays r n now enow).1 ≠ Returned).
Proof.
  unfold loop_pass. destruct (default false _).
  { split; [by apply same_handle_status | done]. }
  destruct (dialled relays r) as [spec|]; [|done].
  destruct (connect key spec r n) as [[r' sent] ok] eqn:E. apply connect_kept in E as [Hh Hp].
  destruct ok; (split; [by apply same_handle_status | done]).
Qed.

Lemma turn_end_kept r ended now sent :
  let r' := (session_ended r ended now sent).1 in
  same_handle (r_driver r) (r_driver r') ∧ (r_phase r' = Returned → d_receiving (r_driver r') = false).
Proof.
  cbn zeta. unfold session_ended.
  destruct ended, (r_book r); (split; [by apply same_handle_status | done]).
Qed.

Lemma after_turn_handle r t now :
  same_handle (r_driver r) (r_driver (pt_run t)) → r_phase (pt_run t) ≠ Returned →
  let r' := (after_turn t now).1 in
  same_handle (r_driver r) (r_driver r') ∧ (r_phase r' = Returned → d_receiving (r_driver r') = false).
Proof.
  intros Hh Hp. cbn zeta. unfold after_turn. destruct (pt_end t) as [e|]; [|done].
  destruct (turn_end_kept (pt_run t) e now (pt_sent t)) as [(? & ? & ?) ?]. split; [|done].
  destruct Hh as (? & ? & ?). split_and!; congruence.
Qed.

Lemma pump_turn_kept (r : Run) (t : PumpTurn) :
  same_handle (r_driver r) (r_driver (pt_run t)) ∧ r_phase (pt_run t) ≠ Returned →
  ∀ now, let r' := (after_turn t now).1 in
  same_handle (r_driver r) (r_driver r') ∧ (r_phase r' = Returned → d_receiving (r_driver r') = false).
Proof. intros [? ?] now. by apply after_turn_handle. Qed.

Lemma try_send_handle d book dst dg now :
  same_handle d (driver_try_send d book dst dg now).1.1 ∧
  d_receiving (driver_try_send d book dst dg now).1.1 = d_receiving d.
Proof.
  unfold driver_try_send, finish_send, queue_send, current_host. repeat case_match; simplify_eq; done.
Qed.

(** What a pump turn leaves the session's end to deal with. *)
Lemma pump_message_kept r p m now ok :
  r_phase r = Pumping p →
  same_handle (r_driver r) (r_driver (pt_run (pump_message r p m now ok))) ∧
  r_phase (pt_run (pump_message r p m now ok)) ≠ Returned.
Proof.
  intros Ep. unfold pump_message, r_deliver. repeat case_match; simplify_eq; cbn; by rewrite ?Ep.
Qed.

Lemma pump_register_handle r p b epoch now ok :
  same_handle (r_driver r) (r_driver (pt_run (pump_register r p b epoch now ok))) ∧
  r_phase (pt_run (pump_register r p b epoch now ok)) ≠ Returned.
Proof. unfold pump_register. repeat case_match; simplify_eq; done. Qed.

Lemma turn_kept_running r r' p :
  r_phase r = Pumping p →
  same_handle (r_driver r) (r_driver r') ∧ (r_phase r' = Returned → d_receiving (r_driver r') = false) →
  turn_kept r r'.
Proof. intros Ep [? ?]. split; rewrite ?Ep; done. Qed.

Lemma d_step_handle key relays r e : e ≠ DClose → turn_kept r (d_step key relays r e).1.
Proof.
  intros He. destruct e; try done; cbn [d_step].
  1: { destruct (r_phase r) eqn:Ep; [|apply turn_kept_refl..].
    destruct (loop_pass_kept key relays r n now elapsed_now) as [? Hp]. rewrite Ep in Hp.
    split; rewrite ?Ep; try done. intros _ Hr. by destruct Hp. }
  1-5: destruct (r_phase r) as [|p|] eqn:Ep; try apply turn_kept_refl;
    apply (turn_kept_running _ _ _ Ep), pump_turn_kept.
  - unfold pump_ping. destruct send_ok; cbn; by rewrite Ep.
  - unfold pump_refresh. repeat case_match; try apply pump_register_handle; cbn; by rewrite Ep.
  - unfold pump_changed. repeat case_match; try apply pump_register_handle; cbn; by rewrite Ep.
  - unfold pump_outbound, outbound_take, outbound_written. repeat case_match; simplify_eq; cbn; by rewrite Ep.
  - by apply pump_message_kept.
  - destruct (driver_try_send _ _ _ _ _) as [[d b] o] eqn:E. cbn.
    destruct (try_send_handle (r_driver r) (r_book r) destination datagram now_unix) as [? ?]. rewrite E in *.
    split; done.
  - destruct (r_phase r) eqn:Ep; [| |apply turn_kept_refl];
      (destruct (d_stop (r_driver r)); [|apply turn_kept_refl]; split; cbn; rewrite ?Ep; try done;
       by apply same_handle_status).
Qed.

Lemma task_turn_kept key relays r e : e ≠ DClose → turn_kept r (task_turn key relays r e).
Proof.
  intros He. unfold task_turn. destruct relays; [|by apply d_step_handle].
  destruct e; try by apply d_step_handle. destruct (r_phase r) eqn:Ep; try by apply d_step_handle.
  split; cbn; rewrite ?Ep; try done. by apply same_handle_status.
Qed.

(** ** Sockets of a dropped task *)

Lemma sd_drop_guards s id id' :
  sd_guards (sd_drop s id) !! id' =
    (λ g, if bool_decide (id' = id) then WithTask else g) <$> sd_guards s !! id'.
Proof.
  unfold sd_drop. destruct (sd_guards s !! id) as [[]|] eqn:E; cbn.
  - destruct (decide (id' = id)) as [->|Hne].
    + by rewrite lookup_insert_eq, E, bool_decide_true.
    + rewrite lookup_insert_ne by done. rewrite bool_decide_false by done. by destruct (_ !! id').
  - destruct (bool_decide_reflect (id' = id)) as [->|]; [by rewrite E|]. by destruct (_ !! id').
  - destruct (bool_decide_reflect (id' = id)) as [->|]; [by rewrite E|]. by destruct (_ !! id').
Qed.

Lemma sd_drop_next s id : sd_next (sd_drop s id) = sd_next s.
Proof. unfold sd_drop. by destruct (sd_guards s !! id) as [[]|]. Qed.

Lemma drops_guards ids s :
  (∀ id g, sd_guards (sd_run s (BDrop <$> ids)) !! id = Some g → g = WithTask ∨ id ∉ ids) ∧
  dom (sd_guards (sd_run s (BDrop <$> ids))) = dom (sd_guards s) ∧
  sd_next (sd_run s (BDrop <$> ids)) = sd_next s.
Proof.
  induction ids as [|i ids IH] using rev_ind; [split_and!; try done; intros; right; apply not_elem_of_nil|].
  rewrite fmap_app. unfold sd_run in *. cbn [fmap list_fmap]. rewrite foldl_snoc. cbn [sd_step].
  destruct IH as (IH1 & IH2 & IH3). set (t := foldl sd_step s (BDrop <$> ids)) in *. split_and!.
  - intros id g. rewrite sd_drop_guards. intros (g' & Hg' & ->)%fmap_Some_1.
    destruct (bool_decide_reflect (id = i)) as [->|Hne]; [by left|]. destruct (IH1 _ _ Hg'); [by left|].
    right. rewrite elem_of_app, list_elem_of_singleton. tauto.
  - rewrite <- IH2. apply set_eq. intros id. rewrite !elem_of_dom, sd_drop_guards. apply fmap_is_Some.
  - by rewrite sd_drop_next.
Qed.

Lemma drop_sockets_held s :
  (∀ id g, sd_guards (drop_sockets s) !! id = Some g → g = WithTask) ∧ sd_next (drop_sockets s) = sd_next s.
Proof.
  unfold drop_sockets. destruct (drops_guards (elements (dom (sd_guards s))) s) as (H1 & H2 & H3).
  split; [|done]. intros id g Hg. destruct (H1 _ _ Hg) as [|Hn]; [done|]. destruct Hn.
  apply elem_of_elements. rewrite <- H2. by eapply elem_of_dom_2.
Qed.

Lemma sd_run_app_ok s es : sd_ok s → sd_ok (sd_run s es).
Proof. revert s. induction es as [|e es IH]; intros s Hs; [done|]. apply IH. by apply sd_step_ok. Qed.

(** ** The invariant *)

Record task_ok (d : Driver) (t : Task) : Prop := {
  to_sockets : sd_ok (tk_sockets t);
  to_gave_up : tk_phase t = Returned → d_receiving d = false;
  to_held : tk_phase t = Returned → ∀ id g, sd_guards (tk_sockets t) !! id = Some g → g = WithTask;
  to_finished : tk_finished t = true → tk_phase t = Returned ∧ sd_guards (tk_sockets t) = ∅;
}.

Definition closer_ok (p : Pool) (c : Closer) : Prop :=
  match c with
  | CloseFirst => True
  | CloseSnapshot => home_stopped (pl_client p) = true
  | CloseWait ids =>
    home_stopped (pl_client p) = true ∧ (∀ i, i ∈ ids → i ∈ dom (pl_tasks p)) ∧
    ∀ i t, pl_tasks p !! i = Some t → i ∉ ids → tk_finished t = true
  | CloseDone =>
    home_stopped (pl_client p) = true ∧ ∀ i t, pl_tasks p !! i = Some t → tk_finished t = true
  end.

Record pl_ok (home : list RelaySpec) (p : Pool) : Prop := {
  pk_client : pool_inv home (home_stopped (pl_client p)) (pl_client p);
  pk_dom : dom (pl_tasks p) = dom (rc_by_id (pl_client p));
  pk_tasks i d t : rc_by_id (pl_client p) !! i = Some d → pl_tasks p !! i = Some t → task_ok d t;
  pk_closers k c : pl_closers p !! k = Some c → closer_ok p c;
}.

(** What only grows: a stopped pool stays stopped and gains no driver, a finished
    task stays finished and opens no socket. *)
Record pl_mono (p p' : Pool) : Prop := {
  pm_stopped : home_stopped (pl_client p) = true →
    home_stopped (pl_client p') = true ∧ dom (pl_tasks p') = dom (pl_tasks p);
  pm_tasks i t : pl_tasks p !! i = Some t →
    ∃ t', pl_tasks p' !! i = Some t' ∧
      (tk_finished t = true → tk_finished t' = true ∧ sd_next (tk_sockets t') = sd_next (tk_sockets t));
}.

#[local] Instance pl_mono_preorder : PreOrder pl_mono.
Proof.
  split.
  - intros p. split; [done|]. eauto.
  - intros p q r [H1 H2] [H3 H4]. split.
    + intros Hs. destruct (H1 Hs) as [Hs' <-]. by apply H3.
    + intros i t Ht. destruct (H2 _ _ Ht) as (t' & Ht' & Hf). destruct (H4 _ _ Ht') as (t'' & ? & Hf').
      exists t''. split; [done|]. intros Hd. destruct (Hf Hd) as [Hd' <-]. by apply Hf'.
Qed.

Lemma closer_ok_mono p p' c : pl_mono p p' → closer_ok p c → closer_ok p' c.
Proof.
  intros [Hs Ht]. assert (Hdone : ∀ ids : list Z, home_stopped (pl_client p) = true →
    (∀ i t, pl_tasks p !! i = Some t → i ∉ ids → tk_finished t = true) →
    ∀ i t, pl_tasks p' !! i = Some t → i ∉ ids → tk_finished t = true).
  { intros ids Hstop Hall i t' Hi Hn. destruct (Hs Hstop) as [_ Hd].
    assert (is_Some (pl_tasks p !! i)) as [t Hti] by (apply elem_of_dom; rewrite <- Hd; by eapply elem_of_dom_2).
    destruct (Ht _ _ Hti) as (t'' & Hi' & Hf). assert (t'' = t') as -> by congruence.
    apply Hf. by eapply Hall. }
  destruct c as [| |ids|]; cbn.
  - done.
  - intros H. by apply Hs.
  - intros (Hstop & Hin & Hall). destruct (Hs Hstop) as [? Hd]. split_and!; [done| |by apply Hdone].
    intros i Hi. rewrite Hd. by apply Hin.
  - intros (Hstop & Hall). split; [by apply Hs|]. intros i t Hi.
    apply (Hdone [] Hstop) with i; [|done|apply not_elem_of_nil]. eauto.
Qed.

(** The invariant of a step that leaves the callers of [closed] where they are. *)
Lemma pl_ok_step home p p' :
  pl_ok home p → pl_mono p p' → pl_closers p' = pl_closers p →
  pool_inv home (home_stopped (pl_client p')) (pl_client p') →
  dom (pl_tasks p') = dom (rc_by_id (pl_client p')) →
  (∀ i d t, rc_by_id (pl_client p') !! i = Some d → pl_tasks p' !! i = Some t → task_ok d t) →
  pl_ok home p'.
Proof.
  intros H Hm Hc Hi Hd Ht. split; [done..|]. intros k c. rewrite Hc. intros Hk.
  eapply closer_ok_mono; [done|]. by eapply pk_closers.
Qed.

(** A change of one task that keeps what is finished. *)
Lemma pl_set_task_ok home p i t t' :
  pl_ok home p → pl_tasks p !! i = Some t →
  (∀ d, rc_by_id (pl_client p) !! i = Some d → task_ok d t → task_ok d t') →
  (tk_finished t = true → tk_finished t' = true ∧ sd_next (tk_sockets t') = sd_next (tk_sockets t)) →
  pl_ok home (pl_set_task p i t') ∧ pl_mono p (pl_set_task p i t').
Proof.
  intros H Ht Hok Hf. assert (Hd : dom (<[i := t']> (pl_tasks p)) = dom (pl_tasks p)).
  { rewrite dom_insert_L. apply elem_of_dom_2 in Ht. set_solver. }
  assert (Hm : pl_mono p (pl_set_task p i t')).
  { split; cbn; [by split|]. intros j u Hj. destruct (decide (j = i)) as [->|Hne].
    - exists t'. rewrite lookup_insert_eq. assert (u = t) as -> by congruence. done.
    - exists u. rewrite lookup_insert_ne by done. done. }
  split; [|done]. eapply pl_ok_step; try done; cbn; try apply H.
  - rewrite Hd. apply H.
  - intros j d u Hdj. rewrite lookup_insert_Some. intros [[<- <-]|[Hne Hu]].
    + apply Hok; [done|]. by eapply pk_tasks.
    + by eapply pk_tasks.
Qed.

Lemma sd_step_next s e : e ≠ BOpened → sd_next (sd_step s e) = sd_next s.
Proof.
  intros He. destruct e as [|id|id|id]; cbn; [done|apply sd_drop_next| |].
  - unfold sd_page_closed. by destruct (id <? sd_next s).
  - unfold sd_task. destruct (sd_guards s !! id) as [[]|]; try done. by case_bool_decide.
Qed.

(** Once the work is gone, what the page and the closing tasks do. *)
Lemma sd_step_released s e id g :
  e ≠ BOpened → (∀ i, e ≠ BDrop i) → sd_guards (sd_step s e) !! id = Some g → sd_guards s !! id = Some g.
Proof.
  intros H1 H2. destruct e as [|i|i|i]; cbn; [done|by destruct (H2 i)| |].
  - unfold sd_page_closed. by destruct (i <? sd_next s).
  - unfold sd_task. destruct (sd_guards s !! i) as [[]|]; try done. case_bool_decide; [|done].
    cbn. by intros [_ ?]%lookup_delete_Some.
Qed.

Lemma pl_socket_ok home p i e :
  pl_ok home p → pl_ok home (pl_socket p i e) ∧ pl_mono p (pl_socket p i e).
Proof.
  intros H. unfold pl_socket. destruct (pl_tasks p !! i) as [t|] eqn:Et; [|by split].
  assert (Hgo : (tk_phase t = Returned → e ≠ BOpened ∧ ∀ id, e ≠ BDrop id) →
    pl_ok home (pl_set_task p i (tk_set_sockets t (sd_step (tk_sockets t) e))) ∧
    pl_mono p (pl_set_task p i (tk_set_sockets t (sd_step (tk_sockets t) e)))).
  { intros Hr. apply pl_set_task_ok with t; [done..| |].
    - intros d Hd [Hs Hg Hh Hf]. split; cbn.
      + by apply sd_step_ok.
      + done.
      + intros Hp id g Hid. destruct (Hr Hp). eapply Hh; [done|]. by eapply sd_step_released.
      + intros Hfin. destruct (Hf Hfin) as [Hp He]. destruct (Hr Hp) as [? ?]. split; [done|]. apply map_empty.
        intros id. destruct (sd_guards (sd_step _ _) !! id) as [g|] eqn:E; [|done].
        apply sd_step_released in E; [|done..]. by rewrite He in E.
    - intros Hfin. cbn. split; [done|]. apply sd_step_next.
      destruct (rc_by_id (pl_client p) !! i) as [d|] eqn:Ed.
      + apply Hr. by apply (to_finished _ _ (pk_tasks _ _ H _ _ _ Ed Et)).
      + apply elem_of_dom_2 in Et. rewrite (pk_dom _ _ H) in Et. by apply elem_of_dom in Et as [? ?]; congruence. }
  destruct e, (tk_phase t) eqn:Ep; try (by split); apply Hgo; done.
Qed.

Lemma pl_finish_ok home p i : pl_ok home p → pl_ok home (pl_finish p i) ∧ pl_mono p (pl_finish p i).
Proof.
  intros H. unfold pl_finish. destruct (pl_tasks p !! i) as [t|] eqn:Et; [|by split].
  destruct (tk_phase t) eqn:Ep; [by split..|]. destruct (sd_wait (tk_sockets t)) eqn:Ew; [|by split].
  apply pl_set_task_ok with t; [done..| |done].
  intros d _ [Hs Hg Hh Hf]. split; cbn; try done. intros _. split; [done|].
  apply map_size_empty_inv. unfold sd_wait in Ew. apply Z.eqb_eq in Ew. rewrite (sd_exact _ Hs) in Ew. lia.
Qed.

Lemma set_driver_inv home closed c i d d' :
  pool_inv home closed c → rc_by_id c !! i = Some d → same_handle d d' → pool_inv home closed (rc_set_driver c i d').
Proof.
  intros H Hd (Hid & Hu & Hs). pose proof (po_ids _ _ _ H _ _ Hd) as (? & ? & ?). split; cbn; try apply H.
  - destruct (po_home_driver _ _ _ H) as (dh & Hdh & Huh). destruct (decide (i = 0)) as [->|].
    + exists d'. rewrite lookup_insert_eq. split; [done|]. congruence.
    + exists dh. by rewrite lookup_insert_ne.
  - intros j u. rewrite lookup_insert_Some. intros [[<- <-]|[_ Hj]]; [|by apply H].
    split_and!; try lia; congruence.
  - intros urls j Hj. destruct (po_extra _ _ _ H _ _ Hj) as (? & u & Hu' & ?). split; [done|].
    destruct (decide (i = j)) as [->|].
    + exists d'. rewrite lookup_insert_eq. split; [done|]. congruence.
    + exists u. by rewrite lookup_insert_ne.
Qed.

Lemma pl_turn_ok home key p i e :
  e ≠ DClose → pl_ok home p → pl_ok home (pl_turn key p i e) ∧ pl_mono p (pl_turn key p i e).
Proof.
  intros He H. unfold pl_turn. destruct (rc_by_id (pl_client p) !! i) as [d|] eqn:Ed; [|by split].
  destruct (pl_tasks p !! i) as [t|] eqn:Et; [|by split].
  pose proof (task_turn_kept key (tk_relays t) (task_run p d t) e He) as Hk.
  set (r := task_turn _ _ _ _) in *. set (sockets := match tk_phase t with Returned => _ | _ => _ end).
  set (t' := mkTask _ _ _ _ _ sockets _). set (p' := mkPool _ _ _ _ _).
  pose proof (set_driver_inv _ _ _ _ _ _ (pk_client _ _ H) Ed (tn_handle _ _ Hk)) as Hi.
  pose proof (home_stopped_inv _ _ _ Hi) as Hst. cbn in Hi, Hst.
  assert (Hok : task_ok (r_driver r) t').
  { destruct (pk_tasks _ _ H _ _ _ Ed Et) as [Hs Hg Hh Hf]. destruct Hk as [_ Hr1 Hr2 Hr3]. cbn in Hr1, Hr2, Hr3.
    destruct (drop_sockets_held (tk_sockets t)) as [Hds _]. split; cbn.
    - subst sockets. destruct (tk_phase t), (r_phase r); try done; by apply sd_run_app_ok.
    - intros Hr. destruct (tk_phase t) eqn:Ep; [by apply Hr3..|]. rewrite Hr2 by done. by apply Hg.
    - intros Hr. subst sockets. rewrite Hr. destruct (tk_phase t); [done..|]. by apply Hh.
    - intros Hfin. destruct (Hf Hfin) as [Hp ?]. split; [by apply Hr1|]. subst sockets. by rewrite Hp. }
  assert (Hd : dom (pl_tasks p') = dom (pl_tasks p)).
  { cbn. rewrite dom_insert_L. apply elem_of_dom_2 in Et. set_solver. }
  assert (Hm : pl_mono p p').
  { split; [intros Hstop; split; [|done]; cbn; congruence|]. intros j u Hj. cbn.
    destruct (decide (j = i)) as [->|Hne].
    - exists t'. rewrite lookup_insert_eq. assert (u = t) as -> by congruence. split; [done|]. cbn. intros Hfin.
      split; [done|]. destruct (to_finished _ _ (pk_tasks _ _ H _ _ _ Ed Et) Hfin) as [Hp _].
      subst sockets. by rewrite Hp.
    - exists u. by rewrite lookup_insert_ne. }
  split; [|done]. eapply pl_ok_step; try done; cbn.
  - by rewrite Hst.
  - cbn in Hd. rewrite Hd, dom_insert_L, (pk_dom _ _ H). apply elem_of_dom_2 in Ed. set_solver.
  - intros j d' u. rewrite !lookup_insert_Some. intros [[<- <-]|[? Hj]] [[? <-]|[? Hu]]; try done.
    by eapply pk_tasks.
Qed.

(** A request leaves the pool as it was, or adds the task of a new driver to a pool
    that is not stopped. *)
Lemma driver_for_cases home closed c relays :
  pool_inv home closed c →
  let '(c', i) := driver_for c relays in
  (c' = c ∧ is_Some (rc_by_id c !! i)) ∨
  (closed = false ∧ rc_by_id c !! i = None ∧ rc_by_id c' = <[i := spawn_driver i relays]> (rc_by_id c)).
Proof.
  intros H. destruct (po_home_driver _ _ _ H) as (dh & Hdh & _).
  assert (Hhome : is_Some (rc_by_id c !! rc_home c)) by (rewrite (po_home _ _ _ H); eauto).
  unfold driver_for. destruct (_ || _); [by left|]. rewrite (home_stopped_inv _ _ _ H).
  destruct closed; [by left|].
  destruct (rc_extra c !! _) as [i|] eqn:Ee.
  { left. split; [done|]. destruct (po_extra _ _ _ H _ _ Ee) as (_ & d & Hd & _). eauto. }
  destruct (_ <=? _)%nat; [by left|]. right. split_and!; try done.
  destruct (rc_by_id c !! rc_next_id c) eqn:E; [|done]. apply (po_ids _ _ _ H) in E as (_ & _ & ?). lia.
Qed.

Lemma task_spawned_ok i relays : task_ok (spawn_driver i relays) (Task_spawned relays).
Proof. split; try done. apply (sd_run_ok []). Qed.

Lemma pl_for_ok home p relays : pl_ok home p → pl_ok home (pl_for p relays) ∧ pl_mono p (pl_for p relays).
Proof.
  intros H. pose proof (pk_client _ _ H) as Hi. pose proof (driver_for_inv _ _ _ relays Hi) as Hi'.
  pose proof (driver_for_cases _ _ _ relays Hi) as Hc. unfold pl_for.
  destruct (driver_for (pl_client p) relays) as [c i]. cbn in Hi'. destruct Hc as [[-> [d Hd]]|(Hst & Hd & Hby)].
  - rewrite Hd. assert (pl_set_client p (pl_client p) = p) as -> by (by destruct p). by split.
  - rewrite Hd. assert (Hn : pl_tasks p !! i = None).
    { apply not_elem_of_dom. rewrite (pk_dom _ _ H). by apply not_elem_of_dom. }
    assert (Hm : pl_mono p (pl_set_task (pl_set_client p c) i (Task_spawned relays))).
    { split; [congruence|]. intros j t Hj. exists t. cbn. rewrite lookup_insert_ne; [done|]. congruence. }
    split; [|done]. eapply pl_ok_step; try done; cbn.
    + by rewrite (home_stopped_inv _ _ _ Hi').
    + by rewrite Hby, !dom_insert_L, (pk_dom _ _ H).
    + intros j d t. rewrite Hby, !lookup_insert_Some. intros [[<- <-]|[? Hj]] [[? <-]|[? Ht]]; try done.
      * apply task_spawned_ok.
      * by eapply pk_tasks.
Qed.

Lemma pl_close_ok home p :
  pl_ok home p → let p' := pl_set_client p (RelayClient_close (pl_client p)) in pl_ok home p' ∧ pl_mono p p'.
Proof.
  intros H. cbn zeta. pose proof (close_inv _ _ _ (pk_client _ _ H)) as Hi.
  pose proof (home_stopped_inv _ _ _ Hi) as Hst.
  assert (Hm : pl_mono p (pl_set_client p (RelayClient_close (pl_client p)))) by (split; cbn; eauto).
  split; [|done]. eapply pl_ok_step; try done.
  - cbn [pl_set_client pl_client]. by rewrite Hst.
  - cbn. rewrite dom_fmap_L. apply H.
  - intros i d t. cbn. rewrite lookup_fmap_Some. intros (d0 & <- & Hd) Ht.
    by destruct (pk_tasks _ _ H _ _ _ Hd Ht).
Qed.

Lemma pl_set_closer_ok home p k c :
  pl_ok home p → closer_ok p c → pl_ok home (pl_set_closer p k c) ∧ pl_mono p (pl_set_closer p k c).
Proof.
  intros [Hc Hd Ht Hk] Hok. split; [|split; cbn; eauto]. split; try done.
  intros j c'. cbn. rewrite list_lookup_insert_Some. intros [(_ & <- & _)|[_ Hj]]; [done|]. by apply Hk in Hj.
Qed.

Lemma hash_iter_dom (m : gmap Z Driver) i : i ∈ (hash_iter m).*1 ↔ i ∈ dom m.
Proof.
  rewrite hash_iter_perm, elem_of_dom. split.
  - intros ([j d] & -> & Hd%elem_of_map_to_list)%list_elem_of_fmap. eauto.
  - intros [d Hd]. apply list_elem_of_fmap. exists (i, d). split; [done|]. by apply elem_of_map_to_list.
Qed.

Lemma pl_closer_ok home p k : pl_ok home p → pl_ok home (pl_closer p k) ∧ pl_mono p (pl_closer p k).
Proof.
  intros H. unfold pl_closer. destruct (pl_closers p !! k) as [c|] eqn:Ek; [|by split].
  pose proof (pk_closers _ _ H _ _ Ek) as Hc. destruct c as [| |[|i rest]|]; cbn in Hc.
  - destruct (pl_close_ok home p H) as [H1 H2].
    destruct (pl_set_closer_ok home _ k CloseSnapshot H1) as [? ?].
    { apply (home_stopped_inv _ _ _ (close_inv _ _ _ (pk_client _ _ H))). }
    split; [done|]. by etrans.
  - apply pl_set_closer_ok; [done|]. cbn. split_and!; [done| |].
    + intros i. by rewrite hash_iter_dom, (pk_dom _ _ H).
    + intros i t Hi []. apply hash_iter_dom. rewrite <- (pk_dom _ _ H). by eapply elem_of_dom_2.
  - apply pl_set_closer_ok; [done|]. destruct Hc as (? & _ & Hall). split; [done|]. intros i t Hi.
    eapply Hall; [done|]. apply not_elem_of_nil.
  - destruct (pl_tasks p !! i) as [t|] eqn:Et; [|by split]. cbn. destruct (tk_finished t) eqn:Ef; [|by split].
    apply pl_set_closer_ok; [done|]. destruct Hc as (? & Hin & Hall). cbn. split_and!; [done|set_solver|].
    intros j u Hj Hn. destruct (decide (j = i)) as [->|]; [congruence|]. apply (Hall j); [done|]. set_solver.
  - by split.
Qed.

Lemma pl_step_ok home key p e : pl_ok home p → pl_ok home (pl_step key p e) ∧ pl_mono p (pl_step key p e).
Proof.
  intros H. destruct e as [relays|i e|i e|i| | |k]; cbn [pl_step].
  - by apply pl_for_ok.
  - destruct e; try (by apply pl_turn_ok). by split.
  - by apply pl_socket_ok.
  - by apply pl_finish_ok.
  - by apply pl_close_ok.
  - split; [|split; cbn; eauto]. destruct H as [Hc Hd Ht Hk]. split; try done. intros k c. cbn.
    rewrite lookup_app_Some. intros [Hk'|[_ [_ <-]%list_lookup_singleton_Some]]; [by apply Hk in Hk' | done].
  - by apply pl_closer_ok.
Qed.

Lemma pl_run_ok home key p es : pl_ok home p → pl_ok home (pl_run key p es) ∧ pl_mono p (pl_run key p es).
Proof.
  revert p. induction es as [|e es IH]; intros p H; [by split|]. destruct (pl_step_ok home key p e H) as [H1 H2].
  destruct (IH _ H1) as [? ?]. split; [done|]. by etrans.
Qed.

Lemma Pool_spawn_ok home book : pl_ok home (Pool_spawn home book).
Proof.
  pose proof (spawn_inv home) as Hi. split; cbn [Pool_spawn pl_client pl_tasks pl_closers].
  - by rewrite (home_stopped_inv _ _ _ Hi).
  - cbn. by rewrite !dom_singleton_L.
  - intros i d t. cbn. intros [<- <-]%lookup_singleton_Some [_ <-]%lookup_singleton_Some. apply task_spawned_ok.
  - done.
Qed.

(** ** A pool that is closing *)

(** The turns that end a pool: a task notices that it was stopped, the page confirms
    that a socket closed and the task holding its guard ends, a task finishes, and
    [closed] is polled.  None of them needs the network or a relay. *)
Definition winding_down (e : PoolEvent) : bool :=
  match e with
  | VTurn _ DStopped | VSocket _ (BPageClosed _ | BTask _) | VFinish _ | VCloser _ => true
  | _ => false
  end.

Lemma pl_run_app key p es es' : pl_run key p (es ++ es') = pl_run key (pl_run key p es) es'.
Proof. apply foldl_app. Qed.

Lemma wind_turn home key p i t :
  pl_ok home p → home_stopped (pl_client p) = true → pl_tasks p !! i = Some t →
  ∃ t', pl_tasks (pl_step key p (VTurn i DStopped)) !! i = Some t' ∧ tk_phase t' = Returned.
Proof.
  intros H Hs Ht. pose proof (elem_of_dom_2 _ _ _ Ht) as Hin. rewrite (pk_dom _ _ H) in Hin.
  apply elem_of_dom in Hin as [d Hd]. cbn [pl_step]. unfold pl_turn. rewrite Hd, Ht. eexists. cbn [pl_tasks].
  rewrite lookup_insert_eq. split; [done|]. cbn [tk_phase].
  destruct (po_ids _ _ _ (pk_client _ _ H) _ _ Hd) as (_ & Hst & _). rewrite Hs in Hst.
  unfold task_turn. destruct (tk_relays t); cbn -[set_status]; rewrite Hst; by destruct (tk_phase t) eqn:Ep; cbn.
Qed.

(** What the page and the closing tasks do to the sockets of a task that returned. *)
Lemma wind_sockets key p i t es :
  pl_tasks p !! i = Some t → tk_phase t = Returned → Forall (λ e, winding_down (VSocket i e) = true) es →
  let p' := pl_run key p (VSocket i <$> es) in
  pl_tasks p' !! i = Some (tk_set_sockets t (sd_run (tk_sockets t) es)) ∧ pl_closers p' = pl_closers p.
Proof.
  revert p t. induction es as [|e es IH]; intros p t Ht Hp Hes; cbn zeta.
  { cbn. rewrite Ht. by destruct t. }
  apply Forall_cons_1 in Hes as [He Hes]. cbn [fmap list_fmap]. change (pl_run key p (?x :: ?l)) with (pl_run key (pl_step key p x) l).
  assert (pl_step key p (VSocket i e) = pl_set_task p i (tk_set_sockets t (sd_step (tk_sockets t) e))) as ->.
  { cbn [pl_step]. unfold pl_socket. rewrite Ht, Hp. by destruct e. }
  destruct (IH (pl_set_task p i (tk_set_sockets t (sd_step (tk_sockets t) e)))
               (tk_set_sockets t (sd_step (tk_sockets t) e))) as [-> ->]; cbn; [by rewrite lookup_insert_eq|done..].
Qed.

Lemma page_closes ids s :
  (∀ id, id ∈ ids → id < sd_next s) →
  sd_guards (sd_run s (BPageClosed <$> ids)) = sd_guards s ∧ ∀ id, id ∈ ids → id ∈ sd_closed (sd_run s (BPageClosed <$> ids)).
Proof.
  induction ids as [|i ids IH] using rev_ind; intros Hlt; [split; [done|]; intros ? []%not_elem_of_nil|].
  rewrite fmap_app. unfold sd_run in *. cbn [fmap list_fmap]. rewrite foldl_snoc. cbn [sd_step].
  destruct IH as [IH1 IH2]; [intros; apply Hlt; set_solver|]. set (t := foldl sd_step s _) in *.
  assert (Hn : sd_next t = sd_next s).
  { subst t. clear. induction ids as [|j ids IH] using rev_ind; [done|].
    rewrite fmap_app. cbn [fmap list_fmap]. rewrite foldl_snoc. by rewrite sd_step_next. }
  unfold sd_page_closed. rewrite Hn. assert (Hi : i < sd_next s) by (apply Hlt; set_solver).
  destruct (Z.ltb_spec i (sd_next s)); [|lia]. cbn. split; [done|]. set_solver.
Qed.

(** A stopped task finishes, whatever it was doing. *)
Lemma wind_task home key p i :
  pl_ok home p → home_stopped (pl_client p) = true → i ∈ dom (pl_tasks p) →
  ∃ es, Forall (λ e, winding_down e = true) es ∧ pl_closers (pl_run key p es) = pl_closers p ∧
    ∃ t, pl_tasks (pl_run key p es) !! i = Some t ∧ tk_finished t = true.
Proof.
  intros H Hs [t0 Ht0]%elem_of_dom. destruct (wind_turn home key p i t0 H Hs Ht0) as (t & Ht & Hp).
  pose proof (pl_step_ok home key p (VTurn i DStopped) H) as [H1 _].
  assert (Hc1 : pl_closers (pl_step key p (VTurn i DStopped)) = pl_closers p).
  { cbn [pl_step]. unfold pl_turn. by repeat case_match. }
  set (p1 := pl_step key p (VTurn i DStopped)) in *.
  assert (∃ d, rc_by_id (pl_client p1) !! i = Some d) as [d Hd].
  { apply elem_of_dom. rewrite <- (pk_dom _ _ H1). by eapply elem_of_dom_2. }
  pose proof (pk_tasks _ _ H1 _ _ _ Hd Ht) as Hok. set (ids := elements (dom (sd_guards (tk_sockets t)))).
  set (ss := (BPageClosed <$> ids) ++ (BTask <$> ids)).
  destruct (wind_sockets key p1 i t ss Ht Hp) as [Ht2 Hc2].
  { apply Forall_app. split; by apply Forall_fmap, Forall_true. }
  destruct (page_closes ids (tk_sockets t)) as [Hg Hcl].
  { intros id [g Hid]%elem_of_elements%elem_of_dom. by destruct (sd_fresh _ (to_sockets _ _ Hok) _ _ Hid). }
  assert (Hempty : sd_guards (sd_run (tk_sockets t) ss) = ∅).
  { subst ss. unfold sd_run. rewrite foldl_app. fold (sd_run (tk_sockets t) (BPageClosed <$> ids)).
    apply sd_tasks_drain. intros id g. rewrite Hg. intros Hid.
    assert (id ∈ ids) by (apply elem_of_elements; by eapply elem_of_dom_2).
    split_and!; [done|by eapply to_held|by apply Hcl]. }
  exists (VTurn i DStopped :: (VSocket i <$> ss) ++ [VFinish i]). split_and!.
  - apply Forall_cons_2; [done|]. apply Forall_app. split; [|by apply Forall_singleton].
    apply Forall_fmap, Forall_app. split; by apply Forall_fmap, Forall_true.
  - change (pl_run key p (?x :: ?l)) with (pl_run key p1 l). rewrite pl_run_app.
    change (pl_run key ?q [VFinish i]) with (pl_finish q i). unfold pl_finish.
    rewrite Ht2. cbn [tk_phase tk_set_sockets]. rewrite Hp. cbn zeta in Hc2. case_match; cbn [pl_set_task pl_closers]; by rewrite Hc2.
  - change (pl_run key p (?x :: ?l)) with (pl_run key p1 l). rewrite pl_run_app.
    change (pl_run key ?q [VFinish i]) with (pl_finish q i). unfold pl_finish.
    rewrite Ht2. cbn [tk_phase tk_set_sockets]. rewrite Hp. cbn [tk_sockets tk_set_sockets].
    assert (sd_wait (sd_run (tk_sockets t) ss) = true) as ->.
    { unfold sd_wait. rewrite (sd_exact _ (sd_run_app_ok _ ss (to_sockets _ _ Hok))), Hempty. by rewrite map_size_empty. }
    eexists. cbn. by rewrite lookup_insert_eq.
Qed.

Lemma wind_tasks home key (ids : list Z) p :
  pl_ok home p → home_stopped (pl_client p) = true → (∀ i, i ∈ ids → i ∈ dom (pl_tasks p)) →
  ∃ es, Forall (λ e, winding_down e = true) es ∧ pl_closers (pl_run key p es) = pl_closers p ∧
    ∀ i, i ∈ ids → ∃ t, pl_tasks (pl_run key p es) !! i = Some t ∧ tk_finished t = true.
Proof.
  revert p. induction ids as [|i ids IH]; intros p H Hs Hin.
  { exists []. split_and!; try done. intros i []%not_elem_of_nil. }
  destruct (wind_task home key p i H Hs) as (es1 & He1 & Hc1 & t & Ht & Hf); [apply Hin; set_solver|].
  destruct (pl_run_ok home key p es1 H) as [H1 [Hm1 _]]. destruct (Hm1 Hs) as [Hs1 Hd1].
  destruct (IH (pl_run key p es1) H1 Hs1) as (es2 & He2 & Hc2 & Hall).
  { intros j Hj. rewrite Hd1. apply Hin. set_solver. }
  exists (es1 ++ es2). rewrite pl_run_app. split_and!; [by apply Forall_app|congruence|].
  intros j [->|Hj]%elem_of_cons; [|by apply Hall].
  destruct (pl_run_ok home key _ es2 H1) as [_ [_ Hm2]]. destruct (Hm2 _ _ Ht) as (t' & Ht' & Hf'). exists t'.
  split; [done|]. by apply Hf'.
Qed.

(** [closed] passes the drivers that finished. *)
Lemma wait_done key k ids p :
  pl_closers p !! k = Some (CloseWait ids) →
  (∀ i, i ∈ ids → ∃ t, pl_tasks p !! i = Some t ∧ tk_finished t = true) →
  pl_closers (pl_run key p (replicate (S (length ids)) (VCloser k))) !! k = Some CloseDone.
Proof.
  revert p. induction ids as [|i ids IH]; intros p Hk Hall.
  { cbn. unfold pl_closer. rewrite Hk. cbn. apply list_lookup_insert_eq. by eapply lookup_lt_Some. }
  cbn [length]. rewrite replicate_S. change (pl_run key p (?x :: ?l)) with (pl_run key (pl_step key p x) l).
  cbn [pl_step]. unfold pl_closer at 1. rewrite Hk. destruct (Hall i) as (t & Ht & Hf); [set_solver|]. rewrite Ht.
  cbn [fmap option_fmap option_map default]. rewrite Hf. apply IH.
  - cbn. apply list_lookup_insert_eq. by eapply lookup_lt_Some.
  - intros j Hj. apply Hall. set_solver.
Qed.

(** From its snapshot on, a call of [closed] can come to its end. *)
Lemma closed_can_end home key p k :
  pl_ok home p → pl_closers p !! k = Some CloseSnapshot ∨ (∃ ids, pl_closers p !! k = Some (CloseWait ids)) →
  ∃ es, Forall (λ e, winding_down e = true) es ∧ pl_closers (pl_run key p es) !! k = Some CloseDone.
Proof.
  assert (Hwait : ∀ q ids, pl_ok home q → pl_closers q !! k = Some (CloseWait ids) →
    ∃ es, Forall (λ e, winding_down e = true) es ∧ pl_closers (pl_run key q es) !! k = Some CloseDone).
  { intros q ids Hq Hk. pose proof (pk_closers _ _ Hq _ _ Hk) as (Hs & Hin & _).
    destruct (wind_tasks home key ids q Hq Hs Hin) as (es & He & Hc & Hall).
    exists (es ++ replicate (S (length ids)) (VCloser k)). split.
    - apply Forall_app. split; [done|]. by apply Forall_replicate.
    - rewrite pl_run_app. apply wait_done; [congruence | done]. }
  intros H [Hk|[ids Hk]]; [|by eapply Hwait].
  destruct (pl_closer_ok home p k H) as [H1 _].
  destruct (Hwait (pl_closer p k) (hash_iter (rc_by_id (pl_client p))).*1 H1) as (es & ? & ?).
  { unfold pl_closer. rewrite Hk. cbn. apply list_lookup_insert_eq. by eapply lookup_lt_Some. }
  exists (VCloser k :: es). split; [by apply Forall_cons_2 | done].
Qed.

(** C17: waiting for a pool to close, whatever its drivers, their tasks and sockets, and
    other callers did before and do after.  A call of [closed] can always be brought
    to its end by the tasks noticing that they were stopped and the page confirming
    that sockets closed; no relay has to answer.  And once a call has ended, no
    driver is ever added, every driver is stopped with its queue closed, every task
    finished, no socket is opened again, and every socket ever opened was closed by
    the page. *)
Theorem closed_is_a_barrier home book key before k c :
  let p := pl_run key (Pool_spawn home book) before in
  pl_closers p !! k = Some c →
  (∃ es, Forall (λ e, winding_down e = true) es ∧ pl_closers (pl_run key p es) !! k = Some CloseDone) ∧
  (c = CloseDone → ∀ after,
   let p' := pl_run key p after in
   dom (rc_by_id (pl_client p')) = dom (rc_by_id (pl_client p)) ∧
   ∀ i d, rc_by_id (pl_client p') !! i = Some d →
     d_stop d = true ∧ d_receiving d = false ∧
     ∃ t t', pl_tasks p !! i = Some t ∧ pl_tasks p' !! i = Some t' ∧ tk_phase t' = Returned ∧ tk_finished t' = true ∧
       sd_next (tk_sockets t') = sd_next (tk_sockets t) ∧
       ∀ s, 0 <= s < sd_next (tk_sockets t') → s ∈ sd_closed (tk_sockets t')).
Proof.
  cbn zeta. intros Hk. destruct (pl_run_ok home key (Pool_spawn home book) before (Pool_spawn_ok home book)) as [H _].
  set (p := pl_run key _ before) in *. split.
  - destruct c as [| |ids|]; [|apply (closed_can_end home key p k H); eauto..|by exists []].
    destruct (pl_closer_ok home p k H) as [H1 _].
    destruct (closed_can_end home key (pl_closer p k) k H1) as (es & ? & ?).
    { left. unfold pl_closer. rewrite Hk. cbn. apply list_lookup_insert_eq. by eapply lookup_lt_Some. }
    exists (VCloser k :: es). split; [by apply Forall_cons_2 | done].
  - intros -> after. destruct (pl_run_ok home key p after H) as [H' [Hms Hmt]].
    pose proof (pk_closers _ _ H _ _ Hk) as [Hs Hall]. destruct (Hms Hs) as [Hs' Hd].
    split; [by rewrite <- (pk_dom _ _ H), <- (pk_dom _ _ H')|]. intros i d Hi.
    assert (is_Some (pl_tasks p !! i)) as [t Ht].
    { apply elem_of_dom. rewrite <- Hd, (pk_dom _ _ H'). by eapply elem_of_dom_2. }
    destruct (Hmt _ _ Ht) as (t' & Ht' & Hf). destruct (Hf (Hall _ _ Ht)) as [Hfin Hn].
    pose proof (pk_tasks _ _ H' _ _ _ Hi Ht') as Hok. destruct (to_finished _ _ Hok Hfin) as [Hp Hg].
    destruct (po_ids _ _ _ (pk_client _ _ H') _ _ Hi) as (_ & Hst & _). split_and!; [congruence|by apply Hok|].
    exists t, t'. split_and!; try done. intros s Hsn. apply (sd_released _ (to_sockets _ _ Hok) s Hsn). by rewrite Hg.
Qed.

End pool.

(** ** Concrete inputs *)

Section example_pool.
#[local] Existing Instances toy_crypto toy_rdv.
#[local] Instance px_peers_order : HashIter NodeId RendezvousPeer := map_order _ _.
#[local] Instance px_pairing_order : HashIter NodeId PairingRoute := map_order _ _.
#[local] Instance px_paired_order : HashIter NodeId (array 32) := map_order _ _.
#[local] Instance px_driver_order : HashIter Z Driver := map_order _ _.
#[local] Instance px_driver_laws : HashIterLaws Z Driver px_driver_order := map_order_laws _ _.

Definition px_key : TransportKey := TransportKey_from_seed (pad_array 32 (lit "seed")).
Definition px_other : list RelaySpec := [RelaySpec_plain (lit "wss://other.example")].
Definition px_late : list RelaySpec := [RelaySpec_plain (lit "wss://late.example")].

(** Two drivers come up, each over a browser socket, the first after a socket that
    was replaced; the endpoint closes, and is asked for one relay more.  Driver [0]
    is left waiting for its replaced socket. *)
Definition px_closing : list PoolEvent :=
  [VFor px_other; VSocket 0 BOpened; VSocket 0 (BDrop 0); VSocket 0 BOpened; VTurn 0 (DPass ex_dial 0 0);
   VSocket 1 BOpened; VTurn 1 (DPass ex_dial 0 0); VCall; VCloser 0; VFor px_late; VCloser 0;
   VTurn 0 DStopped; VTurn 1 DStopped; VSocket 0 (BPageClosed 1); VSocket 0 (BTask 1); VFinish 0;
   VSocket 1 (BPageClosed 0); VSocket 1 (BTask 0); VFinish 1; VCloser 0].

Definition px_closed : list PoolEvent :=
  px_closing ++ [VSocket 0 (BPageClosed 0); VSocket 0 (BTask 0); VFinish 0; VCloser 0; VCloser 0; VCloser 0].

Example px_waits :
  let p := pl_run px_key (Pool_spawn ex_relays None) px_closing in
  pl_closers p = [CloseWait [0]] ∧ tk_finished <$> pl_tasks p !! 0 = Some false ∧
  tk_finished <$> pl_tasks p !! 1 = Some true ∧ pl_tasks p !! 2 = None.
Proof. by vm_compute. Qed.

(** Asked again after its end, the pool starts nothing. *)
Lemma closed_is_a_barrier_witness :
  pl_closers (pl_run px_key (Pool_spawn ex_relays None) px_closed) !! 0%nat = Some CloseDone ∧
  let p' := pl_run px_key (Pool_spawn ex_relays None) (px_closed ++ [VFor px_late; VSocket 0 BOpened]) in
  dom (rc_by_id (pl_client p')) = dom (rc_by_id (pl_client (pl_run px_key (Pool_spawn ex_relays None) px_closed))).
Proof.
  assert (Hd : pl_closers (pl_run px_key (Pool_spawn ex_relays None) px_closed) !! 0%nat = Some CloseDone) by (by vm_compute).
  split; [exact Hd|]. cbn zeta. rewrite pl_run_app.
  exact (proj1 (proj2 (closed_is_a_barrier ex_relays None px_key px_closed 0 CloseDone Hd) eq_refl [VFor px_late; VSocket 0 BOpened])).
Defined.

End example_pool.
