(* ===== verification/Keys.v ===== *)
(** * Keys: the text of identities and fresh keys ([link-core/src/id.rs],
      [link-core/src/rendezvous.rs])

    The hex spelling of a node identity, how identities are shown, and the keys a
    node draws: its transport key and the ephemeral of a card.  The random source
    is an input.  Making a secp256k1 public key belongs to the curve library. *)

From S2P Require Import Prelude Net Id Rendezvous Card TagBook Blossom.

Open Scope Z_scope.

(** [SecretKey::public_key] with [to_sec1_bytes]. *)
Class Secp256k1 : Type := {
  sec1_public : array 32 → list byte;
}.

(** What is documented of it: a compressed point of 33 bytes that parses again, and
    an exchange that gives both ends the same point. *)
Class Secp256k1Laws (R : RdvCrypto) (P : Secp256k1) : Prop := {
  sec1_length s : scalar_valid s = true → length (sec1_public s) = 33%nat;
  sec1_compressed s b : scalar_valid s = true → sec1_public s !! 0%nat = Some b → b = Byte.x02 ∨ b = Byte.x03;
  sec1_parses_public s : scalar_valid s = true → sec1_parses (sec1_public s) = true;
  dh_x_agree s t A B : scalar_valid s = true → scalar_valid t = true →
    bytes_of A = sec1_public s → bytes_of B = sec1_public t → dh_x s B = dh_x t A;
}.

Section keys.
Context `{C : Crypto, R : RdvCrypto, P : Secp256k1, X : Hex}.

(** ** Text *)

Definition NodeId_from_hex (text : list byte) : option NodeId :=
  raw ← hex_decode text;
  NodeId_from_slice raw.

Definition NodeId_to_hex (n : NodeId) : list byte := hex_encode (as_bytes n).

Definition NodeId_display (n : NodeId) : list byte := NodeId_to_base32 n.

(** ** Fresh keys *)

Definition TransportKey_generate (seed : array 32) : TransportKey := TransportKey_from_seed seed.

(** [SecretKey::random]: candidates are drawn until one is a scalar. *)
Fixpoint secret_random (draws : list (array 32)) : option (array 32) :=
  match draws with
  | [] => None
  | d :: draws => if scalar_valid d then Some d else secret_random draws
  end.

(** [copy_from_slice] into an array of 33 panics on any other length.  [None] is a
    source that has not yet given a scalar. *)
Definition generate_ephemeral (draws : list (array 32)) : option (exec (array 32 * array 33)) :=
  secret ← secret_random draws;
  Some (compressed ← expect (try_array 33 (sec1_public secret)); Ret (secret, compressed)).

(** ** Facts *)

Context {XL : HexLaws X} {PL : Secp256k1Laws R P}.

(** Both spellings of an identity are read back. *)
Lemma node_text_roundtrip n :
  NodeId_from_hex (NodeId_to_hex n) = Some n ∧ NodeId_from_base32 (NodeId_display n) = Some n.
Proof.
  split; [|apply base32_roundtrip].
  unfold NodeId_from_hex, NodeId_to_hex. rewrite hex_decode_encode. cbn. apply NodeId_from_slice_bytes.
Qed.

(** Of the hex texts of an identity only the lower-case one is printed. *)
Lemma node_hex_canonical text n :
  forallb lower_hex text = true → NodeId_from_hex text = Some n → text = NodeId_to_hex n.
Proof.
  intros Hl. unfold NodeId_from_hex, NodeId_to_hex. destruct (hex_decode text) as [raw|] eqn:E; [|done]. cbn.
  intros ->%NodeId_from_slice_Some. symmetry. by apply hex_encode_decode.
Qed.

Lemma secret_random_valid draws s : secret_random draws = Some s → scalar_valid s = true.
Proof.
  induction draws as [|d draws IH]; cbn; [done|]. destruct (scalar_valid d) eqn:E; [by intros [= <-] | done].
Qed.

(** Drawing an ephemeral never panics, and gives a scalar with its compressed point. *)
Lemma generate_ephemeral_spec draws r :
  generate_ephemeral draws = Some r →
  ∃ s A, r = Ret (s, A) ∧ scalar_valid s = true ∧ bytes_of A = sec1_public s.
Proof.
  unfold generate_ephemeral. destruct (secret_random draws) as [s|] eqn:E; [|done]. cbn. intros [= <-].
  apply secret_random_valid in E. destruct (try_array_is_Some (sec1_public s) (n := 33%nat)) as (A & -> & HA).
  { by apply sec1_length. }
  by exists s, A.
Qed.

Lemma generated_point draws s A :
  generate_ephemeral draws = Some (Ret (s, A)) →
  scalar_valid s = true ∧ bytes_of A = sec1_public s ∧
  ∃ b, index (bytes_of A) 0 = Ret b ∧ canonical_sec1_tag b = true ∧ sec1_parses (bytes_of A) = true.
Proof.
  intros H. apply generate_ephemeral_spec in H as (s' & A' & [= <- <-] & Hs & HA). split_and!; [done..|].
  destruct (index_ok (bytes_of A) 0) as (b & Hb & Hl); [rewrite bytes_of_length; lia|]. exists b. split; [done|].
  rewrite HA in *. split; [|by apply sec1_parses_public]. unfold canonical_sec1_tag.
  destruct (sec1_compressed s b Hs Hl) as [->| ->]; done.
Qed.

Lemma generated_exchange draws draws' s A t B :
  generate_ephemeral draws = Some (Ret (s, A)) → generate_ephemeral draws' = Some (Ret (t, B)) →
  ecdh_x s B = Ret (Some (dh_x s B)) ∧ dh_x s B = dh_x t A.
Proof.
  intros (Hs & HA & _)%generated_point (Ht & HB & b & Hb & Htb & Hpb)%generated_point.
  split; [|by apply dh_x_agree]. unfold ecdh_x. rewrite Hb. cbn. by rewrite Htb, Hs, Hpb.
Qed.

Lemma generated_hint draws s A :
  generate_ephemeral draws = Some (Ret (s, A)) → valid_compressed_point (bytes_of A) = Ret true.
Proof.
  intros (_ & _ & b & Hb & Ht & Hp)%generated_point. unfold valid_compressed_point.
  rewrite bytes_of_length, Hb. cbn. by rewrite Ht, Hp.
Qed.

Context `{I1 : !HashIter NodeId RendezvousPeer, I2 : !HashIter NodeId PairingRoute, I3 : !HashIter NodeId (array 32)}.
Context {L1 : HashIterLaws _ _ I1} {L2 : HashIterLaws _ _ I2} {L3 : HashIterLaws _ _ I3}.

(** Two nodes that drew the ephemerals of their cards meet.  Each public key is a
    hint that card verification takes, and each node computes the same coordinate
    from its own scalar and the other's public key.  Entered in the tag books, under
    whatever the clocks say within an hour of each other and on any relay, the tag
    one of them sends to is registered by the other, which resolves it. *)
Theorem generated_ephemerals_meet case static_x draws draws' s A t B :
  generate_ephemeral draws = Some (Ret (s, A)) → generate_ephemeral draws' = Some (Ret (t, B)) →
  valid_compressed_point (bytes_of A) = Ret true ∧ valid_compressed_point (bytes_of B) = Ret true ∧
  ∃ eph, ecdh_x s B = Ret (Some eph) ∧ ecdh_x t A = Ret (Some eph) ∧
    ∀ b b' peer peer' host now now',
      u64 now → u64 now' → Z.abs (now - now') <= EPOCH_SECONDS →
      tb_pairing b !! peer = None → tb_paired b !! peer = None →
      let entry := mkRendezvousPeer case static_x eph in
      ∃ tag, derive_for_send (prune_expired (upsert b peer entry) now) peer host (epoch_index now) = Some tag ∧
        tag ∈ snd (registration (upsert b' peer' entry) host now') ∧
        is_Some (snd (resolve (upsert b' peer' entry) tag host now')).
Proof.
  intros HA HB. destruct (generated_exchange _ _ _ _ _ _ HA HB) as [Hs Heq].
  destruct (generated_exchange _ _ _ _ _ _ HB HA) as [Ht _]. split_and!; [by eapply generated_hint..|].
  exists (dh_x s B). split_and!; [done|by rewrite Heq|].
  intros b b' peer peer' host now now' Hnow Hnow' Hskew Hp Hd entry.
  pose proof (epoch_skew _ _ Hnow Hnow' Hskew) as He.
  assert (Hkeep : ∀ c n, tb_peers (prune_expired c n) = tb_peers c ∧ tb_paired (prune_expired c n) = tb_paired c).
  { intros c n. unfold prune_expired. by destruct (_ || _). }
  assert (Hsend : send_material (prune_expired (upsert b peer entry) now) peer = Some (RPair case static_x (dh_x s B))).
  { unfold send_material. destruct (Hkeep (upsert b peer entry) now) as [-> ->].
    rewrite prune_lookup. cbn. rewrite Hp, Hd. cbn. by rewrite lookup_insert_eq. }
  assert (Hheld : holds_material (prune_expired (upsert b' peer' entry) now') peer' (RPair case static_x (dh_x s B))).
  { apply (holds_pair _ peer' entry). destruct (Hkeep (upsert b' peer' entry) now') as [-> _]. cbn. by rewrite lookup_insert_eq. }
  exists (derive_material (RPair case static_x (dh_x s B)) host (epoch_index now)). split_and!.
  - by rewrite derive_for_send_material, Hsend.
  - apply registration_elem. by exists peer', (RPair case static_x (dh_x s B)), (epoch_index now).
  - by eapply resolve_complete.
Qed.

End keys.

(** ** Concrete inputs *)

(** A curve for evaluation: points are scalars, the exchange adds them. *)
Definition toy_dh : RdvCrypto := {|
  hkdf16 salt ikm info := pad_array 16 (rev (ikm ++ info));
  sec1_parses _ := true;
  scalar_valid s := negb (from_be (bytes_of s) =? 0);
  dh_x s p := pad_array 32 (to_be 32 (from_be (bytes_of s) + from_be (drop 1 (bytes_of p))));
|}.

Definition toy_secp : Secp256k1 := {| sec1_public s := Byte.x02 :: bytes_of s |}.

Lemma toy_secp_laws : Secp256k1Laws toy_dh toy_secp.
Proof.
  split; cbn.
  - intros s _. by rewrite bytes_of_length.
  - intros s b _ [= <-]. by left.
  - done.
  - intros s t A B _ _ -> ->. cbn. by rewrite !drop_0, Z.add_comm.
Qed.

Section example_keys.
#[local] Existing Instances toy_crypto toy_dh toy_secp toy_secp_laws ascii_hex ascii_hex_laws.
#[local] Instance kx_peers_order : HashIter NodeId RendezvousPeer := map_order _ _.
#[local] Instance kx_pairing_order : HashIter NodeId PairingRoute := map_order _ _.
#[local] Instance kx_paired_order : HashIter NodeId (array 32) := map_order _ _.
#[local] Existing Instance map_order_laws.

Definition kx_a : array 32 := pad_array 32 (lit "alice").
Definition kx_b : array 32 := pad_array 32 (lit "bob").
Definition kx_point (s : array 32) : array 33 := pad_array 33 (Byte.x02 :: bytes_of s).

Lemma kx_point_sec1 s : try_array 33 (Byte.x02 :: bytes_of s) = Some (kx_point s).
Proof.
  apply try_array_Some. unfold kx_point. rewrite bytes_of_pad; [done|]. cbn. by rewrite bytes_of_length.
Qed.

(** Alice's source first gives zero, which is no scalar. *)
Lemma generated_ephemerals_meet_witness :
  ∃ eph, ecdh_x kx_a (kx_point kx_b) = Ret (Some eph) ∧
    let entry := mkRendezvousPeer TagBoth (pad_array 32 (lit "static")) eph in
    ∃ tag, tag ∈ snd (registration (upsert (TagBook_new ∅) (ex_id 1) entry) (lit "relay.example") 10800) ∧
      derive_for_send (prune_expired (upsert (TagBook_new ∅) (ex_id 2) entry) 7300) (ex_id 2) (lit "relay.example") 2 = Some tag.
Proof.
  destruct (generated_ephemerals_meet TagBoth (pad_array 32 (lit "static")) [pad_array 32 []; kx_a] [kx_b]
              kx_a (kx_point kx_a) kx_b (kx_point kx_b)) as (_ & _ & eph & He & _ & Hm).
  - change (Some (compressed ← expect (try_array 33 (Byte.x02 :: bytes_of kx_a)); Ret (kx_a, compressed)) = Some (Ret (kx_a, kx_point kx_a))).
    rewrite kx_point_sec1. reflexivity.
  - change (Some (compressed ← expect (try_array 33 (Byte.x02 :: bytes_of kx_b)); Ret (kx_b, compressed)) = Some (Ret (kx_b, kx_point kx_b))).
    rewrite kx_point_sec1. reflexivity.
  - exists eph. split; [exact He|]. cbn zeta.
    destruct (Hm (TagBook_new ∅) (TagBook_new ∅) (ex_id 2) (ex_id 1) (lit "relay.example") 7300 10800) as (tag & H1 & H2 & _).
    + split; vm_compute; congruence.
    + split; vm_compute; congruence.
    + vm_compute; congruence.
    + reflexivity.
    + reflexivity.
    + exists tag. split; [exact H2|exact H1].
Defined.

End example_keys.
